(* ===== verification/_CoqProject ===== *)
-Q . S2P
Prelude.v
Types.v
Paths.v
Text.v
JsonSyntax.v
Json.v
Timestamp.v
Durations.v
Flags.v
Persister.v
FilePersister.v
Node.v
Election.v
Replication.v
Snapshot.v
CatchUp.v
Cluster.v
ElectionSafety.v
Protocol.v
LogFrames.v
ClusterRefinement.v
ClusterSafety.v
NodeInvariant.v
Turns.v
Delivery.v
Provenance.v
KvCodec.v
Kv.v
KvFacts.v
Dedup.v
Waiters.v
System.v
Calls.v
Linearizability.v
Replicas.v
Clerk.v
ClusterConfig.v
Lifecycle.v
Programs.v
