(* ===== verification/Prelude.v ===== *)
(** * distribKV: a replicated key-value store on Raft, verified

    distribKV is a Go program.  Every node runs a Raft consensus engine
    ([raft/]), a key-value state machine on top of it ([kv/]), and a gRPC server
    around both ([server/], [cmd/]); clients use the [Clerk] of [kv/clerk.go].
    A write travels like this: [Clerk.Do] calls the [Put] handler of a server,
    [submitOperation] hands the encoded command to [Raft.ReplicateCommand], the
    leader appends it to its log, saves it through a [Persister] and sends it to
    its peers with [AppendEntries]; [updateCommitIndex] commits it when a
    majority holds it; [applyLoop] delivers it on [applyCh]; [processApplyMsg]
    executes it on the map and passes the result to the handler that waits.
    When enough entries have been applied the server gives Raft a snapshot of
    the map and the log is cut ([Snapshot]); a follower that is too far behind
    receives the snapshot ([InstallSnapshot]).

    ** Files

    - [Prelude] (this file): machine integers with their wrap-around, Go slices
      indexed by [Z], errors and results, the tactics and the hint database.
    - [Types]: log entries, roles, apply messages, RPC messages
      ([raft/types.go], the message structs of [raft/raftpb/raft.pb.go]).
    - [Paths]: what the program uses of [path/filepath].
    - [Text], [JsonSyntax], [Json], [Timestamp], [Durations], [Flags]: what the
      program uses of [strconv], [unicode/utf8], [encoding/json], [time] and
      [flag]: characters and decimal numbers; printing and parsing of JSON; the
      encoding of integers, strings, slices, maps and structs; RFC 3339 dates;
      durations (and [Duration.UnmarshalYAML] of [config/config.go]); command
      lines.  [Json] is also the interface, a class with a round-trip law, that
      the persister and the server rely on.
    - [Persister]: the interface of [raft/persister.go] as a class with its laws,
      and [MemoryPersister] as an instance.
    - [FilePersister]: the file-backed implementation, base64, the header of the
      snapshot file, and [atomicWrite] on a disk whose system calls can fail; it
      satisfies the laws of [Persister].
    - [Node]: the [Raft] struct, [NewRaft], recovery, timers, the apply loop
      ([raft/raft.go]); the well-formedness invariant [wf].
    - [Election], [Replication], [Snapshot]: the handlers and the leader's and
      candidate's goroutines ([raft/election.go], [raft/replication.go],
      [raft/snapshot.go]).
    - [CatchUp]: the loop of calls between a leader and a follower that lacks
      entries.
    - [Cluster]: nodes, goroutines, calls and replies in flight, crashes and
      restarts as a transition system.
    - [ElectionSafety]: the invariant of elections over every run of [Cluster].
    - [Protocol]: Raft as an abstract protocol, with its invariant.
    - [LogFrames], [ClusterRefinement]: what each operation leaves alone, and the
      simulation of the steps of [Cluster] by moves of [Protocol], in which a
      node's log is what its snapshot stands for and the log it keeps.
    - [ClusterSafety]: the refinement theorem and the safety properties drawn
      from it.
    - [NodeInvariant]: the well-formed state of a cluster, compaction and
      snapshot transfer included.
    - [Turns]: every step of [Cluster], sorted by what it does to the logs, the
      snapshots and the way of a command to its state machine.
    - [Delivery]: the order in which the apply loop hands commands over.
    - [Provenance]: commands and snapshots are never made up.
    - [KvCodec]: the JSON of commands and snapshots, and its round trips.
    - [Kv], [KvFacts]: the server and state machine ([kv/types.go],
      [kv/apply.go], [kv/server.go], [kv/snapshot.go]) and its theorems.
    - [Dedup]: how long the duplicate cache remembers a command.
    - [Waiters]: the tables in which results and handlers meet.
    - [System]: the servers on top of the cluster, from the request of a client
      to the map of every server; commands come from the handlers, compaction
      from the servers.
    - [Calls]: the RPC handlers in flight on top of [System], step by step, and
      the specification: a map that serves one call at a time.
    - [Linearizability]: what clients see, and an acknowledged write that is lost.
    - [Replicas]: the messages of a cluster and the servers that process them; a
      run in which a snapshot overtakes a command.
    - [Clerk]: the client, its connection cache and its retry loops
      ([kv/clerk.go]).
    - [ClusterConfig]: validation of the cluster definition
      ([config/config.go]) and the Raft configuration built from it
      ([server/run.go]).
    - [Lifecycle]: start and shutdown of a node, the logger flags, the keepalive
      policy, the health service ([server/], [health/service.go]).
    - [Programs]: [kvserver] with its health check, and [smoke] ([cmd/]).

    Definitions keep the names of the source.  A method that holds its mutex to
    the end is one function on the state.  A method that releases the mutex,
    around an RPC or a wait, is one function per critical section:
    [f_begin]/[f_request] up to the first release, [f_reply], [f_wait],
    [f_register] and so on after it.  The goroutines a method starts are part of
    its result.  Panics are the value [Panic].  The clock, random draws, the
    order in which a map is iterated where it matters ([pick]), the outcome of
    dialing and the outcome of each system call are arguments.

    ** What the theorems show

    - Elections.  In a cluster of odd size at most one node leads a term, under
      the three side conditions of [fair_event] (terms do not overflow, a won
      candidacy is still the current one when [becomeLeader] runs, a restarted
      node finds the vote it cast).  The handlers of [Election] are specified on
      every branch.  The side conditions and the parity are needed: three runs
      end with two leaders of one term.
    - Consensus.  Every run of a cluster of odd size that starts on blank disks
      and satisfies [steady_event] is, step by step, a run of the abstract
      protocol, compaction and snapshot transfer included; hence log matching,
      leader completeness and state-machine safety.  [steady_event] asks,
      besides the conditions of election safety, that logs stay short of
      [2 ^ 61] entries, that only applied entries are compacted, that a vote
      covers the voter's snapshot, that a snapshot is sent by a node that still
      leads in the term of the request, that a node that restarts finds its log
      and snapshot on disk and (for what concerns commit indices, the flag
      [settled]) that all of its log was committed.  The conditions on votes and
      on the committed log are needed: a run that violates only one of them
      hands different commands to two state machines.  Of the condition on
      sending snapshots, which the program does not check either, only the proof
      is known to need it.
    - Well-formedness.  In every run, with compaction, snapshots and crashes, and
      for clusters of any size: logs are contiguous, cursors are ordered, disks
      can be mounted again, requests in flight meet their handlers'
      preconditions.
    - The whole system.  In runs of the cluster with its servers there is one
      log of commands of which every node's committed entries are a part, and
      every server's map is what the commands up to its position make of the empty
      map; compaction, snapshot transfer, crashes and restarts included
      ([system_implements_map]).  Besides [steady_event] (its condition on
      compaction is now proved) this asks that no snapshot is installed while the
      apply loop holds an entry, or is lost before the channel, and that a node
      that restarts has a snapshot or an empty log; for the first and the last
      there are runs that go wrong without it.
    - Clients.  In the same runs, with the handlers in flight and every event
      timed, the confirmed calls are linearizable ([linearizable]): one order of
      calls contains every call that returned a result and whose node still led
      when it found the entry committed, and no call that was sent on to another
      leader; it explains the answers of the calls it contains and respects their
      order in time.  The program does not check that the node still leads: a deposed leader acknowledges a write that no order contains
      ([lost_write_acknowledged]).
    - Delivery and provenance.  Without compaction the state machine gets the
      committed commands in order, each once.  Every command in a log was
      submitted, every snapshot was taken under its index.
    - Replication.  [AppendEntries] leaves the follower with the leader's terms
      at the indices of the request, durable, and is idempotent but for the
      election timer; the leader
      sends its own log; it commits exactly by the rule of Raft (majority, own
      term); a command is on disk before it is sent.  Without lost calls a leader
      that steps back at every refusal brings a follower up to date within
      [nextIndex] calls ([follower_catches_up]).  [InstallSnapshot] and
      [Snapshot] keep what lies above the snapshot.  The places where compaction
      and replication do not fit together are stated as theorems too: when the
      handler panics, when a leader sends nothing, what a crash between the two
      writes of a compaction leaves, what a failed write in either handler leads
      the leader to believe.
    - Durability.  A write to a file is atomic; the file persister satisfies the
      interface, with the JSON and base64 it writes, hence the recovery theorems of
      [Node] hold on files.
    - Key-value server.  Applying a log refines executing it on an abstract map;
      what a handler encodes every server decodes; snapshots restore the map; a
      result reaches its handler in either order of arrival, whatever others do in
      the tables meanwhile, as long as there is room ([result_reaches_handler]); a
      repeated command is answered from the cache for ten seconds, as long as
      fewer than a hundred commands of its client are as new
      ([duplicate_executes_once]); the tables are bounded.
      Stated as theorems as well: early results fill [pendingOps], the cache
      depends on the clock, a restart without a snapshot replays nothing.
    - Client.  What an acknowledged write means, what a failed read returns, that
      the client makes all its thousand attempts with a leader that does not
      answer, the sleeps between attempts; the client id is the
      big-endian value of its random bytes.
    - Life cycle and programs.  A valid node starts, in order, with its timer in
      range; any other start fails, with nothing running and no listener open; after
      a shutdown every waiting handler has been told, and the Raft node sends
      nothing any more but vote requests that were under way; the flags reach the
      server in either notation; exit codes; the smoke test succeeds on a working
      cluster and only when it has seen what it asks for.
    - Configuration.  A definition that passes validation gives a cluster to
      which election safety applies, exactly when its ids fit 32 bits, which
      validation does not check.

    ** Bounds and fuel

    [int] and [int64] wrap at 64 bits, [int32] at 32.  Theorems that speak of
    log indices as numbers assume that they stay below [2 ^ 62] ([wf]), which
    leaves room for the sums the code forms.  Loops that are not structural take
    fuel: [applyPendingEntries] (enough is one more than the number of entries
    to deliver; the theorem states it), [collect_entries] and [commit_scan]
    (their callers pass the length of the range they scan), [evict_oldest] and
    [evict_recent] (their callers pass the size of the table), the clerk's loops
    (the source's own limit of 1000 attempts), [catch_up] ([nextIndex] calls, the
    theorem states it), [parse] (twice the length of the
    text, proved enough for everything that is printed).

    ** Not modelled

    Logging; wait groups beyond their counter; gRPC itself (the steps of
    [Cluster] that deliver, lose and answer calls stand for it) and the generated
    code; YAML, a third-party package.  Of [encoding/json] the texts of its errors,
    escapes inside a date, and slices that shrink and grow again within one
    object with repeated keys are left out; dates are written in UTC.
    The network, the binding of addresses and the disk behind a path are
    parameters of [Lifecycle] and [Programs].  A goroutine's reads before its
    first blocking call are taken as one step.

    Of the fields of the [peer] struct [lastContact], which nothing reads, is left
    out; [State] has its three values only.  Reads of existing files succeed.

    A process that shuts down while the cluster runs is a crash in [System];
    [Kill] and the two [Shutdown]s are modelled on their own ([Kv], [Node],
    [Lifecycle]).  The clerk's retries are not composed with [Calls]: a retry is a
    call of its own there.  Fairness is not modelled; termination and progress are
    stated for the loops and for given schedules. *)

From stdpp Require Export base list gmap strings.
From coqutil Require Export Datatypes.RecordSettersUsingExistingGetters.
From Stdlib Require Import ZArith Lia.

#[global] Open Scope Z_scope.
Arguments const {E} newValue /.

(** ** Machine integers

    Go's [int] (on the 64-bit targets the Makefile and the Dockerfile build
    for) and [int64] are two's complement 64-bit words; the RPC messages carry
    node ids as [int32].  A machine integer is a [Z]; each arithmetic operation
    of the source that can leave the range is followed by its wrap-around. *)

Definition min_int : Z := - 2 ^ 63.
Definition max_int : Z := 2 ^ 63 - 1.

Definition i64 (z : Z) : Z := (z + 2 ^ 63) mod 2 ^ 64 - 2 ^ 63.
Definition i32 (z : Z) : Z := (z + 2 ^ 31) mod 2 ^ 32 - 2 ^ 31.

Arguments i64 : simpl never.
Arguments i32 : simpl never.

Declare Scope go_scope.
Notation "a +! b" := (i64 (a + b)) (at level 50, left associativity) : go_scope.
Notation "a -! b" := (i64 (a - b)) (at level 50, left associativity) : go_scope.
Notation "a *! b" := (i64 (a * b)) (at level 40, left associativity) : go_scope.
#[global] Open Scope go_scope.

Definition in_int (z : Z) : Prop := - 2 ^ 63 ≤ z < 2 ^ 63.
Definition in_int32 (z : Z) : Prop := - 2 ^ 31 ≤ z < 2 ^ 31.

Lemma i64_id (z : Z) : - 2 ^ 63 ≤ z < 2 ^ 63 → i64 z = z.
Proof. intros ?. unfold i64. rewrite Z.mod_small; lia. Qed.

Lemma i32_id (z : Z) : - 2 ^ 31 ≤ z < 2 ^ 31 → i32 z = z.
Proof. intros ?. unfold i32. rewrite Z.mod_small; lia. Qed.

Lemma i64_range (z : Z) : in_int (i64 z).
Proof. unfold in_int, i64. pose proof (Z.mod_pos_bound (z + 2 ^ 63) (2 ^ 64)). lia. Qed.

(** ** Slices *)

(** Go's [len]. *)
Definition len {A} (l : list A) : Z := Z.of_nat (length l).

(** [l[i]]: [None] is Go's "index out of range" run-time panic. *)
Definition index {A} (l : list A) (i : Z) : option A :=
  if i <? 0 then None else l !! Z.to_nat i.

Arguments len : simpl never.
Arguments index : simpl never.

Section slices.
Context {A : Type}.
Implicit Types (l : list A) (i : Z).

Lemma len_nonneg l : 0 ≤ len l.
Proof. unfold len. lia. Qed.

Lemma len_nil : len (@nil A) = 0.
Proof. done. Qed.

Lemma len_cons x l : len (x :: l) = 1 + len l.
Proof. unfold len. simpl length. lia. Qed.

Lemma len_app l k : len (l ++ k) = len l + len k.
Proof. unfold len. rewrite length_app. lia. Qed.

Lemma len_take l (n : nat) : Z.of_nat n ≤ len l → len (take n l) = Z.of_nat n.
Proof. unfold len. rewrite length_take. lia. Qed.

Lemma len_drop l (n : nat) : Z.of_nat n ≤ len l → len (drop n l) = len l - Z.of_nat n.
Proof. unfold len. rewrite length_drop. lia. Qed.

Lemma index_Some_range l i x : index l i = Some x → 0 ≤ i < len l.
Proof.
  unfold index, len. destruct (Z.ltb_spec i 0); [done|].
  intros ?%lookup_lt_Some. lia.
Qed.

Lemma index_is_Some l i : 0 ≤ i < len l → is_Some (index l i).
Proof.
  unfold index, len. intros ?. destruct (Z.ltb_spec i 0); [lia|].
  apply lookup_lt_is_Some. lia.
Qed.

Lemma index_None l i : i < 0 ∨ len l ≤ i → index l i = None.
Proof.
  unfold index, len. intros ?. destruct (Z.ltb_spec i 0); [done|].
  apply lookup_ge_None. lia.
Qed.

Lemma index_lookup l i : 0 ≤ i → index l i = l !! Z.to_nat i.
Proof. unfold index. intros ?. destruct (Z.ltb_spec i 0); [lia|done]. Qed.

Lemma index_of_nat l (n : nat) : index l (Z.of_nat n) = l !! n.
Proof. rewrite index_lookup by lia. by rewrite Nat2Z.id. Qed.

Lemma index_app_l l k i : i < len l → index (l ++ k) i = index l i.
Proof.
  unfold index, len. destruct (Z.ltb_spec i 0); [done|]. intros ?.
  apply lookup_app_l. lia.
Qed.

Lemma index_app_r l k i : len l ≤ i → index (l ++ k) i = index k (i - len l).
Proof.
  unfold index, len. intros ?.
  destruct (Z.ltb_spec i 0), (Z.ltb_spec (i - Z.of_nat (length l)) 0); try lia.
  rewrite lookup_app_r by lia. f_equal. lia.
Qed.

Lemma index_take l (n : nat) i : i < Z.of_nat n → index (take n l) i = index l i.
Proof.
  unfold index. intros ?. destruct (Z.ltb_spec i 0); [done|].
  apply lookup_take_lt. lia.
Qed.

Lemma index_drop l (n : nat) i : 0 ≤ i → index (drop n l) i = index l (Z.of_nat n + i).
Proof.
  unfold index. intros ?.
  destruct (Z.ltb_spec i 0), (Z.ltb_spec (Z.of_nat n + i) 0); try lia.
  rewrite lookup_drop. f_equal. lia.
Qed.

Lemma index_last l : last l = index l (len l - 1).
Proof.
  rewrite last_lookup. unfold index, len.
  destruct (Z.ltb_spec (Z.of_nat (length l) - 1) 0).
  - destruct l; [done|simpl in *; lia].
  - f_equal. lia.
Qed.
End slices.

Lemma NoDup_sub {A} (l k : list A) : NoDup k → l ⊆+ k → NoDup l.
Proof. intros Hk [m Hm]%submseteq_Permutation. rewrite Hm in Hk. by apply NoDup_app in Hk as [? _]. Qed.

Lemma all_or {A} (Q : A → Prop) (C : Prop) (l : list A) :
  (∀ x, x ∈ l → Q x ∨ C) → (∀ x, x ∈ l → Q x) ∨ C.
Proof.
  induction l as [|a l IH]; intros H; [left; by intros x ?%elem_of_nil|].
  destruct IH as [IH|?]; [intros x ?; apply H; by right| |by right].
  destruct (H a) as [?|?]; [by left|left|by right]. intros x [->|?]%elem_of_cons; auto.
Qed.

(** ** Errors and results

    [error] holds the sentinels the program compares with, the errors it
    builds with [fmt.Errorf] and the wrapping done by the [%w] verb; only the
    constant text of a message is kept, not the values it prints. *)

Inductive error : Type :=
  | ErrNotLeader          (* raft.ErrNotLeader *)
  | ErrTimeout            (* raft.ErrTimeout *)
  | ErrNoSnapshot         (* raft.ErrNoSnapshot *)
  | Errorf (msg : string)
  | Wrapf (msg : string) (inner : error).

#[export] Instance error_eq_dec : EqDecision error.
Proof. solve_decision. Defined.

(** [errors.Is err target]. *)
Fixpoint errors_Is (err target : error) : bool :=
  bool_decide (err = target) ||
  match err with Wrapf _ e => errors_Is e target | _ => false end.

(** The outcome of a call that returns [(T, error)]: a value, an error, or a
    run-time panic. *)
Inductive result (A : Type) : Type :=
  | Ret (a : A)
  | Fail (e : error)
  | Panic.
Arguments Ret {A} a.
Arguments Fail {A} e.
Arguments Panic {A}.

(** ** Automation *)

Create HintDb distribkv.
Create Rewrite HintDb distribkv.
#[export] Hint Resolve len_nonneg i64_range : distribkv.
#[export] Hint Rewrite @len_nil @len_cons @len_app : distribkv.

(** Removes the wrap-arounds whose argument is in range. *)
Ltac unwrap :=
  repeat match goal with
  | |- context [i64 ?z] => rewrite (i64_id z) by lia
  | |- context [i32 ?z] => rewrite (i32_id z) by lia
  end.

(** Proves a decidable proposition on concrete data. *)
Ltac by_evaluation := refine (bool_decide_eq_true_1 _ _); vm_compute; reflexivity.

(** Turns the boolean tests of the code, on which the proof has branched, into
    propositions. *)
Ltac bool_props :=
  repeat match goal with
  | H : (_ <? _) = true |- _ => apply Z.ltb_lt in H
  | H : (_ <? _) = false |- _ => apply Z.ltb_ge in H
  | H : (_ <=? _) = true |- _ => apply Z.leb_le in H
  | H : (_ <=? _) = false |- _ => apply Z.leb_gt in H
  | H : (_ =? _) = true |- _ => apply Z.eqb_eq in H
  | H : (_ =? _) = false |- _ => apply Z.eqb_neq in H
  | H : (_ && _)%bool = true |- _ => apply andb_true_iff in H as [? ?]
  | H : (_ && _)%bool = false |- _ => apply andb_false_iff in H
  | H : (_ || _)%bool = true |- _ => apply orb_true_iff in H
  | H : (_ || _)%bool = false |- _ => apply orb_false_iff in H as [? ?]
  | H : negb _ = true |- _ => apply negb_true_iff in H
  | H : negb _ = false |- _ => apply negb_false_iff in H
  | H : bool_decide _ = true |- _ => apply bool_decide_eq_true in H
  | H : bool_decide _ = false |- _ => apply bool_decide_eq_false in H
  end.

(** Case analysis on a branch condition of the goal. *)
Ltac branch :=
  match goal with
  | |- context [if ?b then _ else _] => destruct b eqn:?; bool_props
  end.
