(* ===== verification/Types.v ===== *)
(** * Domain types of the consensus engine

    [raft/types.go] (log entries, roles, apply messages) and the wire messages
    of [raft/raftpb/raft.pb.go].  A generated message carries the same fields
    as the struct below; the embedded [protoimpl] bookkeeping is not state of
    the program. *)

From S2P Require Import Prelude.
From Stdlib Require Import Strings.Byte.

(** A Go [[]byte]. *)
Abbreviation bytes := (list Byte.byte).

#[export] Instance byte_eq_decision : EqDecision Byte.byte := Byte.byte_eq_dec.

(** ** raft/types.go *)

Record LogEntry : Type := mkLogEntry {
  eIndex : Z;         (* Index int64 *)
  eTerm : Z;          (* Term int64 *)
  eCommand : bytes    (* Command []byte *)
}.

#[export] Instance LogEntry_eq_dec : EqDecision LogEntry.
Proof. solve_decision. Defined.

Inductive State : Type := Follower | Candidate | Leader.

#[export] Instance State_eq_dec : EqDecision State.
Proof. solve_decision. Defined.

Definition State_String (s : State) : string :=
  match s with
  | Follower => "Follower"
  | Candidate => "Candidate"
  | Leader => "Leader"
  end.

(** Boolean equality of roles, for the tests [r.state == ...]. *)
Definition state_eqb (a b : State) : bool :=
  match a, b with
  | Follower, Follower | Candidate, Candidate | Leader, Leader => true
  | _, _ => false
  end.

Lemma state_eqb_true (a b : State) : state_eqb a b = true ↔ a = b.
Proof. by destruct a, b. Qed.

Lemma state_eqb_false (a b : State) : state_eqb a b = false ↔ a ≠ b.
Proof. by destruct a, b. Qed.

(** [ApplyMsg]: the two kinds of message are told apart by their flags, as in
    the source. *)
Record ApplyMsg : Type := mkApplyMsg {
  CommandValid : bool;
  amCommand : bytes;
  CommandIndex : Z;
  SnapshotValid : bool;
  SnapshotData : bytes;
  amLastIncludedIndex : Z;
  amLastIncludedTerm : Z
}.

#[export] Instance ApplyMsg_eq_dec : EqDecision ApplyMsg.
Proof. solve_decision. Defined.

(** The two composite literals the program builds; absent fields are zero. *)
Definition command_msg (cmd : bytes) (idx : Z) : ApplyMsg :=
  mkApplyMsg true cmd idx false [] 0 0.
Definition snapshot_msg (data : bytes) (idx term : Z) : ApplyMsg :=
  mkApplyMsg false [] 0 true data idx term.

(** ** raft/raftpb: request and response messages *)

Record RequestVoteRequest : Type := mkRequestVoteRequest {
  rvTerm : Z;
  rvCandidateId : Z;     (* int32 *)
  rvLastLogIndex : Z;
  rvLastLogTerm : Z
}.

Record RequestVoteResponse : Type := mkRequestVoteResponse {
  rvrTerm : Z;
  rvrVoteGranted : bool
}.

Record AppendEntriesRequest : Type := mkAppendEntriesRequest {
  aeTerm : Z;
  aeLeaderId : Z;        (* int32 *)
  aePrevLogIndex : Z;
  aePrevLogTerm : Z;
  aeEntries : list LogEntry;
  aeLeaderCommit : Z
}.

Record AppendEntriesResponse : Type := mkAppendEntriesResponse {
  aerTerm : Z;
  aerSuccess : bool
}.

Record InstallSnapshotRequest : Type := mkInstallSnapshotRequest {
  isTerm : Z;
  isLeaderId : Z;        (* int32 *)
  isLastIncludedIndex : Z;
  isLastIncludedTerm : Z;
  isOffset : Z;
  isData : bytes;
  isDone : bool
}.

Record InstallSnapshotResponse : Type := mkInstallSnapshotResponse {
  isrTerm : Z
}.

(** The tactic turning tests on roles into propositions. *)
Ltac state_props :=
  bool_props;
  repeat match goal with
  | H : state_eqb _ _ = true |- _ => apply state_eqb_true in H
  | H : state_eqb _ _ = false |- _ => apply state_eqb_false in H
  end;
  bool_props.
