(* ===== verification/Paths.v ===== *)
(** * File paths

    What the program uses of Go's [path/filepath], on Unix: the lexical
    clean-up of a path, [Join] of two elements and [Dir]. *)

From S2P Require Import Prelude.
#[local] Open Scope string_scope.
#[local] Open Scope Z_scope.

Definition slash : Ascii.ascii := Ascii.ascii_of_nat 47.

(** The elements of a path between slashes; [acc] is the current one. *)
Fixpoint elements (acc : string) (p : string) : list string :=
  match p with
  | EmptyString => [acc]
  | String c p =>
      if Ascii.eqb c slash then acc :: elements "" p
      else elements (acc +:+ String c EmptyString) p
  end.

Definition is_rooted (p : string) : bool :=
  match p with String c _ => Ascii.eqb c slash | EmptyString => false end.

(** One element of the lexical clean-up; the stack holds the last one first. *)
Definition clean_step (rooted : bool) (stack : list string) (e : string) : list string :=
  if (bool_decide (e = "") || bool_decide (e = "."))%bool then stack
  else if bool_decide (e = "..") then
    match stack with
    | x :: rest => if bool_decide (x = "..") then e :: stack else rest
    | [] => if rooted then [] else [e]
    end
  else e :: stack.

Definition Clean (p : string) : string :=
  let body := String.concat "/" (reverse (foldl (clean_step (is_rooted p)) [] (elements "" p))) in
  if is_rooted p then "/" +:+ body
  else if bool_decide (body = "") then "." else body.

Definition Join (a b : string) : string :=
  if bool_decide (a = "") then (if bool_decide (b = "") then "" else Clean b)
  else Clean (a +:+ "/" +:+ b).

(** The part of the path up to and including the last slash. *)
Fixpoint dir_part (p : string) : string :=
  match p with
  | EmptyString => ""
  | String c p' =>
      let d := dir_part p' in
      if (bool_decide (d = "") && negb (Ascii.eqb c slash))%bool then "" else String c d
  end.

Definition Dir (p : string) : string := Clean (dir_part p).

Lemma Join_nonempty a b : a ≠ "" → Join a b ≠ "".
Proof.
  intros Ha. unfold Join. rewrite bool_decide_eq_false_2 by done. unfold Clean.
  destruct (is_rooted _); [done|]. branch; done.
Qed.

Example join_cleans :
  Join "./data//" "3" = "data/3" ∧ Join "/var/../lib" "7" = "/lib/7" ∧ Join "" "1" = "1".
Proof. vm_compute. done. Qed.


Example dir_of_path : Dir "data/1/raft-state.json" = "data/1" ∧ Dir "x.json" = ".".
Proof. vm_compute. done. Qed.
