(* ===== verification/Text.v ===== *)
(** * Text: bytes, UTF-8 and decimal numbers

    What the program uses of Go's strings: a string is its bytes, here as
    numbers.  [runes] cuts text into characters the way [utf8.DecodeRune] does,
    one byte at a time where the bytes are not UTF-8; [decimal] and [ParseInt]
    are [strconv]'s conversions in base ten. *)

From S2P Require Import Prelude Types.

Abbreviation text := (list Z).

(** ** Strings and byte slices as text *)

Definition codes (s : string) : text :=
  (λ c, Z.of_N (Ascii.N_of_ascii c)) <$> String.list_ascii_of_string s.

Definition uncodes (t : text) : string :=
  String.string_of_list_ascii ((λ z, Ascii.ascii_of_N (Z.to_N z)) <$> t).

Definition is_byte (z : Z) : Prop := 0 ≤ z < 256.

Lemma codes_bytes s : Forall is_byte (codes s).
Proof.
  apply Forall_fmap, Forall_true. intros c. unfold is_byte. cbn.
  pose proof (Ascii.N_ascii_bounded c). lia.
Qed.

Lemma codes_app s s' : codes (s +:+ s') = codes s ++ codes s'.
Proof.
  unfold codes. rewrite <- fmap_app. f_equal. induction s as [|c s IH]; [done|]. cbn. rewrite <- IH. done.
Qed.

Lemma uncodes_codes s : uncodes (codes s) = s.
Proof.
  unfold uncodes, codes. rewrite <- list_fmap_compose. etrans; [|apply String.string_of_list_ascii_of_string].
  f_equal. rewrite <- (list_fmap_id (String.list_ascii_of_string s)) at 2. apply list_fmap_ext. intros _ c _. cbn.
  rewrite N2Z.id. apply Ascii.ascii_N_embedding.
Qed.

Lemma codes_uncodes t : Forall is_byte t → codes (uncodes t) = t.
Proof.
  intros Ht. unfold uncodes, codes. rewrite String.list_ascii_of_string_of_list_ascii, <- list_fmap_compose.
  rewrite <- (list_fmap_id t) at 2. apply Forall_fmap_ext_1. eapply Forall_impl; [exact Ht|].
  intros z Hz. unfold is_byte in Hz. cbn. rewrite Ascii.N_ascii_embedding by lia. lia.
Qed.

#[export] Instance codes_inj : Inj (=) (=) codes.
Proof. intros s s' E. by rewrite <- (uncodes_codes s), E, uncodes_codes. Qed.

Definition of_bytes (b : bytes) : text := (λ x, Z.of_N (Byte.to_N x)) <$> b.
Definition to_bytes (t : text) : bytes :=
  (λ z, default Byte.x00 (Byte.of_N (Z.to_N z))) <$> t.

Lemma to_bytes_of_bytes b : to_bytes (of_bytes b) = b.
Proof.
  unfold to_bytes, of_bytes. rewrite <- list_fmap_compose. rewrite <- (list_fmap_id b) at 2.
  apply list_fmap_ext. intros _ x _. cbn. by rewrite N2Z.id, Byte.of_to_N.
Qed.

Lemma of_bytes_to_bytes t : Forall is_byte t → of_bytes (to_bytes t) = t.
Proof.
  intros Ht. unfold to_bytes, of_bytes. rewrite <- list_fmap_compose. rewrite <- (list_fmap_id t) at 2.
  apply Forall_fmap_ext_1. eapply Forall_impl; [exact Ht|]. intros z Hz. unfold is_byte in Hz. cbn.
  destruct (Byte.of_N (Z.to_N z)) as [x|] eqn:E.
  - apply Byte.to_of_N in E. cbn. lia.
  - apply Byte.of_N_None_iff in E. lia.
Qed.

(** ** UTF-8 *)

Definition between (a z b : Z) : bool := ((a <=? z) && (z <=? b))%bool.

(** The second byte of a character of three or of four bytes. *)
Definition second3 (a b : Z) : bool :=
  (((a =? 224) && between 160 b 191) || ((a =? 237) && between 128 b 159) ||
   (between 225 a 236 || between 238 a 239) && between 128 b 191)%bool.
Definition second4 (a b : Z) : bool :=
  (((a =? 240) && between 144 b 191) || ((a =? 244) && between 128 b 143) ||
   between 241 a 243 && between 128 b 191)%bool.

(** The character at the start of the text, if the bytes there are UTF-8. *)
Definition rune (s : text) : option text :=
  match s with
  | a :: b :: c :: d :: _ =>
      if a <? 128 then Some [a]
      else if (between 194 a 223 && between 128 b 191)%bool then Some [a; b]
      else if (second3 a b && between 128 c 191)%bool then Some [a; b; c]
      else if (second4 a b && between 128 c 191 && between 128 d 191)%bool then Some [a; b; c; d]
      else None
  | a :: b :: c :: _ =>
      if a <? 128 then Some [a]
      else if (between 194 a 223 && between 128 b 191)%bool then Some [a; b]
      else if (second3 a b && between 128 c 191)%bool then Some [a; b; c]
      else None
  | a :: b :: _ =>
      if a <? 128 then Some [a]
      else if (between 194 a 223 && between 128 b 191)%bool then Some [a; b]
      else None
  | a :: _ => if a <? 128 then Some [a] else None
  | [] => None
  end.

(** A character by itself. *)
Definition is_rune (t : text) : Prop := rune t = Some t.

Lemma rune_spec s t : rune s = Some t → is_rune t ∧ t ≠ [] ∧ ∃ rest, s = t ++ rest.
Proof.
  unfold is_rune. destruct s as [|a [|b [|c [|d s]]]]; cbn [rune]; [done|..];
    repeat match goal with
    | |- (if ?x then _ else _) = _ → _ => destruct x eqn:?
    end; intros [= <-]; cbn [rune];
    repeat match goal with H : ?x = true |- _ => rewrite H | H : ?x = false |- _ => rewrite H end;
    (split; [done|]; split; [done|]); by eexists.
Qed.

Lemma rune_app t rest : is_rune t → rune (t ++ rest) = Some t.
Proof.
  unfold is_rune. destruct t as [|a [|b [|c [|d t]]]]; cbn [rune]; [done|..];
    repeat match goal with
    | |- (if ?x then _ else _) = _ → _ => destruct x eqn:?
    end; intros E; simplify_eq; cbn [app];
    destruct rest as [|x [|y [|z rest]]]; cbn [rune app];
    repeat match goal with H : ?x = true |- _ => rewrite H | H : ?x = false |- _ => rewrite H end; done.
Qed.

(** Text as characters; [None] is a byte that is not part of one. *)
Fixpoint runes_fuel (fuel : nat) (s : text) : list (option text) :=
  match fuel, s with
  | S fuel, _ :: s' =>
      match rune s with
      | Some t => Some t :: runes_fuel fuel (drop (length t) s)
      | None => None :: runes_fuel fuel s'
      end
  | _, _ => []
  end.

Definition runes (s : text) : list (option text) := runes_fuel (length s) s.

Definition replacement : text := [239; 191; 189].

(** The text with every stray byte replaced by U+FFFD. *)
Definition to_valid (s : text) : text := List.concat (default replacement <$> runes s).

Definition valid_utf8 (s : text) : bool := forallb (λ r, bool_decide (is_Some r)) (runes s).

Lemma runes_fuel_enough fuel s : (length s ≤ fuel)%nat → runes_fuel fuel s = runes s.
Proof.
  unfold runes. remember (length s) as k eqn:Hk. revert fuel s Hk.
  induction k as [k IH] using lt_wf_ind. intros fuel s -> Hle.
  destruct s as [|a s]; [by destruct fuel|]. destruct fuel as [|fuel]; [cbn in Hle; lia|].
  cbn [runes_fuel length]. destruct (rune (a :: s)) as [t|] eqn:Hr.
  - apply rune_spec in Hr as (_ & Hne & rest & E). rewrite E, drop_app_length.
    assert (length rest < length (a :: s))%nat as Hlt
      by (rewrite E, length_app; destruct t; [done|cbn; lia]).
    cbn in Hle, Hlt. f_equal. rewrite (IH (length rest) ltac:(cbn; lia) fuel) by lia.
    symmetry. apply (IH (length rest)); cbn; lia.
  - f_equal. cbn in Hle. rewrite (IH (length s) ltac:(cbn; lia) fuel) by lia. done.
Qed.

Lemma runes_cons a s : runes (a :: s) =
  match rune (a :: s) with
  | Some t => Some t :: runes (drop (length t) (a :: s))
  | None => None :: runes s
  end.
Proof.
  unfold runes at 1. cbn [runes_fuel length]. destruct (rune (a :: s)) as [t|] eqn:Hr.
  - apply rune_spec in Hr as (_ & Hne & rest & E). f_equal. apply runes_fuel_enough.
    rewrite length_drop. destruct t; [done|]. cbn. lia.
  - f_equal.
Qed.

(** Induction on the characters of a text. *)
Lemma runes_ind (Q : text → Prop) : Q [] →
  (∀ t rest, is_rune t → t ≠ [] → Q rest → Q (t ++ rest)) →
  (∀ a s, rune (a :: s) = None → Q s → Q (a :: s)) → ∀ s, Q s.
Proof.
  intros Hnil Hrune Hbad s. remember (length s) as k eqn:Hk. revert s Hk.
  induction k as [k IH] using lt_wf_ind. intros s ->. destruct s as [|a s]; [done|].
  destruct (rune (a :: s)) as [t|] eqn:Hr.
  - apply rune_spec in Hr as (Ht & Hne & rest & E). rewrite E in *. apply Hrune; auto.
    apply (IH (length rest)); [|done]. rewrite length_app. destruct t; [done|]. cbn. lia.
  - apply Hbad; auto. apply (IH (length s)); cbn; lia.
Qed.

Lemma runes_app t rest : is_rune t → t ≠ [] → runes (t ++ rest) = Some t :: runes rest.
Proof.
  intros Ht Hne. pose proof (rune_app t rest Ht) as Hr. destruct t as [|a t]; [done|]. cbn [app] in *.
  rewrite runes_cons, Hr. f_equal. cbn [length drop]. by rewrite drop_app_length.
Qed.

Lemma runes_bad a s : rune (a :: s) = None → runes (a :: s) = None :: runes s.
Proof. intros Hr. by rewrite runes_cons, Hr. Qed.

Lemma to_valid_id s : valid_utf8 s = true → to_valid s = s.
Proof.
  unfold to_valid, valid_utf8. induction s as [|t rest Ht Hne IH|a s Hr IH] using runes_ind; [done|..].
  - rewrite runes_app by done. intros Hv. rewrite fmap_cons. cbn [List.concat default from_option id].
    by rewrite IH.
  - rewrite runes_bad by done. done.
Qed.

Lemma valid_utf8_rune t rest : is_rune t → t ≠ [] → valid_utf8 (t ++ rest) = valid_utf8 rest.
Proof. intros Ht Hne. unfold valid_utf8. by rewrite runes_app. Qed.

Lemma valid_utf8_app s s' : valid_utf8 s = true → valid_utf8 s' = true → valid_utf8 (s ++ s') = true.
Proof.
  induction s as [|t rest Ht Hne IH|a s Hr IH] using runes_ind; [done|..].
  - rewrite <- app_assoc, !valid_utf8_rune by done. auto.
  - unfold valid_utf8 at 1. by rewrite runes_bad.
Qed.

Lemma to_valid_valid s : valid_utf8 (to_valid s) = true.
Proof.
  unfold to_valid. induction s as [|t rest Ht Hne IH|a s Hr IH] using runes_ind; [done|..].
  - rewrite runes_app by done. rewrite fmap_cons. cbn [List.concat default from_option id].
    by rewrite valid_utf8_rune.
  - rewrite runes_bad by done. rewrite fmap_cons. cbn [List.concat default from_option id].
    by rewrite valid_utf8_rune.
Qed.

Lemma to_valid_bytes s : Forall is_byte s → Forall is_byte (to_valid s).
Proof.
  unfold to_valid. induction s as [|t rest Ht Hne IH|a s Hr IH] using runes_ind; [done|..].
  - rewrite runes_app by done. rewrite fmap_cons, Forall_app. cbn [List.concat default from_option id].
    rewrite Forall_app. intros [? ?]. auto.
  - rewrite runes_bad by done. rewrite fmap_cons. cbn [List.concat default from_option id].
    intros [_ ?]%Forall_cons. apply Forall_app. split; [|auto]. unfold is_byte. repeat constructor; lia.
Qed.

Lemma codes_ascii_valid s : Forall (λ z, z < 128) s → valid_utf8 s = true.
Proof.
  unfold valid_utf8. induction s as [|a s IH]; [done|]. intros [Ha Hs]%Forall_cons.
  rewrite runes_cons. assert (rune (a :: s) = Some [a]) as ->.
  { apply Z.ltb_lt in Ha. destruct s as [|b [|c [|d s]]]; cbn; by rewrite Ha. }
  cbn. by apply IH.
Qed.

(** ** Decimal numbers *)

Definition is_digit (c : Z) : bool := between 48 c 57.

(** The last [fuel] digits, without leading zeros. *)
Fixpoint digits (fuel : nat) (n : Z) : text :=
  match fuel with
  | O => []
  | S fuel => (if n <? 10 then [] else digits fuel (n / 10)) ++ [48 + n mod 10]
  end.

(** [strconv.FormatInt(z, 10)]; twenty digits are enough for 64 bits. *)
Definition decimal (z : Z) : text := if z <? 0 then 45 :: digits 20 (- z) else digits 20 z.

Definition value (t : text) : Z := foldl (λ v c, v * 10 + (c - 48)) 0 t.

(** [strconv.ParseInt(s, 10, 64)]. *)
Definition ParseInt (s : text) : option Z :=
  let '(neg, ds) :=
    match s with
    | c :: ds => if c =? 45 then (true, ds) else if c =? 43 then (false, ds) else (false, s)
    | [] => (false, [])
    end in
  if (bool_decide (ds = []) || negb (forallb is_digit ds))%bool then None
  else
    let v := if neg : bool then - value ds else value ds in
    if ((min_int <=? v) && (v <=? max_int))%bool then Some v else None.

Lemma digits_spec fuel n : (0 < fuel)%nat → 0 ≤ n < 10 ^ Z.of_nat fuel →
  value (digits fuel n) = n ∧ Forall (λ c, is_digit c = true) (digits fuel n) ∧
  ∃ c ds, digits fuel n = c :: ds ∧ (c = 48 → ds = []).
Proof.
  revert n. induction fuel as [|fuel IH]; intros n Hf Hn; [lia|]. cbn [digits].
  assert (0 ≤ n mod 10 < 10) as Hm by (apply Z.mod_pos_bound; lia).
  assert (is_digit (48 + n mod 10) = true) as Hd
    by (unfold is_digit, between; apply andb_true_iff; split; apply Z.leb_le; lia).
  destruct (Z.ltb_spec n 10) as [Hlt|Hge].
  - rewrite Z.mod_small in * by lia. cbn. split; [lia|]. split; [by constructor|]. eauto.
  - destruct fuel as [|fuel]; [cbn in Hn; lia|].
    assert (0 ≤ n / 10 < 10 ^ Z.of_nat (S fuel)) as Hq.
    { split; [apply Z.div_pos; lia|]. apply Z.div_lt_upper_bound; [lia|].
      rewrite <- Z.pow_succ_r by lia. rewrite <- Nat2Z.inj_succ. lia. }
    destruct (IH (n / 10) ltac:(lia) Hq) as (Hv & Ha & c & ds & E & Hz). split_and!.
    + unfold value in *. rewrite foldl_app. cbn [foldl]. rewrite Hv.
      pose proof (Z.div_mod n 10 ltac:(lia)). lia.
    + apply Forall_app. split; [done|]. by constructor.
    + rewrite E. exists c, (ds ++ [48 + n mod 10]). split; [done|]. intros Hc. exfalso.
      specialize (Hz Hc). subst c ds. rewrite E in Hv. unfold value in Hv. cbn in Hv.
      assert (1 ≤ n / 10) by (apply Z.div_le_lower_bound; lia). lia.
Qed.

Lemma Forall_forallb {A} (f : A → bool) l : Forall (λ c, f c = true) l → forallb f l = true.
Proof. induction 1 as [|c l Hc Hl IH]; cbn; [done|]. by rewrite Hc, IH. Qed.

Lemma decimal_spec z : in_int z → ∃ c ds, Forall (λ c, is_digit c = true) (c :: ds) ∧
  (c = 48 → ds = []) ∧ value (c :: ds) = Z.abs z ∧
  decimal z = if z <? 0 then 45 :: c :: ds else c :: ds.
Proof.
  unfold in_int. intros Hz. unfold decimal.
  assert (0 ≤ Z.abs z < 10 ^ Z.of_nat 20) as Ha by (change (10 ^ Z.of_nat 20) with (10 ^ 20); lia).
  destruct (digits_spec 20 (Z.abs z) ltac:(lia) Ha) as (Hv & Hd & c & ds & E & H0).
  exists c, ds. rewrite <- E. split_and!; auto.
  branch; f_equal; f_equal; lia.
Qed.

Lemma ParseInt_decimal z : in_int z → ParseInt (decimal z) = Some z.
Proof.
  intros Hz. destruct (decimal_spec z Hz) as (c & ds & Hd & _ & Hv & ->). unfold in_int in Hz.
  assert (∀ neg : bool, (if neg then - value (c :: ds) else value (c :: ds)) = z →
    (if (bool_decide (c :: ds = []) || negb (forallb is_digit (c :: ds)))%bool then None
     else let v := if neg : bool then - value (c :: ds) else value (c :: ds) in
       if ((min_int <=? v) && (v <=? max_int))%bool then Some v else None) = Some z) as Hgo.
  { intros neg ->. rewrite Forall_forallb by done. cbv zeta. cbn [negb orb bool_decide decide].
    rewrite bool_decide_eq_false_2 by done. cbn [orb]. unfold min_int, max_int.
    rewrite (proj2 (Z.leb_le _ _)), (proj2 (Z.leb_le _ _)) by lia. done. }
  unfold ParseInt. destruct (Z.ltb_spec z 0) as [Hneg|Hpos].
  - apply (Hgo true). lia.
  - pose proof (Forall_inv Hd) as Hc. unfold is_digit, between in Hc.
    apply andb_true_iff in Hc as [?%Z.leb_le ?%Z.leb_le].
    rewrite (proj2 (Z.eqb_neq c 45)), (proj2 (Z.eqb_neq c 43)) by lia.
    apply (Hgo false). lia.
Qed.

Lemma ParseInt_in_int s z : ParseInt s = Some z → in_int z.
Proof.
  unfold ParseInt. destruct (match s with [] => _ | _ => _ end) as [neg ds]. destruct (_ || _)%bool; [done|].
  cbv zeta. unfold in_int, min_int, max_int. branch; [|done]. bool_props. intros [= <-]. lia.
Qed.

Lemma forallb_bytes s : forallb (λ c, between 0 c 255) s = true → Forall is_byte s.
Proof.
  induction s as [|c s IH]; [constructor|]. cbn. intros [Hc Hs]%andb_true_iff. constructor; [|auto].
  unfold between in Hc. bool_props. unfold is_byte. lia.
Qed.

(** A decimal number as a key. *)
Lemma decimal_key z : in_int z → Forall is_byte (decimal z) ∧ valid_utf8 (decimal z) = true.
Proof.
  intros Hz. destruct (decimal_spec z Hz) as (c & ds & Hd & _ & _ & ->).
  assert (Forall (λ c, 0 ≤ c < 128) (c :: ds)) as Hr.
  { eapply Forall_impl; [exact Hd|]. unfold is_digit, between. cbn. intros x Hx. bool_props. lia. }
  assert (Forall (λ c, 0 ≤ c < 128) (if z <? 0 then 45 :: c :: ds else c :: ds)) as Hr'
    by (destruct (z <? 0); [constructor; [lia|]|]; done).
  split; [|apply codes_ascii_valid]; eapply Forall_impl; try exact Hr'; unfold is_byte; cbn; lia.
Qed.
