(* ===== verification/JsonSyntax.v ===== *)
(** * The syntax of JSON, as [encoding/json] writes and reads it

    Values are trees; [print] is [Marshal] (compact, with the characters of HTML
    escaped) and, with [ind = true], [MarshalIndent(v, "", "  ")]; [parse] is the
    scanner behind [Unmarshal].  What has been printed parses to the same tree,
    up to strings that are not UTF-8, whose stray bytes come back as U+FFFD. *)

From S2P Require Import Prelude Types Text.

#[warnings="-register-all"]
Inductive json : Type :=
  | JNull
  | JBool (b : bool)
  | JNum (lit : text)
  | JStr (s : text)
  | JArr (l : list json)
  | JObj (l : list (text * json)).

(** Induction under the lists. *)
Definition json_ind' (Q : json → Prop) (Hnull : Q JNull) (Hbool : ∀ b, Q (JBool b))
    (Hnum : ∀ t, Q (JNum t)) (Hstr : ∀ t, Q (JStr t))
    (Harr : ∀ l, Forall Q l → Q (JArr l))
    (Hobj : ∀ l, Forall (λ kv, Q kv.2) l → Q (JObj l)) : ∀ v, Q v :=
  fix go v :=
    match v with
    | JNull => Hnull
    | JBool b => Hbool b
    | JNum t => Hnum t
    | JStr t => Hstr t
    | JArr l => Harr l ((fix gos l : Forall Q l :=
        match l with [] => Forall_nil_2 Q | x :: l => Forall_cons_2 Q x l (go x) (gos l) end) l)
    | JObj l => Hobj l ((fix gos (l : list (text * json)) : Forall (λ kv, Q kv.2) l :=
        match l with
        | [] => Forall_nil_2 _
        | kv :: l => Forall_cons_2 (λ kv, Q kv.2) kv l (go kv.2) (gos l)
        end) l)
    end.

(** ** Writing strings *)

Definition hex (d : Z) : Z := if d <? 10 then 48 + d else 87 + d.

Definition u_escape (c : Z) : text :=
  [92; 117; hex (c / 4096 mod 16); hex (c / 256 mod 16); hex (c / 16 mod 16); hex (c mod 16)].

(** The short escapes: the letter after the backslash, and what it stands for. *)
Definition escapes : list (Z * Z) :=
  [(34, 34); (92, 92); (98, 8); (102, 12); (110, 10); (114, 13); (116, 9)].

Definition short_escape (c : Z) : option Z :=
  fst <$> find (λ e, e.2 =? c) escapes.

(** One character of a string; [None] is a stray byte. *)
Definition quote_rune (r : option text) : text :=
  match r with
  | None => u_escape 65533
  | Some [c] =>
      match short_escape c with
      | Some l => [92; l]
      | None => if ((c <? 32) || (c =? 38) || (c =? 60) || (c =? 62))%bool then u_escape c else [c]
      end
  | Some t =>
      if decide (t = [226; 128; 168]) then u_escape 8232
      else if decide (t = [226; 128; 169]) then u_escape 8233
      else t
  end.

Definition quote (s : text) : text := 34 :: List.concat (quote_rune <$> runes s) ++ [34].

(** ** Reading strings *)

Definition hex_value (c : Z) : option Z :=
  if is_digit c then Some (c - 48)
  else if between 97 c 102 then Some (c - 87)
  else if between 65 c 70 then Some (c - 55)
  else None.

Definition hex4 (s : text) : option (Z * text) :=
  match s with
  | a :: b :: c :: d :: s =>
      a ← hex_value a; b ← hex_value b; c ← hex_value c; d ← hex_value d;
      Some (a * 4096 + b * 256 + c * 16 + d, s)
  | _ => None
  end.

(** [utf8.AppendRune] *)
Definition encode_rune (r : Z) : text :=
  if r <? 128 then [r]
  else if r <? 2048 then [192 + r / 64; 128 + r mod 64]
  else if between 55296 r 57343 then replacement
  else if r <? 65536 then [224 + r / 4096; 128 + r / 64 mod 64; 128 + r mod 64]
  else [240 + r / 262144; 128 + r / 4096 mod 64; 128 + r / 64 mod 64; 128 + r mod 64].

(** The characters behind [\u]: a pair of surrogates is one character, a single
    one is U+FFFD. *)
Definition unescape_u (s : text) : option (text * text) :=
  '(r, s) ← hex4 s;
  if between 55296 r 57343 then
    match s with
    | 92 :: 117 :: s' =>
        match hex4 s' with
        | Some (r', s'') =>
            if (between 55296 r 56319 && between 56320 r' 57343)%bool
            then Some (encode_rune ((r - 55296) * 1024 + (r' - 56320) + 65536), s'')
            else Some (replacement, s)
        | None => Some (replacement, s)
        end
    | _ => Some (replacement, s)
    end
  else Some (encode_rune r, s).

(** A string after its opening quote: its bytes, and the text after the closing
    one. *)
Fixpoint parse_str (fuel : nat) (s : text) : option (text * text) :=
  match fuel, s with
  | S fuel, c :: s' =>
      if c =? 34 then Some ([], s')
      else if c =? 92 then
        match s' with
        | [] => None
        | e :: s'' =>
            '(t, s) ← (if e =? 117 then unescape_u s''
                       else if e =? 47 then Some ([47], s'')
                       else x ← find (λ x, x.1 =? e) escapes; Some ([x.2], s''));
            '(ts, rest) ← parse_str fuel s; Some (t ++ ts, rest)
        end
      else if c <? 32 then None
      else
        match rune s with
        | Some t => '(ts, rest) ← parse_str fuel (drop (length t) s); Some (t ++ ts, rest)
        | None => '(ts, rest) ← parse_str fuel s'; Some (replacement ++ ts, rest)
        end
  | _, _ => None
  end.

(** ** Numbers and white space *)

Fixpoint span (f : Z → bool) (s : text) : text * text :=
  match s with
  | c :: s' => if f c then let '(a, b) := span f s' in (c :: a, b) else ([], s)
  | [] => ([], [])
  end.

(** The optional part of a number that starts with one of [marks]. *)
Definition scan_part (marks signs : list Z) (s : text) : option (text * text) :=
  match s with
  | c :: s' =>
      if decide (c ∈ marks) then
        let '(sg, s') := match s' with
          | x :: s'' => if decide (x ∈ signs) then ([x], s'') else ([], s') | [] => ([], []) end in
        let '(ds, s'') := span is_digit s' in
        if decide (ds = []) then None else Some (c :: sg ++ ds, s'')
      else Some ([], s)
  | [] => Some ([], [])
  end.

Definition scan_number (s : text) : option (text * text) :=
  let '(sg, s) := match s with
    | x :: s' => if x =? 45 then ([45], s') else ([], s) | [] => ([], []) end in
  '(ip, s) ← match s with
    | c :: s' =>
        if c =? 48 then Some ([48], s')
        else if between 49 c 57 then Some (span is_digit s) else None
    | [] => None
    end;
  '(fp, s) ← scan_part [46] [] s;
  '(ep, s) ← scan_part [69; 101] [43; 45] s;
  Some (sg ++ ip ++ fp ++ ep, s).

Definition ws (c : Z) : bool := ((c =? 32) || (c =? 9) || (c =? 10) || (c =? 13))%bool.

Fixpoint skip (s : text) : text :=
  match s with c :: s' => if ws c then skip s' else s | [] => [] end.

(** ** Values *)

Definition literal (w : string) (v : json) (s : text) : option (json * text) :=
  if decide (codes w `prefix_of` s) then Some (v, drop (length (codes w)) s) else None.

(** The next character after white space. *)
Definition expect (c : Z) (s : text) : option text :=
  match skip s with
  | x :: s' => if x =? c then Some s' else None
  | [] => None
  end.

Fixpoint parse_value (fuel depth : nat) (s : text) {struct fuel} : option (json * text) :=
  match fuel with
  | O => None
  | S fuel =>
    match skip s with
    | [] => None
    | c :: s' =>
      if c =? 34 then '(t, rest) ← parse_str (length s') s'; Some (JStr t, rest)
      else if c =? 91 then
        match depth with
        | O => None
        | S depth =>
          match expect 93 s' with
          | Some rest => Some (JArr [], rest)
          | None => '(l, rest) ← parse_elems fuel depth s'; Some (JArr l, rest)
          end
        end
      else if c =? 123 then
        match depth with
        | O => None
        | S depth =>
          match expect 125 s' with
          | Some rest => Some (JObj [], rest)
          | None => '(l, rest) ← parse_members fuel depth s'; Some (JObj l, rest)
          end
        end
      else if c =? 110 then literal "null" JNull (c :: s')
      else if c =? 116 then literal "true" (JBool true) (c :: s')
      else if c =? 102 then literal "false" (JBool false) (c :: s')
      else '(lit, rest) ← scan_number (c :: s'); Some (JNum lit, rest)
    end
  end
with parse_elems (fuel depth : nat) (s : text) {struct fuel} : option (list json * text) :=
  match fuel with
  | O => None
  | S fuel =>
    '(v, s) ← parse_value fuel depth s;
    match expect 44 s with
    | Some s => '(l, rest) ← parse_elems fuel depth s; Some (v :: l, rest)
    | None => rest ← expect 93 s; Some ([v], rest)
    end
  end
with parse_members (fuel depth : nat) (s : text) {struct fuel} : option (list (text * json) * text) :=
  match fuel with
  | O => None
  | S fuel =>
    s ← expect 34 s;
    '(k, s) ← parse_str (length s) s;
    s ← expect 58 s;
    '(v, s) ← parse_value fuel depth s;
    match expect 44 s with
    | Some s => '(l, rest) ← parse_members fuel depth s; Some ((k, v) :: l, rest)
    | None => rest ← expect 125 s; Some ([(k, v)], rest)
    end
  end.

(** The nesting the scanner accepts. *)
Definition maxNestingDepth : nat := Z.to_nat 10000.

Definition parse (s : text) : option json :=
  '(v, rest) ← parse_value (2 * length s + 2) maxNestingDepth s;
  if decide (skip rest = []) then Some v else None.

(** ** Printing *)

Definition newline (ind : bool) (d : nat) : text := if ind then 10 :: replicate (2 * d) 32 else [].

(** [x1,x2,...] with every item on a line of its own. *)
Definition items (ind : bool) (d : nat) (l : list text) : text :=
  match l with
  | [] => []
  | x :: l =>
      newline ind (S d) ++ x ++
      List.concat ((λ y, 44 :: newline ind (S d) ++ y) <$> l) ++ newline ind d
  end.

Fixpoint print (ind : bool) (d : nat) (v : json) : text :=
  match v with
  | JNull => codes "null"
  | JBool true => codes "true"
  | JBool false => codes "false"
  | JNum lit => lit
  | JStr s => quote s
  | JArr l => 91 :: items ind d (print ind (S d) <$> l) ++ [93]
  | JObj l =>
      123 :: items ind d
        ((λ kv, quote kv.1 ++ 58 :: (if ind then [32] else []) ++ print ind (S d) kv.2) <$> l) ++ [125]
  end.

(** ** Strings: reading what was written *)

Lemma hex_value_hex d : 0 ≤ d < 16 → hex_value (hex d) = Some d.
Proof.
  intros Hd. unfold hex_value, hex, is_digit, between.
  destruct (Z.ltb_spec d 10).
  - rewrite !(proj2 (Z.leb_le _ _)) by lia. cbn. f_equal. lia.
  - rewrite (proj2 (Z.leb_gt (87 + d) 57)), andb_false_r by lia.
    rewrite !(proj2 (Z.leb_le _ _)) by lia. cbn. f_equal. lia.
Qed.

Lemma hex4_u_escape c rest : 0 ≤ c < 65536 → hex4 (drop 2 (u_escape c) ++ rest) = Some (c, rest).
Proof.
  intros Hc. cbn [u_escape drop app hex4].
  rewrite !hex_value_hex by (apply Z.mod_pos_bound; lia). cbn. f_equal. f_equal.
  rewrite (Z.mod_small (c / 4096)) by (split; [apply Z.div_pos|apply Z.div_lt_upper_bound]; lia).
  replace (c / 4096) with (c / 16 / 16 / 16) by (rewrite !Z.div_div by lia; done).
  replace (c / 256) with (c / 16 / 16) by (rewrite !Z.div_div by lia; done).
  pose proof (Z.div_mod c 16 ltac:(lia)). pose proof (Z.div_mod (c / 16) 16 ltac:(lia)).
  pose proof (Z.div_mod (c / 16 / 16) 16 ltac:(lia)). lia.
Qed.

Lemma parse_str_u fuel c rest : 0 ≤ c < 65536 → between 55296 c 57343 = false →
  parse_str (S fuel) (u_escape c ++ rest) =
    '(ts, rest) ← parse_str fuel rest; Some (encode_rune c ++ ts, rest).
Proof.
  intros Hc Hs. change (u_escape c ++ rest) with (92 :: 117 :: drop 2 (u_escape c) ++ rest).
  cbn [parse_str Z.eqb Pos.eqb]. unfold unescape_u. rewrite hex4_u_escape by done. cbn.
  by rewrite Hs.
Qed.

(** What the reader returns for a character the writer has written. *)
Definition reads_as (r : option text) : Prop := ∀ fuel rest,
  parse_str (S fuel) (quote_rune r ++ rest) =
    '(ts, rest) ← parse_str fuel rest; Some (default replacement r ++ ts, rest).

Lemma reads_plain t : is_rune t → (∃ c t', t = c :: t' ∧ 32 ≤ c ∧ c ≠ 34 ∧ c ≠ 92) →
  ∀ fuel rest, parse_str (S fuel) (t ++ rest) =
    '(ts, rest) ← parse_str fuel rest; Some (t ++ ts, rest).
Proof.
  intros Ht (c & t' & -> & H32 & H34 & H92) fuel rest. pose proof (rune_app _ rest Ht) as Hr.
  cbn [app] in *. cbn [parse_str].
  rewrite (proj2 (Z.eqb_neq _ _) H34), (proj2 (Z.eqb_neq _ _) H92), (proj2 (Z.ltb_ge _ _) H32), Hr.
  cbn [length drop]. by rewrite drop_app_length.
Qed.

Lemma short_escape_reads c l : short_escape c = Some l → reads_as (Some [c]).
Proof.
  unfold reads_as, short_escape. cbn [find escapes snd].
  repeat (match goal with |- context [?x =? c] => destruct (Z.eqb_spec x c) as [<-|?] end; [done|]).
  done.
Qed.

Lemma quote_rune_reads r : (∀ t, r = Some t → is_rune t ∧ t ≠ [] ∧ Forall is_byte t) → reads_as r.
Proof.
  destruct r as [t|]; intros Hr; [|intros fuel rest; by apply (parse_str_u fuel 65533)].
  destruct (Hr t eq_refl) as (Ht & Hne & Hb). destruct t as [|c [|b t]]; [done|..].
  - unfold is_rune in Ht. cbn in Ht. destruct (Z.ltb_spec c 128) as [Hc|]; [|done].
    apply Forall_inv in Hb. unfold is_byte in Hb.
    destruct (short_escape c) as [l|] eqn:He; [by eapply short_escape_reads|].
    intros fuel rest. cbn [quote_rune]. rewrite He. branch.
    + rewrite parse_str_u; [|lia|unfold between; by rewrite (proj2 (Z.leb_gt 55296 c)) by lia].
      unfold encode_rune. by rewrite (proj2 (Z.ltb_lt c 128)).
    + bool_props. apply reads_plain; [unfold is_rune; cbn; by rewrite (proj2 (Z.ltb_lt c 128))|].
      exists c, []. split_and!; [done|lia|..]; intros ->; done.
  - intros fuel rest. unfold quote_rune.
    destruct (decide _) as [E|_]; [rewrite E; by apply (parse_str_u fuel 8232)|].
    destruct (decide _) as [E|_]; [rewrite E; by apply (parse_str_u fuel 8233)|].
    apply reads_plain; [done|]. exists c, (b :: t). enough (128 ≤ c) by (split_and!; [done|lia..]).
    unfold is_rune in Ht. destruct (Z.ltb_spec c 128) as [Hc%Z.ltb_lt|]; [|done]. exfalso.
    destruct t as [|? [|? ?]]; cbn in Ht; rewrite Hc in Ht; done.
Qed.

Lemma runes_sound s : Forall is_byte s →
  Forall (λ r, ∀ t, r = Some t → is_rune t ∧ t ≠ [] ∧ Forall is_byte t) (runes s).
Proof.
  induction s as [|t rest Ht Hne IH|a s Hr IH] using runes_ind; intros Hb; [by constructor|..].
  - apply Forall_app in Hb as [Hb Hrest]. rewrite runes_app by done. constructor; [|auto].
    intros ? [= <-]. done.
  - apply Forall_cons in Hb as [_ Hs]. rewrite runes_bad by done. constructor; [done|auto].
Qed.

Lemma parse_str_quote_runes l rest fuel : Forall reads_as l → (length l < fuel)%nat →
  parse_str fuel (List.concat (quote_rune <$> l) ++ 34 :: rest) =
    Some (List.concat (default replacement <$> l), rest).
Proof.
  intros Hl. revert fuel. induction Hl as [|r l Hr Hl IH]; intros fuel Hf.
  - by destruct fuel; [cbn in Hf; lia|].
  - destruct fuel as [|fuel]; [cbn in Hf; lia|]. rewrite !fmap_cons. cbn [List.concat].
    rewrite <- app_assoc, Hr, IH by (cbn in Hf; lia). done.
Qed.

Lemma quote_rune_length r : (∀ t, r = Some t → t ≠ []) → (1 ≤ length (quote_rune r))%nat.
Proof.
  destruct r as [[|c [|b t]]|]; intros Hr; cbn [quote_rune]; [by destruct (Hr [] eq_refl)|..|cbn; lia].
  - destruct (short_escape c); [cbn; lia|]. branch; cbn; lia.
  - repeat destruct (decide _); cbn; lia.
Qed.

Lemma parse_str_quote s rest : Forall is_byte s →
  let body := tail (quote s) ++ rest in
  parse_str (length body) body = Some (to_valid s, rest).
Proof.
  intros Hs%runes_sound. unfold quote. cbn [tail]. rewrite <- app_assoc. cbn [app].
  apply parse_str_quote_runes.
  - eapply Forall_impl; [exact Hs|]. apply quote_rune_reads.
  - rewrite length_app. cbn [length]. enough (length (runes s) ≤ length (List.concat (quote_rune <$> runes s)))%nat by lia.
    induction Hs as [|r l Hr Hl IH]; [done|]. rewrite fmap_cons. cbn [List.concat length]. rewrite length_app.
    assert (1 ≤ length (quote_rune r))%nat by (apply quote_rune_length; intros t ->; by apply (Hr t)). lia.
Qed.

(** ** Values: reading what was printed *)

(** The trees [Marshal] builds here: integers in decimal, strings of bytes. *)
Fixpoint printable (v : json) : bool :=
  match v with
  | JNull | JBool _ => true
  | JNum lit => match ParseInt lit with Some z => bool_decide (lit = decimal z) | None => false end
  | JStr s => forallb (λ c, between 0 c 255) s
  | JArr l => forallb printable l
  | JObj l => forallb (λ kv, forallb (λ c, between 0 c 255) kv.1 && printable kv.2)%bool l
  end.

Fixpoint height (v : json) : nat :=
  match v with
  | JArr l => S (max_list (height <$> l))
  | JObj l => S (max_list ((λ kv, height kv.2) <$> l))
  | _ => 0
  end.

(** The tree with stray bytes replaced. *)
Fixpoint coerce (v : json) : json :=
  match v with
  | JStr s => JStr (to_valid s)
  | JArr l => JArr (coerce <$> l)
  | JObj l => JObj ((λ kv, (to_valid kv.1, coerce kv.2)) <$> l)
  | _ => v
  end.

(** What may follow a number without becoming part of it. *)
Definition stops (rest : text) : Prop :=
  match rest with
  | c :: _ => is_digit c = false ∧ c ≠ 46 ∧ c ≠ 69 ∧ c ≠ 101
  | [] => True
  end.

Lemma span_prefix (f : Z → bool) ds rest : Forall (λ c, f c = true) ds →
  match rest with c :: _ => f c = false | [] => True end → span f (ds ++ rest) = (ds, rest).
Proof.
  intros Hds Hrest. induction Hds as [|c ds Hc Hds IH]; cbn [app span].
  - destruct rest as [|c rest]; [done|]. cbn [span]. by rewrite Hrest.
  - by rewrite Hc, IH.
Qed.

Lemma span_stops ds rest : Forall (λ c, is_digit c = true) ds → stops rest →
  span is_digit (ds ++ rest) = (ds, rest).
Proof. intros Hds Hrest. apply span_prefix; [done|]. destruct rest; [done|apply Hrest]. Qed.

Lemma scan_part_stops marks signs rest : (∀ m, m ∈ marks → m = 46 ∨ m = 69 ∨ m = 101) →
  stops rest → scan_part marks signs rest = Some ([], rest).
Proof.
  intros Hm. destruct rest as [|c rest]; [done|]. intros (_ & H46 & H69 & H101). cbn.
  rewrite decide_False; [done|]. intros Hc. by destruct (Hm c Hc) as [->|[->| ->]].
Qed.

Lemma scan_number_decimal z rest : in_int z → stops rest →
  scan_number (decimal z ++ rest) = Some (decimal z, rest).
Proof.
  intros Hz Hrest. destruct (decimal_spec z Hz) as (c & ds & Hd & H0 & _ & ->).
  pose proof (Forall_inv Hd) as Hc. unfold is_digit, between in Hc. bool_props.
  assert (∀ sg, ('(ip, s) ← (if c =? 48 then Some ([48], ds ++ rest)
       else if between 49 c 57 then Some (span is_digit (c :: ds ++ rest)) else None);
     '(fp, s) ← scan_part [46] [] s; '(ep, s) ← scan_part [69; 101] [43; 45] s;
     Some (sg ++ ip ++ fp ++ ep, s)) = Some (sg ++ c :: ds, rest)) as Hgo.
  { intros sg. assert ((if c =? 48 then Some ([48], ds ++ rest)
       else if between 49 c 57 then Some (span is_digit (c :: ds ++ rest)) else None) = Some (c :: ds, rest)) as ->.
    { destruct (Z.eqb_spec c 48) as [->|Hne]; [by rewrite H0|]. unfold between. rewrite !(proj2 (Z.leb_le _ _)) by lia.
      f_equal. by apply (span_stops (c :: ds)). }
    cbn [mbind option_bind]. do 2 (rewrite scan_part_stops by (done || (intros m; rewrite !elem_of_cons, elem_of_nil; tauto));
      cbn [mbind option_bind]).
    by rewrite !app_nil_r. }
  unfold scan_number. destruct (z <? 0); cbn [app].
  - rewrite Z.eqb_refl. apply Hgo.
  - rewrite (proj2 (Z.eqb_neq c 45)) by lia. apply (Hgo []).
Qed.

Lemma skip_newline ind d s : skip (newline ind d ++ s) = skip s.
Proof. destruct ind; [|done]. cbn. by induction (d + (d + 0))%nat. Qed.

Lemma skip_space ind s : skip ((if ind : bool then [32] else []) ++ s) = skip s.
Proof. by destruct ind. Qed.

Lemma expect_skip c s s' : skip s = skip s' → expect c s = expect c s'.
Proof. unfold expect. by intros ->. Qed.

Lemma expect_here c s : ws c = false → expect c (c :: s) = Some s.
Proof. intros Hc. unfold expect. cbn. by rewrite Hc, Z.eqb_refl. Qed.

Lemma expect_other c x s : ws x = false → x ≠ c → expect c (x :: s) = None.
Proof. intros Hx Hne. unfold expect. cbn. by rewrite Hx, (proj2 (Z.eqb_neq _ _) Hne). Qed.

Lemma parse_value_skip fuel depth s s' : skip s = skip s' →
  parse_value fuel depth s = parse_value fuel depth s'.
Proof. intros E. destruct fuel; [done|]. cbn [parse_value]. by rewrite E. Qed.

(** The first character of a printed value. *)
Definition starts (v : json) (c : Z) : Prop :=
  match v with
  | JNull => c = 110
  | JBool b => c = if b then 116 else 102
  | JNum _ => c = 45 ∨ is_digit c = true
  | JStr _ => c = 34
  | JArr _ => c = 91
  | JObj _ => c = 123
  end.

Lemma printable_num lit : printable (JNum lit) = true → ∃ z, in_int z ∧ lit = decimal z.
Proof.
  cbn. destruct (ParseInt lit) as [z|] eqn:Hp; [|done]. intros E. bool_props.
  exists z. split; [by eapply ParseInt_in_int|done].
Qed.

Lemma starts_no_ws v c : starts v c → ws c = false ∧ c ≠ 93 ∧ c ≠ 125.
Proof.
  destruct v as [|[]|?|?|?|?]; cbn; intros Hc; simplify_eq; try done.
  destruct Hc as [->|Hc]; [done|]. unfold is_digit, between in Hc. bool_props. unfold ws.
  rewrite !(proj2 (Z.eqb_neq _ _)) by lia. split; [done|lia].
Qed.

Lemma print_starts ind d v : printable v = true → ∃ c s, print ind d v = c :: s ∧ starts v c.
Proof.
  destruct v as [|[]|lit|s|l|l]; intros Hv; try (by repeat econstructor).
  apply printable_num in Hv as (z & Hz & ->). destruct (decimal_spec z Hz) as (c & ds & Hd & _ & _ & E).
  cbn [print starts]. rewrite E. apply Forall_inv in Hd. destruct (z <? 0); eauto.
Qed.

Lemma skip_print ind d v rest : printable v = true →
  skip (print ind d v ++ rest) = print ind d v ++ rest.
Proof.
  intros Hv. destruct (print_starts ind d v Hv) as (c & s & -> & Hc).
  apply starts_no_ws in Hc as [Hc _]. cbn. by rewrite Hc.
Qed.

Lemma print_length ind d v : printable v = true → (1 ≤ length (print ind d v))%nat.
Proof. intros Hv. destruct (print_starts ind d v Hv) as (c & s & -> & _). cbn. lia. Qed.

Lemma expect_print ind d v c rest : printable v = true → c = 93 ∨ c = 125 →
  expect c (print ind d v ++ rest) = None.
Proof.
  intros Hv Hc. destruct (print_starts ind d v Hv) as (x & s & -> & Hx).
  apply starts_no_ws in Hx as (Hx & ? & ?). apply expect_other; [done|lia].
Qed.

(** A value is read back wherever it stands. *)
Definition reads (v : json) : Prop := ∀ ind d depth fuel rest,
  (height v ≤ depth)%nat → (2 * length (print ind d v) ≤ fuel)%nat → stops rest →
  parse_value fuel depth (print ind d v ++ rest) = Some (coerce v, rest).

Lemma scalar_reads v : printable v = true →
  (match v with JArr _ | JObj _ => False | _ => True end) → reads v.
Proof.
  intros Hv Hs ind d depth fuel rest _ Hf Hrest. pose proof (print_length ind d v Hv).
  destruct fuel as [|fuel]; [lia|]. cbn [parse_value]. rewrite skip_print by done.
  destruct v as [|[]|lit|s|l|l]; try done; clear Hs.
  - cbn [print coerce].
    destruct (print_starts ind d (JNum lit) Hv) as (c & s & E & Hc). cbn [print] in E.
    apply printable_num in Hv as (z & Hz & ->). rewrite E. cbn [app].
    assert (c = 45 ∨ 48 ≤ c ≤ 57) as Hr.
    { destruct Hc as [Hc|Hc]; [by left|right]. unfold is_digit, between in Hc. bool_props. lia. }
    rewrite !(proj2 (Z.eqb_neq _ _)) by lia.
    change (c :: s ++ rest) with ((c :: s) ++ rest). rewrite <- E, scan_number_decimal by done. done.
  - cbn [print]. change (quote s ++ rest) with (34 :: tail (quote s) ++ rest). cbn [Z.eqb Pos.eqb].
    pose proof (parse_str_quote s rest) as Hq. cbv zeta in Hq. rewrite Hq; [done|].
    cbn [printable] in Hv. by apply forallb_bytes.
Qed.

(** The items after the first, each behind a comma. *)
Definition more (ind : bool) (d : nat) (l : list text) : text :=
  List.concat ((λ y, 44 :: newline ind (S d) ++ y) <$> l).

Lemma stops_newline ind d c rest : stops (c :: rest) → stops (newline ind d ++ c :: rest).
Proof. by destruct ind. Qed.

Lemma stops_more ind d l c rest : stops (c :: rest) → stops (more ind d l ++ newline ind d ++ c :: rest).
Proof. intros Hc. destruct l; [by apply stops_newline|done]. Qed.

Lemma parse_elems_more ind d depth rest x l fuel :
  Forall (λ v, printable v = true ∧ reads v ∧ (height v ≤ depth)%nat) (x :: l) →
  (2 * length (print ind (S d) x ++ more ind d (print ind (S d) <$> l)) + 1 ≤ fuel)%nat →
  parse_elems fuel depth
    (newline ind (S d) ++ print ind (S d) x ++ more ind d (print ind (S d) <$> l) ++ newline ind d ++ 93 :: rest) =
  Some (coerce <$> x :: l, rest).
Proof.
  revert x fuel. induction l as [|y l IH]; intros x fuel [(Hx & Hr & Hh) Hl]%Forall_cons Hf;
    destruct fuel as [|fuel]; try lia; cbn [parse_elems];
    erewrite parse_value_skip by apply skip_newline; rewrite length_app in Hf;
    rewrite Hr by (done || lia || by apply (stops_more _ _ (print ind (S d) <$> _))); cbn [mbind option_bind].
  - cbn [more List.concat fmap list_fmap app].
    rewrite !(expect_skip _ _ _ (skip_newline _ _ _)). by rewrite expect_other, expect_here.
  - rewrite fmap_cons. unfold more at 1. rewrite fmap_cons. cbn [List.concat app].
    rewrite expect_here by done. rewrite <- !app_assoc. fold (more ind d (print ind (S d) <$> l)).
    rewrite IH; [done|done|]. unfold more in *. rewrite !fmap_cons in Hf. cbn [List.concat] in Hf.
    rewrite ?length_app in *. cbn [length] in Hf. rewrite ?length_app in *.
    pose proof (print_length ind (S d) x Hx). lia.
Qed.

Definition print_member (ind : bool) (d : nat) (kv : text * json) : text :=
  quote kv.1 ++ 58 :: (if ind then [32] else []) ++ print ind (S d) kv.2.

Lemma parse_members_more ind d depth rest x l fuel :
  Forall (λ kv, Forall is_byte kv.1 ∧ printable kv.2 = true ∧ reads kv.2 ∧ (height kv.2 ≤ depth)%nat) (x :: l) →
  (2 * length (print_member ind d x ++ more ind d (print_member ind d <$> l)) + 1 ≤ fuel)%nat →
  parse_members fuel depth
    (newline ind (S d) ++ print_member ind d x ++ more ind d (print_member ind d <$> l) ++ newline ind d ++ 125 :: rest) =
  Some ((λ kv, (to_valid kv.1, coerce kv.2)) <$> x :: l, rest).
Proof.
  revert x fuel. induction l as [|y l IH]; intros [k v] fuel [(Hk & Hx & Hr & Hh) Hl]%Forall_cons Hf;
    cbn [fst snd] in *; destruct fuel as [|fuel]; try lia; cbn [parse_members];
    rewrite (expect_skip _ _ _ (skip_newline _ _ _));
    set (tl := _ ++ newline ind d ++ 125 :: rest);
    assert (stops tl) as Hs by (by apply (stops_more _ _ (print_member ind d <$> _)));
    unfold print_member at 1; cbn [fst snd]; rewrite <- app_assoc;
    (change (quote k ++ ?s) with (34 :: tail (quote k) ++ s)); rewrite expect_here by done;
    cbn [mbind option_bind];
    (pose proof (λ s, parse_str_quote k s Hk) as Hq; cbv zeta in Hq; rewrite Hq); cbn [mbind option_bind app];
    rewrite expect_here by done; cbn [mbind option_bind];
    rewrite <- app_assoc; erewrite parse_value_skip by apply skip_space;
    rewrite length_app in Hf; unfold print_member in Hf at 1; rewrite length_app in Hf; cbn [length fst snd] in Hf;
    rewrite length_app in Hf; rewrite Hr by (done || lia); cbn [mbind option_bind]; subst tl.
  - cbn [more List.concat fmap list_fmap app].
    rewrite !(expect_skip _ _ _ (skip_newline _ _ _)). by rewrite expect_other, expect_here.
  - rewrite fmap_cons. unfold more at 1. rewrite fmap_cons. cbn [List.concat app].
    rewrite expect_here by done. rewrite <- !app_assoc. fold (more ind d (print_member ind d <$> l)).
    rewrite IH; [done|done|]. unfold more in *. rewrite !fmap_cons in Hf. cbn [List.concat] in Hf.
    rewrite ?length_app in *. cbn [length] in Hf. rewrite ?length_app in *.
    pose proof (print_length ind (S d) v Hx). lia.
Qed.

Lemma forallb_Forall {A} (f : A → bool) l : forallb f l = true → Forall (λ x, f x = true) l.
Proof. induction l as [|x l IH]; cbn; [constructor|]. intros [Hx Hl]%andb_true_iff. constructor; auto. Qed.

Lemma max_list_Forall {A} (f : A → nat) l n : (max_list (f <$> l) ≤ n)%nat → Forall (λ x, (f x ≤ n)%nat) l.
Proof.
  intros H. apply Forall_forall. intros x Hx. etrans; [|exact H].
  apply max_list_elem_of_le. by apply list_elem_of_fmap_2.
Qed.

Lemma items_cons ind d x l rest :
  items ind d (x :: l) ++ rest = newline ind (S d) ++ x ++ more ind d l ++ newline ind d ++ rest.
Proof. unfold items, more. by rewrite <- !app_assoc. Qed.

Lemma array_reads l : Forall reads l → printable (JArr l) = true → reads (JArr l).
Proof.
  intros Hl Hp%forallb_Forall ind d depth fuel rest Hh Hf _.
  cbn [print] in *. cbn [app]. rewrite <- app_assoc. cbn [length app] in *. rewrite length_app in Hf.
  destruct fuel as [|fuel]; [lia|]. destruct depth as [|depth]; [cbn in Hh; lia|].
  cbn [height] in Hh. apply Nat.succ_le_mono, max_list_Forall in Hh.
  cbn [parse_value skip ws Z.eqb Pos.eqb orb]. destruct l as [|x l].
  - done.
  - rewrite fmap_cons in *. rewrite items_cons, (expect_skip _ _ _ (skip_newline _ _ _)).
    pose proof (Forall_inv Hp). rewrite expect_print by (done || by left).
    rewrite <- (app_nil_r (items _ _ _)), items_cons, !length_app in Hf.
    rewrite parse_elems_more; [done|by rewrite !Forall_and|rewrite length_app; lia].
Qed.

Lemma object_reads l : Forall (λ kv, reads kv.2) l → printable (JObj l) = true → reads (JObj l).
Proof.
  intros Hl Hp%forallb_Forall ind d depth fuel rest Hh Hf _.
  assert (Forall (λ kv : text * json, Forall is_byte kv.1 ∧ printable kv.2 = true) l) as Hb.
  { eapply Forall_impl; [exact Hp|]. intros kv [Hk Hv]%andb_true_iff. split; [by apply forallb_bytes|done]. }
  clear Hp. change (print ind d (JObj l)) with (123 :: items ind d (print_member ind d <$> l) ++ [125]) in *.
  cbn [app]. rewrite <- app_assoc. cbn [length app] in *. rewrite length_app in Hf.
  destruct fuel as [|fuel]; [lia|]. destruct depth as [|depth]; [cbn in Hh; lia|].
  cbn [height] in Hh. apply Nat.succ_le_mono, max_list_Forall in Hh.
  cbn [parse_value skip ws Z.eqb Pos.eqb orb]. destruct l as [|x l].
  - done.
  - rewrite fmap_cons in *. rewrite items_cons, (expect_skip _ _ _ (skip_newline _ _ _)).
    unfold print_member at 1. rewrite <- app_assoc. change (quote x.1 ++ ?s) with (34 :: tail (quote x.1) ++ s).
    rewrite expect_other by done.
    rewrite <- (app_nil_r (items _ _ _)), items_cons, !length_app in Hf.
    rewrite parse_members_more; [done| |rewrite length_app; lia].
    eapply Forall_impl; [exact (proj2 (Forall_and _ _) (conj Hb (proj2 (Forall_and _ _) (conj Hl Hh))))|].
    cbn. tauto.
Qed.

Lemma print_reads v : printable v = true → reads v.
Proof.
  induction v as [| | | |l IH|l IH] using json_ind'; intros Hp; try (by apply scalar_reads).
  - apply array_reads; [|done]. apply forallb_Forall in Hp.
    eapply Forall_impl; [exact (proj2 (Forall_and _ _) (conj IH Hp))|]. cbn. tauto.
  - apply object_reads; [|done]. apply forallb_Forall in Hp.
    eapply Forall_impl; [exact (proj2 (Forall_and _ _) (conj IH Hp))|].
    intros kv [IHkv [_ Hkv]%andb_true_iff]. auto.
Qed.

Theorem parse_print ind v : printable v = true → (height v ≤ maxNestingDepth)%nat →
  parse (print ind 0 v) = Some (coerce v).
Proof.
  intros Hp Hh. unfold parse. rewrite <- (app_nil_r (print ind 0 v)) at 2.
  rewrite (print_reads v Hp) by (done || lia). done.
Qed.
