(* ===== verification/Json.v ===== *)
(** * encoding/json: Go values as JSON

    [Marshal] and [Unmarshal] of a type, by the shape of the type: integers,
    strings, slices, maps and structs with their field names.  Decoding writes
    into a value that is already there, as [Unmarshal(data, &v)] does: a field
    that does not occur keeps its value.  The text of an error is not that of
    the library. *)

From S2P Require Import Prelude Types Text JsonSyntax.

(** What the program uses of the package at one type. *)
Class Json (T : Type) : Type := {
  Marshal : T → bytes + error;
  Unmarshal : bytes → T + error
}.

(** What has been encoded decodes to the same value.  [valid] are the values
    that JSON can carry: the strings in them are valid UTF-8. *)
Class JsonRoundtrip (T : Type) `{Json T} (valid : T → Prop) : Prop :=
  json_roundtrip (x : T) (data : bytes) : valid x → Marshal x = inl data → Unmarshal data = inl x.

(** ** Encoders *)

Definition enc_int (z : Z) : json := JNum (decimal z).
Definition enc_string (s : string) : json := JStr (codes s).

(** A field, and one with the option [omitempty]. *)
Definition enc_field (name : string) (v : json) : list (text * json) := [(codes name, v)].
Definition enc_omitempty (name : string) (empty : bool) (v : json) : list (text * json) :=
  if empty then [] else enc_field name v.

(** Keys are written in the order of their bytes. *)
Fixpoint text_leb (s t : text) : bool :=
  match s, t with
  | [], _ => true
  | _ :: _, [] => false
  | a :: s, b :: t => ((a <? b) || (a =? b) && text_leb s t)%bool
  end.

Fixpoint insert_member (kv : text * json) (l : list (text * json)) : list (text * json) :=
  match l with
  | [] => [kv]
  | x :: l' => if text_leb kv.1 x.1 then kv :: l else x :: insert_member kv l'
  end.

Definition enc_map `{Countable K} {V} (key : K → text) (enc : V → json) (m : gmap K V) : json :=
  JObj (foldr insert_member [] ((λ kv, (key kv.1, enc kv.2)) <$> map_to_list m)).

(** ** Decoders *)

Definition decoder (T : Type) : Type := T → json → T + error.

Definition type_error {T} : T + error := inr (Errorf "cannot unmarshal").

Definition in_range (lo hi z : Z) : bool := ((lo <=? z) && (z <=? hi))%bool.

Definition dec_int (lo hi : Z) : decoder Z := λ x v,
  match v with
  | JNull => inl x
  | JNum lit =>
      match ParseInt lit with
      | Some z => if in_range lo hi z then inl z else type_error
      | None => type_error
      end
  | _ => type_error
  end.

Definition dec_string : decoder string := λ x v,
  match v with JNull => inl x | JStr s => inl (uncodes s) | _ => type_error end.

(** An element that is already in the slice is written into. *)
Fixpoint dec_elems {T} (zero : T) (dec : decoder T) (old : list T) (l : list json) : list T + error :=
  match l with
  | [] => inl []
  | v :: l =>
    match dec (default zero (head old)) v with
    | inr err => inr err
    | inl x =>
      match dec_elems zero dec (tail old) l with
      | inr err => inr err
      | inl xs => inl (x :: xs)
      end
    end
  end.

Definition dec_slice {T} (zero : T) (dec : decoder T) : decoder (list T) := λ x v,
  match v with JNull => inl [] | JArr l => dec_elems zero dec x l | _ => type_error end.

(** The elements of a map start from the zero value. *)
Fixpoint dec_entries `{Countable K} {V} (key : text → option K) (zero : V) (dec : decoder V)
    (m : gmap K V) (l : list (text * json)) : gmap K V + error :=
  match l with
  | [] => inl m
  | (k, v) :: l =>
    match key k, dec zero v with
    | Some k, inl x => dec_entries key zero dec (<[k := x]> m) l
    | _, inr err => inr err
    | None, _ => type_error
    end
  end.

Definition dec_map `{Countable K} {V} (key : text → option K) (zero : V) (dec : decoder V)
    : decoder (gmap K V) := λ x v,
  match v with JNull => inl ∅ | JObj l => dec_entries key zero dec x l | _ => type_error end.

(** A name without regard to case.  Besides the letters two other characters
    fold to ASCII: the long s and the Kelvin sign. *)
Definition fold_rune (r : option text) : text :=
  match r with
  | Some [c] => if between 97 c 122 then [c - 32] else [c]
  | Some t => if decide (t = [197; 191]) then [83] else if decide (t = [226; 132; 170]) then [75] else t
  | None => replacement
  end.

Definition fold_name (s : text) : text := List.concat (fold_rune <$> runes s).

(** The field a name stands for: one of that very name before one that differs
    in case. *)
Definition field_named {T} (fields : list (string * decoder T)) (name : text) : option (decoder T) :=
  snd <$>
  match find (λ f, bool_decide (codes f.1 = name)) fields with
  | Some f => Some f
  | None => find (λ f, bool_decide (fold_name (codes f.1) = fold_name name)) fields
  end.

Fixpoint dec_members {T} (fields : list (string * decoder T)) (x : T) (l : list (text * json)) : T + error :=
  match l with
  | [] => inl x
  | (k, v) :: l =>
    match field_named fields k with
    | None => dec_members fields x l
    | Some dec =>
      match dec x v with
      | inr err => inr err
      | inl x => dec_members fields x l
      end
    end
  end.

Definition dec_struct {T} (fields : list (string * decoder T)) : decoder T := λ x v,
  match v with JNull => inl x | JObj l => dec_members fields x l | _ => type_error end.

(** The decoder of a field of a struct. *)
Definition dec_field {T A} (get : T → A) (set : A → T → T) (dec : decoder A) : decoder T := λ x v,
  match dec (get x) v with inl a => inl (set a x) | inr err => inr err end.

(** ** The two entry points *)

(** [ind]: [MarshalIndent] *)
Definition marshal_json (ind : bool) (v : json) : bytes := to_bytes (print ind 0 v).

Definition unmarshal_json {T} (zero : T) (dec : decoder T) (data : bytes) : T + error :=
  match parse (of_bytes data) with
  | None => inr (Errorf "invalid JSON")
  | Some v => dec zero v
  end.

(** ** Lemmas *)

(** A tree that [Marshal] prints and [Unmarshal] reads back unchanged. *)
Fixpoint clean (v : json) : bool :=
  match v with
  | JNull | JBool _ => true
  | JNum lit => match ParseInt lit with Some z => bool_decide (lit = decimal z) | None => false end
  | JStr s => (forallb (λ c, between 0 c 255) s && valid_utf8 s)%bool
  | JArr l => forallb clean l
  | JObj l => forallb (λ kv, forallb (λ c, between 0 c 255) kv.1 && valid_utf8 kv.1 && clean kv.2)%bool l
  end.

Lemma clean_printable v : clean v = true → printable v = true ∧ coerce v = v.
Proof.
  induction v as [| | |s|l IH|l IH] using json_ind'; cbn [clean printable coerce]; intros Hc; try done.
  - apply andb_true_iff in Hc as [-> Hu]. by rewrite to_valid_id.
  - apply forallb_Forall in Hc. assert (Forall (λ v, printable v = true ∧ coerce v = v) l) as Hl.
    { eapply Forall_impl; [exact (proj2 (Forall_and _ _) (conj IH Hc))|]. cbn. tauto. }
    apply Forall_and in Hl as [Hp He]. split; [by apply Forall_forallb|]. f_equal.
    rewrite <- (list_fmap_id l) at 2. by apply Forall_fmap_ext_1.
  - apply forallb_Forall in Hc.
    assert (Forall (λ kv, (forallb (λ c, between 0 c 255) kv.1 && printable kv.2)%bool = true ∧
      (to_valid kv.1, coerce kv.2) = kv) l) as Hl.
    { eapply Forall_impl; [exact (proj2 (Forall_and _ _) (conj IH Hc))|]. intros [k v]. cbn [fst snd].
      intros [IHv Hkv]. apply andb_true_iff in Hkv as [[-> Hu]%andb_true_iff Hv].
      destruct (IHv Hv) as [-> ->]. by rewrite to_valid_id. }
    apply Forall_and in Hl as [Hp He]. split; [by apply Forall_forallb|]. f_equal.
    rewrite <- (list_fmap_id l) at 2. by apply Forall_fmap_ext_1.
Qed.

(** Printed text consists of bytes. *)

Lemma hex_byte d : 0 ≤ d < 16 → is_byte (hex d).
Proof. intros Hd. unfold is_byte, hex. branch; lia. Qed.

Lemma u_escape_bytes c : Forall is_byte (u_escape c).
Proof.
  unfold u_escape. repeat constructor; try (by unfold is_byte);
    apply hex_byte, Z.mod_pos_bound; lia.
Qed.

Lemma quote_rune_bytes r : (∀ t, r = Some t → Forall is_byte t) → Forall is_byte (quote_rune r).
Proof.
  destruct r as [[|c [|b t]]|]; intros Hr; [constructor|..|apply u_escape_bytes].
  - specialize (Hr _ eq_refl). cbn [quote_rune]. destruct (short_escape c) as [l|] eqn:He.
    + constructor; [by unfold is_byte|]. constructor; [|constructor].
      revert He. unfold short_escape. cbn [find escapes snd].
      repeat (match goal with |- context [?x =? c] => destruct (x =? c) end;
        [intros [= <-]; by unfold is_byte|]). done.
    + branch; [apply u_escape_bytes|done].
  - unfold quote_rune. repeat (destruct (decide _); [apply u_escape_bytes|]). by apply Hr.
Qed.

Lemma quote_bytes s : Forall is_byte s → Forall is_byte (quote s).
Proof.
  intros Hs%runes_sound. unfold quote. constructor; [by unfold is_byte|].
  apply Forall_app. split; [|by repeat constructor]. apply Forall_concat, Forall_fmap.
  eapply Forall_impl; [exact Hs|]. intros r Hr. apply quote_rune_bytes. intros t Ht. by apply Hr.
Qed.

Lemma newline_bytes ind d : Forall is_byte (newline ind d).
Proof.
  destruct ind; [|constructor]. constructor; [by unfold is_byte|].
  apply Forall_replicate. by unfold is_byte.
Qed.

Lemma items_bytes ind d l : Forall (Forall is_byte) l → Forall is_byte (items ind d l).
Proof.
  intros Hl. destruct Hl as [|x l Hx Hl]; [constructor|]. unfold items.
  repeat (apply Forall_app; split); auto using newline_bytes.
  apply Forall_concat, Forall_fmap. eapply Forall_impl; [exact Hl|]. intros y Hy. cbn.
  constructor; [by unfold is_byte|]. apply Forall_app. auto using newline_bytes.
Qed.

Lemma digit_byte c : is_digit c = true → is_byte c.
Proof. unfold is_digit, between, is_byte. intros H. bool_props. lia. Qed.

Lemma print_bytes ind d v : printable v = true → Forall is_byte (print ind d v).
Proof.
  revert d. induction v as [|b|lit|s|l IH|l IH] using json_ind'; intros d Hp.
  - by repeat constructor.
  - destruct b; by repeat constructor.
  - apply printable_num in Hp as (z & Hz & ->). cbn [print].
    destruct (decimal_spec z Hz) as (c & ds & Hd & _ & _ & ->).
    assert (Forall is_byte (c :: ds)) by (eapply Forall_impl; [exact Hd|apply digit_byte]).
    destruct (z <? 0); [constructor; [by unfold is_byte|]|]; done.
  - apply quote_bytes, forallb_bytes, Hp.
  - cbn [print printable] in *. constructor; [by unfold is_byte|]. apply Forall_app.
    split; [|by repeat constructor]. apply items_bytes, Forall_fmap. apply forallb_Forall in Hp.
    eapply Forall_impl; [exact (proj2 (Forall_and _ _) (conj IH Hp))|]. cbn. intros v [Hv ?]. auto.
  - cbn [print printable] in *. constructor; [by unfold is_byte|]. apply Forall_app.
    split; [|by repeat constructor]. apply items_bytes, Forall_fmap. apply forallb_Forall in Hp.
    eapply Forall_impl; [exact (proj2 (Forall_and _ _) (conj IH Hp))|]. intros [k v].
    cbn [fst snd compose]. intros [Hv [Hk ?]%andb_true_iff]. apply Forall_app.
    split; [apply quote_bytes, forallb_bytes, Hk|]. constructor; [by unfold is_byte|].
    apply Forall_app. split; [destruct ind; by repeat constructor|]. auto.
Qed.

(** What [Unmarshal] sees of a marshalled tree. *)
Lemma unmarshal_print {T} (zero : T) (dec : decoder T) ind v :
  printable v = true → (height v ≤ maxNestingDepth)%nat →
  unmarshal_json zero dec (marshal_json ind v) = dec zero (coerce v).
Proof.
  intros Hp Hh. unfold unmarshal_json, marshal_json.
  rewrite of_bytes_to_bytes by (by apply print_bytes). by rewrite parse_print.
Qed.

Lemma unmarshal_marshal {T} (zero : T) (dec : decoder T) ind v :
  clean v = true → (height v ≤ maxNestingDepth)%nat →
  unmarshal_json zero dec (marshal_json ind v) = dec zero v.
Proof. intros [Hp Hc]%clean_printable Hh. by rewrite unmarshal_print, Hc. Qed.

(** *** The decoders undo the encoders *)

Lemma in_range_spec lo hi z : in_range lo hi z = true → lo ≤ z ≤ hi.
Proof. unfold in_range. intros H. bool_props. lia. Qed.

Lemma in_range_int z : in_range min_int max_int z = true → in_int z ∧ min_int ≤ z ≤ max_int.
Proof. intros H%in_range_spec. unfold in_int, min_int, max_int in *. lia. Qed.

Lemma clean_int z : in_int z → clean (enc_int z) = true.
Proof. intros Hz. cbn. rewrite ParseInt_decimal by done. by apply bool_decide_eq_true. Qed.

Lemma dec_enc_int lo hi x z : in_int z → lo ≤ z ≤ hi → dec_int lo hi x (enc_int z) = inl z.
Proof.
  intros Hz Hr. cbn. rewrite ParseInt_decimal by done. unfold in_range.
  by rewrite !(proj2 (Z.leb_le _ _)) by lia.
Qed.

Definition valid_string (s : string) : Prop := valid_utf8 (codes s) = true.

(** [strings.ToValidUTF8] with U+FFFD: what becomes of a string on the way. *)
Definition ToValidUTF8 (s : string) : string := uncodes (to_valid (codes s)).

Lemma ToValidUTF8_id s : valid_string s → ToValidUTF8 s = s.
Proof. intros Hs. unfold ToValidUTF8. by rewrite to_valid_id, uncodes_codes. Qed.

Lemma codes_byte_test s : forallb (λ c, between 0 c 255) (codes s) = true.
Proof.
  apply Forall_forallb. eapply Forall_impl; [apply codes_bytes|]. unfold is_byte, between.
  intros c Hc. by rewrite !(proj2 (Z.leb_le _ _)) by lia.
Qed.

Lemma ToValidUTF8_valid s : valid_string (ToValidUTF8 s).
Proof.
  unfold valid_string, ToValidUTF8. rewrite codes_uncodes by apply to_valid_bytes, codes_bytes.
  apply to_valid_valid.
Qed.

Lemma valid_string_app s s' : valid_string s → valid_string s' → valid_string (s +:+ s').
Proof. unfold valid_string. rewrite codes_app. apply valid_utf8_app. Qed.

Lemma clean_string s : valid_string s → clean (enc_string s) = true.
Proof. intros Hs. cbn [enc_string clean]. by rewrite codes_byte_test, Hs. Qed.

Lemma dec_enc_string x s : dec_string x (enc_string s) = inl s.
Proof. cbn [enc_string dec_string]. by rewrite uncodes_codes. Qed.

Lemma dec_enc_elems {T} zero (dec : decoder T) enc l :
  Forall (λ x, dec zero (enc x) = inl x) l → dec_elems zero dec [] (enc <$> l) = inl l.
Proof. induction 1 as [|x l Hx Hl IH]; [done|]. cbn. by rewrite Hx, IH. Qed.

Lemma dec_members_app {T} (fields : list (string * decoder T)) x l l' :
  dec_members fields x (l ++ l') =
    match dec_members fields x l with inl x => dec_members fields x l' | inr err => inr err end.
Proof.
  revert x. induction l as [|[k v] l IH]; intros x; [done|]. cbn.
  destruct (field_named fields k) as [dec|]; [|apply IH]. destruct (dec x v); [apply IH|done].
Qed.

(** A map: its entries in any order. *)

Lemma insert_member_perm kv l : insert_member kv l ≡ₚ kv :: l.
Proof.
  induction l as [|x l IH]; [done|]. cbn. branch; [done|]. rewrite IH. apply Permutation_swap.
Qed.

Lemma enc_map_perm `{Countable K} {V} (key : K → text) (enc : V → json) (m : gmap K V) :
  ∃ l, enc_map key enc m = JObj l ∧ l ≡ₚ (λ kv, (key kv.1, enc kv.2)) <$> map_to_list m.
Proof.
  eexists. split; [done|]. induction (_ <$> _) as [|kv l IH]; [done|]. cbn.
  by rewrite insert_member_perm, IH.
Qed.

Lemma dec_entries_spec `{Countable K} {V} (key : K → text) unkey zero (dec : decoder V) enc l m :
  Forall (λ kv, unkey (key kv.1) = Some kv.1 ∧ dec zero (enc kv.2) = inl kv.2) l →
  dec_entries unkey zero dec m ((λ kv, (key kv.1, enc kv.2)) <$> l) =
    inl (foldl (λ m kv, <[kv.1 := kv.2]> m) m l).
Proof.
  intros Hl. revert m. induction Hl as [|[k v] l [Hk Hv] Hl IH]; intros m; [done|].
  cbn in *. by rewrite Hk, Hv, IH.
Qed.

Lemma foldl_insert_list_to_map `{Countable K} {V} (l : list (K * V)) : NoDup l.*1 →
  foldl (λ m kv, <[kv.1 := kv.2]> m) (∅ : gmap K V) l = list_to_map l.
Proof.
  induction l as [|[k v] l IH] using rev_ind; [done|]. rewrite fmap_app. intros Hnd.
  apply NoDup_app in Hnd as (Hnd & Hk & _). rewrite foldl_app. cbn. rewrite IH by done.
  rewrite list_to_map_snoc; [done|]. intros Hin. eapply Hk; [exact Hin|]. by left.
Qed.

(** The members of the encoded map, as a list of entries. *)
Lemma enc_map_entries `{Countable K} {V} (key : K → text) (enc : V → json) (m : gmap K V) :
  ∃ l, enc_map key enc m = JObj ((λ kv, (key kv.1, enc kv.2)) <$> l) ∧ l ≡ₚ map_to_list m.
Proof.
  destruct (enc_map_perm key enc m) as (l & -> & Hl). apply Permutation_map_inv in Hl as (l0 & -> & Hl).
  by exists l0.
Qed.

Lemma dec_enc_map `{Countable K} {V} (key : K → text) unkey zero (dec : decoder V) enc (m : gmap K V) :
  (∀ k v, m !! k = Some v → unkey (key k) = Some k ∧ dec zero (enc v) = inl v) →
  dec_map unkey zero dec ∅ (enc_map key enc m) = inl m.
Proof.
  intros Hm. destruct (enc_map_entries key enc m) as (l & -> & Hl). cbn [dec_map].
  assert (NoDup l.*1) as Hnd by (rewrite Hl; apply NoDup_fst_map_to_list).
  rewrite dec_entries_spec.
  - rewrite foldl_insert_list_to_map by done. f_equal.
    rewrite (list_to_map_proper l (map_to_list m)) by done. apply list_to_map_to_list.
  - rewrite Hl. apply Forall_forall. intros [k v] Hkv%elem_of_map_to_list. by apply Hm.
Qed.

Lemma clean_map `{Countable K} {V} (key : K → text) (enc : V → json) (m : gmap K V) :
  (∀ k v, m !! k = Some v → Forall is_byte (key k) ∧ valid_utf8 (key k) = true ∧ clean (enc v) = true) →
  clean (enc_map key enc m) = true.
Proof.
  intros Hm. destruct (enc_map_entries key enc m) as (l & -> & Hl). cbn [clean].
  apply Forall_forallb, Forall_fmap. rewrite Hl. apply Forall_forall.
  intros [k v] Hkv%elem_of_map_to_list. destruct (Hm k v Hkv) as (Hk & Hu & Hv).
  cbn [fst snd compose]. rewrite Hu, Hv, !andb_true_r. apply Forall_forallb.
  eapply Forall_impl; [exact Hk|]. unfold is_byte, between. intros c ?. by rewrite !(proj2 (Z.leb_le _ _)) by lia.
Qed.

Lemma max_list_le n l : Forall (λ x, (x ≤ n)%nat) l → (max_list l ≤ n)%nat.
Proof.
  intros Hl. destruct l as [|x l]; [cbn; lia|]. rewrite Forall_forall in Hl. apply Hl.
  by apply max_list_elem_of.
Qed.

Lemma height_map `{Countable K} {V} (key : K → text) (enc : V → json) (m : gmap K V) n :
  (∀ k v, m !! k = Some v → (height (enc v) ≤ n)%nat) → (height (enc_map key enc m) ≤ S n)%nat.
Proof.
  intros Hm. destruct (enc_map_entries key enc m) as (l & -> & Hl). cbn [height].
  apply le_n_S. rewrite <- list_fmap_compose. apply max_list_le. apply Forall_fmap. rewrite Hl.
  apply Forall_forall. intros [k v] Hkv%elem_of_map_to_list. by apply (Hm k).
Qed.

(** One field after the other. *)
Lemma dec_members_field {T A} (fields : list (string * decoder T)) name (get : T → A) set dec x v a l :
  field_named fields (codes name) = Some (dec_field get set dec) → dec (get x) v = inl a →
  dec_members fields x (enc_field name v ++ l) = dec_members fields (set a x) l.
Proof. intros Hf Hd. cbn [enc_field app dec_members]. rewrite Hf. unfold dec_field. by rewrite Hd. Qed.

Lemma dec_members_omitempty {T A} (fields : list (string * decoder T)) name empty (get : T → A) set dec x v a l :
  field_named fields (codes name) = Some (dec_field get set dec) → dec (get x) v = inl a →
  (empty = true → set a x = x) →
  dec_members fields x (enc_omitempty name empty v ++ l) = dec_members fields (set a x) l.
Proof.
  intros Hf Hd He. destruct empty; cbn [enc_omitempty]; [by rewrite He|]. by eapply dec_members_field.
Qed.

(** Decodes the next field of a struct; [tac] decodes its value. *)
Ltac decode_field tac :=
  first [ erewrite dec_members_field; [|reflexivity|tac]
        | erewrite dec_members_omitempty;
            [|reflexivity|tac|first [intros ->%Z.eqb_eq|intros ->%bool_decide_eq_true]; reflexivity] ].

Lemma shallow n : (n ≤ 10)%nat → (n ≤ maxNestingDepth)%nat.
Proof. unfold maxNestingDepth. lia. Qed.
