(* ===== verification/Timestamp.v ===== *)
(** * Points in time as text

    [time.Time] of package [time] the way [encoding/json] writes and reads it:
    RFC 3339 with as many digits of the second as are needed.  A point in time is
    the number of nanoseconds since the start of 1970; it is written in UTC, and
    any offset is accepted when it is read. *)

From S2P Require Import Prelude Types Text JsonSyntax.

(** ** The calendar

    Years are counted from the first of March, in cycles of 400 years. *)

Definition year_of_era (doe : Z) : Z := (doe - doe / 1460 + doe / 36524 - doe / 146096) / 365.
Definition start_of_year (yoe : Z) : Z := 365 * yoe + yoe / 4 - yoe / 100.
Definition day_of_year (doe : Z) : Z := doe - start_of_year (year_of_era doe).

(** Year, month and day of the day [days] after 1970-01-01. *)
Definition civil (days : Z) : Z * Z * Z :=
  let z := days + 719468 in
  let doe := z mod 146097 in
  let doy := day_of_year doe in
  let mp := (5 * doy + 2) / 153 in
  let m := if mp <? 10 then mp + 3 else mp - 9 in
  (year_of_era doe + z / 146097 * 400 + (if m <=? 2 then 1 else 0), m, doy - (153 * mp + 2) / 5 + 1).

Definition days_of (y m d : Z) : Z :=
  let y := if m <=? 2 then y - 1 else y in
  let mp := if m <=? 2 then m + 9 else m - 3 in
  y / 400 * 146097 + start_of_year (y mod 400) + (153 * mp + 2) / 5 + d - 1 - 719468.

Definition isLeap (y : Z) : bool :=
  ((y mod 4 =? 0) && (negb (y mod 100 =? 0) || (y mod 400 =? 0)))%bool.

Definition daysIn (m y : Z) : Z :=
  if m =? 2 then (if isLeap y then 29 else 28)
  else if ((m =? 4) || (m =? 6) || (m =? 9) || (m =? 11))%bool then 30 else 31.

Lemma year_of_era_range doe : 0 ≤ doe < 146097 → 0 ≤ year_of_era doe < 400.
Proof. intros. unfold year_of_era. Z.to_euclidean_division_equations. lia. Qed.

Lemma day_of_year_range doe : 0 ≤ doe < 146097 → 0 ≤ day_of_year doe ≤ 365.
Proof. intros. unfold day_of_year, start_of_year, year_of_era. Z.to_euclidean_division_equations. lia. Qed.

(** The 366th day of a year from March is the 29th of February. *)
Lemma leap_day doe : 0 ≤ doe < 146097 → day_of_year doe = 365 → ∀ era,
  isLeap (year_of_era doe + era * 400 + 1) = true.
Proof.
  intros Hd H era. pose proof (year_of_era_range doe Hd) as Hy. unfold isLeap.
  assert ((year_of_era doe + 1) mod 4 = 0 ∧ ((year_of_era doe + 1) mod 100 ≠ 0 ∨ year_of_era doe + 1 = 400)) as Hl.
  { revert H. unfold day_of_year, start_of_year, year_of_era in *. Z.to_euclidean_division_equations. lia. }
  set (y := year_of_era doe) in *. clearbody y.
  apply andb_true_iff. split; [apply Z.eqb_eq|]; [Z.to_euclidean_division_equations; lia|].
  apply orb_true_iff. destruct Hl as [_ [Hl|Hl]].
  - left. apply negb_true_iff, Z.eqb_neq. Z.to_euclidean_division_equations. lia.
  - right. apply Z.eqb_eq. Z.to_euclidean_division_equations. lia.
Qed.

Lemma civil_spec days : let '(y, m, d) := civil days in
  days_of y m d = days ∧ 1 ≤ m ≤ 12 ∧ 1 ≤ d ≤ daysIn m y.
Proof.
  unfold civil. cbv zeta. set (z := days + 719468).
  assert (0 ≤ z mod 146097 < 146097) as Hd by (apply Z.mod_pos_bound; lia).
  assert (z = z / 146097 * 146097 + z mod 146097) as Hz by (pose proof (Z.div_mod z 146097); lia).
  set (doe := z mod 146097) in *. set (era := z / 146097) in *.
  pose proof (day_of_year_range doe Hd) as Hr. pose proof (year_of_era_range doe Hd) as Hy.
  pose proof (leap_day doe Hd) as Hl.
  assert (doe = start_of_year (year_of_era doe) + day_of_year doe) as He by (unfold day_of_year; lia).
  set (doy := day_of_year doe) in *. set (yoe := year_of_era doe) in *.
  set (mp := (5 * doy + 2) / 153). assert (0 ≤ mp ≤ 11) as Hm by (subst mp; Z.to_euclidean_division_equations; lia).
  set (m := if mp <? 10 then mp + 3 else mp - 9).
  assert ((m <=? 2) = negb (mp <? 10)) as Hm2.
  { subst m. destruct (Z.ltb_spec mp 10); cbn; [apply Z.leb_gt|apply Z.leb_le]; lia. }
  split_and!.
  - unfold days_of. cbv zeta. rewrite Hm2.
    assert ((if negb (mp <? 10) then m + 9 else m - 3) = mp) as ->
      by (subst m; destruct (mp <? 10); cbn; lia).
    replace (if negb (mp <? 10) then _ else _) with (yoe + era * 400) by (destruct (mp <? 10); cbn; lia).
    rewrite Z.div_add, Z.mod_add, Z.div_small, Z.mod_small by lia. lia.
  - subst m. branch; lia.
  - subst m. branch; lia.
  - subst mp. Z.to_euclidean_division_equations. lia.
  - assert (153 * mp ≤ 5 * doy + 2 < 153 * (mp + 1)) as Hb by (subst mp; Z.to_euclidean_division_equations; lia).
    rewrite Hm2. clearbody mp. subst m.
    assert (mp = 0 ∨ mp = 1 ∨ mp = 2 ∨ mp = 3 ∨ mp = 4 ∨ mp = 5 ∨ mp = 6 ∨ mp = 7 ∨ mp = 8 ∨ mp = 9 ∨
      mp = 10 ∨ mp = 11) as Hc by lia.
    destruct_or! Hc; subst mp;
      (match goal with |- context [(153 * ?k + 2) / 5] =>
         let v := eval vm_compute in ((153 * k + 2) / 5) in change ((153 * k + 2) / 5) with v end);
      (match goal with |- context [daysIn ?m _] => let v := eval vm_compute in m in change m with v end);
      unfold daysIn; cbn [Z.eqb Pos.eqb orb negb Z.ltb Z.compare]; try lia.
    destruct (isLeap _) eqn:El; [lia|]. enough (doy ≠ 365) by lia.
    intros E. pose proof (Hl E era) as Ht. change (11 <? 10) with false in El. cbn in El, Ht. congruence.
Qed.

(** ** Writing *)

(** The last [n] digits of a number. *)
Fixpoint fixed (n : nat) (z : Z) : text :=
  match n with O => [] | S n => fixed n (z / 10) ++ [48 + z mod 10] end.

(** Without the zeros at the end. *)
Fixpoint trim (t : text) : text :=
  match t with
  | [] => []
  | c :: t =>
      match trim t with [] => if c =? 48 then [] else [c] | t' => c :: t' end
  end.

Definition fraction (ns : Z) : text :=
  match trim (fixed 9 ns) with [] => [] | t => 46 :: t end.

Definition year_in_range (y : Z) : bool := ((0 <=? y) && (y <=? 9999))%bool.

(** [Time.MarshalJSON], without the quotes. *)
Definition format_time (t : Z) : text + error :=
  let secs := t / 10 ^ 9 in
  let '(y, m, d) := civil (secs / 86400) in
  let sod := secs mod 86400 in
  if year_in_range y then
    inl (fixed 4 y ++ 45 :: fixed 2 m ++ 45 :: fixed 2 d ++ 84 ::
         fixed 2 (sod / 3600) ++ 58 :: fixed 2 (sod / 60 mod 60) ++ 58 :: fixed 2 (sod mod 60) ++
         fraction (t mod 10 ^ 9) ++ [90])
  else inr (Errorf "year outside of range [0,9999]").

(** ** Reading *)

Definition num (n : nat) (s : text) : option (Z * text) :=
  let ds := take n s in
  if ((length ds =? n)%nat && forallb is_digit ds)%bool then Some (value ds, drop n s) else None.

Definition char (c : Z) (s : text) : option text :=
  match s with x :: s => if x =? c then Some s else None | [] => None end.

(** Digits after the ninth are dropped. *)
Definition nanoseconds (s : text) : option (Z * text) :=
  match char 46 s with
  | None => Some (0, s)
  | Some s =>
      let '(ds, rest) := span is_digit s in
      if decide (ds = []) then None else Some (value (take 9 (ds ++ replicate 9 48)), rest)
  end.

(** The offset from UTC in seconds, at the end of the text. *)
Definition zone (s : text) : option Z :=
  match s with
  | [c] => if c =? 90 then Some 0 else None
  | c :: s =>
      sign ← (if c =? 43 then Some 1 else if c =? 45 then Some (-1) else None);
      '(h, s) ← num 2 s; s ← char 58 s; '(m, s) ← num 2 s;
      if (bool_decide (s = []) && (h <=? 23) && (m <=? 59))%bool then Some (sign * (h * 3600 + m * 60)) else None
  | [] => None
  end.

(** [Time.UnmarshalJSON] of the text between the quotes. *)
Definition parse_time (s : text) : option Z :=
  '(y, s) ← num 4 s; s ← char 45 s; '(m, s) ← num 2 s; s ← char 45 s; '(d, s) ← num 2 s;
  s ← char 84 s;
  '(hh, s) ← num 2 s; s ← char 58 s; '(mm, s) ← num 2 s; s ← char 58 s; '(ss, s) ← num 2 s;
  '(ns, s) ← nanoseconds s; off ← zone s;
  if ((1 <=? m) && (m <=? 12) && (1 <=? d) && (d <=? daysIn m y) &&
      (hh <=? 23) && (mm <=? 59) && (ss <=? 59))%bool
  then Some ((days_of y m d * 86400 + hh * 3600 + mm * 60 + ss - off) * 10 ^ 9 + ns)
  else None.

(** ** What was written is read back *)

Lemma fixed_spec n z : 0 ≤ z < 10 ^ Z.of_nat n →
  length (fixed n z) = n ∧ Forall (λ c, is_digit c = true) (fixed n z) ∧ value (fixed n z) = z.
Proof.
  revert z. induction n as [|n IH]; intros z Hz; [cbn in *; split_and!; [done|constructor|lia]|].
  assert (0 ≤ z / 10 < 10 ^ Z.of_nat n) as Hq.
  { rewrite Nat2Z.inj_succ, Z.pow_succ_r in Hz by lia.
    split; [apply Z.div_pos|apply Z.div_lt_upper_bound]; lia. }
  assert (0 ≤ z mod 10 < 10) as Hm by (apply Z.mod_pos_bound; lia).
  destruct (IH _ Hq) as (Hl & Hd & Hv). cbn [fixed]. split_and!.
  - rewrite length_app, Hl. cbn. lia.
  - apply Forall_app. split; [done|]. repeat constructor. unfold is_digit, between.
    by rewrite !(proj2 (Z.leb_le _ _)) by lia.
  - unfold value in *. rewrite foldl_app. cbn [foldl]. rewrite Hv. pose proof (Z.div_mod z 10). lia.
Qed.

Lemma num_fixed n z rest : 0 ≤ z < 10 ^ Z.of_nat n → num n (fixed n z ++ rest) = Some (z, rest).
Proof.
  intros Hz. destruct (fixed_spec n z Hz) as (Hl & Hd & Hv). unfold num.
  rewrite take_app_length' by done. rewrite Hl, Nat.eqb_refl, Forall_forallb by done. cbn [andb].
  by rewrite Hv, drop_app_length'.
Qed.

Lemma trim_spec t : ∃ k, t = trim t ++ replicate k 48.
Proof.
  induction t as [|c t [k IH]]; [by exists O|]. cbn [trim]. destruct (trim t) as [|x t'] eqn:E.
  - destruct (Z.eqb_spec c 48) as [->|]; [exists (S k)|exists k]; cbn; by f_equal.
  - exists k. cbn in *. by f_equal.
Qed.

Lemma nanoseconds_fraction ns : 0 ≤ ns < 10 ^ 9 → nanoseconds (fraction ns ++ [90]) = Some (ns, [90]).
Proof.
  intros Hns. destruct (fixed_spec 9 ns Hns) as (Hl & Hd & Hv). unfold fraction.
  destruct (trim_spec (fixed 9 ns)) as [k E]. set (t := trim (fixed 9 ns)) in *. rewrite E in Hl, Hd, Hv.
  clearbody t. destruct t as [|c t].
  - cbn in Hl. rewrite length_replicate in Hl. subst k. by rewrite <- Hv.
  - apply Forall_app in Hd as [Hd _]. unfold nanoseconds. cbn [app char Z.eqb Pos.eqb].
    change (c :: t ++ [90]) with ((c :: t) ++ [90]).
    rewrite span_stops by done. rewrite decide_False by done. do 2 f_equal. rewrite <- Hv. f_equal.
    rewrite length_app, length_replicate in Hl.
    replace 9%nat with (k + (9 - k))%nat at 2 by lia. rewrite replicate_add, app_assoc.
    apply take_app_length'. rewrite length_app, length_replicate. done.
Qed.

Theorem parse_format_time t s : format_time t = inl s → parse_time s = Some t.
Proof.
  unfold format_time. pose proof (civil_spec (t / 10 ^ 9 / 86400)) as Hc.
  destruct (civil _) as [[y m] d]. destruct Hc as (Hdays & Hm & Hd).
  destruct (year_in_range y) eqn:Hy; [|done]. unfold year_in_range in Hy. bool_props. intros Ht%(inj inl). subst s.
  assert (daysIn m y ≤ 31) by (unfold daysIn; repeat (branch; try lia)).
  assert (0 ≤ t mod 10 ^ 9 < 10 ^ 9) as Hns by (apply Z.mod_pos_bound; lia).
  set (secs := t / 10 ^ 9) in *. assert (0 ≤ secs mod 86400 < 86400) as Hs by (apply Z.mod_pos_bound; lia).
  pose proof (Z.div_mod secs 86400 ltac:(lia)) as Es. pose proof (Z.div_mod t (10 ^ 9) ltac:(lia)) as Et.
  set (sod := secs mod 86400) in *.
  assert (0 ≤ sod / 3600 < 24 ∧ 0 ≤ sod / 60 mod 60 < 60 ∧ 0 ≤ sod mod 60 < 60 ∧
    sod = sod / 3600 * 3600 + sod / 60 mod 60 * 60 + sod mod 60) as (Hh & Hmi & Hse & Esod)
    by (Z.to_euclidean_division_equations; lia).
  unfold parse_time.
  repeat (first [rewrite num_fixed by (cbn; lia)|rewrite nanoseconds_fraction by done];
    cbn [mbind option_bind app char Z.eqb Pos.eqb]).
  cbn [zone Z.eqb Pos.eqb mbind option_bind]. rewrite !(proj2 (Z.leb_le _ _)) by lia. cbn [andb].
  f_equal. rewrite Hdays. fold secs in Et. lia.
Qed.

Lemma fixed_digits n z : Forall (λ c, 0 ≤ c < 128) (fixed n z).
Proof.
  revert z. induction n as [|n IH]; intros z; [constructor|]. cbn [fixed]. apply Forall_app. split; [done|].
  repeat constructor; pose proof (Z.mod_pos_bound z 10); lia.
Qed.

Lemma format_time_ascii t s : format_time t = inl s → Forall (λ c, 0 ≤ c < 128) s.
Proof.
  unfold format_time. destruct (civil _) as [[y m] d]. destruct (year_in_range y); [|done].
  intros Ht%(inj inl). subst s.
  assert (Forall (λ c, 0 ≤ c < 128) (fraction (t mod 10 ^ 9))) as Hf.
  { unfold fraction. destruct (trim_spec (fixed 9 (t mod 10 ^ 9))) as [k E].
    pose proof (fixed_digits 9 (t mod 10 ^ 9)) as Hd. rewrite E in Hd.
    apply Forall_app in Hd as [Hd _]. destruct (trim _); [constructor|]. by constructor. }
  repeat first [apply fixed_digits|exact Hf|apply Forall_nil_2|apply Forall_app; split|apply Forall_cons_2; [lia|]].
Qed.
