(* ===== verification/Durations.v ===== *)
(** * Durations as text

    [time.ParseDuration], which reads the durations of the cluster definition
    ([Duration.UnmarshalYAML] of [config/config.go]) and of the command line.
    A duration is a number of nanoseconds.  Fractions are computed in double
    precision, as the library does; the sum is that of [uint64]. *)

From Stdlib Require Import Floats.SpecFloat.
From S2P Require Import Prelude Types Text JsonSyntax.
#[local] Open Scope string_scope.
#[local] Open Scope Z_scope.

(** ** float64 *)

Definition float64 (z : Z) : spec_float := binary_normalize 53 1024 z 0 false.
Definition fmul : spec_float → spec_float → spec_float := SFmul 53 1024.
Definition fdiv : spec_float → spec_float → spec_float := SFdiv 53 1024.

(** [uint64(x)] of a number in range. *)
Definition truncate (x : spec_float) : Z :=
  match x with
  | S754_finite false m e => if 0 <=? e then Z.pos m * 2 ^ e else Z.pos m / 2 ^ (- e)
  | _ => 0
  end.

(** ** ParseDuration *)

Definition unitMap : list (string * Z) :=
  [("ns", 1); ("us", 10 ^ 3); ("ms", 10 ^ 6); ("s", 10 ^ 9); ("m", 60 * 10 ^ 9); ("h", 3600 * 10 ^ 9)].

(** The two characters for micro, U+00B5 and U+03BC. *)
Definition micro : list text := [[194; 181; 115]; [206; 188; 115]].

Definition unit_of (u : text) : option Z :=
  if decide (u ∈ micro) then Some (10 ^ 3)
  else snd <$> find (λ x, bool_decide (codes x.1 = u)) unitMap.

(** [leadingInt]; [None] is an overflow. *)
Fixpoint leadingInt (x : Z) (s : text) : option (Z * text) :=
  match s with
  | c :: s' =>
      if is_digit c then
        if 2 ^ 63 / 10 <? x then None
        else
          let x := x * 10 + (c - 48) in
          if 2 ^ 63 <? x then None else leadingInt x s'
      else Some (x, s)
  | [] => Some (x, [])
  end.

(** [leadingFraction]; digits after an overflow are skipped. *)
Fixpoint leadingFraction (overflow : bool) (x : Z) (scale : spec_float) (s : text) : Z * spec_float * text :=
  match s with
  | c :: s' =>
      if is_digit c then
        if (overflow || ((2 ^ 63 - 1) / 10 <? x) || (2 ^ 63 <? x * 10 + (c - 48)))%bool
        then leadingFraction true x scale s'
        else leadingFraction false (x * 10 + (c - 48)) (fmul scale (float64 10)) s'
      else (x, scale, s)
  | [] => (x, scale, [])
  end.

Definition in_number (c : Z) : bool := ((c =? 46) || is_digit c)%bool.

(** One number with its unit: the nanoseconds, and the rest. *)
Definition component (s : text) : option (Z * text) :=
  match s with
  | [] => None
  | c :: _ =>
    if negb (in_number c) then None
    else
      '(v, s1) ← leadingInt 0 s;
      let pre := negb (length s1 =? length s)%nat in
      let '(f, scale, s2, post) :=
        match s1 with
        | d :: s1' =>
            if d =? 46 then
              let '(f, scale, s2) := leadingFraction false 0 (float64 1) s1' in
              (f, scale, s2, negb (length s2 =? length s1')%nat)
            else (0, float64 1, s1, false)
        | [] => (0, float64 1, [], false)
        end in
      if (negb pre && negb post)%bool then None
      else
        let '(u, s3) := span (λ c, negb (in_number c)) s2 in
        if decide (u = []) then None
        else
          unit ← unit_of u;
          if 2 ^ 63 / unit <? v then None
          else
            let v := v * unit in
            let v := if 0 <? f then v + truncate (fmul (float64 f) (fdiv (float64 unit) scale)) else v in
            if 2 ^ 63 <? v then None else Some (v, s3)
  end.

(** The loop; every turn consumes a character. *)
Fixpoint components (fuel : nat) (d : Z) (s : text) : option Z :=
  match fuel, s with
  | _, [] => Some d
  | O, _ => None
  | S fuel, _ =>
      '(v, s) ← component s;
      let d := (d + v) mod 2 ^ 64 in
      if 2 ^ 63 <? d then None else components fuel d s
  end.

Definition ParseDuration (s : text) : option Z :=
  let '(neg, s) :=
    match s with
    | c :: s' => if c =? 45 then (true, s') else if c =? 43 then (false, s') else (false, s)
    | [] => (false, [])
    end in
  if decide (s = codes "0") then Some 0
  else if decide (s = []) then None
  else
    d ← components (length s) 0 s;
    if neg : bool then Some (i64 (- d))
    else if 2 ^ 63 - 1 <? d then None else Some d.

(** [Duration.UnmarshalYAML]: [decode] is [value.Decode(&s)] of the YAML
    package. *)
Definition Duration_UnmarshalYAML {node} (decode : node → string + error) (value : node) : Z + error :=
  match decode value with
  | inr err => inr err
  | inl s =>
    match ParseDuration (codes s) with
    | None => inr (Wrapf "invalid duration" (Errorf "time: invalid duration"))
    | Some d => inl d
    end
  end.

(** ** Lemmas *)

Lemma leadingInt_digits ds rest x : Forall (λ c, is_digit c = true) ds →
  match rest with c :: _ => is_digit c = false | [] => True end →
  0 ≤ x → foldl (λ v c, v * 10 + (c - 48)) x ds ≤ 2 ^ 63 →
  leadingInt x (ds ++ rest)%list = Some (foldl (λ v c, v * 10 + (c - 48)) x ds, rest).
Proof.
  intros Hd Hr. revert x. induction Hd as [|c ds Hc Hd IH]; intros x Hx Hle.
  - destruct rest as [|c rest]; [done|]. cbn. by rewrite Hr.
  - cbn [app leadingInt foldl] in *. rewrite Hc. unfold is_digit, between in Hc. bool_props.
    assert (∀ y, 0 ≤ y → y ≤ foldl (λ v c, v * 10 + (c - 48)) y ds) as Hmono.
    { clear -Hd. induction Hd as [|c ds Hc Hd IH]; intros y Hy; cbn; [lia|].
      unfold is_digit, between in Hc. bool_props. etrans; [|apply IH]; lia. }
    pose proof (Hmono (x * 10 + (c - 48)) ltac:(lia)).
    rewrite (proj2 (Z.ltb_ge _ _)) by (Z.to_euclidean_division_equations; lia).
    rewrite (proj2 (Z.ltb_ge _ _)) by lia. apply IH; lia.
Qed.

Lemma unit_name nm unit : (nm, unit) ∈ unitMap →
  unit_of (codes nm) = Some unit ∧ 1 ≤ unit ∧ codes nm ≠ [] ∧
  Forall (λ c, negb (in_number c) = true) (codes nm).
Proof.
  unfold unitMap. rewrite !elem_of_cons, elem_of_nil. intros Hin.
  destruct_or! Hin; try done; injection Hin as -> ->; split_and!; try done;
    repeat (apply Forall_cons_2; [reflexivity|]); apply Forall_nil_2.
Qed.

(** A whole number of units. *)
Lemma component_spec n nm unit rest : (nm, unit) ∈ unitMap → 0 ≤ n → n * unit < 2 ^ 63 →
  match rest with c :: _ => in_number c = true | [] => True end →
  component (decimal n ++ codes nm ++ rest)%list = Some (n * unit, rest).
Proof.
  intros (Hu & Hu1 & Hne & Hnm)%unit_name Hn Hlt Hrest.
  assert (in_int n) as Hi by (unfold in_int; nia).
  destruct (decimal_spec n Hi) as (c & ds & Hd & _ & Hv & ->).
  rewrite (proj2 (Z.ltb_ge n 0)) by lia. rewrite Z.abs_eq in Hv by lia.
  assert (∃ x t, codes nm = x :: t ∧ in_number x = false) as (x & t & Et & Hx).
  { destruct (codes nm) as [|x t] eqn:E; [done|]. apply Forall_inv in Hnm. bool_props. eauto. }
  assert (is_digit x = false ∧ (x =? 46) = false) as [Hxd Hx46]
    by (unfold in_number in Hx; by apply orb_false_iff in Hx as [? ?]).
  pose proof (leadingInt_digits (c :: ds) (codes nm ++ rest) 0 Hd) as Hl.
  rewrite Et in Hl at 1. specialize (Hl Hxd ltac:(lia)). fold (value (c :: ds)) in Hl.
  rewrite Hv in Hl. specialize (Hl ltac:(nia)).
  unfold component. cbn [app]. change (c :: ds ++ codes nm ++ rest)%list with ((c :: ds) ++ codes nm ++ rest)%list.
  assert (in_number c = true) as -> by (unfold in_number; by rewrite (Forall_inv Hd), orb_true_r).
  cbn [negb]. rewrite Hl. cbn [mbind option_bind].
  rewrite (proj2 (Nat.eqb_neq _ _)) by (rewrite (length_app (c :: ds)); cbn; lia).
  rewrite Et. cbn [app negb andb]. rewrite Hx46.
  change (x :: t ++ rest)%list with ((x :: t) ++ rest)%list. rewrite <- Et.
  rewrite span_prefix; [|done|destruct rest; [done|by rewrite Hrest]].
  rewrite decide_False, Hu by done. cbn [mbind option_bind].
  rewrite (proj2 (Z.ltb_ge (2 ^ 63 / unit) n)) by (apply Z.div_le_lower_bound; lia).
  change (0 <? 0) with false. cbv iota. rewrite (proj2 (Z.ltb_ge (2 ^ 63) _)) by lia. done.
Qed.

(** The text of a list of numbers with units, and what it stands for. *)
Definition spell (l : list (Z * (string * Z))) : text :=
  List.concat ((λ x, decimal x.1 ++ codes x.2.1)%list <$> l).

Definition total (l : list (Z * (string * Z))) : Z := foldr (λ x t, x.1 * x.2.2 + t) 0 l.

Lemma total_nonneg l : Forall (λ x, x.2 ∈ unitMap ∧ 0 ≤ x.1) l → 0 ≤ total l.
Proof.
  induction 1 as [|[n [nm unit]] l [Hu Hn] Hl IH]; [done|].
  apply unit_name in Hu as (_ & ? & _). cbn [total foldr fst snd] in *. fold (total l). nia.
Qed.

Lemma decimal_starts n : in_int n → 0 ≤ n → ∃ c ds, decimal n = c :: ds ∧ is_digit c = true.
Proof.
  intros Hi Hn. destruct (decimal_spec n Hi) as (c & ds & Hd & _ & _ & ->).
  rewrite (proj2 (Z.ltb_ge n 0)) by lia. exists c, ds. split; [done|]. exact (Forall_inv Hd).
Qed.

Lemma components_spell l d fuel : Forall (λ x, x.2 ∈ unitMap ∧ 0 ≤ x.1) l →
  0 ≤ d → d + total l < 2 ^ 63 → (length (spell l) ≤ fuel)%nat →
  components fuel d (spell l) = Some (d + total l).
Proof.
  intros Hl. revert d fuel. induction Hl as [|[n [nm unit]] l [Hu Hn] Hl IH]; intros d fuel Hd Hlt Hf.
  - destruct fuel; cbn; f_equal; lia.
  - pose proof (total_nonneg l Hl) as Ht. cbn [total foldr fst snd] in *. fold (total l) in *.
    destruct (unit_name nm unit Hu) as (_ & H1 & Hnm & _).
    assert (in_int n) as Hi by (unfold in_int; nia).
    destruct (decimal_starts n Hi Hn) as (c & ds & E & Hc).
    assert (spell ((n, (nm, unit)) :: l) = decimal n ++ codes nm ++ spell l)%list as Es
      by (unfold spell; rewrite fmap_cons; cbn [List.concat fst snd]; by rewrite <- app_assoc).
    rewrite Es in *. rewrite !length_app, E in Hf. cbn [length] in Hf.
    destruct fuel as [|fuel]; [lia|].
    assert (components (S fuel) d (decimal n ++ codes nm ++ spell l) =
      ('(v, s) ← component (decimal n ++ codes nm ++ spell l);
       let d := (d + v) mod 2 ^ 64 in if 2 ^ 63 <? d then None else components fuel d s))%list as ->
      by (by rewrite E).
    rewrite (component_spec n nm unit); [|done|done|nia|].
    2: { destruct Hl as [|[n' [nm' unit']] l [Hu' Hn'] Hl]; [done|].
      cbn in Hn'. cbn [total foldr fst snd] in Hlt. pose proof (total_nonneg l Hl) as Ht'. unfold total in Ht'.
      destruct (unit_name nm' unit' Hu') as (_ & ? & _).
      destruct (decimal_starts n') as (c' & ds' & E' & Hc'); [unfold in_int; nia|done|].
      unfold spell. rewrite fmap_cons. cbn [List.concat fst snd]. rewrite E'. cbn.
      unfold in_number. by rewrite Hc', orb_true_r. }
    cbn [mbind option_bind]. rewrite Z.mod_small by nia. cbv zeta.
    rewrite (proj2 (Z.ltb_ge _ _)) by nia. rewrite IH by (nia || lia). f_equal. lia.
Qed.

(** Whole numbers of units, in any order, add up: [1m30s] is 90 seconds. *)
Theorem ParseDuration_spell l : l ≠ [] → Forall (λ x, x.2 ∈ unitMap ∧ 0 ≤ x.1) l →
  total l < 2 ^ 63 → ParseDuration (spell l) = Some (total l).
Proof.
  intros Hne Hl Hlt. pose proof (components_spell l 0 (length (spell l)) Hl ltac:(lia) Hlt ltac:(lia)) as Hc.
  destruct Hl as [|[n [nm unit]] l [Hu Hn] Hl]; [done|]. set (l' := (n, (nm, unit)) :: l) in *.
  assert (∃ c x s, spell l' = c :: x :: s ∧ is_digit c = true) as (c & x & s & E & Hd).
  { destruct (unit_name nm unit Hu) as (_ & H1 & Hnm & _). cbn in Hn.
    assert (in_int n) as Hi.
    { subst l'. cbn [total foldr fst snd] in Hlt. pose proof (total_nonneg l Hl) as Ht. unfold total in Ht.
      unfold in_int. nia. }
    destruct (decimal_starts n Hi Hn) as (c & ds & E & Hd). subst l'. unfold spell. rewrite fmap_cons.
    cbn [List.concat fst snd]. rewrite E. cbn [app]. destruct (codes nm) as [|x t]; [done|].
    destruct ds as [|y ds]; cbn; eauto. }
  unfold ParseDuration. rewrite E in *. unfold is_digit, between in Hd. bool_props.
  rewrite (proj2 (Z.eqb_neq c 45)), (proj2 (Z.eqb_neq c 43)) by lia.
  rewrite !decide_False by done. rewrite Hc. cbn [mbind option_bind].
  rewrite (proj2 (Z.ltb_ge _ _)) by lia. done.
Qed.
