(* ===== verification/Flags.v ===== *)
(** * Command lines

    What the programs use of package [flag]: sets of string, integer and duration
    flags that end the process on an error ([flag.ExitOnError]), with [ParseInt] of
    package [strconv] in the base the literal announces. *)

From S2P Require Import Prelude Types Text JsonSyntax Durations.
#[local] Open Scope string_scope.
#[local] Open Scope Z_scope.

(** ** strconv.ParseInt(s, 0, 64) *)

(** [lower] of package [strconv]. *)
Definition lower (c : Z) : Z := Z.lor c 32.

Definition digit_value (c : Z) : option Z :=
  if is_digit c then Some (c - 48)
  else if between 97 (lower c) 122 then Some (lower c - 87)
  else None.

(** The value of the digits, and whether there was an underscore. *)
Fixpoint scan_digits (base n : Z) (underscores : bool) (s : text) : option (Z * bool) :=
  match s with
  | [] => Some (n, underscores)
  | c :: s =>
      if c =? 95 then scan_digits base n true s
      else
        d ← digit_value c;
        if base <=? d then None else scan_digits base (n * base + d) underscores s
  end.

(** What [underscoreOK] has seen last. *)
Inductive saw : Type := SawStart | SawDigit | SawUnderscore | SawOther.

Fixpoint underscores_separate (hex : bool) (last : saw) (s : text) : bool :=
  match s with
  | [] => match last with SawUnderscore => false | _ => true end
  | c :: s =>
      if (is_digit c || hex && between 97 (lower c) 102)%bool then underscores_separate hex SawDigit s
      else if c =? 95 then
        match last with SawDigit => underscores_separate hex SawUnderscore s | _ => false end
      else
        match last with SawUnderscore => false | _ => underscores_separate hex SawOther s end
  end.

(** The base a literal announces, and the digits after the prefix. *)
Definition base_prefix (s : text) : option (Z * text) :=
  match s with
  | z :: c :: s =>
      if z =? 48 then
        if lower c =? 98 then Some (2, s)
        else if lower c =? 111 then Some (8, s)
        else if lower c =? 120 then Some (16, s)
        else None
      else None
  | _ => None
  end.

Definition underscoreOK (s : text) : bool :=
  match base_prefix s with
  | Some (b, s) => underscores_separate (b =? 16) SawDigit s
  | None => underscores_separate false SawStart s
  end.

Definition ParseUint0 (s : text) : option Z :=
  match s with
  | [] => None
  | z :: s' =>
      let '(base, ds) :=
        match base_prefix s with
        | Some (b, d :: ds) => (b, d :: ds)
        | _ => if z =? 48 then (8, s') else (10, s)
        end in
      '(n, underscores) ← scan_digits base 0 false ds;
      if (underscores && negb (underscoreOK s))%bool then None else Some n
  end.

Definition ParseInt0 (s : text) : option Z :=
  let '(neg, ds) :=
    match s with
    | c :: ds => if c =? 45 then (true, ds) else if c =? 43 then (false, ds) else (false, s)
    | [] => (false, [])
    end in
  n ← ParseUint0 ds;
  let v := if neg : bool then - n else n in
  if ((min_int <=? v) && (v <=? max_int))%bool then Some v else None.

(** ** Flags *)

Inductive flag_value : Type := VString (s : string) | VInt (z : Z) | VDuration (d : Z).

(** The flags of a set with their values, which are at first the defaults. *)
Definition FlagSet : Type := list (string * flag_value).

(** [Value.Set]; [None] is an error. *)
Definition set_value (v : flag_value) (s : text) : option flag_value :=
  match v with
  | VString _ => Some (VString (uncodes s))
  | VInt _ => VInt <$> ParseInt0 s
  | VDuration _ => VDuration <$> ParseDuration s
  end.

(** [None]: no such flag. *)
Fixpoint set_flag (name value : text) (fs : FlagSet) : option (option FlagSet) :=
  match fs with
  | [] => None
  | (n, v) :: fs =>
      if decide (codes n = name) then Some (v' ← set_value v value; Some ((n, v') :: fs))
      else
        match set_flag name value fs with
        | None => None
        | Some r => Some (fs' ← r; Some ((n, v) :: fs'))
        end
  end.

Definition defined (name : text) (fs : FlagSet) : bool := existsb (λ f, bool_decide (codes f.1 = name)) fs.

(** An argument: not a flag, the end of the flags, bad syntax, or a flag with
    the value after an equals sign. *)
Inductive argument : Type :=
  | Positional
  | Terminator
  | BadSyntax
  | Named (name : text) (value : option text).

Definition named (name : text) : argument :=
  match name with
  | [] => BadSyntax
  | c :: _ =>
      if ((c =? 45) || (c =? 61))%bool then BadSyntax
      else
        let '(n, rest) := span (λ c, negb (c =? 61)) name in
        match rest with
        | [] => Named n None
        | _ :: value => Named n (Some value)
        end
  end.

Definition classify (s : text) : argument :=
  match s with
  | c :: d :: s' =>
      if negb (c =? 45) then Positional
      else if d =? 45 then (match s' with [] => Terminator | _ => named s' end)
      else named (d :: s')
  | _ => Positional
  end.

(** [Parse]: the flags and the arguments left; [Usage] is the exit with code 0
    after [-help], [Invalid] the exit with code 2. *)
Inductive parsed : Type :=
  | Parsed (fs : FlagSet) (rest : list string)
  | Usage
  | Invalid.

(** The exit of the process that an error leads to. *)
Definition help (name : text) : parsed :=
  if decide (name = codes "help" ∨ name = codes "h") then Usage else Invalid.

Fixpoint Parse (args : list string) (fs : FlagSet) : parsed :=
  match args with
  | [] => Parsed fs []
  | a :: args' =>
    match classify (codes a) with
    | Positional => Parsed fs args
    | Terminator => Parsed fs args'
    | BadSyntax => Invalid
    | Named name (Some value) =>
      match set_flag name value fs with
      | None => help name
      | Some None => Invalid
      | Some (Some fs) => Parse args' fs
      end
    | Named name None =>
      if negb (defined name fs) then help name
      else
        match args' with
        | [] => Invalid
        | value :: args'' =>
          match set_flag name (codes value) fs with
          | Some (Some fs) => Parse args'' fs
          | _ => Invalid
          end
        end
    end
  end.

Definition flag_string (name : string) (fs : FlagSet) : string :=
  match find (λ f, bool_decide (f.1 = name)) fs with Some (_, VString s) => s | _ => "" end.

Definition flag_int (name : string) (fs : FlagSet) : Z :=
  match find (λ f, bool_decide (f.1 = name)) fs with Some (_, VInt z) => z | _ => 0 end.

Definition flag_duration (name : string) (fs : FlagSet) : Z :=
  match find (λ f, bool_decide (f.1 = name)) fs with Some (_, VDuration d) => d | _ => 0 end.

(** ** Lemmas *)

(** Decimal digits in base ten. *)
Lemma scan_digits_decimal n ds : Forall (λ c, is_digit c = true) ds →
  scan_digits 10 n false ds = Some (foldl (λ v c, v * 10 + (c - 48)) n ds, false).
Proof.
  intros Hd. revert n. induction Hd as [|c ds Hc Hd IH]; intros n; [done|]. cbn [scan_digits foldl].
  unfold digit_value. rewrite Hc. unfold is_digit, between in Hc. bool_props.
  rewrite (proj2 (Z.eqb_neq c 95)) by lia. cbn [mbind option_bind].
  rewrite (proj2 (Z.leb_gt 10 (c - 48))) by lia. apply IH.
Qed.

Lemma ParseUint0_digits c ds : Forall (λ c, is_digit c = true) (c :: ds) → (c = 48 → ds = []) →
  ParseUint0 (c :: ds) = Some (value (c :: ds)).
Proof.
  intros Hd H0. unfold ParseUint0. destruct (Z.eqb_spec c 48) as [->|Hc].
  - by rewrite H0.
  - assert (base_prefix (c :: ds) = None) as ->.
    { destruct ds; [done|]. cbn. by rewrite (proj2 (Z.eqb_neq c 48)). }
    rewrite scan_digits_decimal by done. done.
Qed.

Lemma ParseInt0_decimal z : in_int z → ParseInt0 (decimal z) = Some z.
Proof.
  intros Hz. destruct (decimal_spec z Hz) as (c & ds & Hd & H0 & Hv & ->).
  pose proof (Forall_inv Hd) as Hc. unfold is_digit, between in Hc. bool_props.
  unfold ParseInt0. destruct (Z.ltb_spec z 0) as [Hneg|Hpos].
  - rewrite Z.eqb_refl, ParseUint0_digits, Hv by done. cbn [mbind option_bind].
    replace (- Z.abs z) with z by lia. unfold in_int, min_int, max_int in *.
    by rewrite !(proj2 (Z.leb_le _ _)) by lia.
  - rewrite (proj2 (Z.eqb_neq c 45)), (proj2 (Z.eqb_neq c 43)) by lia.
    rewrite ParseUint0_digits, Hv by done. cbn [mbind option_bind].
    replace (Z.abs z) with z by lia. unfold in_int, min_int, max_int in *.
    by rewrite !(proj2 (Z.leb_le _ _)) by lia.
Qed.

(** An argument [-name=value]. *)
Lemma classify_named c (name : text) value : c ≠ 45 →
  Forall (λ x, negb (x =? 61) = true) (c :: name) →
  classify (45 :: (c :: name) ++ 61 :: value)%list = Named (c :: name) (Some value).
Proof.
  intros Hc Hn. pose proof (Forall_inv Hn) as He. cbn in He. bool_props.
  cbn [classify app]. cbn [Z.eqb Pos.eqb negb]. rewrite (proj2 (Z.eqb_neq c 45)) by done.
  unfold named. rewrite (proj2 (Z.eqb_neq c 45)), (proj2 (Z.eqb_neq c 61)) by done. cbn [orb].
  change (c :: name ++ 61 :: value)%list with ((c :: name) ++ 61 :: value)%list. by rewrite span_prefix.
Qed.

(** A name that can follow the minus sign. *)
Definition plain_name (name : string) : bool :=
  match codes name with
  | [] => false
  | c :: _ => (negb (c =? 45) && forallb (λ x, negb (x =? 61)) (codes name))%bool
  end.

Lemma plain_name_spec name : plain_name name = true →
  ∃ c t, codes name = c :: t ∧ c ≠ 45 ∧ Forall (λ x, negb (x =? 61) = true) (c :: t).
Proof.
  unfold plain_name. destruct (codes name) as [|c t]; [done|]. intros [Hc Hf]%andb_true_iff.
  exists c, t. bool_props. split_and!; [done..|]. by apply forallb_Forall.
Qed.

(** [-name=value] and [-name value]. *)
Definition dash (name : string) : string := "-" +:+ name.
Definition setting (name v : string) : string := dash name +:+ "=" +:+ v.

Lemma Parse_setting name v args fs : plain_name name = true →
  Parse (setting name v :: args) fs =
    match set_flag (codes name) (codes v) fs with
    | None => help (codes name)
    | Some None => Invalid
    | Some (Some fs) => Parse args fs
    end.
Proof.
  intros (c & t & E & Hc & Ht)%plain_name_spec. cbn [Parse]. unfold setting, dash. rewrite !codes_app.
  change (codes "-") with [45]. change (codes "=") with [61]. cbn [app]. rewrite E.
  by rewrite classify_named.
Qed.

Lemma Parse_equals name v args fs fs' : plain_name name = true →
  set_flag (codes name) (codes v) fs = Some (Some fs') →
  Parse (setting name v :: args) fs = Parse args fs'.
Proof. intros Hn Hs. by rewrite Parse_setting, Hs. Qed.

Lemma set_flag_defined name v fs r : set_flag name v fs = Some r → defined name fs = true.
Proof.
  revert r. induction fs as [|[n x] fs IH]; intros r; [done|]. cbn.
  destruct (decide (codes n = name)); [by rewrite bool_decide_eq_true_2|].
  rewrite bool_decide_eq_false_2 by done. destruct (set_flag name v fs); [|done]. intros _. by eapply IH.
Qed.

Lemma Parse_space name v args fs fs' : plain_name name = true →
  set_flag (codes name) (codes v) fs = Some (Some fs') →
  Parse (dash name :: v :: args) fs = Parse args fs'.
Proof.
  intros (c & t & E & Hc & Ht)%plain_name_spec Hs. cbn [Parse]. unfold dash. rewrite codes_app.
  change (codes "-") with [45]. cbn [app]. pose proof (set_flag_defined _ _ _ _ Hs) as Hd. rewrite E in *.
  assert (classify (45 :: c :: t) = Named (c :: t) None) as ->.
  { cbn [classify Z.eqb Pos.eqb negb]. rewrite (proj2 (Z.eqb_neq c 45)) by done. unfold named.
    pose proof (Forall_inv Ht) as He. cbn in He. bool_props.
    rewrite (proj2 (Z.eqb_neq c 45)), (proj2 (Z.eqb_neq c 61)) by done. cbn [orb].
    rewrite <- (app_nil_r (c :: t)). rewrite span_prefix by done. by rewrite app_nil_r. }
  by rewrite Hd, Hs.
Qed.

(** Refused arguments. *)
Lemma Parse_invalid name v args fs : plain_name name = true →
  set_flag (codes name) (codes v) fs = Some None → Parse (setting name v :: args) fs = Invalid.
Proof. intros Hn Hs. by rewrite Parse_setting, Hs. Qed.

Lemma set_flag_undefined name v fs : defined name fs = false → set_flag name v fs = None.
Proof.
  induction fs as [|[n x] fs IH]; [done|]. cbn. intros [Hn Hd]%orb_false_iff. bool_props.
  rewrite decide_False, IH by done. done.
Qed.

Lemma Parse_undefined name v args fs : plain_name name = true → defined (codes name) fs = false →
  name ≠ "help" → name ≠ "h" → Parse (setting name v :: args) fs = Invalid.
Proof.
  intros Hn Hd Hh Hh'. rewrite Parse_setting, set_flag_undefined by done. unfold help.
  rewrite decide_False; [done|]. intros [?%(inj codes)|?%(inj codes)]; done.
Qed.
