(* ===== verification/Persister.v ===== *)
(** * The Persister interface and its in-memory implementation

    [raft/persister.go], lines 27 to 160.  The interface is a type class: the
    consensus engine ([Node], [Election], [Replication], [Snapshot]) is written
    and verified against [Persister] and [PersisterLaws]; [MemoryPersister]
    discharges the laws here. *)

From S2P Require Import Prelude Types.

(** ** The interface

    A persister is a state of type [P]; an operation returns the state it
    leaves behind, also when it reports an error ([Some e]; [None] is nil).  A
    load returns what was read or an error. *)

Class Persister (P : Type) : Type := {
  Save : Z → Z → list LogEntry → P → P * option error;
  Load : P → (Z * Z * list LogEntry) + error;
  SaveSnapshot : bytes → Z → Z → P → P * option error;
  LoadSnapshot : P → (bytes * Z * Z) + error
}.

(** What the doc comments of the interface promise: a saved state is what is
    loaded next, a failed save leaves the durable state as it was, and the two
    lifecycles (raft state and snapshot) do not disturb each other. *)
Class PersisterLaws (P : Type) `{Persister P} : Prop := {
  save_load (t v : Z) (l : list LogEntry) (p p' : P) :
    Save t v l p = (p', None) → Load p' = inl (t, v, l);
  save_failed (t v : Z) (l : list LogEntry) (p p' : P) (e : error) :
    Save t v l p = (p', Some e) → Load p' = Load p;
  save_keeps_snapshot (t v : Z) (l : list LogEntry) (p p' : P) (o : option error) :
    Save t v l p = (p', o) → LoadSnapshot p' = LoadSnapshot p;
  snapshot_load (d : bytes) (i t : Z) (p p' : P) :
    in_int i → in_int t →
    SaveSnapshot d i t p = (p', None) → LoadSnapshot p' = inl (d, i, t);
  snapshot_failed (d : bytes) (i t : Z) (p p' : P) (e : error) :
    SaveSnapshot d i t p = (p', Some e) → LoadSnapshot p' = LoadSnapshot p;
  snapshot_keeps_state (d : bytes) (i t : Z) (p p' : P) (o : option error) :
    SaveSnapshot d i t p = (p', o) → Load p' = Load p
}.

(** ** MemoryPersister

    [mLog] is [None] for Go's nil slice: [Load] tells a nil log from an empty
    one.  The mutex is not modelled: every operation is one critical section. *)

Module MemoryPersister.

Record MemoryPersister : Type := mkMemoryPersister {
  mCurrentTerm : Z;
  mVotedFor : Z;
  mLog : option (list LogEntry);
  saveErr : option error;
  mSnapshot : bytes;
  mSnapshotIndex : Z;
  mSnapshotTerm : Z;
  hasSnapshot : bool
}.

Definition NewMemoryPersister : MemoryPersister :=
  mkMemoryPersister 0 (-1) None None [] 0 0 false.

Definition SetSaveErr (err : option error) (m : MemoryPersister) : MemoryPersister :=
  m <| saveErr := err |>.

Definition mSave (currentTerm votedFor : Z) (log : list LogEntry) (m : MemoryPersister)
    : MemoryPersister * option error :=
  match saveErr m with
  | Some e => (m, Some e)
  | None =>
      (m <| mCurrentTerm := currentTerm |>
         <| mVotedFor := votedFor |>
         <| mLog := Some log |>, None)
  end.

Definition mLoad (m : MemoryPersister) : (Z * Z * list LogEntry) + error :=
  if (bool_decide (mLog m = None) && (mCurrentTerm m =? 0) && (mVotedFor m =? -1))%bool
  then inr (Errorf "persisted state does not exist")
  else inl (mCurrentTerm m, mVotedFor m, default [] (mLog m)).

Definition mSaveSnapshot (data : bytes) (lastIncludedIndex lastIncludedTerm : Z)
    (m : MemoryPersister) : MemoryPersister * option error :=
  match saveErr m with
  | Some e => (m, Some e)
  | None =>
      (m <| mSnapshot := data |>
         <| mSnapshotIndex := lastIncludedIndex |>
         <| mSnapshotTerm := lastIncludedTerm |>
         <| hasSnapshot := true |>, None)
  end.

Definition mLoadSnapshot (m : MemoryPersister) : (bytes * Z * Z) + error :=
  if negb (hasSnapshot m) then inr ErrNoSnapshot
  else inl (mSnapshot m, mSnapshotIndex m, mSnapshotTerm m).

#[global] Instance memory_persister : Persister MemoryPersister := {|
  Save := mSave;
  Load := mLoad;
  SaveSnapshot := mSaveSnapshot;
  LoadSnapshot := mLoadSnapshot
|}.

#[global] Instance memory_persister_laws : PersisterLaws MemoryPersister.
Proof.
  split; simpl; unfold mSave, mLoad, mSaveSnapshot, mLoadSnapshot;
    intros; destruct (saveErr p); by simplify_eq/=.
Qed.

End MemoryPersister.
