(* ===== verification/FilePersister.v ===== *)
(** * The file-backed persister

    [raft/persister.go], lines 162 to 365: the production implementation of
    [Persister].  The disk is a map from paths to contents; each write takes the
    next [write_outcome] of a plan, so that a failure of any system call of
    [atomicWrite] can be played.  Reads of existing files succeed.

    The snapshot file's header and the base64 of the log's commands are written
    out. *)

From S2P Require Import Prelude Types Text JsonSyntax Json Paths Persister.
#[local] Open Scope string_scope.
#[local] Open Scope Z_scope.

(** ** Bytes *)

Definition byte_of_Z (z : Z) : Byte.byte :=
  default Byte.x00 (Byte.of_N (Z.to_N (z mod 256))).

Definition Z_of_byte (b : Byte.byte) : Z := Z.of_N (Byte.to_N b).

Lemma Z_of_byte_range b : 0 ≤ Z_of_byte b < 256.
Proof. unfold Z_of_byte. pose proof (Byte.to_N_bounded b). lia. Qed.

Lemma Z_of_byte_of_Z z : Z_of_byte (byte_of_Z z) = z mod 256.
Proof.
  unfold Z_of_byte, byte_of_Z. pose proof (Z.mod_pos_bound z 256).
  destruct (Byte.of_N (Z.to_N (z mod 256))) as [b|] eqn:Hb; cbn.
  - apply Byte.to_of_N in Hb. rewrite Hb. lia.
  - apply Byte.of_N_None_iff in Hb. lia.
Qed.

Lemma byte_of_Z_of_byte b : byte_of_Z (Z_of_byte b) = b.
Proof.
  unfold byte_of_Z. rewrite Z.mod_small by apply Z_of_byte_range.
  unfold Z_of_byte. rewrite N2Z.id, Byte.of_to_N. done.
Qed.

(** [binary.LittleEndian.PutUint64] and [Uint64], for any number of bytes. *)
Fixpoint le_put (n : nat) (z : Z) : bytes :=
  match n with O => [] | S n => byte_of_Z z :: le_put n (z / 256) end.

Fixpoint le_get (b : bytes) : Z :=
  match b with [] => 0 | x :: b => Z_of_byte x + 256 * le_get b end.

Lemma le_put_length n z : length (le_put n z) = n.
Proof. revert z. induction n as [|n IH]; intros z; cbn; [done|]. by rewrite IH. Qed.

Lemma le_get_put n z : le_get (le_put n z) = z mod 256 ^ Z.of_nat n.
Proof.
  revert z. induction n as [|n IH]; intros z; cbn [le_put le_get].
  - by rewrite Z.mod_1_r.
  - rewrite IH, Z_of_byte_of_Z. rewrite Nat2Z.inj_succ, Z.pow_succ_r by lia.
    rewrite (Z.rem_mul_r z 256 (256 ^ Z.of_nat n)); [lia|lia|].
    apply Z.pow_pos_nonneg; lia.
Qed.

(** [int(uint64(i))]: what was written as 64 bits is read back. *)
Lemma int_roundtrip i : in_int i → i64 (le_get (le_put 8 (i mod 2 ^ 64))) = i.
Proof.
  intros Hi. rewrite le_get_put. change (256 ^ Z.of_nat 8) with (2 ^ 64).
  rewrite Z.mod_mod by lia. unfold i64, in_int in *.
  destruct (Z.lt_ge_cases i 0).
  - replace (i mod 2 ^ 64) with (i + 2 ^ 64); [|].
    + replace (i + 2 ^ 64 + 2 ^ 63) with (i + 2 ^ 63 + 1 * 2 ^ 64) by lia.
      rewrite Z.mod_add by lia. rewrite Z.mod_small; lia.
    + rewrite <- (Z.mod_add i 1 (2 ^ 64)) by lia. rewrite Z.mod_small; lia.
  - rewrite (Z.mod_small i) by lia. rewrite Z.mod_small; lia.
Qed.

(** ** encoding/base64, StdEncoding *)

(** The letter of a six-bit value and back. *)
Definition alphabet : string :=
  "ABCDEFGHIJKLMNOPQRSTUVWXYZabcdefghijklmnopqrstuvwxyz0123456789+/".

Definition b64_char (v : Z) : Ascii.ascii :=
  default (Ascii.ascii_of_nat 65) (String.get (Z.to_nat v) alphabet).

Fixpoint find_char (c : Ascii.ascii) (i : Z) (s : string) : option Z :=
  match s with
  | EmptyString => None
  | String x s => if Ascii.eqb x c then Some i else find_char c (i + 1) s
  end.

Definition b64_value (c : Ascii.ascii) : option Z := find_char c 0 alphabet.

Definition pad : Ascii.ascii := Ascii.ascii_of_nat 61.

(** Three bytes make four letters; a shorter rest is padded. *)
Fixpoint EncodeToString (b : bytes) : string :=
  match b with
  | [] => ""
  | [x] =>
      let x := Z_of_byte x in
      String (b64_char (x / 4)) (String (b64_char (x mod 4 * 16)) (String pad (String pad "")))
  | [x; y] =>
      let x := Z_of_byte x in let y := Z_of_byte y in
      String (b64_char (x / 4)) (String (b64_char (x mod 4 * 16 + y / 16))
        (String (b64_char (y mod 16 * 4)) (String pad "")))
  | x :: y :: z :: b =>
      let x := Z_of_byte x in let y := Z_of_byte y in let z := Z_of_byte z in
      String (b64_char (x / 4)) (String (b64_char (x mod 4 * 16 + y / 16))
        (String (b64_char (y mod 16 * 4 + z / 64)) (String (b64_char (z mod 64)) (EncodeToString b))))
  end.

(** Line breaks are skipped. *)
Fixpoint strip_newlines (s : string) : string :=
  match s with
  | EmptyString => ""
  | String c s =>
      if (Ascii.eqb c (Ascii.ascii_of_nat 10) || Ascii.eqb c (Ascii.ascii_of_nat 13))%bool
      then strip_newlines s else String c (strip_newlines s)
  end.

Fixpoint decode_quads (s : string) : option bytes :=
  match s with
  | EmptyString => Some []
  | String c1 (String c2 (String c3 (String c4 rest))) =>
      v1 ← b64_value c1; v2 ← b64_value c2;
      let b1 := byte_of_Z (v1 * 4 + v2 / 16) in
      if Ascii.eqb c3 pad then
        (if (Ascii.eqb c4 pad && bool_decide (rest = ""))%bool then Some [b1] else None)
      else
        v3 ← b64_value c3;
        let b2 := byte_of_Z (v2 mod 16 * 16 + v3 / 4) in
        if Ascii.eqb c4 pad then (if bool_decide (rest = "") then Some [b1; b2] else None)
        else
          v4 ← b64_value c4;
          let b3 := byte_of_Z (v3 mod 4 * 64 + v4) in
          tl ← decode_quads rest; Some (b1 :: b2 :: b3 :: tl)
  | _ => None
  end.

Definition DecodeString (s : string) : bytes + error :=
  match decode_quads (strip_newlines s) with
  | Some b => inl b
  | None => inr (Errorf "illegal base64 data")
  end.

(** Every letter of the encoding decodes to its value, and is neither a line
    break nor the padding. *)
Lemma b64_letters :
  Forall (λ v, b64_value (b64_char v) = Some v ∧ Ascii.eqb (b64_char v) pad = false ∧
               (Ascii.eqb (b64_char v) (Ascii.ascii_of_nat 10) ||
                Ascii.eqb (b64_char v) (Ascii.ascii_of_nat 13))%bool = false)
    (seqZ 0 64).
Proof. refine (bool_decide_eq_true_1 _ _). vm_compute. reflexivity. Qed.

Lemma b64_letter v : 0 ≤ v < 64 →
  b64_value (b64_char v) = Some v ∧ Ascii.eqb (b64_char v) pad = false ∧
  (Ascii.eqb (b64_char v) (Ascii.ascii_of_nat 10) ||
   Ascii.eqb (b64_char v) (Ascii.ascii_of_nat 13))%bool = false.
Proof.
  intros Hv. pose proof b64_letters as Hall. rewrite Forall_forall in Hall. apply Hall.
  apply elem_of_seqZ. lia.
Qed.

Lemma b64_value_char v : 0 ≤ v < 64 → b64_value (b64_char v) = Some v.
Proof. intros Hv. by destruct (b64_letter v Hv). Qed.

Lemma b64_not_pad v : 0 ≤ v < 64 → Ascii.eqb (b64_char v) pad = false.
Proof. intros Hv. by destruct (b64_letter v Hv) as (_ & ? & _). Qed.

Lemma strip_letter v s : 0 ≤ v < 64 →
  strip_newlines (String (b64_char v) s) = String (b64_char v) (strip_newlines s).
Proof. intros Hv. cbn [strip_newlines]. destruct (b64_letter v Hv) as (_ & _ & ->). done. Qed.

(** Cuts an arithmetic goal on quotients and remainders into linear ones. *)
Ltac euclid := Z.to_euclidean_division_equations; lia.

Lemma byte_back z b : z = Z_of_byte b → byte_of_Z z = b.
Proof. intros ->. apply byte_of_Z_of_byte. Qed.

Lemma base64_roundtrip b : DecodeString (EncodeToString b) = inl b.
Proof.
  unfold DecodeString. assert (decode_quads (strip_newlines (EncodeToString b)) = Some b) as ->; [|done].
  assert (∀ n b, (length b ≤ n)%nat → decode_quads (strip_newlines (EncodeToString b)) = Some b) as Hn;
    [|by apply (Hn (length b))].
  clear b. induction n as [|n IH]; intros b Hl; [by destruct b; simpl in *; [|lia]|].
  destruct b as [|x [|y [|z b]]]; [done|..]; cbn [EncodeToString];
    pose proof (Z_of_byte_range x) as Hx.
  - rewrite !strip_letter by euclid. change (strip_newlines _) with (String pad (String pad "")).
    cbn [decode_quads]. rewrite !b64_value_char by euclid. cbn.
    f_equal. f_equal. apply byte_back. euclid.
  - pose proof (Z_of_byte_range y) as Hy.
    rewrite !strip_letter by euclid. change (strip_newlines _) with (String pad "").
    cbn [decode_quads]. rewrite !b64_value_char by euclid. cbn [mbind option_bind].
    rewrite b64_not_pad by euclid.
    cbn. f_equal. f_equal; [|f_equal]; apply byte_back; euclid.
  - pose proof (Z_of_byte_range y) as Hy. pose proof (Z_of_byte_range z) as Hz.
    rewrite !strip_letter by euclid. cbn [decode_quads].
    rewrite !b64_value_char by euclid. cbn [mbind option_bind].
    rewrite !b64_not_pad by euclid.
    cbn [mbind option_bind]. rewrite IH by (simpl in Hl; lia). cbn [mbind option_bind].
    f_equal. f_equal; [|f_equal; [|f_equal]]; apply byte_back; euclid.
Qed.

(** ** The disk and atomicWrite *)

(** How one call of [atomicWrite] goes: which system call fails, if any.
    [os.WriteFile] fails when it cannot create the file ([CreateFails]) or after
    a part of the data has been written ([WriteFails]).  After the later failures
    the temporary file is removed; [removed] says whether that succeeds. *)
Inductive write_outcome : Type :=
  | MkdirFails
  | CreateFails
  | WriteFails (written : nat)
  | OpenFails (removed : bool)
  | SyncFails (removed : bool)
  | CloseFails (removed : bool)
  | RenameFails (removed : bool)
  | WriteOk.

(** The files, and the outcomes of the writes to come; an empty plan means that
    every write succeeds. *)
Record Disk : Type := mkDisk {
  files : gmap string bytes;
  plan : list write_outcome
}.

(** A system call, or several: from the files before, the files at each moment
    on the way at which the process could be killed, and the error. *)
Definition syscalls : Type := gmap string bytes → list (gmap string bytes) * option error.

Definition skip : syscalls := λ fs, ([], None).

(** [if err := m; err != nil { cleanup; return fmt.Errorf(msg, err) }] followed by
    [k]. *)
Definition checked (m : syscalls) (msg : string) (cleanup k : syscalls) : syscalls := λ fs,
  let '(tr, err) := m fs in
  let now := default fs (last tr) in
  match err with
  | Some e => (tr ++ fst (cleanup now), Some (Wrapf msg e))%list
  | None => let '(tr', err) := k now in ((tr ++ tr')%list, err)
  end.

(** [os.WriteFile] writes in pieces: it can be interrupted after each byte. *)
Definition WriteFile (name : string) (data : bytes) (o : write_outcome) : syscalls := λ fs,
  let written n := <[name := take n data]> fs in
  match o with
  | CreateFails => ([], Some (Errorf "write"))
  | WriteFails n => ((written <$> seq 0 n) ++ [written n], Some (Errorf "write"))%list
  | _ => ((written <$> seq 0 (length data)) ++ [<[name := data]> fs], None)%list
  end.

(** [os.Remove]; its error is ignored. *)
Definition Remove (name : string) (o : write_outcome) : syscalls := λ fs,
  match o with
  | OpenFails false | SyncFails false | CloseFails false | RenameFails false =>
      ([], Some (Errorf "remove"))
  | _ => ([delete name fs], None)
  end.

Definition Rename (from to : string) (o : write_outcome) : syscalls := λ fs,
  match o with
  | RenameFails _ => ([], Some (Errorf "rename"))
  | _ =>
      match fs !! from with
      | Some data => ([<[to := data]> (delete from fs)], None)
      | None => ([], Some (Errorf "rename"))
      end
  end.

(** Calls that leave the files as they are. *)
Definition MkdirAll (o : write_outcome) : syscalls := λ _,
  ([], match o with MkdirFails => Some (Errorf "mkdir") | _ => None end).
Definition Open (o : write_outcome) : syscalls := λ _,
  ([], match o with OpenFails _ => Some (Errorf "open") | _ => None end).
Definition Sync (o : write_outcome) : syscalls := λ _,
  ([], match o with SyncFails _ => Some (Errorf "fsync") | _ => None end).
Definition Close (o : write_outcome) : syscalls := λ _,
  ([], match o with CloseFails _ => Some (Errorf "close") | _ => None end).

Definition atomicWrite_calls (target : string) (data : bytes) (o : write_outcome) : syscalls :=
  let tempFile := target +:+ ".tmp" in
  checked (MkdirAll o) "create parent dir" skip (
  checked (WriteFile tempFile data o) "write temp file" skip (
  checked (Open o) "open temp file for fsync" (Remove tempFile o) (
  checked (Sync o) "fsync temp file" (Remove tempFile o) (
  checked (Close o) "close temp file" (Remove tempFile o) (
  checked (Rename tempFile target o) "rename temp file" (Remove tempFile o)
  skip))))).

(** The files at each moment of the call. *)
Definition atomicWrite_states (target : string) (data : bytes) (o : write_outcome)
    (fs : gmap string bytes) : list (gmap string bytes) := fst (atomicWrite_calls target data o fs).

Definition atomicWrite (target : string) (data : bytes) (d : Disk) : Disk * option error :=
  let o := default WriteOk (head (plan d)) in
  let '(tr, err) := atomicWrite_calls target data o (files d) in
  (mkDisk (default (files d) (last tr)) (tail (plan d)), err).

(** ** The persister *)

Record persistentEntry : Type := mkPersistentEntry {
  peIndex : Z;
  peTerm : Z;
  peCommand : string
}.

Record persistentState : Type := mkPersistentState {
  psCurrentTerm : Z;
  psVotedFor : Z;
  psLog : list persistentEntry
}.

(** Base64 is ASCII. *)
Lemma b64_char_ascii v : 0 ≤ v < 64 → Z.of_N (Ascii.N_of_ascii (b64_char v)) < 128.
Proof.
  assert (Forall (λ v, Z.of_N (Ascii.N_of_ascii (b64_char v)) < 128) (seqZ 0 64)) as Hall
    by (refine (bool_decide_eq_true_1 _ _); vm_compute; reflexivity).
  intros Hv. rewrite Forall_forall in Hall. apply Hall, elem_of_seqZ. lia.
Qed.

Lemma EncodeToString_valid b : valid_string (EncodeToString b).
Proof.
  apply codes_ascii_valid.
  assert (∀ n b, (length b ≤ n)%nat → Forall (λ z, z < 128) (codes (EncodeToString b))) as Hn;
    [|by apply (Hn (length b))].
  clear b. induction n as [|n IH]; intros b Hl; [by destruct b; simpl in *; [constructor|lia]|].
  assert (∀ c s, codes (String c s) = Z.of_N (Ascii.N_of_ascii c) :: codes s) as Hs by done.
  destruct b as [|x [|y [|z b]]]; [constructor|..]; cbn [EncodeToString]; rewrite !Hs;
    pose proof (Z_of_byte_range x) as Hx;
    try pose proof (Z_of_byte_range y) as Hy; try pose proof (Z_of_byte_range z) as Hz;
    repeat (constructor; [first [apply b64_char_ascii; euclid|reflexivity]|]); [constructor..|].
  apply IH. cbn in Hl. lia.
Qed.

(** ** The JSON of the raft state *)

Definition enc_persistentEntry (e : persistentEntry) : json :=
  JObj (enc_field "index" (enc_int (peIndex e)) ++ enc_field "term" (enc_int (peTerm e)) ++
        enc_field "command" (enc_string (peCommand e))).

Definition enc_persistentState (s : persistentState) : json :=
  JObj (enc_field "currentTerm" (enc_int (psCurrentTerm s)) ++
        enc_field "votedFor" (enc_int (psVotedFor s)) ++
        enc_field "log" (JArr (enc_persistentEntry <$> psLog s))).

Definition persistentEntry_fields : list (string * decoder persistentEntry) := [
  ("index", dec_field peIndex (λ i e, mkPersistentEntry i (peTerm e) (peCommand e)) (dec_int min_int max_int));
  ("term", dec_field peTerm (λ t e, mkPersistentEntry (peIndex e) t (peCommand e)) (dec_int min_int max_int));
  ("command", dec_field peCommand (λ c e, mkPersistentEntry (peIndex e) (peTerm e) c) dec_string)].

Definition dec_persistentEntry : decoder persistentEntry := dec_struct persistentEntry_fields.

Definition persistentState_fields : list (string * decoder persistentState) := [
  ("currentTerm", dec_field psCurrentTerm (λ t s, mkPersistentState t (psVotedFor s) (psLog s)) (dec_int min_int max_int));
  ("votedFor", dec_field psVotedFor (λ v s, mkPersistentState (psCurrentTerm s) v (psLog s)) (dec_int min_int max_int));
  ("log", dec_field psLog (λ l s, mkPersistentState (psCurrentTerm s) (psVotedFor s) l)
            (dec_slice (mkPersistentEntry 0 0 "") dec_persistentEntry))].

Definition dec_persistentState : decoder persistentState := dec_struct persistentState_fields.

(** The numbers are [int]s of Go; one outside their range has no encoding. *)
Definition int_fields (s : persistentState) : bool :=
  (in_range min_int max_int (psCurrentTerm s) && in_range min_int max_int (psVotedFor s) &&
   forallb (λ e, in_range min_int max_int (peIndex e) && in_range min_int max_int (peTerm e))%bool (psLog s))%bool.

#[export] Instance persistentState_json : Json persistentState := {|
  Marshal s :=
    if int_fields s then inl (marshal_json true (enc_persistentState s))
    else inr (Errorf "not an int");
  Unmarshal := unmarshal_json (mkPersistentState 0 0 []) dec_persistentState
|}.

Lemma entry_codec e : in_range min_int max_int (peIndex e) = true → in_range min_int max_int (peTerm e) = true →
  valid_string (peCommand e) →
  clean (enc_persistentEntry e) = true ∧
  dec_persistentEntry (mkPersistentEntry 0 0 "") (enc_persistentEntry e) = inl e.
Proof.
  intros [Hi Hir]%in_range_int [Ht Htr]%in_range_int Hc. split.
  - cbn [enc_persistentEntry enc_field app clean forallb fst snd].
    by rewrite !codes_byte_test, !clean_int, clean_string by done.
  - cbn [enc_persistentEntry dec_persistentEntry dec_struct].
    rewrite <- (app_nil_r (enc_field "command" _)).
    do 3 decode_field ltac:(first [by apply dec_enc_int|apply dec_enc_string]). by destruct e.
Qed.

#[export] Instance persistentState_roundtrip :
  JsonRoundtrip persistentState (λ s, Forall (valid_string ∘ peCommand) (psLog s)).
Proof.
  intros s data Hu. cbn [Marshal Unmarshal persistentState_json].
  destruct (int_fields s) eqn:Hr; [|done]. intros [= <-]. unfold int_fields in Hr.
  apply andb_true_iff in Hr as [[[Ht Htr]%in_range_int [Hv Hvr]%in_range_int]%andb_true_iff Hl].
  assert (Forall (λ e, clean (enc_persistentEntry e) = true ∧
    dec_persistentEntry (mkPersistentEntry 0 0 "") (enc_persistentEntry e) = inl e) (psLog s)) as He.
  { eapply Forall_impl; [exact (proj2 (Forall_and _ _) (conj Hu (forallb_Forall _ _ Hl)))|].
    cbn. intros e [Hc [? ?]%andb_true_iff]. by apply entry_codec. }
  apply Forall_and in He as [Hec Hed]. rewrite unmarshal_marshal.
  - cbn [enc_persistentState dec_persistentState dec_struct].
    rewrite <- (app_nil_r (enc_field "log" _)).
    do 3 decode_field ltac:(first [by apply dec_enc_int|by apply dec_enc_elems]). by destruct s.
  - cbn [enc_persistentState enc_field app clean forallb fst snd].
    rewrite !codes_byte_test, !clean_int by done. rewrite (Forall_forallb clean) by (by apply Forall_fmap). done.
  - assert (max_list (height <$> (enc_persistentEntry <$> psLog s)) ≤ 1)%nat as H.
    { apply max_list_le. do 2 apply Forall_fmap. apply Forall_true. intros e. cbn. lia. }
    apply shallow. cbn [enc_persistentState enc_field app height fst snd fmap list_fmap max_list enc_int].
    revert H. generalize (max_list (height <$> (enc_persistentEntry <$> psLog s))). unfold id. lia.
Qed.

Definition snapshotMagic : bytes :=
  [Byte.x44; Byte.x53; Byte.x4b; Byte.x56; Byte.x53; Byte.x4e; Byte.x50; Byte.x31].
Definition snapshotHdrSz : nat := length snapshotMagic + 8 + 8.

Section file_persister.
(** The two file names of a [FilePersister]; the mutex is not modelled. *)
Context (filename snapshotFile : string).

Definition to_persistent (e : LogEntry) : persistentEntry :=
  mkPersistentEntry (eIndex e) (eTerm e) (EncodeToString (eCommand e)).

Definition fSave (currentTerm votedFor : Z) (log : list LogEntry) (d : Disk)
    : Disk * option error :=
  match Marshal (mkPersistentState currentTerm votedFor (to_persistent <$> log)) with
  | inr err => (d, Some (Wrapf "encode state" err))
  | inl data => atomicWrite filename data d
  end.

Fixpoint decode_log (l : list persistentEntry) : list LogEntry + error :=
  match l with
  | [] => inl []
  | e :: l =>
    match DecodeString (peCommand e) with
    | inr err => inr (Wrapf "decode log entry command" err)
    | inl cmd =>
      match decode_log l with
      | inr err => inr err
      | inl rest => inl (mkLogEntry (peIndex e) (peTerm e) cmd :: rest)
      end
    end
  end.

Definition fLoad (d : Disk) : (Z * Z * list LogEntry) + error :=
  match files d !! filename with
  | None => inr (Errorf "persisted state file does not exist")
  | Some data =>
    match Unmarshal data with
    | inr err => inr (Wrapf "decode persisted state" err)
    | inl st =>
      match decode_log (psLog st) with
      | inr err => inr err
      | inl log => inl (psCurrentTerm st, psVotedFor st, log)
      end
    end
  end.

Definition fSaveSnapshot (data : bytes) (lastIncludedIndex lastIncludedTerm : Z) (d : Disk)
    : Disk * option error :=
  let buf := (snapshotMagic ++ le_put 8 (lastIncludedIndex mod 2 ^ 64)
               ++ le_put 8 (lastIncludedTerm mod 2 ^ 64) ++ data)%list in
  atomicWrite snapshotFile buf d.

Definition fLoadSnapshot (d : Disk) : (bytes * Z * Z) + error :=
  match files d !! snapshotFile with
  | None => inr (Wrapf "snapshot file" ErrNoSnapshot)
  | Some raw =>
    if (length raw <? snapshotHdrSz)%nat then inr (Errorf "snapshot too short")
    else if negb (bool_decide (take 8 raw = snapshotMagic))
    then inr (Errorf "snapshot header corrupt (bad magic)")
    else
      inl (drop snapshotHdrSz raw, i64 (le_get (take 8 (drop 8 raw))),
           i64 (le_get (take 8 (drop 16 raw))))
  end.

#[local] Instance file_persister : Persister Disk := {|
  Save := fSave;
  Load := fLoad;
  SaveSnapshot := fSaveSnapshot;
  LoadSnapshot := fLoadSnapshot
|}.

(** ** Lemmas *)

Lemma tmp_differs (target : string) : target +:+ ".tmp" ≠ target.
Proof.
  intros H. apply (f_equal String.length) in H. revert H.
  induction target as [|c t IH]; cbn; [done|]. intros [= H]. auto.
Qed.

(** The moments of [atomicWrite], by the call that fails. *)
Lemma atomicWrite_table target (data : bytes) (o : write_outcome) (fs : gmap string bytes) :
  let tempFile := target +:+ ".tmp" in
  let written n := <[tempFile := take n data]> fs in
  let full := <[tempFile := data]> fs in
  let failed (removed : bool) := if removed then [delete tempFile full] else [] in
  let all := ((written <$> seq 0 (length data)) ++ [full])%list in
  let error msg e := Some (Wrapf msg (Errorf e)) in
  atomicWrite_calls target data o fs =
    match o with
    | MkdirFails => ([], error "create parent dir" "mkdir")
    | CreateFails => ([], error "write temp file" "write")
    | WriteFails n => ((written <$> seq 0 n) ++ [written n], error "write temp file" "write")
    | OpenFails b => (all ++ failed b, error "open temp file for fsync" "open")
    | SyncFails b => (all ++ failed b, error "fsync temp file" "fsync")
    | CloseFails b => (all ++ failed b, error "close temp file" "close")
    | RenameFails b => (all ++ failed b, error "rename temp file" "rename")
    | WriteOk => (all ++ [<[target := data]> (delete tempFile full)], None)
    end%list.
Proof.
  unfold atomicWrite_calls, checked, Rename.
  destruct o as [| |n|[]|[]|[]|[]|]; cbn; rewrite ?last_snoc; cbn; rewrite ?lookup_insert_eq; cbn;
    by rewrite ?app_nil_r.
Qed.

(** Every state on the way leaves the other files alone, and the target has
    its old contents until it has the new ones. *)
Lemma atomicWrite_states_spec target data o fs fs' :
  fs' ∈ atomicWrite_states target data o fs →
  (fs' !! target = fs !! target ∨ (o = WriteOk ∧ fs' !! target = Some data)) ∧
  ∀ other, other ≠ target → other ≠ target +:+ ".tmp" → fs' !! other = fs !! other.
Proof.
  pose proof (tmp_differs target) as Ht. unfold atomicWrite_states. rewrite atomicWrite_table. intros Hin.
  destruct o as [| |n|[]|[]|[]|[]|]; cbn in Hin;
    rewrite ?elem_of_app, ?list_elem_of_fmap, ?elem_of_cons, ?elem_of_nil in Hin;
    destruct_or?; try done;
    repeat match goal with H : ∃ _, _ ∧ _ |- _ => destruct H as (? & H & _) end; subst fs';
    (split; [|intros other ? ?; simplify_map_eq; done]);
    rewrite ?lookup_insert_eq, ?lookup_delete_ne, ?lookup_insert_ne by done; auto.
Qed.

Lemma atomicWrite_spec target data d d' err : atomicWrite target data d = (d', err) →
  files d' !! target = match err with Some _ => files d !! target | None => Some data end ∧
  ∀ other, other ≠ target → other ≠ target +:+ ".tmp" → files d' !! other = files d !! other.
Proof.
  unfold atomicWrite. set (o := default WriteOk (head (plan d))). clearbody o.
  pose proof (atomicWrite_states_spec target data o (files d)) as Hst. unfold atomicWrite_states in Hst.
  pose proof (atomicWrite_table target data o (files d)) as Htab. cbv zeta in Htab.
  destruct (atomicWrite_calls target data o (files d)) as [tr e]. intros [= <- <-]. cbn [files fst] in *.
  destruct (last tr) as [fs'|] eqn:Hl; cbn.
  - pose proof Hl as Hin. apply last_Some_elem_of, Hst in Hin as [Ht Ho]. split; [|done].
    destruct o; injection Htab as -> ->; destruct Ht as [Ht|[? Ht]]; try done.
    rewrite last_snoc in Hl. injection Hl as <-. by rewrite lookup_insert_eq.
  - destruct o; injection Htab as -> ->; rewrite ?last_app_Some in Hl; try done;
      rewrite ?last_snoc in Hl; done.
Qed.

Lemma to_persistent_valid t v l :
  Forall (valid_string ∘ peCommand) (psLog (mkPersistentState t v (to_persistent <$> l))).
Proof. apply Forall_fmap, Forall_true. intros e. apply EncodeToString_valid. Qed.

Lemma decode_log_persistent l : decode_log (to_persistent <$> l) = inl l.
Proof.
  induction l as [|e l IH]; [done|]. cbn. by rewrite base64_roundtrip, IH; destruct e.
Qed.

(** The header of the snapshot file. *)
Lemma snapshot_header d i t data : in_int i → in_int t →
  files d !! snapshotFile =
    Some (snapshotMagic ++ le_put 8 (i mod 2 ^ 64) ++ le_put 8 (t mod 2 ^ 64) ++ data)%list →
  fLoadSnapshot d = inl (data, i, t).
Proof.
  intros Hi Ht Hf. unfold fLoadSnapshot. rewrite Hf.
  pose proof (le_put_length 8 (i mod 2 ^ 64)) as Hli.
  pose proof (le_put_length 8 (t mod 2 ^ 64)) as Hlt.
  rewrite (proj2 (Nat.ltb_ge _ _)) by (rewrite !length_app, Hli, Hlt; cbn; lia).
  rewrite take_app_length'. 2: done.
  rewrite bool_decide_eq_true_2 by done. cbn [negb].
  assert (drop 8 (snapshotMagic ++ le_put 8 (i mod 2 ^ 64) ++ le_put 8 (t mod 2 ^ 64) ++ data)
          = (le_put 8 (i mod 2 ^ 64) ++ le_put 8 (t mod 2 ^ 64) ++ data))%list as H8
    by (by rewrite drop_app_length').
  assert (drop 16 (snapshotMagic ++ le_put 8 (i mod 2 ^ 64) ++ le_put 8 (t mod 2 ^ 64) ++ data)
          = (le_put 8 (t mod 2 ^ 64) ++ data))%list as H16
    by (change 16%nat with (8 + 8)%nat; rewrite <- drop_drop, H8; by rewrite drop_app_length').
  assert (drop snapshotHdrSz
            (snapshotMagic ++ le_put 8 (i mod 2 ^ 64) ++ le_put 8 (t mod 2 ^ 64) ++ data)
          = data)%list as H24
    by (change snapshotHdrSz with (16 + 8)%nat; rewrite <- drop_drop, H16; by rewrite drop_app_length').
  rewrite H8, H16, H24. rewrite !take_app_length' by done.
  by rewrite !int_roundtrip.
Qed.

Context (Hne : filename ≠ snapshotFile) (Htmp : snapshotFile ≠ filename +:+ ".tmp")
        (Htmp' : filename ≠ snapshotFile +:+ ".tmp").

Lemma fSave_spec t v l d d' err : fSave t v l d = (d', err) →
  fLoad d' = match err with Some _ => fLoad d | None => inl (t, v, l) end ∧ fLoadSnapshot d' = fLoadSnapshot d.
Proof.
  unfold fSave. destruct (Marshal _) as [data|e] eqn:Hm; [|by intros [= <- <-]].
  intros [Ht Ho]%atomicWrite_spec. split.
  - unfold fLoad. rewrite Ht. destruct err; [done|].
    rewrite (json_roundtrip _ _ (to_persistent_valid t v l) Hm). cbn. by rewrite decode_log_persistent.
  - unfold fLoadSnapshot. by rewrite Ho.
Qed.

Lemma fSaveSnapshot_spec data i t d d' err : fSaveSnapshot data i t d = (d', err) →
  (in_int i → in_int t → fLoadSnapshot d' = match err with Some _ => fLoadSnapshot d | None => inl (data, i, t) end) ∧
  (is_Some err → fLoadSnapshot d' = fLoadSnapshot d) ∧ fLoad d' = fLoad d.
Proof.
  unfold fSaveSnapshot. intros [Ht Ho]%atomicWrite_spec.
  assert (is_Some err → fLoadSnapshot d' = fLoadSnapshot d) as Hf.
  { intros [e ->]. unfold fLoadSnapshot. by rewrite Ht. }
  split_and!; [|done|].
  - intros Hi Ht'. destruct err; [by apply Hf|]. by apply snapshot_header.
  - unfold fLoad. by rewrite Ho.
Qed.

Lemma file_persister_laws : PersisterLaws Disk.
Proof.
  split; cbn.
  - intros t v l p p' [H _]%fSave_spec. exact H.
  - intros t v l p p' e [H _]%fSave_spec. exact H.
  - intros t v l p p' o [_ H]%fSave_spec. exact H.
  - intros d i t p p' Hi Ht [H _]%fSaveSnapshot_spec. by apply H.
  - intros d i t p p' e (_ & H & _)%fSaveSnapshot_spec. by apply H.
  - intros d i t p p' o (_ & _ & H)%fSaveSnapshot_spec. exact H.
Qed.
End file_persister.

(** [NewFilePersister]: the snapshot lies beside the state file. *)
Definition NewFilePersister (filename : string) : Persister Disk :=
  file_persister filename (Join (Dir filename) "snapshot.bin").

(** ** Properties *)

(** C21: The file-backed persister keeps every promise of the [Persister]
    interface, so that everything proved of a Raft node holds of one that runs on
    files: what is saved is loaded again (the commands through base64, the
    positions of a snapshot through its binary header), a failed write leaves the
    durable state as it was, and state and snapshot do not disturb each other.
    The names must differ, also from each other's temporary file. *)
Theorem file_persister_implements_persister (filename : string) :
  let snapshotFile := Join (Dir filename) "snapshot.bin" in
  filename ≠ snapshotFile → snapshotFile ≠ filename +:+ ".tmp" →
  filename ≠ snapshotFile +:+ ".tmp" →
  @PersisterLaws Disk (NewFilePersister filename).
Proof. intros snapshotFile ? ? ?. by apply file_persister_laws. Qed.

(** C22: A write is atomic: whatever system call fails, and whenever the process
    is killed during the write, the target file holds its old contents or the
    complete new ones, and no file but the target and its temporary file is
    touched; the call reports success exactly when the new contents are in
    place. *)
Theorem write_is_atomic target (data : bytes) (d : Disk) :
  let o := default WriteOk (head (plan d)) in
  let '(d', err) := atomicWrite target data d in
  (∀ fs, fs ∈ atomicWrite_states target data o (files d) →
     (fs !! target = files d !! target ∨ fs !! target = Some data) ∧
     ∀ other, other ≠ target → other ≠ target +:+ ".tmp" → fs !! other = files d !! other) ∧
  match err with
  | None => files d' !! target = Some data
  | Some _ => files d' !! target = files d !! target
  end.
Proof.
  cbv zeta. destruct (atomicWrite target data d) as [d' err] eqn:Hw.
  apply atomicWrite_spec in Hw as [Ht _]. split; [|by destruct err].
  intros fs [[?|[_ ?]] Ho]%atomicWrite_states_spec; auto.
Qed.

(** When writing the temporary file fails, for instance on a full disk, the
    part that was written stays behind under the temporary name. *)
Theorem failed_write_leaves_tmp target (data : bytes) (d : Disk) (n : nat) (rest : list write_outcome) :
  plan d = WriteFails n :: rest →
  let '(d', err) := atomicWrite target data d in
  is_Some err ∧ files d' !! (target +:+ ".tmp") = Some (take n data) ∧
  files d' !! target = files d !! target.
Proof.
  intros Hp. unfold atomicWrite. rewrite Hp, atomicWrite_table. cbn. rewrite last_snoc.
  split_and!; [by eexists| |]; cbn.
  - by rewrite lookup_insert_eq.
  - rewrite lookup_insert_ne; [done|]. apply tmp_differs.
Qed.

(** ** Witnesses *)

Lemma file_persister_implements_persister_witness :
  @PersisterLaws Disk (NewFilePersister "data/1/raft-state.json").
Proof.
  apply (file_persister_implements_persister "data/1/raft-state.json"); vm_compute; congruence.
Defined.

Lemma failed_write_leaves_tmp_witness :
  let '(d', err) := atomicWrite "f" [Byte.x01; Byte.x02] (mkDisk ∅ [WriteFails 1]) in
  is_Some err ∧ files d' !! ("f" +:+ ".tmp") = Some [Byte.x01] ∧ files d' !! "f" = None.
Proof. exact (failed_write_leaves_tmp "f" [Byte.x01; Byte.x02] (mkDisk ∅ [WriteFails 1]) 1 [] eq_refl). Defined.
