(* ===== verification/Node.v ===== *)
(** * One Raft node: state, construction, recovery, timers, apply loop

    [raft/raft.go].  A [Raft] value is the struct guarded by [r.mu]; each
    definition is one critical section of the source or a sequence of them.
    [logger] is not modelled; [cancel] is determined by [ctx].

    - [electionTimer] is [None] until [Start]; then it is stopped or armed with
      a duration.
    - [applyCh] is the content of the channel, oldest message first;
      [commitCh] tells whether the one-slot channel holds a wake-up.
    - [ctx] is [None] until [Start]; [Some b] then says whether it is cancelled.
    - [wg] counts the goroutines added to the wait group.
    - random draws are arguments of the operations that make them. *)

From S2P Require Import Prelude Types Persister.

Inductive timer : Type := Stopped | Armed (d : Z).

(** [conn] and [raftClient] are set and cleared together: [connected]. *)
Record peer : Type := mkPeer {
  p_id : Z;
  p_address : string;
  connected : bool;
  nextIndex : Z;
  matchIndex : Z
}.

(** The goroutines the engine starts with [go]. *)
Inductive goroutine : Type :=
  | GSendRequestVote (peerId term : Z)
  | GSendAppendEntries (peerId term commitIdx : Z)
  | GSendInstallSnapshot (peerId term : Z)
  | GRunHeartbeat
  | GApplyLoop.

Record Config {P : Type} : Type := mkConfig {
  ServerID : Z;
  OwnAddr : string;
  Peers : gmap Z string;
  ElectionTimeoutMin : Z;
  ElectionTimeoutMax : Z;
  HeartbeatInterval : Z;
  cfgSnapshotThreshold : Z;
  cfgPersister : option P       (* None is nil *)
}.
Arguments Config : clear implicits.
Arguments mkConfig {P}.

Record Raft {P : Type} : Type := mkRaft {
  serverId : Z;
  address : string;
  peers : gmap Z peer;
  currentTerm : Z;
  votedFor : Z;
  log : list LogEntry;
  logBase : Z;
  snapshot : bytes;
  snapshotIndex : Z;
  snapshotTerm : Z;
  state : State;
  commitIndex : Z;
  lastApplied : Z;
  leaderId : Z;
  electionTimer : option timer;
  electionTimeoutMin : Z;
  electionTimeoutMax : Z;
  useDeterministicTimeout : bool;
  deterministicTimeout : Z;
  heartbeatInterval : Z;
  votesReceived : Z;
  applyCh : list ApplyMsg;
  commitCh : bool;
  persister : P;
  snapshotThreshold : Z;
  ctx : option bool;
  wg : Z;
  shutdown : bool
}.
Arguments Raft : clear implicits.
Arguments mkRaft {P}.

(** [make(chan ApplyMsg, 100)]. *)
Definition applyCh_cap : Z := 100.

(** A non-blocking send on [applyCh]; [None] when the buffer is full. *)
Definition send_applyCh {P} (msg : ApplyMsg) (r : Raft P) : option (Raft P) :=
  if len (applyCh r) <? applyCh_cap then Some (r <| applyCh := applyCh r ++ [msg] |>)
  else None.

Section node.
Context {P : Type} `{PP : Persister P}.
Implicit Types (r : Raft P) (cfg : Config P).

(** ** Configuration *)

Definition validate cfg : option error :=
  if ServerID cfg <? 0 then Some (Errorf "server_id must be non-negative")
  else if bool_decide (cfgPersister cfg = None) then Some (Errorf "persister is required")
  else if bool_decide (is_Some (Peers cfg !! ServerID cfg))
  then Some (Errorf "peers map must not include self")
  else if ElectionTimeoutMin cfg <=? 0
  then Some (Errorf "election_timeout_min must be positive")
  else if ElectionTimeoutMax cfg <=? 0
  then Some (Errorf "election_timeout_max must be positive")
  else if ElectionTimeoutMax cfg <=? ElectionTimeoutMin cfg
  then Some (Errorf "election_timeout_min must be less than election_timeout_max")
  else if HeartbeatInterval cfg <=? 0
  then Some (Errorf "heartbeat_interval must be positive")
  else None.

(** ** Recovery *)

Definition loadPersistedState r : Raft P * option error :=
  match Load (persister r) with
  | inr e => (r, Some e)
  | inl (term, voted, lg) =>
    let r := r <| currentTerm := term |> <| votedFor := voted |> <| log := lg |> in
    let '(r, hasSnapshot, err) :=
      match LoadSnapshot (persister r) with
      | inl (snapData, snapIdx, snapTerm) =>
        let r := r <| logBase := snapIdx |>
                   <| snapshotIndex := snapIdx |>
                   <| snapshotTerm := snapTerm |>
                   <| snapshot := snapData |> in
        let r := if commitIndex r <? snapshotIndex r
                 then r <| commitIndex := snapshotIndex r |> else r in
        let r := r <| lastApplied := snapshotIndex r |> in
        match send_applyCh (snapshot_msg snapData snapIdx snapTerm) r with
        | Some r => (r, true, None)
        | None => (r, true, Some (Errorf "applyCh full while queueing snapshot rehydration"))
        end
      | inr _ => (r, false, None)
      end in
    match err with
    | Some e => (r, Some e)
    | None =>
      match last (log r) with
      | None => (r, None)
      | Some e =>
        let r := if commitIndex r <? eIndex e then r <| commitIndex := eIndex e |> else r in
        let r := if negb hasSnapshot then r <| lastApplied := commitIndex r |> else r in
        (r, None)
      end
    end
  end.

Definition new_peer (id : Z) (addr : string) : peer := mkPeer id addr false 1 0.

Definition NewRaft cfg : result (Raft P) :=
  match validate cfg, cfgPersister cfg with
  | Some e, _ => Fail (Wrapf "raft config" e)
  | None, None => Panic
  | None, Some p =>
    let r := {|
      serverId := ServerID cfg;
      address := OwnAddr cfg;
      peers := map_imap (λ id addr, Some (new_peer id addr)) (Peers cfg);
      currentTerm := 0;
      votedFor := -1;
      log := [];
      logBase := 0;
      snapshot := [];
      snapshotIndex := 0;
      snapshotTerm := 0;
      state := Follower;
      commitIndex := 0;
      lastApplied := 0;
      leaderId := -1;
      electionTimer := None;
      electionTimeoutMin := ElectionTimeoutMin cfg;
      electionTimeoutMax := ElectionTimeoutMax cfg;
      useDeterministicTimeout := false;
      deterministicTimeout := 0;
      heartbeatInterval := HeartbeatInterval cfg;
      votesReceived := 0;
      applyCh := [];
      commitCh := false;
      persister := p;
      snapshotThreshold := cfgSnapshotThreshold cfg;
      ctx := None;
      wg := 0;
      shutdown := false
    |} in
    Ret (fst (loadPersistedState r))
  end.

(** ** Accessors *)

Definition GetServerId r : Z := serverId r.
Definition GetAddress r : string := address r.
Definition GetPeerCount r : Z := Z.of_nat (size (peers r)).
Definition IsLeader r : bool := state_eqb (state r) Leader.
Definition GetLeaderId r : Z :=
  if state_eqb (state r) Leader then serverId r else leaderId r.
Definition GetApplyCh r : list ApplyMsg := applyCh r.
Definition SnapshotThreshold r : Z := snapshotThreshold r.
Definition raft_State r : State := state r.
Definition CurrentTerm r : Z := currentTerm r.
Definition VotedFor r : Z := votedFor r.
Definition CommitIndex r : Z := commitIndex r.
Definition LastApplied r : Z := lastApplied r.
Definition LogBase r : Z := logBase r.
Definition Log r : list LogEntry := log r.

(** ** Timers

    [rnd] is the value behind one call of [rand.Intn(n)], which is in
    [[0, n)] for the positive [n] that [validate] guarantees. *)

Definition Intn (rnd n : Z) : Z := rnd mod n.

Definition SetDeterministicTimeout (d : Z) r : Raft P :=
  r <| useDeterministicTimeout := true |> <| deterministicTimeout := d |>.

Definition electionTimeoutLocked (rnd : Z) r : Z :=
  if useDeterministicTimeout r then deterministicTimeout r
  else
    let spread := electionTimeoutMax r -! electionTimeoutMin r in
    electionTimeoutMin r +! Intn rnd spread.

Definition resetElectionTimerLocked (rnd : Z) r : Raft P :=
  match electionTimer r with
  | Some _ => r <| electionTimer := Some (Armed (electionTimeoutLocked rnd r)) |>
  | None => r
  end.

(** ** Lifecycle *)

Definition Start (rnd : Z) r : Raft P * list goroutine :=
  match ctx r with
  | Some _ => (r, [])
  | None =>
    let r := r <| ctx := Some false |> in
    let r := r <| electionTimer := Some (Armed (electionTimeoutLocked rnd r)) |> in
    (r <| wg := wg r + 1 |>, [GApplyLoop])
  end.

(** [Shutdown] up to the wait for the goroutines to exit. *)
Definition Shutdown r : Raft P :=
  if shutdown r then r
  else
    let r := r <| shutdown := true |> in
    let r := match ctx r with Some _ => r <| ctx := Some true |> | None => r end in
    let r := match electionTimer r with
             | Some _ => r <| electionTimer := Some Stopped |> | None => r end in
    r <| peers := (λ p, p <| connected := false |>) <$> peers r |>.

(** ** Helpers *)

Definition getLastLogInfoLocked r : Z * Z :=
  match last (log r) with
  | None => (0, 0)
  | Some e => (eIndex e, eTerm e)
  end.

Definition persist r : Raft P * option error :=
  let '(p, err) := Save (currentTerm r) (votedFor r) (log r) (persister r) in
  (r <| persister := p |>, err).

(** [signalCommit] of [raft/replication.go]: a non-blocking send on a
    channel of capacity one. *)
Definition signalCommit r : Raft P := r <| commitCh := true |>.

(** [ensureConnected]: [dialed] is what [grpc.NewClient] answers. *)
Definition ensureConnected (dialed : bool) (p : peer) : peer * option error :=
  if connected p then (p, None)
  else if dialed then (p <| connected := true |>, None)
  else (p, Some (Errorf "dial peer")).

(** ** Apply loop

    An iteration of [applyPendingEntries] has two critical sections around
    the channel send: [apply_take] advances [lastApplied] and copies the
    entry, [apply_undo] runs when the context is cancelled instead of the
    send. *)

Definition apply_take r : Raft P * option ApplyMsg :=
  if commitIndex r <=? lastApplied r then (r, None)
  else
    let r := r <| lastApplied := lastApplied r +! 1 |> in
    let idx := lastApplied r in
    let arrayIdx := idx -! logBase r -! 1 in
    match index (log r) arrayIdx with
    | None => (r <| lastApplied := lastApplied r -! 1 |>, None)
    | Some entry => (r, Some (command_msg (eCommand entry) (eIndex entry)))
    end.

Definition apply_undo r : Raft P := r <| lastApplied := lastApplied r -! 1 |>.

Inductive apply_status : Type :=
  | ApplyDone                     (* returned: nothing left to deliver *)
  | ApplyBlocked (msg : ApplyMsg) (* waiting for room in applyCh *)
  | ApplyFuel.

(** The loop run without interference and without a cancelled context; it
    stops when it returns or when the channel is full. *)
Fixpoint applyPendingEntries (fuel : nat) r : Raft P * apply_status :=
  match fuel with
  | O => (r, ApplyFuel)
  | S fuel =>
    match apply_take r with
    | (r, None) => (r, ApplyDone)
    | (r, Some msg) =>
      match send_applyCh msg r with
      | Some r => applyPendingEntries fuel r
      | None => (r, ApplyBlocked msg)
      end
    end
  end.

(** One wake-up of [applyLoop]: the token of [commitCh] is consumed first. *)
Definition applyLoop_wake (fuel : nat) r : Raft P * apply_status :=
  applyPendingEntries fuel (r <| commitCh := false |>).
End node.

(** ** The well-formedness invariant

    The log slice holds the absolute indices [logBase + 1, logBase + 2, ...]
    ("log[absIndex - logBase - 1]"), the snapshot covers exactly the folded
    prefix, and the apply and commit cursors are ordered.  The bound [2^62]
    keeps every index computation of the code away from overflow. *)

Definition contiguous (base : Z) (l : list LogEntry) : Prop :=
  ∀ i e, index l i = Some e → eIndex e = base + i + 1.

Definition last_index {P} (r : Raft P) : Z := logBase r + len (log r).

(** The entry at an absolute Raft index. *)
Definition entry_at {P} (r : Raft P) (abs : Z) : option LogEntry :=
  index (log r) (abs - logBase r - 1).

Record wf {P} (r : Raft P) : Prop := mkWf {
  wf_contig : contiguous (logBase r) (log r);
  wf_base : 0 ≤ logBase r;
  wf_bound : last_index r < 2 ^ 62;
  wf_snapshot : snapshotIndex r = logBase r;
  wf_applied : logBase r ≤ lastApplied r;
  wf_commit : lastApplied r ≤ commitIndex r;
  wf_commit_bound : commitIndex r < 2 ^ 62
}.

(** Everything but the log and its cursors. *)
Ltac wf_same H := destruct H; constructor; simpl; auto.

Lemma contiguous_nil (base : Z) : contiguous base [].
Proof. intros i e [? ?]%index_Some_range. rewrite len_nil in *. lia. Qed.

Lemma contiguous_app (base : Z) (l k : list LogEntry) :
  contiguous base (l ++ k) ↔ contiguous base l ∧ contiguous (base + len l) k.
Proof.
  split.
  - intros H. split; intros i e Hi; pose proof (index_Some_range _ _ _ Hi) as Hr.
    + apply H. rewrite index_app_l by lia. done.
    + rewrite (H (len l + i) e); [lia|].
      rewrite index_app_r by lia. by replace (len l + i - len l) with i by lia.
  - intros [Hl Hk] i e Hi. destruct (Z.lt_ge_cases i (len l)).
    + rewrite index_app_l in Hi by lia. by apply Hl.
    + rewrite index_app_r in Hi by lia. rewrite (Hk _ _ Hi). lia.
Qed.

Lemma contiguous_singleton (base : Z) (e : LogEntry) :
  contiguous base [e] ↔ eIndex e = base + 1.
Proof.
  split.
  - intros H. rewrite (H 0 e); [lia|done].
  - intros He i e' Hi. pose proof (index_Some_range _ _ _ Hi) as Hr.
    unfold len in Hr. simpl in Hr. assert (i = 0) as -> by lia.
    compute in Hi. simplify_eq. lia.
Qed.

Lemma contiguous_take (base : Z) (l : list LogEntry) (n : nat) :
  contiguous base l → contiguous base (take n l).
Proof. rewrite <- (take_drop n l) at 1. by intros [? ?]%contiguous_app. Qed.

Lemma contiguous_drop (base : Z) (l : list LogEntry) (n : nat) :
  contiguous base l → Z.of_nat n ≤ len l → contiguous (base + Z.of_nat n) (drop n l).
Proof.
  intros H Hn. rewrite <- (take_drop n l) in H. apply contiguous_app in H as [_ H].
  by rewrite len_take in H.
Qed.

#[export] Hint Resolve contiguous_nil contiguous_take contiguous_drop : distribkv.

Lemma contiguous_cons (base : Z) (e : LogEntry) (l : list LogEntry) :
  contiguous base (e :: l) ↔ eIndex e = base + 1 ∧ contiguous (base + 1) l.
Proof. rewrite <- contiguous_singleton. apply (contiguous_app base [e] l). Qed.

Lemma contiguous_filter_all (base lo : Z) (l : list LogEntry) :
  contiguous base l → lo ≤ base → filter (λ e, lo < eIndex e) l = l.
Proof.
  revert base. induction l as [|e l IH]; intros base; [done|].
  intros [He H]%contiguous_cons ?. rewrite filter_cons_True by lia.
  f_equal. apply (IH (base + 1)); [done|lia].
Qed.

(** A filter on the index keeps exactly a suffix of a contiguous log. *)
Lemma contiguous_filter (base lo : Z) (l : list LogEntry) :
  contiguous base l → base ≤ lo →
  filter (λ e, lo < eIndex e) l = drop (Z.to_nat (lo - base)) l.
Proof.
  revert base. induction l as [|e l IH]; intros base; [by rewrite drop_nil|].
  intros [He H]%contiguous_cons Hlo. destruct (Z.eq_dec lo base) as [->|Hne].
  - rewrite Z.sub_diag. rewrite filter_cons_True by lia. simpl. f_equal.
    apply (contiguous_filter_all (base + 1)); [done|lia].
  - replace (Z.to_nat (lo - base)) with (S (Z.to_nat (lo - (base + 1)))) by lia. simpl.
    rewrite filter_cons_False by lia. apply IH; [done|lia].
Qed.

Section node_facts.
Context {P : Type} `{PP : Persister P}.
Implicit Types (r : Raft P) (cfg : Config P).

Lemma entry_at_Some r abs : is_Some (entry_at r abs) ↔ logBase r < abs ≤ last_index r.
Proof.
  unfold entry_at, last_index. split.
  - intros [e ?%index_Some_range]. lia.
  - intros ?. apply index_is_Some. lia.
Qed.

Lemma last_log_index r e : contiguous (logBase r) (log r) → last (log r) = Some e →
  eIndex e = last_index r.
Proof.
  rewrite index_last. unfold last_index. intros Hc He. rewrite (Hc _ _ He). lia.
Qed.

(** *** Configuration and timers *)

Lemma persister_id r : r <| persister := persister r |> = r.
Proof. by destruct r. Qed.

Lemma persist_inv r r' o : persist r = (r', o) →
  ∃ p, r' = r <| persister := p |> ∧
       Save (currentTerm r) (votedFor r) (log r) (persister r) = (p, o).
Proof. unfold persist. destruct (Save _ _ _ _). intros; simplify_eq; eauto. Qed.

Lemma resetElectionTimerLocked_inv rnd r :
  ∃ t, resetElectionTimerLocked rnd r = r <| electionTimer := t |>.
Proof.
  unfold resetElectionTimerLocked. destruct (electionTimer r) eqn:?; [by eexists|].
  exists None. by destruct r; simplify_eq/=.
Qed.

Lemma send_applyCh_inv msg r r' : send_applyCh msg r = Some r' →
  r' = r <| applyCh := applyCh r ++ [msg] |>.
Proof. unfold send_applyCh. branch; intros; by simplify_eq. Qed.

Lemma ensureConnected_inv dialed (p p' : peer) o : ensureConnected dialed p = (p', o) →
  p' = p <| connected := connected p' |>.
Proof. unfold ensureConnected. destruct p. repeat branch; intros; by simplify_eq/=. Qed.

Lemma validate_None cfg :
  validate cfg = None ↔
    0 ≤ ServerID cfg ∧ is_Some (cfgPersister cfg) ∧ Peers cfg !! ServerID cfg = None ∧
    0 < ElectionTimeoutMin cfg < ElectionTimeoutMax cfg ∧ 0 < HeartbeatInterval cfg.
Proof.
  unfold validate. split.
  - repeat branch; intros; simplify_eq.
    repeat split; try lia; [by apply not_eq_None_Some|by apply eq_None_not_Some].
  - intros (?&[p Hp]&Hs&?&?). rewrite Hp, Hs.
    rewrite (bool_decide_eq_false_2 (Some p = None)) by done.
    rewrite (bool_decide_eq_false_2 (is_Some None)) by apply is_Some_None.
    repeat (branch; [lia|]). done.
Qed.

(** What construction fixes and recovery does not touch. *)
Record fresh_like cfg r : Prop := mkFresh {
  fl_id : serverId r = ServerID cfg;
  fl_peers : peers r = map_imap (λ id addr, Some (new_peer id addr)) (Peers cfg);
  fl_state : state r = Follower;
  fl_leader : leaderId r = -1;
  fl_votes : votesReceived r = 0;
  fl_min : electionTimeoutMin r = ElectionTimeoutMin cfg;
  fl_max : electionTimeoutMax r = ElectionTimeoutMax cfg;
  fl_det : useDeterministicTimeout r = false;
  fl_timer : electionTimer r = None;
  fl_ctx : ctx r = None;
  fl_shutdown : shutdown r = false
}.

Lemma loadPersistedState_fresh cfg r :
  fresh_like cfg r → fresh_like cfg (fst (loadPersistedState r)).
Proof.
  intros H. unfold loadPersistedState, send_applyCh.
  destruct (Load _) as [[[t v] l]|e]; [|done]. cbn -[last].
  destruct (LoadSnapshot _) as [[[d i] st]|e]; cbn -[last];
    repeat first [branch; cbn -[last] | case_match; cbn -[last]];
    simplify_eq/=; destruct H; by constructor.
Qed.

Lemma NewRaft_Ret cfg r : NewRaft cfg = Ret r → validate cfg = None ∧ fresh_like cfg r.
Proof.
  unfold NewRaft. destruct (validate cfg); [done|].
  destruct (cfgPersister cfg); [|done]. intros [= <-]. split; [done|].
  by apply loadPersistedState_fresh.
Qed.

(** *** Recovery *)

Lemma NewRaft_Load cfg p : validate cfg = None → cfgPersister cfg = Some p →
  ∃ r0, NewRaft cfg = Ret (fst (loadPersistedState r0)) ∧ persister r0 = p ∧
    logBase r0 = 0 ∧ commitIndex r0 = 0 ∧ lastApplied r0 = 0 ∧ snapshotIndex r0 = 0 ∧
    applyCh r0 = [] ∧ log r0 = [] ∧ currentTerm r0 = 0 ∧ votedFor r0 = -1.
Proof. intros Hv Hp. unfold NewRaft. rewrite Hv, Hp. eauto 20. Qed.

(** Recovery restores the durable term and vote, or keeps the defaults when
    nothing is stored. *)
Lemma loadPersistedState_vote r :
  (currentTerm (fst (loadPersistedState r)), votedFor (fst (loadPersistedState r))) =
  match Load (persister r) with
  | inl (t, v, _) => (t, v) | inr _ => (currentTerm r, votedFor r) end.
Proof.
  unfold loadPersistedState, send_applyCh.
  destruct (Load _) as [[[t v] l]|e]; [|done]. cbn -[last].
  destruct (LoadSnapshot _) as [[[d i] st]|e]; cbn -[last];
    repeat first [branch; cbn -[last] | case_match; cbn -[last]]; by simplify_eq/=.
Qed.

(** Recovery from a raft state and a snapshot that fit together. *)
Lemma loadPersistedState_snapshot r t v l d i st :
  Load (persister r) = inl (t, v, l) → LoadSnapshot (persister r) = inl (d, i, st) →
  contiguous i l → 0 ≤ i → commitIndex r = 0 → applyCh r = [] →
  let '(r', err) := loadPersistedState r in
  err = None ∧ currentTerm r' = t ∧ votedFor r' = v ∧ log r' = l ∧ logBase r' = i ∧
  snapshot r' = d ∧ snapshotIndex r' = i ∧ snapshotTerm r' = st ∧ lastApplied r' = i ∧
  commitIndex r' = last_index r' ∧ applyCh r' = [snapshot_msg d i st].
Proof.
  intros HL HS Hc Hi Hci Hch. unfold loadPersistedState, send_applyCh. rewrite HL.
  cbn -[last]. rewrite HS. cbn -[last]. rewrite Hci.
  destruct (Z.ltb_spec 0 i); cbn -[last]; rewrite Hch;
    change (len (@nil ApplyMsg) <? applyCh_cap) with true; cbn -[last].
  all: destruct (last l) as [e|] eqn:Hl; cbn -[last].
  1, 3: rewrite index_last in Hl; pose proof (index_Some_range _ _ _ Hl);
    rewrite (Hc _ _ Hl), ?Hci; branch; unfold last_index; cbn; split_and!; auto; lia.
  all: apply last_None in Hl as ->; unfold last_index; cbn; rewrite len_nil;
    split_and!; auto; lia.
Qed.

(** Recovery without a (readable) snapshot. *)
Lemma loadPersistedState_plain r t v l e :
  Load (persister r) = inl (t, v, l) → LoadSnapshot (persister r) = inr e →
  contiguous 0 l → commitIndex r = 0 → lastApplied r = 0 → logBase r = 0 →
  let '(r', err) := loadPersistedState r in
  err = None ∧ currentTerm r' = t ∧ votedFor r' = v ∧ log r' = l ∧ logBase r' = 0 ∧
  lastApplied r' = len l ∧ commitIndex r' = len l ∧ applyCh r' = applyCh r.
Proof.
  intros HL HS Hc Hci Hla Hlb. unfold loadPersistedState. rewrite HL. cbn -[last].
  rewrite HS. cbn -[last]. destruct (last l) as [x|] eqn:Hl; cbn -[last].
  - rewrite index_last in Hl. pose proof (index_Some_range _ _ _ Hl).
    rewrite (Hc _ _ Hl), Hci. branch; cbn; split_and!; auto; lia.
  - by apply last_None in Hl as ->.
Qed.

Lemma loadPersistedState_keeps_snapshot r e : LoadSnapshot (persister r) = inr e →
  snapshotIndex (fst (loadPersistedState r)) = snapshotIndex r.
Proof.
  intros HS. unfold loadPersistedState. destruct (Load _) as [[[t v] l]|e']; [|done].
  cbn -[last]. rewrite HS. cbn -[last].
  destruct (last l); cbn -[last]; [|done]. by branch.
Qed.

Lemma loadPersistedState_log r t v l e :
  Load (persister r) = inl (t, v, l) → LoadSnapshot (persister r) = inr e →
  log (fst (loadPersistedState r)) = l ∧ logBase (fst (loadPersistedState r)) = logBase r.
Proof.
  intros HL HS. unfold loadPersistedState. rewrite HL. cbn -[last]. rewrite HS. cbn -[last].
  destruct (last l); cbn -[last]; [|done]. by branch.
Qed.

(** *** Apply loop *)

(** The highest index that is committed and present in the log. *)
Definition deliverable r : Z := Z.min (commitIndex r) (last_index r).

(** The messages for the entries in [(lastApplied, deliverable]]. *)
Definition pending_msgs r : list ApplyMsg :=
  (λ e, command_msg (eCommand e) (eIndex e)) <$>
    take (Z.to_nat (deliverable r - lastApplied r))
      (drop (Z.to_nat (lastApplied r - logBase r)) (log r)).

Lemma apply_take_None r : wf r → deliverable r ≤ lastApplied r → apply_take r = (r, None).
Proof.
  intros [] Hd. unfold deliverable, last_index in *. unfold apply_take. branch; [done|].
  cbn. unwrap. rewrite index_None by lia.
  replace (lastApplied r + 1 - 1) with (lastApplied r) by lia.
  by destruct r.
Qed.

Lemma apply_take_Some r : wf r → lastApplied r < deliverable r →
  ∃ e, entry_at r (lastApplied r + 1) = Some e ∧
    apply_take r = (r <| lastApplied := lastApplied r + 1 |>,
                    Some (command_msg (eCommand e) (eIndex e))).
Proof.
  intros [] Hd. unfold deliverable, last_index in *.
  destruct (proj2 (entry_at_Some r (lastApplied r + 1))) as [e He];
    [unfold last_index; lia|].
  exists e. split; [done|]. unfold apply_take. branch; [lia|]. cbn. unwrap.
  unfold entry_at in He. by rewrite He.
Qed.

Lemma pending_msgs_cons r e : wf r → lastApplied r < deliverable r →
  entry_at r (lastApplied r + 1) = Some e →
  pending_msgs r =
    command_msg (eCommand e) (eIndex e) ::
    pending_msgs (r <| lastApplied := lastApplied r + 1 |>).
Proof.
  intros [] Hd He. unfold pending_msgs, entry_at in *.
  replace (lastApplied r + 1 - logBase r - 1) with (lastApplied r - logBase r) in He by lia.
  rewrite index_lookup in He by lia.
  rewrite (drop_S _ _ _ He).
  replace (Z.to_nat (deliverable r - lastApplied r))
    with (S (Z.to_nat (deliverable r - (lastApplied r + 1)))) by lia.
  cbn. unfold deliverable, last_index. cbn.
  replace (Z.to_nat (lastApplied r + 1 - logBase r))
    with (S (Z.to_nat (lastApplied r - logBase r))) by lia. done.
Qed.

Lemma pending_msgs_index r k : wf r → lastApplied r < k ≤ deliverable r →
  ∃ e, entry_at r k = Some e ∧
    index (pending_msgs r) (k - lastApplied r - 1) = Some (command_msg (eCommand e) k).
Proof.
  intros [] Hk. unfold deliverable, last_index in Hk.
  destruct (proj2 (entry_at_Some r k)) as [e He]; [unfold last_index; lia|].
  exists e. split; [done|]. unfold entry_at in He.
  assert (eIndex e = k) as Hek by (rewrite (wf_contig0 _ _ He); lia).
  unfold pending_msgs. rewrite index_lookup, list_lookup_fmap by lia.
  rewrite lookup_take_lt by (unfold deliverable, last_index; lia).
  rewrite lookup_drop. rewrite index_lookup in He by lia.
  replace (Z.to_nat (lastApplied r - logBase r) + Z.to_nat (k - lastApplied r - 1))%nat
    with (Z.to_nat (k - logBase r - 1)) by lia.
  rewrite He. cbn. by rewrite Hek.
Qed.

Lemma wf_take r : wf r → lastApplied r < deliverable r →
  wf (r <| lastApplied := lastApplied r + 1 |>).
Proof. intros [] ?. unfold deliverable, last_index in *. split; cbn; auto; lia. Qed.

Lemma wf_applyCh r ch : wf r → wf (r <| applyCh := ch |>).
Proof. intros []; by split. Qed.

Lemma applyPendingEntries_spec fuel r : wf r →
  Z.max 0 (deliverable r - lastApplied r) < Z.of_nat fuel →
  len (applyCh r) + Z.max 0 (deliverable r - lastApplied r) ≤ applyCh_cap →
  applyPendingEntries fuel r =
    (r <| lastApplied := Z.max (lastApplied r) (deliverable r) |>
       <| applyCh := applyCh r ++ pending_msgs r |>, ApplyDone).
Proof.
  revert r. induction fuel as [|fuel IH]; intros r Hwf Hf Hcap; [lia|].
  cbn [applyPendingEntries]. destruct (Z.le_gt_cases (deliverable r) (lastApplied r)).
  - rewrite apply_take_None by done. unfold pending_msgs.
    replace (Z.to_nat (deliverable r - lastApplied r)) with 0%nat by lia.
    cbn. rewrite Z.max_l, app_nil_r by lia. by destruct r.
  - destruct (apply_take_Some r) as (e & He & ->); [done|lia|].
    unfold send_applyCh. cbn.
    destruct (Z.ltb_spec (len (applyCh r)) applyCh_cap); [|lia].
    rewrite IH; cbn.
    + unfold deliverable, last_index in *; cbn.
      rewrite (pending_msgs_cons r e) by (auto; unfold deliverable, last_index; lia).
      rewrite <- (assoc_L (++)). rewrite !Z.max_r by lia. done.
    + by apply wf_applyCh, wf_take.
    + unfold deliverable, last_index in *; cbn. lia.
    + unfold deliverable, last_index in *; cbn. rewrite len_app. unfold len at 2. cbn. lia.
Qed.

Lemma Start_inv rnd r : ∃ c t g, fst (Start rnd r) = r <| ctx := c |> <| electionTimer := t |> <| wg := g |>.
Proof.
  unfold Start. destruct (ctx r) eqn:Hc; cbn; [|by eexists _, _, _].
  exists (ctx r), (electionTimer r), (wg r). by destruct r.
Qed.
End node_facts.

(** Names the state a call of [persist], of the timer or of the apply channel
    leaves behind, and replaces it by its update of the state before. *)
Ltac node_inv :=
  repeat match goal with
  | H : persist _ = (_, _) |- _ => apply persist_inv in H as (? & -> & ?)
  | H : send_applyCh _ _ = Some _ |- _ => apply send_applyCh_inv in H as ->
  | |- context [resetElectionTimerLocked ?rnd ?r] =>
      let t := fresh "t" in let E := fresh "E" in
      destruct (resetElectionTimerLocked_inv rnd r) as [t E]; rewrite E; clear E
  end.


(** ** Properties *)

Section node_properties.
Context {P : Type} `{PL : PersisterLaws P}.
Implicit Types (r : Raft P) (cfg : Config P).

Lemma recovered_wf r i l : contiguous i l → 0 ≤ i → i + len l < 2 ^ 62 →
  log r = l → logBase r = i → snapshotIndex r = i → i ≤ lastApplied r ≤ commitIndex r →
  commitIndex r = i + len l → wf r.
Proof.
  intros Hc Hi Hb Hl Hlb Hs Ha Hci. split; unfold last_index; rewrite ?Hl, ?Hlb; auto; lia.
Qed.

(** C20: A node that saved its raft state and a snapshot that ends where its
    log begins comes back from a restart with its term, its vote, its log and
    its snapshot, well formed, with the snapshot as the first message for the
    state machine.  It takes its whole log as committed. *)
Theorem recovery_with_snapshot cfg (p p1 p2 : P) (t v i st : Z) (l : list LogEntry) (d : bytes) :
  validate (cfg <| cfgPersister := Some p2 |>) = None →
  Save t v l p = (p1, None) → SaveSnapshot d i st p1 = (p2, None) →
  contiguous i l → 0 ≤ i → i + len l < 2 ^ 62 → in_int st →
  ∃ r, NewRaft (cfg <| cfgPersister := Some p2 |>) = Ret r ∧
    currentTerm r = t ∧ votedFor r = v ∧ log r = l ∧ logBase r = i ∧
    snapshot r = d ∧ snapshotIndex r = i ∧ snapshotTerm r = st ∧
    applyCh r = [snapshot_msg d i st] ∧ lastApplied r = i ∧
    commitIndex r = last_index r ∧ state r = Follower ∧ wf r.
Proof.
  intros Hv Hs Hss Hc Hi Hb Hst. pose proof (len_nonneg l).
  destruct (NewRaft_Load _ p2 Hv eq_refl) as
    (r0 & Hr & Hp & Hlb & Hci & Hla & Hsi & Hch & Hl & Ht & Hvt).
  pose proof (NewRaft_Ret _ _ Hr) as [_ Hfl].
  pose proof (loadPersistedState_snapshot r0 t v l d i st) as HR. rewrite Hp in HR.
  destruct (loadPersistedState r0) as [r' err]. cbn [fst] in *.
  destruct HR as (? & ? & ? & ? & ? & ? & ? & ? & ? & Hcm & ?); auto.
  - rewrite (snapshot_keeps_state _ _ _ _ _ _ Hss). by eapply save_load.
  - eapply snapshot_load; [| |done]; [unfold in_int; lia|done].
  - exists r'. split_and!; auto; [apply Hfl|].
    apply (recovered_wf r' i l); auto; rewrite Hcm; unfold last_index; lia || (subst; lia).
Qed.

(** A node that saved its raft state and never took a snapshot comes back
    with its term, vote and log, well formed.  Its whole log counts as
    committed and as applied, so that nothing is delivered again. *)
Theorem recovery_without_snapshot cfg (p p1 : P) (t v : Z) (l : list LogEntry) (e : error) :
  validate (cfg <| cfgPersister := Some p1 |>) = None →
  Save t v l p = (p1, None) → LoadSnapshot p = inr e →
  contiguous 0 l → len l < 2 ^ 62 →
  ∃ r, NewRaft (cfg <| cfgPersister := Some p1 |>) = Ret r ∧
    currentTerm r = t ∧ votedFor r = v ∧ log r = l ∧ logBase r = 0 ∧
    applyCh r = [] ∧ lastApplied r = len l ∧ commitIndex r = len l ∧
    state r = Follower ∧ wf r.
Proof.
  intros Hv Hs Hns Hc Hb. pose proof (len_nonneg l).
  destruct (NewRaft_Load _ p1 Hv eq_refl) as
    (r0 & Hr & Hp & Hlb & Hci & Hla & Hsi & Hch & Hl & Ht & Hvt).
  pose proof (NewRaft_Ret _ _ Hr) as [_ Hfl].
  pose proof (loadPersistedState_plain r0 t v l e) as HR. rewrite Hp, Hch in HR.
  pose proof (loadPersistedState_keeps_snapshot r0 e) as Hk. rewrite Hp in Hk.
  assert (LoadSnapshot p1 = inr e) as HLS
    by (by rewrite (save_keeps_snapshot _ _ _ _ _ _ Hs)).
  destruct (loadPersistedState r0) as [r' err]. cbn [fst] in *.
  destruct HR as (? & ? & ? & ? & ? & ? & ? & ?); auto; [by eapply save_load|].
  exists r'. split_and!; auto; [apply Hfl|].
  apply (recovered_wf r' 0 l); auto; try lia. rewrite Hk; auto.
Qed.

(** C19: A wake-up of the apply loop hands the state machine exactly the
    committed entries above [lastApplied] that the log holds, in index order,
    each once, and moves [lastApplied] to the last of them, provided the
    channel has room; the fuel is the number of those entries plus one. *)
Theorem apply_loop_delivers r (fuel : nat) : wf r →
  Z.max 0 (deliverable r - lastApplied r) < Z.of_nat fuel →
  len (applyCh r) + Z.max 0 (deliverable r - lastApplied r) ≤ applyCh_cap →
  let '(r', st) := applyLoop_wake fuel r in
  st = ApplyDone ∧ applyCh r' = applyCh r ++ pending_msgs r ∧
  lastApplied r' = Z.max (lastApplied r) (deliverable r) ∧
  (∀ k, lastApplied r < k ≤ deliverable r →
     ∃ e, entry_at r k = Some e ∧
       index (pending_msgs r) (k - lastApplied r - 1) = Some (command_msg (eCommand e) k)) ∧
  log r' = log r ∧ commitIndex r' = commitIndex r ∧ wf r'.
Proof.
  intros Hwf Hf Hcap. unfold applyLoop_wake.
  assert (wf (r <| commitCh := false |>)) as Hwf' by by wf_same Hwf.
  rewrite applyPendingEntries_spec; [|done..]. cbn.
  split_and!; auto.
  - intros k Hk. by apply pending_msgs_index.
  - destruct Hwf. unfold deliverable, last_index in *. cbn. split; unfold last_index; cbn; auto; lia.
Qed.

(** The duration the election timer is armed with lies in the configured
    interval [[min, max)], for every configuration [NewRaft] accepts and every
    random draw. *)
Lemma Start_timer cfg r (rnd : Z) :
  NewRaft cfg = Ret r → ElectionTimeoutMax cfg < 2 ^ 63 →
  ∃ d, electionTimer (fst (Start rnd r)) = Some (Armed d) ∧
    ElectionTimeoutMin cfg ≤ d < ElectionTimeoutMax cfg.
Proof.
  intros Hr Hmax. destruct (NewRaft_Ret _ _ Hr) as [(_ & _ & _ & Ht & _)%validate_None []].
  unfold Start. rewrite fl_ctx0. cbn. eexists. split; [done|].
  unfold electionTimeoutLocked, Intn. cbn. rewrite fl_det0, fl_min0, fl_max0.
  pose proof (Z.mod_pos_bound rnd (ElectionTimeoutMax cfg - ElectionTimeoutMin cfg)).
  rewrite (i64_id (_ - _)) by lia. rewrite i64_id by lia. lia.
Qed.
End node_properties.

(** ** Witnesses: concrete nodes on the in-memory persister *)

Module NodeWitness.
Import MemoryPersister.

(** A node of a three-node cluster. *)
Definition cfg : Config MemoryPersister :=
  mkConfig 1 "localhost:0" {[2 := "localhost:1"%string; 3 := "localhost:2"%string]}
    150 300 50 1000 (Some NewMemoryPersister).

Definition entry (i t : Z) : LogEntry := mkLogEntry i t [Byte.x01].

Definition saved (t v : Z) (l : list LogEntry) : MemoryPersister :=
  fst (mSave t v l NewMemoryPersister).

(** A leader of term 2 with the given log and positions. *)
Definition leader (lg : list LogEntry) (base applied commit : Z) : Raft MemoryPersister := {|
  serverId := 1; address := "localhost:0";
  peers := {[2 := mkPeer 2 "localhost:1" true 3 0; 3 := mkPeer 3 "localhost:2" true 5 4]};
  currentTerm := 2; votedFor := 1; log := lg; logBase := base;
  snapshot := [Byte.x00]; snapshotIndex := base; snapshotTerm := 1; state := Leader;
  commitIndex := commit; lastApplied := applied; leaderId := 1; electionTimer := Some Stopped;
  electionTimeoutMin := 150; electionTimeoutMax := 300; useDeterministicTimeout := false;
  deterministicTimeout := 0; heartbeatInterval := 50; votesReceived := 2; applyCh := [];
  commitCh := true; persister := saved 2 1 lg;
  snapshotThreshold := 1000; ctx := Some false; wg := 2; shutdown := false |}.

(** Entries [3, 4, 5] on top of a snapshot up to index 2; 4 is committed, 3
    applied. *)
Definition node : Raft MemoryPersister :=
  leader [entry 3 1; entry 4 2; entry 5 2] 2 3 4.

Lemma node_contiguous (base : Z) (l : list LogEntry) :
  map eIndex l = (λ i, base + Z.of_nat i + 1) <$> seq 0 (length l) → contiguous base l.
Proof.
  intros Hl i e Hi. pose proof (index_Some_range _ _ _ Hi) as Hr.
  rewrite index_lookup in Hi by lia.
  assert (map eIndex l !! Z.to_nat i = Some (eIndex e)) as H
    by (rewrite list_lookup_fmap, Hi; done).
  rewrite Hl, list_lookup_fmap in H.
  rewrite lookup_seq_lt in H by (unfold len in Hr; lia). cbn in H. simplify_eq. lia.
Qed.

Lemma node_wf : wf node.
Proof.
  split; [apply node_contiguous; vm_compute; reflexivity|..]; vm_compute; congruence.
Qed.
End NodeWitness.

Lemma recovery_with_snapshot_witness :
  let p1 := NodeWitness.saved 2 1 [NodeWitness.entry 5 2] in
  ∃ r, NewRaft (NodeWitness.cfg <| cfgPersister :=
         Some (fst (MemoryPersister.mSaveSnapshot [Byte.x00] 4 1 p1)) |>) = Ret r ∧
    currentTerm r = 2 ∧ logBase r = 4 ∧ commitIndex r = last_index r.
Proof.
  destruct (recovery_with_snapshot NodeWitness.cfg MemoryPersister.NewMemoryPersister
    (NodeWitness.saved 2 1 [NodeWitness.entry 5 2])
    (fst (MemoryPersister.mSaveSnapshot [Byte.x00] 4 1 (NodeWitness.saved 2 1 [NodeWitness.entry 5 2])))
    2 1 4 1 [NodeWitness.entry 5 2] [Byte.x00])
    as (r & Hr & Ht & _ & _ & Hb & _ & _ & _ & _ & _ & Hc & _);
    [reflexivity|reflexivity|reflexivity| |lia|unfold len; cbn; lia|unfold in_int; lia|].
  - apply NodeWitness.node_contiguous. reflexivity.
  - exists r. auto.
Defined.

Lemma recovery_without_snapshot_witness :
  ∃ r, NewRaft (NodeWitness.cfg <| cfgPersister :=
         Some (NodeWitness.saved 2 1 [NodeWitness.entry 1 2]) |>) = Ret r ∧
    currentTerm r = 2 ∧ votedFor r = 1 ∧ commitIndex r = 1.
Proof.
  destruct (recovery_without_snapshot NodeWitness.cfg MemoryPersister.NewMemoryPersister
    (NodeWitness.saved 2 1 [NodeWitness.entry 1 2]) 2 1 [NodeWitness.entry 1 2] ErrNoSnapshot)
    as (r & Hr & Ht & Hv & _ & _ & _ & _ & Hc & _);
    [reflexivity|reflexivity|reflexivity| |unfold len; cbn; lia|].
  - apply NodeWitness.node_contiguous. reflexivity.
  - exists r. auto.
Defined.

Lemma apply_loop_delivers_witness :
  let '(r', st) := applyLoop_wake 2 NodeWitness.node in
  st = ApplyDone ∧ applyCh r' = [command_msg [Byte.x01] 4] ∧ lastApplied r' = 4.
Proof.
  pose proof (apply_loop_delivers NodeWitness.node 2 NodeWitness.node_wf) as H.
  destruct (applyLoop_wake 2 NodeWitness.node) as [r' st].
  destruct H as (Hs & Hch & Hla & _); [vm_compute; reflexivity|vm_compute; congruence|].
  split; [exact Hs|]. split; [rewrite Hch|rewrite Hla]; vm_compute; reflexivity.
Defined.
