(* ===== verification/Election.v ===== *)
(** * Elections

    [raft/election.go]: the vote handler, the candidate, the leader's start and
    its heartbeats.  A method that releases [r.mu] in the middle (around an RPC,
    or before calling [becomeLeader]) is one definition per critical section;
    [Cluster] interleaves them. *)

From S2P Require Import Prelude Types Persister Node.

Section election.
Context {P : Type} `{PP : Persister P}.
Implicit Types r : Raft P.

(** Ids of the peers, in the order the map yields them. *)
Definition peer_ids r : list Z := fst <$> map_to_list (peers r).

Definition stepDown (newTerm : Z) r : Raft P :=
  r <| currentTerm := newTerm |>
    <| votedFor := -1 |>
    <| state := Follower |>
    <| leaderId := -1 |>
    <| votesReceived := 0 |>.

(** [becomeLeader] with [startHeartbeatLocked], which adds the heartbeat
    goroutine to the wait group and starts it. *)
Definition becomeLeader r : Raft P * list goroutine :=
  if (negb (state_eqb (state r) Candidate) || shutdown r)%bool then (r, [])
  else
    let r := r <| state := Leader |> <| leaderId := serverId r |> in
    let lastIdx := match last (log r) with Some e => eIndex e | None => 0 end in
    let r := r <| peers :=
      (λ p, p <| nextIndex := lastIdx +! 1 |> <| matchIndex := 0 |>) <$> peers r |> in
    let r := match electionTimer r with
             | Some _ => r <| electionTimer := Some Stopped |> | None => r end in
    (r <| wg := wg r + 1 |>, [GRunHeartbeat]).

(** First critical section of [becomeCandidate]: the new candidacy, or
    [None] when the method returns there. *)
Definition becomeCandidate_begin r : Raft P * option (Z * list Z) :=
  if shutdown r then (r, None)
  else if state_eqb (state r) Leader then (r, None)
  else
    let r := r <| state := Candidate |>
               <| currentTerm := currentTerm r +! 1 |>
               <| votedFor := serverId r |>
               <| leaderId := -1 |>
               <| votesReceived := 1 |> in
    match persist r with
    | (r, Some _) => (r, None)
    | (r, None) => (r, Some (currentTerm r, peer_ids r))
    end.

(** [becomeCandidate]: the timer callback. *)
Definition becomeCandidate (rnd : Z) r : Raft P * list goroutine :=
  match becomeCandidate_begin r with
  | (r, None) => (r, [])
  | (r, Some (term, ids)) =>
    let r := resetElectionTimerLocked rnd r in
    match ids with
    | [] => becomeLeader r
    | _ => (r, (λ id, GSendRequestVote id term) <$> ids)
    end
  end.

(** [sendRequestVote] up to the RPC: dial the peer lazily, read the last log
    position, build the request.  [None] when the goroutine ends early. *)
Definition sendRequestVote_request (dialed : bool) (peerId term : Z) r
    : Raft P * option RequestVoteRequest :=
  match peers r !! peerId with
  | None => (r, None)
  | Some p =>
    match ensureConnected dialed p with
    | (_, Some _) => (r, None)
    | (p, None) =>
      let r := r <| peers := <[peerId := p]> (peers r) |> in
      let '(lastIdx, lastTerm) := getLastLogInfoLocked r in
      (r, Some (mkRequestVoteRequest term (i32 (serverId r)) lastIdx lastTerm))
    end
  end.

(** [sendRequestVote] after the RPC; the flag says that the goroutine goes on
    to call [becomeLeader], after releasing the lock. *)
Definition sendRequestVote_reply (term : Z) (resp : RequestVoteResponse) r
    : Raft P * bool :=
  if (negb (currentTerm r =? term) || negb (state_eqb (state r) Candidate))%bool
  then (r, false)
  else if currentTerm r <? rvrTerm resp then (stepDown (rvrTerm resp) r, false)
  else if rvrVoteGranted resp then
    let r := r <| votesReceived := votesReceived r +! 1 |> in
    if GetPeerCount r / 2 <? votesReceived r then (r, true) else (r, false)
  else (r, false).

(** The [RequestVote] handler. *)
Definition RequestVote (rnd : Z) (req : RequestVoteRequest) r
    : Raft P * result RequestVoteResponse :=
  let resp := mkRequestVoteResponse (currentTerm r) false in
  if rvTerm req <? currentTerm r then (r, Ret resp)
  else
    let '(r, resp) :=
      if currentTerm r <? rvTerm req then
        (r <| currentTerm := rvTerm req |> <| votedFor := -1 |> <| state := Follower |>,
         mkRequestVoteResponse (rvTerm req) false)
      else (r, resp) in
    let canVote := ((votedFor r =? -1) || (votedFor r =? rvCandidateId req))%bool in
    if canVote then
      let '(lastIdx, lastTerm) := getLastLogInfoLocked r in
      let logOk := ((lastTerm <? rvLastLogTerm req) ||
        ((rvLastLogTerm req =? lastTerm) && (lastIdx <=? rvLastLogIndex req)))%bool in
      if logOk then
        match persist r with
        | (r, Some err) => (r, Fail (Wrapf "persist vote" err))
        | (r, None) =>
          let r := r <| votedFor := rvCandidateId req |> in
          let resp := mkRequestVoteResponse (currentTerm r) true in
          (resetElectionTimerLocked rnd r, Ret resp)
        end
      else (r, Ret resp)
    else (r, Ret resp).

(** [sendHeartbeats]: the goroutines it starts. *)
Definition sendHeartbeats r : list goroutine :=
  if (negb (state_eqb (state r) Leader) || shutdown r)%bool then []
  else (λ id, GSendAppendEntries id (currentTerm r) (commitIndex r)) <$> peer_ids r.

(** [runHeartbeat] up to its loop: it returns at once when [Start] was never
    called, otherwise it sends a first round ([Some]). *)
Definition runHeartbeat_start r : Raft P * option (list goroutine) :=
  match ctx r with
  | None => (r <| wg := wg r - 1 |>, None)
  | Some _ => (r, Some (sendHeartbeats r))
  end.

(** One turn of the loop: [None] when the context is done, a round of
    heartbeats on a tick. *)
Definition runHeartbeat_turn r : Raft P * option (list goroutine) :=
  match ctx r with
  | Some true => (r <| wg := wg r - 1 |>, None)
  | _ => (r, Some (sendHeartbeats r))
  end.
End election.

(** ** Effects on the vote

    [quiet r r']: the call casts and counts no vote.  It leaves the term, the
    vote, the role and the count alone, or it moves to a later term as a
    follower that has not voted. *)

Record quiet {P} (r r' : Raft P) : Prop := mkQuiet {
  quiet_id : serverId r' = serverId r;
  quiet_peers : dom (peers r') = dom (peers r);
  quiet_vote :
    (currentTerm r' = currentTerm r ∧ votedFor r' = votedFor r ∧ state r' = state r ∧
     votesReceived r' = votesReceived r) ∨
    (currentTerm r < currentTerm r' ∧ votedFor r' = -1 ∧ state r' = Follower)
}.

#[export] Instance quiet_refl {P} : Reflexive (@quiet P).
Proof. intros r. split; auto. Qed.

#[export] Instance quiet_trans {P} : Transitive (@quiet P).
Proof.
  intros r1 r2 r3 [Hi Hd Hv] [Hi' Hd' Hv']. split; [congruence..|].
  destruct Hv as [(?&?&?&?)|(?&?&?)], Hv' as [(?&?&?&?)|(?&?&?)];
    [left|right|right|right]; split_and!; lia || congruence.
Qed.

(** Closes a goal [quiet r r'] where [r'] is [r] with fields updated. *)
Ltac quiet_solve :=
  split; cbn; rewrite ?dom_fmap_L, ?dom_insert_L; auto;
  try (left; split_and!; congruence); try (right; split_and!; auto; lia).

Section election_facts.
Context {P : Type} `{PP : Persister P}.
Implicit Types r : Raft P.

Lemma stepDown_quiet (t : Z) r : currentTerm r < t → quiet r (stepDown t r).
Proof. intros ?. quiet_solve. Qed.

Lemma peer_ids_dom r (id : Z) : id ∈ peer_ids r ↔ id ∈ dom (peers r).
Proof.
  unfold peer_ids. rewrite list_elem_of_fmap, elem_of_dom. split.
  - intros ([k p] & -> & ?%elem_of_map_to_list). eauto.
  - intros [p ?]. exists (id, p). by rewrite elem_of_map_to_list.
Qed.

Lemma peer_ids_NoDup r : NoDup (peer_ids r).
Proof. apply NoDup_fst_map_to_list. Qed.

Lemma peer_ids_length r : len (peer_ids r) = GetPeerCount r.
Proof. unfold len, peer_ids, GetPeerCount. by rewrite length_fmap, length_map_to_list. Qed.

Lemma insert_known_peer r id p p' : peers r !! id = Some p →
  dom (<[id := p']> (peers r)) = dom (peers r).
Proof. intros Hp. rewrite dom_insert_L. apply elem_of_dom_2 in Hp.
  apply subseteq_union_1_L, singleton_subseteq_l, Hp. Qed.

Lemma sendRequestVote_request_quiet dialed id t r r' o :
  sendRequestVote_request dialed id t r = (r', o) → quiet r r'.
Proof.
  unfold sendRequestVote_request, getLastLogInfoLocked.
  destruct (peers r !! id) eqn:Hp; [|by intros [= <- <-]].
  destruct (ensureConnected _ _) as [p' [e|]]; [by intros [= <- <-]|].
  case_match; intros [= <- <-].
  all: split; cbn; [done|by eapply insert_known_peer|auto].
Qed.

Lemma sendRequestVote_request_Some dialed id t r r' req :
  sendRequestVote_request dialed id t r = (r', Some req) →
  rvTerm req = t ∧ rvCandidateId req = i32 (serverId r).
Proof.
  unfold sendRequestVote_request, getLastLogInfoLocked.
  destruct (peers r !! id); [|done]. destruct (ensureConnected _ _) as [p' [e|]]; [done|].
  case_match; by intros [= <- <-].
Qed.

Lemma apply_take_quiet r : quiet r (fst (apply_take r)).
Proof. unfold apply_take. repeat case_match; cbn; quiet_solve. Qed.

(** The vote handler either casts no vote, or it casts one in the term of the
    request after a quiet step. *)
Lemma RequestVote_cases rnd req r r' res : RequestVote rnd req r = (r', res) →
  (quiet r r' ∧ ∀ resp, res = Ret resp → rvrVoteGranted resp = false) ∨
  (∃ r1 p t, quiet r r1 ∧
     r' = r1 <| persister := p |> <| votedFor := rvCandidateId req |> <| electionTimer := t |> ∧
     currentTerm r1 = rvTerm req ∧
     (votedFor r1 = -1 ∨ votedFor r1 = rvCandidateId req) ∧
     res = Ret (mkRequestVoteResponse (rvTerm req) true)).
Proof.
  unfold RequestVote. branch; [intros [= <- <-]; left; split; [done|by intros ? [= <-]]|].
  set (r1 := if currentTerm r <? rvTerm req then _ else _).
  assert (quiet r (fst r1) ∧ currentTerm (fst r1) = rvTerm req ∧ rvrVoteGranted (snd r1) = false)
    as (Hq & Ht & Hg).
  { subst r1. branch; cbn; split_and!; auto; try reflexivity; [quiet_solve|lia]. }
  destruct r1 as [r1 resp]. cbn in *.
  destruct (_ || _) eqn:Hcan; [|intros [= <- <-]; left; split; [done|by intros ? [= <-]]].
  destruct (getLastLogInfoLocked r1) as [li lt].
  branch; [|intros [= <- <-]; left; split; [done|by intros ? [= <-]]].
  destruct (persist r1) as [r2 [e|]] eqn:Hp; node_inv; intros; simplify_eq/=.
  - left. split; [|done]. etrans; [done|]. quiet_solve.
  - right. rewrite Ht. bool_props. eexists r1, _, _. split_and!; eauto.
    by destruct Hcan; bool_props; auto.
Qed.
End election_facts.

(** ** Properties *)

Section election_properties.
Context {P : Type} `{PL : PersisterLaws P}.
Implicit Types r : Raft P.

(** The candidate's log is at least as up to date as the voter's. *)
Definition up_to_date (req : RequestVoteRequest) r : Prop :=
  let '(lastIdx, lastTerm) := getLastLogInfoLocked r in
  lastTerm < rvLastLogTerm req ∨
  (rvLastLogTerm req = lastTerm ∧ lastIdx ≤ rvLastLogIndex req).

(** The vote the node holds in the term of the request. *)
Definition vote_in (t : Z) r : Z := if currentTerm r <? t then -1 else votedFor r.

Lemma up_to_date_test req r : let '(lastIdx, lastTerm) := getLastLogInfoLocked r in
  ((lastTerm <? rvLastLogTerm req) ||
   ((rvLastLogTerm req =? lastTerm) && (lastIdx <=? rvLastLogIndex req)))%bool = true ↔
  up_to_date req r.
Proof.
  unfold up_to_date. destruct (getLastLogInfoLocked r) as [li lt].
  rewrite orb_true_iff, andb_true_iff, Z.ltb_lt, Z.eqb_eq, Z.leb_le. done.
Qed.

(** The handler cut after the change of term. *)
Lemma RequestVote_unfold rnd req r : currentTerm r ≤ rvTerm req →
  ∃ r1, r1 = r <| currentTerm := rvTerm req |> <| votedFor := vote_in (rvTerm req) r |>
               <| state := state r1 |> ∧
  RequestVote rnd req r =
    if (((votedFor r1 =? -1) || (votedFor r1 =? rvCandidateId req)) &&
        (let '(li, lt) := getLastLogInfoLocked r in
         (lt <? rvLastLogTerm req) || ((rvLastLogTerm req =? lt) && (li <=? rvLastLogIndex req))))%bool
    then match persist r1 with
         | (r1, Some err) => (r1, Fail (Wrapf "persist vote" err))
         | (r1, None) => (resetElectionTimerLocked rnd (r1 <| votedFor := rvCandidateId req |>),
                          Ret (mkRequestVoteResponse (rvTerm req) true))
         end
    else (r1, Ret (mkRequestVoteResponse (rvTerm req) false)).
Proof.
  intros Hle. unfold RequestVote, vote_in. rewrite (proj2 (Z.ltb_ge (rvTerm req) (currentTerm r))) by done.
  destruct (Z.ltb_spec (currentTerm r) (rvTerm req)) as [Hlt|Hge].
  - exists (r <| currentTerm := rvTerm req |> <| votedFor := -1 |> <| state := Follower |>).
    split; [done|]. unfold getLastLogInfoLocked. cbn -[persist last].
    destruct (last (log r)); branch; try done;
      destruct (persist _) as [r2 [e|]] eqn:Hp; node_inv; done.
  - assert (currentTerm r = rvTerm req) as Heq by lia. exists r.
    split; [rewrite <- Heq; by destruct r|].
    rewrite <- Heq. unfold getLastLogInfoLocked.
    destruct (_ || _); cbn [andb]; [|done].
    destruct (last (log r)); branch; try done;
      destruct (persist _) as [r2 [e|]] eqn:Hp; node_inv; done.
Qed.

(** C13: The vote handler grants its vote exactly when the request's term is not
    behind, the node has no other vote in that term, the candidate's log is at
    least as up to date as its own, and its state could be made durable; then
    it records the vote in the request's term.  A request with an older term
    changes nothing and is refused. *)
Theorem vote_granted_iff rnd (req : RequestVoteRequest) r :
  let '(r', res) := RequestVote rnd req r in
  (res = Ret (mkRequestVoteResponse (rvTerm req) true) ↔
     currentTerm r ≤ rvTerm req ∧
     (vote_in (rvTerm req) r = -1 ∨ vote_in (rvTerm req) r = rvCandidateId req) ∧
     up_to_date req r ∧
     snd (Save (rvTerm req) (vote_in (rvTerm req) r) (log r) (persister r)) = None) ∧
  (res = Ret (mkRequestVoteResponse (rvTerm req) true) →
     votedFor r' = rvCandidateId req ∧ currentTerm r' = rvTerm req ∧ log r' = log r) ∧
  (rvTerm req < currentTerm r →
     r' = r ∧ res = Ret (mkRequestVoteResponse (currentTerm r) false)).
Proof.
  destruct (Z.lt_ge_cases (rvTerm req) (currentTerm r)) as [Hlt|Hge].
  - unfold RequestVote. rewrite (proj2 (Z.ltb_lt _ _)) by done. split_and!; try done.
    split; [done|]. intros [? _]. lia.
  - destruct (RequestVote_unfold rnd req r Hge) as (r1 & Hr1 & ->).
    pose proof (up_to_date_test req r) as Hu.
    destruct (getLastLogInfoLocked r) as [li lt]. cbv beta iota in Hu |- *.
    assert (votedFor r1 = vote_in (rvTerm req) r) as -> by (rewrite Hr1; done).
    destruct ((_ || _) && _)%bool eqn:Hc.
    + apply andb_true_iff in Hc as [Hv Hl%Hu].
      assert (Save (rvTerm req) (vote_in (rvTerm req) r) (log r) (persister r) =
              Save (currentTerm r1) (votedFor r1) (log r1) (persister r1)) as ->
        by (rewrite Hr1; done).
      destruct (persist r1) as [r2 [e|]] eqn:Hp; apply persist_inv in Hp as (p & -> & ->).
      * split_and!; try done; [|lia]. split; [done|]. by intros (_ & _ & _ & ?).
      * node_inv. split_and!; try lia.
        -- split; [|done]. intros _. split_and!; auto.
           apply orb_true_iff in Hv as [Hv|Hv]; apply Z.eqb_eq in Hv; auto.
        -- intros _. rewrite Hr1. done.
    + split_and!; try done; [|lia]. split; [done|]. intros (_ & Hv & Hl%Hu & _).
      rewrite Hl in Hc. rewrite andb_true_r in Hc.
      apply orb_false_iff in Hc as [?%Z.eqb_neq ?%Z.eqb_neq]. tauto.
Qed.

(** A vote given to a candidate for the first time in a term is not the
    vote on disk: the state the handler saved before it answered says that the
    node has not voted in this term. *)
Theorem granted_vote_not_durable rnd (req : RequestVoteRequest) r r' :
  RequestVote rnd req r = (r', Ret (mkRequestVoteResponse (rvTerm req) true)) →
  vote_in (rvTerm req) r = -1 →
  votedFor r' = rvCandidateId req ∧
  Load (persister r') = inl (rvTerm req, -1, log r).
Proof.
  intros HR Hv. destruct (Z.lt_ge_cases (rvTerm req) (currentTerm r)) as [Hlt|Hge].
  { unfold RequestVote in HR. by rewrite (proj2 (Z.ltb_lt _ _)) in HR by done. }
  destruct (RequestVote_unfold rnd req r Hge) as (r1 & Hr1 & Heq). rewrite HR in Heq.
  destruct ((_ || _) && _)%bool; [|done].
  destruct (persist r1) as [r2 [e|]] eqn:Hp; [done|].
  apply persist_inv in Hp as (p & -> & Hs). apply save_load in Hs.
  destruct (resetElectionTimerLocked_inv rnd
    (r1 <| persister := p |> <| votedFor := rvCandidateId req |>)) as [tm Htm].
  rewrite Htm in Heq. injection Heq as ->. split; [done|].
  change (Load p = inl (rvTerm req, -1, log r)). rewrite Hs, Hr1, <- Hv. done.
Qed.

(** When the timer of a running non-leader fires and its state can be made
    durable, it is a candidate of the next term that has voted for itself, both
    in memory and on disk; it counts its own vote, arms the timer again when it
    has one, and asks every peer for a vote in the new term.  Alone in the
    cluster it is leader at once. *)
Theorem candidacy rnd r : shutdown r = false → state r ≠ Leader →
  currentTerm r < max_int → 0 ≤ currentTerm r →
  snd (Save (currentTerm r + 1) (serverId r) (log r) (persister r)) = None →
  let '(r', gs) := becomeCandidate rnd r in
  currentTerm r' = currentTerm r + 1 ∧ votedFor r' = serverId r ∧ votesReceived r' = 1 ∧
  Load (persister r') = inl (currentTerm r + 1, serverId r, log r) ∧ log r' = log r ∧
  (if decide (peers r = ∅) then state r' = Leader ∧ gs = [GRunHeartbeat]
   else state r' = Candidate ∧ leaderId r' = -1 ∧
     (is_Some (electionTimer r) →
        electionTimer r' = Some (Armed (electionTimeoutLocked rnd r))) ∧
     gs = (λ id, GSendRequestVote id (currentTerm r + 1)) <$> peer_ids r).
Proof.
  intros Hsh Hnl Hmax Hmin Hsv. unfold max_int in Hmax.
  unfold becomeCandidate, becomeCandidate_begin. rewrite Hsh.
  rewrite (proj2 (state_eqb_false (state r) Leader)) by done. rewrite i64_id by lia.
  set (r1 := r <| state := Candidate |> <| currentTerm := _ |> <| votedFor := _ |>
               <| leaderId := _ |> <| votesReceived := _ |>).
  destruct (persist r1) as [r2 o] eqn:Hp. apply persist_inv in Hp as (p & -> & Hs).
  change (Save (currentTerm r + 1) (serverId r) (log r) (persister r) = (p, o)) in Hs.
  rewrite Hs in Hsv. cbn in Hsv. subst o. apply save_load in Hs.
  change (peer_ids (r1 <| persister := p |>)) with (peer_ids r).
  pose proof (peer_ids_length r) as Hlen. unfold GetPeerCount in Hlen.
  destruct (decide (peers r = ∅)) as [He|Hne].
  - rewrite He, map_size_empty in Hlen. unfold len in Hlen.
    destruct (peer_ids r); [|simpl in Hlen; lia].
    node_inv. unfold becomeLeader. cbn. rewrite Hsh. cbn. destruct t; cbn; split_and!; auto.
  - assert (size (peers r) ≠ 0%nat) by (by rewrite map_size_empty_iff).
    unfold len in Hlen. destruct (peer_ids r) as [|i0 l0] eqn:Hids; [simpl in Hlen; lia|].
    unfold resetElectionTimerLocked. cbn.
    destruct (electionTimer r) eqn:Ht; cbn; split_and!; auto.
    by intros [? ?].
Qed.

(** A candidate that is told to lead (and no other node) becomes leader:
    it names itself leader, stops the election timer, starts the heartbeat,
    takes no follower to match anything yet, and plans to send each of them
    the entries after its last log entry; an empty log makes it start at
    index 1, whatever its snapshot covers.  Log, term and vote stay. *)
Theorem leader_initialised r : wf r → state r = Candidate → shutdown r = false →
  let '(r', gs) := becomeLeader r in
  IsLeader r' = true ∧ GetLeaderId r' = serverId r ∧ gs = [GRunHeartbeat] ∧
  (is_Some (electionTimer r) → electionTimer r' = Some Stopped) ∧
  dom (peers r') = dom (peers r) ∧
  (∀ id p, peers r' !! id = Some p → matchIndex p = 0 ∧
     nextIndex p = if decide (log r = []) then 1 else last_index r + 1) ∧
  log r' = log r ∧ currentTerm r' = currentTerm r ∧ votedFor r' = votedFor r ∧ wf r'.
Proof.
  intros Hwf Hs Hsh. unfold becomeLeader. rewrite Hs, Hsh. cbn -[last].
  assert (match last (log r) with Some e => eIndex e | None => 0 end +! 1 =
          if decide (log r = []) then 1 else last_index r + 1) as ->.
  { destruct (last (log r)) as [e|] eqn:Hl.
    - rewrite (last_log_index r e) by (done || apply Hwf).
      pose proof Hwf as []. rewrite decide_False by (intros E; by rewrite E in Hl).
      unfold last_index in *. pose proof (len_nonneg (log r)). by rewrite i64_id by lia.
    - apply last_None in Hl as ->. done. }
  destruct (electionTimer r) eqn:Ht; cbn -[last]; rewrite ?dom_fmap_L; split_and!; auto;
    try (by intros [? ?]); try (by wf_same Hwf);
    intros id p; rewrite lookup_fmap; destruct (peers r !! id); cbn; intros; by simplify_eq/=.
Qed.

(** A leader deposed by a vote request of a later term is a follower that
    still names itself as the leader. *)
Theorem deposed_leader_names_itself rnd (req : RequestVoteRequest) r :
  IsLeader r = true → leaderId r = serverId r → currentTerm r < rvTerm req →
  let r' := fst (RequestVote rnd req r) in
  IsLeader r' = false ∧ GetLeaderId r' = serverId r ∧ serverId r' = serverId r.
Proof.
  intros Hl Hid Ht. cbv zeta. unfold RequestVote.
  rewrite (proj2 (Z.ltb_ge (rvTerm req) (currentTerm r))) by lia.
  rewrite (proj2 (Z.ltb_lt (currentTerm r) (rvTerm req))) by lia. cbn -[last persist].
  destruct (getLastLogInfoLocked _) as [li lt]. branch; [|by rewrite <- Hid].
  destruct (persist _) as [r2 [e|]] eqn:Hp; node_inv; by rewrite <- Hid.
Qed.
End election_properties.

(** ** Witnesses *)

Module ElectionWitness.
Import MemoryPersister.

Definition follower : Raft MemoryPersister :=
  NodeWitness.node <| state := Follower |> <| electionTimer := Some (Armed 200) |>.

(** A candidate of term 3 whose log ends like the follower's. *)
Definition vote_request : RequestVoteRequest := mkRequestVoteRequest 3 2 5 2.
End ElectionWitness.

Lemma granted_vote_not_durable_witness :
  let r' := fst (RequestVote 0 ElectionWitness.vote_request ElectionWitness.follower) in
  votedFor r' = 2 ∧ Load (persister r') = inl (3, -1, log ElectionWitness.follower).
Proof.
  apply (granted_vote_not_durable 0 ElectionWitness.vote_request ElectionWitness.follower);
    vm_compute; reflexivity.
Defined.

Lemma candidacy_witness :
  let '(r', gs) := becomeCandidate 0 ElectionWitness.follower in
  currentTerm r' = 3 ∧ votedFor r' = 1 ∧ state r' = Candidate ∧ len gs = 2.
Proof.
  pose proof (candidacy 0 ElectionWitness.follower eq_refl) as H.
  destruct (becomeCandidate 0 ElectionWitness.follower) as [r' gs].
  destruct H as (Ht & Hv & _ & _ & _ & Hc); [discriminate|vm_compute; reflexivity|
    vm_compute; congruence|reflexivity|].
  rewrite decide_False in Hc by (vm_compute; congruence).
  destruct Hc as (Hs & _ & _ & ->). split; [exact Ht|]. split; [exact Hv|].
  split; [exact Hs|vm_compute; reflexivity].
Defined.

Lemma leader_initialised_witness :
  let '(r', gs) := becomeLeader (NodeWitness.node <| state := Candidate |>) in
  IsLeader r' = true ∧ gs = [GRunHeartbeat] ∧
  (∀ id p, peers r' !! id = Some p → nextIndex p = 6).
Proof.
  pose proof (leader_initialised (NodeWitness.node <| state := Candidate |>)) as H.
  destruct (becomeLeader _) as [r' gs].
  destruct H as (Hl & _ & Hg & _ & _ & Hp & _);
    [pose proof NodeWitness.node_wf as Hwf; by wf_same Hwf|reflexivity|reflexivity|].
  split; [exact Hl|]. split; [exact Hg|]. intros id p Hid. apply (Hp id p Hid).
Defined.

Lemma deposed_leader_names_itself_witness :
  let r' := fst (RequestVote 0 ElectionWitness.vote_request NodeWitness.node) in
  IsLeader r' = false ∧ GetLeaderId r' = 1 ∧ serverId r' = 1.
Proof.
  apply (deposed_leader_names_itself 0 ElectionWitness.vote_request NodeWitness.node);
    vm_compute; reflexivity.
Defined.
