(* ===== verification/Replication.v ===== *)
(** * Log replication

    [raft/replication.go]: the [AppendEntries] and [InstallSnapshot] handlers,
    the leader's [sendAppendEntries], [updateCommitIndex] and
    [ReplicateCommand]. *)

From S2P Require Import Prelude Types Persister Node Election.

(** [const maxSnapshotBytes] of [raft/snapshot.go]. *)
Definition maxSnapshotBytes : Z := 4 * 1024 * 1024.

(** The loop of [AppendEntries] over the request's entries (Rule 4), from the
    [i]-th one on: the new log and the [modified] flag, or [None] for the
    run-time panic of an index below the start of the slice. *)
Fixpoint append_loop (prevLogIndex base i : Z) (entries log : list LogEntry)
    (modified : bool) : option (list LogEntry * bool) :=
  match entries with
  | [] => Some (log, modified)
  | entry :: entries =>
    let logIdx := prevLogIndex +! i +! 1 in
    let arrayIdx := logIdx -! base -! 1 in
    if arrayIdx <? len log then
      match index log arrayIdx with
      | None => None
      | Some e =>
        if eTerm e =? eTerm entry then
          append_loop prevLogIndex base (i + 1) entries log modified
        else
          append_loop prevLogIndex base (i + 1) entries
            (take (Z.to_nat arrayIdx) log ++ [entry]) true
      end
    else append_loop prevLogIndex base (i + 1) entries (log ++ [entry]) true
  end.

(** The loop of [sendAppendEntries] that copies the entries from [i] on:
    [for i := nextIdx; i <= len(r.log); i++]. *)
Fixpoint collect_entries (fuel : nat) (i base : Z) (log : list LogEntry) : list LogEntry :=
  match fuel with
  | O => []
  | S fuel =>
    if i <=? len log then
      match index log (i -! base -! 1) with
      | None => []
      | Some e => e :: collect_entries fuel (i +! 1) base log
      end
    else []
  end.

(** How the first half of [sendAppendEntries] ends. *)
Inductive send_action : Type :=
  | SendStop
  | SendSnapshot                               (* go r.sendInstallSnapshot *)
  | SendCall (req : AppendEntriesRequest) (prevLogIdx nEntries : Z).

Section replication.
Context {P : Type} `{PP : Persister P}.
Implicit Types r : Raft P.

(** The [AppendEntries] handler. *)
Definition AppendEntries (rnd : Z) (req : AppendEntriesRequest) r
    : Raft P * result AppendEntriesResponse :=
  let resp := mkAppendEntriesResponse (currentTerm r) false in
  (* Rule 1 *)
  if aeTerm req <? currentTerm r then (r, Ret resp)
  else
    (* Rule 2 *)
    let '(r, resp) :=
      if currentTerm r <? aeTerm req then
        (r <| currentTerm := aeTerm req |> <| votedFor := -1 |> <| state := Follower |>,
         mkAppendEntriesResponse (aeTerm req) false)
      else (r, resp) in
    let r := if negb (state_eqb (state r) Leader)
             then r <| leaderId := aeLeaderId req |> else r in
    let r := resetElectionTimerLocked rnd r in
    (* Rule 3 *)
    let consistent :=
      if 0 <? aePrevLogIndex req then
        match index (log r) (aePrevLogIndex req -! logBase r -! 1) with
        | None => false
        | Some e => eTerm e =? aePrevLogTerm req
        end
      else true in
    if negb consistent then (r, Ret resp)
    else
      (* Rule 4 *)
      match append_loop (aePrevLogIndex req) (logBase r) 0 (aeEntries req) (log r) false with
      | None => (r, Panic)
      | Some (lg, modified) =>
        let r := r <| log := lg |> in
        (* Rule 5 *)
        let '(r, err) := if modified then persist r else (r, None) in
        match err with
        | Some e => (r, Fail (Wrapf "persist on append" e))
        | None =>
          (* Rule 6 *)
          let lastNewIndex := aePrevLogIndex req +! len (aeEntries req) in
          let r :=
            if commitIndex r <? aeLeaderCommit req then
              let newCommit := aeLeaderCommit req in
              let newCommit := if lastNewIndex <? newCommit then lastNewIndex else newCommit in
              if commitIndex r <? newCommit
              then signalCommit (r <| commitIndex := newCommit |>) else r
            else r in
          (r, Ret (mkAppendEntriesResponse (aerTerm resp) true))
        end
      end.

(** [updateCommitIndex]: how many nodes hold index [n]; the leader counts
    itself. *)
Definition replicas (n : Z) r : Z :=
  1 + Z.of_nat (size (filter (λ kp, n ≤ matchIndex kp.2) (peers r))).

(** The downward scan from [n]. *)
Fixpoint commit_scan (fuel : nat) (n : Z) r : Raft P :=
  match fuel with
  | O => r
  | S fuel =>
    if n <=? commitIndex r then r
    else
      match index (log r) (n -! logBase r -! 1) with
      | None => commit_scan fuel (n -! 1) r
      | Some e =>
        if (GetPeerCount r + 1) / 2 <? replicas n r then
          if eTerm e =? currentTerm r then signalCommit (r <| commitIndex := n |>) else r
        else commit_scan fuel (n -! 1) r
      end
  end.

Definition updateCommitIndex r : Raft P :=
  if negb (state_eqb (state r) Leader) then r
  else
    let lastIdx := len (log r) +! logBase r in
    commit_scan (Z.to_nat (lastIdx - commitIndex r)) lastIdx r.

(** [sendAppendEntries] up to the RPC. *)
Definition sendAppendEntries_request (dialed : bool) (peerId term commitIdx : Z) r
    : Raft P * send_action :=
  if shutdown r then (r, SendStop)
  else
    match peers r !! peerId with
    | None => (r, SendStop)
    | Some p =>
      match ensureConnected dialed p with
      | (_, Some _) => (r, SendStop)
      | (p, None) =>
        let r := r <| peers := <[peerId := p]> (peers r) |> in
        if (negb (state_eqb (state r) Leader) || negb (currentTerm r =? term)
            || shutdown r)%bool then (r, SendStop)
        else
          let nextIdx := if nextIndex p <? 1 then 1 else nextIndex p in
          let prevLogIdx := nextIdx -! 1 in
          if prevLogIdx <? logBase r then (r, SendSnapshot)
          else
            let '(prevLogIdx, prevLogTerm, nextIdx) :=
              if 0 <? prevLogIdx then
                match index (log r) (prevLogIdx -! logBase r -! 1) with
                | Some e => (prevLogIdx, eTerm e, nextIdx)
                | None => (0, 0, 1)
                end
              else (prevLogIdx, 0, nextIdx) in
            let entries :=
              collect_entries (Z.to_nat (len (log r) - nextIdx + 1)) nextIdx
                (logBase r) (log r) in
            (r, SendCall
              (mkAppendEntriesRequest term (i32 (serverId r)) prevLogIdx prevLogTerm
                 entries commitIdx)
              prevLogIdx (len entries))
      end
    end.

(** [sendAppendEntries] after the RPC. *)
Definition sendAppendEntries_reply (peerId term commitIdx prevLogIdx nEntries : Z)
    (resp : AppendEntriesResponse) r : Raft P * list goroutine :=
  if (negb (state_eqb (state r) Leader) || negb (currentTerm r =? term)
      || shutdown r)%bool then (r, [])
  else if currentTerm r <? aerTerm resp then (stepDown (aerTerm resp) r, [])
  else
    match peers r !! peerId with
    | None => (r, [])
    | Some p =>
      if aerSuccess resp then
        let newMatch := prevLogIdx +! nEntries in
        let p := if matchIndex p <? newMatch then p <| matchIndex := newMatch |> else p in
        let p := p <| nextIndex := matchIndex p +! 1 |> in
        (updateCommitIndex (r <| peers := <[peerId := p]> (peers r) |>), [])
      else
        let p := if 1 <? nextIndex p then p <| nextIndex := nextIndex p -! 1 |> else p in
        (r <| peers := <[peerId := p]> (peers r) |>,
         [GSendAppendEntries peerId term commitIdx])
    end.

(** [ReplicateCommand] up to its wait: the target index and the goroutines
    started, or the error it returns (with index 0). *)
Definition ReplicateCommand_begin (cmd : bytes) r : Raft P * result (Z * list goroutine) :=
  if negb (state_eqb (state r) Leader) then (r, Fail ErrNotLeader)
  else
    let nextIdx := len (log r) +! logBase r +! 1 in
    let entry := mkLogEntry nextIdx (currentTerm r) cmd in
    let r := r <| log := log r ++ [entry] |> in
    match persist r with
    | (r, Some err) =>
      (r <| log := take (length (log r) - 1) (log r) |>, Fail (Wrapf "persist command" err))
    | (r, None) =>
      let r := updateCommitIndex r in
      (r, Ret (nextIdx,
        (λ id, GSendAppendEntries id (currentTerm r) (commitIndex r)) <$> peer_ids r))
    end.

(** What ends the wait of [ReplicateCommand]. *)
Inductive wait_event : Type := WaitTimeout | WaitTick | WaitCtxDone.

(** The answer to an event of the wait loop: [None] to wait on, otherwise the
    returned pair [(index, error)]. *)
Definition ReplicateCommand_wait (targetIdx : Z) (ev : wait_event) r
    : option (Z * option error) :=
  match ev with
  | WaitTimeout => Some (targetIdx, Some ErrTimeout)
  | WaitCtxDone => Some (targetIdx, Some ErrTimeout)
  | WaitTick =>
    if shutdown r then Some (targetIdx, Some ErrTimeout)
    else if targetIdx <=? commitIndex r then Some (targetIdx, None)
    else None
  end.

(** The [InstallSnapshot] handler. *)
Definition InstallSnapshot (rnd : Z) (req : InstallSnapshotRequest) r
    : Raft P * result InstallSnapshotResponse :=
  if maxSnapshotBytes <? len (isData req)
  then (r, Fail (Errorf "snapshot exceeds cap"))
  else
    let resp := mkInstallSnapshotResponse (currentTerm r) in
    if isTerm req <? currentTerm r then (r, Ret resp)
    else
      let '(r, resp) :=
        if currentTerm r <? isTerm req
        then (stepDown (isTerm req) r, mkInstallSnapshotResponse (isTerm req))
        else (r, resp) in
      let r := resetElectionTimerLocked rnd r in
      let r := r <| leaderId := isLeaderId req |> in
      let lastIdx := isLastIncludedIndex req in
      if lastIdx <=? commitIndex r then (r, Ret resp)
      else
        let arrayIdx := lastIdx -! logBase r -! 1 in
        let diverged :=
          match index (log r) arrayIdx with
          | Some e => ((eIndex e =? lastIdx) && negb (eTerm e =? isLastIncludedTerm req))%bool
          | None => false
          end in
        if diverged then (r, Ret resp)
        else
          let tail := filter (λ e, lastIdx < eIndex e) (log r) in
          let r := r <| log := tail |>
                     <| logBase := lastIdx |>
                     <| snapshot := isData req |>
                     <| snapshotIndex := lastIdx |>
                     <| snapshotTerm := isLastIncludedTerm req |> in
          let r := if commitIndex r <? lastIdx then r <| commitIndex := lastIdx |> else r in
          let r := r <| lastApplied := lastIdx |> in
          match persist r with
          | (r, Some err) => (r, Fail (Wrapf "persist raft state after InstallSnapshot" err))
          | (r, None) =>
            let '(p, err) :=
              SaveSnapshot (snapshot r) (snapshotIndex r) (snapshotTerm r) (persister r) in
            let r := r <| persister := p |> in
            match err with
            | Some err => (r, Fail (Wrapf "save snapshot after InstallSnapshot" err))
            | None =>
              match send_applyCh
                      (snapshot_msg (isData req) lastIdx (isLastIncludedTerm req)) r with
              | Some r => (r, Ret resp)
              | None =>
                (r, Fail (Errorf "applyCh full while queueing InstallSnapshot rehydration"))
              end
            end
          end.
End replication.

(** ** Reference definitions

    What Rule 4 of [AppendEntries] computes, on the part of the log after
    [prevLogIndex]: keep what agrees with the leader, replace the rest from the
    first entry whose term differs, and keep a longer tail when there is no
    conflict. *)

Fixpoint merge_entries (old new : list LogEntry) {struct new} : list LogEntry :=
  match new, old with
  | [], _ => old
  | _, [] => new
  | e :: new', o :: old' =>
      if eTerm o =? eTerm e then o :: merge_entries old' new' else new
  end.

(** Every new entry is already there. *)
Fixpoint covered (old new : list LogEntry) {struct new} : bool :=
  match new, old with
  | [], _ => true
  | _, [] => false
  | e :: new', o :: old' => (eTerm o =? eTerm e) && covered old' new'
  end.

Lemma merge_entries_nil (new : list LogEntry) : merge_entries [] new = new.
Proof. by destruct new. Qed.

Lemma merge_covered (old new : list LogEntry) :
  covered old new = true → merge_entries old new = old.
Proof.
  revert old. induction new as [|e new IH]; intros [|o old]; simpl; try done.
  destruct (eTerm o =? eTerm e); simpl; [|done]. intros ?. by rewrite IH.
Qed.

Lemma merge_length (old new : list LogEntry) :
  len new ≤ len (merge_entries old new) ≤ Z.max (len old) (len new).
Proof.
  revert old. induction new as [|e new IH]; intros old.
  - pose proof (len_nonneg old). rewrite len_nil. destruct old; simpl; lia.
  - destruct old as [|o old]; simpl.
    + rewrite len_nil. pose proof (len_nonneg (e :: new)). lia.
    + destruct (eTerm o =? eTerm e); rewrite !len_cons; [|lia]. specialize (IH old). lia.
Qed.

(** After the merge every leader entry is matched, term for term. *)
Lemma merge_covers (old new : list LogEntry) : covered (merge_entries old new) new = true.
Proof.
  assert (∀ l, covered l l = true) as Hrefl.
  { induction l as [|x l IH]; simpl; [done|]. by rewrite Z.eqb_refl. }
  revert old. induction new as [|e new IH]; intros [|o old]; simpl; try done.
  - by rewrite Z.eqb_refl, Hrefl.
  - destruct (eTerm o =? eTerm e) eqn:E; simpl; [by rewrite E, IH|].
    by rewrite Z.eqb_refl, Hrefl.
Qed.

Lemma merge_idemp (old new : list LogEntry) :
  merge_entries (merge_entries old new) new = merge_entries old new.
Proof. apply merge_covered, merge_covers. Qed.

Lemma merge_contiguous (base : Z) (old new : list LogEntry) :
  contiguous base old → contiguous base new → contiguous base (merge_entries old new).
Proof.
  revert base old. induction new as [|e new IH]; intros base [|o old]; simpl; try done.
  intros Ho He. branch; [|done].
  apply contiguous_cons in Ho as [? ?], He as [? ?].
  apply contiguous_cons. auto.
Qed.

(** The loop computes the merge; the flag tells whether it changed the log. *)
Lemma append_loop_spec (prev base i : Z) (entries lg : list LogEntry) (m : bool) :
  0 ≤ i → 0 ≤ base → 0 ≤ prev - base + i ≤ len lg →
  prev + i + len entries < 2 ^ 62 →
  append_loop prev base i entries lg m =
    let k := Z.to_nat (prev - base + i) in
    Some (take k lg ++ merge_entries (drop k lg) entries,
          (m || negb (covered (drop k lg) entries))%bool).
Proof.
  revert i lg m. induction entries as [|e entries IH]; intros i lg m Hi Hb Hk Hbd.
  { simpl. rewrite take_drop. by destruct m. }
  rewrite len_cons in Hbd. pose proof (len_nonneg entries) as Hnn.
  cbn [append_loop]. unwrap.
  replace (prev + i + 1 - base - 1) with (prev - base + i) by lia.
  set (k := Z.to_nat (prev - base + i)).
  assert (Z.of_nat k = prev - base + i) as Hkz by lia.
  assert (S k = Z.to_nat (prev - base + (i + 1))) as HkS by lia.
  branch.
  - destruct (index_is_Some lg (prev - base + i)) as [o Ho]; [lia|]. rewrite Ho.
    rewrite index_lookup in Ho by lia. fold k in Ho.
    rewrite (drop_S _ _ _ Ho). cbn [merge_entries covered].
    destruct (eTerm o =? eTerm e) eqn:E.
    + rewrite IH by lia. cbv zeta. rewrite <- HkS. rewrite (take_S_r _ _ _ Ho).
      by rewrite <- (assoc_L (++)).
    + assert (len (take k lg ++ [e]) = prev - base + (i + 1)) as Hl.
      { rewrite len_app, len_take, len_cons, len_nil by lia. lia. }
      rewrite IH by lia. cbv zeta. rewrite <- HkS. unfold len in Hl.
      rewrite drop_ge, take_ge by lia. rewrite merge_entries_nil.
      rewrite <- (assoc_L (++)). simpl. by destruct m.
  - assert (len (lg ++ [e]) = prev - base + (i + 1)) as Hl.
    { rewrite len_app, len_cons, len_nil. lia. }
    rewrite IH by lia. cbv zeta. rewrite <- HkS. unfold len in Hl, Hk.
    rewrite !drop_ge, !take_ge by (unfold len in *; lia). rewrite merge_entries_nil.
    rewrite <- (assoc_L (++)). simpl. by destruct m.
Qed.

(** Entries that start below the follower's log slice make the handler index
    the slice with a negative number. *)
Lemma append_loop_panics (prev base : Z) (e : LogEntry) (entries lg : list LogEntry) (m : bool) :
  - 2 ^ 62 < prev < base → base < 2 ^ 62 → append_loop prev base 0 (e :: entries) lg m = None.
Proof.
  intros ? ?. cbn [append_loop]. unwrap. pose proof (len_nonneg lg).
  branch; [|lia]. by rewrite index_None by lia.
Qed.

(** ** Commit rule *)

Section replication_facts.
Context {P : Type} `{PP : Persister P}.
Implicit Types r : Raft P.

(** Index [n] is held by more than half of the cluster. *)
Definition majority r (n : Z) : Prop := GetPeerCount r + 1 < 2 * replicas n r.

Lemma majority_test r n :
  ((GetPeerCount r + 1) / 2 <? replicas n r) = true ↔ majority r n.
Proof.
  unfold majority. rewrite Z.ltb_lt.
  pose proof (Z.div_mod (GetPeerCount r + 1) 2 ltac:(lia)).
  pose proof (Z.mod_pos_bound (GetPeerCount r + 1) 2). lia.
Qed.

#[export] Instance majority_dec r n : Decision (majority r n).
Proof. unfold majority. apply _. Defined.

(** The scan finds the highest index with a majority above [commitIndex] and
    commits it exactly when its term is the current one. *)
Lemma commit_scan_spec fuel n r : wf r → n ≤ last_index r →
  n - commitIndex r ≤ Z.of_nat fuel →
  (∃ k e, commitIndex r < k ≤ n ∧ majority r k ∧ (∀ m, k < m ≤ n → ¬ majority r m) ∧
     entry_at r k = Some e ∧
     commit_scan fuel n r =
       if eTerm e =? currentTerm r then signalCommit (r <| commitIndex := k |>) else r) ∨
  ((∀ m, commitIndex r < m ≤ n → ¬ majority r m) ∧ commit_scan fuel n r = r).
Proof.
  intros Hwf. revert n. induction fuel as [|fuel IH]; intros n Hn Hf.
  { right. split; [intros; lia|done]. }
  cbn [commit_scan]. pose proof Hwf as []. branch; [right; split; [intros; lia|done]|].
  destruct (proj2 (entry_at_Some r n)) as [e He]; [lia|].
  unfold last_index in *. unwrap. unfold entry_at in He. rewrite He.
  destruct ((GetPeerCount r + 1) / 2 <? replicas n r) eqn:Hm.
  - apply majority_test in Hm. left. exists n, e. split_and!; auto; intros; lia.
  - assert (¬ majority r n) as Hnm by (rewrite <- majority_test; congruence).
    destruct (IH (n - 1)) as [(k & e' & ? & ? & Hall & ? & ->)|[Hall ->]]; [lia..| |].
    + left. exists k, e'. split_and!; auto; try lia.
      intros m ?. destruct (Z.eq_dec m n) as [->|]; [done|apply Hall; lia].
    + right. split; [|done]. intros m ?.
      destruct (Z.eq_dec m n) as [->|]; [done|apply Hall; lia].
Qed.

Lemma updateCommitIndex_inv r :
  ∃ n c, updateCommitIndex r = r <| commitIndex := n |> <| commitCh := c |> ∧
         commitIndex r ≤ n.
Proof.
  unfold updateCommitIndex. branch; [exists (commitIndex r), (commitCh r); by destruct r|].
  generalize (len (log r) +! logBase r). intros n.
  generalize (Z.to_nat (n - commitIndex r)). intros fuel. revert n.
  assert (∃ n c, r = r <| commitIndex := n |> <| commitCh := c |> ∧ commitIndex r ≤ n) as Hr
    by (exists (commitIndex r), (commitCh r); by destruct r).
  induction fuel as [|fuel IH]; intros n; cbn [commit_scan]; [done|].
  branch; [done|]. destruct (index _ _); [|auto]. branch; [|auto]. branch; [|done].
  exists n, true. split; [done|lia].
Qed.

Lemma updateCommitIndex_spec r : wf r → state r = Leader →
  (∃ k e, commitIndex r < k ≤ last_index r ∧ majority r k ∧
     (∀ m, k < m ≤ last_index r → ¬ majority r m) ∧ entry_at r k = Some e ∧
     updateCommitIndex r =
       if eTerm e =? currentTerm r then signalCommit (r <| commitIndex := k |>) else r) ∨
  ((∀ m, commitIndex r < m ≤ last_index r → ¬ majority r m) ∧ updateCommitIndex r = r).
Proof.
  intros Hwf Hs. unfold updateCommitIndex. rewrite Hs. cbn [negb state_eqb].
  pose proof Hwf as []. pose proof (len_nonneg (log r)). unfold last_index in *. unwrap.
  replace (len (log r) + logBase r) with (logBase r + len (log r)) by lia.
  apply commit_scan_spec; unfold last_index; auto; lia.
Qed.

Lemma updateCommitIndex_quiet r : quiet r (updateCommitIndex r).
Proof. destruct (updateCommitIndex_inv r) as (n & c & -> & _). quiet_solve. Qed.

Lemma updateCommitIndex_wf r : wf r → wf (updateCommitIndex r).
Proof.
  intros Hwf. destruct (decide (state r = Leader)) as [Hs|Hs].
  - destruct (updateCommitIndex_spec r Hwf Hs) as [(k & e & ? & _ & _ & _ & ->)|[_ ->]]; [|done].
    branch; [|done]. pose proof Hwf as []. unfold last_index in *.
    split; unfold last_index; cbn; auto; lia.
  - unfold updateCommitIndex. apply state_eqb_false in Hs. by rewrite Hs.
Qed.

(** *** The AppendEntries handler, cut at Rule 3 *)

(** A request an honest leader sends: its entries continue the log after
    [prevLogIndex]. *)
Record ae_wf (req : AppendEntriesRequest) : Prop := mkAeWf {
  aw_prev : 0 ≤ aePrevLogIndex req;
  aw_entries : contiguous (aePrevLogIndex req) (aeEntries req);
  aw_bound : aePrevLogIndex req + len (aeEntries req) < 2 ^ 62
}.

(** The follower after Rules 1 and 2, with the leader recorded and the timer
    re-armed. *)
Definition ae_contact (rnd : Z) (req : AppendEntriesRequest) r : Raft P :=
  let r := if currentTerm r <? aeTerm req then
      r <| currentTerm := aeTerm req |> <| votedFor := -1 |> <| state := Follower |>
    else r in
  let r := if negb (state_eqb (state r) Leader)
           then r <| leaderId := aeLeaderId req |> else r in
  resetElectionTimerLocked rnd r.

Lemma ae_contact_inv rnd req r :
  ∃ t v s l tm, ae_contact rnd req r =
    r <| currentTerm := t |> <| votedFor := v |> <| state := s |>
      <| leaderId := l |> <| electionTimer := tm |>.
Proof.
  set (x := ae_contact rnd req r).
  exists (currentTerm x), (votedFor x), (state x), (leaderId x), (electionTimer x).
  subst x. unfold ae_contact, resetElectionTimerLocked. destruct r.
  repeat case_match; reflexivity.
Qed.

Lemma ae_contact_quiet rnd req r : currentTerm r ≤ aeTerm req →
  quiet r (ae_contact rnd req r) ∧ currentTerm (ae_contact rnd req r) = aeTerm req.
Proof.
  intros ?. unfold ae_contact. node_inv.
  destruct (Z.ltb_spec (currentTerm r) (aeTerm req)); branch; cbn;
    (split; [quiet_solve|lia]).
Qed.

(** Rule 3: the test on [prevLogIndex]. *)
Definition consistent (req : AppendEntriesRequest) r : bool :=
  if 0 <? aePrevLogIndex req then
    match index (log r) (aePrevLogIndex req -! logBase r -! 1) with
    | None => false
    | Some e => eTerm e =? aePrevLogTerm req
    end
  else true.

(** Rule 6. *)
Definition follower_commit (req : AppendEntriesRequest) r : Raft P :=
  let lastNewIndex := aePrevLogIndex req +! len (aeEntries req) in
  let newCommit := Z.min (aeLeaderCommit req) lastNewIndex in
  if commitIndex r <? newCommit then signalCommit (r <| commitIndex := newCommit |>) else r.

Lemma AppendEntries_unfold rnd req r :
  AppendEntries rnd req r =
    if aeTerm req <? currentTerm r then
      (r, Ret (mkAppendEntriesResponse (currentTerm r) false))
    else
      let r := ae_contact rnd req r in
      if negb (consistent req r) then (r, Ret (mkAppendEntriesResponse (aeTerm req) false))
      else
        match append_loop (aePrevLogIndex req) (logBase r) 0 (aeEntries req) (log r) false with
        | None => (r, Panic)
        | Some (lg, modified) =>
          let '(r, err) := if modified then persist (r <| log := lg |>)
                           else (r <| log := lg |>, None) in
          match err with
          | Some e => (r, Fail (Wrapf "persist on append" e))
          | None => (follower_commit req r, Ret (mkAppendEntriesResponse (aeTerm req) true))
          end
        end.
Proof.
  unfold AppendEntries. branch; [done|].
  replace (if currentTerm r <? aeTerm req then _ else _) with
    (if currentTerm r <? aeTerm req
     then r <| currentTerm := aeTerm req |> <| votedFor := -1 |> <| state := Follower |> else r,
     mkAppendEntriesResponse (aeTerm req) false)
    by (destruct (Z.ltb_spec (currentTerm r) (aeTerm req)); [done|do 2 f_equal; lia]).
  cbv beta iota zeta. fold (ae_contact rnd req r).
  fold (consistent req (ae_contact rnd req r)).
  destruct (consistent _ _); [|done]. cbn [negb].
  destruct (append_loop _ _ _ _ _ _) as [[lg m]|]; [|done].
  destruct (if m then _ else _) as [r1 [e|]]; [done|]. cbn [aerTerm].
  f_equal. unfold follower_commit. generalize (aePrevLogIndex req +! len (aeEntries req)).
  intros lastNew. destruct (Z.ltb_spec lastNew (aeLeaderCommit req)).
  - rewrite Z.min_r by lia. branch; [done|]. by branch; [lia|].
  - rewrite Z.min_l by lia. by branch.
Qed.

(** The log Rule 4 leaves behind. *)
Definition merged_log (req : AppendEntriesRequest) r : list LogEntry :=
  let k := Z.to_nat (aePrevLogIndex req - logBase r) in
  take k (log r) ++ merge_entries (drop k (log r)) (aeEntries req).

Definition already_there (req : AppendEntriesRequest) r : bool :=
  covered (drop (Z.to_nat (aePrevLogIndex req - logBase r)) (log r)) (aeEntries req).

Lemma consistent_range req r : wf r → ae_wf req → consistent req r = true →
  0 < aePrevLogIndex req → logBase r < aePrevLogIndex req ≤ last_index r.
Proof.
  intros [] []. unfold consistent, last_index in *. intros Hc Hp.
  pose proof (len_nonneg (aeEntries req)).
  destruct (Z.ltb_spec 0 (aePrevLogIndex req)); [|lia]. revert Hc. unwrap.
  destruct (index _ _) eqn:Hi; [|done]. apply index_Some_range in Hi. lia.
Qed.

Lemma append_loop_merged req r : wf r → ae_wf req → consistent req r = true →
  append_loop (aePrevLogIndex req) (logBase r) 0 (aeEntries req) (log r) false =
    if (aePrevLogIndex req <? logBase r) && negb (bool_decide (aeEntries req = []))
    then None else Some (merged_log req r, negb (already_there req r)).
Proof.
  intros Hwf Hreq Hc. pose proof (consistent_range _ _ Hwf Hreq Hc) as Hr.
  pose proof Hwf as []. pose proof Hreq as []. unfold merged_log, already_there.
  destruct (Z.ltb_spec (aePrevLogIndex req) (logBase r)).
  - assert (aePrevLogIndex req = 0) as Hp by lia. destruct (aeEntries req) as [|e es] eqn:He.
    + rewrite bool_decide_eq_true_2 by done. simpl. by rewrite take_drop.
    + rewrite bool_decide_eq_false_2 by done. simpl negb.
      unfold last_index in *. pose proof (len_nonneg (log r)).
      apply append_loop_panics; lia.
  - cbn [andb]. pose proof (len_nonneg (log r)). unfold last_index in *.
    rewrite append_loop_spec by lia. cbv zeta. by rewrite Z.add_0_r.
Qed.

Lemma merged_log_contiguous req r : wf r → ae_wf req → consistent req r = true →
  (aePrevLogIndex req < logBase r → aeEntries req = []) →
  contiguous (logBase r) (merged_log req r) ∧
  aePrevLogIndex req + len (aeEntries req) ≤ logBase r + len (merged_log req r) ∧
  logBase r + len (merged_log req r) ≤
    Z.max (last_index r) (aePrevLogIndex req + len (aeEntries req)).
Proof.
  intros Hwf Hreq Hc Hlow. pose proof (consistent_range _ _ Hwf Hreq Hc) as Hr.
  pose proof Hwf as []. pose proof Hreq as []. unfold merged_log.
  destruct (Z.lt_ge_cases (aePrevLogIndex req) (logBase r)) as [Hlt|Hge].
  - rewrite Hlow by done. simpl. rewrite take_drop. unfold last_index.
    pose proof (len_nonneg (log r)). rewrite len_nil. split_and!; [done|lia..].
  - set (k := Z.to_nat _). assert (Z.of_nat k = aePrevLogIndex req - logBase r) by lia.
    assert (Z.of_nat k ≤ len (log r)) by (unfold last_index in *; pose proof (len_nonneg (log r)); lia).
    pose proof (merge_length (drop k (log r)) (aeEntries req)) as Hml.
    rewrite len_drop in Hml by done. rewrite len_app, len_take by done.
    unfold last_index. split_and!; [|lia..].
    apply contiguous_app. split; [by apply contiguous_take|]. rewrite len_take by done.
    apply merge_contiguous; [by apply contiguous_drop|].
    by replace (logBase r + Z.of_nat k) with (aePrevLogIndex req) by lia.
Qed.

(** Every way the handler can end, for a well-formed follower and request. *)
Inductive ae_outcome rnd req r : Raft P → result AppendEntriesResponse → Prop :=
  | ae_stale :
      aeTerm req < currentTerm r →
      ae_outcome rnd req r r (Ret (mkAppendEntriesResponse (currentTerm r) false))
  | ae_inconsistent :
      currentTerm r ≤ aeTerm req → consistent req r = false →
      ae_outcome rnd req r (ae_contact rnd req r)
        (Ret (mkAppendEntriesResponse (aeTerm req) false))
  | ae_panic :
      currentTerm r ≤ aeTerm req → consistent req r = true →
      aePrevLogIndex req < logBase r → aeEntries req ≠ [] →
      ae_outcome rnd req r (ae_contact rnd req r) Panic
  | ae_persist_failed p e :
      currentTerm r ≤ aeTerm req → consistent req r = true →
      (aePrevLogIndex req < logBase r → aeEntries req = []) →
      Save (aeTerm req) (votedFor (ae_contact rnd req r)) (merged_log req r) (persister r)
        = (p, Some e) →
      ae_outcome rnd req r
        ((ae_contact rnd req r) <| log := merged_log req r |> <| persister := p |>)
        (Fail (Wrapf "persist on append" e))
  | ae_success p :
      currentTerm r ≤ aeTerm req → consistent req r = true →
      (aePrevLogIndex req < logBase r → aeEntries req = []) →
      (if already_there req r then p = persister r
       else Save (aeTerm req) (votedFor (ae_contact rnd req r)) (merged_log req r) (persister r)
              = (p, None)) →
      ae_outcome rnd req r
        (follower_commit req
           ((ae_contact rnd req r) <| log := merged_log req r |> <| persister := p |>))
        (Ret (mkAppendEntriesResponse (aeTerm req) true)).

Lemma ae_contact_frame rnd req r :
  let r1 := ae_contact rnd req r in
  log r1 = log r ∧ logBase r1 = logBase r ∧ persister r1 = persister r ∧
  commitIndex r1 = commitIndex r ∧ lastApplied r1 = lastApplied r ∧
  snapshotIndex r1 = snapshotIndex r ∧ commitCh r1 = commitCh r.
Proof. cbv zeta. destruct (ae_contact_inv rnd req r) as (?&?&?&?&?&->). done. Qed.

Lemma AppendEntries_outcome rnd req r : wf r → ae_wf req →
  ae_outcome rnd req r (fst (AppendEntries rnd req r)) (snd (AppendEntries rnd req r)).
Proof.
  intros Hwf Hreq. rewrite AppendEntries_unfold.
  branch; [by apply ae_stale|]. cbv zeta.
  destruct (ae_contact_quiet rnd req r ltac:(done)) as [_ Ht].
  destruct (ae_contact_frame rnd req r) as (Hl & Hb & Hp & _). cbv zeta in *.
  assert (consistent req (ae_contact rnd req r) = consistent req r) as ->
    by (unfold consistent; by rewrite Hl, Hb).
  destruct (consistent req r) eqn:Hc; [|by apply ae_inconsistent]. cbn [negb].
  rewrite Hl, Hb, append_loop_merged by done.
  destruct (_ && _) eqn:Hlow; bool_props.
  { by apply ae_panic. }
  assert (aePrevLogIndex req < logBase r → aeEntries req = []) as Hlow'.
  { intros ?. destruct Hlow; bool_props; [lia|done]. }
  unfold persist. cbn. rewrite Ht, Hp.
  destruct (already_there req r) eqn:Ha; cbn.
  - match goal with |- context [follower_commit req ?x] => set (r1 := x) end.
    assert (r1 = r1 <| persister := persister r |>) as Hr1.
    { rewrite <- Hp. symmetry. apply (persister_id r1). }
    rewrite Hr1. clear Hr1. subst r1.
    apply ae_success; auto. by rewrite Ha.
  - destruct (Save _ _ _ _) as [p [e|]] eqn:Hs; cbn.
    + by apply ae_persist_failed.
    + apply ae_success; auto. by rewrite Ha.
Qed.

Lemma wf_contact rnd req r : wf r → wf (ae_contact rnd req r).
Proof.
  intros []. destruct (ae_contact_inv rnd req r) as (?&?&?&?&?&->).
  by split.
Qed.

Lemma wf_merged req r p r1 : wf r → ae_wf req → consistent req r = true →
  (aePrevLogIndex req < logBase r → aeEntries req = []) →
  wf r1 → logBase r1 = logBase r →
  wf (r1 <| log := merged_log req r |> <| persister := p |>).
Proof.
  intros Hwf Hreq Hc Hlow [] Hb.
  destruct (merged_log_contiguous req r) as (? & ? & ?); auto. pose proof Hwf as []. destruct Hreq.
  split; unfold last_index in *; cbn; rewrite ?Hb; auto; lia.
Qed.

Lemma wf_follower_commit req r : wf r → ae_wf req → wf (follower_commit req r).
Proof.
  intros [] []. unfold follower_commit. pose proof (len_nonneg (aeEntries req)). unwrap.
  branch; split; unfold last_index in *; cbn; auto; lia.
Qed.

Lemma AppendEntries_wf rnd req r : wf r → ae_wf req → wf (fst (AppendEntries rnd req r)).
Proof.
  intros Hwf Hreq. pose proof (wf_contact rnd req r Hwf) as Hc.
  destruct (ae_contact_frame rnd req r) as (_ & Hb & _).
  destruct (AppendEntries_outcome rnd req r Hwf Hreq); auto.
  - by apply wf_merged.
  - apply wf_follower_commit; [|done]. by apply wf_merged.
Qed.

Lemma AppendEntries_quiet rnd req r : quiet r (fst (AppendEntries rnd req r)).
Proof.
  rewrite AppendEntries_unfold. branch; [done|]. cbv zeta.
  destruct (ae_contact_quiet rnd req r ltac:(done)) as [Hq _].
  branch; [done|]. destruct (append_loop _ _ _ _ _ _) as [[lg m]|]; [|done].
  assert (∀ r', (if m then persist ((ae_contact rnd req r) <| log := lg |>)
      else ((ae_contact rnd req r) <| log := lg |>, None)).1 = r' → quiet r r') as Hr.
  { intros r' <-. etrans; [done|]. destruct m; cbn; [|quiet_solve].
    destruct (persist _) as [r2 o] eqn:Hp. node_inv. quiet_solve. }
  destruct (if m then _ else _) as [r' [e|]]; cbn; [by apply Hr|].
  etrans; [by apply Hr|]. unfold follower_commit. branch; quiet_solve.
Qed.

(** *** The leader's request *)

(** The copying loop stops at index [len(log)], not at the last absolute
    index. *)
Lemma collect_entries_spec fuel i base lg :
  0 ≤ base → 1 ≤ i → base + len lg < 2 ^ 62 → i ≤ 2 ^ 62 →
  len lg - i + 1 ≤ Z.of_nat fuel →
  collect_entries fuel i base lg =
    if i <=? base then []
    else take (Z.to_nat (len lg - i + 1)) (drop (Z.to_nat (i - base - 1)) lg).
Proof.
  intros Hb. revert i. induction fuel as [|fuel IH]; intros i Hi Hbd Hib Hf.
  { replace (Z.to_nat (len lg - i + 1)) with 0%nat by lia. by branch. }
  cbn [collect_entries]. pose proof (len_nonneg lg). unwrap.
  destruct (Z.leb_spec i (len lg)); last first.
  { replace (Z.to_nat (len lg - i + 1)) with 0%nat by lia. by branch. }
  branch; [by rewrite index_None by lia|].
  destruct (index lg (i - base - 1)) as [e|] eqn:He; last first.
  { rewrite drop_ge; [by rewrite take_nil|]. destruct (decide (i - base - 1 < len lg)).
    - destruct (index_is_Some lg (i - base - 1)); [lia|congruence].
    - apply Nat2Z.inj_le. fold (len lg). lia. }
  rewrite index_lookup in He by lia. rewrite (drop_S _ _ _ He).
  rewrite IH by lia. destruct (Z.leb_spec (i + 1) base); [lia|].
  replace (Z.to_nat (len lg - i + 1)) with (S (Z.to_nat (len lg - (i + 1) + 1))) by lia.
  replace (Z.to_nat (i + 1 - base - 1)) with (S (Z.to_nat (i - base - 1))) by lia. done.
Qed.

(** [req] describes a segment of the leader's own log. *)
Record segment_of (req : AppendEntriesRequest) r : Prop := mkSegment {
  sg_wf : ae_wf req;
  sg_end : aePrevLogIndex req + len (aeEntries req) ≤ last_index r;
  sg_entries i e : index (aeEntries req) i = Some e →
    entry_at r (aePrevLogIndex req + i + 1) = Some e;
  sg_prev : 0 < aePrevLogIndex req →
    ∃ e, entry_at r (aePrevLogIndex req) = Some e ∧ eTerm e = aePrevLogTerm req
}.

Lemma collect_segment r prev prevTerm term id commit :
  wf r → 0 ≤ prev < 2 ^ 62 →
  (0 < prev → ∃ e, entry_at r prev = Some e ∧ eTerm e = prevTerm) →
  segment_of (mkAppendEntriesRequest term id prev prevTerm
    (collect_entries (Z.to_nat (len (log r) - (prev + 1) + 1)) (prev + 1) (logBase r) (log r))
    commit) r.
Proof.
  intros Hwf Hp Hprev. pose proof Hwf as []. pose proof (len_nonneg (log r)).
  unfold last_index in *. rewrite collect_entries_spec by lia.
  set (es := if prev + 1 <=? logBase r then _ else _).
  assert (len es = 0 ∧ es = [] ∨ logBase r ≤ prev ∧ es =
    take (Z.to_nat (len (log r) - prev)) (drop (Z.to_nat (prev - logBase r)) (log r)) ∧
    prev + len es ≤ logBase r + len (log r)) as Hes.
  { subst es. branch; [by left|].
    replace (len (log r) - (prev + 1) + 1) with (len (log r) - prev) by lia.
    replace (prev + 1 - logBase r - 1) with (prev - logBase r) by lia.
    destruct (Z.le_gt_cases (logBase r + len (log r)) prev) as [Hbig|Hsmall].
    - left. rewrite drop_ge by (unfold len in *; lia). by rewrite take_nil.
    - right. split_and!; [lia|done|]. unfold len. rewrite length_take, length_drop.
      unfold len in *. lia. }
  destruct Hes as [[Hl ->]|(Hge & Hes & Hle)]; split; cbn; try exact Hprev.
  - split; cbn; rewrite ?len_nil; [lia|auto with distribkv|lia].
  - unfold last_index. rewrite len_nil. destruct (Z.eq_dec prev 0) as [->|]; [lia|].
    destruct Hprev as (e & He & _); [lia|].
    assert (is_Some (entry_at r prev)) as Hs by eauto. apply entry_at_Some in Hs.
    unfold last_index in Hs. lia.
  - intros i e Hi%index_Some_range. unfold len in Hi. simpl in Hi. lia.
  - split; cbn; [lia| |lia]. rewrite Hes.
    apply contiguous_take. replace prev with (logBase r + Z.of_nat (Z.to_nat (prev - logBase r))) at 1 by lia.
    apply contiguous_drop; [done|]. pose proof (len_nonneg es). lia.
  - unfold last_index. lia.
  - intros i e Hi. pose proof (index_Some_range _ _ _ Hi) as Hir. rewrite Hes in Hi.
    assert (i < Z.of_nat (Z.to_nat (len (log r) - prev))) as Hlt.
    { rewrite Hes in Hir. unfold len at 1 in Hir. rewrite length_take in Hir. lia. }
    rewrite index_take, index_drop in Hi by lia. unfold entry_at. rewrite <- Hi. f_equal. lia.
Qed.

Lemma sendAppendEntries_request_segment d id t c r r' req prev n :
  wf r → (∀ p, peers r !! id = Some p → nextIndex p ≤ 2 ^ 62) →
  sendAppendEntries_request d id t c r = (r', SendCall req prev n) →
  segment_of req r ∧ prev = aePrevLogIndex req ∧ n = len (aeEntries req) ∧
  aeTerm req = t ∧ currentTerm r = t ∧ state r = Leader ∧ aeLeaderCommit req = c.
Proof.
  intros Hwf Hnext. pose proof Hwf as []. unfold sendAppendEntries_request.
  branch; [done|]. destruct (peers r !! id) as [p|] eqn:Hp; [|done].
  specialize (Hnext p eq_refl).
  destruct (ensureConnected d p) as [p' [e|]] eqn:Hec; [done|]. apply ensureConnected_inv in Hec.
  assert (nextIndex p' = nextIndex p) as Hni by (rewrite Hec; done). cbn. rewrite Hni.
  branch; [done|]. state_props.
  set (nx := if nextIndex p <? 1 then 1 else nextIndex p).
  assert (1 ≤ nx ≤ 2 ^ 62) as Hnx by (subst nx; branch; lia).
  clearbody nx. unwrap. branch; [done|].
  remember (nx - 1) as pv eqn:Hpv. assert (nx = pv + 1) as -> by lia. clear Hpv.
  destruct (0 <? pv) eqn:Hpos; bool_props.
  - destruct (index (log r) (pv - logBase r - 1)) as [e|] eqn:He;
      intros [= <- <- <- <-]; cbn; split_and!; auto.
    + apply collect_segment; [done|lia|]. intros _. unfold entry_at. eauto.
    + apply (collect_segment r 0); [done|lia|intros; lia].
  - intros [= <- <- <- <-]. cbn. split_and!; auto.
    apply collect_segment; [done|lia|intros; lia].
Qed.

Lemma sendAppendEntries_request_whole d id t c r r' req prev n :
  wf r → (∀ p, peers r !! id = Some p → nextIndex p ≤ 2 ^ 62) →
  sendAppendEntries_request d id t c r = (r', SendCall req prev n) →
  logBase r = 0 → prev + n = last_index r.
Proof.
  intros Hwf Hnext Hs Hb. pose proof Hwf as []. pose proof (len_nonneg (log r)).
  assert (∀ pv, 0 ≤ pv ≤ len (log r) → pv + len (collect_entries
    (Z.to_nat (len (log r) - (pv + 1) + 1)) (pv + 1) (logBase r) (log r)) = last_index r) as Hall.
  { intros pv Hpv. unfold last_index in *. rewrite collect_entries_spec by lia.
    rewrite (proj2 (Z.leb_gt _ _)) by lia. rewrite Hb.
    replace (pv + 1 - 0 - 1) with pv by lia. unfold len in *.
    rewrite length_take, length_drop. lia. }
  revert Hs. unfold sendAppendEntries_request.
  branch; [done|]. destruct (peers r !! id) as [p|] eqn:Hp; [|done].
  specialize (Hnext p eq_refl).
  destruct (ensureConnected d p) as [p' [e|]] eqn:Hec; [done|]. apply ensureConnected_inv in Hec.
  assert (nextIndex p' = nextIndex p) as Hni by (rewrite Hec; done). cbn. rewrite Hni.
  branch; [done|].
  set (nx := if nextIndex p <? 1 then 1 else nextIndex p).
  assert (1 ≤ nx ≤ 2 ^ 62) as Hnx by (subst nx; branch; lia).
  clearbody nx. unwrap. branch; [done|].
  remember (nx - 1) as pv eqn:Hpv. assert (nx = pv + 1) as -> by lia. clear Hpv.
  destruct (0 <? pv) eqn:Hpos; bool_props.
  - destruct (index (log r) (pv - logBase r - 1)) as [e|] eqn:He; intros [= _ <- <- <-].
    + apply index_Some_range in He. apply Hall. lia.
    + apply (Hall 0). lia.
  - intros [= _ <- <- <-]. apply Hall. lia.
Qed.

(** *** Invariant and vote behaviour of the other operations *)

Lemma wf_peers r ps : wf r → wf (r <| peers := ps |>).
Proof. intros H. by wf_same H. Qed.

Lemma wf_stepDown t r : wf r → wf (stepDown t r).
Proof. intros H. by wf_same H. Qed.

Lemma known_peer_quiet r id p p' : peers r !! id = Some p →
  quiet r (r <| peers := <[id := p']> (peers r) |>).
Proof. intros Hp. split; cbn; [done|by eapply insert_known_peer|auto]. Qed.

Lemma sendAppendEntries_request_inv d id t c r r' a :
  sendAppendEntries_request d id t c r = (r', a) →
  r' = r ∨ ∃ p p', peers r !! id = Some p ∧ p' = p <| connected := connected p' |> ∧
                   r' = r <| peers := <[id := p']> (peers r) |>.
Proof.
  unfold sendAppendEntries_request. branch; [intros [= <- <-]; auto|].
  destruct (peers r !! id) as [p|]; [|intros [= <- <-]; auto].
  destruct (ensureConnected d p) as [p' [e|]] eqn:He; [intros [= <- <-]; auto|].
  apply ensureConnected_inv in He. intros H. right. exists p, p'. split_and!; auto.
  revert H. branch; [by intros [= <- _]|]. branch; [by intros [= <- _]|].
  destruct (if 0 <? _ then _ else _) as [[? ?] ?].
  by intros [= <- _].
Qed.

Lemma sendAppendEntries_request_quiet d id t c r r' a :
  sendAppendEntries_request d id t c r = (r', a) → quiet r r'.
Proof.
  intros [->|(p & p' & Hp & _ & ->)]%sendAppendEntries_request_inv; [done|].
  by eapply known_peer_quiet.
Qed.

(** The reply only ever starts more AppendEntries calls. *)
Lemma sendAppendEntries_reply_sends id t c prev n resp r :
  Forall (λ g, match g with GSendAppendEntries _ _ _ => True | _ => False end)
    (snd (sendAppendEntries_reply id t c prev n resp r)).
Proof. unfold sendAppendEntries_reply. repeat case_match; simplify_eq/=; repeat constructor. Qed.

Lemma sendAppendEntries_reply_quiet id t c prev n resp r :
  quiet r (fst (sendAppendEntries_reply id t c prev n resp r)).
Proof.
  unfold sendAppendEntries_reply. branch; [done|]. branch; [by apply stepDown_quiet|].
  destruct (peers r !! id) as [p|] eqn:Hp; [|done]. branch; cbn.
  - etrans; [by eapply known_peer_quiet|apply updateCommitIndex_quiet].
  - by eapply known_peer_quiet.
Qed.

Lemma sendAppendEntries_reply_wf id t c prev n resp r :
  wf r → wf (fst (sendAppendEntries_reply id t c prev n resp r)).
Proof.
  intros Hwf. unfold sendAppendEntries_reply. branch; [done|]. branch; [by apply wf_stepDown|].
  destruct (peers r !! id) as [p|] eqn:Hp; [|done]. branch; cbn.
  - by apply updateCommitIndex_wf, wf_peers.
  - by apply wf_peers.
Qed.

(** [ReplicateCommand] on a leader: the entry it appends. *)
Definition new_entry (cmd : bytes) r : LogEntry :=
  mkLogEntry (last_index r + 1) (currentTerm r) cmd.

Lemma ReplicateCommand_begin_unfold cmd r : wf r → state r = Leader →
  ReplicateCommand_begin cmd r =
    let r1 := r <| log := log r ++ [new_entry cmd r] |> in
    match Save (currentTerm r) (votedFor r) (log r ++ [new_entry cmd r]) (persister r) with
    | (p, Some err) => (r <| persister := p |>, Fail (Wrapf "persist command" err))
    | (p, None) =>
      let r2 := updateCommitIndex (r1 <| persister := p |>) in
      (r2, Ret (last_index r + 1,
        (λ id, GSendAppendEntries id (currentTerm r2) (commitIndex r2)) <$> peer_ids r2))
    end.
Proof.
  intros [] Hs. unfold ReplicateCommand_begin, new_entry, persist. rewrite Hs. cbn [negb state_eqb].
  unfold last_index in *. pose proof (len_nonneg (log r)). unwrap.
  replace (len (log r) + logBase r) with (logBase r + len (log r)) by lia. cbn.
  destruct (Save _ _ _ _) as [p [e|]]; cbn; [|done].
  f_equal. rewrite length_app. simpl. rewrite Nat.add_sub, take_app_length. by destruct r.
Qed.

Lemma wf_append r e p : wf r → eIndex e = last_index r + 1 → last_index r + 1 < 2 ^ 62 →
  wf (r <| log := log r ++ [e] |> <| persister := p |>).
Proof.
  intros [] He Hb. split; unfold last_index in *; cbn; auto.
  - apply contiguous_app. split; [done|]. apply contiguous_singleton. lia.
  - rewrite len_app, len_cons, len_nil. lia.
Qed.

Lemma ReplicateCommand_begin_wf cmd r : wf r → last_index r + 1 < 2 ^ 62 →
  wf (fst (ReplicateCommand_begin cmd r)).
Proof.
  intros Hwf Hb. destruct (decide (state r = Leader)) as [Hs|Hs].
  - rewrite ReplicateCommand_begin_unfold by done. cbv zeta.
    destruct (Save _ _ _ _) as [p [e|]]; cbn; [by wf_same Hwf|].
    by apply updateCommitIndex_wf, wf_append.
  - unfold ReplicateCommand_begin. apply state_eqb_false in Hs. by rewrite Hs.
Qed.

Lemma ReplicateCommand_begin_sends cmd r :
  match snd (ReplicateCommand_begin cmd r) with
  | Ret (_, gs) =>
      Forall (λ g, match g with GSendAppendEntries _ _ _ => True | _ => False end) gs
  | _ => True
  end.
Proof.
  unfold ReplicateCommand_begin. destruct (negb _); [done|].
  destruct (persist _) as [r' [e|]]; cbn; [done|]. apply Forall_fmap, Forall_true. done.
Qed.

Lemma ReplicateCommand_begin_quiet cmd r : quiet r (fst (ReplicateCommand_begin cmd r)).
Proof.
  unfold ReplicateCommand_begin. branch; [done|].
  destruct (persist _) as [r1 [e|]] eqn:Hp; node_inv; cbn; [quiet_solve|].
  etrans; [|apply updateCommitIndex_quiet]. quiet_solve.
Qed.

(** *** The InstallSnapshot handler *)

Definition is_contact (rnd : Z) (req : InstallSnapshotRequest) r : Raft P :=
  (resetElectionTimerLocked rnd
     (if currentTerm r <? isTerm req then stepDown (isTerm req) r else r))
    <| leaderId := isLeaderId req |>.

(** The log has another term at the snapshot's index. *)
Definition diverges (req : InstallSnapshotRequest) r : bool :=
  match index (log r) (isLastIncludedIndex req -! logBase r -! 1) with
  | Some e => ((eIndex e =? isLastIncludedIndex req)
               && negb (eTerm e =? isLastIncludedTerm req))%bool
  | None => false
  end.

(** The node with the snapshot installed, before it is made durable. *)
Definition installed (req : InstallSnapshotRequest) r : Raft P :=
  let lastIdx := isLastIncludedIndex req in
  r <| log := filter (λ e, lastIdx < eIndex e) (log r) |>
    <| logBase := lastIdx |>
    <| snapshot := isData req |>
    <| snapshotIndex := lastIdx |>
    <| snapshotTerm := isLastIncludedTerm req |>
    <| commitIndex := lastIdx |>
    <| lastApplied := lastIdx |>.

Lemma InstallSnapshot_unfold rnd req r :
  InstallSnapshot rnd req r =
    if maxSnapshotBytes <? len (isData req) then (r, Fail (Errorf "snapshot exceeds cap"))
    else if isTerm req <? currentTerm r then
      (r, Ret (mkInstallSnapshotResponse (currentTerm r)))
    else
      let resp := mkInstallSnapshotResponse (isTerm req) in
      let r := is_contact rnd req r in
      if ((isLastIncludedIndex req <=? commitIndex r) || diverges req r)%bool then (r, Ret resp)
      else
        match persist (installed req r) with
        | (r, Some err) => (r, Fail (Wrapf "persist raft state after InstallSnapshot" err))
        | (r, None) =>
          let '(p, err) :=
            SaveSnapshot (snapshot r) (snapshotIndex r) (snapshotTerm r) (persister r) in
          match err with
          | Some err =>
            (r <| persister := p |>, Fail (Wrapf "save snapshot after InstallSnapshot" err))
          | None =>
            match send_applyCh (snapshot_msg (isData req) (isLastIncludedIndex req)
                                  (isLastIncludedTerm req)) (r <| persister := p |>) with
            | Some r => (r, Ret resp)
            | None => (r <| persister := p |>,
                Fail (Errorf "applyCh full while queueing InstallSnapshot rehydration"))
            end
          end
        end.
Proof.
  unfold InstallSnapshot. branch; [done|]. branch; [done|].
  replace (if currentTerm r <? isTerm req then _ else _) with
    (if currentTerm r <? isTerm req then stepDown (isTerm req) r else r,
     mkInstallSnapshotResponse (isTerm req))
    by (destruct (Z.ltb_spec (currentTerm r) (isTerm req)); [done|do 2 f_equal; lia]).
  cbv beta iota zeta. fold (is_contact rnd req r).
  destruct (Z.leb_spec (isLastIncludedIndex req) (commitIndex (is_contact rnd req r))) as [|Hlt];
    [done|]. cbn [orb]. fold (diverges req (is_contact rnd req r)).
  destruct (diverges _ _); [done|].
  match goal with |- context [if (?a <? ?b) then _ else _] =>
    destruct (Z.ltb_spec a b) as [_|Hge]; [|exfalso; cbn in Hge; cbn in Hlt; lia] end.
  fold (installed req (is_contact rnd req r)).
  destruct (persist (installed req (is_contact rnd req r))) as [r1 [e|]]; [done|].
  by destruct (SaveSnapshot _ _ _ _) as [p [e|]].
Qed.

Lemma is_contact_quiet rnd req r : currentTerm r ≤ isTerm req →
  quiet r (is_contact rnd req r).
Proof.
  intros ?. unfold is_contact. node_inv.
  destruct (Z.ltb_spec (currentTerm r) (isTerm req)); quiet_solve.
Qed.

Lemma wf_is_contact rnd req r : wf r → wf (is_contact rnd req r).
Proof. intros H. unfold is_contact. node_inv. branch; by wf_same H. Qed.

Lemma is_contact_frame rnd req r :
  let r1 := is_contact rnd req r in
  log r1 = log r ∧ logBase r1 = logBase r ∧ commitIndex r1 = commitIndex r ∧
  persister r1 = persister r ∧ applyCh r1 = applyCh r.
Proof. unfold is_contact. node_inv. cbv zeta. by branch. Qed.

Lemma installed_log req r : wf r → commitIndex r < isLastIncludedIndex req →
  log (installed req r) = drop (Z.to_nat (isLastIncludedIndex req - logBase r)) (log r).
Proof. intros [] ?. cbn. apply contiguous_filter; [done|lia]. Qed.

Lemma wf_installed req r : wf r → commitIndex r < isLastIncludedIndex req < 2 ^ 62 →
  wf (installed req r).
Proof.
  intros Hwf Hlt. pose proof (installed_log req r Hwf ltac:(lia)) as Hlog.
  pose proof Hwf as []. pose proof (len_nonneg (log r)).
  set (k := Z.to_nat (isLastIncludedIndex req - logBase r)) in *.
  assert (Z.of_nat k = isLastIncludedIndex req - logBase r) by lia.
  split; unfold last_index in *; rewrite ?Hlog; cbn; try lia.
  - destruct (Z.le_gt_cases (Z.of_nat k) (len (log r))) as [Hle|Hgt].
    + replace (isLastIncludedIndex req) with (logBase r + Z.of_nat k) by lia.
      by apply contiguous_drop.
    + rewrite drop_ge by (unfold len in *; lia). apply contiguous_nil.
  - destruct (Z.le_gt_cases (Z.of_nat k) (len (log r))) as [Hle|Hgt].
    + rewrite len_drop by done. lia.
    + rewrite drop_ge by (unfold len in *; lia). rewrite len_nil. lia.
Qed.

Lemma wf_persister r p : wf r → wf (r <| persister := p |>).
Proof. intros H. by wf_same H. Qed.

(** What the handler leaves behind is, up to the durable state, the old node
    after contact or the node with the snapshot installed and, if all went well,
    queued for the state machine. *)
Lemma InstallSnapshot_inv rnd req r :
  let r' := fst (InstallSnapshot rnd req r) in
  r' = r ∨
  (currentTerm r ≤ isTerm req ∧ r' = is_contact rnd req r) ∨
  (currentTerm r ≤ isTerm req ∧ commitIndex r < isLastIncludedIndex req ∧
   ∃ p ch, r' = (installed req (is_contact rnd req r)) <| persister := p |> <| applyCh := ch |> ∧
     diverges req r = false ∧
     (ch = applyCh r ∨ ch = applyCh r ++ [snapshot_msg (isData req) (isLastIncludedIndex req)
                                            (isLastIncludedTerm req)])).
Proof.
  cbv zeta. rewrite InstallSnapshot_unfold.
  branch; [by left|]. branch; [by left|]. cbv zeta.
  destruct (is_contact_frame rnd req r) as (Hl & Hb & Hci & _ & Hch). cbv zeta in *.
  assert (diverges req (is_contact rnd req r) = diverges req r) as -> by (unfold diverges; by rewrite Hl, Hb).
  branch; [right; left; auto|]. right; right. rewrite Hci in *. split; [done|]. split; [lia|].
  assert (applyCh (installed req (is_contact rnd req r)) = applyCh r) as Hc by done.
  revert Hc. generalize (installed req (is_contact rnd req r)). intros x Hc.
  destruct (persist x) as [r1 [e|]] eqn:Hp; apply persist_inv in Hp as (p & -> & _);
    [exists p, (applyCh x); by auto|].
  destruct (SaveSnapshot _ _ _ _) as [p2 [e|]]; [exists p2, (applyCh x); by auto|].
  destruct (send_applyCh _ _) eqn:Hs; [apply send_applyCh_inv in Hs as ->|].
  - exists p2, (applyCh x ++ [snapshot_msg (isData req) (isLastIncludedIndex req)
                                (isLastIncludedTerm req)]).
    split_and!; [done..|right; by rewrite Hc].
  - exists p2, (applyCh x). auto.
Qed.

Lemma InstallSnapshot_wf rnd req r : wf r → isLastIncludedIndex req < 2 ^ 62 →
  wf (fst (InstallSnapshot rnd req r)).
Proof.
  intros Hwf Hb. destruct (is_contact_frame rnd req r) as (_ & _ & Hci & _).
  destruct (InstallSnapshot_inv rnd req r) as [->|[[_ ->]|(_ & ? & p & ch & -> & _)]];
    auto using wf_is_contact.
  apply wf_applyCh, wf_persister, wf_installed; [by apply wf_is_contact|].
  cbv zeta in Hci. rewrite Hci. lia.
Qed.

Lemma InstallSnapshot_quiet rnd req r : quiet r (fst (InstallSnapshot rnd req r)).
Proof.
  destruct (InstallSnapshot_inv rnd req r) as [->|[[? ->]|(? & _ & p & ch & -> & _)]];
    [done|by apply is_contact_quiet|].
  etrans; [by apply (is_contact_quiet rnd req)|]. quiet_solve.
Qed.
End replication_facts.

(** ** Properties of AppendEntries *)

Section append_properties.
Context {P : Type} `{PL : PersisterLaws P}.
Implicit Types r : Raft P.

Lemma covered_index (old new : list LogEntry) i e : covered old new = true →
  index new i = Some e → ∃ e', index old i = Some e' ∧ eTerm e' = eTerm e.
Proof.
  intros Hc Hi. pose proof (index_Some_range _ _ _ Hi) as Hr.
  rewrite index_lookup in Hi |- * by lia. generalize dependent (Z.to_nat i). clear i Hr.
  revert old Hc. induction new as [|x new IH]; intros old Hc n Hi; [done|].
  destruct old as [|o old]; [done|]. cbn in Hc. apply andb_true_iff in Hc as [Hx Hc].
  destruct n as [|n]; cbn in *; [|eauto]. apply Z.eqb_eq in Hx. simplify_eq. eauto.
Qed.

(** The part of the log up to [prevLogIndex] is kept; after it, every entry of
    the request is matched. *)
Lemma merged_log_entries req r : wf r → ae_wf req → consistent req r = true →
  (aePrevLogIndex req < logBase r → aeEntries req = []) →
  (∀ abs, abs ≤ aePrevLogIndex req →
     index (merged_log req r) (abs - logBase r - 1) = entry_at r abs) ∧
  (∀ i e, index (aeEntries req) i = Some e →
     ∃ e', index (merged_log req r) (aePrevLogIndex req + i - logBase r) = Some e' ∧
           eTerm e' = eTerm e).
Proof.
  intros Hwf Hreq Hc Hlow. pose proof (consistent_range req r Hwf Hreq Hc) as Hrng.
  pose proof Hwf as []. pose proof Hreq as []. unfold merged_log, entry_at.
  destruct (Z.lt_ge_cases (aePrevLogIndex req) (logBase r)) as [Hlt|Hge].
  { rewrite Hlow by done. simpl. rewrite take_drop. split; [done|].
    intros i e Hi%index_Some_range. unfold len in Hi. simpl in Hi. lia. }
  set (k := Z.to_nat _). assert (Z.of_nat k = aePrevLogIndex req - logBase r) by lia.
  assert (Z.of_nat k ≤ len (log r)) as Hk
    by (unfold last_index in *; pose proof (len_nonneg (log r)); lia).
  split.
  - intros abs Habs. rewrite index_app_l by (rewrite len_take; lia). apply index_take. lia.
  - intros i e Hi. pose proof (index_Some_range _ _ _ Hi).
    rewrite index_app_r by (rewrite len_take; lia). rewrite len_take by done.
    replace (aePrevLogIndex req + i - logBase r - Z.of_nat k) with i by lia.
    by eapply covered_index; [apply merge_covers|].
Qed.

Lemma follower_commit_spec req r : ae_wf req →
  commitIndex (follower_commit req r) =
    Z.max (commitIndex r)
      (Z.min (aeLeaderCommit req) (aePrevLogIndex req + len (aeEntries req))) ∧
  log (follower_commit req r) = log r ∧ logBase (follower_commit req r) = logBase r ∧
  persister (follower_commit req r) = persister r ∧
  votedFor (follower_commit req r) = votedFor r ∧
  currentTerm (follower_commit req r) = currentTerm r.
Proof.
  intros []. unfold follower_commit. pose proof (len_nonneg (aeEntries req)). unwrap.
  branch; cbn; split_and!; auto; lia.
Qed.

(** C10: When a follower answers an AppendEntries request with success, its
    log up to [prevLogIndex] is what it was, and after it every entry of the
    request is matched by an entry of the same term at the same index; the log
    it answered for is on disk, with the request's term, whenever it differs
    from the one before; the commit index has moved to the leader's, but not
    past the last entry of the request, and never back; the node is well
    formed. *)
Theorem append_entries_replicates rnd (req : AppendEntriesRequest) r r' resp :
  wf r → ae_wf req → AppendEntries rnd req r = (r', Ret resp) → aerSuccess resp = true →
  currentTerm r ≤ aeTerm req ∧ currentTerm r' = aeTerm req ∧ aerTerm resp = aeTerm req ∧
  logBase r' = logBase r ∧
  (∀ abs, abs ≤ aePrevLogIndex req → entry_at r' abs = entry_at r abs) ∧
  (∀ i e, index (aeEntries req) i = Some e →
     ∃ e', entry_at r' (aePrevLogIndex req + i + 1) = Some e' ∧ eTerm e' = eTerm e) ∧
  (log r' = log r ∨ Load (persister r') = inl (aeTerm req, votedFor r', log r')) ∧
  commitIndex r' = Z.max (commitIndex r)
    (Z.min (aeLeaderCommit req) (aePrevLogIndex req + len (aeEntries req))) ∧
  wf r'.
Proof.
  intros Hwf Hreq HA Hok. pose proof (AppendEntries_outcome rnd req r Hwf Hreq) as Ho.
  pose proof (AppendEntries_wf rnd req r Hwf Hreq) as Hwf'. rewrite HA in Ho, Hwf'. cbn in Ho, Hwf'.
  inversion Ho as [|? ? E1 E2| | |p Hle Hc Hlow Hp E1 E2]; subst; try done.
  clear Ho HA Hok. destruct (ae_contact_quiet rnd req r Hle) as [_ Ht].
  destruct (ae_contact_frame rnd req r) as (Hl & Hb & Hpe & Hci & _).
  match goal with |- context [follower_commit req ?x] => set (r1 := x) in * end.
  destruct (follower_commit_spec req r1 Hreq) as (-> & Hfl & Hfb & Hfp & Hfv & Hft).
  destruct (merged_log_entries req r Hwf Hreq Hc Hlow) as [Hpre Hent].
  unfold entry_at. rewrite Hfl, Hfb, Hfp, Hfv, Hft. subst r1. cbn in *. rewrite Hci.
  rewrite Ht, Hb. split_and!; auto.
  - intros i e Hi. destruct (Hent i e Hi) as (e' & He' & Hte). exists e'. split; [|done].
    rewrite <- He'. f_equal. lia.
  - destruct (already_there req r) eqn:Ha.
    + left. unfold merged_log. rewrite merge_covered by done. apply take_drop.
    + right. by eapply save_load.
Qed.

(** A node that has heard from this leader in this term. *)
Definition heard (req : AppendEntriesRequest) r : Prop :=
  currentTerm r = aeTerm req ∧ (state r ≠ Leader → leaderId r = aeLeaderId req).

Lemma heard_contact rnd req r : currentTerm r ≤ aeTerm req → heard req (ae_contact rnd req r).
Proof.
  intros Hle. unfold ae_contact, heard. node_inv.
  destruct (Z.ltb_spec (currentTerm r) (aeTerm req)) as [|Hge]; cbn; [done|].
  assert (currentTerm r = aeTerm req) by lia.
  destruct (state_eqb (state r) Leader) eqn:Hs; cbn; state_props; split; auto; congruence.
Qed.

Lemma contact_heard rnd req r : heard req r → ae_contact rnd req r = resetElectionTimerLocked rnd r.
Proof.
  intros (Ht & Hl). unfold ae_contact. rewrite (proj2 (Z.ltb_ge _ _)) by lia. f_equal.
  destruct (state_eqb (state r) Leader) eqn:Hs; cbn; state_props; [done|].
  rewrite <- Hl by done. by destruct r.
Qed.

Lemma merged_log_again req r r' : wf r → ae_wf req → consistent req r = true →
  (aePrevLogIndex req < logBase r → aeEntries req = []) →
  log r' = merged_log req r → logBase r' = logBase r →
  consistent req r' = true ∧ merged_log req r' = log r' ∧ already_there req r' = true.
Proof.
  intros Hwf Hreq Hc Hlow Hl Hb. pose proof (consistent_range req r Hwf Hreq Hc) as Hrng.
  destruct (merged_log_entries req r Hwf Hreq Hc Hlow) as [Hpre _].
  pose proof Hwf as []. pose proof Hreq as []. unfold last_index in *.
  pose proof (len_nonneg (log r)). pose proof (len_nonneg (aeEntries req)). split_and!.
  - rewrite <- Hc. unfold consistent. rewrite Hl, Hb. branch; [|done].
    unwrap. by rewrite Hpre by lia.
  - unfold merged_log at 1. rewrite Hl, Hb.
    destruct (Z.lt_ge_cases (aePrevLogIndex req) (logBase r)) as [Hlt|Hge].
    { rewrite Hlow by done. simpl. apply take_drop. }
    unfold merged_log. set (k := Z.to_nat _).
    assert (length (take k (log r)) = k) as Hk
      by (rewrite length_take; unfold len in *; lia).
    rewrite take_app_le, drop_app_ge by lia. rewrite (take_ge (take k _)) by lia.
    rewrite Hk, Nat.sub_diag.
    rewrite drop_0. by rewrite merge_idemp.
  - unfold already_there. rewrite Hl, Hb.
    destruct (Z.lt_ge_cases (aePrevLogIndex req) (logBase r)) as [Hlt|Hge].
    { by rewrite Hlow. }
    unfold merged_log. set (k := Z.to_nat _).
    assert (length (take k (log r)) = k) as Hk
      by (rewrite length_take; unfold len in *; lia).
    rewrite drop_app_ge by lia. rewrite Hk, Nat.sub_diag, drop_0. apply merge_covers.
Qed.

(** C14: AppendEntries is idempotent: a request delivered again right after it
    succeeded gets the same answer and does nothing but draw a new timeout for
    the election timer, if the node has one; every other part of the node, its
    disk included, is left as it is. *)
Theorem append_entries_idempotent rnd rnd' (req : AppendEntriesRequest) r r' resp :
  wf r → ae_wf req → AppendEntries rnd req r = (r', Ret resp) → aerSuccess resp = true →
  AppendEntries rnd' req r' = (resetElectionTimerLocked rnd' r', Ret resp).
Proof.
  intros Hwf Hreq HA Hok. pose proof (AppendEntries_outcome rnd req r Hwf Hreq) as Ho.
  pose proof (AppendEntries_wf rnd req r Hwf Hreq) as Hwf'. rewrite HA in Ho, Hwf'. cbn in Ho, Hwf'.
  inversion Ho as [|? ? E1 E2| | |p Hle Hc Hlow Hp E1 E2]; subst; try done.
  clear Ho HA Hok Hp. pose proof (heard_contact rnd req r Hle) as Hh.
  match goal with |- context [follower_commit req ?x] => set (r1 := x) in * end.
  assert (heard req (follower_commit req r1)) as Hh'
    by (unfold follower_commit; branch; exact Hh).
  destruct (follower_commit_spec req r1 Hreq) as (Hci & Hfl & Hfb & _).
  destruct (ae_contact_frame rnd req r) as (_ & Hb & _). cbv zeta in Hb.
  set (r' := follower_commit req r1) in *. clearbody r'.
  assert (log r' = merged_log req r ∧ logBase r' = logBase r) as [Hl' Hb']
    by (rewrite Hfl, Hfb; subst r1; done).
  destruct (merged_log_again req r r' Hwf Hreq Hc Hlow Hl' Hb') as (Hc' & Hm & Ha).
  rewrite AppendEntries_unfold. rewrite (proj2 (Z.ltb_ge _ _)) by (destruct Hh'; lia).
  cbv zeta. rewrite contact_heard by done.
  destruct (resetElectionTimerLocked_inv rnd' r') as [t ->].
  change (consistent req (r' <| electionTimer := t |>)) with (consistent req r'). rewrite Hc'.
  change (log (r' <| electionTimer := t |>)) with (log r').
  change (logBase (r' <| electionTimer := t |>)) with (logBase r').
  cbn [negb]. rewrite append_loop_merged by done. rewrite Hb', Hm, Ha.
  destruct (_ && _)%bool eqn:Hlt.
  { apply andb_true_iff in Hlt as [?%Z.ltb_lt Hn]. rewrite Hlow in Hn by done. done. }
  cbn [negb]. assert (r' <| electionTimer := t |> <| log := log r' |> = r' <| electionTimer := t |>)
    as -> by by destruct r'.
  unfold follower_commit. pose proof Hreq as [? ? ?]. pose proof (len_nonneg (aeEntries req)).
  unwrap. cbn. branch; [lia|done].
Qed.

(** Nothing is written for entries that are already there. *)
Lemma already_there_no_failure rnd (req : AppendEntriesRequest) r r' e : wf r → ae_wf req →
  consistent req r = true → already_there req r = true → AppendEntries rnd req r ≠ (r', Fail e).
Proof.
  intros Hwf Hreq Hc Ha. rewrite AppendEntries_unfold. branch; [done|]. cbv zeta.
  destruct (ae_contact_frame rnd req r) as (Hl & Hb & _). cbv zeta in Hl, Hb.
  assert (consistent req (ae_contact rnd req r) = true) as -> by (unfold consistent in *; by rewrite Hl, Hb).
  cbn [negb]. rewrite Hl, Hb, append_loop_merged, Ha by done. by destruct (_ && _).
Qed.

(** C37: A failed write is forgotten.  When the handler answers a well-formed
    request with an error, it could not persist entries it did not have, but has
    put them into its log in memory.  If the leader sends the same request again
    before the node does anything else, it is answered with success, whatever the
    disk would do now, although the term, vote and log on disk are still those
    from before the first request. *)
Theorem failed_append_acknowledged rnd rnd' (req : AppendEntriesRequest) r r' e :
  wf r → ae_wf req → AppendEntries rnd req r = (r', Fail e) →
  ∃ r'' resp, AppendEntries rnd' req r' = (r'', Ret resp) ∧ aerSuccess resp = true ∧
    log r'' = merged_log req r ∧ already_there req r = false ∧
    Load (persister r'') = Load (persister r).
Proof.
  intros Hwf Hreq HA. pose proof (AppendEntries_wf rnd req r Hwf Hreq) as Hwf'.
  pose proof (AppendEntries_outcome rnd req r Hwf Hreq) as Ho. rewrite HA in Ho, Hwf'. cbn in Ho, Hwf'.
  inversion Ho as [| | |p e' Hle Hc Hlow Hsv E1 E2|]; subst r'. subst e. clear Ho.
  destruct (already_there req r) eqn:Ha.
  { by apply already_there_no_failure in HA. }
  set (r1 := (ae_contact rnd req r) <| log := merged_log req r |> <| persister := p |>) in *.
  destruct (ae_contact_frame rnd req r) as (_ & Hb & _). cbv zeta in Hb.
  destruct (merged_log_again req r r1) as (Hc1 & Hm1 & Ha1); auto.
  pose proof (AppendEntries_outcome rnd' req r1 Hwf' Hreq) as Ho.
  destruct (AppendEntries rnd' req r1) as [r2 res] eqn:HA1. cbn in Ho.
  assert (currentTerm r1 = aeTerm req) as Ht1 by (cbn; by destruct (ae_contact_quiet rnd req r Hle)).
  pose proof (save_failed _ _ _ _ _ _ Hsv) as Hld.
  inversion Ho as [|? Hc2|? ? Hlow2 He2|p2 e2 ? ? ? Hsv2|p2 ? ? ? Hp2]; subst; try (lia || congruence).
  - exfalso. apply He2, Hlow. change (logBase r1) with (logBase (ae_contact rnd req r)) in Hlow2. lia.
  - by apply already_there_no_failure in HA1.
  - rewrite Ha1 in Hp2. subst p2. eexists _, _. split; [done|]. split; [done|].
    destruct (follower_commit_spec req ((ae_contact rnd' req r1) <| log := merged_log req r1 |>
      <| persister := persister r1 |>) Hreq) as (_ & -> & _ & -> & _).
    cbn. rewrite Hm1. done.
Qed.

(** C36: The handler crashes the process exactly when the request carries
    entries for indices below the follower's log slice and passes the
    consistency test, which it does only with [prevLogIndex = 0] on a follower
    that has compacted its log. *)
Theorem append_entries_panics rnd (req : AppendEntriesRequest) r : wf r → ae_wf req →
  snd (AppendEntries rnd req r) = Panic ↔
  currentTerm r ≤ aeTerm req ∧ aePrevLogIndex req = 0 ∧ 0 < logBase r ∧ aeEntries req ≠ [].
Proof.
  intros Hwf Hreq. rewrite AppendEntries_unfold. cbv zeta.
  destruct (Z.ltb_spec (aeTerm req) (currentTerm r)) as [|Hge]; [split; [done|lia]|].
  destruct (ae_contact_frame rnd req r) as (Hl & Hb & _). cbv zeta in Hl, Hb.
  assert (consistent req (ae_contact rnd req r) = consistent req r) as ->
    by (unfold consistent; by rewrite Hl, Hb).
  rewrite Hl, Hb. pose proof Hwf as []. pose proof Hreq as [].
  destruct (consistent req r) eqn:Hc; cbn [negb].
  - pose proof (consistent_range req r Hwf Hreq Hc) as Hrng.
    rewrite append_loop_merged by done. destruct (_ && _)%bool eqn:Hlt.
    + apply andb_true_iff in Hlt as [?%Z.ltb_lt Hn%negb_true_iff%bool_decide_eq_false].
      split; [|done]. intros _. split_and!; auto; lia.
    + split.
      * destruct (persist _) as [? [?|]], (already_there req r); cbn; intros E; discriminate E.
      * intros (_ & Hp & Hb0 & Hn). apply andb_false_iff in Hlt as [?%Z.ltb_ge|Hn'].
        -- lia.
        -- apply negb_false_iff, bool_decide_eq_true in Hn'. done.
  - split; [done|]. intros (_ & Hp & _). unfold consistent in Hc. rewrite Hp in Hc. done.
Qed.
End append_properties.

(** ** Properties of the leader *)

Section leader_properties.
Context {P : Type} `{PL : PersisterLaws P}.
Implicit Types r : Raft P.

(** C11: The commit rule.  The leader's commit index never moves back; when it
    moves, the entry it moves to is in the log, is of the leader's own term
    and is held by more than half of the cluster, and no higher index is; and
    if the highest index held by a majority is above the commit index and of
    the current term, the commit index does move there.  Nothing but the
    commit index and the wake-up of the apply loop changes. *)
Theorem commit_rule r : wf r → state r = Leader →
  let r' := updateCommitIndex r in
  commitIndex r ≤ commitIndex r' ≤ Z.max (commitIndex r) (last_index r) ∧
  (commitIndex r < commitIndex r' →
     commitCh r' = true ∧ majority r (commitIndex r') ∧
     (∀ m, commitIndex r' < m ≤ last_index r → ¬ majority r m) ∧
     ∃ e, entry_at r (commitIndex r') = Some e ∧ eTerm e = currentTerm r) ∧
  (∀ k e, commitIndex r < k ≤ last_index r → majority r k →
     (∀ m, k < m ≤ last_index r → ¬ majority r m) →
     entry_at r k = Some e → eTerm e = currentTerm r → commitIndex r' = k) ∧
  (∃ n c, r' = r <| commitIndex := n |> <| commitCh := c |>).
Proof.
  intros Hwf Hs. cbv zeta.
  assert (∃ n c, updateCommitIndex r = r <| commitIndex := n |> <| commitCh := c |>) as Hinv
    by (destruct (updateCommitIndex_inv r) as (n & c & ? & _); eauto).
  destruct (updateCommitIndex_spec r Hwf Hs) as
    [(k & e & Hk & Hm & Hall & He & Heq)|[Hall Heq]].
  - assert (∀ k' e', commitIndex r < k' ≤ last_index r → majority r k' →
      (∀ m, k' < m ≤ last_index r → ¬ majority r m) → entry_at r k' = Some e' →
      k' = k ∧ e' = e) as Huniq.
    { intros k' e' Hk' Hm' Hall' He'. assert (k' = k) as ->; [|split; congruence].
      destruct (Z.lt_trichotomy k' k) as [?|[?|?]]; [|done|].
      - by destruct (Hall' k ltac:(lia)).
      - by destruct (Hall k' ltac:(lia)). }
    split_and!; [..|done]; rewrite Heq;
      (destruct (Z.eqb_spec (eTerm e) (currentTerm r)) as [Ht|Hne]; cbn); try lia.
    + intros _. split_and!; eauto.
    + intros k' e' Hk' Hm' Hall' He' _. by destruct (Huniq k' e') as [-> _].
    + intros k' e' Hk' Hm' Hall' He' Ht'. destruct (Huniq k' e') as [_ ->]; auto. done.
  - rewrite Heq. split_and!; [lia|lia| |..].
    + lia.
    + intros k e Hk Hm. by destruct (Hall k ltac:(lia)).
    + exists (commitIndex r), (commitCh r). by destruct r.
Qed.

(** C34: What a leader sends describes its own log.  For a well-formed node whose
    [nextIndex] for the peer is at most [2 ^ 62]: when [sendAppendEntries] makes a
    call, the node leads, the request is of its current term and well formed, its
    entries are the leader's at consecutive indices after [prevLogIndex], and
    [prevLogTerm] is the term of the leader's entry there.  If the leader has not
    compacted its log, the request has all of it from there on. *)
Theorem leader_sends_own_log dialed id term commitIdx r r' req prev n :
  wf r → (∀ p, peers r !! id = Some p → nextIndex p ≤ 2 ^ 62) →
  sendAppendEntries_request dialed id term commitIdx r = (r', SendCall req prev n) →
  state r = Leader ∧ aeTerm req = currentTerm r ∧ ae_wf req ∧
  prev = aePrevLogIndex req ∧ n = len (aeEntries req) ∧
  (∀ i e, index (aeEntries req) i = Some e → entry_at r (prev + i + 1) = Some e) ∧
  (0 < prev → ∃ e, entry_at r prev = Some e ∧ eTerm e = aePrevLogTerm req) ∧
  (logBase r = 0 → prev + n = last_index r).
Proof.
  intros Hwf Hn Hs.
  pose proof (sendAppendEntries_request_whole _ _ _ _ _ _ _ _ _ Hwf Hn Hs) as Hw.
  destruct (sendAppendEntries_request_segment _ _ _ _ _ _ _ _ _ Hwf Hn Hs)
    as ([] & -> & -> & Ht & Htr & Hst & _).
  split_and!; auto. congruence.
Qed.

(** A leader that has compacted its log up to [logBase] sends a follower
    that stands exactly there an AppendEntries request with [prevLogIndex = 0]
    and no entries, whatever the log holds above [logBase]; the follower's
    success leaves [nextIndex] where it was, so replication to that follower
    makes no progress. *)
Theorem compacted_leader_sends_nothing dialed id term commitIdx r p :
  wf r → 0 < logBase r → shutdown r = false → state r = Leader → currentTerm r = term →
  peers r !! id = Some p → connected p = true →
  nextIndex p = logBase r + 1 → matchIndex p = logBase r →
  let req := mkAppendEntriesRequest term (i32 (serverId r)) 0 0 [] commitIdx in
  let '(r1, a) := sendAppendEntries_request dialed id term commitIdx r in
  a = SendCall req 0 0 ∧
  ∀ resp, aerSuccess resp = true → aerTerm resp ≤ term →
    let '(r2, gs) := sendAppendEntries_reply id term commitIdx 0 0 resp r1 in
    gs = [] ∧ peers r2 !! id = Some p ∧ log r2 = log r ∧ logBase r2 = logBase r.
Proof.
  intros Hwf Hb Hsh Hs Ht Hp Hc Hni Hmi. pose proof Hwf as []. pose proof (len_nonneg (log r)).
  unfold last_index in *. cbv zeta. unfold sendAppendEntries_request, ensureConnected.
  rewrite Hsh, Hp, Hc. cbn -[index collect_entries]. rewrite Hs, Hsh, Hni.
  rewrite (proj2 (Z.eqb_eq (currentTerm r) term)) by done.
  cbn -[index collect_entries]. rewrite (proj2 (Z.ltb_ge (logBase r + 1) 1)) by lia.
  rewrite (i64_id (logBase r + 1 - 1)) by lia.
  replace (logBase r + 1 - 1) with (logBase r) by lia. rewrite Z.ltb_irrefl.
  rewrite (proj2 (Z.ltb_lt 0 (logBase r))) by lia. unwrap.
  rewrite index_None by lia.
  rewrite (collect_entries_spec _ 1) by lia. rewrite (proj2 (Z.leb_le 1 (logBase r))) by lia.
  split; [done|]. intros resp Hok Hrt. unfold sendAppendEntries_reply. cbn -[updateCommitIndex].
  rewrite Hs, Hsh, Ht, Z.eqb_refl, Hok. cbn -[updateCommitIndex].
  rewrite (proj2 (Z.ltb_ge term (aerTerm resp))) by lia.
  rewrite lookup_insert_eq. change (0 +! 0) with 0.
  rewrite (proj2 (Z.ltb_ge (matchIndex p) 0)) by lia. cbn -[updateCommitIndex].
  rewrite Hmi. rewrite i64_id by lia.
  match goal with |- context [updateCommitIndex ?x] =>
    destruct (updateCommitIndex_inv x) as (n & c & -> & _) end.
  cbn. split_and!; auto. rewrite lookup_insert_eq. f_equal. rewrite <- Hni. by destruct p.
Qed.

(** C15: [ReplicateCommand] on a leader appends one entry of the current term
    at the next index, and the entry is on disk before anything is sent; if it
    cannot be saved the log is what it was and the caller gets the error.  On
    another node nothing changes and the error is [ErrNotLeader]. *)
Theorem replicate_command cmd r : wf r → last_index r + 1 < 2 ^ 62 →
  let '(r', res) := ReplicateCommand_begin cmd r in
  if state_eqb (state r) Leader then
    match res with
    | Ret (idx, gs) =>
        idx = last_index r + 1 ∧ log r' = log r ++ [new_entry cmd r] ∧
        entry_at r' idx = Some (new_entry cmd r) ∧
        Load (persister r') = inl (currentTerm r, votedFor r, log r') ∧
        gs = (λ id, GSendAppendEntries id (currentTerm r) (commitIndex r')) <$> peer_ids r ∧
        wf r'
    | Fail e => log r' = log r ∧ Load (persister r') = Load (persister r) ∧ wf r' ∧
        ∃ e', e = Wrapf "persist command" e'
    | Panic => False
    end
  else r' = r ∧ res = Fail ErrNotLeader.
Proof.
  intros Hwf Hb. pose proof (ReplicateCommand_begin_wf cmd r Hwf Hb) as Hwf'.
  destruct (state_eqb (state r) Leader) eqn:Hs.
  - apply state_eqb_true in Hs. rewrite ReplicateCommand_begin_unfold in * by done.
    cbv zeta in *. destruct (Save _ _ _ _) as [p [e|]] eqn:Hsv.
    + cbn in *. split_and!; auto; [by eapply save_failed|eauto].
    + match type of Hwf' with context [updateCommitIndex ?x] =>
        destruct (updateCommitIndex_inv x) as (n & c & Hu & _); rewrite Hu in *; clear Hu end.
      cbn in *. split_and!; auto.
      * unfold entry_at, last_index. cbn. rewrite index_app_r by lia.
        by replace (logBase r + len (log r) + 1 - logBase r - 1 - len (log r)) with 0 by lia.
      * by eapply save_load.
  - unfold ReplicateCommand_begin. by rewrite Hs.
Qed.
End leader_properties.

(** ** Properties of InstallSnapshot *)

Section install_properties.
Context {P : Type} `{PL : PersisterLaws P}.
Implicit Types r : Raft P.

Lemma is_contact_term rnd req r : currentTerm r ≤ isTerm req →
  currentTerm (is_contact rnd req r) = isTerm req.
Proof. intros ?. unfold is_contact. node_inv. branch; cbn; lia. Qed.

Lemma is_contact_applied rnd req r : lastApplied (is_contact rnd req r) = lastApplied r.
Proof. unfold is_contact. node_inv. by branch. Qed.

Lemma installed_entry_at req r abs : wf r → commitIndex r < isLastIncludedIndex req < abs →
  entry_at (installed req r) abs = entry_at r abs.
Proof.
  intros Hwf Habs. unfold entry_at. rewrite installed_log by (done || lia).
  pose proof Hwf as []. cbn [logBase installed]. rewrite index_drop by (cbn; lia).
  f_equal. cbn. lia.
Qed.

(** C16: When the InstallSnapshot handler answers without error to a leader of
    a current term, the node is in the request's term and well formed, and
    either the snapshot was not needed (it ends at or below the commit index)
    or was refused (the log has another term at its last index), and log,
    commit index and disk are what they were; or the snapshot is the node's
    new base: the entries above it are kept, everything up to it is committed
    and applied, state and snapshot are on disk, and the snapshot is the next
    message for the state machine. *)
Theorem snapshot_installed rnd (req : InstallSnapshotRequest) r r' resp :
  wf r → 0 ≤ isLastIncludedIndex req < 2 ^ 62 → in_int (isLastIncludedTerm req) →
  currentTerm r ≤ isTerm req → InstallSnapshot rnd req r = (r', Ret resp) →
  currentTerm r' = isTerm req ∧ isrTerm resp = isTerm req ∧ wf r' ∧
  leaderId r' = isLeaderId req ∧
  if decide (isLastIncludedIndex req ≤ commitIndex r ∨ diverges req r = true) then
    log r' = log r ∧ logBase r' = logBase r ∧ commitIndex r' = commitIndex r ∧
    persister r' = persister r ∧ applyCh r' = applyCh r
  else
    logBase r' = isLastIncludedIndex req ∧ commitIndex r' = isLastIncludedIndex req ∧
    lastApplied r' = isLastIncludedIndex req ∧
    (∀ abs, isLastIncludedIndex req < abs → entry_at r' abs = entry_at r abs) ∧
    Load (persister r') = inl (isTerm req, votedFor r', log r') ∧
    LoadSnapshot (persister r') =
      inl (isData req, isLastIncludedIndex req, isLastIncludedTerm req) ∧
    applyCh r' = applyCh r ++
      [snapshot_msg (isData req) (isLastIncludedIndex req) (isLastIncludedTerm req)].
Proof.
  intros Hwf Hidx Hst Hle HI.
  pose proof (InstallSnapshot_wf rnd req r Hwf ltac:(lia)) as Hwf'. rewrite HI in Hwf'. cbn in Hwf'.
  rewrite InstallSnapshot_unfold in HI. revert HI. branch; [done|].
  rewrite (proj2 (Z.ltb_ge _ _)) by done. cbv zeta.
  destruct (is_contact_frame rnd req r) as (Hl & Hb & Hci & Hpe & Hch). cbv zeta in *.
  pose proof (is_contact_term rnd req r Hle) as Ht.
  assert (leaderId (is_contact rnd req r) = isLeaderId req) as Hld by done.
  pose proof (wf_is_contact rnd req r Hwf) as Hwf1.
  assert (diverges req (is_contact rnd req r) = diverges req r) as ->
    by (unfold diverges; by rewrite Hl, Hb).
  assert (∀ abs, entry_at (is_contact rnd req r) abs = entry_at r abs) as Hea
    by (intros abs; unfold entry_at; by rewrite Hl, Hb).
  rewrite Hci. set (r1 := is_contact rnd req r) in *. clearbody r1.
  destruct (_ || _)%bool eqn:Hc.
  - intros [= <- <-]. apply orb_true_iff in Hc. rewrite Z.leb_le in Hc.
    rewrite decide_True by done. split_and!; auto.
  - apply orb_false_iff in Hc as [?%Z.leb_gt Hd].
    rewrite decide_False by (intros [?|?]; [lia|congruence]).
    destruct (persist _) as [r2 [e|]] eqn:Hp; [done|].
    apply persist_inv in Hp as (p & -> & Hs). apply save_load in Hs.
    destruct (SaveSnapshot _ _ _ _) as [p2 [e|]] eqn:Hss; [done|].
    destruct (send_applyCh _ _) as [r3|] eqn:Ha; [|done].
    apply send_applyCh_inv in Ha as ->. intros [= <- <-].
    pose proof (λ abs Habs, eq_trans (installed_entry_at req r1 abs Hwf1 Habs) (Hea abs)) as Hent.
    unfold entry_at at 1 in Hent. unfold entry_at at 1.
    cbn in Hs, Hss, Hent |- *. rewrite Ht in Hs. split_and!; auto.
    + intros abs Habs. apply Hent. lia.
    + by rewrite (snapshot_keeps_state _ _ _ _ _ _ Hss).
    + eapply snapshot_load; [| |done]; [unfold in_int; lia|done].
    + by rewrite Hch.
Qed.

(** A failed installation is forgotten too.  When the handler cannot
    write the snapshot, or finds the apply channel full, it answers with an
    error but has already moved [commitIndex] and [lastApplied] to the end of
    the snapshot.  The leader's retry is answered as if nothing had to be done,
    and the snapshot never reaches the state machine: the next command it gets
    is the one after the snapshot, on the state it had before. *)
Theorem failed_install_acknowledged rnd rnd' (req : InstallSnapshotRequest) r r' e :
  len (isData req) ≤ maxSnapshotBytes → InstallSnapshot rnd req r = (r', Fail e) →
  commitIndex r < isLastIncludedIndex req ∧
  lastApplied r' = isLastIncludedIndex req ∧ applyCh r' = applyCh r ∧
  ∃ r'', InstallSnapshot rnd' req r' = (r'', Ret (mkInstallSnapshotResponse (isTerm req))) ∧
    lastApplied r'' = isLastIncludedIndex req ∧ applyCh r'' = applyCh r ∧ log r'' = log r'.
Proof.
  intros Hcap HI. rewrite InstallSnapshot_unfold in HI. rewrite (proj2 (Z.ltb_ge _ _)) in HI by done.
  revert HI. branch; [done|]. cbv zeta.
  destruct (is_contact_frame rnd req r) as (_ & _ & Hci & _ & Hch). cbv zeta in *.
  pose proof (is_contact_term rnd req r ltac:(done)) as Ht.
  branch; [done|]. rewrite Hci in *. set (x := installed req (is_contact rnd req r)).
  assert (∀ p, r' = x <| persister := p |> → commitIndex r < isLastIncludedIndex req ∧
    lastApplied r' = isLastIncludedIndex req ∧ applyCh r' = applyCh r ∧
    ∃ r'', InstallSnapshot rnd' req r' = (r'', Ret (mkInstallSnapshotResponse (isTerm req))) ∧
    lastApplied r'' = isLastIncludedIndex req ∧ applyCh r'' = applyCh r ∧ log r'' = log r') as Hdone.
  { intros p ->. split; [lia|]. split; [done|]. split; [exact Hch|].
    rewrite InstallSnapshot_unfold, (proj2 (Z.ltb_ge _ _)) by done.
    assert (currentTerm (x <| persister := p |>) = isTerm req) as -> by exact Ht.
    rewrite Z.ltb_irrefl. cbv zeta.
    destruct (is_contact_frame rnd' req (x <| persister := p |>)) as (Hl2 & _ & Hci2 & _ & Hch2).
    cbv zeta in *. rewrite Hci2. 
    change (commitIndex (x <| persister := p |>)) with (isLastIncludedIndex req). rewrite Z.leb_refl. cbn [orb].
    eexists. split; [done|]. by rewrite Hch2, Hl2, is_contact_applied. }
  destruct (persist x) as [r1 [err|]] eqn:Hp; apply persist_inv in Hp as (p & -> & _).
  { intros [= <- <-]. eauto. }
  destruct (SaveSnapshot _ _ _ _) as [p2 [err|]]; [intros [= <- <-]; by apply (Hdone p2)|].
  destruct (send_applyCh _ _); [done|]. intros [= <- <-]. by apply (Hdone p2).
Qed.
End install_properties.

(** ** Witnesses *)

Module ReplicationWitness.
Import MemoryPersister.

(** A follower of term 2 with entries [3, 4, 5] above a snapshot at 2. *)
Definition follower : Raft MemoryPersister :=
  NodeWitness.node <| state := Follower |> <| electionTimer := Some (Armed 200) |>.

Lemma follower_wf : wf follower.
Proof. pose proof NodeWitness.node_wf as H. by wf_same H. Qed.

(** Entries 5 (of a newer term) and 6 after entry 4. *)
Definition append : AppendEntriesRequest :=
  mkAppendEntriesRequest 3 2 4 2 [NodeWitness.entry 5 3; NodeWitness.entry 6 3] 5.

Lemma append_wf : ae_wf append.
Proof.
  split; [vm_compute; congruence|apply NodeWitness.node_contiguous; reflexivity|].
  vm_compute. reflexivity.
Qed.

(** The whole log, as a leader that has not compacted sends it. *)
Definition append_all : AppendEntriesRequest :=
  mkAppendEntriesRequest 3 2 0 0 [NodeWitness.entry 1 1] 0.

Definition install : InstallSnapshotRequest :=
  mkInstallSnapshotRequest 3 2 5 2 0 [Byte.x00] true.
End ReplicationWitness.

Lemma append_entries_replicates_witness :
  let '(r', res) := AppendEntries 0 ReplicationWitness.append ReplicationWitness.follower in
  log r' = [NodeWitness.entry 3 1; NodeWitness.entry 4 2; NodeWitness.entry 5 3;
            NodeWitness.entry 6 3] ∧ commitIndex r' = 5 ∧ wf r'.
Proof.
  destruct (AppendEntries 0 ReplicationWitness.append ReplicationWitness.follower)
    as [r' res] eqn:HA.
  pose proof HA as HA'. vm_compute in HA'. injection HA' as Hr Hres. subst res.
  pose proof (append_entries_replicates _ _ _ _ _ ReplicationWitness.follower_wf
    ReplicationWitness.append_wf HA eq_refl) as (_ & _ & _ & _ & _ & _ & _ & Hc & Hwf).
  split; [rewrite <- Hr; reflexivity|]. split; [rewrite Hc; reflexivity|exact Hwf].
Defined.

Lemma append_entries_idempotent_witness :
  let '(r', res) := AppendEntries 0 ReplicationWitness.append ReplicationWitness.follower in
  AppendEntries 7 ReplicationWitness.append r' = (r' <| electionTimer := Some (Armed 157) |>, res).
Proof.
  destruct (AppendEntries 0 ReplicationWitness.append ReplicationWitness.follower)
    as [r' res] eqn:HA.
  pose proof HA as HA'. vm_compute in HA'. injection HA' as Hr Hres. subst res.
  rewrite (append_entries_idempotent _ 7 _ _ _ _ ReplicationWitness.follower_wf
             ReplicationWitness.append_wf HA eq_refl).
  rewrite <- Hr. reflexivity.
Defined.

Lemma failed_append_acknowledged_witness :
  let r := ReplicationWitness.follower
    <| persister := MemoryPersister.SetSaveErr (Some (Errorf "disk full")) (persister ReplicationWitness.follower) |> in
  match AppendEntries 0 ReplicationWitness.append r with
  | (r', Fail _) => ∃ r'' resp, AppendEntries 0 ReplicationWitness.append r' = (r'', Ret resp) ∧
      aerSuccess resp = true ∧ Load (persister r'') = Load (persister r)
  | _ => False
  end.
Proof.
  cbv zeta. set (r := ReplicationWitness.follower <| persister := _ |>).
  destruct (AppendEntries 0 ReplicationWitness.append r) as [r' res] eqn:HA.
  pose proof HA as HA'. vm_compute in HA'. injection HA' as _ Hres. subst res.
  assert (wf r) as Hwf by (pose proof ReplicationWitness.follower_wf as Hw; wf_same Hw).
  destruct (failed_append_acknowledged 0 0 _ r r' _ Hwf ReplicationWitness.append_wf HA)
    as (r'' & resp & ? & ? & _ & _ & ?).
  exists r'', resp. split; [assumption|]. split; assumption.
Defined.

Lemma append_entries_panics_witness :
  snd (AppendEntries 0 ReplicationWitness.append_all ReplicationWitness.follower) = Panic.
Proof.
  apply (append_entries_panics 0 ReplicationWitness.append_all ReplicationWitness.follower
           ReplicationWitness.follower_wf).
  - split; [vm_compute; congruence|apply NodeWitness.node_contiguous; reflexivity|].
    vm_compute. reflexivity.
  - split; [vm_compute; congruence|]. split; [reflexivity|].
    split; [vm_compute; reflexivity|discriminate].
Defined.

Lemma commit_rule_witness :
  let r := NodeWitness.node <| commitIndex := 3 |> in
  commitIndex (updateCommitIndex r) = 4.
Proof.
  assert (wf (NodeWitness.node <| commitIndex := 3 |>)) as Hwf
    by (pose proof NodeWitness.node_wf as H; wf_same H; vm_compute; congruence).
  destruct (commit_rule (NodeWitness.node <| commitIndex := 3 |>) Hwf eq_refl) as (_ & _ & H & _).
  apply (H 4 (NodeWitness.entry 4 2));
    [vm_compute; intuition congruence|by_evaluation| |reflexivity|reflexivity].
  intros m Hm. assert (m = 5) as -> by (change (4 < m ≤ 5) in Hm; lia). by_evaluation.
Defined.

Lemma leader_sends_own_log_witness :
  let '(r', a) := sendAppendEntries_request true 3 2 4 NodeWitness.node in
  match a with
  | SendCall req prev n =>
      prev = 4 ∧ (0 < prev → ∃ e, entry_at NodeWitness.node prev = Some e ∧
                                  eTerm e = aePrevLogTerm req)
  | _ => False
  end.
Proof.
  destruct (sendAppendEntries_request true 3 2 4 NodeWitness.node) as [r' a] eqn:HS.
  pose proof HS as HS'. vm_compute in HS'. injection HS' as _ Ha. subst a.
  split; [reflexivity|].
  refine (proj1 (proj2 (proj2 (proj2 (proj2 (proj2 (proj2
    (leader_sends_own_log _ _ _ _ _ _ _ _ _ NodeWitness.node_wf _ HS)))))))).
  intros p Hp. vm_compute in Hp. injection Hp as <-. vm_compute. discriminate.
Defined.

Lemma compacted_leader_sends_nothing_witness :
  exists req, snd (sendAppendEntries_request true 2 2 4
    (NodeWitness.node <| peers := {[2 := mkPeer 2 "localhost:1" true 3 2]} |>)) = SendCall req 0 0 ∧
    aeEntries req = [].
Proof.
  assert (wf (NodeWitness.node <| peers := {[2 := mkPeer 2 "localhost:1" true 3 2]} |>)) as Hwf
    by (pose proof NodeWitness.node_wf as H; by wf_same H).
  pose proof (compacted_leader_sends_nothing true 2 2 4 _ (mkPeer 2 "localhost:1" true 3 2) Hwf
    eq_refl eq_refl eq_refl eq_refl eq_refl eq_refl eq_refl eq_refl) as H.
  cbv zeta in H. destruct (sendAppendEntries_request _ _ _ _ _) as [r1 a].
  destruct H as [-> _]. eexists. split; reflexivity.
Defined.

Lemma replicate_command_witness :
  let '(r', res) := ReplicateCommand_begin [Byte.x02] NodeWitness.node in
  match res with
  | Ret (idx, _) => idx = 6 ∧ entry_at r' 6 = Some (mkLogEntry 6 2 [Byte.x02])
  | _ => False
  end.
Proof.
  pose proof (replicate_command [Byte.x02] NodeWitness.node NodeWitness.node_wf eq_refl) as H.
  destruct (ReplicateCommand_begin [Byte.x02] NodeWitness.node) as [r' res] eqn:HR.
  vm_compute in HR. injection HR as _ Hres. subst res. cbn [state NodeWitness.node state_eqb] in H.
  destruct H as (_ & _ & H & _). split; [reflexivity|exact H].
Defined.

Lemma snapshot_installed_witness :
  let '(r', res) := InstallSnapshot 0 ReplicationWitness.install ReplicationWitness.follower in
  logBase r' = 5 ∧ log r' = [] ∧ wf r'.
Proof.
  destruct (InstallSnapshot 0 ReplicationWitness.install ReplicationWitness.follower)
    as [r' res] eqn:HI.
  pose proof HI as HI'. vm_compute in HI'. injection HI' as Hr Hres. subst res.
  destruct (snapshot_installed 0 ReplicationWitness.install ReplicationWitness.follower r'
    (mkInstallSnapshotResponse 3) ReplicationWitness.follower_wf) as (_ & _ & Hwf & _);
    [vm_compute; intuition congruence|vm_compute; intuition congruence|vm_compute; congruence
    |exact HI|].
  split; [rewrite <- Hr; reflexivity|]. split; [rewrite <- Hr; reflexivity|exact Hwf].
Defined.

Lemma failed_install_acknowledged_witness :
  let r := ReplicationWitness.follower
    <| persister := MemoryPersister.SetSaveErr (Some (Errorf "disk full")) (persister ReplicationWitness.follower) |> in
  match InstallSnapshot 0 ReplicationWitness.install r with
  | (r', Fail _) => ∃ r'', InstallSnapshot 0 ReplicationWitness.install r' =
      (r'', Ret (mkInstallSnapshotResponse 3)) ∧ lastApplied r'' = 5 ∧ applyCh r'' = applyCh r
  | _ => False
  end.
Proof.
  cbv zeta. set (r := ReplicationWitness.follower <| persister := _ |>).
  destruct (InstallSnapshot 0 ReplicationWitness.install r) as [r' res] eqn:HI.
  pose proof HI as HI'. vm_compute in HI'. injection HI' as _ Hres. subst res.
  destruct (failed_install_acknowledged 0 0 ReplicationWitness.install r r' _
    ltac:(vm_compute; discriminate) HI) as (_ & _ & _ & r'' & ? & ? & ? & _).
  exists r''. split; [assumption|]. split; assumption.
Defined.
