(* ===== verification/Snapshot.v ===== *)
(** * Snapshots

    [raft/snapshot.go]: local log compaction and the leader's
    [sendInstallSnapshot]. *)

From S2P Require Import Prelude Types Persister Node Election Replication.

Section snapshot.
Context {P : Type} `{PP : Persister P}.
Implicit Types r : Raft P.

(** [Snapshot]: [None] is a nil error. *)
Definition Snapshot (idx : Z) (data : bytes) r : Raft P * option error :=
  if maxSnapshotBytes <? len data then (r, Some (Errorf "snapshot exceeds cap"))
  else if commitIndex r <? idx then (r, Some (Errorf "snapshot index beyond commitIndex"))
  else if idx <=? logBase r then (r, None)
  else
    let arrayIdx := idx -! logBase r -! 1 in
    match index (log r) arrayIdx with
    | None => (r, Some (Errorf "log does not contain entry at index"))
    | Some e =>
      if negb (eIndex e =? idx)
      then (r, Some (Errorf "log does not contain entry at index"))
      else
        let snapTerm := eTerm e in
        let r := r <| log := drop (Z.to_nat (arrayIdx + 1)) (log r) |>
                   <| logBase := idx |>
                   <| snapshot := data |>
                   <| snapshotIndex := idx |>
                   <| snapshotTerm := snapTerm |> in
        match persist r with
        | (r, Some err) => (r, Some (Wrapf "persist raft state after snapshot" err))
        | (r, None) =>
          let '(p, err) :=
            SaveSnapshot (snapshot r) (snapshotIndex r) (snapshotTerm r) (persister r) in
          let r := r <| persister := p |> in
          match err with
          | Some err => (r, Some (Wrapf "save snapshot" err))
          | None => (r, None)
          end
        end
    end.

(** [sendInstallSnapshot] up to the RPC: the request and the index it
    covers. *)
Definition sendInstallSnapshot_request (dialed : bool) (peerId term : Z) r
    : Raft P * option (InstallSnapshotRequest * Z) :=
  if shutdown r then (r, None)
  else
    match peers r !! peerId with
    | None => (r, None)
    | Some p =>
      if len (snapshot r) =? 0 then (r, None)
      else
        match ensureConnected dialed p with
        | (_, Some _) => (r, None)
        | (p, None) =>
          (r <| peers := <[peerId := p]> (peers r) |>,
           Some (mkInstallSnapshotRequest term (i32 (serverId r)) (snapshotIndex r)
                   (snapshotTerm r) 0 (snapshot r) true, snapshotIndex r))
        end
    end.

(** [sendInstallSnapshot] after the RPC. *)
Definition sendInstallSnapshot_reply (peerId term lastIdx : Z)
    (resp : InstallSnapshotResponse) r : Raft P :=
  if (negb (state_eqb (state r) Leader) || negb (currentTerm r =? term)
      || shutdown r)%bool then r
  else if currentTerm r <? isrTerm resp then stepDown (isrTerm resp) r
  else
    match peers r !! peerId with
    | None => r
    | Some p =>
      let p := if matchIndex p <? lastIdx then p <| matchIndex := lastIdx |> else p in
      let p := p <| nextIndex := matchIndex p +! 1 |> in
      updateCommitIndex (r <| peers := <[peerId := p]> (peers r) |>)
    end.
End snapshot.

Section snapshot_facts.
Context {P : Type} `{PP : Persister P}.
Implicit Types r : Raft P.

(** The node with the log folded up to [idx], before it is made durable. *)
Definition compacted (idx : Z) (data : bytes) (e : LogEntry) r : Raft P :=
  r <| log := drop (Z.to_nat (idx - logBase r)) (log r) |>
    <| logBase := idx |>
    <| snapshot := data |>
    <| snapshotIndex := idx |>
    <| snapshotTerm := eTerm e |>.

(** The method on every branch: refused, nothing to do, or folded. *)
Lemma Snapshot_unfold idx data r : wf r → idx < 2 ^ 62 →
  Snapshot idx data r =
    if maxSnapshotBytes <? len data then (r, Some (Errorf "snapshot exceeds cap"))
    else if commitIndex r <? idx then (r, Some (Errorf "snapshot index beyond commitIndex"))
    else if idx <=? logBase r then (r, None)
    else
      match entry_at r idx with
      | None => (r, Some (Errorf "log does not contain entry at index"))
      | Some e =>
        match persist (compacted idx data e r) with
        | (r, Some err) => (r, Some (Wrapf "persist raft state after snapshot" err))
        | (r, None) =>
          let '(p, err) :=
            SaveSnapshot (snapshot r) (snapshotIndex r) (snapshotTerm r) (persister r) in
          (r <| persister := p |>, (λ err, Wrapf "save snapshot" err) <$> err)
        end
      end.
Proof.
  intros Hwf Hi. pose proof Hwf as []. unfold Snapshot, entry_at.
  branch; [done|]. branch; [done|]. branch; [done|]. unwrap.
  destruct (index (log r) _) as [e|] eqn:He; [|done].
  rewrite (wf_contig _ _ He).
  replace (logBase r + (idx - logBase r - 1) + 1) with idx by lia.
  rewrite Z.eqb_refl. cbn [negb].
  replace (idx - logBase r - 1 + 1) with (idx - logBase r) by lia.
  fold (compacted idx data e r).
  destruct (persist _) as [r1 [err|]]; [done|].
  by destruct (SaveSnapshot _ _ _ _) as [p [err|]].
Qed.

Lemma Snapshot_inv idx data r : wf r → idx < 2 ^ 62 →
  let r' := fst (Snapshot idx data r) in
  r' = r ∨
  (logBase r < idx ≤ commitIndex r ∧
   ∃ e p, entry_at r idx = Some e ∧ r' = (compacted idx data e r) <| persister := p |>).
Proof.
  intros Hwf Hi. cbv zeta. rewrite Snapshot_unfold by done.
  branch; [by left|]. branch; [by left|]. branch; [by left|].
  destruct (entry_at r idx) as [e|] eqn:He; [|by left]. right. split; [lia|].
  exists e. generalize (compacted idx data e r). intros x.
  destruct (persist x) as [r1 [err|]] eqn:Hp; apply persist_inv in Hp as (p & -> & _);
    [by exists p|].
  destruct (SaveSnapshot _ _ _ _) as [p2 o]. by exists p2.
Qed.

Lemma compacted_range r idx e : entry_at r idx = Some e →
  logBase r < idx ∧ Z.of_nat (Z.to_nat (idx - logBase r)) = idx - logBase r ∧
  idx - logBase r ≤ len (log r).
Proof.
  intros He. assert (is_Some (entry_at r idx)) as Hs by eauto.
  apply entry_at_Some in Hs. unfold last_index in Hs. lia.
Qed.

Lemma wf_compacted idx data e r : wf r → entry_at r idx = Some e →
  logBase r < idx ≤ lastApplied r → wf (compacted idx data e r).
Proof.
  intros Hwf He Hi. pose proof Hwf as []. unfold last_index in *.
  destruct (compacted_range r idx e He) as (_ & Hk & Hle).
  split; unfold last_index; cbn; try lia.
  - replace idx with (logBase r + Z.of_nat (Z.to_nat (idx - logBase r))) at 1 by lia.
    apply contiguous_drop; [done|lia].
  - rewrite len_drop by lia. lia.
Qed.

Lemma Snapshot_wf idx data r : wf r → idx ≤ lastApplied r →
  wf (fst (Snapshot idx data r)).
Proof.
  intros Hwf Hi. pose proof Hwf as [].
  destruct (Snapshot_inv idx data r) as [->|(? & e & p & He & ->)]; auto; [lia|].
  apply wf_persister, wf_compacted; auto; lia.
Qed.

(** Entries past the snapshot keep their absolute index. *)
Lemma compacted_entry_at idx data e r abs : wf r → entry_at r idx = Some e →
  idx < abs → entry_at (compacted idx data e r) abs = entry_at r abs.
Proof.
  intros Hwf He Hi. pose proof Hwf as [].
  destruct (compacted_range r idx e He) as (? & Hk & Hle).
  unfold entry_at. cbn. rewrite index_drop by lia. f_equal. lia.
Qed.

Lemma compacted_last_index idx data e r : wf r → entry_at r idx = Some e →
  last_index (compacted idx data e r) = last_index r.
Proof.
  intros Hwf He. destruct (compacted_range r idx e He) as (? & ? & ?). pose proof Hwf as [].
  unfold last_index in *. cbn. rewrite len_drop by lia. lia.
Qed.

Lemma Snapshot_quiet idx data r : quiet r (fst (Snapshot idx data r)).
Proof.
  unfold Snapshot. repeat (branch; [done|]).
  destruct (index (log r) _); [|done]. branch; [done|].
  destruct (persist _) as [r1 [err|]] eqn:Hp; node_inv; cbn; [quiet_solve|].
  destruct (SaveSnapshot _ _ _ _) as [p2 [err|]]; quiet_solve.
Qed.

Lemma sendInstallSnapshot_request_quiet d id t r r' o :
  sendInstallSnapshot_request d id t r = (r', o) → quiet r r'.
Proof.
  unfold sendInstallSnapshot_request. branch; [by intros [= <- _]|].
  destruct (peers r !! id) as [p|] eqn:Hp; [|by intros [= <- _]].
  branch; [by intros [= <- _]|].
  destruct (ensureConnected d p) as [p' [e|]]; [by intros [= <- _]|].
  intros [= <- _]. by eapply known_peer_quiet.
Qed.

Lemma sendInstallSnapshot_reply_quiet id t lastIdx resp r :
  quiet r (sendInstallSnapshot_reply id t lastIdx resp r).
Proof.
  unfold sendInstallSnapshot_reply. branch; [done|]. branch; [by apply stepDown_quiet|].
  destruct (peers r !! id) as [p|] eqn:Hp; [|done].
  etrans; [by eapply known_peer_quiet|apply updateCommitIndex_quiet].
Qed.

Lemma sendInstallSnapshot_reply_wf id t lastIdx resp r :
  wf r → wf (sendInstallSnapshot_reply id t lastIdx resp r).
Proof.
  intros Hwf. unfold sendInstallSnapshot_reply. branch; [done|].
  branch; [by apply wf_stepDown|]. destruct (peers r !! id); [|done].
  by apply updateCommitIndex_wf, wf_peers.
Qed.
End snapshot_facts.

(** ** Properties *)

Section snapshot_properties.
Context {P : Type} `{PL : PersisterLaws P}.
Implicit Types (r : Raft P) (cfg : Config P).

(** A compaction that went through. *)
Lemma Snapshot_done idx (data : bytes) r r' : wf r → idx < 2 ^ 62 →
  (∀ e, entry_at r idx = Some e → in_int (eTerm e)) → logBase r < idx →
  Snapshot idx data r = (r', None) →
  idx ≤ commitIndex r ∧ logBase r' = idx ∧
  (∀ abs, idx < abs → entry_at r' abs = entry_at r abs) ∧
  last_index r' = last_index r ∧
  (∃ e, entry_at r idx = Some e ∧ snapshotTerm r' = eTerm e) ∧
  Load (persister r') = inl (currentTerm r, votedFor r, log r') ∧
  LoadSnapshot (persister r') = inl (data, idx, snapshotTerm r') ∧
  commitIndex r' = commitIndex r ∧ lastApplied r' = lastApplied r.
Proof.
  intros Hwf Hi Hte Hlb. rewrite Snapshot_unfold by done.
  branch; [done|]. branch; [done|]. rewrite (proj2 (Z.leb_gt _ _)) by done.
  destruct (entry_at r idx) as [e|] eqn:He; [|done].
  pose proof (λ abs, compacted_entry_at idx data e r abs Hwf He) as Hent.
  pose proof (compacted_last_index idx data e r Hwf He) as Hli.
  destruct (persist _) as [r1 [err|]] eqn:Hp; [done|].
  apply persist_inv in Hp as (p & -> & Hs). apply save_load in Hs.
  destruct (SaveSnapshot _ _ _ _) as [p2 [err|]] eqn:Hss; [done|]. intros [= <-].
  unfold entry_at at 1 in Hent. unfold entry_at at 1.
  unfold last_index at 1 in Hli. unfold last_index at 1.
  cbn in Hs, Hss, Hent, Hli |- *. split_and!; auto; [by eauto| |].
  - by rewrite (snapshot_keeps_state _ _ _ _ _ _ Hss).
  - eapply snapshot_load; [| |done]; [|by apply Hte].
    pose proof Hwf as []. unfold in_int. lia.
Qed.

(** C18: [Snapshot] that returns without error either had nothing to do (the
    index is already folded) or folds the log up to the index: every entry
    above it is kept, the snapshot carries the index and the term of the last
    folded entry, log and snapshot are both on disk, and the commit and apply
    positions do not move.  It refuses an index above the commit index and a
    snapshot that is too large, and then changes nothing. *)
Theorem compaction_keeps_log idx (data : bytes) r : wf r → idx < 2 ^ 62 →
  (∀ e, entry_at r idx = Some e → in_int (eTerm e)) →
  let '(r', err) := Snapshot idx data r in
  match err with
  | None =>
      if idx <=? logBase r then r' = r
      else idx ≤ commitIndex r ∧ logBase r' = idx ∧
        (∀ abs, idx < abs → entry_at r' abs = entry_at r abs) ∧
        last_index r' = last_index r ∧
        (∃ e, entry_at r idx = Some e ∧ snapshotTerm r' = eTerm e) ∧
        Load (persister r') = inl (currentTerm r, votedFor r, log r') ∧
        LoadSnapshot (persister r') = inl (data, idx, snapshotTerm r') ∧
        commitIndex r' = commitIndex r ∧ lastApplied r' = lastApplied r
  | Some _ => maxSnapshotBytes < len data ∨ commitIndex r < idx ∨ entry_at r idx = None ∨
      ∃ e, entry_at r idx = Some e ∧
        (snd (persist (compacted idx data e r)) ≠ None ∨
         snd (SaveSnapshot data idx (eTerm e)
                (persister (fst (persist (compacted idx data e r))))) ≠ None)
  end ∧
  (maxSnapshotBytes < len data ∨ commitIndex r < idx → r' = r ∧ err ≠ None).
Proof.
  intros Hwf Hi Hte. pose proof (Snapshot_done idx data r) as Hdone.
  rewrite Snapshot_unfold in * by done.
  destruct (Z.ltb_spec maxSnapshotBytes (len data)); [by auto|].
  destruct (Z.ltb_spec (commitIndex r) idx); [by auto|].
  destruct (idx <=? logBase r) eqn:Hlb; [split; [done|lia]|].
  apply Z.leb_gt in Hlb.
  destruct (entry_at r idx) as [e|] eqn:He; [|split; [auto|lia]].
  destruct (persist _) as [r1 [err|]] eqn:Hp.
  { split; [|lia]. right; right; right. exists e. split; [done|]. left. by rewrite Hp. }
  destruct (SaveSnapshot _ _ _ _) as [p2 [err|]] eqn:Hss; cbn [fmap option_fmap option_map].
  - split; [|lia]. right; right; right. exists e. split; [done|]. right. rewrite Hp.
    apply persist_inv in Hp as (p & -> & _). cbn in Hss |- *. by rewrite Hss.
  - split; [|lia]. by apply Hdone.
Qed.

(** C38: [Snapshot] writes the shortened log before it writes the snapshot.  A
    node that crashes between the two writes of its first compaction loses the
    folded entries and comes back with a log whose first entry, the one after
    the snapshot, is taken for entry 1: the recovered node is not well formed. *)
Theorem torn_compaction cfg idx (data : bytes) r r1 e e0 :
  wf r → logBase r = 0 → LoadSnapshot (persister r) = inr e0 →
  entry_at r idx = Some e → idx < last_index r →
  persist (compacted idx data e r) = (r1, None) →
  validate (cfg <| cfgPersister := Some (persister r1) |>) = None →
  ∃ r2, NewRaft (cfg <| cfgPersister := Some (persister r1) |>) = Ret r2 ∧
    logBase r2 = 0 ∧ entry_at r2 1 = entry_at r (idx + 1) ∧ ¬ wf r2.
Proof.
  intros Hwf Hb0 Hns He Hlt Hp Hv. pose proof (compacted_range r idx e He) as Hrg.
  apply persist_inv in Hp as (p & -> & Hs). cbn in Hs, Hv |- *.
  destruct (NewRaft_Load _ p Hv eq_refl) as
    (r0 & Hr & Hp0 & Hlb & Hci & Hla & Hsi & Hch & Hl & Ht & Hvt).
  assert (LoadSnapshot p = inr e0) as Hns' by (by rewrite (save_keeps_snapshot _ _ _ _ _ _ Hs)).
  apply save_load in Hs. rewrite <- Hp0 in Hs, Hns'.
  destruct (loadPersistedState_log r0 _ _ _ _ Hs Hns') as [Hl2 Hb2].
  exists (fst (loadPersistedState r0)). rewrite Hlb in Hb2.
  assert (entry_at (fst (loadPersistedState r0)) 1 = entry_at r (idx + 1)) as He1.
  { unfold entry_at. rewrite Hl2, Hb2. rewrite index_drop by lia. f_equal. lia. }
  split_and!; auto. intros [Hc _ _ _ _ _ _].
  destruct (proj2 (entry_at_Some r (idx + 1))) as [e1 He1']; [lia|].
  rewrite He1' in He1. unfold entry_at in He1, He1'. apply Hc in He1.
  pose proof Hwf as []. apply wf_contig in He1'. rewrite Hb2 in He1. lia.
Qed.
End snapshot_properties.

(** ** Witnesses *)

Lemma compaction_keeps_log_witness :
  let '(r', err) := Snapshot 3 [Byte.x00] NodeWitness.node in
  err = None ∧ logBase r' = 3 ∧ entry_at r' 5 = Some (NodeWitness.entry 5 2).
Proof.
  pose proof (compaction_keeps_log 3 [Byte.x00] NodeWitness.node NodeWitness.node_wf eq_refl) as H.
  destruct (Snapshot 3 [Byte.x00] NodeWitness.node) as [r' err] eqn:HS.
  vm_compute in HS. injection HS as Hr Herr. subst err. split; [reflexivity|].
  destruct H as [H _].
  { intros e He. vm_compute in He. injection He as <-. vm_compute. intuition congruence. }
  destruct (3 <=? logBase NodeWitness.node) eqn:E; [vm_compute in E; discriminate|].
  destruct H as (_ & Hb & Hent & _). split; [exact Hb|]. rewrite Hent by lia. reflexivity.
Defined.

Lemma torn_compaction_witness :
  let r := NodeWitness.leader [NodeWitness.entry 1 1; NodeWitness.entry 2 2] 0 1 1 in
  let r1 := fst (persist (compacted 1 [Byte.x00] (NodeWitness.entry 1 1) r)) in
  ∃ r2, NewRaft (NodeWitness.cfg <| cfgPersister := Some (persister r1) |>) = Ret r2 ∧ ¬ wf r2.
Proof.
  intros r r1.
  destruct (torn_compaction NodeWitness.cfg 1 [Byte.x00] r r1 (NodeWitness.entry 1 1) ErrNoSnapshot)
    as (r2 & Hr & _ & _ & Hw); [|vm_compute; reflexivity..|].
  - split; [apply NodeWitness.node_contiguous; reflexivity|..]; vm_compute; congruence.
  - exists r2. split; [exact Hr|exact Hw].
Defined.
