(* ===== verification/CatchUp.v ===== *)
(** * A follower catches up

    The loop that a leader and one follower run together when no call is lost:
    [sendAppendEntries] sends what the follower may lack, [AppendEntries] accepts
    or refuses it, and a refusal makes the leader step one entry back and send
    again.  The loop ends, after at most [nextIndex] calls, with the follower up
    to date and the leader aware of it. *)

From S2P Require Import Prelude Types Persister Node Election Replication.

Section catch_up.
Context {P : Type} `{PL : PersisterLaws P}.
Implicit Types (r : Raft P) (req : AppendEntriesRequest).

(** Goroutine [g] of the leader and those it is followed by, with the calls
    delivered at once; [None] when the loop ends in any other way than by a
    reply, or not within [fuel] calls. *)
Fixpoint catch_up (fuel : nat) (rnd : Z) (g : goroutine) (leader follower : Raft P)
    : option (Raft P * Raft P) :=
  match fuel, g with
  | S fuel, GSendAppendEntries peerId term commitIdx =>
      match sendAppendEntries_request true peerId term commitIdx leader with
      | (leader, SendCall req prevLogIdx nEntries) =>
          match AppendEntries rnd req follower with
          | (follower, Ret resp) =>
              match sendAppendEntries_reply peerId term commitIdx prevLogIdx nEntries resp leader with
              | (leader, []) => Some (leader, follower)
              | (leader, g :: _) => catch_up fuel rnd g leader follower
              end
          | _ => None
          end
      | _ => None
      end
  | _, _ => None
  end.

(** What log matching says about two nodes. *)
Definition logs_match r r' : Prop :=
  ∀ i j e e', entry_at r i = Some e → entry_at r' i = Some e' → eTerm e = eTerm e' →
    j ≤ i → entry_at r' j = entry_at r j.

(** The peer [p] of a leader that has not compacted its log. *)
Record sends_to r (id : Z) (p : peer) : Prop := mkSendsTo {
  sd_wf : wf r;
  sd_leads : state r = Leader;
  sd_runs : shutdown r = false;
  sd_base : logBase r = 0;
  sd_peer : peers r !! id = Some p;
  sd_next : 1 ≤ nextIndex p ≤ last_index r + 1;
  sd_match : 0 ≤ matchIndex p ≤ last_index r
}.

(** The call the leader makes. *)
Lemma request_made r id p c : sends_to r id p →
  ∃ req p', sendAppendEntries_request true id (currentTerm r) c r =
      (r <| peers := <[id := p']> (peers r) |>, SendCall req (aePrevLogIndex req) (len (aeEntries req))) ∧
    nextIndex p' = nextIndex p ∧ matchIndex p' = matchIndex p ∧
    aePrevLogIndex req = nextIndex p - 1 ∧ aeTerm req = currentTerm r ∧ aeLeaderCommit req = c ∧
    segment_of req r ∧     aePrevLogIndex req + len (aeEntries req) = last_index r.
Proof.
  intros [Hw Hl Hr Hb Hp Hn Hm]. pose proof Hw as [].
  assert (∀ q, peers r !! id = Some q → nextIndex q ≤ 2 ^ 62) as Hnx by (intros q; rewrite Hp; intros [= <-]; lia).
  assert (∃ req p', sendAppendEntries_request true id (currentTerm r) c r =
    (r <| peers := <[id := p']> (peers r) |>, SendCall req (aePrevLogIndex req) (len (aeEntries req))) ∧
    nextIndex p' = nextIndex p ∧ matchIndex p' = matchIndex p ∧ aePrevLogIndex req = nextIndex p - 1)
    as (req & p' & Hreq & H1 & H2 & H3).
  { unfold sendAppendEntries_request. rewrite Hr, Hp.
    destruct (ensureConnected true p) as [p' [e|]] eqn:Hec.
    { unfold ensureConnected in Hec. by destruct (connected p). }
    apply ensureConnected_inv in Hec. assert (nextIndex p' = nextIndex p ∧ matchIndex p' = matchIndex p) as [Hni Hmi]
      by (by rewrite Hec).
    cbn. rewrite Hl, Hr, Z.eqb_refl, Hni, Hb. cbn [negb orb state_eqb].
    rewrite (proj2 (Z.ltb_ge (nextIndex p) 1)) by lia. unwrap. rewrite (proj2 (Z.ltb_ge (nextIndex p - 1) 0)) by lia.
    destruct (Z.ltb_spec 0 (nextIndex p - 1)).
    - destruct (index_is_Some (log r) (nextIndex p - 1 - 0 - 1)) as [e He]; [unfold last_index in *; lia|].
      rewrite He. eexists (mkAppendEntriesRequest _ _ _ _ _ _), p'. by split_and!.
    - eexists (mkAppendEntriesRequest _ _ _ _ _ _), p'. by split_and!. }
  exists req, p'. pose proof (sendAppendEntries_request_segment _ _ _ _ _ _ _ _ _ Hw Hnx Hreq) as (? & _ & _ & ? & _ & _ & ?).
  pose proof (sendAppendEntries_request_whole _ _ _ _ _ _ _ _ _ Hw Hnx Hreq Hb). by split_and!.
Qed.

(** One refused call: the follower only notes the leader. *)
Lemma call_refused rnd req r' : currentTerm r' ≤ aeTerm req → consistent req r' = false →
  AppendEntries rnd req r' =
    (ae_contact rnd req r', Ret (mkAppendEntriesResponse (aeTerm req) false)).
Proof.
  intros Ht Hc. rewrite AppendEntries_unfold, (proj2 (Z.ltb_ge _ _)) by done. cbv zeta.
  destruct (ae_contact_frame rnd req r') as (Hl & Hb & _). cbv zeta in *.
  unfold consistent in *. by rewrite Hl, Hb, Hc.
Qed.

(** Where an entry of the merged list comes from. *)
Lemma merge_origin (old new : list LogEntry) i e : index new i = Some e →
  ∃ e', index (merge_entries old new) i = Some e' ∧
    (e' = e ∨ index old i = Some e' ∧ eTerm e' = eTerm e).
Proof.
  intros Hi. pose proof (index_Some_range _ _ _ Hi) as Hr.
  rewrite !index_lookup in * by lia. generalize dependent (Z.to_nat i). clear i Hr.
  revert old. induction new as [|x new IH]; intros old n Hi; [done|].
  destruct old as [|o old]; [rewrite merge_entries_nil; eauto|]. cbn [merge_entries].
  destruct (Z.eqb_spec (eTerm o) (eTerm x)); [|eauto].
  destruct n as [|n]; cbn in *; [|eauto]. simplify_eq. eauto.
Qed.

(** The log of a follower that accepts the rest of the leader's log. *)
Lemma merged_is_leaders req r r' : wf r → wf r' → logBase r = 0 → logBase r' = 0 →
  segment_of req r → aePrevLogIndex req + len (aeEntries req) = last_index r →
  consistent req r' = true → logs_match r r' →
  ∀ i, i ≤ last_index r → index (merged_log req r') (i - 1) = entry_at r i.
Proof.
  intros Hw Hw' Hb Hb' [Hreq _ Hent Hprev] Hend Hc Hm i Hi. pose proof Hreq as [? _ _].
  pose proof (consistent_range req r' Hw' Hreq Hc) as Hrng.
  assert (∀ j, j ≤ 0 → entry_at r j = None ∧ entry_at r' j = None) as Hlow
    by (intros j ?; unfold entry_at; by rewrite !index_None by lia).
  destruct (merged_log_entries req r' Hw' Hreq Hc ltac:(lia)) as [Hpre _]. rewrite Hb' in Hpre.
  destruct (Z.le_gt_cases i (aePrevLogIndex req)) as [Hle|Hgt].
  - replace (i - 1) with (i - 0 - 1) by lia. rewrite Hpre by done.
    destruct (Z.lt_ge_cases 0 (aePrevLogIndex req)) as [Hpos|?];
      [|by destruct (Hlow i ltac:(lia)) as [-> ->]].
    destruct (Hprev Hpos) as (e & He & Hte).
    destruct (proj2 (entry_at_Some r' (aePrevLogIndex req))) as [e' He']; [lia|].
    apply (Hm (aePrevLogIndex req) i e e'); auto. revert Hc. unfold consistent.
    rewrite (proj2 (Z.ltb_lt _ _)) by done. unfold entry_at in He'. pose proof Hw' as [].
    unwrap. rewrite He'. intros ?%Z.eqb_eq. congruence.
  - destruct (index_is_Some (aeEntries req) (i - aePrevLogIndex req - 1)) as [e He]; [lia|].
    pose proof (Hent _ _ He) as Hl. replace (aePrevLogIndex req + (i - aePrevLogIndex req - 1) + 1) with i in Hl by lia.
    unfold merged_log. rewrite Hb', Z.sub_0_r.
    set (k := Z.to_nat (aePrevLogIndex req)). assert (Z.of_nat k = aePrevLogIndex req) as Hk by lia.
    assert (Z.of_nat k ≤ len (log r')) by (unfold last_index in *; pose proof (len_nonneg (log r')); lia).
    rewrite index_app_r by (rewrite len_take; lia). rewrite len_take by done.
    destruct (merge_origin (drop k (log r')) (aeEntries req) _ e He) as (e' & He' & Ho).
    replace (i - 1 - Z.of_nat k) with (i - aePrevLogIndex req - 1) by lia. rewrite He', Hl.
    destruct Ho as [->|[Ho Ht]]; [done|]. rewrite index_drop in Ho by lia.
    assert (entry_at r' i = Some e') as Hi' by (rewrite <- Ho; unfold entry_at; f_equal; lia).
    by rewrite <- Hl, <- Hi', (Hm i i e e' Hl Hi').
Qed.

(** The follower's disk takes writes. *)
Definition saves r : Prop := ∀ t v l, ∃ p, Save t v l (persister r) = (p, None).

(** The follower [r1'] holds all of the log of the leader [r], on disk where it
    differs from what [r'] had, with the commit index it was told. *)
Record up_to_date r c r' r1' : Prop := mkUpToDate {
  ud_wf : wf r1';
  ud_term : currentTerm r1' = currentTerm r;
  ud_log i : i ≤ last_index r → entry_at r1' i = entry_at r i;
  ud_durable : log r1' = log r' ∨ Load (persister r1') = inl (currentTerm r1', votedFor r1', log r1');
  ud_commit : commitIndex r1' = Z.max (commitIndex r') (Z.min c (last_index r))
}.

Lemma call_accepted rnd req r r' : wf r → wf r' → logBase r = 0 → logBase r' = 0 →
  segment_of req r → aePrevLogIndex req + len (aeEntries req) = last_index r → saves r' →
  aeTerm req = currentTerm r → currentTerm r' ≤ currentTerm r → consistent req r' = true → logs_match r r' →
  ∃ r1', AppendEntries rnd req r' = (r1', Ret (mkAppendEntriesResponse (aeTerm req) true)) ∧
    up_to_date r (aeLeaderCommit req) r' r1'.
Proof.
  intros Hw Hw' Hb Hb' Hseg Hend Hsv Ht Hle Hc Hm. pose proof Hseg as [Hreq _ _ _].
  pose proof Hreq as [? _ _].
  pose proof (AppendEntries_outcome rnd req r' Hw' Hreq) as Ho.
  pose proof (AppendEntries_wf rnd req r' Hw' Hreq) as Hwf1.
  destruct (AppendEntries rnd req r') as [r1' res]. cbn in Ho, Hwf1.
  destruct Ho as [|? Hc'|????|p e ??? Hs|p ??? Hs]; [lia|congruence|lia| |].
  { destruct (Hsv (aeTerm req) (votedFor (ae_contact rnd req r')) (merged_log req r')) as [? ?]. congruence. }
  eexists. split; [done|]. destruct (ae_contact_quiet rnd req r' ltac:(done)) as [_ Hct].
  destruct (ae_contact_frame rnd req r') as (_ & Hcb & _ & Hci & _). cbv zeta in *.
  match goal with |- context [follower_commit req ?x] => set (f := x) in * end.
  destruct (follower_commit_spec req f Hreq) as (Hfc & Hfl & Hfb & Hfp & Hfv & Hft).
  split; [done|rewrite Hft; cbn; congruence| | |rewrite Hfc, Hend; cbn; by rewrite Hci].
  - intros i Hi. unfold entry_at at 1. rewrite Hfl, Hfb. cbn. rewrite Hcb, Hb', Z.sub_0_r.
    by apply merged_is_leaders.
  - rewrite Hfl, Hfp, Hft, Hfv. cbn. rewrite Hct. destruct (already_there req r') eqn:Ha.
    + left. unfold merged_log. rewrite merge_covered by done. apply take_drop.
    + right. by eapply save_load.
Qed.

(** The leader [r1] knows that the peer has all of the log, and has committed it
    if that makes a majority and the last entry is of its term. *)
Record informed r (id : Z) r1 : Prop := mkInformed {
  in_leads : state r1 = Leader;
  in_term : currentTerm r1 = currentTerm r;
  in_log : log r1 = log r ∧ logBase r1 = logBase r;
  in_peer : ∃ p, peers r1 !! id = Some p ∧ matchIndex p = last_index r ∧ nextIndex p = last_index r + 1;
  in_commit e : majority r1 (last_index r) → entry_at r (last_index r) = Some e →
    eTerm e = currentTerm r → last_index r ≤ commitIndex r1
}.

Lemma updateCommitIndex_whole r e : wf r → state r = Leader → majority r (last_index r) →
  entry_at r (last_index r) = Some e → eTerm e = currentTerm r →
  last_index r ≤ commitIndex (updateCommitIndex r).
Proof.
  intros Hw Hl Hm He Ht. destruct (Z.le_gt_cases (last_index r) (commitIndex r)) as [?|?].
  { destruct (updateCommitIndex_inv r) as (n & ch & -> & ?). cbn. lia. }
  destruct (updateCommitIndex_spec r Hw Hl) as [(k & e' & Hk & _ & Hmax & He' & ->)|[Hno _]].
  - destruct (Z.eq_dec k (last_index r)) as [->|]; [|exfalso; by apply (Hmax (last_index r)); [lia|]].
    rewrite He in He'. injection He' as <-. by rewrite Ht, Z.eqb_refl.
  - exfalso. by apply (Hno (last_index r)); [lia|].
Qed.

(** The leader hears of the accepted call. *)
Lemma reply_accepted r id p c prev n : sends_to r id p → prev +! n = last_index r →
  ∃ r1, sendAppendEntries_reply id (currentTerm r) c prev n
      (mkAppendEntriesResponse (currentTerm r) true) r = (r1, []) ∧ informed r id r1.
Proof.
  intros [Hw Hl Hr Hb Hp Hn Hm] Hend. pose proof Hw as []. unfold sendAppendEntries_reply.
  rewrite Hl, Hr, Z.eqb_refl. cbn -[updateCommitIndex]. rewrite Z.ltb_irrefl, Hp, Hend.
  set (q := if matchIndex p <? last_index r then _ else p).
  assert (matchIndex q = last_index r) as Hq by (subst q; branch; cbn; lia).
  set (r1 := r <| peers := <[id := q <| nextIndex := matchIndex q +! 1 |>]> (peers r) |>).
  assert (wf r1) as Hw1 by by apply wf_peers.
  exists (updateCommitIndex r1). split; [done|]. destruct (updateCommitIndex_inv r1) as (k & ch & E & _).
  split.
  - by rewrite E.
  - by rewrite E.
  - by rewrite E.
  - rewrite E. cbn. rewrite lookup_insert, decide_True by done. eexists. split; [done|]. cbn.
    rewrite Hq. unwrap. done.
  - intros e Hmaj He Ht. apply (updateCommitIndex_whole r1 e Hw1 Hl); auto. by rewrite E in Hmaj.
Qed.

(** The leader hears of the refused one. *)
Lemma reply_refused r id p c prev n : sends_to r id p → 1 < nextIndex p →
  let p' := p <| nextIndex := nextIndex p - 1 |> in
  let r1 := r <| peers := <[id := p']> (peers r) |> in
  sendAppendEntries_reply id (currentTerm r) c prev n (mkAppendEntriesResponse (currentTerm r) false) r =
    (r1, [GSendAppendEntries id (currentTerm r) c]) ∧ sends_to r1 id p'.
Proof.
  intros [Hw Hl Hr Hb Hp Hn Hm] Hgt. cbv zeta. pose proof Hw as []. unfold sendAppendEntries_reply.
  rewrite Hl, Hr, Z.eqb_refl. cbn. rewrite Z.ltb_irrefl, Hp, (proj2 (Z.ltb_lt _ _)) by done.
  unwrap. split; [done|]. split; cbn; auto; try by apply wf_peers.
  - by rewrite lookup_insert, decide_True.
  - unfold last_index in *. cbn. lia.
Qed.

(** The connection does not matter. *)
Lemma sends_to_peer r id p p' : sends_to r id p → nextIndex p' = nextIndex p → matchIndex p' = matchIndex p →
  sends_to (r <| peers := <[id := p']> (peers r) |>) id p'.
Proof.
  intros [Hw Hl Hr Hb Hp Hn Hm] E1 E2. split; cbn; auto; try by apply wf_peers.
  - by rewrite lookup_insert, decide_True.
  - by rewrite E1.
  - by rewrite E2.
Qed.

(** Refusals leave nothing behind that the result could depend on. *)
Lemma up_to_date_noted rnd req r c r' r1' :
  up_to_date r c (ae_contact rnd req r') r1' → up_to_date r c r' r1'.
Proof.
  destruct (ae_contact_frame rnd req r') as (Hl & _ & _ & Hci & _). cbv zeta in *.
  intros [? ? ? Hd Hc]. rewrite Hl in Hd. rewrite Hci in Hc. by split.
Qed.

(** C17: A follower catches up.  A leader that has not compacted its log sends to
    a follower that has not either, whose term is not newer, whose disk takes
    writes and whose log satisfies log matching; no call is lost.  Then the chain
    of calls that one [sendAppendEntries] starts, a step back and a retry for every
    refusal, ends after at most [nextIndex] calls, whatever the follower's log.
    In the end the follower holds the leader's log at every index, on disk where
    it had to change, and has the commit index the leader sent; the leader has
    lost no entry and still leads, knows that the follower has everything, and
    has committed its whole log if a majority now holds it and its last entry is
    of its own term. *)
Theorem follower_catches_up rnd id c r r' p :
  sends_to r id p → wf r' → logBase r' = 0 → currentTerm r' ≤ currentTerm r → saves r' → logs_match r r' →
  ∃ r1 r1', (∀ fuel, nextIndex p ≤ Z.of_nat fuel →
      catch_up fuel rnd (GSendAppendEntries id (currentTerm r) c) r r' = Some (r1, r1')) ∧
    informed r id r1 ∧ up_to_date r c r' r1'.
Proof.
  intros Hsd Hw' Hb' Hle Hsv Hm. pose proof (sd_next _ _ _ Hsd) as [Hn _].
  remember (Z.to_nat (nextIndex p)) as n eqn:En. revert r r' p En Hn Hsd Hw' Hb' Hle Hsv Hm.
  induction n as [|n IH]; intros; [lia|].
  destruct (request_made r id p c Hsd) as (req & p' & Hreq & E1 & E2 & Hprev & Ht & Hcm & Hseg & Hend).
  pose proof (sends_to_peer r id p p' Hsd E1 E2) as Hsd1. pose proof Hsd as [Hw _ _ Hb _ _ _]. pose proof Hw as [].
  set (r1 := r <| peers := <[id := p']> (peers r) |>) in *.
  destruct (consistent req r') eqn:Hc.
  - destruct (call_accepted rnd req r r') as (r1' & Hcall & Hud); auto.
    destruct (reply_accepted r1 id p' c (aePrevLogIndex req) (len (aeEntries req)) Hsd1) as (r2 & Hrep & Hin).
    { destruct Hseg as [[]]. pose proof (len_nonneg (aeEntries req)). by unwrap. }
    change (currentTerm r1) with (currentTerm r) in Hrep.
    exists r2, r1'. rewrite Ht in Hcall. rewrite Hcm in Hud. split; [|split; [by destruct Hin|done]].
    intros fuel Hf. destruct fuel as [|fuel]; [lia|]. cbn [catch_up]. by rewrite Hreq, Hcall, Hrep.
  - assert (1 < nextIndex p).
    { revert Hc. unfold consistent. branch; [lia|done]. }
    destruct (reply_refused r1 id p' c (aePrevLogIndex req) (len (aeEntries req)) Hsd1) as [Hrep Hsd2]; [lia|].
    change (currentTerm r1) with (currentTerm r) in Hrep.
    set (p2 := p' <| nextIndex := nextIndex p' - 1 |>) in *.
    set (r2 := r1 <| peers := <[id := p2]> (peers r1) |>) in *.
    pose proof (call_refused rnd req r' ltac:(lia) Hc) as Hcall. rewrite Ht in Hcall.
    destruct (ae_contact_frame rnd req r') as (Hl & Hcb & Hpe & Hci & _). cbv zeta in *.
    destruct (ae_contact_quiet rnd req r' ltac:(lia)) as [_ Hct].
    destruct (IH r2 (ae_contact rnd req r') p2) as (r3 & r3' & Hloop & Hin & Hud); auto.
    + cbn. lia.
    + cbn. lia.
    + by apply wf_contact.
    + congruence.
    + rewrite Hct, Ht. done.
    + unfold saves. by rewrite Hpe.
    + intros i j e e'. unfold entry_at. rewrite Hl, Hcb. apply Hm.
    + exists r3, r3'. split; [|split; [by destruct Hin|apply (up_to_date_noted rnd req); by destruct Hud]].
      intros fuel Hf. destruct fuel as [|fuel]; [lia|]. cbn [catch_up]. rewrite Hreq, Hcall, Hrep.
      apply Hloop. cbn. lia.
Qed.
End catch_up.

(** ** Witness *)

Module CatchUpWitness.
Import MemoryPersister NodeWitness.

(** A leader of term 2 that has just won, and a follower with entries that
    were never committed. *)
Definition ahead : Raft MemoryPersister :=
  (leader [entry 1 1; entry 2 1; entry 3 2] 0 0 0)
    <| peers := {[2 := mkPeer 2 "localhost:1" false 4 0; 3 := mkPeer 3 "localhost:2" true 4 0]} |>.

Definition behind : Raft MemoryPersister :=
  (leader [entry 1 1; entry 2 0; entry 3 0; entry 4 0] 0 0 0)
    <| serverId := 2 |> <| state := Follower |> <| currentTerm := 1 |> <| votedFor := -1 |>.

Lemma ahead_wf : wf ahead.
Proof. split; [apply node_contiguous; vm_compute; reflexivity|..]; vm_compute; congruence. Qed.

Lemma behind_wf : wf behind.
Proof. split; [apply node_contiguous; vm_compute; reflexivity|..]; vm_compute; congruence. Qed.

Lemma ahead_sends : sends_to ahead 2 (mkPeer 2 "localhost:1" false 4 0).
Proof. split; [exact ahead_wf|..]; try reflexivity; vm_compute; intuition congruence. Qed.

Lemma ahead_matches : logs_match ahead behind.
Proof.
  intros i j e e' He He' Ht Hj. assert (j ≤ 0 ∨ j = 1) as Hj'.
  { assert (1 ≤ i ≤ 3) as Hi by (apply index_Some_range in He; change (len (log ahead)) with 3 in He; cbn in He; lia).
    assert (i = 1 ∨ i = 2 ∨ i = 3) as [-> | [-> | ->]] by lia; [lia|..];
      vm_compute in He, He'; injection He as <-; injection He' as <-; discriminate Ht. }
  destruct Hj' as [? | ->]; [|reflexivity]. unfold entry_at. by rewrite !index_None by (left; cbn; lia).
Qed.
End CatchUpWitness.

(** Three refusals, then the whole log is sent, and the leader commits it. *)
Lemma follower_catches_up_witness :
  ∃ r1 r1', catch_up 4 0 (GSendAppendEntries 2 2 0) CatchUpWitness.ahead CatchUpWitness.behind = Some (r1, r1') ∧
    log r1' = log CatchUpWitness.ahead ∧ commitIndex r1 = 3 ∧
    (∀ i, i ≤ 3 → entry_at r1' i = entry_at CatchUpWitness.ahead i).
Proof.
  destruct (follower_catches_up 0 2 0 CatchUpWitness.ahead CatchUpWitness.behind _ CatchUpWitness.ahead_sends
    CatchUpWitness.behind_wf eq_refl ltac:(vm_compute; congruence) ltac:(intros t v l; by eexists)
    CatchUpWitness.ahead_matches) as (r1 & r1' & Hloop & _ & Hud).
  pose proof (Hloop 4%nat ltac:(vm_compute; congruence)) as Hl. clear Hloop.
  pose proof (ud_log _ _ _ _ Hud) as Hlog. clear Hud. exists r1, r1'. split; [exact Hl|].
  split; [|split; [|exact Hlog]]; vm_compute in Hl; injection Hl as <- <-; reflexivity.
Defined.
