(* ===== verification/Cluster.v ===== *)
(** * A cluster of nodes as a transition system

    The handlers and critical sections of [Node], [Election], [Replication] and
    [Snapshot], interleaved.  A [World] holds the running nodes, the crashed
    ones, and one [task] per goroutine, RPC or reply in flight.  A [step] is a
    function of an [event], so that a trace can be run.

    The network may lose a request or a reply at any time ([Drop]) and deliver
    in any order; gRPC does not deliver one call twice, and neither does the
    model.  The election timer may fire at any moment ([Timeout]): a callback
    that has already started is not held back by [Stop] or [Reset].

    [grants], [counted] and [elected] are history variables: the votes cast,
    the votes a candidate counted, and the leaders that took office.  No step
    reads them. *)

From S2P Require Import Prelude Types Persister Node Election Replication Snapshot.

Inductive request : Type :=
  | QVote (req : RequestVoteRequest)
  | QAppend (req : AppendEntriesRequest)
  | QSnapshot (req : InstallSnapshotRequest).

Inductive response : Type :=
  | AVote (resp : RequestVoteResponse)
  | AAppend (resp : AppendEntriesResponse)
  | ASnapshot (resp : InstallSnapshotResponse).

(** The goroutine of node [n] that waits for a reply. *)
Inductive cont : Type :=
  | KVote (n peerId term : Z)
  | KAppend (n peerId term commitIdx prevLogIdx nEntries : Z)
  | KSnapshot (n peerId term lastIdx : Z).

Inductive task : Type :=
  | TGo (n : Z) (g : goroutine)                      (* started, about to run *)
  | TCall (dst : Z) (q : request) (k : option cont)  (* request in flight *)
  | TReply (k : cont) (a : response)                 (* reply in flight *)
  | TLead (n term : Z)          (* won [term], about to call becomeLeader *)
  | TApplyNext (n : Z)          (* head of the loop of applyPendingEntries *)
  | TApplySend (n : Z) (msg : ApplyMsg).

Definition cont_node (k : cont) : Z :=
  match k with KVote n _ _ | KAppend n _ _ _ _ _ | KSnapshot n _ _ _ => n end.

Inductive event : Type :=
  | Timeout (n rnd : Z)
  | Run (i : nat) (dialed : bool)
  | Deliver (i : nat) (rnd : Z)
  | Return (i : nat)
  | Drop (i : nat)
  | Client (n : Z) (cmd : bytes)
  | Compact (n idx : Z) (data : bytes)
  | Consume (n : Z)
  | Crash (n : Z)
  | Restart (n rnd : Z).

Record World {P : Type} : Type := mkWorld {
  configs : gmap Z (Config P);
  nodes : gmap Z (Raft P);
  down : gmap Z (Raft P);       (* crashed; only its persister survives *)
  tasks : list task;
  grants : list (Z * Z * Z);    (* voter, term, candidate *)
  counted : list (Z * Z * Z);   (* candidate, term, voter *)
  elected : list (Z * Z)        (* term, leader *)
}.
Arguments World : clear implicits.
Arguments mkWorld {P}.

(** What is left of a task when node [n] crashes: its goroutines are gone, a
    request it has sent is still delivered but nobody waits for the answer. *)
Definition orphan (n : Z) (t : task) : option task :=
  match t with
  | TGo m _ | TLead m _ | TApplyNext m | TApplySend m _ =>
      if decide (m = n) then None else Some t
  | TReply k _ => if decide (cont_node k = n) then None else Some t
  | TCall dst q (Some k) =>
      if decide (cont_node k = n) then Some (TCall dst q None) else Some t
  | TCall _ _ None => Some t
  end.

Section cluster.
Context {P : Type} `{PP : Persister P}.
Implicit Types (w : World P) (r : Raft P).

Definition set_node (n : Z) r w : World P := w <| nodes := <[n := r]> (nodes w) |>.
Definition spawn (ts : list task) w : World P := w <| tasks := tasks w ++ ts |>.
Definition finish (i : nat) w : World P := w <| tasks := delete i (tasks w) |>.

Definition crash (n : Z) r w : World P :=
  w <| nodes := delete n (nodes w) |>
    <| down := <[n := r]> (down w) |>
    <| tasks := omap (orphan n) (tasks w) |>.

(** The timer of node [n] fires. *)
Definition timeout (n rnd : Z) w : option (World P) :=
  r ← nodes w !! n;
  let cast := (negb (shutdown r) && negb (state_eqb (state r) Leader))%bool in
  let '(r', o) := becomeCandidate_begin r in
  let w := if cast then w <| grants := (n, currentTerm r', n) :: grants w |> else w in
  Some match o with
  | None => set_node n r' w
  | Some (term, ids) =>
      spawn match ids with
            | [] => [TLead n term]
            | _ => (λ id, TGo n (GSendRequestVote id term)) <$> ids
            end
        (set_node n (resetElectionTimerLocked rnd r') w)
  end.

(** One critical section of a goroutine of node [n]: the node afterwards and
    what the goroutine turns into; [None] when it is blocked. *)
Definition run_goroutine (n : Z) (g : goroutine) (dialed : bool) r
    : option (Raft P * list task) :=
  match g with
  | GSendRequestVote peerId term =>
      let '(r, o) := sendRequestVote_request dialed peerId term r in
      Some (r, match o with
               | Some req => [TCall peerId (QVote req) (Some (KVote n peerId term))]
               | None => [] end)
  | GSendAppendEntries peerId term commitIdx =>
      let '(r, a) := sendAppendEntries_request dialed peerId term commitIdx r in
      Some (r, match a with
               | SendStop => []
               | SendSnapshot => [TGo n (GSendInstallSnapshot peerId term)]
               | SendCall req prevLogIdx nEntries =>
                   [TCall peerId (QAppend req)
                      (Some (KAppend n peerId term commitIdx prevLogIdx nEntries))]
               end)
  | GSendInstallSnapshot peerId term =>
      let '(r, o) := sendInstallSnapshot_request dialed peerId term r in
      Some (r, match o with
               | Some (req, lastIdx) =>
                   [TCall peerId (QSnapshot req) (Some (KSnapshot n peerId term lastIdx))]
               | None => [] end)
  | GRunHeartbeat =>
      let '(r, o) := runHeartbeat_turn r in
      Some (r, match o with
               | Some gs => TGo n GRunHeartbeat :: (TGo n <$> gs)
               | None => [] end)
  | GApplyLoop =>
      if commitCh r then Some (r <| commitCh := false |>, [TApplyNext n]) else None
  end.

(** Task [i] takes its next step on its own node. *)
Definition run_task (i : nat) (dialed : bool) w : option (World P) :=
  match tasks w !! i with
  | Some (TGo n g) =>
      r ← nodes w !! n;
      '(r, ts) ← run_goroutine n g dialed r;
      Some (spawn ts (finish i (set_node n r w)))
  | Some (TLead n term) =>
      r ← nodes w !! n;
      let wins := (state_eqb (state r) Candidate && negb (shutdown r))%bool in
      let w := if wins then w <| elected := (currentTerm r, n) :: elected w |> else w in
      let '(r, gs) := becomeLeader r in
      Some (spawn (TGo n <$> gs) (finish i (set_node n r w)))
  | Some (TApplyNext n) =>
      r ← nodes w !! n;
      let '(r, o) := apply_take r in
      Some (spawn [match o with Some msg => TApplySend n msg | None => TGo n GApplyLoop end]
              (finish i (set_node n r w)))
  | Some (TApplySend n msg) =>
      r ← nodes w !! n;
      r ← send_applyCh msg r;
      Some (spawn [TApplyNext n] (finish i (set_node n r w)))
  | _ => None
  end.

(** The answer to a call: a reply for the goroutine that waits, if any. *)
Definition answer (k : option cont) (a : response) : list task :=
  match k with Some k => [TReply k a] | None => [] end.

(** The handler of request [i] runs on its destination.  An error ends the
    call, a panic ends the process. *)
Definition deliver (i : nat) (rnd : Z) w : option (World P) :=
  match tasks w !! i with
  | Some (TCall dst q k) =>
      r ← nodes w !! dst;
      let w := finish i w in
      match q with
      | QVote req =>
          let '(r, res) := RequestVote rnd req r in
          let w := set_node dst r w in
          match res with
          | Ret resp =>
              let w := if rvrVoteGranted resp
                then w <| grants := (dst, rvTerm req, rvCandidateId req) :: grants w |> else w in
              Some (spawn (answer k (AVote resp)) w)
          | Fail _ => Some w
          | Panic => Some (crash dst r w)
          end
      | QAppend req =>
          let '(r, res) := AppendEntries rnd req r in
          let w := set_node dst r w in
          match res with
          | Ret resp => Some (spawn (answer k (AAppend resp)) w)
          | Fail _ => Some w
          | Panic => Some (crash dst r w)
          end
      | QSnapshot req =>
          let '(r, res) := InstallSnapshot rnd req r in
          let w := set_node dst r w in
          match res with
          | Ret resp => Some (spawn (answer k (ASnapshot resp)) w)
          | Fail _ => Some w
          | Panic => Some (crash dst r w)
          end
      end
  | _ => None
  end.

(** Reply [i] reaches the goroutine that waits for it. *)
Definition return_reply (i : nat) w : option (World P) :=
  match tasks w !! i with
  | Some (TReply (KVote n peerId term) (AVote resp)) =>
      r ← nodes w !! n;
      let counts := ((currentTerm r =? term) && state_eqb (state r) Candidate
                     && (rvrTerm resp <=? currentTerm r) && rvrVoteGranted resp)%bool in
      let w := if counts then w <| counted := (n, term, peerId) :: counted w |> else w in
      let '(r, won) := sendRequestVote_reply term resp r in
      Some (spawn (if won : bool then [TLead n term] else []) (finish i (set_node n r w)))
  | Some (TReply (KAppend n peerId term commitIdx prevLogIdx nEntries) (AAppend resp)) =>
      r ← nodes w !! n;
      let '(r, gs) :=
        sendAppendEntries_reply peerId term commitIdx prevLogIdx nEntries resp r in
      Some (spawn (TGo n <$> gs) (finish i (set_node n r w)))
  | Some (TReply (KSnapshot n peerId term lastIdx) (ASnapshot resp)) =>
      r ← nodes w !! n;
      let r := sendInstallSnapshot_reply peerId term lastIdx resp r in
      Some (finish i (set_node n r w))
  | _ => None
  end.

(** A crashed node comes back from its durable state. *)
Definition restart (n rnd : Z) w : option (World P) :=
  r ← down w !! n;
  cfg ← configs w !! n;
  match NewRaft (cfg <| cfgPersister := Some (persister r) |>) with
  | Ret r =>
      let '(r, gs) := Start rnd r in
      Some (spawn (TGo n <$> gs) (set_node n r (w <| down := delete n (down w) |>)))
  | _ => None
  end.

Definition step (e : event) w : option (World P) :=
  match e with
  | Timeout n rnd => timeout n rnd w
  | Run i dialed => run_task i dialed w
  | Deliver i rnd => deliver i rnd w
  | Return i => return_reply i w
  | Drop i =>
      match tasks w !! i with
      | Some (TCall _ _ _) | Some (TReply _ _) => Some (finish i w)
      | _ => None
      end
  | Client n cmd =>
      r ← nodes w !! n;
      let '(r, res) := ReplicateCommand_begin cmd r in
      Some (spawn match res with Ret (_, gs) => TGo n <$> gs | _ => [] end (set_node n r w))
  | Compact n idx data =>
      r ← nodes w !! n;
      Some (set_node n (fst (Snapshot idx data r)) w)
  | Consume n =>
      r ← nodes w !! n;
      match applyCh r with
      | [] => None
      | _ :: ch => Some (set_node n (r <| applyCh := ch |>) w)
      end
  | Crash n => r ← nodes w !! n; Some (crash n r w)
  | Restart n rnd => restart n rnd w
  end.

Fixpoint run (es : list event) w : option (World P) :=
  match es with
  | [] => Some w
  | e :: es => w ← step e w; run es w
  end.

(** A cluster at its first start: every node is built from its configuration
    and started, and nothing is durable yet. *)
Definition boot_node (rnd : Z) (cfg : Config P) : option (Raft P) :=
  match NewRaft cfg with Ret r => Some (fst (Start rnd r)) | _ => None end.

Definition boot (rnd : Z) (cfgs : gmap Z (Config P)) : World P :=
  mkWorld cfgs (omap (boot_node rnd) cfgs) ∅
    ((λ n, TGo n GApplyLoop) <$> (map_to_list cfgs).*1) [] [] [].
End cluster.
