(* ===== verification/ElectionSafety.v ===== *)
(** * Election safety

    At most one leader takes office in a term, for every run of the cluster
    that satisfies the side conditions of [fair_event]; the side conditions are
    where the code deviates from the protocol, and each is shown to be needed. *)

From S2P Require Import Prelude Types Persister Node Election Replication Snapshot Cluster.

(** The cluster's configuration: one entry per id, each node's peer map holds
    exactly the others, ids fit the [int32] of the messages. *)
Record cluster_ok {P} (ids : gset Z) (cfgs : gmap Z (Config P)) : Prop := mkClusterOk {
  co_dom : dom cfgs = ids;
  co_cfg : map_Forall (λ n cfg, ServerID cfg = n ∧ dom (Peers cfg) = ids ∖ {[n]}) cfgs;
  co_range : set_Forall (λ n, 0 ≤ n < 2 ^ 31) ids;
  co_size : Z.of_nat (size ids) < 2 ^ 31
}.

Section safety.
Context {P : Type} `{PP : Persister P}.
Context (ids : gset Z) (cfgs : gmap Z (Config P)) (Hok : cluster_ok ids cfgs).
Implicit Types (w : World P) (r : Raft P).

Definition known w (n : Z) r : Prop := nodes w !! n = Some r ∨ down w !! n = Some r.

(** The vote an in-flight task of candidate [n] stands for: candidate, term,
    voter. *)
Definition chain (t : task) : option (Z * Z * Z) :=
  match t with
  | TGo n (GSendRequestVote p T) => Some (n, T, p)
  | TCall _ (QVote _) (Some (KVote n p T)) => Some (n, T, p)
  | TReply (KVote n p T) _ => Some (n, T, p)
  | _ => None
  end.

(** How many votes candidate [n] has counted in term [T], besides its own. *)
Definition tally w (n T : Z) : Z :=
  len (filter (λ x : Z * Z * Z, x.1 = (n, T)) (counted w)).

(** The test of [sendRequestVote] has succeeded. *)
Definition won w (n T : Z) : Prop :=
  (n, T, n) ∈ grants w ∧ (Z.of_nat (size ids) - 1) / 2 < 1 + tally w n T.

Definition task_ok w (t : task) : Prop :=
  match t with
  | TCall dst q k =>
      match q with QVote req => rvCandidateId req ∈ ids | _ => True end ∧
      match k with
      | Some (KVote n p T) =>
          ∃ req, q = QVote req ∧ dst = p ∧ rvTerm req = T ∧ rvCandidateId req = n
      | _ => True
      end
  | TReply (KVote n p T) (AVote resp) =>
      rvrVoteGranted resp = true → (p, T, n) ∈ grants w
  | TLead n T => won w n T
  | _ => True
  end.

Record inv w : Prop := mkInv {
  inv_cfg : configs w = cfgs;
  inv_disj n r : nodes w !! n = Some r → down w !! n = None;
  inv_id n r : known w n r →
    n ∈ ids ∧ serverId r = n ∧ dom (peers r) = ids ∖ {[n]};
  inv_vote n r : known w n r → votedFor r ≠ -1 → (n, currentTerm r, votedFor r) ∈ grants w;
  inv_grant n t c : (n, t, c) ∈ grants w → n ∈ ids ∧ c ∈ ids ∧
    ∀ r, known w n r → t ≤ currentTerm r ∧ (t = currentTerm r → votedFor r = c);
  inv_fun n t c c' : (n, t, c) ∈ grants w → (n, t, c') ∈ grants w → c = c';
  inv_tasks : Forall (task_ok w) (tasks w);
  inv_chain : NoDup (omap chain (tasks w) ++ counted w);
  inv_chain_term n T p : (n, T, p) ∈ omap chain (tasks w) ++ counted w →
    p ∈ ids ∖ {[n]} ∧ ∀ r, known w n r → T ≤ currentTerm r;
  inv_counted n T p : (n, T, p) ∈ counted w → (p, T, n) ∈ grants w;
  inv_cand n r : nodes w !! n = Some r → state r = Candidate →
    (n, currentTerm r, n) ∈ grants w ∧ votesReceived r = 1 + tally w n (currentTerm r);
  inv_elected T n : (T, n) ∈ elected w → won w n T;
  inv_leader n r : nodes w !! n = Some r → state r = Leader → (currentTerm r, n) ∈ elected w
}.

Lemma inv_task w i t : inv w → tasks w !! i = Some t → task_ok w t.
Proof. intros Hi Ht. exact (Forall_lookup_1 _ _ _ _ (inv_tasks _ Hi) Ht). Qed.

(** ** From the invariant to safety *)

Definition voters w (n T : Z) : list Z :=
  n :: (filter (λ x : Z * Z * Z, x.1 = (n, T)) (counted w)).*2.

Lemma voters_spec w n T v : inv w → (n, T, n) ∈ grants w → v ∈ voters w n T →
  v ∈ ids ∧ (v, T, n) ∈ grants w.
Proof.
  intros Hi Hg. unfold voters. rewrite elem_of_cons, list_elem_of_fmap.
  assert ((v, T, n) ∈ grants w → v ∈ ids ∧ (v, T, n) ∈ grants w) as Himp.
  { intros H. split; [|done]. by destruct (inv_grant _ Hi _ _ _ H). }
  intros [->|([[n' T'] v'] & -> & H)]; [auto|].
  apply list_elem_of_filter in H as [[= -> ->] H]. simpl in *.
  apply Himp. by apply (inv_counted _ Hi).
Qed.

Lemma voters_NoDup w n T : inv w → NoDup (voters w n T).
Proof.
  intros Hi. apply NoDup_cons. split.
  - rewrite list_elem_of_fmap. intros ([[n' T'] v] & Hv & H). simpl in Hv. subst v.
    apply list_elem_of_filter in H as [[= -> ->] H].
    destruct (inv_chain_term _ Hi n T n) as [Hn _]; [apply elem_of_app; by right|].
    apply elem_of_difference in Hn as [_ []]. by apply elem_of_singleton.
  - apply NoDup_fmap_2_strong.
    + intros [[n1 T1] v1] [[n2 T2] v2] [[= -> ->] _]%list_elem_of_filter
        [[= -> ->] _]%list_elem_of_filter. simpl. congruence.
    + apply NoDup_filter. pose proof (inv_chain _ Hi) as Hc.
      by apply NoDup_app in Hc as (_ & _ & ?).
Qed.

Lemma voters_length w n T : len (voters w n T) = 1 + tally w n T.
Proof. unfold voters, tally. rewrite len_cons. unfold len. by rewrite length_fmap. Qed.

(** Two majorities of an odd cluster share a voter, and a voter votes once. *)
Lemma won_unique w n n' T : inv w → Z.odd (Z.of_nat (size ids)) = true →
  won w n T → won w n' T → n = n'.
Proof.
  intros Hi Hodd [Hv Hq] [Hv' Hq']. destruct (decide (n = n')) as [|Hne]; [done|exfalso].
  assert (NoDup (voters w n T ++ voters w n' T)) as Hnd.
  { apply NoDup_app. split_and!; [by apply voters_NoDup| |by apply voters_NoDup].
    intros v ? ?. apply Hne.
    destruct (voters_spec w n T v) as [_ Hg]; [done..|].
    destruct (voters_spec w n' T v) as [_ Hg']; [done..|].
    by eapply (inv_fun _ Hi). }
  assert (length (voters w n T ++ voters w n' T) ≤ size ids)%nat as Hle.
  { rewrite <- (size_list_to_set (C := gset Z)) by done. apply subseteq_size.
    intros v. rewrite elem_of_list_to_set, elem_of_app.
    intros [?|?]; [by destruct (voters_spec w n T v)|by destruct (voters_spec w n' T v)]. }
  rewrite length_app in Hle. pose proof (voters_length w n T). pose proof (voters_length w n' T).
  apply Zodd_bool_iff, Zodd_ex in Hodd as [k Hk].
  rewrite Hk in Hq, Hq'. replace (2 * k + 1 - 1) with (k * 2) in Hq, Hq' by lia.
  rewrite Z.div_mul in Hq, Hq' by lia. unfold len in *. lia.
Qed.

(** ** Preservation *)

Lemma known_set_node w n r r' m x : inv w → nodes w !! n = Some r →
  known (set_node n r' w) m x → (m = n ∧ x = r') ∨ (m ≠ n ∧ known w m x).
Proof.
  intros Hi Hn [H|H]; cbn in H.
  - apply lookup_insert_Some in H as [[-> ->]|[? H]]; [by left|].
    right. split; [done|by left].
  - destruct (decide (m = n)) as [->|]; [|right; split; [done|by right]].
    rewrite (inv_disj _ Hi _ _ Hn) in H. done.
Qed.

Lemma lookup_set_node w n r' m x : nodes (set_node n r' w) !! m = Some x →
  (m = n ∧ x = r') ∨ (m ≠ n ∧ nodes w !! m = Some x).
Proof. cbn. intros [[-> ->]|[? ?]]%lookup_insert_Some; auto. Qed.

(** A node's step that casts and counts no vote. *)
Lemma inv_quiet w n r r' : inv w → nodes w !! n = Some r → quiet r r' →
  inv (set_node n r' w).
Proof.
  intros Hi Hn [Hid Hd Hv]. assert (known w n r) as Hkn by by left.
  assert (currentTerm r ≤ currentTerm r') as Hle by (destruct Hv as [(?&_)|(?&_)]; lia).
  split; try apply Hi.
  - intros m x H. cbn. apply lookup_set_node in H as [[-> ->]|[? H]]; by eapply Hi.
  - intros m x H. apply (known_set_node _ _ _ _ _ _ Hi Hn) in H as [[-> ->]|[? H]];
      [|by apply Hi]. rewrite Hid, Hd. by apply Hi.
  - intros m x H. apply (known_set_node _ _ _ _ _ _ Hi Hn) in H as [[-> ->]|[? H]];
      [|by apply Hi]. intros Hne. destruct Hv as [(Ht & Hvt & _)|(_ & ? & _)]; [|done].
    rewrite Ht, Hvt in *. by apply (inv_vote _ Hi).
  - intros m t c H. destruct (inv_grant _ Hi _ _ _ H) as (? & ? & Hall). split_and!; auto.
    intros x Hx. apply (known_set_node _ _ _ _ _ _ Hi Hn) in Hx as [[-> ->]|[? Hx]]; [|auto].
    destruct (Hall r Hkn) as [? Heq]. split; [lia|]. intros ->.
    destruct Hv as [(Ht & Hvt & _)|(? & _)]; [|lia]. rewrite Hvt. auto.
  - intros m T p H. destruct (inv_chain_term _ Hi _ _ _ H) as [? Hall]. split; [done|].
    intros x Hx. apply (known_set_node _ _ _ _ _ _ Hi Hn) in Hx as [[-> ->]|[? Hx]]; [|auto].
    specialize (Hall r Hkn). lia.
  - intros m x H Hs. apply lookup_set_node in H as [[-> ->]|[? H]]; [|by apply Hi].
    destruct Hv as [(Ht & _ & Hst & Hvr)|(_ & _ & ?)]; [|congruence].
    rewrite Ht, Hvr. apply Hi; [done|congruence].
  - intros m x H Hs. apply lookup_set_node in H as [[-> ->]|[? H]]; [|by apply Hi].
    destruct Hv as [(Ht & _ & Hst & Hvr)|(_ & _ & ?)]; [|congruence].
    rewrite Ht. apply Hi; [done|congruence].
Qed.

(** Tasks may be replaced as long as no vote appears out of nowhere. *)
Lemma inv_retask w ts : inv w → Forall (task_ok w) ts →
  omap chain ts ⊆+ omap chain (tasks w) → inv (w <| tasks := ts |>).
Proof.
  intros Hi Hts Hsub. split; try apply Hi; cbn.
  - done.
  - eapply NoDup_sub; [apply Hi|]. by apply submseteq_skips_r.
  - intros n T p H. apply (inv_chain_term _ Hi).
    eapply elem_of_submseteq; [done|]. by apply submseteq_skips_r.
Qed.

Lemma inv_replace w i t ts : inv w → tasks w !! i = Some t → Forall (task_ok w) ts →
  omap chain ts ⊆+ omap chain [t] → inv (spawn ts (finish i w)).
Proof.
  intros Hi Ht Hts Hsub. apply (inv_retask w (delete i (tasks w) ++ ts)); [done| |].
  - apply Forall_app. split; [|done]. apply Forall_delete, Hi.
  - assert (omap chain (tasks w) ≡ₚ omap chain [t] ++ omap chain (delete i (tasks w))) as ->.
    { rewrite <- omap_app. simpl app. by rewrite <- (delete_Permutation _ _ _ Ht). }
    rewrite omap_app, (comm (++)). by apply submseteq_skips_r.
Qed.

Lemma inv_finish w i t : inv w → tasks w !! i = Some t → inv (finish i w).
Proof.
  intros Hi Ht. pose proof (inv_replace w i t [] Hi Ht (Forall_nil_2 _) (submseteq_nil_l _)) as H.
  unfold spawn in H. cbn in H. by rewrite app_nil_r in H.
Qed.

Lemma inv_spawn w ts : inv w → Forall (task_ok w) ts → omap chain ts = [] → inv (spawn ts w).
Proof.
  intros Hi Hts Hc. apply (inv_retask w (tasks w ++ ts)); [done| |].
  - apply Forall_app. split; [apply Hi|done].
  - by rewrite omap_app, Hc, app_nil_r.
Qed.

Lemma task_ok_mono w w' t : (∀ x, x ∈ grants w → x ∈ grants w') → counted w' = counted w →
  task_ok w t → task_ok w' t.
Proof.
  intros Hg Hc. destruct t as [| |[] []| | |]; cbn; auto.
  unfold won, tally. rewrite Hc. intros [? ?]. auto.
Qed.

(** The invariant's clauses on the votes, after node [n] has voted for [c]
    in its current term. *)
Lemma inv_cast w n r r' c : inv w → nodes w !! n = Some r →
  serverId r' = serverId r → dom (peers r') = dom (peers r) →
  currentTerm r' = currentTerm r → state r' = state r → votesReceived r' = votesReceived r →
  votedFor r' = c → c ∈ ids → (votedFor r = -1 ∨ votedFor r = c) →
  inv ((set_node n r' w) <| grants := (n, currentTerm r, c) :: grants w |>).
Proof.
  intros Hi Hn Hid Hd Ht Hs Hvr Hv Hc Hfree. assert (known w n r) as Hkn by by left.
  assert (∀ c', (n, currentTerm r, c') ∈ grants w → c' = c) as Huniq.
  { intros c' H. destruct (inv_grant _ Hi _ _ _ H) as (_ & Hc' & Hall).
    destruct (Hall r Hkn) as [_ Heq]. specialize (Heq eq_refl).
    apply (co_range _ _ Hok) in Hc'. destruct Hfree; [lia|congruence]. }
  destruct (inv_id _ Hi n r Hkn) as (Hnid & _ & _).
  split; cbn; try apply Hi.
  - intros m x H. apply lookup_set_node in H as [[-> ->]|[? H]]; by eapply Hi.
  - intros m x H. apply (known_set_node _ _ _ _ _ _ Hi Hn) in H as [[-> ->]|[? H]];
      [|by apply Hi]. rewrite Hid, Hd. by apply Hi.
  - intros m x H Hne. apply elem_of_cons.
    apply (known_set_node _ _ _ _ _ _ Hi Hn) in H as [[-> ->]|[? H]];
      [left; congruence|right; by apply Hi].
  - intros m t c' [[= -> -> ->]|H]%elem_of_cons.
    + split_and!; auto. intros x Hx.
      apply (known_set_node _ _ _ _ _ _ Hi Hn) in Hx as [[_ ->]|[? _]]; [|done].
      split; [lia|done].
    + destruct (inv_grant _ Hi _ _ _ H) as (? & ? & Hall). split_and!; auto.
      intros x Hx. apply (known_set_node _ _ _ _ _ _ Hi Hn) in Hx as [[-> ->]|[? Hx]]; [|auto].
      destruct (Hall r Hkn). rewrite Ht. split; [done|]. intros ->. rewrite Hv.
      symmetry. by apply Huniq.
  - intros m t c1 c2 [E1|H1]%elem_of_cons [E2|H2]%elem_of_cons; [congruence| | |].
    + injection E1 as -> -> ->. symmetry. by apply Huniq.
    + injection E2 as -> -> ->. by apply Huniq.
    + by apply (inv_fun _ Hi m t).
  - eapply Forall_impl; [apply Hi|]. intros t. apply task_ok_mono; [|done].
    intros. apply elem_of_cons. by right.
  - intros m T p H. destruct (inv_chain_term _ Hi _ _ _ H) as [? Hall]. split; [done|].
    intros x Hx. apply (known_set_node _ _ _ _ _ _ Hi Hn) in Hx as [[-> ->]|[? Hx]]; [|auto].
    rewrite Ht. auto.
  - intros m T p H. apply elem_of_cons. right. by apply Hi.
  - intros m x H Hst. apply lookup_set_node in H as [[-> ->]|[? H]].
    + rewrite Ht, Hvr, elem_of_cons. destruct (inv_cand _ Hi n r) as [? ?]; [done|congruence|].
      auto.
    + rewrite elem_of_cons. destruct (inv_cand _ Hi m x) as [? ?]; auto.
  - intros T m H. destruct (inv_elected _ Hi T m H) as [? ?]. split; [|done].
    cbn. apply elem_of_cons. by right.
  - intros m x H Hst. apply lookup_set_node in H as [[-> ->]|[? H]]; [|by apply Hi].
    rewrite Ht. apply Hi; congruence.
Qed.

Lemma tally_zero w n T r : inv w → known w n r → currentTerm r < T → tally w n T = 0.
Proof.
  intros Hi Hk Hlt. unfold tally. destruct (filter _ _) as [|[[n' T'] p] l] eqn:Hf; [done|].
  assert ((n', T', p) ∈ filter (λ x : Z * Z * Z, x.1 = (n, T)) (counted w)) as Hin
    by (rewrite Hf; apply elem_of_cons; by left).
  apply list_elem_of_filter in Hin as [[= -> ->] Hin].
  destruct (inv_chain_term _ Hi n T p) as [_ Hall]; [apply elem_of_app; by right|].
  specialize (Hall r Hk). lia.
Qed.

(** Node [n] becomes a candidate of the next term and votes for itself. *)
Lemma inv_candidate w n r r' : inv w → nodes w !! n = Some r →
  serverId r' = serverId r → dom (peers r') = dom (peers r) →
  currentTerm r' = currentTerm r + 1 → state r' = Candidate → votesReceived r' = 1 →
  votedFor r' = n →
  inv ((set_node n r' w) <| grants := (n, currentTerm r', n) :: grants w |>).
Proof.
  intros Hi Hn Hid Hd Ht Hs Hvr Hv. assert (known w n r) as Hkn by by left.
  assert (∀ c, (n, currentTerm r', c) ∉ grants w) as Hnew.
  { intros c H. destruct (inv_grant _ Hi _ _ _ H) as (_ & _ & Hall).
    destruct (Hall r Hkn). lia. }
  destruct (inv_id _ Hi n r Hkn) as (Hnid & _ & _).
  split; cbn; try apply Hi.
  - intros m x H. apply lookup_set_node in H as [[-> ->]|[? H]]; by eapply Hi.
  - intros m x H. apply (known_set_node _ _ _ _ _ _ Hi Hn) in H as [[-> ->]|[? H]];
      [|by apply Hi]. rewrite Hid, Hd. by apply Hi.
  - intros m x H Hne. apply elem_of_cons.
    apply (known_set_node _ _ _ _ _ _ Hi Hn) in H as [[-> ->]|[? H]];
      [left; congruence|right; by apply Hi].
  - intros m t c [E|H]%elem_of_cons.
    + injection E as -> -> ->. split_and!; auto. intros x Hx.
      apply (known_set_node _ _ _ _ _ _ Hi Hn) in Hx as [[_ ->]|[? _]]; [|done].
      split; [lia|done].
    + destruct (inv_grant _ Hi _ _ _ H) as (? & ? & Hall). split_and!; auto.
      intros x Hx. apply (known_set_node _ _ _ _ _ _ Hi Hn) in Hx as [[-> ->]|[? Hx]]; [|auto].
      destruct (Hall r Hkn). split; lia.
  - intros m t c1 c2 [E1|H1]%elem_of_cons [E2|H2]%elem_of_cons; [congruence| | |].
    + injection E1 as -> -> ->. by destruct (Hnew _ H2).
    + injection E2 as -> -> ->. by destruct (Hnew _ H1).
    + by apply (inv_fun _ Hi m t).
  - eapply Forall_impl; [apply Hi|]. intros t. apply task_ok_mono; [|done].
    intros. apply elem_of_cons. by right.
  - intros m T p H. destruct (inv_chain_term _ Hi _ _ _ H) as [? Hall]. split; [done|].
    intros x Hx. apply (known_set_node _ _ _ _ _ _ Hi Hn) in Hx as [[-> ->]|[? Hx]]; [|auto].
    specialize (Hall r Hkn). lia.
  - intros m T p H. apply elem_of_cons. right. by apply Hi.
  - intros m x H Hst. apply lookup_set_node in H as [[-> ->]|[? H]].
    + split; [apply elem_of_cons; by left|]. rewrite Hvr.
      change (tally _ n (currentTerm r')) with (tally w n (currentTerm r')).
      rewrite (tally_zero w n _ r); auto. lia.
    + rewrite elem_of_cons. destruct (inv_cand _ Hi m x) as [? ?]; auto.
  - intros T m H. destruct (inv_elected _ Hi T m H) as [? ?]. split; [|done].
    cbn. apply elem_of_cons. by right.
  - intros m x H Hst. apply lookup_set_node in H as [[-> ->]|[? H]]; [congruence|by apply Hi].
Qed.

(** The RequestVote goroutines of the new candidacy. *)
Lemma inv_campaign w n r : inv w → nodes w !! n = Some r →
  (∀ p, (n, currentTerm r, p) ∉ omap chain (tasks w) ++ counted w) →
  inv (spawn ((λ id, TGo n (GSendRequestVote id (currentTerm r))) <$> peer_ids r) w).
Proof.
  intros Hi Hn Hfresh. assert (known w n r) as Hkn by by left.
  destruct (inv_id _ Hi n r Hkn) as (_ & _ & Hdom).
  assert (omap chain ((λ id, TGo n (GSendRequestVote id (currentTerm r))) <$> peer_ids r)
          = (λ id, (n, currentTerm r, id)) <$> peer_ids r) as Hch.
  { generalize (peer_ids r). intros l. induction l as [|x l IH]; [done|]. cbn. by f_equal. }
  split; try apply Hi; cbn.
  - apply Forall_app. split; [apply Hi|]. apply Forall_fmap, Forall_true. done.
  - rewrite omap_app, Hch, <- (assoc_L (++)). rewrite (Permutation_app_swap_app _ _ _).
    apply NoDup_app. split_and!; [|by intros ? (id & -> & _)%list_elem_of_fmap|apply Hi].
    apply NoDup_fmap; [intros ? ? [=]; congruence|apply peer_ids_NoDup].
  - intros m T p. rewrite omap_app, Hch, !elem_of_app.
    intros [[H|(id & [= -> -> ->] & H)%list_elem_of_fmap]|H].
    + apply Hi, elem_of_app. by left.
    + apply peer_ids_dom in H. rewrite Hdom in H. split; [done|].
      intros x Hx. destruct Hx as [Hx|Hx]; cbn in Hx; [by simplify_eq|].
      rewrite (inv_disj _ Hi _ _ Hn) in Hx. done.
    + apply Hi, elem_of_app. by right.
Qed.

Lemma voters_bound w n T : inv w → (n, T, n) ∈ grants w → 1 + tally w n T ≤ Z.of_nat (size ids).
Proof.
  intros Hi Hg. rewrite <- voters_length. unfold len. apply Nat2Z.inj_le.
  rewrite <- (size_list_to_set (C := gset Z)) by by apply voters_NoDup.
  apply subseteq_size. intros v. rewrite elem_of_list_to_set.
  intros Hv. by destruct (voters_spec w n T v).
Qed.

(** Candidate [n] counts the vote of the reply [t]. *)
Definition count_vote (n T p : Z) w : World P :=
  w <| counted := (n, T, p) :: counted w |>.

Lemma tally_count w n T p m U :
  tally (count_vote n T p w) m U = tally w m U + (if decide ((n, T) = (m, U)) then 1 else 0).
Proof.
  unfold tally. change (counted (count_vote n T p w)) with ((n, T, p) :: counted w).
  destruct (decide _) as [E|E].
  - rewrite filter_cons_True by done. rewrite len_cons. lia.
  - rewrite filter_cons_False by done. lia.
Qed.

Lemma won_count w n T p m U : won w m U → won (count_vote n T p w) m U.
Proof.
  intros [? ?]. split; [done|]. rewrite tally_count. case_decide; lia.
Qed.

Lemma inv_count w i t n r p : inv w → nodes w !! n = Some r → tasks w !! i = Some t →
  chain t = Some (n, currentTerm r, p) → (p, currentTerm r, n) ∈ grants w →
  state r = Candidate →
  inv (finish i (set_node n (r <| votesReceived := votesReceived r + 1 |>)
                   (count_vote n (currentTerm r) p w))).
Proof.
  intros Hi Hn Ht Hch Hg Hs. assert (known w n r) as Hkn by by left.
  assert (omap chain (tasks w) ≡ₚ
          (n, currentTerm r, p) :: omap chain (delete i (tasks w))) as Hperm.
  { etrans; [by apply omap_Permutation, (delete_Permutation _ _ _ Ht)|]. cbn. by rewrite Hch. }
  assert (∀ m T q, (m, T, q) ∈ omap chain (delete i (tasks w)) ++
            (n, currentTerm r, p) :: counted w →
          (m, T, q) ∈ omap chain (tasks w) ++ counted w) as Hsub.
  { intros m T q. by rewrite Hperm, <- Permutation_middle. }
  split; cbn; try apply Hi.
  - intros m x H. apply lookup_set_node in H as [[-> ->]|[? H]]; by eapply Hi.
  - intros m x H. apply (known_set_node _ _ _ _ _ _ Hi Hn) in H as [[-> ->]|[? H]];
      cbn; by apply (inv_id _ Hi).
  - intros m x H.
    apply (known_set_node _ _ _ _ _ _ Hi Hn) in H as [[-> ->]|[? H]]; cbn; by apply (inv_vote _ Hi).
  - intros m U c H. destruct (inv_grant _ Hi _ _ _ H) as (? & ? & Hall). split_and!; auto.
    intros x Hx. apply (known_set_node _ _ _ _ _ _ Hi Hn) in Hx as [[-> ->]|[? Hx]]; cbn; auto.
  - apply Forall_delete. eapply Forall_impl; [apply Hi|].
    intros [| |[] []| | |]; cbn; auto. apply won_count.
  - rewrite <- Permutation_middle.
    change (NoDup (((n, currentTerm r, p) :: omap chain (delete i (tasks w))) ++ counted w)).
    rewrite <- Hperm. apply Hi.
  - intros m T q H%Hsub. destruct (inv_chain_term _ Hi _ _ _ H) as [? Hall]. split; [done|].
    intros x Hx. apply (known_set_node _ _ _ _ _ _ Hi Hn) in Hx as [[-> ->]|[? Hx]]; cbn; auto.
  - intros m T q [[= -> -> ->]|H]%elem_of_cons; [done|by apply Hi].
  - intros m x H Hst. change (tally _ m _) with (tally (count_vote n (currentTerm r) p w) m (currentTerm x)).
    rewrite tally_count. apply lookup_set_node in H as [[-> ->]|[Hne H]].
    + destruct (inv_cand _ Hi n r Hn Hs) as [? Hv]. split; [done|]. cbn.
      rewrite decide_True by done. lia.
    + destruct (inv_cand _ Hi m x H Hst) as [? Hv]. split; [done|].
      rewrite decide_False by congruence. lia.
  - intros T m H. by apply won_count, Hi.
  - intros m x H. apply lookup_set_node in H as [[-> ->]|[? H]]; cbn; by apply (inv_leader _ Hi).
Qed.

(** Candidate [n] takes office in a term it has won. *)
Lemma inv_lead w n r r' : inv w → nodes w !! n = Some r → won w n (currentTerm r) →
  serverId r' = serverId r → dom (peers r') = dom (peers r) →
  currentTerm r' = currentTerm r → votedFor r' = votedFor r → state r' = Leader →
  inv ((set_node n r' w) <| elected := (currentTerm r, n) :: elected w |>).
Proof.
  intros Hi Hn Hw Hid Hd Ht Hv Hs. assert (known w n r) as Hkn by by left.
  split; cbn; try apply Hi.
  - intros m x H. apply lookup_set_node in H as [[-> ->]|[? H]]; by eapply Hi.
  - intros m x H. apply (known_set_node _ _ _ _ _ _ Hi Hn) in H as [[-> ->]|[? H]];
      [rewrite Hid, Hd|]; by apply Hi.
  - intros m x H. apply (known_set_node _ _ _ _ _ _ Hi Hn) in H as [[-> ->]|[? H]];
      [rewrite Ht, Hv|]; by apply Hi.
  - intros m U c H. destruct (inv_grant _ Hi _ _ _ H) as (? & ? & Hall). split_and!; auto.
    intros x Hx. apply (known_set_node _ _ _ _ _ _ Hi Hn) in Hx as [[-> ->]|[? Hx]];
      [rewrite Ht, Hv|]; auto.
  - intros m T q H. destruct (inv_chain_term _ Hi _ _ _ H) as [? Hall]. split; [done|].
    intros x Hx. apply (known_set_node _ _ _ _ _ _ Hi Hn) in Hx as [[-> ->]|[? Hx]];
      [rewrite Ht|]; auto.
  - intros m x H Hst. apply lookup_set_node in H as [[-> ->]|[? H]]; [congruence|by apply Hi].
  - intros T m [[= -> ->]|H]%elem_of_cons; [done|by apply Hi].
  - intros m x H Hst. apply elem_of_cons.
    apply lookup_set_node in H as [[-> ->]|[? H]]; [left; congruence|right; by apply Hi].
Qed.

Lemma orphan_ok w n t t' : orphan n t = Some t' → task_ok w t → task_ok w t'.
Proof.
  destruct t as [? ?|dst q [k|]|k a|? ?|?|? ?]; cbn; intros H; try case_decide; simplify_eq; auto.
  by intros [? _].
Qed.

Lemma orphan_chain n t t' : orphan n t = Some t' → chain t' = None ∨ chain t' = chain t.
Proof.
  destruct t as [? ?|dst q [k|]|k a|? ?|?|? ?]; cbn; intros H; try case_decide; simplify_eq; auto.
  destruct q; auto.
Qed.

Lemma orphan_submseteq n ts : omap chain (omap (orphan n) ts) ⊆+ omap chain ts.
Proof.
  induction ts as [|t ts IH]; [done|]. cbn. destruct (orphan n t) as [t'|] eqn:Ho; cbn.
  - destruct (orphan_chain _ _ _ Ho) as [->| ->]; destruct (chain t);
      auto using submseteq_skip, submseteq_cons.
  - destruct (chain t); [by apply submseteq_cons|done].
Qed.

Lemma known_crash w n r m x : nodes w !! n = Some r → known (crash n r w) m x → known w m x.
Proof.
  intros Hn [H|H]; cbn in H.
  - apply lookup_delete_Some in H as [_ H]. by left.
  - apply lookup_insert_Some in H as [[-> ->]|[_ H]]; [by left|by right].
Qed.

Lemma inv_crash w n r : inv w → nodes w !! n = Some r → inv (crash n r w).
Proof.
  intros Hi Hn. pose proof (λ m x, known_crash w n r m x Hn) as Hk.
  assert (∀ m x, nodes (crash n r w) !! m = Some x → m ≠ n ∧ nodes w !! m = Some x) as Hl.
  { intros m x. cbn. intros [? ?]%lookup_delete_Some. auto. }
  split; try apply Hi.
  - intros m x [? H]%Hl. cbn. rewrite lookup_insert_ne by done. by eapply Hi.
  - intros m x ?%Hk. by apply (inv_id _ Hi).
  - intros m x ?%Hk. by apply (inv_vote _ Hi).
  - intros m t c H. destruct (inv_grant _ Hi _ _ _ H) as (? & ? & Hall). eauto.
  - cbn. pose proof (inv_tasks _ Hi) as Ht. rewrite Forall_forall in *.
    intros t' (t & Hin & Ho)%list_elem_of_omap. eapply (orphan_ok w); eauto.
  - cbn. eapply NoDup_sub; [apply Hi|]. apply submseteq_skips_r, orphan_submseteq.
  - intros m T p H. destruct (inv_chain_term _ Hi m T p) as [? Hall]; [|eauto].
    eapply elem_of_submseteq; [done|]. apply submseteq_skips_r, orphan_submseteq.
  - intros m x [? H]%Hl. by apply (inv_cand _ Hi).
  - intros m x [? H]%Hl. by apply (inv_leader _ Hi).
Qed.

(** Node [n] comes back with its term and its vote. *)
Lemma inv_restart w n r r' : inv w → down w !! n = Some r →
  serverId r' = serverId r → dom (peers r') = dom (peers r) →
  currentTerm r' = currentTerm r → votedFor r' = votedFor r → state r' = Follower →
  inv (set_node n r' (w <| down := delete n (down w) |>)).
Proof.
  intros Hi Hn Hid Hd Ht Hv Hs. assert (known w n r) as Hkn by by right.
  assert (∀ m x, known (set_node n r' (w <| down := delete n (down w) |>)) m x →
            (m = n ∧ x = r') ∨ known w m x) as Hk.
  { intros m x [H|H]; cbn in H.
    - apply lookup_insert_Some in H as [[-> ->]|[? H]]; [by left|right; by left].
    - apply lookup_delete_Some in H as [_ H]. right; by right. }
  assert (∀ m x, nodes (set_node n r' (w <| down := delete n (down w) |>)) !! m = Some x →
            (m = n ∧ x = r') ∨ (m ≠ n ∧ nodes w !! m = Some x)) as Hl.
  { intros m x. cbn. intros [[-> ->]|[? ?]]%lookup_insert_Some; auto. }
  split; try apply Hi.
  - intros m x [[-> ->]|[? H]]%Hl; cbn.
    + apply lookup_delete_eq.
    + rewrite lookup_delete_ne by done. by eapply Hi.
  - intros m x [[-> ->]|H]%Hk; [rewrite Hid, Hd|]; by apply (inv_id _ Hi).
  - intros m x [[-> ->]|H]%Hk; [rewrite Ht, Hv|]; by apply (inv_vote _ Hi).
  - intros m t c H. destruct (inv_grant _ Hi _ _ _ H) as (? & ? & Hall). split_and!; auto.
    intros x [[-> ->]|Hx]%Hk; [rewrite Ht, Hv|]; auto.
  - intros m T p H. destruct (inv_chain_term _ Hi m T p H) as [? Hall]. split; [done|].
    intros x [[-> ->]|Hx]%Hk; [rewrite Ht|]; auto.
  - intros m x [[-> ->]|[? H]]%Hl; [congruence|by apply (inv_cand _ Hi)].
  - intros m x [[-> ->]|[? H]]%Hl; [congruence|by apply (inv_leader _ Hi)].
Qed.

(** ** The side conditions

    [recovered_vote]: the term and the vote [loadPersistedState] finds. *)
Definition recovered_vote (p : P) : Z * Z :=
  match Load p with inl (t, v, _) => (t, v) | inr _ => (0, -1) end.

(** Terms do not overflow; a goroutine that has seen its candidacy win finds
    the node still in that term when it calls [becomeLeader]; the durable vote
    of a node that restarts is the vote it has cast. *)
Definition fair_event w (e : event) : bool :=
  match e with
  | Timeout n _ =>
      match nodes w !! n with
      | Some r => (0 <=? currentTerm r) && (currentTerm r <? max_int)
      | None => true
      end
  | Run i _ =>
      match tasks w !! i with
      | Some (TLead n T) =>
          match nodes w !! n with
          | Some r => negb (state_eqb (state r) Candidate) || (currentTerm r =? T)
          | None => true
          end
      | _ => true
      end
  | Restart n _ =>
      match down w !! n with
      | Some r => bool_decide (recovered_vote (persister r) = (currentTerm r, votedFor r))
      | None => true
      end
  | _ => true
  end%bool.

Fixpoint fair_run (es : list event) w : bool :=
  match es with
  | [] => true
  | e :: es => (fair_event w e && match step e w with Some w' => fair_run es w' | None => true end)%bool
  end.

(** ** Every step preserves the invariant *)

Lemma inv_quiet_replace w n r r' i t ts : inv w → nodes w !! n = Some r → quiet r r' →
  tasks w !! i = Some t → Forall (task_ok w) ts → omap chain ts ⊆+ omap chain [t] →
  inv (spawn ts (finish i (set_node n r' w))).
Proof. intros Hi Hn Hq Ht Hts Hc. apply inv_replace with t; auto. by eapply inv_quiet. Qed.

Lemma becomeCandidate_begin_cases r r' o : becomeCandidate_begin r = (r', o) →
  ((shutdown r = true ∨ state r = Leader) ∧ r' = r ∧ o = None) ∨
  (shutdown r = false ∧ state r ≠ Leader ∧
   serverId r' = serverId r ∧ peers r' = peers r ∧ currentTerm r' = currentTerm r +! 1 ∧
   state r' = Candidate ∧ votesReceived r' = 1 ∧ votedFor r' = serverId r ∧
   (o = None ∨ o = Some (currentTerm r', peer_ids r'))).
Proof.
  unfold becomeCandidate_begin. destruct (shutdown r) eqn:Hsh; [intros [= <- <-]; auto|].
  destruct (state r) eqn:Hst; cbn; [| |intros [= <- <-]; auto].
  all: destruct (persist _) as [r1 [e|]] eqn:Hp; node_inv; intros [= <- <-]; right;
    cbn; split_and!; auto.
Qed.

Lemma inv_timeout w n rnd w' : inv w → timeout n rnd w = Some w' →
  fair_event w (Timeout n rnd) = true → inv w'.
Proof.
  intros Hi Hst Hf. unfold timeout in Hst. destruct (nodes w !! n) as [r|] eqn:Hn; [|done].
  cbn [mbind option_bind] in Hst. cbn in Hf. rewrite Hn in Hf. bool_props. unfold max_int in *.
  destruct (becomeCandidate_begin r) as [r' o] eqn:Hb.
  apply becomeCandidate_begin_cases in Hb as
    [(Hc & -> & ->)|(Hsh & Hnl & Hid & Hp & Ht & Hs & Hvr & Hv & Ho)].
  - assert ((negb (shutdown r) && negb (state_eqb (state r) Leader))%bool = false) as Hcast
      by (destruct Hc as [-> | ->]; [done|by rewrite andb_false_r]).
    rewrite Hcast in Hst. injection Hst as <-. by eapply inv_quiet.
  - assert ((negb (shutdown r) && negb (state_eqb (state r) Leader))%bool = true) as Hcast
      by (rewrite Hsh; by destruct (state r)).
    rewrite Hcast in Hst. rewrite i64_id in Ht by lia. cbn [fst] in Hst.
    destruct (inv_id _ Hi n r) as (Hnid & Hsid & Hdom); [by left|].
    destruct Ho as [-> | ->]; injection Hst as <-.
    + apply (inv_candidate w n r r'); auto; congruence.
    + destruct (resetElectionTimerLocked_inv rnd r') as [tm ->].
      set (r2 := r' <| electionTimer := tm |>).
      assert (inv ((set_node n r2 w) <| grants := (n, currentTerm r', n) :: grants w |>)) as Hi2
        by (apply (inv_candidate w n r r2); cbn; auto; congruence).
      assert (nodes (set_node n r2 w) !! n = Some r2) as Hn2 by apply lookup_insert_eq.
      destruct (peer_ids r') as [|i0 l0] eqn:Hids.
      * apply (inv_spawn _ _ Hi2); [|done]. apply Forall_singleton. split; cbn.
        { apply elem_of_cons. by left. }
        change (tally _ n (currentTerm r')) with (tally w n (currentTerm r')).
        rewrite (tally_zero w n _ r); [|done|by left|lia].
        assert (ids ⊆ {[n]}) as Hsub.
        { intros x Hx. apply elem_of_singleton. destruct (decide (x = n)) as [|Hne]; [done|].
          assert (x ∈ peer_ids r') as Hin
            by (rewrite peer_ids_dom, Hp, Hdom; by apply elem_of_difference;
                rewrite elem_of_singleton).
          rewrite Hids in Hin. by apply not_elem_of_nil in Hin. }
        apply subseteq_size in Hsub. rewrite size_singleton in Hsub.
        apply Z.div_lt_upper_bound; lia.
      * rewrite <- Hids. apply (inv_campaign _ n r2 Hi2 Hn2). cbn.
        intros p [_ Hall]%(inv_chain_term _ Hi).
        specialize (Hall r (or_introl Hn)). lia.
Qed.

Lemma inv_goroutine w i n g d r r' ts : inv w → nodes w !! n = Some r →
  tasks w !! i = Some (TGo n g) → run_goroutine n g d r = Some (r', ts) →
  inv (spawn ts (finish i (set_node n r' w))).
Proof.
  intros Hi Hn Ht Hg. destruct (inv_id _ Hi n r) as (Hnid & Hsid & _); [by left|].
  assert (∀ gs : list goroutine, (∀ x T, GSendRequestVote x T ∉ gs) →
    omap chain (TGo n <$> gs) = []) as Hgs.
  { induction gs as [|x gs IH]; [done|]. intros Hx. cbn.
    destruct x; cbn; try (apply IH; intros ? ? ?; eapply Hx, elem_of_cons; eauto).
    by destruct (Hx peerId term); apply elem_of_cons; left. }
  destruct g as [id T|id T c|id T| |]; cbn in Hg.
  - destruct (sendRequestVote_request d id T r) as [r1 o] eqn:Hq.
    injection Hg as <- <-. eapply inv_quiet_replace; eauto.
    + by eapply sendRequestVote_request_quiet.
    + destruct o as [req|]; [|done]. apply Forall_singleton. cbn.
      apply sendRequestVote_request_Some in Hq as [Ht' Hc].
      rewrite Hsid, i32_id in Hc by (apply (co_range _ _ Hok) in Hnid; lia). rewrite Hc. eauto 10.
    + destruct o; cbn; [done|apply submseteq_nil_l].
  - destruct (sendAppendEntries_request d id T c r) as [r1 a] eqn:Hq.
    injection Hg as <- <-. eapply inv_quiet_replace; eauto.
    + by eapply sendAppendEntries_request_quiet.
    + destruct a; repeat constructor.
    + destruct a; cbn; apply submseteq_nil_l.
  - destruct (sendInstallSnapshot_request d id T r) as [r1 o] eqn:Hq.
    injection Hg as <- <-. eapply inv_quiet_replace; eauto.
    + by eapply sendInstallSnapshot_request_quiet.
    + destruct o as [[]|]; repeat constructor.
    + destruct o as [[]|]; cbn; apply submseteq_nil_l.
  - assert (quiet r (fst (runHeartbeat_turn r))) as Hq
      by (unfold runHeartbeat_turn; destruct (ctx r) as [[]|]; quiet_solve).
    destruct (runHeartbeat_turn r) as [r1 o] eqn:Hr. injection Hg as <- <-.
    eapply inv_quiet_replace; eauto.
    + destruct o; repeat constructor. apply Forall_fmap, Forall_true. done.
    + destruct o as [gs|]; cbn; [|apply submseteq_nil_l]. rewrite Hgs; [done|].
      unfold runHeartbeat_turn, sendHeartbeats in Hr. intros x U.
      destruct (ctx r) as [[]|]; [done|..]; destruct (_ || _); injection Hr as <- <-;
        [apply not_elem_of_nil| |apply not_elem_of_nil|];
        by intros (? & ? & _)%list_elem_of_fmap.
  - destruct (commitCh r); [|done]. injection Hg as <- <-.
    eapply inv_quiet_replace; eauto; [quiet_solve|repeat constructor].
Qed.

Lemma omap_chain_nil ts : Forall (λ t, chain t = None) ts → omap chain ts = [].
Proof. induction 1 as [|t ts Ht _ IH]; [done|]. cbn. by rewrite Ht. Qed.

Lemma becomeLeader_cases r r' gs : becomeLeader r = (r', gs) →
  ((state r ≠ Candidate ∨ shutdown r = true) ∧ r' = r ∧ gs = []) ∨
  (state r = Candidate ∧ shutdown r = false ∧ gs = [GRunHeartbeat] ∧
   serverId r' = serverId r ∧ dom (peers r') = dom (peers r) ∧
   currentTerm r' = currentTerm r ∧ votedFor r' = votedFor r ∧ state r' = Leader).
Proof.
  unfold becomeLeader. destruct (state r) eqn:Hs, (shutdown r) eqn:Hsh; cbn;
    try (intros [= <- <-]; by auto).
  intros [= <- <-]. right. destruct (electionTimer r); cbn; rewrite dom_fmap_L; auto 10.
Qed.

Lemma inv_run w i d w' : inv w → run_task i d w = Some w' →
  fair_event w (Run i d) = true → inv w'.
Proof.
  intros Hi Hst Hf. unfold run_task in Hst.
  destruct (tasks w !! i) as [[n g| | |n T|n|n msg]|] eqn:Ht; try done;
    destruct (nodes w !! n) as [r|] eqn:Hn; try done; cbn [mbind option_bind] in Hst.
  - destruct (run_goroutine n g d r) as [[r' ts]|] eqn:Hg; [|done].
    injection Hst as <-. by eapply inv_goroutine.
  - assert (task_ok w (TLead n T)) as Hw by by eapply inv_task.
    destruct (becomeLeader r) as [r' gs] eqn:Hb.
    apply becomeLeader_cases in Hb as
      [(Hc & -> & ->)|(Hs & Hsh & -> & Hid & Hd & Htm & Hv & Hs')].
    + assert ((state_eqb (state r) Candidate && negb (shutdown r))%bool = false) as Hwin.
      { destruct Hc as [Hc| ->]; [|apply andb_false_r]. by destruct (state r). }
      rewrite Hwin in Hst. injection Hst as <-.
      eapply inv_quiet_replace; eauto; reflexivity.
    + rewrite Hs, Hsh in Hst. cbn [andb negb] in Hst.
      change (state_eqb Candidate Candidate) with true in Hst. injection Hst as <-.
      cbn in Hf. rewrite Ht, Hn, Hs in Hf. cbn in Hf. apply Z.eqb_eq in Hf. subst T.
      apply (inv_replace _ i (TLead n (currentTerm r))); auto.
      * by apply (inv_lead w n r r').
      * repeat constructor.
  - assert (quiet r (fst (apply_take r))) as Hq by apply apply_take_quiet.
    destruct (apply_take r) as [r' o]. injection Hst as <-.
    eapply inv_quiet_replace; eauto; destruct o; repeat constructor.
  - destruct (send_applyCh msg r) as [r'|] eqn:Hs; [|done]. injection Hst as <-.
    apply send_applyCh_inv in Hs as ->.
    apply (inv_quiet_replace w n r _ i (TApplySend n msg)); auto; [quiet_solve|repeat constructor].
Qed.

Lemma answer_ok w k a : match k, a with
    | Some (KVote n p T), AVote resp => rvrVoteGranted resp = true → (p, T, n) ∈ grants w
    | _, _ => True end → Forall (task_ok w) (answer k a).
Proof. destruct k as [[]|], a; repeat constructor; auto. Qed.

Lemma answer_chain dst q k a : match k with Some (KVote _ _ _) => ∃ req, q = QVote req | _ => True end →
  omap chain (answer k a) ⊆+ omap chain [TCall dst q k].
Proof. destruct k as [[]|], q; cbn; try done; by intros [? [=]]. Qed.

(** A handler that casts no vote: it answers, fails, or takes the process
    down. *)
Lemma inv_handled w i dst q k r r' ts : inv w → nodes w !! dst = Some r → quiet r r' →
  tasks w !! i = Some (TCall dst q k) → Forall (task_ok w) ts →
  omap chain ts ⊆+ omap chain [TCall dst q k] →
  inv (spawn ts (set_node dst r' (finish i w))) ∧
  inv (set_node dst r' (finish i w)) ∧ inv (crash dst r' (set_node dst r' (finish i w))).
Proof.
  intros Hi Hn Hq Ht Hts Hc.
  assert (inv (set_node dst r' (finish i w))) as Hi'
    by (eapply inv_quiet; eauto; by eapply inv_finish).
  split_and!; [|done|].
  - by eapply (inv_quiet_replace w dst r r' i).
  - apply inv_crash; [done|]. apply lookup_insert_eq.
Qed.

Lemma inv_voted w i dst req k rnd r r' res : inv w → nodes w !! dst = Some r →
  tasks w !! i = Some (TCall dst (QVote req) k) → RequestVote rnd req r = (r', res) →
  let w1 := set_node dst r' (finish i w) in
  match res with
  | Ret resp => inv (spawn (answer k (AVote resp))
      (if rvrVoteGranted resp
       then w1 <| grants := (dst, rvTerm req, rvCandidateId req) :: grants w1 |> else w1))
  | Fail _ => inv w1
  | Panic => inv (crash dst r' w1)
  end.
Proof.
  intros Hi Hn Ht Hrv. cbn zeta.
  assert (task_ok w (TCall dst (QVote req) k)) as [Hcid Hk] by by eapply inv_task.
  apply RequestVote_cases in Hrv as [[Hq Hres]|(r1 & p & tm & Hq & -> & Hterm & Hfree & ->)].
  - destruct res as [resp| |].
    + rewrite (Hres resp eq_refl). eapply inv_handled; eauto.
      * apply answer_ok. destruct k as [[]|]; auto. by rewrite (Hres resp eq_refl).
      * apply answer_chain. destruct k as [[]|]; eauto.
    + by eapply (inv_handled w i dst (QVote req) k r r' []); eauto using submseteq_nil_l.
    + by eapply (inv_handled w i dst (QVote req) k r r' []); eauto using submseteq_nil_l.
  - cbn [rvrVoteGranted].
    assert (inv (set_node dst r1 w)) as Hi1 by by eapply inv_quiet.
    set (r2 := r1 <| persister := p |> <| votedFor := rvCandidateId req |> <| electionTimer := tm |>).
    assert (inv ((set_node dst r2 (set_node dst r1 w))
                   <| grants := (dst, currentTerm r1, rvCandidateId req) :: grants w |>)) as Hi2
      by (apply (inv_cast _ dst r1 r2 (rvCandidateId req) Hi1); auto; apply lookup_insert_eq).
    rewrite Hterm in Hi2.
    replace (set_node dst r2 (set_node dst r1 w)) with (set_node dst r2 w) in Hi2
      by (unfold set_node; cbn; by rewrite insert_insert_eq).
    apply (inv_replace _ i (TCall dst (QVote req) k) _ Hi2 Ht).
    + apply answer_ok. destruct k as [[]|]; auto. intros _.
      destruct Hk as (? & [= <-] & -> & -> & ->). apply elem_of_cons. by left.
    + apply answer_chain. destruct k as [[]|]; eauto.
Qed.

Lemma inv_deliver w i rnd w' : inv w → deliver i rnd w = Some w' → inv w'.
Proof.
  intros Hi Hst. unfold deliver in Hst.
  destruct (tasks w !! i) as [[|dst q k| | | |]|] eqn:Ht; try done.
  destruct (nodes w !! dst) as [r|] eqn:Hn; [|done]. cbn [mbind option_bind] in Hst.
  assert (task_ok w (TCall dst q k)) as [_ Hk] by by eapply inv_task.
  destruct q as [req|req|req].
  - destruct (RequestVote rnd req r) as [r' res] eqn:Hrv.
    pose proof (inv_voted w i dst req k rnd r r' res Hi Hn Ht Hrv) as H.
    destruct res; injection Hst as <-; exact H.
  - pose proof (AppendEntries_quiet rnd req r) as Hq.
    destruct (AppendEntries rnd req r) as [r' res].
    destruct (inv_handled w i dst (QAppend req) k r r'
      (match res with Ret a => answer k (AAppend a) | _ => [] end)) as (H1 & H2 & H3); auto.
    + destruct res; auto. apply answer_ok. by destruct k as [[]|].
    + destruct res; try apply submseteq_nil_l. apply answer_chain.
      destruct k as [[]|]; auto. by destruct Hk as (? & ? & _).
    + destruct res; injection Hst as <-; assumption.
  - pose proof (InstallSnapshot_quiet rnd req r) as Hq.
    destruct (InstallSnapshot rnd req r) as [r' res].
    destruct (inv_handled w i dst (QSnapshot req) k r r'
      (match res with Ret a => answer k (ASnapshot a) | _ => [] end)) as (H1 & H2 & H3); auto.
    + destruct res; auto. apply answer_ok. by destruct k as [[]|].
    + destruct res; try apply submseteq_nil_l. apply answer_chain.
      destruct k as [[]|]; auto. by destruct Hk as (? & ? & _).
    + destruct res; injection Hst as <-; assumption.
Qed.

(** What a vote's reply does to the candidate. *)
Lemma sendRequestVote_reply_cases T resp r r' b : sendRequestVote_reply T resp r = (r', b) →
  (quiet r r' ∧ b = false ∧
   ((currentTerm r =? T) && state_eqb (state r) Candidate
     && (rvrTerm resp <=? currentTerm r) && rvrVoteGranted resp)%bool = false) ∨
  (currentTerm r = T ∧ state r = Candidate ∧ rvrTerm resp ≤ currentTerm r ∧
   rvrVoteGranted resp = true ∧ r' = r <| votesReceived := votesReceived r +! 1 |> ∧
   b = (GetPeerCount r / 2 <? votesReceived r +! 1)).
Proof.
  unfold sendRequestVote_reply.
  destruct (Z.eqb_spec (currentTerm r) T) as [Ht|]; cbn; [|intros [= <- <-]; left; split_and!; auto; reflexivity].
  destruct (state_eqb (state r) Candidate) eqn:Hs; cbn; [|intros [= <- <-]; left; split_and!; auto; reflexivity].
  state_props. destruct (Z.ltb_spec (currentTerm r) (rvrTerm resp)).
  - intros [= <- <-]. left. rewrite (proj2 (Z.leb_gt _ _)) by done.
    split_and!; auto. by apply stepDown_quiet.
  - rewrite (proj2 (Z.leb_le _ _)) by done. cbn.
    destruct (rvrVoteGranted resp) eqn:Hg; [|intros [= <- <-]; left; split_and!; auto; reflexivity].
    unfold GetPeerCount. cbn. intros E. right.
    destruct (_ / 2 <? _); injection E as <- <-; split_and!; auto.
Qed.

Lemma peer_count w n r : inv w → known w n r → GetPeerCount r = Z.of_nat (size ids) - 1.
Proof.
  intros Hi Hk. destruct (inv_id _ Hi n r Hk) as (Hn & _ & Hd).
  unfold GetPeerCount. rewrite <- size_dom, Hd.
  rewrite size_difference by by apply singleton_subseteq_l.
  rewrite size_singleton.
  assert (size ids ≠ 0)%nat
    by (intros H%size_empty_inv; by apply H, not_elem_of_empty in Hn). lia.
Qed.

Lemma inv_return_vote w i n p T resp r r' b : inv w → nodes w !! n = Some r →
  tasks w !! i = Some (TReply (KVote n p T) (AVote resp)) →
  sendRequestVote_reply T resp r = (r', b) →
  let counts := ((currentTerm r =? T) && state_eqb (state r) Candidate
     && (rvrTerm resp <=? currentTerm r) && rvrVoteGranted resp)%bool in
  inv (spawn (if b : bool then [TLead n T] else [])
    (finish i (set_node n r' (if counts then count_vote n T p w else w)))).
Proof.
  intros Hi Hn Ht Hs counts. subst counts.
  pose proof (inv_task _ _ _ Hi Ht) as Hok'. cbn in Hok'.
  apply sendRequestVote_reply_cases in Hs as
    [(Hq & -> & ->)|(HT & Hst & Hle & Hg & -> & Hb)].
  - eapply inv_quiet_replace; eauto. apply submseteq_nil_l.
  - rewrite (proj2 (Z.eqb_eq _ _) HT), (proj2 (Z.leb_le _ _) Hle), Hst, Hg. cbn [andb].
    change (state_eqb Candidate Candidate) with true. cbn [andb]. subst T.
    assert (known w n r) as Hkn by by left.
    destruct (inv_cand _ Hi n r Hn Hst) as [Hself Hvr].
    assert (inv (finish i (set_node n (r <| votesReceived := votesReceived r + 1 |>)
                   (count_vote n (currentTerm r) p w)))) as Hi2
      by (eapply inv_count; eauto; by apply Hok').
    pose proof (voters_bound _ n (currentTerm r) Hi Hself) as Hvb.
    pose proof (co_size _ _ Hok) as Hsz. pose proof (len_nonneg (counted w)).
    assert (0 ≤ tally w n (currentTerm r)) by apply len_nonneg.
    rewrite i64_id in * by lia. subst b. rewrite (peer_count w n r) by done.
    destruct (Z.ltb_spec ((Z.of_nat (size ids) - 1) / 2) (votesReceived r + 1)).
    + apply (inv_spawn _ _ Hi2); [|done]. apply Forall_singleton. split; [done|].
      change (tally _ n _) with (tally (count_vote n (currentTerm r) p w) n (currentTerm r)).
      rewrite tally_count, decide_True by done. lia.
    + by apply (inv_spawn _ [] Hi2).
Qed.

Lemma inv_return w i w' : inv w → return_reply i w = Some w' → inv w'.
Proof.
  intros Hi Hst. unfold return_reply in Hst.
  destruct (tasks w !! i) as [[| |k a| | |]|] eqn:Ht; try done.
  destruct k as [n p T|n p T c prev m|n p T li], a as [resp|resp|resp]; try done;
    destruct (nodes w !! n) as [r|] eqn:Hn; try done; cbn [mbind option_bind] in Hst.
  - destruct (sendRequestVote_reply T resp r) as [r' b] eqn:Hr. injection Hst as <-.
    exact (inv_return_vote w i n p T resp r r' b Hi Hn Ht Hr).
  - pose proof (sendAppendEntries_reply_quiet p T c prev m resp r) as Hq.
    pose proof (sendAppendEntries_reply_sends p T c prev m resp r) as Hg.
    destruct (sendAppendEntries_reply p T c prev m resp r) as [r' gs]. injection Hst as <-.
    eapply inv_quiet_replace; eauto.
    + apply Forall_fmap, Forall_true. done.
    + rewrite omap_chain_nil; [done|]. apply Forall_fmap.
      eapply Forall_impl; [exact Hg|]. by intros [].
  - injection Hst as <-. eapply inv_finish; [|done].
    eapply inv_quiet; eauto using sendInstallSnapshot_reply_quiet.
Qed.

Lemma new_peers_dom (m : gmap Z string) :
  dom (map_imap (λ id addr, Some (new_peer id addr)) m) = dom m.
Proof.
  apply set_eq. intros x. rewrite !elem_of_dom, map_lookup_imap.
  destruct (m !! x); cbn; split; intros [? ?]; eauto; done.
Qed.

(** A node built from its configuration on a given persister. *)
Lemma booted n cfg p r : cfgs !! n = Some cfg →
  NewRaft (cfg <| cfgPersister := Some p |>) = Ret r →
  serverId r = n ∧ dom (peers r) = ids ∖ {[n]} ∧ state r = Follower ∧
  (currentTerm r, votedFor r) = recovered_vote p.
Proof.
  intros Hc Hr. pose proof (NewRaft_Ret _ _ Hr) as [Hv [Hid Hp Hs _ _ _ _ _ _ _ _]].
  destruct (co_cfg _ _ Hok n cfg Hc) as [Hcid Hdom].
  rewrite Hid, Hp, new_peers_dom. cbn. split_and!; auto.
  destruct (NewRaft_Load _ p Hv eq_refl) as (r0 & Hr0 & Hp0 & _ & _ & _ & _ & _ & _ & Ht0 & Hv0).
  rewrite Hr in Hr0. injection Hr0 as ->. by rewrite loadPersistedState_vote, Hp0, Ht0, Hv0.
Qed.

Lemma inv_restarted w n rnd w' : inv w → restart n rnd w = Some w' →
  fair_event w (Restart n rnd) = true → inv w'.
Proof.
  intros Hi Hst Hf. unfold restart in Hst.
  destruct (down w !! n) as [r|] eqn:Hn; [|done]. cbn [mbind option_bind] in Hst.
  rewrite (inv_cfg _ Hi) in Hst.
  destruct (cfgs !! n) as [cfg|] eqn:Hc; [|done]. cbn [mbind option_bind] in Hst.
  destruct (NewRaft _) as [r1| |] eqn:Hr1; try done.
  destruct (booted _ _ _ _ Hc Hr1) as (Hid & Hd & Hs & Hv).
  cbn in Hf. rewrite Hn in Hf. apply bool_decide_eq_true_1 in Hf. rewrite Hf in Hv. injection Hv as Ht Hvt.
  destruct (Start_inv rnd r1) as (c & t & g & Hst1).
  assert (Forall (λ x, chain (TGo n x) = None) (snd (Start rnd r1))) as Hg
    by (unfold Start; destruct (ctx r1); repeat constructor).
  destruct (Start rnd r1) as [r2 gs]. cbn [fst snd] in *. injection Hst as <-.
  destruct (inv_id _ Hi n r) as (_ & Hid' & Hd'); [by right|].
  apply inv_spawn.
  - apply (inv_restart w n r); auto; subst r2; cbn; congruence.
  - apply Forall_fmap, Forall_true. done.
  - apply omap_chain_nil. by apply Forall_fmap.
Qed.

Lemma inv_step w e w' : inv w → step e w = Some w' → fair_event w e = true → inv w'.
Proof.
  intros Hi Hst Hf. destruct e as [n rnd|i d|i rnd|i|i|n cmd|n idx data|n|n|n rnd]; cbn in Hst.
  - by eapply inv_timeout.
  - by eapply inv_run.
  - by eapply inv_deliver.
  - by eapply inv_return.
  - assert (∀ t, tasks w !! i = Some t → inv (finish i w)) as Hdrop.
    { intros t Ht. by eapply inv_finish. }
    destruct (tasks w !! i) as [[]|] eqn:Ht; try done; injection Hst as <-; by eapply Hdrop.
  - destruct (nodes w !! n) as [r|] eqn:Hn; [|done]. cbn [mbind option_bind] in Hst.
    pose proof (ReplicateCommand_begin_quiet cmd r) as Hq.
    pose proof (ReplicateCommand_begin_sends cmd r) as Hg.
    destruct (ReplicateCommand_begin cmd r) as [r' res]. injection Hst as <-.
    apply inv_spawn; [by eapply inv_quiet| |].
    + destruct res as [[]| |]; try constructor. apply Forall_fmap, Forall_true. done.
    + destruct res as [[]| |]; try done. apply omap_chain_nil, Forall_fmap.
      eapply Forall_impl; [exact Hg|]. by intros [].
  - destruct (nodes w !! n) as [r|] eqn:Hn; [|done]. injection Hst as <-.
    eapply inv_quiet; eauto. apply Snapshot_quiet.
  - destruct (nodes w !! n) as [r|] eqn:Hn; [|done]. cbn [mbind option_bind] in Hst.
    destruct (applyCh r); [done|]. injection Hst as <-.
    eapply inv_quiet; eauto. quiet_solve.
  - destruct (nodes w !! n) as [r|] eqn:Hn; [|done]. injection Hst as <-. by apply inv_crash.
  - by eapply inv_restarted.
Qed.

Lemma inv_run_all es w w' : inv w → run es w = Some w' → fair_run es w = true → inv w'.
Proof.
  revert w. induction es as [|e es IH]; intros w Hi Hr Hf; cbn in Hr.
  - by injection Hr as <-.
  - cbn in Hf. apply andb_true_iff in Hf as [Hf Hfs]. destruct (step e w) as [w1|] eqn:Hs; [|done].
    apply (IH w1); auto. by eapply inv_step.
Qed.

(** ** The first start: no node has voted. *)
Definition no_vote (cfg : Config P) : Prop :=
  match cfgPersister cfg with Some p => snd (recovered_vote p) = -1 | None => True end.

#[export] Instance no_vote_dec cfg : Decision (no_vote cfg).
Proof. unfold no_vote. destruct (cfgPersister cfg); apply _. Defined.

Lemma inv_boot rnd : map_Forall (λ _, no_vote) cfgs → inv (boot rnd cfgs).
Proof.
  intros Hblank.
  assert (∀ n r, nodes (boot rnd cfgs) !! n = Some r →
    n ∈ ids ∧ serverId r = n ∧ dom (peers r) = ids ∖ {[n]} ∧ state r = Follower ∧
    votedFor r = -1) as Hn.
  { intros n r. cbn. rewrite lookup_omap. destruct (cfgs !! n) as [cfg|] eqn:Hc; [|done].
    cbn. unfold boot_node. destruct (NewRaft cfg) as [r0| |] eqn:Hr; try done. intros [= <-].
    destruct (NewRaft_Ret _ _ Hr) as [(_ & [p Hp] & _)%validate_None _].
    assert (cfg = cfg <| cfgPersister := Some p |>) as Hcfg by (rewrite <- Hp; by destruct cfg).
    rewrite Hcfg in Hr. destruct (booted _ _ _ _ Hc Hr) as (Hid & Hd & Hs & Hv).
    assert (votedFor r0 = -1) as Hvt
      by (specialize (Hblank n cfg Hc); unfold no_vote in Hblank; rewrite Hp, <- Hv in Hblank;
          exact Hblank).
    destruct (Start_inv rnd r0) as (c & t & g & ->). cbn.
    split_and!; auto. rewrite <- (co_dom _ _ Hok). by eapply elem_of_dom_2. }
  assert (∀ n r, known (boot rnd cfgs) n r → nodes (boot rnd cfgs) !! n = Some r) as Hk
    by (intros n r [?|Hd]; [done|]; cbn in Hd; by rewrite lookup_empty in Hd).
  assert (omap chain (tasks (boot rnd cfgs)) ++ counted (boot rnd cfgs) = []) as Hch.
  { unfold boot. cbn [tasks counted]. rewrite omap_chain_nil; [done|].
    by apply Forall_fmap, Forall_true. }
  split; try done.
  - intros n r H%Hk. by destruct (Hn n r H) as (? & ? & ? & _).
  - intros n r H%Hk ?. by destruct (Hn n r H) as (_ & _ & _ & _ & ?).
  - intros n t c []%not_elem_of_nil.
  - intros n t c c' []%not_elem_of_nil.
  - unfold boot at 2. cbn [tasks]. apply Forall_fmap, Forall_true. done.
  - rewrite Hch. constructor.
  - intros n T p. rewrite Hch. by intros []%not_elem_of_nil.
  - intros n T p []%not_elem_of_nil.
  - intros n r H Hs. destruct (Hn n r H) as (_ & _ & _ & ? & _). congruence.
  - intros T n []%not_elem_of_nil.
  - intros n r H Hs. destruct (Hn n r H) as (_ & _ & _ & ? & _). congruence.
Qed.
End safety.

(** ** Election safety, and what each side condition rules out *)

Import MemoryPersister.

(** A cluster of nodes [1..k] on in-memory persisters. *)
Definition test_ids (k : nat) : list Z := Z.of_nat <$> seq 1 k.

Definition test_config (k : nat) (n : Z) : Config MemoryPersister :=
  mkConfig n "localhost:0"
    (list_to_map ((λ id, (id, "localhost:0"%string)) <$> filter (λ id, id ≠ n) (test_ids k)))
    150 300 50 1000 (Some NewMemoryPersister).

Definition test_configs (k : nat) : gmap Z (Config MemoryPersister) :=
  list_to_map ((λ n, (n, test_config k n)) <$> test_ids k).

(** Leaders of a world: node and term. *)
Definition leaders {P} (w : World P) : list (Z * Z) :=
  omap (λ '(n, r), if state_eqb (state r) Leader then Some (n, currentTerm r) else None)
    (map_to_list (nodes w)).

(** C5: In a cluster of odd size that starts without a vote on its disks, along
    every run in which terms do not overflow, a won candidacy is not overtaken by a later one before
    [becomeLeader] runs, and a restarting node finds the vote it cast, at most
    one node is ever made leader in a term; hence two nodes that are leaders of
    the same term at the same time are the same node. *)
Theorem election_safety {P} `{Persister P} (ids : gset Z) (cfgs : gmap Z (Config P))
    (rnd : Z) (es : list event) (w : World P) :
  cluster_ok ids cfgs → Z.odd (Z.of_nat (size ids)) = true →
  map_Forall (λ _, no_vote) cfgs →
  run es (boot rnd cfgs) = Some w → fair_run es (boot rnd cfgs) = true →
  (∀ T n n', (T, n) ∈ elected w → (T, n') ∈ elected w → n = n') ∧
  (∀ n n' r r', nodes w !! n = Some r → nodes w !! n' = Some r' →
     state r = Leader → state r' = Leader → currentTerm r = currentTerm r' → n = n').
Proof.
  intros Hok Hodd Hnv Hrun Hfair.
  assert (inv ids cfgs w) as Hi by (eapply inv_run_all; eauto; by apply inv_boot).
  assert (∀ T n n', (T, n) ∈ elected w → (T, n') ∈ elected w → n = n') as Hel.
  { intros T n n' Hn Hn'. apply (won_unique ids cfgs w n n' T); auto; by apply Hi. }
  split; [done|]. intros n n' r r' Hn Hn' Hs Hs' Ht. apply (Hel (currentTerm r)).
  - by apply (inv_leader _ _ _ Hi).
  - rewrite Ht. by apply (inv_leader _ _ _ Hi).
Qed.

(** Node 1 wins term 1 with the vote of node 3 and takes office. *)
Definition elect_one : list event :=
  [Timeout 1 0; Run 3 true; Deliver 4 0; Return 4; Run 4 true].

Lemma election_safety_witness :
  fair_run elect_one (boot 0 (test_configs 3)) = true ∧
  match run elect_one (boot 0 (test_configs 3)) with
  | Some w => elected w = [(1, 1)] ∧
      (∀ T n n', (T, n) ∈ elected w → (T, n') ∈ elected w → n = n')
  | None => False
  end.
Proof.
  split; [vm_compute; reflexivity|].
  destruct (run elect_one (boot 0 (test_configs 3))) as [w|] eqn:Hrun;
    [|vm_compute in Hrun; discriminate].
  split; [vm_compute in Hrun; injection Hrun as <-; reflexivity|].
  refine (proj1 (election_safety (list_to_set (test_ids 3)) (test_configs 3) 0 elect_one w
                   _ _ _ Hrun _)).
  - split; [vm_compute; reflexivity| | |vm_compute; reflexivity];
      by_evaluation.
  - vm_compute. reflexivity.
  - by_evaluation.
  - vm_compute. reflexivity.
Defined.

(** The quorum test of [sendRequestVote] compares the votes with half the
    number of peers.  In a cluster of even size that is one vote short of a
    majority: with four nodes a run that satisfies every side condition of
    election safety has two leaders of term 1. *)
Theorem even_cluster_two_leaders :
  let es := [Timeout 1 0; Timeout 2 0; Run 4 true; Deliver 9 0; Return 9; Run 9 true;
             Run 7 true; Deliver 9 0; Return 9; Run 9 true] in
  fair_run es (boot 0 (test_configs 4)) = true ∧
  leaders <$> run es (boot 0 (test_configs 4)) = Some [(2, 1); (1, 1)].
Proof. vm_compute. split; reflexivity. Qed.

(** [sendRequestVote] releases the lock between the quorum test and
    [becomeLeader], which checks the role and not the term.  A candidate whose
    timer fires in between becomes leader of the next term without a vote of
    that term, beside the leader that term elected. *)
Theorem stale_win_two_leaders :
  leaders <$> run [Timeout 1 0; Run 3 true; Deliver 4 0; Return 4; Timeout 1 0; Timeout 2 0;
                   Timeout 2 0; Run 9 true; Deliver 10 0; Return 10; Run 10 true; Run 4 true]
                (boot 0 (test_configs 3)) = Some [(2, 2); (1, 2)].
Proof. vm_compute. reflexivity. Qed.

(** [RequestVote] persists before it records the vote.  A voter that crashes
    after granting forgets the vote and grants a second one in the same term:
    two leaders of term 1. *)
Theorem lost_vote_two_leaders :
  leaders <$> run [Timeout 1 0; Run 3 true; Deliver 4 0; Return 4; Run 4 true; Crash 3;
                   Restart 3 0; Timeout 2 0; Run 5 true; Deliver 6 0; Return 6; Run 6 true]
                (boot 0 (test_configs 3)) = Some [(2, 1); (1, 1)].
Proof. vm_compute. reflexivity. Qed.
