(* ===== verification/Protocol.v ===== *)
(** * The Raft protocol, abstractly

    What a cluster promises, without handlers, messages, timers and disks: a
    node has a term, a role, a log and a commit position; besides the nodes
    the state holds the history of the protocol, that is, the reigns (leader,
    log at the election, log now), the votes cast and the acknowledgements
    given.  [pstep] are the moves of the protocol; every move keeps the
    invariant [pinv], from which log matching, leader completeness and
    state-machine safety follow.  [ClusterSafety] shows that the program's
    cluster makes only such moves. *)

From S2P Require Import Prelude Types.

Record View : Type := mkView {
  vTerm : Z;
  vRole : State;
  vLog : list LogEntry;
  vCommit : nat            (* entries at positions below are committed *)
}.

Record Reign : Type := mkReign {
  gLeader : Z;
  gStart : list LogEntry;  (* the leader's log when it was elected *)
  gLog : list LogEntry     (* ... and now, or when its reign ended *)
}.

Record Proto : Type := mkProto {
  views : gmap Z View;
  reigns : gmap Z Reign;
  votes : list (Z * Z * Z);     (* voter, term, candidate *)
  acks : list (Z * Z * nat)     (* node, term, length of the log acknowledged *)
}.

Definition last_term (l : list LogEntry) : Z := from_option eTerm 0 (last l).

(** The candidate's log is at least as up to date as the voter's. *)
Definition fresher (cand voter : list LogEntry) : Prop :=
  last_term voter < last_term cand ∨
  last_term cand = last_term voter ∧ (length voter ≤ length cand)%nat.

(** A follower takes over the first [k] entries of the leader's log, unless it
    has them already. *)
Definition adopt (k : nat) (leader l : list LogEntry) : list LogEntry :=
  if decide (take k leader `prefix_of` l) then l else take k leader.

Section protocol.
Context (ids : gset Z).
Implicit Types (h : Proto) (x : View) (g : Reign) (l : list LogEntry).

(** The two quorum tests of the program: of [sendRequestVote] and of
    [updateCommitIndex]. *)
Definition elects (Q : list Z) : Prop :=
  NoDup Q ∧ (∀ v, v ∈ Q → v ∈ ids) ∧ (Z.of_nat (size ids) - 1) / 2 < len Q.

Definition commits (Q : list Z) : Prop :=
  NoDup Q ∧ (∀ v, v ∈ Q → v ∈ ids) ∧ Z.of_nat (size ids) < 2 * len Q.

Definition reign_log h (T : Z) : list LogEntry := from_option gLog [] (reigns h !! T).

(** Node [v] has acknowledged position [k] of the log of term [T]'s leader. *)
Definition acked h (v T : Z) (k : nat) : Prop := ∃ m, (v, T, m) ∈ acks h ∧ (k < m)%nat.

(** Position [k] of term [T]'s log was written in term [T]. *)
Definition proper h (T : Z) (k : nat) : Prop :=
  ∃ e, reign_log h T !! k = Some e ∧ eTerm e = T.

Definition committed h (T : Z) (k : nat) : Prop :=
  proper h T k ∧ ∃ Q, commits Q ∧ ∀ v, v ∈ Q → acked h v T k.

(** The first [c] entries of [l] are committed, by a leader of term at most
    [T]. *)
Definition certified h (T : Z) (c : nat) l : Prop :=
  c = 0%nat ∨
  ∃ T1 k, committed h T1 k ∧ T1 ≤ T ∧ (c ≤ S k)%nat ∧ take c l = take c (reign_log h T1).

(** ** The moves *)

(** [may k e]: a leader may append [e] at position [k]. *)
Context (may : nat → LogEntry → Prop).

Definition set_view (n : Z) x h : Proto := h <| views := <[n := x]> (views h) |>.
Definition set_reign (T : Z) g h : Proto := h <| reigns := <[T := g]> (reigns h) |>.

Inductive pstep h : Proto → Prop :=
  (* a node moves on to a later term, crashes, restarts, or forgets how much
     is committed *)
  | p_follow n x T c :
      views h !! n = Some x → vTerm x ≤ T → (c ≤ vCommit x)%nat →
      pstep h (set_view n (mkView T Follower (vLog x) c) h)
  | p_candidate n x :
      views h !! n = Some x → 0 ≤ vTerm x → vRole x ≠ Leader →
      pstep h (set_view n (mkView (vTerm x + 1) Candidate (vLog x) (vCommit x)) h
                 <| votes := (n, vTerm x + 1, n) :: votes h |>)
  | p_vote v c x :
      views h !! v = Some x → (∃ y, views h !! c = Some y ∧ vTerm x ≤ vTerm y) →
      (∀ c', (v, vTerm x, c') ∈ votes h → c' = c) →
      (∀ y, views h !! c = Some y → vTerm y = vTerm x → vRole y = Candidate →
         reigns h !! vTerm x = None → fresher (vLog y) (vLog x)) →
      pstep h (h <| votes := (v, vTerm x, c) :: votes h |>)
  | p_elect n x Q :
      views h !! n = Some x → vRole x = Candidate → elects Q →
      (∀ v, v ∈ Q → (v, vTerm x, n) ∈ votes h) →
      pstep h (set_reign (vTerm x) (mkReign n (vLog x) (vLog x))
                 (set_view n (mkView (vTerm x) Leader (vLog x) (vCommit x)) h))
  | p_append n x g e :
      views h !! n = Some x → vRole x = Leader → reigns h !! vTerm x = Some g →
      eTerm e = vTerm x → may (length (vLog x)) e →
      pstep h (set_reign (vTerm x) (mkReign n (gStart g) (vLog x ++ [e]))
                 (set_view n (mkView (vTerm x) Leader (vLog x ++ [e]) (vCommit x)) h))
  | p_accept v x g k :
      views h !! v = Some x → vRole x ≠ Leader → reigns h !! vTerm x = Some g →
      (k ≤ length (gLog g))%nat →
      pstep h (set_view v (mkView (vTerm x) (vRole x) (adopt k (gLog g) (vLog x)) (vCommit x)) h)
  | p_ack v x g k :
      views h !! v = Some x → reigns h !! vTerm x = Some g → (k ≤ length (gLog g))%nat →
      take k (gLog g) `prefix_of` vLog x →
      pstep h (h <| acks := (v, vTerm x, k) :: acks h |>)
  | p_commit n x c :
      views h !! n = Some x → (c ≤ length (vLog x))%nat →
      certified h (vTerm x) c (vLog x) →
      pstep h (set_view n (mkView (vTerm x) (vRole x) (vLog x) c) h).

(** ** The invariant *)

(** Every entry comes from the leader of its term, with all that precedes
    it. *)
Definition matches h l : Prop :=
  ∀ i e, l !! i = Some e → ∃ g, reigns h !! eTerm e = Some g ∧ take (S i) l `prefix_of` gLog g.

(** Some leader between [T] and [hi] was elected without position [k] of term
    [T]'s log. *)
Definition lost h (T : Z) (k : nat) (hi : Z) : Prop :=
  ∃ T' g, reigns h !! T' = Some g ∧ T < T' ≤ hi ∧
    ¬ take (S k) (reign_log h T) `prefix_of` gStart g.

Definition holds h (T : Z) (k : nat) l : Prop := take (S k) (reign_log h T) `prefix_of` l.

#[export] Instance holds_dec h T k l : Decision (holds h T k l).
Proof. unfold holds. apply _. Defined.

Record pinv h : Prop := mkPinv {
  pi_dom : dom (views h) = ids;
  pi_vote v T c : (v, T, c) ∈ votes h → ∃ x, views h !! v = Some x ∧ T ≤ vTerm x;
  pi_for v T c : (v, T, c) ∈ votes h → ∃ x, views h !! c = Some x ∧ T ≤ vTerm x;
  pi_once v T c c' : (v, T, c) ∈ votes h → (v, T, c') ∈ votes h → c = c';
  pi_cand n x : views h !! n = Some x → vRole x = Candidate → 0 < vTerm x;
  pi_lead n x : views h !! n = Some x → vRole x = Leader →
    ∃ g, reigns h !! vTerm x = Some g ∧ gLeader g = n ∧ gLog g = vLog x;
  pi_reign T g : reigns h !! T = Some g →
    0 < T ∧ gStart g `prefix_of` gLog g ∧ matches h (gStart g) ∧
    Forall (λ e, eTerm e < T) (gStart g) ∧
    Forall (λ e, eTerm e = T) (drop (length (gStart g)) (gLog g));
  pi_leader T g : reigns h !! T = Some g → ∃ x, views h !! gLeader g = Some x ∧
    T ≤ vTerm x ∧ (vTerm x = T → vRole x ≠ Candidate);
  pi_quorum T g : reigns h !! T = Some g → ∃ Q, elects Q ∧
    (∀ v, v ∈ Q → (v, T, gLeader g) ∈ votes h) ∧
    ∀ v T0 k, v ∈ Q → T0 < T → acked h v T0 k → proper h T0 k →
      lost h T0 k (T - 1) ∨ holds h T0 k (gStart g);
  pi_log n x : views h !! n = Some x →
    matches h (vLog x) ∧ Forall (λ e, eTerm e ≤ vTerm x) (vLog x);
  pi_ack v T m : (v, T, m) ∈ acks h →
    (∃ x, views h !! v = Some x ∧ T ≤ vTerm x) ∧ (m ≤ length (reign_log h T))%nat;
  pi_kept v x T k : views h !! v = Some x → acked h v T k → proper h T k →
    lost h T k (vTerm x) ∨ holds h T k (vLog x);
  pi_cast v c x T k : views h !! c = Some x → vRole x = Candidate →
    reigns h !! vTerm x = None → (v, vTerm x, c) ∈ votes h →
    T < vTerm x → acked h v T k → proper h T k →
    lost h T k (vTerm x) ∨ holds h T k (vLog x);
  pi_commit n x : views h !! n = Some x →
    (vCommit x ≤ length (vLog x))%nat ∧ certified h (vTerm x) (vCommit x) (vLog x)
}.

(** ** Consequences of the invariant *)

Lemma quorums_meet (Q Q' : list Z) : NoDup Q → NoDup Q' →
  (∀ v, v ∈ Q → v ∈ ids) → (∀ v, v ∈ Q' → v ∈ ids) →
  Z.of_nat (size ids) < len Q + len Q' → ∃ v, v ∈ Q ∧ v ∈ Q'.
Proof.
  intros Hn Hn' Hs Hs' Hlt.
  destruct (decide (Exists (λ v, v ∈ Q') Q)) as [(v & ? & ?)%Exists_exists|Hno]; [eauto|].
  assert (NoDup (Q ++ Q')) as Hnd.
  { apply NoDup_app. split_and!; auto. intros v ? ?. apply Hno, Exists_exists. eauto. }
  assert (length (Q ++ Q') ≤ size ids)%nat as Hle.
  { rewrite <- (size_list_to_set (C := gset Z)) by done. apply subseteq_size.
    intros v. rewrite elem_of_list_to_set, elem_of_app. intros [?|?]; auto. }
  rewrite length_app in Hle. unfold len in Hlt. lia.
Qed.

Lemma elects_commits (Q Q' : list Z) : elects Q → commits Q' → ∃ v, v ∈ Q ∧ v ∈ Q'.
Proof.
  intros (? & ? & Hq) (? & ? & Hq'). apply quorums_meet; auto.
  pose proof (Z.div_mod (Z.of_nat (size ids) - 1) 2). pose proof (Z.mod_pos_bound (Z.of_nat (size ids) - 1) 2).
  lia.
Qed.

Lemma elects_twice (Q Q' : list Z) : Z.odd (Z.of_nat (size ids)) = true →
  elects Q → elects Q' → ∃ v, v ∈ Q ∧ v ∈ Q'.
Proof.
  intros Hodd (? & ? & Hq) (? & ? & Hq'). apply quorums_meet; auto.
  apply Zodd_bool_iff, Zodd_ex in Hodd as [k Hk]. rewrite Hk in *.
  replace (2 * k + 1 - 1) with (k * 2) in * by lia. rewrite Z.div_mul in * by lia. lia.
Qed.

Lemma matches_prefix h l l' : matches h l → l' `prefix_of` l → matches h l'.
Proof.
  intros Hm [k ->] i e Hi. destruct (Hm i e) as (g & Hg & Hp); [by apply lookup_app_l_Some|].
  exists g. split; [done|]. apply lookup_lt_Some in Hi. by rewrite take_app_le in Hp by lia.
Qed.

Lemma reign_log_Some h T g : reigns h !! T = Some g → reign_log h T = gLog g.
Proof. unfold reign_log. by intros ->. Qed.

Section consequences.
Context (h : Proto) (Hi : pinv h).

Lemma reign_terms T g e : reigns h !! T = Some g → e ∈ gLog g → eTerm e ≤ T.
Proof.
  intros Hg He. destruct (pi_reign _ Hi T g Hg) as (_ & [k Hk] & _ & Hs & Hd).
  rewrite Hk, drop_app_length in Hd. rewrite Hk in He. apply elem_of_app in He as [He|He].
  - rewrite Forall_forall in Hs. specialize (Hs e He). lia.
  - rewrite Forall_forall in Hd. specialize (Hd e He). lia.
Qed.

Lemma reign_start T g i e : reigns h !! T = Some g → gLog g !! i = Some e → eTerm e = T →
  gStart g `prefix_of` take i (gLog g).
Proof.
  intros Hg He Ht. destruct (pi_reign _ Hi T g Hg) as (_ & [k Hk] & _ & Hs & _).
  destruct (decide (i < length (gStart g))%nat) as [Hlt|Hge].
  - rewrite Hk, lookup_app_l in He by done. rewrite Forall_forall in Hs.
    specialize (Hs e (list_elem_of_lookup_2 _ _ _ He)). lia.
  - rewrite Hk. exists (take (i - length (gStart g)) k). by rewrite take_app_ge by lia.
Qed.

Lemma matches_reign T g : reigns h !! T = Some g → matches h (gLog g).
Proof.
  intros Hg i e Hl. destruct (pi_reign _ Hi T g Hg) as (_ & [k Hk] & Hm & _ & Hd).
  destruct (decide (i < length (gStart g))%nat) as [Hlt|Hge].
  - rewrite Hk, lookup_app_l in Hl by done. destruct (Hm i e Hl) as (g' & ? & Hp).
    exists g'. split; [done|]. by rewrite Hk, take_app_le by lia.
  - rewrite Forall_forall in Hd.
    assert (eTerm e = T) as ->.
    { apply Hd. apply list_elem_of_lookup_2 with (i - length (gStart g))%nat.
      rewrite lookup_drop. by replace (length (gStart g) + (i - length (gStart g)))%nat with i by lia. }
    exists g. split; [done|]. apply prefix_take.
Qed.

(** Terms do not decrease along a log. *)
Lemma matches_sorted l i j a b : matches h l → l !! i = Some a → l !! j = Some b →
  (i ≤ j)%nat → eTerm a ≤ eTerm b.
Proof.
  intros Hm Ha Hb Hij. destruct (Hm j b Hb) as (g & Hg & [k Hk]).
  apply (reign_terms _ _ _ Hg), list_elem_of_lookup_2 with i. rewrite Hk.
  apply lookup_app_l_Some. by rewrite lookup_take_lt by lia.
Qed.

(** A log is a prefix of the log of its last term's leader. *)
Lemma matches_last l : matches h l → l ≠ [] →
  ∃ g, reigns h !! last_term l = Some g ∧ l `prefix_of` gLog g.
Proof.
  intros Hm Hne. destruct (last l) as [e|] eqn:Hl; [|by apply last_None in Hl].
  unfold last_term. rewrite Hl. cbn. rewrite last_lookup in Hl.
  destruct (Hm _ _ Hl) as (g & Hg & Hp). exists g. split; [done|].
  rewrite take_ge in Hp; [done|]. destruct l; cbn in *; [done|lia].
Qed.

(** Two logs with an entry of the same term at the same place are the same up
    to there. *)
Lemma log_matching_at l l' i e e' : matches h l → matches h l' →
  l !! i = Some e → l' !! i = Some e' → eTerm e = eTerm e' → take (S i) l = take (S i) l'.
Proof.
  intros Hm Hm' Hl Hl' Ht. destruct (Hm _ _ Hl) as (g & Hg & Hp).
  destruct (Hm' _ _ Hl') as (g' & Hg' & Hp'). rewrite <- Ht, Hg in Hg'. injection Hg' as <-.
  apply lookup_lt_Some in Hl, Hl'.
  destruct (prefix_weak_total _ _ _ Hp Hp') as [H|H]; [|symmetry]; 
    apply (prefix_length_eq _ _ H); rewrite !length_take; lia.
Qed.

(** Leader completeness: what is committed in a term is in the log of every
    later leader from its election on. *)
Lemma leader_completeness_at T k T' g : committed h T k → T < T' → reigns h !! T' = Some g →
  holds h T k (gStart g).
Proof.
  intros [Hp (Q & Hc & Hack)]. revert g.
  induction T' as [T' IH] using (well_founded_ind (Z.lt_wf T)).
  intros g Hlt Hg. destruct (pi_quorum _ Hi T' g Hg) as (Q' & He & _ & Hq).
  destruct (elects_commits Q' Q) as (v & Hv' & Hv); [done..|].
  destruct (Hq v T k) as [(T2 & g2 & Hg2 & Hr & Hn)|H]; auto.
  destruct Hn. apply (IH T2); [lia|lia|done].
Qed.

Lemma holds_reign T k T' g : committed h T k → T ≤ T' → reigns h !! T' = Some g →
  holds h T k (gLog g).
Proof.
  intros Hc Hle Hg. destruct (Z.eq_dec T T') as [->|].
  - unfold holds. rewrite (reign_log_Some _ _ _ Hg). apply prefix_take.
  - unfold holds. etrans; [apply (leader_completeness_at T k T' g); auto; lia|].
    by destruct (pi_reign _ Hi T' g Hg) as (_ & ? & _).
Qed.

(** What a node holds committed is in the log of every leader of its term or a
    later one. *)
Lemma certified_reign T c l T' g : certified h T c l → (c ≤ length l)%nat → T ≤ T' →
  reigns h !! T' = Some g → take c l `prefix_of` gLog g.
Proof.
  intros [->|(T1 & k & Hc & Hle & Hck & Heq)] Hlen Hle' Hg; [apply prefix_nil|].
  rewrite Heq. etrans; [|apply (holds_reign T1 k T' g); auto; lia].
  replace (take c (reign_log h T1)) with (take c (take (S k) (reign_log h T1)))
    by (rewrite take_take; f_equal; lia). apply prefix_take.
Qed.

(** State-machine safety: what two nodes hold committed is the same. *)
Lemma certified_agree T c l T' c' l' : certified h T c l → certified h T' c' l' →
  (c ≤ length l)%nat → (c' ≤ length l')%nat → take (c `min` c') l = take (c `min` c') l'.
Proof.
  assert (∀ k L (l : list LogEntry), take k l `prefix_of` L → (k ≤ length l)%nat →
    take k l = take k L) as Htake.
  { intros k L l0 [z ->] Hk. rewrite take_app_le by (rewrite length_take; lia).
    by rewrite take_take, Nat.min_id. }
  assert (∀ T1 T2 k1 k2 c1 c2 l1 l2, committed h T1 k1 → committed h T2 k2 →
    (c1 ≤ S k1)%nat → (c2 ≤ S k2)%nat → T1 ≤ T2 → (c1 ≤ length l1)%nat →
    take c1 l1 = take c1 (reign_log h T1) → take c2 l2 = take c2 (reign_log h T2) →
    take (c1 `min` c2) l1 = take (c1 `min` c2) l2) as Hwlog.
  { intros T1 T2 k1 k2 c1 c2 l1 l2 H1 H2 Hk1 Hk2 Hle Hl1 E1 E2.
    assert (∃ g, reigns h !! T2 = Some g) as [g Hg].
    { destruct H2 as [(e & He & _) _]. unfold reign_log in He.
      destruct (reigns h !! T2); eauto. done. }
    rewrite (reign_log_Some _ _ _ Hg) in E2.
    assert (take c1 l1 `prefix_of` gLog g) as Hp.
    { apply (certified_reign T1 c1 l1 T2 g); auto. right. exists T1, k1. split_and!; auto. lia. }
    apply Htake in Hp; [|done].
    assert (∀ a b (z : list LogEntry), take (a `min` b) z = take (a `min` b) (take b z)) as Hmin
      by (intros; rewrite take_take; f_equal; lia).
    rewrite (Hmin c1 c2 l2), E2, <- Hmin, (Nat.min_comm c1 c2), (Hmin c2 c1 l1), Hp.
    by rewrite <- Hmin. }
  intros [->|(T1 & k & Hc & _ & Hk & E)] [->|(T1' & k' & Hc' & _ & Hk' & E')] Hl Hl';
    rewrite ?Nat.min_0_r; [done..|].
  destruct (Z.le_ge_cases T1 T1') as [Hle|Hle].
  - by apply (Hwlog T1 T1' k k').
  - rewrite Nat.min_comm. symmetry. by apply (Hwlog T1' T1 k' k).
Qed.

(** *** The committed log *)

#[export] Instance acked_dec v T k : Decision (acked h v T k).
Proof.
  destruct (decide (Exists (λ a, a.1 = (v, T) ∧ k < a.2)%nat (acks h))) as [H|H]; [left|right].
  - by apply Exists_exists in H as ([[v' T'] m] & Hm & [= -> ->] & Hk); exists m.
  - intros (m & Hm & Hk). destruct H. apply Exists_exists. by exists (v, T, m).
Defined.

#[export] Instance committed_dec T k : Decision (committed h T k).
Proof.
  destruct (decide (eTerm <$> reign_log h T !! k = Some T ∧
    Z.of_nat (size ids) < 2 * len (filter (λ v, acked h v T k) (elements ids)))) as [H|H]; [left|right].
  - destruct H as [(e & He & Ht)%fmap_Some Hq]. split; [by exists e|]. eexists. split; [split_and!; [| |exact Hq]|].
    + apply NoDup_filter, NoDup_elements.
    + intros v [_ Hv]%list_elem_of_filter. by apply elem_of_elements.
    + by intros v [Hv _]%list_elem_of_filter.
  - intros [(e & He & Ht) (Q & (Hnd & Hsub & Hlt) & Hack)]. destruct H. rewrite He. split; [cbn; congruence|].
    assert (length Q ≤ length (filter (λ v, acked h v T k) (elements ids)))%nat; [|unfold len in *; lia].
    apply submseteq_length, NoDup_submseteq; [done|]. intros v Hv.
    apply list_elem_of_filter. split; [auto|]. apply elem_of_elements. auto.
Defined.

(** All that is committed, by whichever leader, is part of one log. *)
Lemma committed_log : ∃ L, (∀ T k, committed h T k → take (S k) (reign_log h T) `prefix_of` L) ∧
  ∀ i e, L !! i = Some e → ∃ T k, committed h T k ∧ (i ≤ k)%nat ∧ reign_log h T !! i = Some e.
Proof.
  set (part := λ x : Z * nat, take (S x.2) (reign_log h x.1)).
  assert (∀ x x' : Z * nat, committed h x.1 x.2 → committed h x'.1 x'.2 →
    part x `prefix_of` part x' ∨ part x' `prefix_of` part x) as Hcmp.
  { assert (∀ T k T' k', committed h T k → committed h T' k' → T ≤ T' →
      part (T, k) `prefix_of` part (T', k') ∨ part (T', k') `prefix_of` part (T, k)) as Hwlog.
    { intros T k T' k' Hc [(e & He & _) _] Hle. unfold reign_log in He.
      destruct (reigns h !! T') as [g|] eqn:Hg; [|done].
      pose proof (holds_reign T k T' g Hc Hle Hg) as Hh. unfold part, holds in *. cbn.
      rewrite (reign_log_Some _ T' g Hg). apply (prefix_weak_total _ _ (gLog g)); [done|apply prefix_take]. }
    intros [T k] [T' k'] Hc Hc'. cbn in *. destruct (Z.le_ge_cases T T'); [auto|].
    destruct (Hwlog T' k' T k) as [?|?]; auto. }
  assert (∀ xs : list (Z * nat), ∃ L, (L = [] ∨ ∃ x : Z * nat, committed h x.1 x.2 ∧ L = part x) ∧
    ∀ x : Z * nat, x ∈ xs → committed h x.1 x.2 → part x `prefix_of` L) as Hall.
  { induction xs as [|x xs (L & HL & Hpre)]; [exists []; split; [by left|]; by intros x ?%elem_of_nil|].
    destruct (decide (committed h x.1 x.2)) as [Hc|Hc].
    2:{ exists L. split; [done|]. intros x' [->|?]%elem_of_cons ?; [done|auto]. }
    assert (part x `prefix_of` L ∨ L `prefix_of` part x) as [Hle|Hle].
    { destruct HL as [->|(x' & Hx' & ->)]; [right; apply prefix_nil|by apply Hcmp]. }
    - exists L. split; [done|]. intros x' [->|?]%elem_of_cons ?; auto.
    - exists (part x). split; [right; eauto|]. intros x' [->|?]%elem_of_cons ?; [done|]. etrans; [|done]. auto. }
  destruct (Hall ('(T, g) ← map_to_list (reigns h); pair T <$> seq 0 (length (gLog g)))) as (L & HL & Hpre).
  exists L. split.
  - intros T k Hc. apply (Hpre (T, k)); [|done]. destruct Hc as [(e & He & _) _]. unfold reign_log in He.
    destruct (reigns h !! T) as [g|] eqn:Hg; [|done].
    apply list_elem_of_bind. exists (T, g). split; [|by apply elem_of_map_to_list].
    apply list_elem_of_fmap. exists k. split; [done|]. apply elem_of_seq. apply lookup_lt_Some in He. cbn in He. lia.
  - intros i e. destruct HL as [->|([T k] & Hc & ->)]; [by rewrite lookup_nil|]. cbn. unfold part. cbn.
    intros [? ?]%lookup_take_Some. exists T, k. split_and!; auto. lia.
Qed.
End consequences.

(** ** Growth of the history *)

Record grows h h' : Prop := mkGrows {
  gr_reign T g : reigns h !! T = Some g → ∃ g', reigns h' !! T = Some g' ∧
    gLeader g' = gLeader g ∧ gStart g' = gStart g ∧ gLog g `prefix_of` gLog g';
  gr_acks y : y ∈ acks h → y ∈ acks h'
}.

#[export] Instance grows_preorder : PreOrder grows.
Proof.
  split.
  - intros h. split; [|done]. intros T g ?. exists g. auto.
  - intros h1 h2 h3 H12 H23. split; [|intros y ?; by apply H23, H12].
    intros T g Hg. destruct (gr_reign _ _ H12 T g Hg) as (g' & Hg' & ? & ? & ?).
    destruct (gr_reign _ _ H23 T g' Hg') as (g2 & ? & ? & ? & ?).
    exists g2. split_and!; [done|congruence..|]. by etrans.
Qed.

Section growth.
Context (h h' : Proto) (Hg : grows h h').

Lemma grows_reign_log T : reign_log h T `prefix_of` reign_log h' T.
Proof.
  unfold reign_log. destruct (reigns h !! T) as [g|] eqn:E; [|apply prefix_nil].
  by destruct (gr_reign _ _ Hg T g E) as (g' & -> & _ & _ & ?).
Qed.

Lemma grows_take T k : (k < length (reign_log h T))%nat →
  take (S k) (reign_log h' T) = take (S k) (reign_log h T).
Proof. intros Hk. destruct (grows_reign_log T) as [z ->]. by rewrite take_app_le by lia. Qed.

Lemma matches_grows l : matches h l → matches h' l.
Proof.
  intros Hm i e Hl. destruct (Hm i e Hl) as (g & E & Hp).
  destruct (gr_reign _ _ Hg _ _ E) as (g' & ? & _ & _ & ?). exists g'. split; [done|]. by etrans.
Qed.

Lemma proper_grows T k : proper h T k → proper h' T k.
Proof.
  intros (e & He & Ht). exists e. split; [|done]. destruct (grows_reign_log T) as [z ->].
  by apply lookup_app_l_Some.
Qed.

Lemma proper_length T k : proper h T k → (k < length (reign_log h T))%nat.
Proof. intros (e & He%lookup_lt_Some & _). done. Qed.

Lemma proper_back T k : proper h' T k → (k < length (reign_log h T))%nat → proper h T k.
Proof.
  intros (e & He & Ht) Hk. exists e. split; [|done]. destruct (grows_reign_log T) as [z Hz].
  by rewrite Hz, lookup_app_l in He by done.
Qed.

Lemma acked_grows v T k : acked h v T k → acked h' v T k.
Proof. intros (m & ? & ?). exists m. split; [by apply Hg|done]. Qed.

Lemma holds_grows T k l : (k < length (reign_log h T))%nat → holds h' T k l ↔ holds h T k l.
Proof. intros Hk. unfold holds. by rewrite grows_take. Qed.

Lemma lost_grows T k hi hi' : lost h T k hi → (k < length (reign_log h T))%nat → hi ≤ hi' →
  lost h' T k hi'.
Proof.
  intros (T' & g & E & Hr & Hn) Hk Hhi. destruct (gr_reign _ _ Hg _ _ E) as (g' & ? & _ & Hs & _).
  exists T', g'. split_and!; auto; [lia..|]. by rewrite Hs, grows_take.
Qed.

Lemma committed_grows T k : committed h T k → committed h' T k.
Proof.
  intros [Hp (Q & Hc & Ha)]. split; [by apply proper_grows|]. exists Q. split; [done|].
  intros v Hv. by apply acked_grows, Ha.
Qed.

Lemma certified_grows T T' c l : certified h T c l → T ≤ T' → certified h' T' c l.
Proof.
  intros [->|(T1 & k & Hc & Hle & Hk & E)] HT; [by left|]. right. exists T1, k.
  split_and!; [by apply committed_grows|lia|done|]. rewrite E.
  destruct Hc as [Hp%proper_length _]. destruct (grows_reign_log T1) as [z ->].
  by rewrite take_app_le by lia.
Qed.

Context (Hi : pinv h).

Lemma acked_range v T k : acked h v T k → (k < length (reign_log h T))%nat.
Proof. intros (m & Hm & ?). destruct (pi_ack _ Hi _ _ _ Hm) as [_ ?]. lia. Qed.

(** The guarantee for an acknowledged position survives growth. *)
Lemma kept_grows v T k l hi hi' : acked h v T k → proper h' T k → hi ≤ hi' →
  (proper h T k → lost h T k hi ∨ holds h T k l) → lost h' T k hi' ∨ holds h' T k l.
Proof.
  intros Ha Hp Hhi Hk. pose proof (acked_range _ _ _ Ha) as Hr.
  destruct Hk as [Hl|Hh]; [by apply proper_back|left|right].
  - by eapply lost_grows.
  - by apply holds_grows.
Qed.
End growth.

#[local] Hint Resolve Z.le_refl Z.lt_le_incl : core.

Lemma grows_refl h h' : reigns h' = reigns h → (∀ y, y ∈ acks h → y ∈ acks h') → grows h h'.
Proof. intros E Ha. split; [|done]. intros T g Hg. exists g. rewrite E. auto. Qed.

(** ** Every move keeps the invariant *)

Lemma lookup_view h n x m y : views (set_view n x h) !! m = Some y →
  (m = n ∧ y = x) ∨ (m ≠ n ∧ views h !! m = Some y).
Proof. cbn. intros [[-> ->]|[? ?]]%lookup_insert_Some; auto. Qed.

Lemma dom_view h n x x' : views h !! n = Some x → dom (views (set_view n x' h)) = dom (views h).
Proof.
  intros Hn. cbn. rewrite dom_insert_L. apply elem_of_dom_2 in Hn.
  by apply subseteq_union_1_L, singleton_subseteq_l.
Qed.

(** The nodes' terms only grow. *)
Lemma later_view h n x x' T v : views h !! n = Some x → vTerm x ≤ vTerm x' →
  (∃ y, views h !! v = Some y ∧ T ≤ vTerm y) →
  ∃ y, views (set_view n x' h) !! v = Some y ∧ T ≤ vTerm y.
Proof.
  intros Hn Ht (y & Hy & ?). destruct (decide (v = n)) as [->|Hne].
  - exists x'. cbn. rewrite lookup_insert_eq. rewrite Hn in Hy. injection Hy as <-. split; [done|lia].
  - exists y. cbn. by rewrite lookup_insert_ne.
Qed.

(** A change of one node's term, role and commit position. *)
Lemma pinv_view h n x x' : pinv h → views h !! n = Some x → vTerm x ≤ vTerm x' →
  vLog x' = vLog x →
  (vRole x' = Candidate → vRole x = Candidate ∧ vTerm x' = vTerm x) →
  (vRole x' = Leader → vRole x = Leader ∧ vTerm x' = vTerm x) →
  (vCommit x' ≤ length (vLog x))%nat → certified h (vTerm x') (vCommit x') (vLog x) →
  pinv (set_view n x' h).
Proof.
  intros Hi Hn Ht Hl Hc Hld Hlen Hcert. split; try apply Hi.
  - rewrite (dom_view _ _ x) by done. apply Hi.
  - intros v T c H. eapply later_view; eauto. by apply (pi_vote _ Hi v T c).
  - intros v T c H. eapply later_view; eauto. by apply (pi_for _ Hi v T c).
  - intros m y [[-> ->]|[_ Hy]]%lookup_view Hr; [|by apply (pi_cand _ Hi m)].
    destruct (Hc Hr) as [Hr' ->]. by apply (pi_cand _ Hi n).
  - intros m y [[-> ->]|[_ Hy]]%lookup_view Hr; [|by apply (pi_lead _ Hi m)].
    destruct (Hld Hr) as [Hr' ->]. rewrite Hl. by apply (pi_lead _ Hi n).
  - intros T g Hg. destruct (pi_leader _ Hi T g Hg) as (y & Hy & HT & Hr). 
    destruct (decide (gLeader g = n)) as [E|Hne].
    + exists x'. rewrite E in *. cbn. rewrite lookup_insert_eq. rewrite Hn in Hy. injection Hy as <-.
      split_and!; [done|lia|]. intros E' Hr'. destruct (Hc Hr') as [? E2]. by apply Hr; [lia|].
    + exists y. cbn. by rewrite lookup_insert_ne.
  - intros m y [[-> ->]|[_ Hy]]%lookup_view; [|by apply (pi_log _ Hi m)]. rewrite Hl.
    destruct (pi_log _ Hi n x Hn) as [? HF]. split; [done|].
    eapply Forall_impl; [exact HF|]. cbn. lia.
  - intros v T m H. destruct (pi_ack _ Hi v T m H) as [? ?]. split; [|done].
    by eapply later_view.
  - intros v y T k [[-> ->]|[_ Hy]]%lookup_view Ha Hp; [|by apply (pi_kept _ Hi v y T k)].
    rewrite Hl. eapply (kept_grows h); eauto; [by apply grows_refl|].
    by apply (pi_kept _ Hi n x T k).
  - intros v c y T k [[-> ->]|[_ Hy]]%lookup_view Hr; [|by apply (pi_cast _ Hi v c y T k)].
    destruct (Hc Hr) as [Hr' ->]. rewrite Hl. by apply (pi_cast _ Hi v n x T k).
  - intros m y [[-> ->]|[_ Hy]]%lookup_view; [|by apply (pi_commit _ Hi m)]. by rewrite Hl.
Qed.

Lemma pinv_candidate h n x : pinv h → views h !! n = Some x → 0 ≤ vTerm x → vRole x ≠ Leader →
  pinv (set_view n (mkView (vTerm x + 1) Candidate (vLog x) (vCommit x)) h
          <| votes := (n, vTerm x + 1, n) :: votes h |>).
Proof.
  intros Hi Hn H0 Hnl. set (x' := mkView _ _ _ _).
  assert (vTerm x ≤ vTerm x') as Ht by (cbn; lia).
  assert (views (set_view n x' h) !! n = Some x') as Hn' by apply lookup_insert_eq.
  assert (∀ v c, (v, vTerm x + 1, c) ∈ votes h → v ≠ n ∧ c ≠ n) as Hnew.
  { intros v c H. split; intros ->.
    - destruct (pi_vote _ Hi _ _ _ H) as (y & Hy & ?). rewrite Hn in Hy. injection Hy as <-. lia.
    - destruct (pi_for _ Hi _ _ _ H) as (y & Hy & ?). rewrite Hn in Hy. injection Hy as <-. lia. }
  split; cbn [votes views reigns acks]; try apply Hi.
  - change (dom (views (set_view n x' h)) = ids). rewrite (dom_view _ _ x) by done. apply Hi.
  - intros v T c [[= -> -> ->]|H]%elem_of_cons; [by exists x'|].
    eapply (later_view h n x x'); eauto. by apply (pi_vote _ Hi v T c).
  - intros v T c [[= -> -> ->]|H]%elem_of_cons; [by exists x'|].
    eapply (later_view h n x x'); eauto. by apply (pi_for _ Hi v T c).
  - intros v T c c' [E|H]%elem_of_cons [E'|H']%elem_of_cons; [congruence| | |by apply (pi_once _ Hi v T)].
    + injection E as -> -> ->. by destruct (Hnew _ _ H').
    + injection E' as -> -> ->. by destruct (Hnew _ _ H).
  - intros m y [[-> ->]|[_ Hy]]%lookup_view Hr; [cbn; lia|by apply (pi_cand _ Hi m)].
  - intros m y [[-> ->]|[_ Hy]]%lookup_view Hr; [done|by apply (pi_lead _ Hi m)].
  - intros T g Hg. destruct (pi_leader _ Hi T g Hg) as (y & Hy & HT & Hr).
    destruct (decide (gLeader g = n)) as [E|Hne].
    + exists x'. rewrite E in *. rewrite Hn in Hy. injection Hy as <-.
      split_and!; [done|lia|cbn; lia].
    + exists y. cbn. by rewrite lookup_insert_ne.
  - intros T g Hg. destruct (pi_quorum _ Hi T g Hg) as (Q & HQ & Hv & Hk).
    exists Q. split_and!; auto. intros v Hin. apply elem_of_cons. auto.
  - intros m y [[-> ->]|[_ Hy]]%lookup_view; [|by apply (pi_log _ Hi m)]. cbn.
    destruct (pi_log _ Hi n x Hn) as [? HF]. split; [done|].
    eapply Forall_impl; [exact HF|]. cbn. lia.
  - intros v T m H. destruct (pi_ack _ Hi v T m H) as [? ?]. split; [|done].
    by eapply (later_view h n x x').
  - intros v y T k [[-> ->]|[_ Hy]]%lookup_view Ha Hp; [|by apply (pi_kept _ Hi v y T k)].
    eapply (kept_grows h); eauto; [by apply grows_refl|].
    by apply (pi_kept _ Hi n x T k).
  - intros v c y T k [[-> ->]|[Hne Hy]]%lookup_view Hr Hno Hv HT Ha Hp.
    + assert (v = n) as ->.
      { apply elem_of_cons in Hv as [[= ->]|Hv]; [done|]. by destruct (Hnew _ _ Hv). }
      eapply (kept_grows h); eauto; [by apply grows_refl|]. by apply (pi_kept _ Hi n x T k).
    + apply elem_of_cons in Hv as [[= -> ? ->]|Hv]; [done|]. by apply (pi_cast _ Hi v c y T k).
  - intros m y [[-> ->]|[_ Hy]]%lookup_view; [|by apply (pi_commit _ Hi m)].
    destruct (pi_commit _ Hi n x Hn) as [? ?]. split; [done|].
    eapply (certified_grows h); eauto. by apply grows_refl.
Qed.

(** The log comparison of an election: a log that is at least as fresh holds
    every acknowledged position that the voter's log holds, unless a leader in
    between has lost it. *)
Lemma fresher_holds h lc lv T k hi : pinv h → matches h lc → matches h lv →
  Forall (λ e, eTerm e ≤ hi) lc → fresher lc lv → proper h T k → holds h T k lv →
  lost h T k hi ∨ holds h T k lc.
Proof.
  intros Hi Hmc Hmv Hhi Hf Hp Hh. pose proof Hp as (e & He & Het).
  assert (∃ g0, reigns h !! T = Some g0) as [g0 Hg0].
  { unfold reign_log in He. destruct (reigns h !! T); eauto. done. }
  destruct (pi_reign _ Hi T g0 Hg0) as (HT & _).
  assert (lv !! k = Some e) as Hek.
  { destruct Hh as [z ->]. apply lookup_app_l_Some. by rewrite lookup_take_lt by lia. }
  assert (T ≤ last_term lv) as Hlt.
  { unfold last_term. destruct (last lv) as [e'|] eqn:Hl; [|by apply last_None in Hl as ->]. cbn.
    rewrite last_lookup in Hl. rewrite <- Het.
    apply (matches_sorted h Hi lv k (pred (length lv))); auto.
    apply lookup_lt_Some in Hek. lia. }
  assert (lc ≠ []) as Hne by (intros ->; destruct Hf as [?|[? _]]; cbn in *; lia).
  destruct (matches_last h lc Hmc Hne) as (g & Hg & Hpc).
  destruct Hf as [Hlast|[Hlast Hlen]].
  - destruct (decide (holds h T k (gStart g))) as [Hs|Hs].
    + right. unfold holds in *. etrans; [exact Hs|].
      destruct (last lc) as [ec|] eqn:Hl; [|by apply last_None in Hl].
      assert (eTerm ec = last_term lc) as Hec by (unfold last_term; by rewrite Hl).
      rewrite last_lookup in Hl. destruct Hpc as [z Hz].
      assert (gLog g !! pred (length lc) = Some ec) as Hgl
        by (rewrite Hz; by apply lookup_app_l_Some).
      etrans; [apply (reign_start h Hi _ _ _ _ Hg Hgl Hec)|].
      apply lookup_lt_Some in Hl. rewrite Hz, take_app_le by lia. apply prefix_take.
    + left. exists (last_term lc), g. split_and!; auto; [lia|].
      unfold last_term. destruct (last lc) as [ec|] eqn:Hl; [|by apply last_None in Hl]. cbn.
      rewrite Forall_forall in Hhi. apply Hhi. apply last_Some_elem_of in Hl. done.
  - right. unfold holds in *. etrans; [exact Hh|].
    destruct (matches_last h lv Hmv) as (g' & Hg' & Hpv); [by intros ->|].
    rewrite <- Hlast, Hg in Hg'. injection Hg' as <-.
    destruct (prefix_weak_total _ _ _ Hpv Hpc) as [H|H]; [done|].
    by rewrite (prefix_length_eq _ _ H).
Qed.

Lemma pinv_vote h v c x : pinv h → views h !! v = Some x →
  (∃ y, views h !! c = Some y ∧ vTerm x ≤ vTerm y) →
  (∀ c', (v, vTerm x, c') ∈ votes h → c' = c) →
  (∀ y, views h !! c = Some y → vTerm y = vTerm x → vRole y = Candidate →
     reigns h !! vTerm x = None → fresher (vLog y) (vLog x)) →
  pinv (h <| votes := (v, vTerm x, c) :: votes h |>).
Proof.
  intros Hi Hv Hc Huniq Hf. split; cbn [votes views reigns acks]; try apply Hi.
  - intros v' T c' [[= -> -> ->]|H]%elem_of_cons; [eauto|by apply (pi_vote _ Hi v' T c')].
  - intros v' T c' [[= -> -> ->]|H]%elem_of_cons; [eauto|by apply (pi_for _ Hi v' T c')].
  - intros v' T c1 c2 [E|H]%elem_of_cons [E'|H']%elem_of_cons; [congruence| | |by apply (pi_once _ Hi v' T)].
    + injection E as -> -> ->. symmetry. by apply Huniq.
    + injection E' as -> -> ->. by apply Huniq.
  - intros T g Hg. destruct (pi_quorum _ Hi T g Hg) as (Q & HQ & Hvs & Hk).
    exists Q. split_and!; auto. intros v' Hin. apply elem_of_cons. auto.
  - intros v' c' y T k Hy Hr Hno [[= -> E ->]|H]%elem_of_cons HT Ha Hp;
      [|by apply (pi_cast _ Hi v' c' y T k)].
    rewrite E in *. destruct (pi_kept _ Hi v x T k Hv Ha Hp) as [Hl|Hh]; [by left|].
    destruct (pi_log _ Hi _ _ Hy), (pi_log _ Hi _ _ Hv).
    apply (fresher_holds h (vLog y) (vLog x)); auto.
    + eapply Forall_impl; [done|]. cbn. lia.
Qed.

Lemma lookup_reign h T g T' g' : reigns (set_reign T g h) !! T' = Some g' →
  (T' = T ∧ g' = g) ∨ (T' ≠ T ∧ reigns h !! T' = Some g').
Proof. cbn. intros [[-> ->]|[? ?]]%lookup_insert_Some; auto. Qed.

(** The leader of a term extends its log, or takes office. *)
Lemma pinv_reign h n x x' g : pinv h → views h !! n = Some x →
  vTerm x' = vTerm x → vRole x' = Leader → vCommit x' = vCommit x → gLeader g = n →
  gLog g = vLog x' → vLog x `prefix_of` vLog x' → 0 < vTerm x →
  let h' := set_reign (vTerm x) g (set_view n x' h) in
  grows h h' →
  (gStart g `prefix_of` gLog g ∧ matches h' (gStart g) ∧
   Forall (λ e, eTerm e < vTerm x) (gStart g) ∧
   Forall (λ e, eTerm e = vTerm x) (drop (length (gStart g)) (gLog g))) →
  (∃ Q, elects Q ∧ (∀ v, v ∈ Q → (v, vTerm x, n) ∈ votes h) ∧
    ∀ v T0 k, v ∈ Q → T0 < vTerm x → acked h v T0 k → proper h T0 k →
      lost h T0 k (vTerm x - 1) ∨ holds h T0 k (gStart g)) →
  (∀ g0, reigns h !! vTerm x = Some g0 → gLeader g0 = n) →
  matches h' (vLog x') → Forall (λ e, eTerm e ≤ vTerm x) (vLog x') →
  pinv h'.
Proof.
  intros Hi Hn Ht Hr Hc Hgn Hgl Hpre Hpos h' Hgr Hreign (Q & HQ & Hvs & Hq) Hold Hm HF.
  assert (∀ v T, (∃ y, views h !! v = Some y ∧ T ≤ vTerm y) →
    ∃ y, views h' !! v = Some y ∧ T ≤ vTerm y) as Hlater
    by (intros v T; apply (later_view h n x x'); [done|lia]).
  split; try apply Hi.
  - change (dom (views (set_view n x' h)) = ids). rewrite (dom_view _ _ x) by done. apply Hi.
  - intros v T c H. by apply Hlater, (pi_vote _ Hi v T c).
  - intros v T c H. by apply Hlater, (pi_for _ Hi v T c).
  - intros m y [[-> ->]|[_ Hy]]%lookup_view Hry; [lia|by apply (pi_cand _ Hi m)].
  - intros m y [[-> ->]|[Hne Hy]]%lookup_view Hry.
    + rewrite Ht. exists g. split_and!; auto. apply lookup_insert_eq.
    + destruct (pi_lead _ Hi m y Hy Hry) as (g0 & Hg0 & ? & ?). exists g0. split_and!; auto.
      cbn. rewrite lookup_insert_ne; [done|]. intros E. rewrite <- E in Hg0.
      specialize (Hold g0 Hg0). congruence.
  - intros T g0 [[-> ->]|[_ Hg0]]%lookup_reign; [auto|].
    destruct (pi_reign _ Hi T g0 Hg0) as (? & ? & ? & ? & ?). split_and!; auto.
    by apply (matches_grows h).
  - intros T g0 [[-> ->]|[_ Hg0]]%lookup_reign.
    + exists x'. rewrite Hgn. split_and!; [apply lookup_insert_eq|lia|congruence].
    + destruct (pi_leader _ Hi T g0 Hg0) as (y & Hy & HT & Hry).
      destruct (decide (gLeader g0 = n)) as [E|].
      * rewrite E in *. exists x'. rewrite Hn in Hy. injection Hy as <-.
        split_and!; [apply lookup_insert_eq|lia|congruence].
      * exists y. cbn. by rewrite lookup_insert_ne.
  - intros T g0 [[-> ->]|[_ Hg0]]%lookup_reign.
    + exists Q. rewrite Hgn. split_and!; auto. intros v T0 k Hv HT Ha Hp.
      eapply (kept_grows h h' Hgr Hi v); eauto.
    + destruct (pi_quorum _ Hi T g0 Hg0) as (Q' & HQ' & Hvs' & Hk). exists Q'. split_and!; auto.
      intros v T0 k Hv HT Ha Hp. eapply (kept_grows h h' Hgr Hi v); eauto.
  - intros m y [[-> ->]|[_ Hy]]%lookup_view; [by rewrite Ht|].
    destruct (pi_log _ Hi m y Hy). split; [by apply (matches_grows h)|done].
  - intros v T m H. destruct (pi_ack _ Hi v T m H) as [? ?]. split; [by apply Hlater|].
    pose proof (prefix_length _ _ (grows_reign_log h h' Hgr T)). lia.
  - intros v y T k [[-> ->]|[_ Hy]]%lookup_view Ha Hp; eapply (kept_grows h); eauto.
    + intros Hp0. rewrite Ht. destruct (pi_kept _ Hi n x T k) as [?|Hh]; auto. right.
      unfold holds in *. by etrans.
    + by apply (pi_kept _ Hi v y T k).
  - intros v c y T k [[-> ->]|[Hne Hy]]%lookup_view Hry Hno Hv HT Ha Hp; [congruence|].
    eapply (kept_grows h); eauto. intros Hp0. apply (pi_cast _ Hi v c y T k); auto.
    cbn in Hno. by apply lookup_insert_None in Hno as [? _].
  - intros m y [[-> ->]|[_ Hy]]%lookup_view.
    + destruct (pi_commit _ Hi n x Hn) as [? Hcm]. rewrite Hc, Ht.
      pose proof (prefix_length _ _ Hpre). split; [lia|].
      destruct (certified_grows h h' Hgr _ (vTerm x) _ _ Hcm) as [?|(T1 & k & ? & ? & ? & E)];
        [done|by left|right]. exists T1, k. split_and!; auto.
      destruct Hpre as [z ->]. by rewrite take_app_le.
    + destruct (pi_commit _ Hi m y Hy). split; [done|]. by eapply (certified_grows h).
Qed.

(** A candidate with a quorum is the first leader of its term. *)
Lemma elect_fresh h n x Q : Z.odd (Z.of_nat (size ids)) = true → pinv h →
  views h !! n = Some x → vRole x = Candidate → elects Q →
  (∀ v, v ∈ Q → (v, vTerm x, n) ∈ votes h) → reigns h !! vTerm x = None.
Proof.
  intros Hodd Hi Hn Hr HQ Hvs. destruct (reigns h !! vTerm x) as [g|] eqn:Hg; [exfalso|done].
  destruct (pi_quorum _ Hi _ _ Hg) as (Q' & HQ' & Hvs' & _).
  destruct (elects_twice Q Q') as (v & Hv & Hv'); [done..|].
  assert (n = gLeader g) as -> by (apply (pi_once _ Hi v (vTerm x)); auto).
  destruct (pi_leader _ Hi _ _ Hg) as (y & Hy & _ & Hnc). rewrite Hn in Hy. injection Hy as <-.
  by apply Hnc.
Qed.

Lemma pinv_elect h n x Q : Z.odd (Z.of_nat (size ids)) = true → pinv h →
  views h !! n = Some x → vRole x = Candidate → elects Q →
  (∀ v, v ∈ Q → (v, vTerm x, n) ∈ votes h) →
  pinv (set_reign (vTerm x) (mkReign n (vLog x) (vLog x))
          (set_view n (mkView (vTerm x) Leader (vLog x) (vCommit x)) h)).
Proof.
  intros Hodd Hi Hn Hr HQ Hvs. pose proof (elect_fresh h n x Q Hodd Hi Hn Hr HQ Hvs) as Hnone.
  destruct (pi_log _ Hi n x Hn) as [Hm HF]. set (h' := set_reign _ _ _).
  assert (grows h h') as Hgr.
  { split; [|done]. intros T g Hg. exists g. cbn. rewrite lookup_insert_ne by congruence. auto. }
  pose proof (matches_grows h h' Hgr _ Hm) as Hm'.
  apply (pinv_reign h n x); cbn; auto; [by apply (pi_cand _ Hi n)|split_and!; auto| |by rewrite Hnone].
  - rewrite Forall_forall in *. intros e He. specialize (HF e He).
    apply list_elem_of_lookup in He as [i He]. destruct (Hm i e He) as (g & Hg & _).
    assert (eTerm e ≠ vTerm x) by congruence. lia.
  - rewrite drop_ge by done. constructor.
  - exists Q. split_and!; auto. intros v T0 k Hv HT Ha Hp.
    destruct (pi_cast _ Hi v n x T0 k) as [(T' & g & Hg & ? & ?)|?]; auto.
    left. exists T', g. split_and!; auto; [lia|].
    assert (T' ≠ vTerm x) by congruence. lia.
Qed.

Lemma pinv_append h n x g e : pinv h → views h !! n = Some x → vRole x = Leader →
  reigns h !! vTerm x = Some g → eTerm e = vTerm x →
  pinv (set_reign (vTerm x) (mkReign n (gStart g) (vLog x ++ [e]))
          (set_view n (mkView (vTerm x) Leader (vLog x ++ [e]) (vCommit x)) h)).
Proof.
  intros Hi Hn Hr Hg He. set (h' := set_reign _ _ _).
  destruct (pi_lead _ Hi n x Hn Hr) as (g0 & Hg0 & Hgn & Hgl). rewrite Hg in Hg0. injection Hg0 as <-.
  destruct (pi_log _ Hi n x Hn) as [Hm HF].
  destruct (pi_reign _ Hi _ _ Hg) as (Hpos & Hp & Hms & Hst & Hd). rewrite Hgl in *.
  assert (grows h h') as Hgr.
  { split; [|done]. intros T g0 Hg0. cbn. destruct (decide (T = vTerm x)) as [->|].
    - rewrite lookup_insert_eq. eexists. split; [done|]. rewrite Hg in Hg0. injection Hg0 as <-.
      cbn. rewrite Hgl. split_and!; auto. by apply prefix_app_r.
    - exists g0. rewrite lookup_insert_ne by done. auto. }
  apply (pinv_reign h n x); cbn; auto.
  - by apply prefix_app_r.
  - split_and!; auto; [by apply prefix_app_r|by apply (matches_grows h)|].
    rewrite drop_app_le by by apply prefix_length. apply Forall_app. auto.
  - destruct (pi_quorum _ Hi _ _ Hg) as (Q & ? & Hv & ?). rewrite Hgn in Hv. eauto.
  - intros g0. rewrite Hg. by intros [= <-].
  - intros i e' [Hl|[? Hl]]%lookup_app_Some.
    + destruct (matches_grows h h' Hgr _ Hm i e' Hl) as (g1 & ? & ?). exists g1. split; [done|].
      apply lookup_lt_Some in Hl. by rewrite take_app_le by lia.
    + apply list_lookup_singleton_Some in Hl as [? <-]. rewrite He. cbn. rewrite lookup_insert_eq.
      eexists. split; [done|]. apply prefix_take.
  - apply Forall_app. split; [done|]. by apply Forall_singleton, Z.eq_le_incl.
Qed.

Lemma pinv_ack h v x g k : pinv h → views h !! v = Some x → reigns h !! vTerm x = Some g →
  (k ≤ length (gLog g))%nat → take k (gLog g) `prefix_of` vLog x →
  pinv (h <| acks := (v, vTerm x, k) :: acks h |>).
Proof.
  intros Hi Hv Hg Hk Hpre. set (h' := h <| acks := _ |>).
  assert (grows h h') as Hgr by (apply grows_refl; [done|]; intros y Hy; apply elem_of_cons; auto).
  assert (∀ v' T j, acked h' v' T j →
    (v' = v ∧ T = vTerm x ∧ (j < k)%nat) ∨ acked h v' T j) as Hack.
  { intros v' T j (m & [[= -> -> ->]|Hm]%elem_of_cons & Hj); [auto|]. right. by exists m. }
  split; try apply Hi.
  - intros T g' Hg'. destruct (pi_quorum _ Hi T g' Hg') as (Q & HQ & Hvs & Hq).
    exists Q. split_and!; auto. intros v' T0 j Hin HT [(-> & -> & _)|Ha]%Hack Hp.
    + destruct (pi_vote _ Hi _ _ _ (Hvs v Hin)) as (y & Hy & ?). rewrite Hv in Hy.
      injection Hy as <-. lia.
    + by apply (Hq v').
  - intros v' T m [[= -> -> ->]|Hm]%elem_of_cons; [|by apply (pi_ack _ Hi)].
    split; [eauto|]. change (reign_log h' (vTerm x)) with (reign_log h (vTerm x)).
    by rewrite (reign_log_Some _ _ _ Hg).
  - intros v' y T j Hy [(-> & -> & Hj)|Ha]%Hack Hp; [|by apply (pi_kept _ Hi v' y T j)].
    right. unfold holds. change (reign_log h' (vTerm x)) with (reign_log h (vTerm x)).
    change (views h !! v = Some y) in Hy. rewrite Hv in Hy. injection Hy as <-.
    rewrite (reign_log_Some _ _ _ Hg). etrans; [|exact Hpre].
    replace (take (S j) (gLog g)) with (take (S j) (take k (gLog g)))
      by (rewrite take_take; f_equal; lia). apply prefix_take.
  - intros v' c y T j Hy Hr Hno Hvt HT [(-> & -> & _)|Ha]%Hack Hp;
      [|by apply (pi_cast _ Hi v' c y T j)].
    destruct (pi_vote _ Hi _ _ _ Hvt) as (z & Hz & ?). rewrite Hv in Hz. injection Hz as <-. lia.
  - intros n y Hy. destruct (pi_commit _ Hi n y Hy). split; [done|]. by eapply (certified_grows h).
Qed.

(** What a follower keeps of its log when it takes over the leader's first [k]
    entries: every common prefix with the leader. *)
Lemma adopt_keeps k (L l p : list LogEntry) : p `prefix_of` l → p `prefix_of` L →
  p `prefix_of` adopt k L l.
Proof.
  intros Hl HL. unfold adopt. case_decide as Ht; [done|].
  destruct (prefix_weak_total _ _ _ HL (prefix_take L k)) as [H|H]; [done|].
  destruct Ht. by etrans.
Qed.

Lemma pinv_accept h v x g k : pinv h → views h !! v = Some x → vRole x ≠ Leader →
  reigns h !! vTerm x = Some g →
  pinv (set_view v (mkView (vTerm x) (vRole x) (adopt k (gLog g) (vLog x)) (vCommit x)) h).
Proof.
  intros Hi Hv Hr Hg. destruct (pi_log _ Hi v x Hv) as [Hm HF].
  pose proof (matches_reign h Hi _ _ Hg) as Hmg. set (l' := adopt k (gLog g) (vLog x)).
  split; try apply Hi.
  - rewrite (dom_view _ _ x) by done. apply Hi.
  - intros v' T c H. eapply later_view; eauto; cbn; auto. by apply (pi_vote _ Hi v' T c).
  - intros v' T c H. eapply later_view; eauto; cbn; auto. by apply (pi_for _ Hi v' T c).
  - intros m y [[-> ->]|[_ Hy]]%lookup_view Hry; [by apply (pi_cand _ Hi v x)|by apply (pi_cand _ Hi m)].
  - intros m y [[-> ->]|[_ Hy]]%lookup_view Hry; [done|by apply (pi_lead _ Hi m)].
  - intros T g0 Hg0. destruct (pi_leader _ Hi T g0 Hg0) as (y & Hy & HT & Hry).
    destruct (decide (gLeader g0 = v)) as [E|].
    + rewrite E in *. eexists. cbn. rewrite lookup_insert_eq. rewrite Hv in Hy. injection Hy as <-. eauto.
    + exists y. cbn. by rewrite lookup_insert_ne.
  - intros m y [[-> ->]|[_ Hy]]%lookup_view; [|by apply (pi_log _ Hi m)]. cbn. unfold l', adopt.
    case_decide; [done|]. split; [eapply matches_prefix; [done|apply prefix_take]|].
    apply Forall_take, Forall_forall. intros e. by apply (reign_terms h Hi).
  - intros v' T m H. destruct (pi_ack _ Hi v' T m H) as [? ?]. split; [|done].
    by eapply later_view.
  - intros v' y T j [[-> ->]|[_ Hy]]%lookup_view Ha Hp; [|by apply (pi_kept _ Hi v' y T j)]. cbn.
    destruct (pi_kept _ Hi v x T j Hv Ha Hp) as [?|Hh]; [by left|].
    assert (T ≤ vTerm x) as HT.
    { destruct Ha as (m & Ha & _). destruct (pi_ack _ Hi _ _ _ Ha) as [(z & Hz & ?) _].
      rewrite Hv in Hz. by injection Hz as <-. }
    destruct (decide (holds h T j (gLog g))) as [Hs|Hs]; [right; by apply adopt_keeps|left].
    assert (T ≠ vTerm x).
    { intros ->. destruct Hs. unfold holds. rewrite (reign_log_Some _ _ _ Hg). apply prefix_take. }
    exists (vTerm x), g. split_and!; auto; [lia|]. intros Hst. apply Hs. unfold holds. etrans; [done|].
    by destruct (pi_reign _ Hi _ _ Hg) as (_ & ? & _).
  - intros v' c y T j [[-> ->]|[_ Hy]]%lookup_view Hry Hno; [|by apply (pi_cast _ Hi v' c y T j)].
    cbn in Hno. congruence.
  - intros m y [[-> ->]|[_ Hy]]%lookup_view; [|by apply (pi_commit _ Hi m)]. cbn.
    destruct (pi_commit _ Hi v x Hv) as [Hlen Hc].
    assert (take (vCommit x) (vLog x) `prefix_of` l') as Hp.
    { apply adopt_keeps; [apply prefix_take|]. by apply (certified_reign h Hi (vTerm x) _ _ (vTerm x)). }
    pose proof (prefix_length _ _ Hp) as Hpl. rewrite length_take in Hpl. split; [lia|].
    destruct Hc as [?|(T1 & j & ? & ? & ? & E)]; [by left|right]. exists T1, j. split_and!; auto.
    change (reign_log (set_view _ _ _) T1) with (reign_log h T1). rewrite <- E. destruct Hp as [z ->]. rewrite take_app_le by (rewrite length_take; lia).
    rewrite take_take. f_equal. lia.
Qed.

Context (Hodd : Z.odd (Z.of_nat (size ids)) = true).

Theorem pstep_pinv h h' : pinv h → pstep h h' → pinv h'.
Proof.
  intros Hi Hs. destruct Hs as [n x T c Hn Ht Hc| | | | | | |n x c Hn Hc Hcert].
  - destruct (pi_commit _ Hi n x Hn) as [? Hcert].
    apply (pinv_view h n x); cbn; auto; try done; [lia|].
    destruct Hcert as [E|(T1 & k & ? & ? & ? & E)]; [left; lia|right]. exists T1, k.
    split_and!; auto; [lia..|]. rewrite <- (Nat.min_l c (vCommit x)) by done.
    by rewrite <- !take_take, E.
  - by apply pinv_candidate.
  - by apply pinv_vote.
  - by eapply pinv_elect.
  - by eapply pinv_append.
  - by eapply pinv_accept.
  - by eapply pinv_ack.
  - apply (pinv_view h n x); cbn; auto.
Qed.

Lemma pstep_grows h h' : pinv h → pstep h h' → grows h h'.
Proof.
  intros Hi Hs. destruct Hs as [| | |n x Q Hn Hr HQ Hv|n x g e Hn Hr Hg He| |v x g k| ];
    try (apply grows_refl; [done|]; intros y Hy; cbn; try apply elem_of_cons; by auto).
  - pose proof (elect_fresh h n x Q Hodd Hi Hn Hr HQ Hv). split; [|done].
    intros T g Hg. exists g. cbn. rewrite lookup_insert_ne by congruence. auto.
  - destruct (pi_lead _ Hi n x Hn Hr) as (g0 & Hg0 & Hgn & Hgl). rewrite Hg in Hg0. injection Hg0 as <-.
    split; [|done]. intros T g0 Hg0. cbn. destruct (decide (T = vTerm x)) as [->|].
    + rewrite lookup_insert_eq. eexists. split; [done|]. rewrite Hg in Hg0. injection Hg0 as <-.
      cbn. rewrite Hgl. split_and!; auto. by apply prefix_app_r.
    + exists g0. rewrite lookup_insert_ne by done. auto.
Qed.

(** A request for votes: while its sender is a candidate of term [T] without a
    leader, the sender's log is at least as up to date as one that ends at
    [li] with an entry of term [lt]. *)
Definition asks h (c T li lt : Z) : Prop :=
  ∃ y, views h !! c = Some y ∧ T ≤ vTerm y ∧
    (vTerm y = T → vRole y = Candidate → reigns h !! T = None →
     lt < last_term (vLog y) ∨ lt = last_term (vLog y) ∧ li ≤ len (vLog y)).

Lemma pstep_asks h h' c T li lt : pstep h h' → asks h c T li lt → asks h' c T li lt.
Proof.
  intros Hs (y & Hy & HT & Ha).
  assert (∀ n x x' hr, views h !! n = Some x → views hr = <[n := x']> (views h) →
    vTerm x ≤ vTerm x' →
    (T ≤ vTerm x → vTerm x' = T → vRole x' = Candidate → reigns hr !! T = None →
      vTerm x = T ∧ vRole x = Candidate ∧ vLog x' = vLog x ∧ reigns h !! T = None) →
    (reigns hr !! T = None → reigns h !! T = None) → asks hr c T li lt) as Hview.
  { intros n x x' hr Hn Hv Ht Hx Hr. destruct (decide (c = n)) as [->|Hne].
    - rewrite Hn in Hy. injection Hy as <-. exists x'. rewrite Hv, lookup_insert_eq.
      split_and!; [done|lia|]. intros E1 E2 E3. destruct (Hx HT E1 E2 E3) as (? & ? & -> & ?). auto.
    - exists y. rewrite Hv, lookup_insert_ne by done. split_and!; auto. }
  destruct Hs as [n x T' cm Hn Ht Hc|n x Hn H0 Hr|v c' x Hn|n x Q Hn Hr|n x g e Hn Hr Hg|v x g k Hn Hr Hg
    |v x g k Hn|n x cm Hn].
  - eapply (Hview n x); eauto; done.
  - eapply (Hview n x); eauto; cbn; [lia|]. intros. lia.
  - by exists y.
  - eapply (Hview n x); cbn; [done|done|done|done|]. by intros [? _]%lookup_insert_None.
  - eapply (Hview n x); cbn; [done|done|done|done|]. by intros [? _]%lookup_insert_None.
  - eapply (Hview v x); cbn; [done|done|done| |done]. cbn. intros _ <- _ ?. congruence.
  - by exists y.
  - eapply (Hview n x); cbn; auto.
Qed.

Lemma psteps_advance h h' : pinv h → rtc pstep h h' →
  pinv h' ∧ grows h h' ∧ ∀ c T li lt, asks h c T li lt → asks h' c T li lt.
Proof.
  intros Hi Hr. induction Hr as [h|h1 h2 h3 Hs _ IH]; [by split_and!|].
  destruct IH as (? & ? & ?); [by eapply pstep_pinv|]. pose proof (pstep_grows _ _ Hi Hs).
  split_and!; [done|by etrans|]. eauto using pstep_asks.
Qed.

(** Whatever holds of every entry that is appended holds of every entry of every
    leader's log. *)
Definition attested (Q : nat → LogEntry → Prop) h : Prop :=
  ∀ T i e, reign_log h T !! i = Some e → Q i e.

Lemma psteps_attested (Q : nat → LogEntry → Prop) h h' : (∀ i e, may i e → Q i e) → pinv h →
  rtc pstep h h' → attested Q h → attested Q h'.
Proof.
  intros Hmay Hi Hr. induction Hr as [h|h1 h2 h3 Hs _ IH]; [done|]. intros Ha.
  apply IH; [by eapply pstep_pinv|]. clear IH.
  assert (∀ n x i e, views h1 !! n = Some x → vLog x !! i = Some e → Q i e) as Hv.
  { intros n x i e Hx He. destruct (pi_log _ Hi n x Hx) as [Hm _]. destruct (Hm i e He) as (g & Hg & [z Hz]).
    apply (Ha (eTerm e)). rewrite (reign_log_Some _ _ _ Hg), Hz. apply lookup_app_l_Some.
    by rewrite lookup_take_lt by lia. }
  destruct Hs as [| | |n x Q' Hn|n x g e Hn Hr Hg He Hm| | |]; try exact Ha; intros T i a;
    unfold reign_log; cbn; (destruct (decide (T = vTerm x)) as [->|]; [|rewrite lookup_insert_ne by done; apply Ha]);
    rewrite lookup_insert_eq; cbn; [by eapply Hv|].
  intros [?|[? [E <-]%list_lookup_singleton_Some]]%lookup_app_Some; [by eapply Hv|].
  apply Hmay. by replace i with (length (vLog x)) by lia.
Qed.

(** ** The start *)

(** Nobody has led, voted or written anything. *)
Record starts h : Prop := mkStarts {
  st_dom : dom (views h) = ids;
  st_view n x : views h !! n = Some x → vRole x = Follower ∧ vLog x = [] ∧ vCommit x = 0%nat;
  st_reigns : reigns h = ∅;
  st_votes : votes h = [];
  st_acks : acks h = []
}.

Lemma starts_pinv h : starts h → pinv h.
Proof.
  intros [Hd Hv Hr Hvo Ha].
  assert (∀ v T k, ¬ acked h v T k) as Hna.
  { intros v T k (m & Hm & _). rewrite Ha in Hm. by apply elem_of_nil in Hm. }
  split; try (rewrite Hvo; by intros ? ? ? ?%elem_of_nil); auto.
  - rewrite Hvo. by intros ? ? ? ? ?%elem_of_nil.
  - intros n x Hx. destruct (Hv n x Hx) as [-> _]. done.
  - intros n x Hx. destruct (Hv n x Hx) as [-> _]. done.
  - intros T g. by rewrite Hr, lookup_empty.
  - intros T g. by rewrite Hr, lookup_empty.
  - intros T g. by rewrite Hr, lookup_empty.
  - intros n x Hx. destruct (Hv n x Hx) as (_ & -> & _). split; [|done]. intros i e. by rewrite lookup_nil.
  - rewrite Ha. by intros ? ? ? ?%elem_of_nil.
  - intros v x T k _ Hk. by apply Hna in Hk.
  - intros v c x T k _ _ _ _ _ Hk. by apply Hna in Hk.
  - intros n x Hx. destruct (Hv n x Hx) as (_ & -> & ->). split; [done|by left].
Qed.
End protocol.
