(* ===== verification/LogFrames.v ===== *)
(** * What each operation leaves alone

    [frame r r']: the operation keeps the log, its base, the snapshot, the
    commit index and the apply channel, and keeps the node well formed.  Most
    of the program's critical sections do; the few that change the log, its
    base or the commit index are specified in [Replication] and [Snapshot]. *)

From S2P Require Import Prelude Types Persister Node Election Replication Snapshot.

Record frame {P} (r r' : Raft P) : Prop := mkFrame {
  fr_log : log r' = log r;
  fr_base : logBase r' = logBase r;
  fr_commit : commitIndex r' = commitIndex r;
  fr_snapshot : snapshot r' = snapshot r ∧ snapshotTerm r' = snapshotTerm r;
  fr_chan : applyCh r' = applyCh r;
  fr_wf : wf r → wf r'
}.

#[export] Instance frame_refl {P} : Reflexive (frame (P := P)).
Proof. by split. Qed.

#[export] Instance frame_trans {P} : Transitive (frame (P := P)).
Proof.
  intros r1 r2 r3 [? ? ? [? ?] ? ?] [? ? ? [? ?] ? ?].
  split; [congruence..|split; congruence|congruence|auto].
Qed.

(** Closes [frame r r'] where [r'] is [r] with other fields updated. *)
Ltac frame_solve :=
  split; cbn; auto; let H := fresh in intros H; by wf_same H.

Section frames.
Context {P : Type} `{PL : PersisterLaws P}.
Implicit Types r : Raft P.

Lemma persist_frame r r' o : persist r = (r', o) → frame r r'.
Proof.
  intros (p & -> & Hs)%persist_inv. split; cbn; auto.
  intros Hw. by wf_same Hw.
Qed.

Lemma timer_frame rnd r : frame r (resetElectionTimerLocked rnd r).
Proof. destruct (resetElectionTimerLocked_inv rnd r) as [t ->]. frame_solve. Qed.

Lemma stepDown_frame t r : frame r (stepDown t r).
Proof. frame_solve. Qed.

Lemma becomeCandidate_begin_frame r : frame r (fst (becomeCandidate_begin r)).
Proof.
  unfold becomeCandidate_begin. branch; [done|]. branch; [done|].
  destruct (persist _) as [r1 o] eqn:Hp. apply persist_frame in Hp.
  destruct o; cbn; (etrans; [|exact Hp]); frame_solve.
Qed.

Lemma becomeLeader_frame r : frame r (fst (becomeLeader r)).
Proof. unfold becomeLeader. branch; [done|]. cbn. destruct (electionTimer r); frame_solve. Qed.

Lemma sendRequestVote_request_frame d id t r :
  frame r (fst (sendRequestVote_request d id t r)).
Proof.
  unfold sendRequestVote_request, getLastLogInfoLocked.
  destruct (peers r !! id); [|done]. destruct (ensureConnected _ _) as [p' [e|]]; [done|].
  case_match; frame_solve.
Qed.

Lemma sendRequestVote_reply_frame t resp r : frame r (fst (sendRequestVote_reply t resp r)).
Proof.
  unfold sendRequestVote_reply. branch; [done|]. branch; [apply stepDown_frame|].
  branch; [|done]. branch; frame_solve.
Qed.

Lemma sendRequestVote_reply_peers t resp r :
  peers (fst (sendRequestVote_reply t resp r)) = peers r.
Proof. unfold sendRequestVote_reply. by repeat (branch; [done|]); branch; [branch|]. Qed.

Lemma RequestVote_frame rnd req r : frame r (fst (RequestVote rnd req r)).
Proof.
  unfold RequestVote. branch; [done|].
  destruct (if currentTerm r <? rvTerm req then _ else _) as [r1 resp] eqn:E.
  assert (frame r r1) as Hf by (revert E; branch; intros [= <- <-]; [frame_solve|done]).
  branch; [|done]. destruct (getLastLogInfoLocked r1) as [li lt]. branch; [|done].
  destruct (persist r1) as [r2 [e|]] eqn:Hp; apply persist_frame in Hp; cbn.
  - by etrans.
  - etrans; [exact Hf|]. etrans; [exact Hp|]. etrans; [|apply timer_frame]. frame_solve.
Qed.

Lemma sendAppendEntries_request_frame d id t c r :
  frame r (fst (sendAppendEntries_request d id t c r)).
Proof.
  destruct (sendAppendEntries_request d id t c r) as [r' a] eqn:E.
  apply sendAppendEntries_request_inv in E as [->|(p & p' & _ & _ & ->)]; [done|frame_solve].
Qed.

Lemma sendInstallSnapshot_request_inv d id t r r' o :
  sendInstallSnapshot_request d id t r = (r', o) →
  r' = r ∨ ∃ p p', peers r !! id = Some p ∧ p' = p <| connected := connected p' |> ∧
    r' = r <| peers := <[id := p']> (peers r) |>.
Proof.
  unfold sendInstallSnapshot_request. branch; [intros [= <- _]; by left|].
  destruct (peers r !! id) as [p|] eqn:Hp; [|intros [= <- _]; by left].
  branch; [intros [= <- _]; by left|].
  destruct (ensureConnected d p) as [p' [e|]] eqn:He; intros [= <- _]; [by left|right].
  exists p, p'. split; [done|]. split; [by eapply ensureConnected_inv|done].
Qed.

Lemma sendInstallSnapshot_request_frame d id t r :
  frame r (fst (sendInstallSnapshot_request d id t r)).
Proof.
  destruct (sendInstallSnapshot_request d id t r) as [r' o] eqn:E.
  apply sendInstallSnapshot_request_inv in E as [->|(p & p' & _ & _ & ->)]; [done|frame_solve].
Qed.

Lemma is_contact_frame_all rnd req r : frame r (is_contact rnd req r).
Proof. unfold is_contact. node_inv. branch; frame_solve. Qed.

Lemma runHeartbeat_turn_frame r : frame r (fst (runHeartbeat_turn r)).
Proof. unfold runHeartbeat_turn. destruct (ctx r) as [[]|]; [frame_solve|done..]. Qed.

Lemma apply_take_frame r : wf r → frame r (fst (apply_take r)).
Proof.
  intros Hwf. destruct (Z.le_gt_cases (deliverable r) (lastApplied r)) as [Hd|Hd].
  - by rewrite apply_take_None.
  - destruct (apply_take_Some r Hwf Hd) as (e & _ & ->). split; cbn; auto.
    intros _. by apply wf_take.
Qed.

Lemma ae_contact_frame_all rnd req r : frame r (ae_contact rnd req r).
Proof.
  destruct (ae_contact_frame rnd req r) as (? & ? & Hp & ? & _). cbv zeta in *.
  split; auto using wf_contact; by destruct (ae_contact_inv rnd req r) as (?&?&?&?&?&->).
Qed.

Lemma loadPersistedState_persister r : persister (fst (loadPersistedState r)) = persister r.
Proof.
  unfold loadPersistedState, send_applyCh. destruct (Load _) as [[[t v] l]|e]; [|done]. cbn -[last].
  destruct (LoadSnapshot _) as [[[d i] st]|e]; cbn -[last];
    repeat first [branch; cbn -[last] | case_match; cbn -[last]]; by simplify_eq/=.
Qed.

(** What a restart finds on disk: term, vote, log. *)
Definition recovered (p : P) : Z * Z * list LogEntry :=
  match Load p with inl s => s | inr _ => (0, -1, []) end.

(** ... and the snapshot, if the state is readable. *)
Definition recovered_snapshot (p : P) : option (bytes * Z * Z) :=
  match Load p, LoadSnapshot p with inl _, inl s => Some s | _, _ => None end.

Definition snapshot_end (s : option (bytes * Z * Z)) : Z :=
  match s with Some (_, i, _) => i | None => 0 end.

(** A node built on a disk whose log continues its snapshot: it takes the whole
    log for committed. *)
Lemma NewRaft_recovers (cfg : Config P) p r : NewRaft (cfg <| cfgPersister := Some p |>) = Ret r →
  let s := recovered_snapshot p in
  contiguous (snapshot_end s) (recovered p).2 → 0 ≤ snapshot_end s →
  snapshot_end s + len (recovered p).2 < 2 ^ 62 →
  (currentTerm r, votedFor r, log r) = recovered p ∧ persister r = p ∧ logBase r = snapshot_end s ∧
  commitIndex r = last_index r ∧ state r = Follower ∧ wf r ∧
  match s with
  | Some (d, i, t) => snapshotTerm r = t ∧ applyCh r = [snapshot_msg d i t]
  | None => applyCh r = []
  end.
Proof.
  intros Hr. cbv zeta. pose proof (NewRaft_Ret _ _ Hr) as [Hv Hfr].
  destruct (NewRaft_Load _ p Hv eq_refl)
    as (r0 & Hr0 & Hp & Hb & Hci & Hla & Hsi & Hch & Hl & Ht & Hvo).
  rewrite Hr in Hr0. injection Hr0 as ->. pose proof (fl_state _ _ Hfr) as Hst. cbn in Hst.
  pose proof (loadPersistedState_persister r0) as Hpe.
  unfold recovered_snapshot, recovered. subst p.
  destruct (Load (persister r0)) as [[[t v] l]|er] eqn:HL; cbn [snd].
  2:{ intros _ _ _. unfold loadPersistedState in *. rewrite HL in *. cbn [fst snapshot_end] in *.
      assert (last_index r0 = 0) as E by (unfold last_index; by rewrite Hl, Hb).
      rewrite Ht, Hvo, Hl, Hci. split_and!; auto.
      split; rewrite ?E, ?Hl, ?Hb, ?Hla, ?Hci, ?Hsi; [apply contiguous_nil|lia..]. }
  destruct (LoadSnapshot (persister r0)) as [[[d i] st]|e] eqn:HS; cbn [snapshot_end];
    intros Hc Hi Hlen; pose proof (len_nonneg l).
  - pose proof (loadPersistedState_snapshot r0 t v l d i st HL HS Hc Hi Hci Hch) as Hrec.
    destruct (loadPersistedState r0) as [r1 err]. cbn [fst] in *.
    destruct Hrec as (_ & -> & -> & El & Eb & _ & Es & Et & Ea & Ec & Ech). rewrite El.
    split_and!; auto. apply (recovered_wf r1 i l); auto; rewrite Ec; unfold last_index; rewrite ?El, ?Eb; lia.
  - pose proof (loadPersistedState_plain r0 t v l e HL HS Hc Hci Hla Hb) as Hrec.
    pose proof (loadPersistedState_keeps_snapshot r0 e HS) as Hk.
    destruct (loadPersistedState r0) as [r1 err]. cbn [fst] in *.
    destruct Hrec as (_ & -> & -> & El & Eb & Ea & Ec & Ech). rewrite El, Ech.
    split_and!; auto; [unfold last_index; rewrite Eb, El; lia|].
    apply (recovered_wf r1 0 l); auto; lia.
Qed.

(** The vote handler grants only to candidates whose log is as fresh as the
    voter's. *)
Lemma RequestVote_granted rnd req r r' resp : RequestVote rnd req r = (r', Ret resp) →
  rvrVoteGranted resp = true →
  let '(li, lt) := getLastLogInfoLocked r in
  lt < rvLastLogTerm req ∨ rvLastLogTerm req = lt ∧ li ≤ rvLastLogIndex req.
Proof.
  unfold RequestVote. branch; [by intros [= <- <-]|].
  destruct (if currentTerm r <? rvTerm req then _ else _) as [r1 resp1] eqn:E.
  assert (getLastLogInfoLocked r1 = getLastLogInfoLocked r ∧ rvrVoteGranted resp1 = false) as [Hl Hg]
    by (revert E; branch; by intros [= <- <-]).
  branch; [|intros [= <- <-]; congruence]. rewrite Hl.
  destruct (getLastLogInfoLocked r) as [li lt]. branch; [|intros [= <- <-]; congruence].
  intros _ _. bool_props. destruct_or?; destruct_and?; bool_props; auto.
Qed.

Lemma RequestVote_peers rnd req r : peers (fst (RequestVote rnd req r)) = peers r.
Proof.
  unfold RequestVote. branch; [done|].
  destruct (if currentTerm r <? rvTerm req then _ else _) as [r1 resp] eqn:E.
  assert (peers r1 = peers r) as <- by (revert E; branch; by intros [= <- <-]).
  branch; [|done]. destruct (getLastLogInfoLocked r1) as [li lt]. branch; [|done].
  destruct (persist r1) as [r2 [e|]] eqn:Hp; apply persist_inv in Hp as (p & -> & _); [done|].
  cbn [fst]. match goal with |- peers (resetElectionTimerLocked rnd ?x) = _ =>
    by destruct (resetElectionTimerLocked_inv rnd x) as [t ->] end.
Qed.

Lemma RequestVote_returns rnd req r : snd (RequestVote rnd req r) ≠ Panic.
Proof.
  unfold RequestVote. branch; [done|].
  destruct (if currentTerm r <? rvTerm req then _ else _) as [r1 resp]. branch; [|done].
  destruct (getLastLogInfoLocked r1) as [li lt]. branch; [|done].
  by destruct (persist r1) as [r2 [e|]].
Qed.
End frames.
