(* ===== verification/ClusterRefinement.v ===== *)
(** * The cluster implements the protocol

    Every step of [Cluster] that satisfies the side conditions of
    [steady_event] is a sequence of moves of [Protocol].  [ClusterSafety] draws
    the conclusions.

    The flag [settled] selects what is claimed.  With [settled = false] a node
    may restart with entries in its log that are not committed; its commit index
    is then wrong (recovery takes the whole log as committed), so nothing is
    claimed of commit indices, and log matching holds all the same.  With
    [settled = true] such a restart is excluded and the commit indices are those
    of the protocol.

    The flag [folding] allows compaction and, with it, snapshot transfer.  The
    protocol knows nothing of either: its log of a node is the whole log, of
    which the program keeps the part after the snapshot. *)

From S2P Require Import Prelude Types Persister Node Election Replication Snapshot Cluster.
From S2P Require Import ElectionSafety Protocol LogFrames.

Section refinement.
Context {P : Type} `{PL : PersisterLaws P}.
Context (ids : gset Z) (cfgs : gmap Z (Config P)) (Hok : cluster_ok ids cfgs).
Context (Hodd : Z.odd (Z.of_nat (size ids)) = true).
Context (settled folding : bool) (may : nat → LogEntry → Prop).
Implicit Types (w : World P) (r : Raft P) (h : Proto) (x : View).

(** ** The side conditions *)

(** A vote is granted only to a candidate whose log reaches the voter's
    snapshot.  The program does not check this when nothing follows the
    snapshot. *)
Definition vote_covers rnd (req : RequestVoteRequest) r : bool :=
  match snd (RequestVote rnd req r) with
  | Ret resp =>
      negb (rvrVoteGranted resp) || negb (bool_decide (log r = [])) || (logBase r =? 0)
      || (snapshotTerm r <? rvLastLogTerm req)
      || ((rvLastLogTerm req =? snapshotTerm r) && (logBase r <=? rvLastLogIndex req))
  | _ => true
  end%bool.

(** The snapshot a node holds in memory. *)
Definition own_snapshot r : option (bytes * Z * Z) :=
  if logBase r =? 0 then None else Some (snapshot r, logBase r, snapshotTerm r).

(** The conditions of election safety, and: logs stay short of [2^61] entries;
    a vote covers the voter's snapshot; a snapshot is sent by a node that still
    leads in the term it was asked to send it for; only what was applied is
    compacted (if [folding], otherwise nothing is); a node that restarts finds
    its log and its snapshot (and, if [settled], all of its log was
    committed). *)
Definition steady_event w (e : event) : bool :=
  fair_event w e &&
  match e with
  | Run i d =>
      match tasks w !! i with
      | Some (TGo n (GSendInstallSnapshot id T)) =>
          match nodes w !! n with
          | Some r => (state_eqb (state r) Leader && (currentTerm r =? T)) ||
              bool_decide (snd (sendInstallSnapshot_request d id T r) = None)
          | None => true
          end
      | _ => true
      end
  | Deliver i rnd =>
      match tasks w !! i with
      | Some (TCall dst (QVote req) _) =>
          match nodes w !! dst with Some r => vote_covers rnd req r | None => true end
      | _ => true
      end
  | Client n _ =>
      match nodes w !! n with Some r => last_index r + 1 <? 2 ^ 61 | None => true end
  | Compact n idx _ =>
      folding && match nodes w !! n with Some r => idx <=? lastApplied r | None => true end
  | Restart n _ =>
      match down w !! n with
      | Some r =>
          bool_decide (recovered (persister r) = (currentTerm r, votedFor r, log r)) &&
          bool_decide (recovered_snapshot (persister r) = own_snapshot r) &&
          (negb settled || (last_index r <=? commitIndex r))
      | None => true
      end
  | _ => true
  end%bool.

Fixpoint steady_run (es : list event) w : bool :=
  match es with
  | [] => true
  | e :: es =>
      (steady_event w e && match step e w with Some w' => steady_run es w' | None => true end)%bool
  end.

(** ** The relation *)

(** A node in order, without snapshot unless [folding]. *)
Record plain r : Prop := mkPlain {
  pl_wf : wf r;
  pl_base : folding = false → logBase r = 0;
  pl_len : last_index r < 2 ^ 61
}.

(** [l] is the whole log of node [r]: what its snapshot stands for, ending with
    an entry of the snapshot's term, and the log it keeps. *)
Definition unfolds r (l : list LogEntry) : Prop :=
  ∃ F, l = F ++ log r ∧ len F = logBase r ∧ (0 < logBase r → last_term F = snapshotTerm r).

Record shows r (role : State) x : Prop := mkShows {
  sh_term : vTerm x = currentTerm r;
  sh_role : vRole x = role;
  sh_log : unfolds r (vLog x);
  sh_commit : settled = true → vCommit x = Z.to_nat (commitIndex r)
}.

(** A commit index a leader of term [T] may send. *)
Definition cert h (T c : Z) : Prop :=
  settled = true → ∃ g, reigns h !! T = Some g ∧ 0 ≤ c ≤ len (gLog g) ∧
    certified ids h T (Z.to_nat c) (gLog g).

(** What a leader knows of a follower has been acknowledged, or is committed
    (the end of a snapshot the follower was sent). *)
Record tracks h (n : Z) r : Prop := mkTracks {
  tr_self : (n, currentTerm r, Z.to_nat (last_index r)) ∈ acks h;
  tr_peer id p : peers r !! id = Some p →
    nextIndex p ≤ 2 ^ 61 ∧ 0 ≤ matchIndex p < 2 ^ 61 ∧
    (0 < matchIndex p → (id, currentTerm r, Z.to_nat (matchIndex p)) ∈ acks h ∨
       cert h (currentTerm r) (matchIndex p))
}.

(** An AppendEntries request in flight to [dst]. *)
Record sound_append h (dst : Z) (req : AppendEntriesRequest) : Prop := mkSound {
  sa_wf : ae_wf req;
  sa_reign : ∃ g, reigns h !! aeTerm req = Some g ∧ gLeader g ≠ dst ∧
    aePrevLogIndex req + len (aeEntries req) ≤ len (gLog g) ∧
    aeEntries req =
      take (length (aeEntries req)) (drop (Z.to_nat (aePrevLogIndex req)) (gLog g)) ∧
    (0 < aePrevLogIndex req →
      ∃ e, gLog g !! Z.to_nat (aePrevLogIndex req - 1) = Some e ∧ eTerm e = aePrevLogTerm req);
  sa_bound : aePrevLogIndex req + len (aeEntries req) < 2 ^ 61;
  sa_commit : cert h (aeTerm req) (aeLeaderCommit req)
}.

(** A snapshot in flight to [dst]. *)
Record sound_snapshot h (dst : Z) (req : InstallSnapshotRequest) : Prop := mkSoundSnapshot {
  ss_bound : 0 ≤ isLastIncludedIndex req < 2 ^ 61;
  ss_reign : ∃ g, reigns h !! isTerm req = Some g ∧ gLeader g ≠ dst ∧
    isLastIncludedIndex req ≤ len (gLog g) ∧
    (0 < isLastIncludedIndex req → ∃ e,
      gLog g !! Z.to_nat (isLastIncludedIndex req - 1) = Some e ∧ eTerm e = isLastIncludedTerm req);
  ss_commit : cert h (isTerm req) (isLastIncludedIndex req)
}.

(** A message of the apply channel: the entry at its index, or the last one its
    snapshot stands for, is committed. *)
Definition agreed h (msg : ApplyMsg) : Prop :=
  ∃ T k i e, committed ids h T k ∧ (i ≤ k)%nat ∧ reign_log h T !! i = Some e ∧
    (msg = command_msg (eCommand e) (Z.of_nat i + 1) ∨
     folding = true ∧ ∃ d, msg = snapshot_msg d (Z.of_nat i + 1) (eTerm e)).

Definition sound h (t : task) : Prop :=
  match t with
  | TGo n (GSendAppendEntries id T c) => id ≠ n ∧ cert h T c
  | TGo n (GSendInstallSnapshot id T) => folding = true ∧ id ≠ n
  | TCall dst (QVote req) k =>
      asks h (rvCandidateId req) (rvTerm req) (rvLastLogIndex req) (rvLastLogTerm req)
  | TCall dst (QAppend req) k => sound_append h dst req ∧
      match k with
      | Some (KAppend n id T c prev m) =>
          id = dst ∧ id ≠ n ∧ T = aeTerm req ∧ c = aeLeaderCommit req ∧
          prev = aePrevLogIndex req ∧ m = len (aeEntries req)
      | _ => True
      end
  | TCall dst (QSnapshot req) k => folding = true ∧ sound_snapshot h dst req ∧
      match k with
      | Some (KSnapshot n id T lastIdx) =>
          id ≠ n ∧ T = isTerm req ∧ lastIdx = isLastIncludedIndex req
      | _ => True
      end
  | TReply (KAppend n id T c prev m) (AAppend resp) =>
      id ≠ n ∧ cert h T c ∧ 0 ≤ prev + m < 2 ^ 61 ∧
      (aerSuccess resp = true → (id, T, Z.to_nat (prev + m)) ∈ acks h)
  | TReply (KSnapshot n id T lastIdx) (ASnapshot _) =>
      folding = true ∧ id ≠ n ∧ 0 ≤ lastIdx < 2 ^ 61 ∧ cert h T lastIdx
  | TApplySend _ msg => settled = true → agreed h msg
  | _ => True
  end.

Record sim w h : Prop := mkSim {
  si_inv : inv ids cfgs w;
  si_pinv : pinv ids h;
  si_up n r : nodes w !! n = Some r → ∃ x, views h !! n = Some x ∧ shows r (state r) x;
  si_down n r : down w !! n = Some r → ∃ x, views h !! n = Some x ∧ shows r Follower x;
  si_votes : votes h = grants w;
  si_reign T n : (T, n) ∈ elected w ↔ ∃ g, reigns h !! T = Some g ∧ gLeader g = n;
  si_plain n r : known w n r → plain r;
  si_tracks n r : nodes w !! n = Some r → state r = Leader → tracks h n r;
  si_chan n r msg : nodes w !! n = Some r → msg ∈ applyCh r → settled = true → agreed h msg;
  si_tasks : Forall (sound h) (tasks w)
}.

(** *** The whole log *)

Lemma unfolds_len r l : unfolds r l → len l = last_index r.
Proof. intros (F & -> & E & _). unfold last_index. rewrite len_app. lia. Qed.

Lemma unfolds_entry r l i : unfolds r l → 0 ≤ logBase r < i →
  entry_at r i = l !! Z.to_nat (i - 1).
Proof.
  intros (F & -> & E & _) Hi. unfold entry_at. rewrite index_lookup by lia. unfold len in E.
  rewrite lookup_app_r by lia. f_equal. lia.
Qed.

(** The entry a snapshot ends with. *)
Lemma snapshot_last r l : unfolds r l → 0 < logBase r →
  eTerm <$> l !! Z.to_nat (logBase r - 1) = Some (snapshotTerm r).
Proof.
  intros (F & -> & E & Ht) Hb. rewrite <- (Ht Hb). unfold last_term, len in *.
  rewrite lookup_app_l by lia. replace (Z.to_nat (logBase r - 1)) with (pred (length F)) by lia.
  rewrite <- last_lookup. destruct (last F) as [e|] eqn:HL; [done|].
  apply last_None in HL as ->. cbn in E. lia.
Qed.

Lemma unfolds_same r r' l : log r' = log r → logBase r' = logBase r →
  snapshotTerm r' = snapshotTerm r → unfolds r l → unfolds r' l.
Proof. intros Hl Hb Ht (F & ? & ? & ?). exists F. rewrite Hl, Hb, Ht. auto. Qed.

Lemma unfolds_frame r r' l : frame r r' → unfolds r l → unfolds r' l.
Proof. intros [? ? _ [_ ?] _ _]. by apply unfolds_same. Qed.

Lemma unfolds_store r p ch l : unfolds r l → unfolds (r <| persister := p |> <| applyCh := ch |>) l.
Proof. done. Qed.

Lemma unfolds_whole r l : logBase r = 0 → unfolds r l ↔ l = log r.
Proof.
  intros Hb. split.
  - intros (F & -> & E & _). rewrite Hb in E. by destruct F.
  - intros ->. exists []. rewrite Hb. split_and!; [done..|lia].
Qed.

Lemma last_term_app (l k : list LogEntry) : k ≠ [] → last_term (l ++ k) = last_term k.
Proof.
  intros Hk. unfold last_term. rewrite last_app. destruct (last k) eqn:E; [done|].
  by apply last_None in E.
Qed.

(** ** Monotonicity *)

Section mono.
Context (h h' : Proto) (Hg : grows h h').

Lemma cert_grows T c : cert h T c → cert h' T c.
Proof.
  intros Hc Hs. destruct (Hc Hs) as (g & Hr & Hlen & Hce).
  destruct (gr_reign _ _ Hg _ _ Hr) as (g' & Hr' & _ & _ & Hp). exists g'. split; [done|].
  pose proof (prefix_length _ _ Hp) as Hl. unfold len in *. split; [lia|].
  destruct (certified_grows ids h h' Hg T T _ _ Hce) as [?|(T1 & k & ? & ? & ? & E)];
    [done|by left|right]. exists T1, k. split_and!; auto.
  destruct Hp as [z ->]. by rewrite take_app_le by lia.
Qed.

Lemma sound_append_grows dst req : sound_append h dst req → sound_append h' dst req.
Proof.
  intros [Hwf (g & Hr & Hn & Hle & He & Hp) Hb Hc].
  destruct (gr_reign _ _ Hg _ _ Hr) as (g' & Hr' & Hl & _ & [z Hz]).
  pose proof (aw_prev _ Hwf). pose proof (len_nonneg (aeEntries req)).
  assert (Z.to_nat (aePrevLogIndex req) + length (aeEntries req) ≤ length (gLog g))%nat as Hin
    by (unfold len in *; lia).
  split; [done| |done|by apply cert_grows]. exists g'. rewrite Hl, Hz.
  split_and!; auto.
  - rewrite len_app. pose proof (len_nonneg z). lia.
  - rewrite drop_app_le, take_app_le by (rewrite ?length_drop; lia). done.
  - intros Hpos. destruct (Hp Hpos) as (e & He' & ?). exists e. split; [|done].
    by apply lookup_app_l_Some.
Qed.

Lemma tracks_grows n r : tracks h n r → tracks h' n r.
Proof.
  intros [Hs Hp]. split; [by apply Hg|]. intros id p Hid.
  destruct (Hp id p Hid) as (? & ? & Ha). split_and!; auto; [lia..|]. intros Hm.
  destruct (Ha Hm) as [?|?]; [left; by apply Hg|right; by apply cert_grows].
Qed.

Lemma sound_snapshot_grows dst req : sound_snapshot h dst req → sound_snapshot h' dst req.
Proof.
  intros [Hb (g & Hr & Hn & Hle & He) Hc].
  destruct (gr_reign _ _ Hg _ _ Hr) as (g' & Hr' & Hl & _ & [z Hz]).
  split; [done| |by apply cert_grows]. exists g'. rewrite Hl, Hz. split_and!; auto.
  - rewrite len_app. pose proof (len_nonneg z). lia.
  - intros Hpos. destruct (He Hpos) as (e & He' & ?). exists e. split; [|done].
    by apply lookup_app_l_Some.
Qed.

Lemma agreed_grows msg : agreed h msg → agreed h' msg.
Proof.
  intros (T & k & i & e & Hc & Hik & He & Hm). exists T, k, i, e. split_and!; auto.
  - by apply (committed_grows ids h h').
  - destruct (grows_reign_log h h' Hg T) as [z ->]. by apply lookup_app_l_Some.
Qed.

Lemma sound_grows t : (∀ c T li lt, asks h c T li lt → asks h' c T li lt) →
  sound h t → sound h' t.
Proof.
  intros Ha. destruct t as [n [] |dst [] k|[] []| | |]; cbn; auto.
  - intros [? ?]. auto using cert_grows.
  - intros [? ?]. auto using sound_append_grows.
  - intros (? & ? & ?). auto using sound_snapshot_grows.
  - intros (? & ? & ? & ?). split_and!; auto using cert_grows; [lia..|]. intros. by apply Hg; auto.
  - intros (? & ? & ? & ?). auto using cert_grows.
  - auto using agreed_grows.
Qed.
End mono.

(** ** Steps of one node *)

(** Node [n] has made a step, matched by the moves from [h] to [h']. *)
Lemma sim_set w h w' h' n r r' : sim w h → nodes w !! n = Some r → rtc (pstep ids may) h h' →
  inv ids cfgs w' → nodes w' = <[n := r']> (nodes w) → down w' = down w →
  (∀ m, m ≠ n → views h' !! m = views h !! m) →
  (∃ x, views h' !! n = Some x ∧ shows r' (state r') x) →
  votes h' = grants w' →
  (∀ T m, (T, m) ∈ elected w' ↔ ∃ g, reigns h' !! T = Some g ∧ gLeader g = m) →
  plain r' → (state r' = Leader → tracks h' n r') →
  (∀ msg, msg ∈ applyCh r' → msg ∈ applyCh r ∨ (settled = true → agreed h' msg)) →
  (∀ t, t ∈ tasks w' → t ∈ tasks w ∨ sound h' t) → sim w' h'.
Proof.
  intros Hs Hn Hr Hi Hns Hd Hv Hx Hvs Hre Hpl Htr Hch Hts.
  destruct (psteps_advance ids may Hodd h h' (si_pinv _ _ Hs) Hr) as (Hp & Hg & Ha).
  assert (∀ m y, nodes w' !! m = Some y →
    (m = n ∧ y = r') ∨ (m ≠ n ∧ nodes w !! m = Some y)) as Hl.
  { intros m y. rewrite Hns. intros [[-> ->]|[? ?]]%lookup_insert_Some; auto. }
  split; auto.
  - intros m y [[-> ->]|[Hne Hy]]%Hl; [done|]. rewrite Hv by done. by apply (si_up _ _ Hs).
  - intros m y Hy. rewrite Hd in Hy. destruct (decide (m = n)) as [->|].
    + by rewrite (inv_disj _ _ _ (si_inv _ _ Hs) _ _ Hn) in Hy.
    + rewrite Hv by done. by apply (si_down _ _ Hs).
  - intros m y [[[-> ->]|[_ Hy]]%Hl|Hy]; [done|apply (si_plain _ _ Hs m); by left|].
    rewrite Hd in Hy. apply (si_plain _ _ Hs m). by right.
  - intros m y [[-> ->]|[Hne Hy]]%Hl Hst; [auto|]. eapply tracks_grows; [done|].
    by apply (si_tracks _ _ Hs).
  - intros m y msg [[-> ->]|[Hne Hy]]%Hl Hm Hse.
    + destruct (Hch msg Hm) as [Hm'|Hm']; [|auto]. eapply agreed_grows; [done|]. by eapply (si_chan _ _ Hs).
    + eapply agreed_grows; [done|]. by eapply (si_chan _ _ Hs).
  - apply Forall_forall. intros t [Ht|?]%Hts; [|done].
    pose proof (si_tasks _ _ Hs) as HF. rewrite Forall_forall in HF.
    apply (sound_grows h); auto.
Qed.

(** A step that keeps the log casts no vote and elects nobody: the node keeps
    its role or follows a later term. *)
Lemma quiet_moves w h n r r' : sim w h → nodes w !! n = Some r → quiet r r' → frame r r' →
  ∃ h', rtc (pstep ids may) h h' ∧ (∀ m, m ≠ n → views h' !! m = views h !! m) ∧
    (∃ x, views h' !! n = Some x ∧ shows r' (state r') x) ∧
    votes h' = votes h ∧ reigns h' = reigns h ∧ acks h' = acks h.
Proof.
  intros Hs Hn [_ _ Hv] Hf. pose proof (fr_commit _ _ Hf) as Hc.
  destruct (si_up _ _ Hs n r Hn) as (x & Hx & [Ht Hro Hlo Hco]).
  apply (unfolds_frame r r') in Hlo; [|done].
  destruct Hv as [(Ht' & _ & Hst & _)|(Hlt & _ & Hst)].
  - exists h. split_and!; auto; [done|]. exists x. split; [done|].
    split; [congruence..|done|]. rewrite Hc. done.
  - exists (set_view n (mkView (currentTerm r') Follower (vLog x) (vCommit x)) h).
    split_and!; try done.
    + apply rtc_once. eapply p_follow; [done|lia|done].
    + intros m Hm. cbn. by rewrite lookup_insert_ne.
    + eexists. split; [apply lookup_insert_eq|].
      split; cbn; [done|congruence|done|]. rewrite Hc. done.
Qed.

Lemma frame_plain r r' : plain r → frame r r' → plain r'.
Proof. intros [] [Hl Hb _ _ _ Hw]. split; unfold last_index in *; rewrite ?Hl, ?Hb; auto. Qed.

(** What a leader knows of its followers is kept with the peers. *)
Lemma tracks_same h n r r' : quiet r r' → frame r r' → peers r' = peers r →
  state r' = Leader → tracks h n r → tracks h n r'.
Proof.
  intros [_ _ Hv] [Hl Hb _ _ _ _] Hp Hst [Hs Hpe].
  assert (currentTerm r' = currentTerm r) as Ht
    by (destruct Hv as [(? & _)|(_ & _ & ?)]; [done|congruence]).
  split; unfold last_index in *; rewrite ?Ht, ?Hl, ?Hb, ?Hp; auto.
Qed.

Lemma sim_quiet w h w' n r r' : sim w h → nodes w !! n = Some r → quiet r r' → frame r r' →
  inv ids cfgs w' → nodes w' = <[n := r']> (nodes w) → down w' = down w →
  grants w' = grants w → elected w' = elected w →
  (state r' = Leader → tracks h n r → tracks h n r') →
  (∀ t, t ∈ tasks w' → t ∈ tasks w ∨ sound h t) →
  ∃ h', rtc (pstep ids may) h h' ∧ sim w' h'.
Proof.
  intros Hs Hn Hq Hf Hi Hns Hd Hgr Hel Htr Hts.
  destruct (quiet_moves w h n r r') as (h' & Hr & Hv & Hx & Hvs & Hre & Hack); auto.
  destruct (psteps_advance ids may Hodd h h' (si_pinv _ _ Hs) Hr) as (_ & Hg & Ha).
  exists h'. split; [done|]. eapply sim_set; eauto.
  - rewrite Hvs, Hgr. apply Hs.
  - intros T m. rewrite Hel, Hre. apply Hs.
  - eapply frame_plain; [|done]. apply (si_plain _ _ Hs n). by left.
  - intros Hst. eapply tracks_grows; [done|]. apply Htr; [done|]. apply (si_tracks _ _ Hs n); [done|].
    destruct Hq as [_ _ [(_ & _ & E & _)|(_ & _ & E)]]; congruence.
  - intros msg. rewrite (fr_chan _ _ Hf). by left.
  - intros t [?|?]%Hts; [auto|]. right. by apply (sound_grows h).
Qed.

(** A follower has changed its log, matched by moves that cast no vote and
    elect nobody. *)
Lemma sim_moved w h w' h' n r r' : sim w h → nodes w !! n = Some r → rtc (pstep ids may) h h' →
  inv ids cfgs w' → nodes w' = <[n := r']> (nodes w) → down w' = down w →
  grants w' = grants w → elected w' = elected w →
  (∀ m, m ≠ n → views h' !! m = views h !! m) →
  (∃ x, views h' !! n = Some x ∧ shows r' (state r') x) → state r' ≠ Leader →
  votes h' = votes h → reigns h' = reigns h → plain r' →
  (∀ msg, msg ∈ applyCh r' → msg ∈ applyCh r ∨ (settled = true → agreed h' msg)) →
  (∀ t, t ∈ tasks w' → t ∈ tasks w ∨ sound h' t) → sim w' h'.
Proof.
  intros Hs Hn Hr Hi Hns Hd Hgr Hel Hv Hx Hnl Hvs Hre Hpl Hch Hts.
  eapply (sim_set w h w' h' n r r'); eauto; [|intros T m|done].
  - rewrite Hvs, Hgr. apply Hs.
  - rewrite Hel, Hre. apply Hs.
Qed.

Lemma task_kept w i t : t ∈ delete i (tasks w) → t ∈ tasks w.
Proof. intros (j & Hj)%list_elem_of_lookup. apply list_elem_of_lookup.
  destruct (decide (j < i)%nat).
  - rewrite list_lookup_delete_lt in Hj by done. eauto.
  - rewrite list_lookup_delete_ge in Hj by lia. eauto.
Qed.

Lemma sim_timeout w h n rnd w' : sim w h → timeout n rnd w = Some w' →
  fair_event w (Timeout n rnd) = true → inv ids cfgs w' →
  ∃ h', rtc (pstep ids may) h h' ∧ sim w' h'.
Proof.
  intros Hs Hst Hf Hi. unfold timeout in Hst. destruct (nodes w !! n) as [r|] eqn:Hn; [|done].
  cbn [mbind option_bind] in Hst. cbn in Hf. rewrite Hn in Hf. bool_props. unfold max_int in *.
  pose proof (becomeCandidate_begin_frame r) as Hfr.
  destruct (becomeCandidate_begin r) as [r' o] eqn:Hb. cbn [fst] in Hfr.
  apply becomeCandidate_begin_cases in Hb as
    [(Hc & -> & ->)|(Hsh & Hnl & Hid & Hp & Ht & Hro & Hvr & Hv & Ho)].
  - assert ((negb (shutdown r) && negb (state_eqb (state r) Leader))%bool = false) as Hcast
      by (destruct Hc as [-> | ->]; [done|by rewrite andb_false_r]).
    rewrite Hcast in Hst. injection Hst as <-. eapply (sim_quiet w h _ n r r); eauto; reflexivity.
  - assert ((negb (shutdown r) && negb (state_eqb (state r) Leader))%bool = true) as Hcast
      by (rewrite Hsh; by destruct (state r)).
    rewrite Hcast in Hst. rewrite i64_id in Ht by lia.
    destruct (si_up _ _ Hs n r Hn) as (x & Hx & [Hxt Hxr Hxl Hxc]).
    set (h' := set_view n (mkView (vTerm x + 1) Candidate (vLog x) (vCommit x)) h
                 <| votes := (n, vTerm x + 1, n) :: votes h |>).
    assert (rtc (pstep ids may) h h') as Hr
      by (apply rtc_once; apply p_candidate; [done|lia|congruence]).
    assert (∀ r2, frame r' r2 → currentTerm r2 = currentTerm r' → state r2 = Candidate →
      ∀ w2, inv ids cfgs w2 → nodes w2 = <[n := r2]> (nodes w) → down w2 = down w →
      grants w2 = (n, currentTerm r', n) :: grants w → elected w2 = elected w →
      (∀ t, t ∈ tasks w2 → t ∈ tasks w ∨ sound h' t) → sim w2 h') as Hdo.
    { intros r2 Hfr2 Ht2 Hs2 w2 Hi2 Hns Hd Hgr Hel Hts.
      assert (frame r r2) as Hfr' by by etrans.
      eapply (sim_set w h w2 h' n r r2); eauto.
      - intros m Hm. cbn. by rewrite lookup_insert_ne.
      - eexists. split; [apply lookup_insert_eq|]. pose proof (fr_commit _ _ Hfr') as Hc.
        split; cbn; rewrite ?Hc; eauto using unfolds_frame; congruence || lia.
      - rewrite Hgr. cbn. rewrite (si_votes _ _ Hs), Hxt, Ht. done.
      - intros T m. rewrite Hel. apply Hs.
      - eapply frame_plain; [|done]. apply (si_plain _ _ Hs n). by left.
      - congruence.
      - intros msg. rewrite (fr_chan _ _ Hfr'). by left. }
    exists h'. split; [done|].
    destruct Ho as [-> | ->]; injection Hst as <-.
    + eapply (Hdo r'); eauto; done.
    + eapply (Hdo (resetElectionTimerLocked rnd r')); eauto using timer_frame;
        try (destruct (resetElectionTimerLocked_inv rnd r') as [tm ->]; done).
      cbn. intros t [?|Ht']%elem_of_app; [by left|right].
      destruct (peer_ids r'); [by apply list_elem_of_singleton in Ht' as ->|].
      by apply list_elem_of_fmap in Ht' as (id & -> & _).
Qed.

(** *** Goroutines *)

Lemma last_term_nonneg h l : pinv ids h → matches h l → 0 ≤ last_term l.
Proof.
  intros Hp Hm. destruct (decide (l = [])) as [->|Hl]; [done|].
  destruct (matches_last h l Hm Hl) as (g & Hg & _). destruct (pi_reign _ _ Hp _ _ Hg) as [? _]. lia.
Qed.

(** What a node says of its log: the truth, or nothing if it has folded all of
    it. *)
Lemma last_info r l : wf r → unfolds r l →
  getLastLogInfoLocked r = (len l, last_term l) ∨
  log r = [] ∧ 0 < logBase r ∧ getLastLogInfoLocked r = (0, 0) ∧
    len l = logBase r ∧ last_term l = snapshotTerm r.
Proof.
  intros [Hc Hb _ _ _ _ _] Hu. pose proof (unfolds_len _ _ Hu) as Hlen. destruct Hu as (F & -> & E & Ht).
  unfold getLastLogInfoLocked. destruct (last (log r)) as [e|] eqn:Hl.
  - left. rewrite Hlen, (last_log_index r e) by done. f_equal.
    rewrite last_term_app by (intros E'; by rewrite E' in Hl). unfold last_term. by rewrite Hl.
  - apply last_None in Hl. rewrite Hl, app_nil_r in *. destruct (Z.eq_dec (logBase r) 0) as [E0|E0].
    + left. rewrite E0 in E. by destruct F.
    + right. split_and!; auto; lia.
Qed.

Lemma sendRequestVote_request_info d id T r r' req :
  sendRequestVote_request d id T r = (r', Some req) →
  getLastLogInfoLocked r = (rvLastLogIndex req, rvLastLogTerm req).
Proof.
  unfold sendRequestVote_request. destruct (peers r !! id); [|done].
  destruct (ensureConnected _ _) as [p' [e|]]; [done|].
  change (getLastLogInfoLocked (r <| peers := _ |>)) with (getLastLogInfoLocked r).
  destruct (getLastLogInfoLocked r). by intros [= <- <-].
Qed.

(** The leader of a term and what it may send. *)
Lemma leader_reign w h n r : sim w h → nodes w !! n = Some r → state r = Leader →
  ∃ g, reigns h !! currentTerm r = Some g ∧ gLeader g = n ∧ unfolds r (gLog g).
Proof.
  intros Hs Hn Hst. destruct (si_up _ _ Hs n r Hn) as (x & Hx & [Ht Hr Hl _]).
  destruct (pi_lead _ _ (si_pinv _ _ Hs) n x Hx) as (g & ? & ? & Hg); [congruence|].
  exists g. rewrite Hg. split_and!; congruence || done.
Qed.

Lemma view_cert h n r x : pinv ids h → views h !! n = Some x → shows r Leader x → plain r →
  cert h (currentTerm r) (commitIndex r).
Proof.
  intros Hp Hx [Ht Hr Hl Hc] [[] _ _] Hset.
  destruct (pi_lead _ _ Hp n x Hx Hr) as (g & Hg & _ & Hgl).
  destruct (pi_commit _ _ Hp n x Hx) as [Hlen Hce].
  rewrite Ht, (Hc Hset) in *. rewrite <- Hgl in *.
  exists g. split_and!; auto; unfold len; lia.
Qed.

Lemma leader_cert w h n r : sim w h → nodes w !! n = Some r → state r = Leader →
  cert h (currentTerm r) (commitIndex r).
Proof.
  intros Hs Hn Hst. destruct (si_up _ _ Hs n r Hn) as (x & Hx & Hsh). rewrite Hst in Hsh.
  eapply view_cert; eauto; [apply Hs|]. apply (si_plain _ _ Hs n). by left.
Qed.

Lemma peer_not_self w h n r id : sim w h → nodes w !! n = Some r → id ∈ peer_ids r → id ≠ n.
Proof.
  intros Hs Hn Hid%peer_ids_dom.
  destruct (inv_id _ _ _ (si_inv _ _ Hs) n r) as (_ & _ & Hd); [by left|].
  rewrite Hd in Hid. apply elem_of_difference in Hid as [_ Hid].
  by rewrite elem_of_singleton in Hid.
Qed.

Lemma tracks_connected h n r id p p' : tracks h n r → peers r !! id = Some p →
  p' = p <| connected := connected p' |> →
  tracks h n (r <| peers := <[id := p']> (peers r) |>).
Proof.
  intros [Hs Hp] Hid Hc. split; [done|]. cbn. intros id' q [[<- <-]|[_ Hq]]%lookup_insert_Some; [|auto].
  destruct (Hp id p Hid) as (? & ? & ?).
  assert (nextIndex p' = nextIndex p ∧ matchIndex p' = matchIndex p) as [-> ->]
    by (rewrite Hc; done). auto.
Qed.

Lemma heartbeats_sound w h n r : sim w h → nodes w !! n = Some r →
  Forall (sound h) (TGo n <$> sendHeartbeats r).
Proof.
  intros Hs Hn. unfold sendHeartbeats. destruct (_ || _) eqn:Hb; [constructor|].
  apply orb_false_iff in Hb as [Hst _]. apply negb_false_iff, state_eqb_true in Hst.
  apply Forall_fmap, Forall_fmap, Forall_forall. intros id Hid. cbn. split.
  - by eapply peer_not_self.
  - by eapply leader_cert.
Qed.

(** A request the leader builds describes the log of its reign. *)
Lemma request_sound w h n r d id c r' req prev m : sim w h → nodes w !! n = Some r →
  id ≠ n → cert h (currentTerm r) c → state r = Leader →
  sendAppendEntries_request d id (currentTerm r) c r = (r', SendCall req prev m) →
  sound_append h id req ∧ aeTerm req = currentTerm r ∧ aeLeaderCommit req = c ∧
  prev = aePrevLogIndex req ∧ m = len (aeEntries req).
Proof.
  intros Hs Hn Hid Hc Hst Hq. destruct (leader_reign w h n r) as (g & Hg & Hgn & Hgl); auto.
  destruct (si_plain _ _ Hs n r) as [Hwf _ Hlen]; [by left|].
  destruct (si_tracks _ _ Hs n r Hn Hst) as [_ Htr].
  apply sendAppendEntries_request_segment in Hq as ([Hw He Hes Hp] & -> & -> & Ht & _ & _ & Hlc);
    [|done|intros p Hp; destruct (Htr id p Hp); lia].
  rewrite <- (unfolds_len _ _ Hgl) in He, Hlen.
  assert (∀ i e, entry_at r i = Some e → gLog g !! Z.to_nat (i - 1) = Some e) as Hent.
  { intros i e Hi. rewrite <- (unfolds_entry r); auto. split; [apply Hwf|].
    by apply (entry_at_Some r i). }
  split_and!; auto. split; auto; [|lia|by rewrite Ht, Hlc].
  exists g. rewrite Ht. pose proof (aw_prev _ Hw) as Hprev. split; [done|].
  split; [congruence|]. split; [lia|]. split.
  - apply list_eq. intros i. unfold len in *. destruct (decide (i < length (aeEntries req))%nat) as [Hi|Hi].
    + destruct (lookup_lt_is_Some_2 _ _ Hi) as [e E]. rewrite E. symmetry.
      rewrite lookup_take_lt, lookup_drop by done.
      specialize (Hes (Z.of_nat i) e). rewrite index_of_nat in Hes. specialize (Hes E).
      apply Hent in Hes. rewrite <- Hes. f_equal. lia.
    + rewrite !lookup_ge_None_2; [done|rewrite length_take, length_drop; lia|lia].
  - intros Hpos. destruct (Hp Hpos) as (e & E & ?). eauto.
Qed.

(** A smaller index than a committed one is committed. *)
Lemma cert_le h T c c' : cert h T c → 0 ≤ c' ≤ c → cert h T c'.
Proof.
  intros Hc Hle Hset. destruct (Hc Hset) as (g & Hg & Hlen & Hce). exists g. split; [done|].
  split; [lia|]. destruct Hce as [?|(T1 & k & ? & ? & ? & E)]; [left; lia|right].
  exists T1, k. split_and!; auto; [lia|].
  rewrite <- (Nat.min_l (Z.to_nat c') (Z.to_nat c)) by lia. by rewrite <- !take_take, E.
Qed.

Lemma snapshot_request_sound w h n r d id r' req lastIdx : sim w h → nodes w !! n = Some r →
  id ≠ n → state r = Leader →
  sendInstallSnapshot_request d id (currentTerm r) r = (r', Some (req, lastIdx)) →
  sound_snapshot h id req ∧ isTerm req = currentTerm r ∧ lastIdx = isLastIncludedIndex req.
Proof.
  intros Hs Hn Hid Hst Hq. destruct (leader_reign w h n r) as (g & Hg & Hgn & Hgl); auto.
  destruct (si_plain _ _ Hs n r) as [Hwf _ Hlen]; [by left|]. pose proof Hwf as [].
  assert (req = mkInstallSnapshotRequest (currentTerm r) (i32 (serverId r)) (logBase r)
    (snapshotTerm r) 0 (snapshot r) true ∧ lastIdx = logBase r) as [-> ->].
  { unfold sendInstallSnapshot_request in Hq. destruct (shutdown r); [done|].
    destruct (peers r !! id); [|done]. destruct (_ =? _); [done|].
    destruct (ensureConnected _ _) as [? [?|]]; [done|]. rewrite wf_snapshot in Hq.
    by injection Hq as _ <- <-. }
  split; [|done]. pose proof (unfolds_len _ _ Hgl) as Hgn'. unfold last_index in *.
  pose proof (len_nonneg (log r)). split; cbn; [lia| |].
  - exists g. split_and!; [done|congruence|lia|]. intros Hpos.
    pose proof (snapshot_last r _ Hgl Hpos) as He. apply fmap_Some in He as (e & ? & ?). eauto.
  - apply (cert_le h _ (commitIndex r)); [by eapply leader_cert|lia].
Qed.

Lemma request_snapshot d id c r r' T : plain r →
  (state r = Leader → ∀ p, peers r !! id = Some p → nextIndex p ≤ 2 ^ 61) →
  sendAppendEntries_request d id T c r = (r', SendSnapshot) → folding = true.
Proof.
  intros [Hwf Hb _] Hn. destruct folding; [done|]. specialize (Hb eq_refl).
  unfold sendAppendEntries_request. branch; [done|].
  destruct (peers r !! id) as [p|] eqn:Hp; [|done].
  destruct (ensureConnected d p) as [p' [e|]] eqn:Hec; [done|]. apply ensureConnected_inv in Hec.
  assert (nextIndex p' = nextIndex p) as Hni by (rewrite Hec; done). cbn. rewrite Hni.
  destruct (_ || _) eqn:Hl; [done|]. apply orb_false_iff in Hl as [[Hl _]%orb_false_iff _].
  apply negb_false_iff, state_eqb_true in Hl. specialize (Hn Hl p eq_refl).
  rewrite Hb. assert (((if nextIndex p <? 1 then 1 else nextIndex p) -! 1 <? 0) = false) as ->.
  { apply Z.ltb_ge. branch; rewrite i64_id; lia. }
  by destruct (if 0 <? _ then _ else _) as [[? ?] ?].
Qed.

(** A step of node [n] that consumes task [i]. *)
Lemma sim_quiet_task w h n r r' i ts : sim w h → nodes w !! n = Some r → quiet r r' →
  frame r r' → inv ids cfgs (spawn ts (finish i (set_node n r' w))) →
  (state r' = Leader → tracks h n r → tracks h n r') → Forall (sound h) ts →
  ∃ h', rtc (pstep ids may) h h' ∧ sim (spawn ts (finish i (set_node n r' w))) h'.
Proof.
  intros Hs Hn Hq Hf Hi Htr Hts. eapply (sim_quiet w h); eauto.
  cbn. intros t [?%task_kept|?]%elem_of_app; [by left|right].
  rewrite Forall_forall in Hts. auto.
Qed.

Lemma sim_task w h i t : sim w h → tasks w !! i = Some t → sound h t.
Proof. intros Hs Ht. exact (Forall_lookup_1 _ _ _ _ (si_tasks _ _ Hs) Ht). Qed.

Lemma vote_request_sound w h i n r id T d r' req : sim w h → nodes w !! n = Some r →
  tasks w !! i = Some (TGo n (GSendRequestVote id T)) →
  sendRequestVote_request d id T r = (r', Some req) →
  asks h (rvCandidateId req) (rvTerm req) (rvLastLogIndex req) (rvLastLogTerm req).
Proof.
  intros Hs Hn Ht Hq. pose proof (sendRequestVote_request_info _ _ _ _ _ _ Hq) as Hinfo.
  apply sendRequestVote_request_Some in Hq as [-> ->].
  destruct (inv_id _ _ _ (si_inv _ _ Hs) n r) as (Hnid & -> & _); [by left|].
  rewrite i32_id by (apply (co_range _ _ Hok) in Hnid; lia).
  destruct (si_up _ _ Hs n r Hn) as (x & Hx & [Hxt _ Hxl _]). exists x. rewrite Hxt.
  destruct (si_plain _ _ Hs n r) as [Hwf _ _]; [by left|].
  split; [done|]. split; [|intros _ _ _; destruct (last_info r _ Hwf Hxl) as [E|(_ & _ & E & Hl & Ht')];
    rewrite Hinfo in E; injection E as -> ->; [by right|]].
  2:{ pose proof (last_term_nonneg h (vLog x) (si_pinv _ _ Hs)) as H0.
      destruct (pi_log _ _ (si_pinv _ _ Hs) n x Hx) as [Hm _]. specialize (H0 Hm).
      pose proof (len_nonneg (vLog x)). lia. }
  apply (inv_chain_term _ _ _ (si_inv _ _ Hs) n T id); [|by left].
  apply elem_of_app. left. apply list_elem_of_omap. eexists.
  split; [by eapply list_elem_of_lookup_2|done].
Qed.

Lemma sendAppendEntries_request_leads d id T c r r' req prev m :
  sendAppendEntries_request d id T c r = (r', SendCall req prev m) →
  state r = Leader ∧ currentTerm r = T.
Proof.
  unfold sendAppendEntries_request.
  destruct (shutdown r); [done|]. destruct (peers r !! id); [|done].
  destruct (ensureConnected _ _) as [? [?|]]; [done|].
  change (state (r <| peers := _ |>)) with (state r).
  change (currentTerm (r <| peers := _ |>)) with (currentTerm r).
  destruct (state_eqb (state r) Leader) eqn:E1; [|done].
  destruct (currentTerm r =? T) eqn:E2; [|done]. state_props. auto.
Qed.

(** What [sendAppendEntries] turns into. *)
Lemma send_append_sound w h n r d id T c r' a : sim w h → nodes w !! n = Some r → id ≠ n →
  cert h T c → sendAppendEntries_request d id T c r = (r', a) →
  Forall (sound h) match a with
    | SendStop => []
    | SendSnapshot => [TGo n (GSendInstallSnapshot id T)]
    | SendCall req prev m => [TCall id (QAppend req) (Some (KAppend n id T c prev m))]
    end.
Proof.
  intros Hs Hn Hid Hc Hq. assert (plain r) as Hpl by (apply (si_plain _ _ Hs n); by left).
  assert (state r = Leader → ∀ p, peers r !! id = Some p → nextIndex p ≤ 2 ^ 61) as Hni.
  { intros Hst p Hp. by apply (tr_peer _ _ _ (si_tracks _ _ Hs n r Hn Hst) id p). }
  destruct a as [| |req prev m]; [done|apply request_snapshot in Hq; auto; by apply Forall_singleton|].
  destruct (sendAppendEntries_request_leads _ _ _ _ _ _ _ _ _ Hq) as [Hst <-].
  eapply request_sound in Hq as (? & ? & ? & ? & ?); eauto.
  apply Forall_singleton. split; [done|]. split_and!; auto.
Qed.

Lemma sim_goroutine w h i n g d r r' ts : sim w h → nodes w !! n = Some r →
  tasks w !! i = Some (TGo n g) → run_goroutine n g d r = Some (r', ts) →
  steady_event w (Run i d) = true →
  ∃ h', rtc (pstep ids may) h h' ∧ sim (spawn ts (finish i (set_node n r' w))) h'.
Proof.
  intros Hs Hn Ht Hg [_ Hside]%andb_true_iff. pose proof (inv_goroutine _ _ Hok _ _ _ _ _ _ _ _ (si_inv _ _ Hs) Hn Ht Hg) as Hi.
  pose proof (sim_task _ _ _ _ Hs Ht) as Hso.
  destruct g as [id T|id T c|id T| |]; cbn in Hg, Hso.
  - pose proof (sendRequestVote_request_frame d id T r) as Hf.
    destruct (sendRequestVote_request d id T r) as [r1 o] eqn:Hq.
    injection Hg as <- <-. eapply sim_quiet_task; eauto using sendRequestVote_request_quiet.
    + intros _ Htr. unfold sendRequestVote_request in Hq.
      destruct (peers r !! id) as [p|] eqn:Hp; [|by injection Hq as <- _].
      destruct (ensureConnected d p) as [p' [e|]] eqn:He; [by injection Hq as <- _|].
      destruct (getLastLogInfoLocked _). injection Hq as <- _.
      eapply tracks_connected; eauto using ensureConnected_inv.
    + destruct o as [req|]; [|done]. apply Forall_singleton. by eapply vote_request_sound.
  - pose proof (sendAppendEntries_request_frame d id T c r) as Hf.
    destruct (sendAppendEntries_request d id T c r) as [r1 a] eqn:Hq.
    injection Hg as <- <-. eapply sim_quiet_task; eauto using sendAppendEntries_request_quiet.
    + intros _ Htr. apply sendAppendEntries_request_inv in Hq as [->|(p & p' & Hp & Hc & ->)]; [done|].
      by eapply tracks_connected.
    + destruct Hso as [Hid Hc]. by eapply send_append_sound.
  - destruct Hso as [Hfo Hid]. pose proof (sendInstallSnapshot_request_frame d id T r) as Hf.
    cbn in Hside. rewrite Ht, Hn in Hside.
    destruct (sendInstallSnapshot_request d id T r) as [r1 o] eqn:Hq.
    injection Hg as <- <-. eapply sim_quiet_task; eauto using sendInstallSnapshot_request_quiet.
    + intros _ Htr. apply sendInstallSnapshot_request_inv in Hq as [->|(p & p' & Hp & Hc & ->)]; [done|].
      by eapply tracks_connected.
    + destruct o as [[req lastIdx]|]; [|done]. apply orb_true_iff in Hside as [Hl|Hl];
        [|by apply bool_decide_eq_true_1 in Hl].
      apply andb_true_iff in Hl as [Hl%state_eqb_true HT%Z.eqb_eq]. subst T.
      eapply snapshot_request_sound in Hq as (? & ? & ?); eauto.
      apply Forall_singleton. by split_and!.
  - pose proof (runHeartbeat_turn_frame r) as Hf.
    pose proof (heartbeats_sound w h n r Hs Hn) as Hhb.
    assert (quiet r (fst (runHeartbeat_turn r))) as Hq
      by (unfold runHeartbeat_turn; destruct (ctx r) as [[]|]; quiet_solve).
    destruct (runHeartbeat_turn r) as [r1 o] eqn:Hr. injection Hg as <- <-.
    eapply sim_quiet_task; eauto; unfold runHeartbeat_turn in Hr;
      destruct (ctx r) as [[]|]; injection Hr as <- <-; auto.
    all: first [by intros _ []|apply Forall_cons; split; [done|exact Hhb]].
  - destruct (commitCh r); [|done]. injection Hg as <- <-.
    eapply sim_quiet_task; eauto; [quiet_solve|frame_solve|by intros _ []].
Qed.
(** *** Taking office *)

Lemma becomeLeader_tracks h n r : plain r → state r = Candidate → shutdown r = false →
  (n, currentTerm r, Z.to_nat (last_index r)) ∈ acks h → tracks h n (fst (becomeLeader r)).
Proof.
  intros [[Hco Hb _ _ _ _ _] _ Hlen] Hs Hsh Hack. unfold becomeLeader. rewrite Hs, Hsh.
  change (state_eqb Candidate Candidate) with true. cbn [negb orb].
  set (li := match last (log r) with Some e => eIndex e | None => 0 end).
  assert (0 ≤ li < 2 ^ 61) as Hli.
  { subst li. destruct (last (log r)) as [e|] eqn:Hl; [|lia].
    rewrite (last_log_index r e) by done. unfold last_index in *.
    pose proof (len_nonneg (log r)). lia. }
  cbn -[last]. fold li. split; [cbn; by destruct (electionTimer r)|].
  intros id p Hp. assert (nextIndex p = li +! 1 ∧ matchIndex p = 0) as [-> ->].
  { destruct (electionTimer r); cbn in Hp; rewrite lookup_fmap in Hp;
      destruct (peers r !! id); by simplify_eq/=. }
  rewrite i64_id by lia. split_and!; lia.
Qed.

Lemma won_elects w h n T : sim w h → won ids w n T →
  elects ids (voters w n T) ∧ ∀ v, v ∈ voters w n T → (v, T, n) ∈ votes h.
Proof.
  intros Hs [Hg Hq]. pose proof (si_inv _ _ Hs) as Hi. rewrite (si_votes _ _ Hs).
  split; [split_and!|].
  - by eapply voters_NoDup.
  - intros v Hv. by eapply voters_spec.
  - by rewrite voters_length.
  - intros v Hv. by eapply voters_spec.
Qed.

Lemma sim_lead w h i n r r' : sim w h → nodes w !! n = Some r →
  tasks w !! i = Some (TLead n (currentTerm r)) → state r = Candidate → shutdown r = false →
  becomeLeader r = (r', [GRunHeartbeat]) →
  let w' := spawn [TGo n GRunHeartbeat] (finish i (set_node n r'
              (w <| elected := (currentTerm r, n) :: elected w |>))) in
  inv ids cfgs w' → ∃ h', rtc (pstep ids may) h h' ∧ sim w' h'.
Proof.
  intros Hs Hn Ht Hst Hsh Hb w' Hi. pose proof (si_inv _ _ Hs) as Hi0.
  pose proof (inv_task _ _ _ _ _ Hi0 Ht) as Hwon. cbn in Hwon.
  destruct (won_elects w h n _ Hs Hwon) as [HQ Hvs].
  destruct (si_up _ _ Hs n r Hn) as (x & Hx & [Hxt Hxr Hxl Hxc]).
  assert (plain r) as Hpl by (apply (si_plain _ _ Hs n); by left).
  set (x' := mkView (vTerm x) Leader (vLog x) (vCommit x)).
  set (g := mkReign n (vLog x) (vLog x)).
  set (h1 := set_reign (vTerm x) g (set_view n x' h)).
  set (h2 := h1 <| acks := (n, vTerm x, length (vLog x)) :: acks h1 |>).
  assert (rtc (pstep ids may) h h2) as Hr.
  { eapply rtc_l; [eapply (p_elect ids may h n x (voters w n (currentTerm r)))|]; auto; [congruence|by rewrite Hxt|].
    apply rtc_once. apply (p_ack ids may h1 n x' g); cbn; rewrite ?lookup_insert_eq; auto.
    by rewrite take_ge. }
  pose proof (becomeLeader_frame r) as Hf. rewrite Hb in Hf. cbn [fst] in Hf.
  pose proof Hb as Hb'. apply becomeLeader_cases in Hb' as
    [(_ & _ & [=])|(_ & _ & _ & _ & _ & Htm & _ & Hs')].
  exists h2. split; [done|]. eapply (sim_set w h w' h2 n r r'); eauto.
  - intros m Hm. cbn. by rewrite lookup_insert_ne.
  - eexists. split; [apply lookup_insert_eq|]. pose proof (fr_commit _ _ Hf) as Hc.
    split; cbn; rewrite ?Hc; eauto using unfolds_frame; congruence.
  - apply Hs.
  - intros T m. change (elected w') with ((currentTerm r, n) :: elected w).
    change (reigns h2) with (<[vTerm x := g]> (reigns h)). rewrite Hxt.
    destruct (decide (T = currentTerm r)) as [->|HT].
    + rewrite lookup_insert_eq. split; [|intros (g' & [= <-] & <-); by left].
      intros Hm. exists g. split; [done|]. symmetry.
      eapply (won_unique ids cfgs w); eauto.
      apply elem_of_cons in Hm as [[= ->]|Hm]; [done|]. by eapply inv_elected.
    + rewrite lookup_insert_ne, elem_of_cons, <- (si_reign _ _ Hs) by done.
      split; [|by right]. intros [[= ? ?]|?]; [done|done].
  - by eapply frame_plain.
  - intros _. replace r' with (fst (becomeLeader r)) by (by rewrite Hb).
    apply becomeLeader_tracks; auto. rewrite <- (unfolds_len _ _ Hxl), <- Hxt. unfold len.
    rewrite Nat2Z.id. by left.
  - intros msg. rewrite (fr_chan _ _ Hf). by left.
  - cbn. intros t [?%task_kept|Ht'%list_elem_of_singleton]%elem_of_app; [by left|right]. by subst t.
Qed.

Lemma certified_entry h T c l i e : certified ids h T c l → (i < c)%nat → l !! i = Some e →
  ∃ T1 k, committed ids h T1 k ∧ (i ≤ k)%nat ∧ reign_log h T1 !! i = Some e.
Proof.
  intros [->|(T1 & k & Hc & _ & Hk & E)] Hi He; [lia|]. exists T1, k. split_and!; [done|lia|].
  by rewrite <- (lookup_take_lt _ _ _ Hi), <- E, lookup_take_lt.
Qed.

(** The apply loop takes committed entries. *)
Lemma take_agreed w h n r r' msg : sim w h → nodes w !! n = Some r →
  apply_take r = (r', Some msg) → settled = true → agreed h msg.
Proof.
  intros Hs Hn Ha Hse. destruct (si_plain _ _ Hs n r) as [Hwf _ _]; [by left|].
  destruct (Z.le_gt_cases (deliverable r) (lastApplied r)) as [Hd|Hd].
  { by rewrite apply_take_None in Ha. }
  destruct (apply_take_Some r Hwf Hd) as (e & He & Ha'). rewrite Ha in Ha'. injection Ha' as -> ->.
  destruct (si_up _ _ Hs n r Hn) as (x & Hx & [_ _ Hxl Hxc]).
  destruct (pi_commit _ _ (si_pinv _ _ Hs) n x Hx) as [_ Hce]. rewrite (Hxc Hse) in Hce.
  pose proof Hwf as [Hcon Hb0 _ _ Hla Hlc _]. unfold deliverable in Hd.
  pose proof He as He'. unfold entry_at in He'. rewrite (Hcon _ _ He'). clear He'.
  rewrite (unfolds_entry r (vLog x)) in He by (done || lia).
  apply (certified_entry h _ _ _ _ _ Hce) in He as (T & k & Hc & Hik & Hrl); [|lia].
  exists T, k, (Z.to_nat (lastApplied r + 1 - 1)), e. split_and!; [done|lia|done|left; f_equal; lia].
Qed.

Lemma sim_channel w h n r ch ts w' : sim w h → nodes w !! n = Some r →
  let r' := r <| applyCh := ch |> in
  inv ids cfgs w' → nodes w' = <[n := r']> (nodes w) → down w' = down w → grants w' = grants w →
  elected w' = elected w → (∀ t, t ∈ tasks w' → t ∈ tasks w ∨ t ∈ ts) → Forall (sound h) ts →
  (∀ msg, msg ∈ ch → msg ∈ applyCh r ∨ (settled = true → agreed h msg)) → sim w' h.
Proof.
  intros Hs Hn r' Hi Hns Hd Hgr Hel Hts HF Hch.
  destruct (si_up _ _ Hs n r Hn) as (x & Hx & Hsh). rewrite Forall_forall in HF.
  eapply (sim_set w h w' h n r r'); eauto.
  - reflexivity.
  - exists x. split; [done|]. by destruct Hsh.
  - rewrite Hgr. apply Hs.
  - rewrite Hel. apply Hs.
  - destruct (si_plain _ _ Hs n r) as [Hw ? ?]; [by left|]. split; auto. by wf_same Hw.
  - intros Hst. by destruct (si_tracks _ _ Hs n r Hn Hst).
  - intros t [?|?]%Hts; auto.
Qed.

Lemma sim_run w h i d w' : sim w h → run_task i d w = Some w' →
  steady_event w (Run i d) = true → inv ids cfgs w' → ∃ h', rtc (pstep ids may) h h' ∧ sim w' h'.
Proof.
  intros Hs Hst Hsd Hi. pose proof Hsd as [Hf _]%andb_true_iff. unfold run_task in Hst.
  destruct (tasks w !! i) as [[n g| | |n T|n|n msg]|] eqn:Ht; try done;
    destruct (nodes w !! n) as [r|] eqn:Hn; try done; cbn [mbind option_bind] in Hst.
  - destruct (run_goroutine n g d r) as [[r' ts]|] eqn:Hg; [|done].
    injection Hst as <-. by eapply sim_goroutine.
  - destruct (becomeLeader r) as [r' gs] eqn:Hb. pose proof Hb as Hb'.
    apply becomeLeader_cases in Hb' as [(Hc & -> & ->)|(Hs1 & Hsh & -> & _)].
    + assert ((state_eqb (state r) Candidate && negb (shutdown r))%bool = false) as Hwin.
      { destruct Hc as [Hc| ->]; [|apply andb_false_r]. by destruct (state r). }
      rewrite Hwin in Hst. injection Hst as <-. eapply sim_quiet_task; eauto; reflexivity.
    + rewrite Hs1, Hsh in Hst. cbn [andb negb] in Hst.
      change (state_eqb Candidate Candidate) with true in Hst. injection Hst as <-.
      cbn in Hf. rewrite Ht, Hn, Hs1 in Hf. cbn in Hf. apply Z.eqb_eq in Hf. subst T.
      by eapply sim_lead.
  - assert (frame r (fst (apply_take r))) as Hfr
      by (apply apply_take_frame; apply (si_plain _ _ Hs n); by left).
    assert (quiet r (fst (apply_take r))) as Hq by apply apply_take_quiet.
    pose proof (λ r' msg, take_agreed w h n r r' msg Hs Hn) as Hmsg.
    assert (tracks h n r → tracks h n (fst (apply_take r))) as Htr.
    { unfold apply_take. branch; [done|]. cbn. destruct (index _ _); by intros []. }
    destruct (apply_take r) as [r' o]. injection Hst as <-.
    eapply sim_quiet_task; eauto. destruct o as [msg|]; apply Forall_singleton; [|done].
    cbn. by eapply Hmsg.
  - destruct (send_applyCh msg r) as [r'|] eqn:Hse; [|done]. injection Hst as <-.
    apply send_applyCh_inv in Hse as ->. exists h. split; [done|].
    pose proof (sim_task _ _ _ _ Hs Ht) as Hmsg.
    eapply (sim_channel w h n r (applyCh r ++ [msg]) [TApplyNext n]); eauto.
    + intros t [?%task_kept|?]%elem_of_app; auto.
    + by apply Forall_singleton.
    + intros m [?|Hm%list_elem_of_singleton]%elem_of_app; [by left|right]. by subst m.
Qed.
(** *** Requests for votes *)

Lemma vote_answered h k resp : Forall (sound h) (answer k (AVote resp)).
Proof. destruct k as [[]|]; try done; by apply Forall_singleton. Qed.

(** The voter's test, with the side condition, compares whole logs. *)
Lemma vote_fresh rnd req r r' resp l l' : wf r → unfolds r l →
  RequestVote rnd req r = (r', Ret resp) → rvrVoteGranted resp = true →
  vote_covers rnd req r = true →
  rvLastLogTerm req < last_term l' ∨
    rvLastLogTerm req = last_term l' ∧ rvLastLogIndex req ≤ len l' →
  fresher l' l.
Proof.
  intros Hwf Hu Hrv Hgr Hcov Hc. unfold vote_covers in Hcov. rewrite Hrv in Hcov. cbn [snd] in Hcov.
  rewrite Hgr in Hcov. pose proof (RequestVote_granted rnd req r r' resp Hrv Hgr) as Hg.
  unfold fresher, len in *. destruct (last_info r l Hwf Hu) as [E|(El & Hpos & _ & Hlen & Ht)].
  - rewrite E in Hg. unfold len in Hg. lia.
  - rewrite El, bool_decide_eq_true_2 in Hcov by done. cbn in Hcov.
    unfold len in Hlen. destruct_or? Hcov; bool_props; lia.
Qed.

(** A node that grants its vote: it catches up with the term, then votes. *)
Lemma vote_moves w h n r req r' p t r1 : sim w h → nodes w !! n = Some r → quiet r r1 →
  r' = r1 <| persister := p |> <| votedFor := rvCandidateId req |> <| electionTimer := t |> →
  frame r r' → currentTerm r1 = rvTerm req →
  (∀ c, (n, rvTerm req, c) ∈ grants w → c = rvCandidateId req) →
  asks h (rvCandidateId req) (rvTerm req) (rvLastLogIndex req) (rvLastLogTerm req) →
  (∀ l l', unfolds r l → rvLastLogTerm req < last_term l' ∨
     rvLastLogTerm req = last_term l' ∧ rvLastLogIndex req ≤ len l' → fresher l' l) →
  ∃ h', rtc (pstep ids may) h h' ∧ (∀ m, m ≠ n → views h' !! m = views h !! m) ∧
    (∃ x, views h' !! n = Some x ∧ shows r' (state r') x) ∧
    votes h' = (n, rvTerm req, rvCandidateId req) :: votes h ∧ reigns h' = reigns h ∧
    acks h' = acks h.
Proof.
  intros Hs Hn Hq -> Hf Hterm Honce Hasks Hfresh.
  set (r2 := r1 <| persister := p |> <| electionTimer := t |>).
  assert (quiet r r2) as Hq2 by (etrans; [exact Hq|]; quiet_solve).
  assert (frame r r2) as Hf2 by (destruct Hf as [? ? ? ? ? Hw]; split; auto; intros Hw0; by wf_same (Hw Hw0)).
  destruct (quiet_moves w h n r r2 Hs Hn Hq2 Hf2) as (h1 & Hr & Hv & (x & Hx & Hsh) & Hvs & Hre & Hack).
  destruct (psteps_advance ids may Hodd h h1 (si_pinv _ _ Hs) Hr) as (_ & _ & Ha).
  apply Ha in Hasks as (y & Hy & HyT & Hylog). pose proof Hsh as [Hxt Hxr Hxl Hxc].
  change (currentTerm r2) with (currentTerm r1) in Hxt. rewrite Hterm in Hxt.
  exists (h1 <| votes := (n, vTerm x, rvCandidateId req) :: votes h1 |>). split_and!; auto.
  - eapply rtc_r; [exact Hr|]. apply p_vote; [done| | |].
    + exists y. split; [done|]. lia.
    + rewrite Hvs, (si_votes _ _ Hs), Hxt. auto.
    + intros y' Hy' E1 E2 E3. simplify_eq. rewrite Hxt in *.
      apply Hfresh; [|auto]. destruct Hf2 as [? ? _ [_ ?] _ _]. by eapply unfolds_same.
  - exists x. split; [done|]. by destruct Hsh.
  - cbn. by rewrite Hvs, Hxt.
Qed.

Lemma sim_voted w h i dst req k rnd r r' res : sim w h → nodes w !! dst = Some r →
  tasks w !! i = Some (TCall dst (QVote req) k) → RequestVote rnd req r = (r', res) →
  vote_covers rnd req r = true →
  let w1 := set_node dst r' (finish i w) in
  ∃ h', rtc (pstep ids may) h h' ∧
  match res with
  | Ret resp => sim (spawn (answer k (AVote resp))
      (if rvrVoteGranted resp
       then w1 <| grants := (dst, rvTerm req, rvCandidateId req) :: grants w1 |> else w1)) h'
  | Fail _ => sim w1 h'
  | Panic => sim (crash dst r' w1) h'
  end.
Proof.
  intros Hs Hn Ht Hrv Hcov w1.
  pose proof (inv_voted _ _ Hok w i dst req k rnd r r' res (si_inv _ _ Hs) Hn Ht Hrv) as Hi.
  fold w1 in Hi. cbn zeta in Hi. pose proof (sim_task _ _ _ _ Hs Ht) as Hasks.
  pose proof (RequestVote_frame rnd req r) as Hf. pose proof (RequestVote_returns rnd req r) as Hnp.
  pose proof (RequestVote_peers rnd req r) as Hpe. pose proof (λ resp, vote_fresh rnd req r r' resp) as Hgr.
  rewrite Hrv in Hf, Hnp, Hpe, Hgr. cbn [fst snd] in Hf, Hnp, Hpe.
  assert (∀ h2 resp t, t ∈ tasks (spawn (answer k (AVote resp)) w1) →
    t ∈ tasks w ∨ sound h2 t) as Htk.
  { cbn. intros h2 resp t [?%task_kept|Ht']%elem_of_app; [by left|right].
    pose proof (vote_answered h2 k resp) as Ha. rewrite Forall_forall in Ha. auto. }
  apply RequestVote_cases in Hrv as [[Hq Hres]|(r1 & p & tm & Hq & Hr' & Hterm & _ & ->)].
  - pose proof (tracks_same h dst r r' Hq Hf Hpe) as Htr. destruct res as [resp|e|]; [| |done].
    + rewrite (Hres resp eq_refl) in *. eapply (sim_quiet w h _ dst r r'); eauto.
    + eapply (sim_quiet w h _ dst r r'); eauto. cbn. intros t ?%task_kept. by left.
  - cbn [rvrVoteGranted] in *. pose proof Hi as Hi'.
    destruct (vote_moves w h dst r req r' p tm r1) as (h' & Hr & Hv & Hx & Hvs & Hre & Hack); auto.
    { intros c Hc. eapply (inv_fun _ _ _ Hi' dst (rvTerm req)); cbn; [by right|by left]. }
    { intros l l' Hu Hc. eapply Hgr; eauto. apply (si_plain _ _ Hs dst). by left. }
    exists h'. split; [done|]. eapply (sim_set w h _ h' dst r r'); eauto.
    + cbn. by rewrite Hvs, (si_votes _ _ Hs).
    + intros T m. rewrite Hre. apply Hs.
    + eapply frame_plain; [|done]. apply (si_plain _ _ Hs dst). by left.
    + intros Hst.
      assert (quiet r (r' <| votedFor := votedFor r1 |>)) as Hq2
        by (etrans; [exact Hq|]; subst r'; quiet_solve).
      assert (tracks h dst r') as Htr.
      { destruct (tracks_same h dst r (r' <| votedFor := votedFor r1 |>) Hq2) as [? ?]; auto.
        - destruct Hf as [? ? ? ? ? Hw]; split; auto; intros Hw0; by wf_same (Hw Hw0).
        - apply (si_tracks _ _ Hs dst r Hn). destruct Hq2 as [_ _ [(_ & _ & <- & _)|(_ & _ & E)]]; [done|].
          cbn in E. congruence. 
        - by split. }
      destruct (psteps_advance ids may Hodd h h' (si_pinv _ _ Hs) Hr) as (_ & Hgh & _).
      by eapply tracks_grows.
    + intros msg. rewrite (fr_chan _ _ Hf). by left.
    + intros t Ht'. exact (Htk h' _ t Ht').
Qed.

(** *** AppendEntries requests *)

(** Where equal terms mean equal entries, Rule 4 keeps the log or replaces its
    tail by what the leader sent. *)
Lemma merge_entries_agree (old new : list LogEntry) :
  (∀ i a b, old !! i = Some a → new !! i = Some b → eTerm a = eTerm b →
     take (S i) old = take (S i) new) →
  merge_entries old new = if decide (new `prefix_of` old) then old else new.
Proof.
  revert old. induction new as [|e new IH]; intros old Hag.
  { cbn. rewrite decide_True by apply prefix_nil. by destruct old. }
  destruct old as [|o old]; cbn [merge_entries].
  { rewrite decide_False; [done|]. by intros [? [=]]. }
  destruct (Z.eqb_spec (eTerm o) (eTerm e)) as [E|E].
  - pose proof (Hag 0%nat o e eq_refl eq_refl E) as [= ->].
    rewrite IH.
    + destruct (decide (new `prefix_of` old)) as [Hp|Hp].
      * rewrite decide_True; [done|]. by apply prefix_cons.
      * rewrite decide_False; [done|]. by intros ?%prefix_cons_inv_2.
    + intros i a b Ha Hb Ht. by pose proof (Hag (S i) a b Ha Hb Ht) as [= ?].
  - rewrite decide_False; [done|]. intros Hp%prefix_cons_inv_1. congruence.
Qed.

(** Rule 4 on whole logs that agree up to [k]. *)
Lemma merge_adopts h (l L es : list LogEntry) k : matches h l → matches h L →
  take k l = take k L → es = take (length es) (drop k L) →
  take k l ++ merge_entries (drop k l) es = adopt (k + length es) L l.
Proof.
  intros Hm HmL Htk Hes. unfold adopt.
  assert (take (k + length es) L = take k l ++ es) as HL
    by (rewrite <- take_take_drop, <- Hes; by rewrite Htk).
  rewrite merge_entries_agree.
  - rewrite HL. assert (take k l ++ es `prefix_of` l ↔ es `prefix_of` drop k l) as Hiff.
    { split; [|intros Hp%(prefix_app (take k l)); by rewrite take_drop in Hp].
      intros Hp. rewrite <- (take_drop k l) in Hp at 2. by apply prefix_app_inv in Hp. }
    destruct (decide (es `prefix_of` drop k l)) as [Hp|Hp].
    + rewrite decide_True by by apply Hiff. apply take_drop.
    + rewrite decide_False; [done|]. by rewrite Hiff.
  - intros i a b Ha Hbb Ht. rewrite lookup_drop in Ha.
    assert (L !! (k + i)%nat = Some b) as HLb.
    { rewrite Hes in Hbb. apply lookup_take_Some in Hbb as [Hbb _]. by rewrite lookup_drop in Hbb. }
    pose proof (log_matching_at h l L (k + i) a b Hm HmL Ha HLb Ht) as E.
    apply (f_equal (drop k)) in E. rewrite !skipn_firstn_comm in E.
    replace (S (k + i) - k)%nat with (S i) in E by lia. rewrite E, Hes, take_take.
    f_equal. apply lookup_lt_Some in Hbb. lia.
Qed.

(** After the consistency check, the node and its leader agree up to the
    previous index. *)
Lemma consistent_agrees h l L r req : matches h l → matches h L → unfolds r l →
  wf r → ae_wf req → consistent req r = true →
  (0 < aePrevLogIndex req → ∃ e, L !! Z.to_nat (aePrevLogIndex req - 1) = Some e ∧
     eTerm e = aePrevLogTerm req) →
  take (Z.to_nat (aePrevLogIndex req)) l = take (Z.to_nat (aePrevLogIndex req)) L.
Proof.
  intros Hm HmL Hu Hwf Hreq Hc Hprev. pose proof (aw_prev _ Hreq) as Hp0.
  destruct (Z.eq_dec (aePrevLogIndex req) 0) as [->|E]; [done|].
  assert (0 < aePrevLogIndex req) as Hpos by lia. destruct (Hprev Hpos) as (e & He & Het).
  pose proof (consistent_range req r Hwf Hreq Hc Hpos) as Hrng. pose proof Hwf as [].
  pose proof (aw_bound _ Hreq). pose proof (len_nonneg (aeEntries req)).
  unfold consistent in Hc. rewrite (proj2 (Z.ltb_lt _ _)) in Hc by lia. revert Hc. unwrap.
  fold (entry_at r (aePrevLogIndex req)). rewrite (unfolds_entry r l) by (done || lia).
  destruct (l !! _) as [e'|] eqn:Hi; [|done]. intros Hc%Z.eqb_eq.
  replace (Z.to_nat (aePrevLogIndex req)) with (S (Z.to_nat (aePrevLogIndex req - 1))) by lia.
  eapply (log_matching_at h); eauto. congruence.
Qed.

(** ... and Rule 4 adopts the leader's log up to the last entry sent. *)
Lemma merged_adopts h l L r req F : matches h l → matches h L → l = F ++ log r →
  len F = logBase r → unfolds r l → wf r → ae_wf req → consistent req r = true →
  (aePrevLogIndex req < logBase r → aeEntries req = []) →
  aeEntries req = take (length (aeEntries req)) (drop (Z.to_nat (aePrevLogIndex req)) L) →
  (0 < aePrevLogIndex req → ∃ e, L !! Z.to_nat (aePrevLogIndex req - 1) = Some e ∧
     eTerm e = aePrevLogTerm req) →
  F ++ merged_log req r = adopt (Z.to_nat (aePrevLogIndex req + len (aeEntries req))) L l.
Proof.
  intros Hm HmL El HF Hu Hwf Hreq Hc Hlow Hes Hprev. pose proof (aw_prev _ Hreq) as Hp0.
  pose proof (consistent_agrees h l L r req Hm HmL Hu Hwf Hreq Hc Hprev) as Htk.
  replace (Z.to_nat (aePrevLogIndex req + len (aeEntries req)))
    with (Z.to_nat (aePrevLogIndex req) + length (aeEntries req))%nat by (unfold len; lia).
  destruct (Z.lt_ge_cases (aePrevLogIndex req) (logBase r)) as [Hlt|Hge].
  - pose proof (consistent_range req r Hwf Hreq Hc). unfold merged_log. rewrite (Hlow Hlt). cbn [length merge_entries].
    rewrite take_drop, <- El. replace (aePrevLogIndex req) with 0 by lia.
    unfold adopt. by rewrite decide_True by apply prefix_nil.
  - rewrite <- (merge_adopts h) by done. unfold merged_log. set (k := Z.to_nat (aePrevLogIndex req)).
    assert (length F ≤ k)%nat by (unfold len in HF; lia).
    replace (Z.to_nat (aePrevLogIndex req - logBase r)) with (k - length F)%nat by (unfold len in HF; lia).
    rewrite El, take_app_ge, drop_app_ge by done. by rewrite <- (assoc_L (++)).
Qed.

Lemma certified_take h T c l c' l' : certified ids h T c l → (c' ≤ c)%nat →
  take c' l' = take c' l → certified ids h T c' l'.
Proof.
  intros [->|(T1 & k & Hc & HT & Hk & E)] Hle Htk; [left; lia|right].
  exists T1, k. split_and!; auto; [lia|]. rewrite Htk.
  replace (take c' l) with (take c' (take c l)) by (rewrite take_take; f_equal; lia).
  rewrite E, take_take. f_equal. lia.
Qed.

(** The position up to which a request brings its receiver. *)
Definition reach (req : AppendEntriesRequest) : nat :=
  Z.to_nat (aePrevLogIndex req + len (aeEntries req)).

(** A follower takes over what it was sent. *)
Lemma accept_moves w h n r req rnd : sim w h → nodes w !! n = Some r → sound_append h n req →
  currentTerm r ≤ aeTerm req → consistent req r = true →
  (aePrevLogIndex req < logBase r → aeEntries req = []) →
  ∃ h' g x, rtc (pstep ids may) h h' ∧ (∀ m, m ≠ n → views h' !! m = views h !! m) ∧
    views h' !! n = Some x ∧ vTerm x = aeTerm req ∧ vRole x = state (ae_contact rnd req r) ∧
    vRole x ≠ Leader ∧ unfolds (r <| log := merged_log req r |>) (vLog x) ∧
    (settled = true → vCommit x = Z.to_nat (commitIndex r)) ∧
    votes h' = votes h ∧ reigns h' = reigns h ∧ acks h' = acks h ∧
    reigns h' !! aeTerm req = Some g ∧ (reach req ≤ length (gLog g))%nat ∧
    take (reach req) (gLog g) `prefix_of` vLog x.
Proof.
  intros Hs Hn [Hreq (g & Hg & Hgn & Hle & Hes & Hprev) _ _] Hterm Hc Hlow.
  destruct (ae_contact_quiet rnd req r Hterm) as [Hq Ht].
  pose proof (ae_contact_frame_all rnd req r) as Hf.
  destruct (quiet_moves w h n r _ Hs Hn Hq Hf) as (h1 & Hr & Hv & (x & Hx & [Hxt Hxr Hxl Hxc]) & Hvs & Hre & Hack).
  destruct (psteps_advance ids may Hodd h h1 (si_pinv _ _ Hs) Hr) as (Hp1 & _ & _).
  rewrite Ht in Hxt. rewrite (fr_commit _ _ Hf) in Hxc.
  assert (unfolds r (vLog x)) as Hu by (destruct Hf as [? ? _ [_ ?] _ _]; by eapply unfolds_same).
  pose proof Hu as (F & EF & HF & HFt).
  assert (reigns h1 !! vTerm x = Some g) as Hg1 by (by rewrite Hre, Hxt).
  assert (vRole x ≠ Leader) as Hnl.
  { intros E. destruct (pi_lead _ _ Hp1 n x Hx E) as (g' & Hg' & E' & _). congruence. }
  assert (plain r) as [Hwf _ _] by (apply (si_plain _ _ Hs n); by left).
  assert (reach req ≤ length (gLog g))%nat as Hrl by (unfold reach, len in *; lia).
  assert (F ++ merged_log req r = adopt (reach req) (gLog g) (vLog x)) as Hmg.
  { apply (merged_adopts h1); auto; [by apply (pi_log _ _ Hp1 n x)|by eapply matches_reign]. }
  eexists _, g, _. split_and!.
  - eapply rtc_r; [exact Hr|]. eapply (p_accept ids may h1 n x g (reach req)); auto.
  - intros m Hm. cbn. rewrite lookup_insert_ne by done. auto.
  - apply lookup_insert_eq.
  - done.
  - done.
  - done.
  - exists F. cbn. auto.
  - done.
  - done.
  - done.
  - done.
  - cbn. by rewrite Hre.
  - done.
  - cbn. unfold adopt. by case_decide.
Qed.
(** ... acknowledges it ... *)
Lemma ack_moves w h n r req rnd p : sim w h → nodes w !! n = Some r → sound_append h n req →
  currentTerm r ≤ aeTerm req → consistent req r = true →
  (aePrevLogIndex req < logBase r → aeEntries req = []) →
  let r' := follower_commit req
    ((ae_contact rnd req r) <| log := merged_log req r |> <| persister := p |>) in
  ∃ h', rtc (pstep ids may) h h' ∧ (∀ m, m ≠ n → views h' !! m = views h !! m) ∧
    (∃ x, views h' !! n = Some x ∧ shows r' (state r') x) ∧ state r' ≠ Leader ∧
    votes h' = votes h ∧ reigns h' = reigns h ∧ acks h' = (n, aeTerm req, reach req) :: acks h.
Proof.
  intros Hs Hn Hsa Hterm Hc Hlow r'. pose proof Hsa as [Hreq _ _ Hcert].
  destruct (accept_moves w h n r req rnd) as
    (h1 & g & x & Hr & Hv & Hx & Hxt & Hxr & Hnl & Hxl & Hxc & Hvs & Hre & Hack & Hg & Hrl & Hpre); auto.
  set (h2 := h1 <| acks := (n, vTerm x, reach req) :: acks h1 |>).
  assert (rtc (pstep ids may) h h2) as Hr2.
  { eapply rtc_r; [exact Hr|]. apply (p_ack ids may h1 n x g); auto. by rewrite Hxt. }
  destruct (psteps_advance ids may Hodd h h2 (si_pinv _ _ Hs) Hr2) as (Hp2 & Hg2 & _).
  destruct (follower_commit_spec req
    ((ae_contact rnd req r) <| log := merged_log req r |> <| persister := p |>) Hreq)
    as (Hci & Hlog & _ & _ & _ & Htm). fold r' in Hci, Hlog, Htm. cbn in Hci, Hlog, Htm.
  destruct (ae_contact_quiet rnd req r Hterm) as [_ Ht]. rewrite Ht in Htm.
  pose proof (ae_contact_frame_all rnd req r) as Hf. rewrite (fr_commit _ _ Hf) in Hci.
  assert (state r' = state (ae_contact rnd req r)) as Hst
    by (unfold r', follower_commit; by case_match).
  assert (unfolds r' (vLog x)) as Hu.
  { revert Hxl. apply unfolds_same; [done|..];
      unfold r', follower_commit; case_match; cbn; apply Hf. }
  clearbody r'. destruct settled eqn:Hset.
  - set (c := Z.to_nat (commitIndex r')).
    destruct (pi_commit _ _ Hp2 n x Hx) as [Hcl Hce].
    pose proof (prefix_length _ _ Hpre) as Hpl. rewrite length_take in Hpl.
    assert (rtc (pstep ids may) h (set_view n (mkView (vTerm x) (vRole x) (vLog x) c) h2)) as Hr3.
    { eapply rtc_r; [exact Hr2|]. apply (p_commit ids may h2 n x c); [done| |].
      - subst c. rewrite Hci. rewrite (Hxc eq_refl) in Hcl. unfold reach in *. lia.
      - destruct (Z.le_gt_cases (commitIndex r') (commitIndex r)) as [Hle|Hgt].
        + replace c with (vCommit x); [done|]. rewrite (Hxc eq_refl). subst c. f_equal. lia.
        + assert (commitIndex r' =
            Z.min (aeLeaderCommit req) (aePrevLogIndex req + len (aeEntries req))) as Hcm by lia.
          destruct (cert_grows h h2 Hg2 _ _ Hcert Hset) as (g' & Hg' & Hlc & Hce').
          change (reigns h2) with (reigns h1) in Hg'. rewrite Hg in Hg'. injection Hg' as <-.
          rewrite Hxt. eapply certified_take; [exact Hce'|subst c; lia|].
          assert (c ≤ reach req)%nat as Hcr by (unfold c, reach; lia).
          destruct Hpre as [z ->]. rewrite take_app_le by (rewrite length_take; lia).
          rewrite take_take. f_equal. lia. }
    eexists. split; [exact Hr3|]. split_and!; cbn; auto; [| |congruence|by rewrite Hxt, Hack].
    + intros m Hm. rewrite lookup_insert_ne by done. auto.
    + eexists. split; [apply lookup_insert_eq|]. split; cbn; congruence || done.
  - exists h2. split; [done|]. split_and!; cbn; auto; [|congruence|by rewrite Hxt, Hack].
    exists x. split; [done|]. split; cbn; congruence || done.
Qed.

Lemma plain_merged w h n r req rnd p : sim w h → nodes w !! n = Some r → sound_append h n req →
  consistent req r = true → (aePrevLogIndex req < logBase r → aeEntries req = []) →
  plain ((ae_contact rnd req r) <| log := merged_log req r |> <| persister := p |>).
Proof.
  intros Hs Hn [Hreq _ Hbd _] Hc Hlow.
  assert (plain r) as [Hwf Hb Hlen] by (apply (si_plain _ _ Hs n); by left).
  pose proof (ae_contact_frame_all rnd req r) as [_ Hbc _ _ _ Hwc].
  destruct (merged_log_contiguous req r) as (_ & _ & Hml); auto.
  split; [by apply wf_merged; auto|by cbn; rewrite Hbc|]. unfold last_index in *. cbn. rewrite Hbc. lia.
Qed.

Lemma append_answered h dst req k resp : sound h (TCall dst (QAppend req) k) →
  (aerSuccess resp = true → (dst, aeTerm req, reach req) ∈ acks h) →
  Forall (sound h) (answer k (AAppend resp)).
Proof.
  intros [[Hreq _ Hbd Hc] Hk] Hack. destruct k as [[|n id T c prev m|]|]; try done;
    apply Forall_singleton; try done. destruct Hk as (-> & Hne & -> & -> & -> & ->).
  cbn. pose proof (aw_prev _ Hreq). pose proof (len_nonneg (aeEntries req)).
  split_and!; auto. lia.
Qed.

Lemma sim_appended w h i dst req k rnd r r' res : sim w h → nodes w !! dst = Some r →
  tasks w !! i = Some (TCall dst (QAppend req) k) → AppendEntries rnd req r = (r', res) →
  let w' := match res with
    | Ret resp => spawn (answer k (AAppend resp)) (set_node dst r' (finish i w))
    | _ => set_node dst r' (finish i w)
    end in
  inv ids cfgs w' → ∃ h', rtc (pstep ids may) h h' ∧ sim w' h'.
Proof.
  intros Hs Hn Ht HA w' Hi. pose proof (sim_task _ _ _ _ Hs Ht) as Hso.
  pose proof Hso as [Hsa _]. pose proof Hsa as [Hreq _ _ _]. pose proof (aw_prev _ Hreq) as Hp0.
  assert (plain r) as Hpl by (apply (si_plain _ _ Hs dst); by left).
  assert (∀ h2, grows h h2 → (∀ c T li lt, asks h c T li lt → asks h2 c T li lt) →
    (∀ resp, res = Ret resp → aerSuccess resp = true → (dst, aeTerm req, reach req) ∈ acks h2) →
    ∀ t, t ∈ tasks w' → t ∈ tasks w ∨ sound h2 t) as Htk.
  { intros h2 Hg Ha Hack t Ht'. destruct res as [resp|e|]; [|left; exact (task_kept w i t Ht')..].
    apply elem_of_app in Ht' as [?%task_kept|Ht']; [by left|right].
    pose proof (append_answered h2 dst req k resp (sound_grows h h2 Hg _ Ha Hso) (Hack resp eq_refl)) as HF.
    rewrite Forall_forall in HF. auto. }
  assert (nodes w' = <[dst := r']> (nodes w) ∧ down w' = down w ∧ grants w' = grants w ∧
    elected w' = elected w) as (Hw1 & Hw2 & Hw3 & Hw4) by (subst w'; by destruct res).
  assert (quiet r r' → frame r r' → peers r' = peers r → (∀ resp, res = Ret resp → aerSuccess resp = false) →
    ∃ h', rtc (pstep ids may) h h' ∧ sim w' h') as Hquiet.
  { intros Hq Hf Hpe Hno. eapply (sim_quiet w h w' dst r r'); eauto.
    - by apply tracks_same.
    - apply Htk; [reflexivity|done|]. intros resp E E'. rewrite (Hno resp E) in E'. done. }
  pose proof (AppendEntries_outcome rnd req r (pl_wf _ Hpl) Hreq) as Ho. rewrite HA in Ho. cbn [fst snd] in Ho.
  assert (peers (ae_contact rnd req r) = peers r) as Hpc
    by (by destruct (ae_contact_inv rnd req r) as (?&?&?&?&?&->)).
  destruct Ho as [Hlt|Hle Hc|Hle Hc _ _|p e Hle Hc Hlow Hsv|p Hle Hc Hlow Hsv].
  - apply Hquiet; try done. by intros ? [= <-].
  - apply Hquiet; [by apply ae_contact_quiet|apply ae_contact_frame_all|done|by intros ? [= <-]].
  - apply Hquiet; [by apply ae_contact_quiet|apply ae_contact_frame_all|done|done].
  - destruct (accept_moves w h dst r req rnd) as
      (h' & g & x & Hr & Hv & Hx & Hxt & Hxr & Hnl & Hxl & Hxc & Hvs & Hre & Hack & _); auto.
    destruct (psteps_advance ids may Hodd h h' (si_pinv _ _ Hs) Hr) as (_ & Hg & Ha).
    pose proof (ae_contact_frame_all rnd req r) as Hf.
    exists h'. split; [done|]. eapply (sim_moved w h w' h' dst r); eauto.
    + exists x. split; [done|]. split; cbn; auto.
      * rewrite Hxt. by destruct (ae_contact_quiet rnd req r Hle) as [_ ->].
      * revert Hxl. apply unfolds_same; cbn; apply Hf || done.
      * by rewrite (fr_commit _ _ Hf).
    + cbn. congruence.
    + by eapply plain_merged.
    + cbn. rewrite (fr_chan _ _ Hf). auto.
    + apply Htk; auto. by intros ? [=].
  - destruct (ack_moves w h dst r req rnd p) as (h' & Hr & Hv & Hx & Hnl & Hvs & Hre & Hack); auto.
    destruct (psteps_advance ids may Hodd h h' (si_pinv _ _ Hs) Hr) as (_ & Hg & Ha).
    exists h'. split; [done|]. eapply (sim_moved w h w' h' dst r); eauto.
    + pose proof (plain_merged w h dst r req rnd p Hs Hn Hsa Hc Hlow) as [Hw Hb Hl].
      destruct (follower_commit_spec req ((ae_contact rnd req r) <| log := merged_log req r |>
        <| persister := p |>) Hreq) as (_ & El & Eb & _).
      split; unfold last_index in *; rewrite ?El, ?Eb; auto using wf_follower_commit.
    + intros msg. replace (applyCh (follower_commit _ _)) with (applyCh r); [by left|].
      rewrite <- (fr_chan _ _ (ae_contact_frame_all rnd req r)).
      unfold follower_commit. by destruct (_ <? _).
    + apply Htk; auto. intros _ _ _. rewrite Hack. by left.
Qed.

(** *** Snapshots *)

(** The end of a committed snapshot. *)
Lemma snapshot_agreed h T c l i d e : folding = true → certified ids h T c l → 0 < i →
  (Z.to_nat i ≤ c)%nat → l !! Z.to_nat (i - 1) = Some e → agreed h (snapshot_msg d i (eTerm e)).
Proof.
  intros Hf Hc Hi Hle He.
  destruct (certified_entry h T c l (Z.to_nat (i - 1)) e) as (T1 & k & ? & ? & ?); auto; [lia|].
  exists T1, k, (Z.to_nat (i - 1)), e. split_and!; auto. right. split; [done|]. exists d. f_equal. lia.
Qed.

(** A snapshot that is not refused takes the place of the leader's log up to
    its end. *)
Lemma installed_adopts h l g r req : pinv ids h → matches h l → reigns h !! isTerm req = Some g →
  unfolds r l → wf r → commitIndex r < isLastIncludedIndex req < 2 ^ 62 → diverges req r = false →
  isLastIncludedIndex req ≤ len (gLog g) →
  (∃ e, gLog g !! Z.to_nat (isLastIncludedIndex req - 1) = Some e ∧ eTerm e = isLastIncludedTerm req) →
  unfolds (installed req r) (adopt (Z.to_nat (isLastIncludedIndex req)) (gLog g) l) ∧
  take (Z.to_nat (isLastIncludedIndex req)) (adopt (Z.to_nat (isLastIncludedIndex req)) (gLog g) l) =
  take (Z.to_nat (isLastIncludedIndex req)) (gLog g).
Proof.
  intros Hp Hm Hg Hu Hwf Hlt Hdv Hle (e & He & Het). pose proof Hwf as [].
  set (i := isLastIncludedIndex req) in *. set (k := Z.to_nat i).
  pose proof (unfolds_len _ _ Hu) as Hlen.
  assert (∀ z : list LogEntry, take k z `prefix_of` z) as Hpre by (intros; apply prefix_take).
  assert (length (take k (gLog g)) = k) as Hlk by (rewrite length_take; unfold len in Hle; lia).
  assert (last_term (take k (gLog g)) = isLastIncludedTerm req) as Hlt'.
  { unfold last_term. rewrite last_lookup, Hlk, lookup_take_lt by lia.
    replace (pred k) with (Z.to_nat (i - 1)) by lia. by rewrite He. }
  assert (log (installed req r) = drop k l) as Hlog.
  { rewrite installed_log by (done || lia). destruct Hu as (F & -> & HF & _). unfold len in HF.
    rewrite drop_app_ge by lia. f_equal. fold i. lia. }
  unfold adopt. destruct (decide (i ≤ last_index r)) as [Hin|Hout].
  - destruct (proj2 (entry_at_Some r i)) as [e' He']; [lia|].
    assert (eTerm e' = isLastIncludedTerm req) as Ht'.
    { unfold diverges in Hdv. fold i in Hdv. unfold entry_at in He'. revert Hdv. unwrap. rewrite He'.
      rewrite (wf_contig _ _ He'). replace (logBase r + (i - logBase r - 1) + 1) with i by lia.
      rewrite Z.eqb_refl. cbn [andb]. intros E%negb_false_iff%Z.eqb_eq. done. }
    rewrite (unfolds_entry r l) in He' by (done || lia).
    pose proof (log_matching_at h l (gLog g) _ e' e Hm (matches_reign ids h Hp _ _ Hg) He' He ltac:(congruence)) as E.
    replace (S (Z.to_nat (i - 1))) with k in E by lia.
    rewrite decide_True by (rewrite <- E; apply prefix_take). split; [|done].
    exists (take k l). rewrite Hlog, take_drop. split; [done|]. rewrite E.
    unfold len. rewrite Hlk. cbn. fold i. split; [lia|done].
  - rewrite decide_False.
    2:{ intros Hpf%prefix_length. rewrite Hlk in Hpf. unfold len in Hlen. lia. }
    rewrite take_take, Nat.min_id. split; [|done]. exists (take k (gLog g)).
    rewrite Hlog, drop_ge, app_nil_r by (unfold len in Hlen; lia). split; [done|].
    unfold len. rewrite Hlk. cbn. fold i. split; [lia|done].
Qed.

(** A follower takes over what a snapshot stands for ... *)
Lemma install_accepts w h n r req rnd : sim w h → nodes w !! n = Some r →
  sound_snapshot h n req → currentTerm r ≤ isTerm req → commitIndex r < isLastIncludedIndex req →
  diverges req r = false →
  let rc := is_contact rnd req r in
  ∃ h' g x, rtc (pstep ids may) h h' ∧ (∀ m, m ≠ n → views h' !! m = views h !! m) ∧
    views h' !! n = Some x ∧ vTerm x = isTerm req ∧ vRole x = state rc ∧ vRole x ≠ Leader ∧
    unfolds (installed req rc) (vLog x) ∧ len (vLog x) < 2 ^ 61 ∧
    votes h' = votes h ∧ reigns h' = reigns h ∧ reigns h' !! isTerm req = Some g ∧
    take (Z.to_nat (isLastIncludedIndex req)) (vLog x) =
    take (Z.to_nat (isLastIncludedIndex req)) (gLog g).
Proof.
  intros Hs Hn [Hbd (g & Hg & Hgn & Hle & Hprev) _] Hterm Hlt Hdv rc.
  pose proof (is_contact_quiet rnd req r Hterm) as Hq. pose proof (is_contact_term rnd req r Hterm) as Ht.
  pose proof (is_contact_frame_all rnd req r) as Hf. fold rc in Hq, Ht, Hf. clearbody rc.
  assert (plain rc) as [Hwf _ Hlen] by (eapply frame_plain; [|done]; apply (si_plain _ _ Hs n); by left).
  destruct (quiet_moves w h n r rc Hs Hn Hq Hf) as (h1 & Hr & Hv & (x & Hx & [Hxt Hxr Hxl Hxc]) & Hvs & Hre & Hack).
  destruct (psteps_advance ids may Hodd h h1 (si_pinv _ _ Hs) Hr) as (Hp1 & Hg1 & _).
  rewrite Ht in Hxt. rewrite <- Hre in Hg.
  assert (vRole x ≠ Leader) as Hnl.
  { intros E. destruct (pi_lead _ _ Hp1 n x Hx E) as (g' & Hg' & E' & _). congruence. }
  destruct (installed_adopts h1 (vLog x) g rc req) as [Hu Htk]; auto.
  { by apply (pi_log _ _ Hp1 n x). }
  { rewrite (fr_commit _ _ Hf). lia. }
  { unfold diverges. by rewrite (fr_log _ _ Hf), (fr_base _ _ Hf). }
  { apply Hprev. destruct Hwf. rewrite (fr_commit _ _ Hf) in *. lia. }
  eexists _, g, _. split_and!.
  - eapply rtc_r; [exact Hr|]. eapply (p_accept ids may h1 n x g (Z.to_nat (isLastIncludedIndex req))); auto;
      [by rewrite Hxt|]. unfold len in Hle. lia.
  - intros m Hm. cbn. rewrite lookup_insert_ne by done. auto.
  - apply lookup_insert_eq.
  - done.
  - done.
  - done.
  - done.
  - cbn. pose proof (unfolds_len _ _ Hxl). unfold adopt. case_decide; [lia|].
    unfold len. rewrite length_take. lia.
  - done.
  - done.
  - done.
  - done.
Qed.

(** ... and holds it committed. *)
Lemma install_moves w h n r req rnd p ch : sim w h → nodes w !! n = Some r → folding = true →
  sound_snapshot h n req → currentTerm r ≤ isTerm req → commitIndex r < isLastIncludedIndex req →
  diverges req r = false →
  let r' := (installed req (is_contact rnd req r)) <| persister := p |> <| applyCh := ch |> in
  ∃ h', rtc (pstep ids may) h h' ∧ (∀ m, m ≠ n → views h' !! m = views h !! m) ∧
    (∃ x, views h' !! n = Some x ∧ shows r' (state r') x) ∧ state r' ≠ Leader ∧ plain r' ∧
    votes h' = votes h ∧ reigns h' = reigns h ∧
    (settled = true → agreed h' (snapshot_msg (isData req) (isLastIncludedIndex req)
                                   (isLastIncludedTerm req))).
Proof.
  intros Hs Hn Hfo Hsn Hterm Hlt Hdv r'. pose proof Hsn as [Hbd (g0 & Hg0 & _ & Hle & Hprev) Hcert].
  destruct (install_accepts w h n r req rnd) as
    (h1 & g & x & Hr & Hv & Hx & Hxt & Hxr & Hnl & Hu & Hlen & Hvs & Hre & Hg & Htk); auto.
  rewrite <- Hre, Hg in Hg0. injection Hg0 as <-.
  destruct (psteps_advance ids may Hodd h h1 (si_pinv _ _ Hs) Hr) as (Hp1 & Hg1 & _).
  pose proof (wf_is_contact rnd req r (pl_wf _ (si_plain _ _ Hs n r (or_introl Hn)))) as Hwf.
  pose proof (is_contact_frame_all rnd req r) as Hf. pose proof (is_contact_term rnd req r Hterm) as Ht.
  assert (wf r') as Hwf'.
  { apply wf_applyCh, wf_persister, wf_installed; [done|]. rewrite (fr_commit _ _ Hf). lia. }
  assert (0 < isLastIncludedIndex req) as Hpos by (destruct Hwf; rewrite (fr_commit _ _ Hf) in *; lia).
  apply (unfolds_store _ p ch) in Hu. fold r' in Hu.
  assert (currentTerm r' = isTerm req ∧ state r' = state (is_contact rnd req r) ∧
    commitIndex r' = isLastIncludedIndex req) as (Ht' & Hst' & Hci') by (rewrite <- Ht at 1; done).
  clearbody r'. assert (plain r') as Hpl
    by (split; [done|by rewrite Hfo|]; by rewrite <- (unfolds_len r' (vLog x))).
  set (k := Z.to_nat (isLastIncludedIndex req)) in *. destruct settled eqn:Hset.
  - destruct (cert_grows h h1 Hg1 _ _ Hcert Hset) as (g' & Hg' & Hlc & Hce).
    rewrite Hg in Hg'. injection Hg' as <-. fold k in Hce.
    pose proof (f_equal length Htk) as Hll. rewrite !length_take in Hll.
    assert (rtc (pstep ids may) h (set_view n (mkView (vTerm x) (vRole x) (vLog x) k) h1)) as Hr3.
    { eapply rtc_r; [exact Hr|]. apply (p_commit ids may h1 n x k); [done|unfold len in *; lia|].
      rewrite Hxt. eapply certified_take; [exact Hce|done|done]. }
    eexists. split; [exact Hr3|]. split_and!; cbn; auto; [..|congruence|].
    + intros m Hm. rewrite lookup_insert_ne by done. auto.
    + eexists. split; [apply lookup_insert_eq|]. split; cbn; congruence || auto. by rewrite Hci'.
    + intros _. destruct (Hprev Hpos) as (e & He & <-).
      eapply (snapshot_agreed _ (isTerm req) k (gLog g)); auto; done.
  - exists h1. split; [done|]. split_and!; auto; [|congruence|done].
    exists x. split; [done|]. split; auto; congruence.
Qed.

Lemma sim_installed w h i dst req k rnd r r' res : sim w h → nodes w !! dst = Some r →
  tasks w !! i = Some (TCall dst (QSnapshot req) k) → InstallSnapshot rnd req r = (r', res) →
  let w' := match res with
    | Ret resp => spawn (answer k (ASnapshot resp)) (set_node dst r' (finish i w))
    | _ => set_node dst r' (finish i w)
    end in
  inv ids cfgs w' → ∃ h', rtc (pstep ids may) h h' ∧ sim w' h'.
Proof.
  intros Hs Hn Ht HA w' Hi. pose proof (sim_task _ _ _ _ Hs Ht) as Hso.
  pose proof Hso as (Hfo & Hsn & _).
  assert (∀ h2, sound h2 (TCall dst (QSnapshot req) k) → ∀ t, t ∈ tasks w' → t ∈ tasks w ∨ sound h2 t) as Htk.
  { intros h2 (_ & [Hb _ Hc] & Hk) t Ht'. destruct res as [resp|e|]; [|left; exact (task_kept w i t Ht')..].
    apply elem_of_app in Ht' as [?%task_kept|Ht']; [by left|right].
    destruct k as [[]|]; cbn in Ht'; try by apply elem_of_nil in Ht'.
    all: apply list_elem_of_singleton in Ht' as ->; try done.
    destruct Hk as (? & -> & ->). cbn. auto. }
  assert (nodes w' = <[dst := r']> (nodes w) ∧ down w' = down w ∧ grants w' = grants w ∧
    elected w' = elected w) as (Hw1 & Hw2 & Hw3 & Hw4) by (subst w'; by destruct res).
  assert (quiet r r' → frame r r' → peers r' = peers r → ∃ h', rtc (pstep ids may) h h' ∧ sim w' h') as Hquiet.
  { intros Hq Hf Hpe. eapply (sim_quiet w h w' dst r r'); eauto. by apply tracks_same. }
  pose proof (InstallSnapshot_inv rnd req r) as Ho. rewrite HA in Ho. cbn [fst] in Ho. cbv zeta in Ho.
  destruct Ho as [->|[[Hle ->]|(Hle & Hlt & p & ch & -> & Hdv & Hch)]].
  - by apply Hquiet.
  - apply Hquiet; [by apply is_contact_quiet|apply is_contact_frame_all|].
    unfold is_contact. node_inv. by branch.
  - destruct (install_moves w h dst r req rnd p ch) as
      (h' & Hr & Hv & Hx & Hnl & Hpl & Hvs & Hre & Hag); auto.
    destruct (psteps_advance ids may Hodd h h' (si_pinv _ _ Hs) Hr) as (_ & Hg & Ha).
    exists h'. split; [done|]. eapply (sim_moved w h w' h' dst r); eauto.
    + intros msg Hm. change (msg ∈ ch) in Hm. destruct Hch as [->| ->]; [by left|].
      apply elem_of_app in Hm as [Hm|Hm%list_elem_of_singleton]; [by left|right]. by subst msg.
    + apply Htk. by apply (sound_grows h).
Qed.

(** *** Crashes and requests *)

Lemma orphan_sound h n t t' : orphan n t = Some t' → sound h t → sound h t'.
Proof.
  destruct t as [? ?|dst q [k|]|k a|? ?|?|? ?]; cbn; intros Ho; try case_decide; simplify_eq; auto.
  destruct q; cbn; [done|by intros [? _]|]. intros (? & ? & _). auto.
Qed.

Lemma sim_crash w h n r : sim w h → nodes w !! n = Some r → inv ids cfgs (crash n r w) →
  ∃ h', rtc (pstep ids may) h h' ∧ sim (crash n r w) h'.
Proof.
  intros Hs Hn Hi. destruct (si_up _ _ Hs n r Hn) as (x & Hx & [Hxt Hxr Hxl Hxc]).
  set (h' := set_view n (mkView (vTerm x) Follower (vLog x) (vCommit x)) h).
  assert (rtc (pstep ids may) h h') as Hr by (apply rtc_once; by apply p_follow).
  destruct (psteps_advance ids may Hodd h h' (si_pinv _ _ Hs) Hr) as (Hp & Hg & Ha).
  exists h'. split; [done|]. split; auto; try apply Hs.
  - cbn. intros m y [Hm Hy]%lookup_delete_Some. rewrite lookup_insert_ne by done. by apply (si_up _ _ Hs).
  - cbn. intros m y [[<- <-]|[Hm Hy]]%lookup_insert_Some.
    + eexists. split; [apply lookup_insert_eq|]. by split.
    + rewrite lookup_insert_ne by done. by apply (si_down _ _ Hs).
  - intros m y Hk. apply (si_plain _ _ Hs m). by eapply known_crash.
  - cbn. intros m y [Hm Hy]%lookup_delete_Some Hst. eapply tracks_grows; [done|]. by apply (si_tracks _ _ Hs).
  - cbn. intros m y msg [Hm Hy]%lookup_delete_Some Hmsg Hse. eapply agreed_grows; [done|].
    by eapply (si_chan _ _ Hs).
  - cbn. apply Forall_forall. intros t (t0 & Ht0 & Ho)%list_elem_of_omap.
    pose proof (si_tasks _ _ Hs) as HF. rewrite Forall_forall in HF.
    eapply orphan_sound; [exact Ho|]. apply (sound_grows h); auto.
Qed.

Lemma sim_deliver w h i rnd w' : sim w h → deliver i rnd w = Some w' →
  steady_event w (Deliver i rnd) = true → inv ids cfgs w' →
  ∃ h', rtc (pstep ids may) h h' ∧ sim w' h'.
Proof.
  intros Hs Hst [_ Hside]%andb_true_iff Hi. unfold deliver in Hst.
  destruct (tasks w !! i) as [[|dst q k| | | |]|] eqn:Ht; try done.
  destruct (nodes w !! dst) as [r|] eqn:Hn; [|done]. cbn [mbind option_bind] in Hst.
  assert (∀ r' h1, rtc (pstep ids may) h h1 → sim (set_node dst r' (finish i w)) h1 →
    inv ids cfgs (crash dst r' (set_node dst r' (finish i w))) →
    ∃ h', rtc (pstep ids may) h h' ∧ sim (crash dst r' (set_node dst r' (finish i w))) h') as Hcrash.
  { intros r' h1 Hr1 Hs1 Hi1. destruct (sim_crash _ h1 dst r' Hs1) as (h2 & Hr2 & Hs2); auto.
    - apply lookup_insert_eq.
    - exists h2. split; [by etrans|done]. }
  assert (∀ r', quiet r r' → inv ids cfgs (set_node dst r' (finish i w))) as Hinv.
  { intros r' Hq. eapply inv_quiet; eauto. eapply inv_finish; eauto. apply Hs. }
  destruct q as [req|req|req].
  - destruct (RequestVote rnd req r) as [r' res] eqn:Hrv.
    destruct (sim_voted w h i dst req k rnd r r' res Hs Hn Ht Hrv Hside) as (h' & Hr & Hs').
    exists h'. split; [done|]. by destruct res; injection Hst as <-.
  - pose proof (AppendEntries_quiet rnd req r) as Hq.
    destruct (AppendEntries rnd req r) as [r' res] eqn:HA.
    pose proof (sim_appended w h i dst req k rnd r r' res Hs Hn Ht HA) as Hsim.
    destruct res as [resp|e|]; injection Hst as <-; [by apply Hsim..|].
    destruct Hsim as (h1 & Hr1 & Hs1); [by apply Hinv|]. by eapply Hcrash.
  - pose proof (InstallSnapshot_quiet rnd req r) as Hq.
    destruct (InstallSnapshot rnd req r) as [r' res] eqn:HA.
    pose proof (sim_installed w h i dst req k rnd r r' res Hs Hn Ht HA) as Hsim.
    destruct res as [resp|e|]; injection Hst as <-; [by apply Hsim..|].
    destruct Hsim as (h1 & Hr1 & Hs1); [by apply Hinv|]. by eapply Hcrash.
Qed.

(** *** The leader's commit index *)

(** The nodes the leader counts for index [k]. *)
Definition holders (n k : Z) r : list Z :=
  n :: (map_to_list (filter (λ kp, k ≤ matchIndex kp.2) (peers r))).*1.

Lemma holders_spec n k r v : v ∈ holders n k r →
  v = n ∨ ∃ p, peers r !! v = Some p ∧ k ≤ matchIndex p.
Proof.
  unfold holders. rewrite elem_of_cons, list_elem_of_fmap. intros [?|([v' p] & -> & Hv)]; [by left|right].
  apply elem_of_map_to_list, map_lookup_filter_Some in Hv as [? ?]. eauto.
Qed.

Lemma holders_commit n k r : n ∈ ids → dom (peers r) = ids ∖ {[n]} → majority r k →
  commits ids (holders n k r).
Proof.
  intros Hn Hd Hm. split_and!.
  - apply NoDup_cons. split; [|apply NoDup_fst_map_to_list].
    rewrite list_elem_of_fmap. intros ([v p] & -> & Hv). cbn in *.
    apply elem_of_map_to_list, map_lookup_filter_Some_1_1, elem_of_dom_2 in Hv.
    rewrite Hd in Hv. apply elem_of_difference in Hv as [_ Hv]. by apply Hv, elem_of_singleton.
  - intros v [->|(p & Hp%elem_of_dom_2 & _)]%holders_spec; [done|].
    rewrite Hd in Hp. by apply elem_of_difference in Hp as [? _].
  - unfold majority, replicas, GetPeerCount in Hm. unfold holders. rewrite len_cons. unfold len.
    rewrite length_fmap, length_map_to_list.
    assert (size (peers r) = size ids - 1)%nat as E.
    { rewrite <- size_dom, Hd, size_difference by by apply singleton_subseteq_l.
      by rewrite size_singleton. }
    lia.
Qed.

Lemma updateCommitIndex_plain r : plain r → plain (updateCommitIndex r).
Proof.
  intros [Hw ? ?]. pose proof (updateCommitIndex_wf r Hw) as Hw'. revert Hw'.
  destruct (updateCommitIndex_inv r) as (k & c & -> & _). by split.
Qed.

Lemma updateCommitIndex_tracks h n r : tracks h n r → tracks h n (updateCommitIndex r).
Proof. destruct (updateCommitIndex_inv r) as (k & c & -> & _). by intros []. Qed.

Lemma commit_moves h n r x : pinv ids h → views h !! n = Some x → shows r Leader x →
  state r = Leader → tracks h n r → plain r → n ∈ ids → dom (peers r) = ids ∖ {[n]} →
  ∃ h', rtc (pstep ids may) h h' ∧ (∀ m, m ≠ n → views h' !! m = views h !! m) ∧
    (∃ x', views h' !! n = Some x' ∧ shows (updateCommitIndex r) Leader x') ∧
    votes h' = votes h ∧ reigns h' = reigns h ∧ acks h' = acks h.
Proof.
  intros Hp Hx [Hxt Hxr Hxl Hxc] Hst [Hself Hpeer] [Hwf _ _] Hn Hd.
  assert (shows (updateCommitIndex r) Leader x →
    ∃ h', rtc (pstep ids may) h h' ∧ (∀ m, m ≠ n → views h' !! m = views h !! m) ∧
    (∃ x', views h' !! n = Some x' ∧ shows (updateCommitIndex r) Leader x') ∧
    votes h' = votes h ∧ reigns h' = reigns h ∧ acks h' = acks h) as Hstay.
  { intros ?. exists h. split_and!; eauto; done. }
  destruct (decide (settled = true)) as [Hset|Hset];
    [|apply Hstay; destruct (updateCommitIndex_inv r) as (k & c & -> & _); split; auto; congruence].
  destruct (updateCommitIndex_spec r Hwf Hst) as [(k & e & Hk & Hmaj & _ & He & Hu)|[_ Hu]];
    [|apply Hstay; rewrite Hu; by split].
  revert Hu. destruct (Z.eqb_spec (eTerm e) (currentTerm r)) as [Het|]; intros Hu;
    [|apply Hstay; rewrite Hu; by split].
  destruct (pi_lead _ _ Hp n x Hx Hxr) as (g & Hg & _ & Hgl).
  destruct Hwf as [_ Hb0 _ _ Happ Hcm _]. pose proof (unfolds_len _ _ Hxl) as Hlen.
  rewrite (unfolds_entry r (vLog x)) in He by (done || lia).
  assert (reign_log h (vTerm x) = vLog x) as Hrl by (by rewrite (reign_log_Some _ _ _ Hg)).
  set (x' := mkView (vTerm x) (vRole x) (vLog x) (Z.to_nat k)).
  exists (set_view n x' h). split_and!; try done.
  - apply rtc_once. apply p_commit; [done|unfold len in Hlen; lia|].
    assert ((∀ v, v ∈ holders n k r → acked h v (vTerm x) (Z.to_nat (k - 1))) ∨
      cert h (currentTerm r) k) as [Hall|Hce].
    { apply all_or. intros v [->|(p & Hv & Hkp)]%holders_spec.
      - left. exists (Z.to_nat (last_index r)). rewrite Hxt. split; [done|lia].
      - destruct (Hpeer v p Hv) as (_ & _ & [Ha|Ha]); [lia|left|right].
        + exists (Z.to_nat (matchIndex p)). rewrite Hxt. split; [done|lia].
        + apply (cert_le h _ (matchIndex p)); [done|lia]. }
    2:{ destruct (Hce Hset) as (g' & Hg' & _ & Hce'). rewrite <- Hxt, Hg in Hg'. injection Hg' as <-.
      by rewrite Hxt, <- Hgl. }
    right. exists (vTerm x), (Z.to_nat (k - 1)).
    split_and!; [|lia|lia|by rewrite Hrl]. split.
    + exists e. rewrite Hrl, Hxt. done.
    + exists (holders n k r). split; [by apply holders_commit|done].
  - intros m Hm. cbn. by rewrite lookup_insert_ne.
  - exists x'. split; [apply lookup_insert_eq|]. rewrite Hu. by split.
Qed.

(** A leader has learnt of an acknowledgement, or has appended an entry; then
    it updates its commit index. *)
Lemma sim_commit w h h1 w' n r r1 x : sim w h → nodes w !! n = Some r → rtc (pstep ids may) h h1 →
  (∀ m, m ≠ n → views h1 !! m = views h !! m) → views h1 !! n = Some x → shows r1 Leader x →
  votes h1 = votes h → (∀ T m, (∃ g, reigns h1 !! T = Some g ∧ gLeader g = m) ↔
    ∃ g, reigns h !! T = Some g ∧ gLeader g = m) →
  state r1 = Leader → tracks h1 n r1 → plain r1 → dom (peers r1) = dom (peers r) →
  applyCh r1 = applyCh r →
  inv ids cfgs w' → nodes w' = <[n := updateCommitIndex r1]> (nodes w) → down w' = down w →
  grants w' = grants w → elected w' = elected w →
  (∀ h2, grows h h2 → cert h2 (currentTerm r1) (commitIndex (updateCommitIndex r1)) →
     ∀ t, t ∈ tasks w' → t ∈ tasks w ∨ sound h2 t) →
  ∃ h', rtc (pstep ids may) h h' ∧ sim w' h'.
Proof.
  intros Hs Hn Hr Hv Hx Hsh Hvs Hre Hst Htr Hpl Hd Hch Hi Hns Hdn Hgr Hel Hts.
  destruct (inv_id _ _ _ (si_inv _ _ Hs) n r) as (Hnid & _ & Hdom); [by left|]. rewrite Hdom in Hd.
  destruct (psteps_advance ids may Hodd h h1 (si_pinv _ _ Hs) Hr) as (Hp1 & _ & _).
  destruct (commit_moves h1 n r1 x) as (h2 & Hr2 & Hv2 & Hx2 & Hvs2 & Hre2 & Hack2); auto.
  assert (rtc (pstep ids may) h h2) as Hr3 by by etrans.
  destruct (psteps_advance ids may Hodd h h2 (si_pinv _ _ Hs) Hr3) as (_ & Hg & _).
  destruct (psteps_advance ids may Hodd h1 h2 Hp1 Hr2) as (Hp2 & _ & _).
  assert (state (updateCommitIndex r1) = Leader ∧ currentTerm (updateCommitIndex r1) = currentTerm r1)
    as [Hst' Htm] by (destruct (updateCommitIndex_inv r1) as (k & c & -> & _); done).
  pose proof (updateCommitIndex_plain r1 Hpl) as Hpl'.
  exists h2. split; [done|]. eapply (sim_set w h w' h2 n r); eauto.
  - intros m Hm. rewrite Hv2 by done. auto.
  - by rewrite Hst'.
  - rewrite Hvs2, Hvs, Hgr. apply Hs.
  - intros T m. rewrite Hel, Hre2, Hre. apply Hs.
  - intros _. apply updateCommitIndex_tracks. eapply (tracks_grows h1); [|done].
    by apply (psteps_advance ids may Hodd h1 h2 Hp1 Hr2).
  - intros msg. left. rewrite <- Hch.
    by destruct (updateCommitIndex_inv r1) as (k & c & Hu & _); rewrite Hu in *.
  - apply Hts; [done|]. destruct Hx2 as (x2 & ? & ?). rewrite <- Htm. by eapply view_cert.
Qed.

(** *** Replies *)

Lemma sim_return_vote w h i n p T resp r r' b : sim w h → nodes w !! n = Some r →
  tasks w !! i = Some (TReply (KVote n p T) (AVote resp)) →
  sendRequestVote_reply T resp r = (r', b) →
  let counts := ((currentTerm r =? T) && state_eqb (state r) Candidate
     && (rvrTerm resp <=? currentTerm r) && rvrVoteGranted resp)%bool in
  ∃ h', rtc (pstep ids may) h h' ∧ sim (spawn (if b : bool then [TLead n T] else [])
    (finish i (set_node n r' (if counts then count_vote n T p w else w)))) h'.
Proof.
  intros Hs Hn Ht Hr counts.
  pose proof (inv_return_vote _ _ Hok w i n p T resp r r' b (si_inv _ _ Hs) Hn Ht Hr) as Hi.
  cbv zeta in Hi. fold counts in Hi.
  pose proof (sendRequestVote_reply_frame T resp r) as Hf.
  pose proof (sendRequestVote_reply_peers T resp r) as Hpe. rewrite Hr in Hf, Hpe. cbn [fst] in Hf, Hpe.
  apply sendRequestVote_reply_cases in Hr as [(Hq & -> & Hcnt)|(_ & Hst & _ & _ & -> & _)].
  - fold counts in Hcnt. rewrite Hcnt in *. eapply sim_quiet_task; eauto using tracks_same.
  - exists h. split; [done|]. destruct (si_up _ _ Hs n r Hn) as (x & Hx & [Hxt Hxr Hxl Hxc]).
    eapply (sim_set w h _ h n r (r <| votesReceived := votesReceived r +! 1 |>)); eauto.
    + reflexivity.
    + by destruct counts.
    + by destruct counts.
    + exists x. split; [done|]. by split.
    + destruct counts; apply Hs.
    + intros T' m. destruct counts; apply Hs.
    + eapply frame_plain; [|done]. apply (si_plain _ _ Hs n). by left.
    + cbn. congruence.
    + cbn. intros t [Ht'|Ht']%elem_of_app; [left|right].
      * destruct counts; by eapply (task_kept w i).
      * destruct b; [by apply list_elem_of_singleton in Ht' as ->|by apply elem_of_nil in Ht'].
Qed.

(** The peer after a reply. *)
Lemma sim_return_append w h i n id T c prev m resp r r' gs : sim w h → nodes w !! n = Some r →
  tasks w !! i = Some (TReply (KAppend n id T c prev m) (AAppend resp)) →
  sendAppendEntries_reply id T c prev m resp r = (r', gs) →
  let w' := spawn (TGo n <$> gs) (finish i (set_node n r' w)) in
  inv ids cfgs w' → ∃ h', rtc (pstep ids may) h h' ∧ sim w' h'.
Proof.
  intros Hs Hn Ht Hr w' Hi. destruct (sim_task _ _ _ _ Hs Ht) as (Hid & Hcert & Hb & Hack).
  pose proof (sendAppendEntries_reply_quiet id T c prev m resp r) as Hq. rewrite Hr in Hq. cbn [fst] in Hq.
  unfold sendAppendEntries_reply in Hr.
  destruct (_ || _)%bool eqn:Hg0; [injection Hr as <- <-; by eapply sim_quiet_task|].
  apply orb_false_iff in Hg0 as [[Hst HT]%orb_false_iff _].
  apply negb_false_iff, state_eqb_true in Hst. apply negb_false_iff, Z.eqb_eq in HT. subst T.
  destruct (currentTerm r <? aerTerm resp).
  { injection Hr as <- <-. eapply sim_quiet_task; eauto using stepDown_frame. done. }
  destruct (peers r !! id) as [p|] eqn:Hp; [|injection Hr as <- <-; by eapply sim_quiet_task].
  destruct (si_tracks _ _ Hs n r Hn Hst) as [Hself Hpeer]. destruct (Hpeer id p Hp) as (Hni & Hmi & Hma).
  assert (plain r) as Hpl by (apply (si_plain _ _ Hs n); by left).
  destruct (aerSuccess resp).
  - injection Hr as <- <-. destruct (si_up _ _ Hs n r Hn) as (x & Hx & Hsh).
    match type of Hq with quiet _ (updateCommitIndex ?y) => set (r1 := y) in * end.
    rewrite Hst in Hsh.
    eapply (sim_commit w h h w' n r r1 x); eauto; try done.
    + by destruct Hsh.
    + split; [done|]. cbn. intros id' q [[<- <-]|[_ Hq']]%lookup_insert_Some; [|auto].
      rewrite (i64_id (prev + m)) by lia.
      destruct (Z.ltb_spec (matchIndex p) (prev + m)); cbn; rewrite i64_id by lia; split_and!; auto; lia.
    + eapply frame_plain; [exact Hpl|]. frame_solve.
    + cbn. by eapply insert_known_peer.
    + intros h2 _ _ t [?%task_kept|[]%elem_of_nil]%elem_of_app. by left.
  - injection Hr as <- <-. eapply sim_quiet_task; eauto.
    + frame_solve.
    + intros _ _. split; [done|]. cbn. intros id' q [[<- <-]|[_ Hq']]%lookup_insert_Some; [|auto].
      destruct (Z.ltb_spec 1 (nextIndex p)); cbn; rewrite ?i64_id by lia; split_and!; auto; lia.
    + by apply Forall_singleton.
Qed.

Lemma sim_return_snapshot w h i n id T lastIdx resp r : sim w h → nodes w !! n = Some r →
  tasks w !! i = Some (TReply (KSnapshot n id T lastIdx) (ASnapshot resp)) →
  let w' := finish i (set_node n (sendInstallSnapshot_reply id T lastIdx resp r) w) in
  inv ids cfgs w' → ∃ h', rtc (pstep ids may) h h' ∧ sim w' h'.
Proof.
  intros Hs Hn Ht w'. destruct (sim_task _ _ _ _ Hs Ht) as (_ & Hid & Hb & Hcert).
  pose proof (sendInstallSnapshot_reply_quiet id T lastIdx resp r) as Hq.
  assert (∀ t, t ∈ tasks w' → t ∈ tasks w ∨ sound h t) as Hts
    by (intros t ?%(task_kept w i t); by left).
  revert Hts. unfold w'. clear w'. unfold sendInstallSnapshot_reply in *. intros Hts Hi.
  destruct (_ || _)%bool eqn:Hg0; [by eapply (sim_quiet w h _ n r)|].
  apply orb_false_iff in Hg0 as [[Hst HT]%orb_false_iff _].
  apply negb_false_iff, state_eqb_true in Hst. apply negb_false_iff, Z.eqb_eq in HT. subst T.
  destruct (currentTerm r <? isrTerm resp).
  { eapply (sim_quiet w h _ n r); eauto using stepDown_frame; done. }
  destruct (peers r !! id) as [p|] eqn:Hp; [|by eapply (sim_quiet w h _ n r)].
  destruct (si_tracks _ _ Hs n r Hn Hst) as [Hself Hpeer]. destruct (Hpeer id p Hp) as (Hni & Hmi & Hma).
  assert (plain r) as Hpl by (apply (si_plain _ _ Hs n); by left).
  destruct (si_up _ _ Hs n r Hn) as (x & Hx & Hsh). rewrite Hst in Hsh.
  match type of Hq with quiet _ (updateCommitIndex ?y) => set (r1 := y) in * end.
  eapply (sim_commit w h h _ n r r1 x); eauto; try done.
  - by destruct Hsh.
  - split; [done|]. cbn. intros id' q [[<- <-]|[_ Hq']]%lookup_insert_Some; [|auto].
    destruct (Z.ltb_spec (matchIndex p) lastIdx); cbn; rewrite i64_id by lia; split_and!; auto; lia.
  - eapply frame_plain; [exact Hpl|]. frame_solve.
  - cbn. by eapply insert_known_peer.
  - intros h2 _ _ t Ht'. left. exact (task_kept w i t Ht').
Qed.

Lemma sim_return w h i w' : sim w h → return_reply i w = Some w' → inv ids cfgs w' →
  ∃ h', rtc (pstep ids may) h h' ∧ sim w' h'.
Proof.
  intros Hs Hst Hi. unfold return_reply in Hst.
  destruct (tasks w !! i) as [[| |k a| | |]|] eqn:Ht; try done.
  pose proof (sim_task _ _ _ _ Hs Ht) as Hso.
  destruct k as [n p T|n p T c prev m|n p T li], a as [resp|resp|resp]; try done;
    destruct (nodes w !! n) as [r|] eqn:Hn; try done; cbn [mbind option_bind] in Hst.
  - destruct (sendRequestVote_reply T resp r) as [r' b] eqn:Hr. injection Hst as <-.
    by eapply sim_return_vote.
  - destruct (sendAppendEntries_reply p T c prev m resp r) as [r' gs] eqn:Hr. injection Hst as <-.
    by eapply sim_return_append.
  - injection Hst as <-. by eapply sim_return_snapshot.
Qed.
(** *** Clients, consumers, losses and crashes *)

(** A leader appends an entry and acknowledges it to itself. *)
Lemma append_moves w h n r e p : sim w h → nodes w !! n = Some r → state r = Leader →
  eTerm e = currentTerm r → may (Z.to_nat (last_index r)) e →
  let r1 := r <| log := log r ++ [e] |> <| persister := p |> in
  ∃ h' x, rtc (pstep ids may) h h' ∧ (∀ m, m ≠ n → views h' !! m = views h !! m) ∧
    views h' !! n = Some x ∧ shows r1 Leader x ∧ votes h' = votes h ∧
    (∀ T m, (∃ g, reigns h' !! T = Some g ∧ gLeader g = m) ↔
       ∃ g, reigns h !! T = Some g ∧ gLeader g = m) ∧ tracks h' n r1.
Proof.
  intros Hs Hn Hl He Hmay r1. destruct (si_up _ _ Hs n r Hn) as (x & Hx & [Hxt Hxr Hxl Hxc]). rewrite Hl in Hxr.
  assert (may (length (vLog x)) e) as Hmx.
  { pose proof (unfolds_len _ _ Hxl) as E. by replace (length (vLog x)) with (Z.to_nat (last_index r)) by (unfold len in E; lia). }
  destruct (pi_lead _ _ (si_pinv _ _ Hs) n x Hx Hxr) as (g & Hg & Hgn & Hgl).
  set (x1 := mkView (vTerm x) Leader (vLog x ++ [e]) (vCommit x)).
  set (g1 := mkReign n (gStart g) (vLog x ++ [e])).
  set (h1 := set_reign (vTerm x) g1 (set_view n x1 h)).
  set (h2 := h1 <| acks := (n, vTerm x, length (vLog x ++ [e])) :: acks h1 |>).
  assert (rtc (pstep ids may) h h2) as Hr.
  { eapply rtc_l; [apply (p_append ids may h n x g e); congruence|].
    apply rtc_once. apply (p_ack ids may h1 n x1 g1); cbn; rewrite ?lookup_insert_eq; auto.
    by rewrite take_ge. }
  exists h2, x1. split_and!; auto.
  - intros m Hm. cbn. by rewrite lookup_insert_ne.
  - apply lookup_insert_eq.
  - split; cbn; [congruence|done|..|done]. destruct Hxl as (F & E & ? & ?). exists F. cbn.
    by rewrite E, (assoc_L (++)).
  - intros T m. change (reigns h2) with (<[vTerm x := g1]> (reigns h)).
    destruct (decide (T = vTerm x)) as [->|HT]; [|by rewrite lookup_insert_ne].
    rewrite lookup_insert_eq. split; intros (g' & E & <-); simplify_eq; eauto.
  - assert (Z.to_nat (last_index r1) = length (vLog x ++ [e])) as Hli.
    { pose proof (unfolds_len _ _ Hxl). unfold last_index in *. cbn. rewrite length_app, len_app.
      unfold len in *. cbn. lia. }
    split; [rewrite Hli; cbn; rewrite Hxt; by left|]. cbn. intros id q Hid.
    destruct (tr_peer _ _ _ (si_tracks _ _ Hs n r Hn Hl) id q Hid) as (? & ? & Ha).
    split_and!; auto; [lia..|]. intros Hm. destruct (Ha Hm); [left; by right|right].
    eapply cert_grows; [|done]. by apply (psteps_advance ids may Hodd h h2 (si_pinv _ _ Hs) Hr).
Qed.

Lemma sim_client w h n cmd w' : sim w h → step (Client n cmd) w = Some w' →
  steady_event w (Client n cmd) = true → inv ids cfgs w' →
  (∀ r res, nodes w !! n = Some r → snd (ReplicateCommand_begin cmd r) = Ret res →
     may (Z.to_nat (last_index r)) (new_entry cmd r)) →
  ∃ h', rtc (pstep ids may) h h' ∧ sim w' h'.
Proof.
  intros Hs Hst Hf Hi Hmay. cbn in Hst, Hf. destruct (nodes w !! n) as [r|] eqn:Hn; [|done].
  cbn [mbind option_bind] in Hst. apply Z.ltb_lt in Hf.
  assert (plain r) as Hpl by (apply (si_plain _ _ Hs n); by left). pose proof Hpl as [Hwf Hb Hlen].
  pose proof (ReplicateCommand_begin_quiet cmd r) as Hq.
  destruct (decide (state r = Leader)) as [Hl|Hl].
  2:{ unfold ReplicateCommand_begin in Hst. rewrite (proj2 (state_eqb_false _ _) Hl) in Hst.
      injection Hst as <-. eapply (sim_quiet w h _ n r r); eauto; try reflexivity.
      cbn. rewrite app_nil_r. by left. }
  specialize (Hmay r). rewrite ReplicateCommand_begin_unfold in Hst, Hq, Hmay by done.
  cbv zeta in Hst, Hq, Hmay. destruct (Save _ _ _ _) as [p [e|]] eqn:Hsv.
  { injection Hst as <-. cbn [fst] in Hq. eapply (sim_quiet w h _ n r); eauto.
    - frame_solve.
    - by intros _ [].
    - cbn. rewrite app_nil_r. by left. }
  set (e := new_entry cmd r) in *. set (r1 := r <| log := log r ++ [e] |> <| persister := p |>) in *.
  injection Hst as <-.
  destruct (append_moves w h n r e p) as (h1 & x & Hr & Hv & Hx & Hsh & Hvs & Hre & Htr); auto;
    [by eapply Hmay|].
  eapply (sim_commit w h h1 _ n r r1 x); eauto.
  - unfold last_index in Hf. split; cbn; [apply wf_append; auto; unfold last_index; lia|done|].
    unfold last_index. cbn. rewrite len_app, len_cons, len_nil. lia.
  - intros h3 Hg3 Hc t [?|Ht]%elem_of_app; [by left|right].
    apply list_elem_of_fmap in Ht as (go & -> & Hgo). apply list_elem_of_fmap in Hgo as (id & -> & Hid).
    destruct (updateCommitIndex_inv r1) as (k & b & Hu & _). rewrite Hu in Hc, Hid |- *.
    split; [by eapply (peer_not_self w h n r)|exact Hc].
Qed.

(** Compaction: the protocol does not notice. *)
Lemma sim_compact w h n idx data w' : sim w h → step (Compact n idx data) w = Some w' →
  steady_event w (Compact n idx data) = true → inv ids cfgs w' → sim w' h.
Proof.
  intros Hs Hst Hf Hi. cbn in Hst, Hf. destruct (nodes w !! n) as [r|] eqn:Hn; [|done].
  cbn [mbind option_bind] in Hst. injection Hst as <-.
  apply andb_true_iff in Hf as [Hfo Hla%Z.leb_le].
  assert (plain r) as [Hwf _ Hlen] by (apply (si_plain _ _ Hs n); by left). pose proof Hwf as [].
  destruct (si_up _ _ Hs n r Hn) as (x & Hx & [Hxt Hxr Hxl Hxc]).
  pose proof (Snapshot_wf idx data r Hwf Hla) as Hw'.
  destruct (Snapshot_inv idx data r Hwf) as [E|(Hrg & e & p & He & E)]; [lia|..]; rewrite E in *; clear E.
  { replace (set_node n r w) with w; [done|]. unfold set_node. rewrite insert_id by done. by destruct w. }
  set (r' := (compacted idx data e r) <| persister := p |>) in *.
  destruct (compacted_range r idx e He) as (_ & Hk & Hle).
  assert (unfolds r' (vLog x)) as Hu.
  { destruct Hxl as (F & E & HF & _). exists (F ++ take (Z.to_nat (idx - logBase r)) (log r)).
    cbn. rewrite <- (assoc_L (++)), take_drop, len_app, len_take by lia. split_and!; [done|lia|].
    intros _. unfold last_term. rewrite last_app.
    assert (last (take (Z.to_nat (idx - logBase r)) (log r)) = Some e) as ->; [|done].
    unfold entry_at in He. rewrite index_lookup in He by lia. rewrite last_lookup, length_take.
    unfold len in Hle. rewrite lookup_take_lt by lia. rewrite <- He. f_equal. lia. }
  assert (last_index r' = last_index r) as Hli by exact (compacted_last_index idx data e r Hwf He).
  eapply (sim_set w h _ h n r r'); eauto.
  - reflexivity.
  - exists x. split; [done|]. by split.
  - apply Hs.
  - apply Hs.
  - split; [done|by rewrite Hfo|by rewrite Hli].
  - intros Hst. destruct (si_tracks _ _ Hs n r Hn Hst) as [Hself Hpeer]. split; [by rewrite Hli|done].
Qed.

Lemma sim_finish w h i : sim w h → inv ids cfgs (finish i w) → sim (finish i w) h.
Proof.
  intros Hs Hi. split; try apply Hs; [done|]. apply Forall_forall. intros t Ht%task_kept.
  pose proof (si_tasks _ _ Hs) as HF. rewrite Forall_forall in HF. auto.
Qed.

Lemma Start_sound h n rnd r : Forall (sound h) (TGo n <$> snd (Start rnd r)).
Proof. unfold Start. destruct (ctx r); cbn; [done|by apply Forall_singleton]. Qed.

(** A node that finds on disk what it had in memory is the same node to the
    protocol, but for its commit index. *)
Lemma restart_recovers w h n r cfg r1 : sim w h → down w !! n = Some r →
  NewRaft (cfg <| cfgPersister := Some (persister r) |>) = Ret r1 →
  recovered (persister r) = (currentTerm r, votedFor r, log r) →
  recovered_snapshot (persister r) = own_snapshot r →
  plain r1 ∧ currentTerm r1 = currentTerm r ∧ state r1 = Follower ∧
  commitIndex r1 = last_index r ∧ (∀ l, unfolds r l → unfolds r1 l) ∧
  ∀ msg, msg ∈ applyCh r1 → settled = true → agreed h msg.
Proof.
  intros Hs Hn Hr1 Hrec Hsnap.
  assert (plain r) as [Hwf Hb Hlen] by (apply (si_plain _ _ Hs n); by right). pose proof Hwf as [].
  assert (snapshot_end (recovered_snapshot (persister r)) = logBase r) as Hse
    by (rewrite Hsnap; unfold own_snapshot; destruct (Z.eqb_spec (logBase r) 0); cbn; lia).
  destruct (NewRaft_recovers _ _ _ Hr1) as (Hrv & _ & Hb1 & Hc1 & Hs1 & Hw1 & Hsn1);
    [rewrite Hrec, Hse; done|lia|rewrite Hrec, Hse; exact wf_bound|].
  rewrite Hrec in Hrv. injection Hrv as Ht1 _ Hl1. rewrite Hse in Hb1.
  rewrite Hsnap in Hsn1. unfold own_snapshot in Hsn1.
  assert (last_index r1 = last_index r) as Hli by (unfold last_index; by rewrite Hl1, Hb1).
  split_and!; auto; [split; auto; [by rewrite Hb1|lia]|congruence|..].
  - intros l (F & E & HF & HT). exists F. rewrite Hl1, Hb1. split_and!; auto. intros Hpos.
    destruct (Z.eqb_spec (logBase r) 0); [lia|]. destruct Hsn1 as [-> _]. auto.
  - destruct (Z.eqb_spec (logBase r) 0); [rewrite Hsn1; by intros ? ?%elem_of_nil|].
    destruct Hsn1 as [_ ->]. intros msg ->%list_elem_of_singleton Htrue.
    destruct (si_down _ _ Hs n r Hn) as (x & Hx & [_ _ Hxl Hxc]).
    destruct (pi_commit _ _ (si_pinv _ _ Hs) n x Hx) as [_ Hce]. rewrite (Hxc Htrue) in Hce.
    pose proof (snapshot_last r _ Hxl ltac:(lia)) as He. apply fmap_Some in He as (e & He & ->).
    eapply snapshot_agreed; [|exact Hce|lia|lia|done]. destruct folding; [done|]. by rewrite Hb in *.
Qed.

Lemma sim_restart w h n rnd w' : sim w h → restart n rnd w = Some w' →
  steady_event w (Restart n rnd) = true → inv ids cfgs w' → sim w' h.
Proof.
  intros Hs Hst Hf Hi. unfold restart in Hst.
  destruct (down w !! n) as [r|] eqn:Hn; [|done]. cbn [mbind option_bind] in Hst.
  rewrite (inv_cfg _ _ _ (si_inv _ _ Hs)) in Hst.
  destruct (cfgs !! n) as [cfg|] eqn:Hc; [|done]. cbn [mbind option_bind] in Hst.
  destruct (NewRaft _) as [r1| |] eqn:Hr1; try done.
  unfold steady_event in Hf. rewrite Hn in Hf.
  apply andb_true_iff in Hf as [_ [[Hrec Hsnap]%andb_true_iff Hset]%andb_true_iff].
  apply bool_decide_eq_true_1 in Hrec, Hsnap.
  destruct (restart_recovers w h n r cfg r1) as ([Hw1 Hb1 Hlen1] & Ht1 & Hs1 & Hc1 & Hu1 & Hch1); auto.
  destruct (si_down _ _ Hs n r Hn) as (x & Hx & [Hxt Hxr Hxl Hxc]).
  destruct (pi_commit _ _ (si_pinv _ _ Hs) n x Hx) as [Hcl _].
  pose proof (Start_sound h n rnd r1) as Hgs. destruct (Start_inv rnd r1) as (c & t & g & Hst1).
  destruct (Start rnd r1) as [r2 gs]. cbn [fst snd] in *. injection Hst as <-.
  assert (∀ m y, nodes (spawn (TGo n <$> gs) (set_node n r2 (w <| down := delete n (down w) |>))) !! m
    = Some y → (m = n ∧ y = r2) ∨ (m ≠ n ∧ nodes w !! m = Some y)) as Hl.
  { intros m y. cbn. intros [[-> ->]|[? ?]]%lookup_insert_Some; auto. }
  split; auto; try apply Hs.
  - intros m y [[-> ->]|[_ Hy]]%Hl; [|by apply (si_up _ _ Hs)].
    exists x. split; [done|]. subst r2. split; cbn; [congruence..|by apply Hu1|]. intros Htrue.
    rewrite Htrue in Hset. cbn in Hset. apply Z.leb_le in Hset. rewrite (Hxc Htrue) in *.
    pose proof (unfolds_len _ _ Hxl) as Hxlen. rewrite Hc1. unfold len in Hxlen. lia.
  - cbn. intros m y [_ Hy]%lookup_delete_Some. by apply (si_down _ _ Hs).
  - intros m y [[[-> ->]|[_ Hy]]%Hl|Hy].
    + subst r2. split; [by wf_same Hw1|done..].
    + apply (si_plain _ _ Hs m). by left.
    + cbn in Hy. apply lookup_delete_Some in Hy as [_ Hy]. apply (si_plain _ _ Hs m). by right.
  - intros m y [[-> ->]|[_ Hy]]%Hl; [|by apply (si_tracks _ _ Hs)]. subst r2. cbn. congruence.
  - intros m y msg [[-> ->]|[_ Hy]]%Hl; [|by eapply (si_chan _ _ Hs)]. subst r2. cbn.
    apply Hch1.
  - apply Forall_app. split; [apply Hs|done].
Qed.

(** ** Every step *)

(** The entry a step appends is one that may be. *)
Definition permitted w (e : event) : Prop :=
  ∀ n cmd r res, e = Client n cmd → nodes w !! n = Some r → snd (ReplicateCommand_begin cmd r) = Ret res →
    may (Z.to_nat (last_index r)) (new_entry cmd r).

Lemma sim_step w h e w' : sim w h → step e w = Some w' → steady_event w e = true → permitted w e →
  ∃ h', rtc (pstep ids may) h h' ∧ sim w' h'.
Proof.
  intros Hs Hst Hf Hmay. pose proof Hf as [Hfair Hside]%andb_true_iff.
  pose proof (inv_step _ _ Hok w e w' (si_inv _ _ Hs) Hst Hfair) as Hi.
  destruct e as [n rnd|i d|i rnd|i|i|n cmd|n idx data|n|n|n rnd].
  - by eapply sim_timeout.
  - by eapply sim_run.
  - by eapply sim_deliver.
  - by eapply sim_return.
  - exists h. split; [done|]. cbn in Hst.
    destruct (tasks w !! i) as [[]|]; try done; injection Hst as <-; by apply sim_finish.
  - eapply sim_client; eauto.
  - exists h. split; [done|]. by eapply sim_compact.
  - cbn in Hst. destruct (nodes w !! n) as [r|] eqn:Hn; [|done]. cbn [mbind option_bind] in Hst.
    destruct (applyCh r) as [|msg ch] eqn:Hch; [done|]. injection Hst as <-.
    exists h. split; [done|]. eapply (sim_channel w h n r ch []); eauto.
    intros m Hm. left. rewrite Hch. by right.
  - cbn in Hst. destruct (nodes w !! n) as [r|] eqn:Hn; [|done]. injection Hst as <-. by apply sim_crash.
  - exists h. split; [done|]. by eapply sim_restart.
Qed.

(** The messages the state machines of the cluster receive along a run. *)
Fixpoint consumed (es : list event) w : list (Z * ApplyMsg) :=
  match es with
  | [] => []
  | e :: es =>
      match e with
      | Consume n =>
          match nodes w !! n with
          | Some r => match applyCh r with msg :: _ => [(n, msg)] | [] => [] end
          | None => []
          end
      | _ => []
      end ++ match step e w with Some w' => consumed es w' | None => [] end
  end.

Lemma consumed_cons e es w n msg : (n, msg) ∈ consumed (e :: es) w →
  (∃ r, nodes w !! n = Some r ∧ msg ∈ applyCh r) ∨
  (∃ w', step e w = Some w' ∧ (n, msg) ∈ consumed es w').
Proof.
  cbn [consumed]. rewrite elem_of_app. intros [Hc|Hc]; [left|right].
  - destruct e; try by apply elem_of_nil in Hc.
    destruct (nodes w !! n0) as [r|] eqn:Hn; [|by apply elem_of_nil in Hc].
    destruct (applyCh r) as [|m ch] eqn:Hch; [by apply elem_of_nil in Hc|].
    apply list_elem_of_singleton in Hc as [= -> ->]. exists r. split; [done|]. rewrite Hch. by left.
  - destruct (step e w) as [w'|]; [eauto|by apply elem_of_nil in Hc].
Qed.

Lemma sim_run_all es w h w' : (∀ i e, may i e) → sim w h → run es w = Some w' → steady_run es w = true →
  ∃ h', rtc (pstep ids may) h h' ∧ sim w' h' ∧
    ∀ n msg, (n, msg) ∈ consumed es w → settled = true → agreed h' msg.
Proof.
  intros Hmay. revert w h. induction es as [|e es IH]; intros w h Hs Hr Hf; cbn in Hr, Hf.
  - injection Hr as <-. exists h. split_and!; [done..|]. by intros ? ? ?%elem_of_nil.
  - apply andb_true_iff in Hf as [Hf Hfs]. destruct (step e w) as [w1|] eqn:Hst; [|done].
    destruct (sim_step w h e w1 Hs Hst Hf) as (h1 & Hr1 & Hs1); [by intros ?|].
    destruct (IH w1 h1 Hs1 Hr Hfs) as (h2 & Hr2 & Hs2 & Hc2).
    assert (rtc (pstep ids may) h h2) as Hr3 by by etrans.
    exists h2. split_and!; [done..|].
    intros n msg [(r & Hn & Hm)|(w2 & Hw2 & Hm)]%consumed_cons Hse.
    + destruct (psteps_advance ids may Hodd h h2 (si_pinv _ _ Hs) Hr3) as (_ & Hg & _).
      eapply agreed_grows; [done|]. by eapply (si_chan _ _ Hs).
    + rewrite Hst in Hw2. injection Hw2 as <-. by eapply Hc2.
Qed.

(** Committed messages about the same index are about the same entry. *)
Lemma committed_unique h T k T' k' i e e' : pinv ids h → committed ids h T k → committed ids h T' k' →
  (i ≤ k)%nat → (i ≤ k')%nat → reign_log h T !! i = Some e → reign_log h T' !! i = Some e' → e = e'.
Proof.
  intros Hp.
  assert (∀ T k e T' k' e', committed ids h T k → committed ids h T' k' → (i ≤ k)%nat →
    reign_log h T !! i = Some e → reign_log h T' !! i = Some e' → T ≤ T' → e = e') as Hwlog.
  { intros T1 k1 e1 T2 k2 e2 H1 [(e3 & H3 & _) _] Hk H4 H5 Hle.
    unfold reign_log in H3. destruct (reigns h !! T2) as [g|] eqn:Hg; [|done].
    destruct (holds_reign ids h Hp T1 k1 T2 g H1 Hle Hg) as [z Hz].
    rewrite (reign_log_Some _ _ _ Hg), Hz, lookup_app_l in H5
      by (rewrite length_take; apply lookup_lt_Some in H4; lia).
    rewrite lookup_take_lt in H5 by lia. congruence. }
  intros Hc Hc' Hi Hi' He He'. destruct (Z.le_ge_cases T T') as [Hle|Hle].
  - by apply (Hwlog T k e T' k' e').
  - symmetry. by apply (Hwlog T' k' e' T k e).
Qed.

Lemma agreed_unique h msg msg' : pinv ids h → agreed h msg → agreed h msg' →
  CommandValid msg = true → CommandValid msg' = true →
  CommandIndex msg = CommandIndex msg' → msg = msg'.
Proof.
  intros Hp (T & k & i & e & Hc & Hik & He & [->|(_ & d & ->)])
    (T' & k' & i' & e' & Hc' & Hik' & He' & [->|(_ & d' & ->)]); try done.
  intros _ _ Hidx. cbn in Hidx. assert (i' = i) as -> by lia.
  by rewrite (committed_unique h T k T' k' i e e').
Qed.

(** ** The first start *)

(** A disk on which no vote, no log and no snapshot are found. *)
Definition blank (cfg : Config P) : Prop :=
  match cfgPersister cfg with
  | Some p => snd (fst (recovered p)) = -1 ∧ snd (recovered p) = [] ∧
      match LoadSnapshot p with inl _ => False | inr _ => True end
  | None => True
  end.

#[export] Instance blank_dec cfg : Decision (blank cfg).
Proof.
  unfold blank. destruct (cfgPersister cfg) as [p|]; [|apply _].
  destruct (LoadSnapshot p); apply _.
Defined.

Definition first_view (rnd : Z) (cfg : Config P) : View :=
  mkView match boot_node rnd cfg with Some r => currentTerm r | None => 0 end Follower [] 0.

Definition first_proto (rnd : Z) : Proto := mkProto (first_view rnd <$> cfgs) ∅ [] [].

Lemma first_starts rnd : starts ids (first_proto rnd).
Proof.
  split; try done; cbn.
  - rewrite dom_fmap_L. apply (co_dom _ _ Hok).
  - intros n x Hx. rewrite lookup_fmap in Hx. by destruct (cfgs !! n); simplify_eq/=.
Qed.

Lemma blank_no_vote cfg : blank cfg → no_vote cfg.
Proof.
  unfold blank, no_vote, recovered, recovered_vote. destruct (cfgPersister cfg) as [p|]; [|done].
  intros [Hv _]. destruct (Load p) as [[[t v] l]|]; done.
Qed.

Lemma boot_node_blank rnd cfg r : boot_node rnd cfg = Some r → blank cfg →
  plain r ∧ log r = [] ∧ logBase r = 0 ∧ commitIndex r = 0 ∧ state r = Follower ∧ applyCh r = [].
Proof.
  unfold boot_node. destruct (NewRaft cfg) as [r0| |] eqn:Hr; try done. intros [= <-].
  pose proof (NewRaft_Ret _ _ Hr) as [(_ & [p Hp] & _)%validate_None _]. unfold blank. rewrite Hp.
  intros (_ & Hl & Hs).
  assert (recovered_snapshot p = None) as HS
    by (unfold recovered_snapshot; by destruct (Load p), (LoadSnapshot p)).
  assert (cfg <| cfgPersister := Some p |> = cfg) as Ec by (destruct cfg; cbn in *; by rewrite Hp).
  rewrite <- Ec in Hr. pose proof (NewRaft_recovers cfg p r0 Hr) as Hrec. cbv zeta in Hrec.
  rewrite HS, Hl in Hrec. cbn [snapshot_end] in Hrec.
  destruct Hrec as (Hrec & _ & Hb & Hc & Hst & Hw & Hch); [apply contiguous_nil|done|done|].
  rewrite <- Hrec in Hl. cbn in Hl. unfold last_index in Hc. rewrite Hl, Hb in Hc.
  destruct (Start_inv rnd r0) as (c & t & g & ->). cbn. split_and!; auto.
  split; cbn; [by wf_same Hw|done|]. unfold last_index. cbn. by rewrite Hl, Hb.
Qed.

Lemma sim_boot rnd : map_Forall (λ _, blank) cfgs → sim (boot rnd cfgs) (first_proto rnd).
Proof.
  intros Hbl.
  assert (∀ n r, nodes (boot rnd cfgs) !! n = Some r → ∃ cfg, cfgs !! n = Some cfg ∧
    boot_node rnd cfg = Some r ∧ plain r ∧ log r = [] ∧ logBase r = 0 ∧ commitIndex r = 0 ∧
    state r = Follower ∧ applyCh r = []) as Hn.
  { cbn. intros n r. rewrite lookup_omap_Some. intros (cfg & Hb & Hc). exists cfg.
    split_and!; auto; by eapply boot_node_blank; eauto. }
  split.
  - apply inv_boot; [done|]. intros n cfg Hc. by apply blank_no_vote, (Hbl n).
  - apply starts_pinv, first_starts.
  - intros n r (cfg & Hc & Hb & _ & Hl & Hb0 & Hci & Hst & _)%Hn. exists (first_view rnd cfg).
    cbn. rewrite lookup_fmap, Hc. split; [done|]. unfold first_view. rewrite Hb. split; cbn; try congruence.
    + apply unfolds_whole; congruence.
    + by rewrite Hci.
  - intros n r. cbn. by rewrite lookup_empty.
  - done.
  - intros T n. cbn. split; [by intros ?%elem_of_nil|]. intros (g & Hg & _). by rewrite lookup_empty in Hg.
  - intros n r [(cfg & _ & _ & ? & _)%Hn|Hd]; [done|]. cbn in Hd. by rewrite lookup_empty in Hd.
  - intros n r (cfg & _ & _ & _ & _ & _ & _ & -> & _)%Hn. done.
  - intros n r msg (cfg & _ & _ & _ & _ & _ & _ & _ & ->)%Hn. by intros ?%elem_of_nil.
  - cbn. apply Forall_fmap, Forall_true. done.
Qed.
End refinement.
