(* ===== verification/ClusterSafety.v ===== *)
(** * What the cluster guarantees

    The safety properties of Raft, for the program's cluster: log matching,
    leader completeness, state-machine safety, each drawn from the refinement
    of [ClusterRefinement] and the invariant of [Protocol]. *)

From S2P Require Import Prelude Types Persister Node Election Replication Snapshot Cluster.
From S2P Require Import ElectionSafety Protocol LogFrames ClusterRefinement.

(** The protocol state [h] describes the cluster [w]: terms, roles, logs and,
    if [settled], commit indices of the nodes (a crashed node is a follower),
    the votes cast and the leaders elected.  The log of a node in [h] is what its
    snapshot stands for, followed by the log it keeps. *)
Record abstracts {P} (settled : bool) (w : World P) (h : Proto) : Prop := mkAbstracts {
  ab_up n r : nodes w !! n = Some r → ∃ x, views h !! n = Some x ∧ shows settled r (state r) x;
  ab_down n r : down w !! n = Some r → ∃ x, views h !! n = Some x ∧ shows settled r Follower x;
  ab_votes : votes h = grants w;
  ab_elected T n : (T, n) ∈ elected w ↔ ∃ g, reigns h !! T = Some g ∧ gLeader g = n
}.

Section conclusions.
Context {P : Type} `{PL : PersisterLaws P}.
Context (ids : gset Z) (cfgs : gmap Z (Config P)) (rnd : Z) (es : list event) (w : World P).
Context (settled folding : bool).
Context (Hok : cluster_ok ids cfgs) (Hodd : Z.odd (Z.of_nat (size ids)) = true).
Context (Hblank : map_Forall (λ _, blank) cfgs).
Context (Hrun : run es (boot rnd cfgs) = Some w).
Context (Hsteady : steady_run settled folding es (boot rnd cfgs) = true).
Implicit Types r : Raft P.

Lemma run_sim : ∃ h, rtc (pstep ids (λ _ _, True)) (first_proto cfgs rnd) h ∧ sim ids cfgs settled folding w h ∧
  ∀ n msg, (n, msg) ∈ consumed es (boot rnd cfgs) → settled = true → agreed ids folding h msg.
Proof. eapply sim_run_all; eauto. by apply sim_boot. Qed.

(** A node's log and commit position, in the protocol. *)
Lemma known_view h n r : sim ids cfgs settled folding w h → known w n r →
  ∃ x, views h !! n = Some x ∧ vTerm x = currentTerm r ∧ unfolds r (vLog x) ∧
    (settled = true → vCommit x = Z.to_nat (commitIndex r)).
Proof.
  intros Hs [Hn|Hn]; [destruct (si_up _ _ _ _ _ _ Hs n r Hn) as (x & ? & [])
    |destruct (si_down _ _ _ _ _ _ Hs n r Hn) as (x & ? & [])]; eauto.
Qed.

Lemma known_wf h n r : sim ids cfgs settled folding w h → known w n r → wf r.
Proof. intros Hs Hn. by apply (si_plain _ _ _ _ _ _ Hs n). Qed.

Lemma known_entry h n r l i : sim ids cfgs settled folding w h → known w n r → unfolds r l → logBase r < i →
  entry_at r i = l !! Z.to_nat (i - 1).
Proof. intros Hs Hn Hu Hi. apply unfolds_entry; [done|]. destruct (known_wf h n r Hs Hn). lia. Qed.

(** What is committed at an index, every node that has it committed holds, as
    long as it has not folded it. *)
Lemma committed_own h n r T k i e : sim ids cfgs settled folding w h → settled = true → known w n r →
  committed ids h T k → (i ≤ k)%nat → reign_log h T !! i = Some e →
  logBase r ≤ Z.of_nat i < commitIndex r → entry_at r (Z.of_nat i + 1) = Some e.
Proof.
  intros Hs Hse Hn Hc Hik He Hi.
  destruct (known_view h n r Hs Hn) as (x & Hx & _ & Hu & Hxc).
  destruct (pi_commit _ _ (si_pinv _ _ _ _ _ _ Hs) n x Hx) as [Hcl Hce].
  pose proof (lookup_lt_Some _ _ _ He) as Hlt.
  assert (certified ids h T (S i) (reign_log h T)) as Hce'.
  { right. exists T, k. split_and!; auto; lia. }
  pose proof (certified_agree ids h (si_pinv _ _ _ _ _ _ Hs) _ _ _ _ _ _ Hce Hce' Hcl ltac:(lia)) as E.
  rewrite (Hxc Hse) in E. assert (i < Z.to_nat (commitIndex r) `min` S i)%nat as Hmin by lia.
  rewrite (known_entry h n r (vLog x)) by (done || lia).
  replace (Z.to_nat (Z.of_nat i + 1 - 1)) with i by lia.
  by rewrite <- (lookup_take_lt _ _ _ Hmin), E, lookup_take_lt.
Qed.

(** Positions up to a commit index are committed entries of the log. *)
Lemma committed_entry h n r i : sim ids cfgs settled folding w h → known w n r → settled = true →
  logBase r < i ≤ commitIndex r →
  ∃ e T k, entry_at r i = Some e ∧ committed ids h T k ∧ (Z.to_nat (i - 1) ≤ k)%nat ∧
    reign_log h T !! Z.to_nat (i - 1) = Some e.
Proof.
  intros Hs Hn Hse Hi. destruct (known_view h n r Hs Hn) as (x & Hx & _ & Hu & Hc).
  rewrite (known_entry h n r (vLog x)) by (done || lia). destruct (known_wf h n r Hs Hn).
  destruct (pi_commit _ _ (si_pinv _ _ _ _ _ _ Hs) n x Hx) as [Hle Hce]. rewrite (Hc Hse) in Hle, Hce.
  destruct (lookup_lt_is_Some_2 (vLog x) (Z.to_nat (i - 1))) as [e He]; [lia|].
  destruct (certified_entry ids h _ _ _ (Z.to_nat (i - 1)) e Hce) as (T & k & ? & ? & ?);
    [lia|done|]. eauto 8.
Qed.
End conclusions.

Section theorems.
Context {P : Type} `{PL : PersisterLaws P}.

(** C2: The cluster implements the protocol.  Along every run of a cluster of
    odd size that starts on blank disks and satisfies the side conditions (no
    term or log grows out of range, a won candidacy is not overtaken, a vote
    covers the voter's snapshot, a snapshot is sent in the leader's own term,
    only applied entries are compacted and none unless [folding], a node that
    restarts finds its term, vote, log and snapshot on disk and, if [settled],
    all of that log was committed), each step of the program is a sequence of
    moves of the abstract protocol: there is a run of the protocol from its start
    to a state that shows exactly the terms, roles, logs, votes, leaders and (if
    [settled]) commit indices of the program.  Compaction and snapshot transfer
    are invisible to the protocol. *)
Theorem cluster_refines_protocol (ids : gset Z) (cfgs : gmap Z (Config P)) (rnd : Z)
    (es : list event) (w : World P) (settled folding : bool) :
  cluster_ok ids cfgs → Z.odd (Z.of_nat (size ids)) = true →
  map_Forall (λ _, blank) cfgs → run es (boot rnd cfgs) = Some w →
  steady_run settled folding es (boot rnd cfgs) = true →
  ∃ h0 h, starts ids h0 ∧ abstracts settled (boot rnd cfgs) h0 ∧
    rtc (pstep ids (λ _ _, True)) h0 h ∧ abstracts settled w h.
Proof.
  intros Hok Hodd Hbl Hrun Hst.
  destruct (run_sim ids cfgs rnd es w settled folding) as (h & Hr & Hs & _); auto.
  exists (first_proto cfgs rnd), h. split_and!; auto.
  - by apply first_starts.
  - pose proof (sim_boot ids cfgs Hok settled folding rnd Hbl) as []. by split.
  - by destruct Hs.
Qed.

(** C7: Log matching, with compaction, for a cluster of odd size that starts on
    blank disks, along the runs in which no term or log grows out of range, a won
    candidacy is not overtaken, a vote covers the voter's snapshot, a snapshot is
    sent in the leader's own term, only applied entries are compacted, and a node
    that restarts finds its term, vote, log and snapshot on disk (its log need not
    have been committed).  Along such a run, when two nodes (running or crashed)
    have an entry of the same term at the same index, their logs are the same up
    to that index, as far as neither has folded them; and where only one has, its
    snapshot ends with an entry of the term the other has there. *)
Theorem log_matching (ids : gset Z) (cfgs : gmap Z (Config P)) (rnd : Z) (es : list event)
    (w : World P) (folding : bool) n n' r r' i e e' :
  cluster_ok ids cfgs → Z.odd (Z.of_nat (size ids)) = true →
  map_Forall (λ _, blank) cfgs → run es (boot rnd cfgs) = Some w →
  steady_run false folding es (boot rnd cfgs) = true →
  known w n r → known w n' r' → entry_at r i = Some e → entry_at r' i = Some e' →
  eTerm e = eTerm e' →
  (∀ j, logBase r < j ≤ i → logBase r' < j → entry_at r j = entry_at r' j) ∧
  (logBase r < logBase r' → eTerm <$> entry_at r (logBase r') = Some (snapshotTerm r')).
Proof.
  intros Hok Hodd Hbl Hrun Hst Hn Hn' He He' Ht.
  destruct (run_sim ids cfgs rnd es w false folding) as (h & _ & Hs & _); auto.
  destruct (known_view ids cfgs w false folding h n r Hs Hn) as (x & Hx & _ & Hl & _).
  destruct (known_view ids cfgs w false folding h n' r' Hs Hn') as (x' & Hx' & _ & Hl' & _).
  destruct (pi_log _ _ (si_pinv _ _ _ _ _ _ Hs) n x Hx) as [Hm _].
  destruct (pi_log _ _ (si_pinv _ _ _ _ _ _ Hs) n' x' Hx') as [Hm' _].
  pose proof (known_wf _ _ _ _ _ h n r Hs Hn) as Hw. pose proof (known_wf _ _ _ _ _ h n' r' Hs Hn') as Hw'.
  assert (logBase r < i ∧ logBase r' < i) as [Hi Hi']
    by (split; [apply (entry_at_Some r)|apply (entry_at_Some r')]; eauto).
  rewrite (unfolds_entry r (vLog x)) in He by (done || destruct Hw; lia).
  rewrite (unfolds_entry r' (vLog x')) in He' by (done || destruct Hw'; lia).
  pose proof (log_matching_at h (vLog x) (vLog x') _ e e' Hm Hm' He He' Ht) as E.
  assert (∀ j, logBase r < j ≤ i → entry_at r j = vLog x' !! Z.to_nat (j - 1)) as Hsame.
  { intros j Hj. rewrite (unfolds_entry r (vLog x)) by (done || destruct Hw; lia).
    destruct Hw. assert (Z.to_nat (j - 1) < S (Z.to_nat (i - 1)))%nat as Hlt by lia.
    by rewrite <- (lookup_take_lt _ _ _ Hlt), E, lookup_take_lt. }
  split.
  - intros j Hj Hj'. rewrite Hsame by done. symmetry. apply unfolds_entry; [done|]. destruct Hw'. lia.
  - intros Hb. rewrite Hsame by lia. destruct Hw. apply snapshot_last; [done|lia].
Qed.

(** C6: Leader completeness, for a cluster of odd size that starts on blank
    disks, along the runs in which no term or log grows out of range, a won
    candidacy is not overtaken, a vote covers the voter's snapshot, a snapshot is
    sent in the leader's own term, only applied entries are compacted, and a node
    that restarts finds its term, vote, log and snapshot on disk and all of that
    log was committed.  Along such a run what any node, running or crashed, holds
    committed is in the log of every leader of its term or a later one, unless
    that leader has folded it into its snapshot. *)
Theorem leader_completeness (ids : gset Z) (cfgs : gmap Z (Config P)) (rnd : Z)
    (es : list event) (w : World P) (folding : bool) n n' r r' :
  cluster_ok ids cfgs → Z.odd (Z.of_nat (size ids)) = true →
  map_Forall (λ _, blank) cfgs → run es (boot rnd cfgs) = Some w →
  steady_run true folding es (boot rnd cfgs) = true →
  known w n r → nodes w !! n' = Some r' → state r' = Leader → currentTerm r ≤ currentTerm r' →
  commitIndex r ≤ last_index r' ∧
  ∀ i, logBase r < i ≤ commitIndex r → is_Some (entry_at r i) ∧
    (logBase r' < i → entry_at r' i = entry_at r i).
Proof.
  intros Hok Hodd Hbl Hrun Hst Hn Hn' Hl Hle.
  destruct (run_sim ids cfgs rnd es w true folding) as (h & _ & Hs & _); auto.
  assert (known w n' r') as Hk' by by left.
  destruct (known_view ids cfgs w true folding h n r Hs Hn) as (x & Hx & Hxt & Hxl & Hxc).
  destruct (leader_reign ids cfgs true folding w h n' r') as (g & Hg & _ & Hgl); auto.
  destruct (pi_commit _ _ (si_pinv _ _ _ _ _ _ Hs) n x Hx) as [Hcl Hce].
  pose proof (certified_reign ids h (si_pinv _ _ _ _ _ _ Hs) _ _ _ _ _ Hce Hcl
    ltac:(rewrite Hxt; exact Hle) Hg) as Hpre. rewrite (Hxc eq_refl) in Hcl, Hpre.
  pose proof (known_wf _ _ _ _ _ h n r Hs Hn) as [].
  split.
  - apply prefix_length in Hpre. rewrite length_take in Hpre.
    rewrite <- (unfolds_len r' (gLog g) Hgl). unfold len. lia.
  - intros i Hi. destruct (committed_entry ids cfgs w true folding h n r i Hs Hn eq_refl Hi) as (e & _ & _ & He & _).
    split; [eauto|]. intros Hi'.
    rewrite (known_entry ids cfgs w true folding h n r (vLog x)), (known_entry ids cfgs w true folding h n' r' (gLog g))
      by (done || lia).
    destruct Hpre as [z ->]. rewrite lookup_app_l by (rewrite length_take; lia).
    apply lookup_take_lt. lia.
Qed.

(** C3: State-machine safety, for a cluster of odd size that starts on blank
    disks, along the runs in which no term or log grows out of range, a won
    candidacy is not overtaken, a vote covers the voter's snapshot, a snapshot is
    sent in the leader's own term, only applied entries are compacted, and a node
    that restarts finds its term, vote, log and snapshot on disk and all of that
    log was committed.  Along such a run: if a node hands the command at some
    index to its state machine, no node ever hands a different command at that
    index to its own; a snapshot handed to a state machine ends with a committed
    entry, that is, with the term that every node has at its last index once it
    has committed it; and the committed parts of any two logs, as far as neither
    has folded them, agree. *)
Theorem state_machine_safety (ids : gset Z) (cfgs : gmap Z (Config P)) (rnd : Z)
    (es : list event) (w : World P) (folding : bool) :
  cluster_ok ids cfgs → Z.odd (Z.of_nat (size ids)) = true →
  map_Forall (λ _, blank) cfgs → run es (boot rnd cfgs) = Some w →
  steady_run true folding es (boot rnd cfgs) = true →
  (∀ n n' msg msg', (n, msg) ∈ consumed es (boot rnd cfgs) →
     (n', msg') ∈ consumed es (boot rnd cfgs) →
     CommandValid msg = true → CommandValid msg' = true →
     CommandIndex msg = CommandIndex msg' → msg = msg') ∧
  (∀ n n' msg r, (n, msg) ∈ consumed es (boot rnd cfgs) → SnapshotValid msg = true →
     known w n' r → logBase r < amLastIncludedIndex msg ≤ commitIndex r →
     eTerm <$> entry_at r (amLastIncludedIndex msg) = Some (amLastIncludedTerm msg)) ∧
  (∀ n n' r r' i, known w n r → known w n' r' → logBase r < i ≤ commitIndex r →
     logBase r' < i ≤ commitIndex r' → is_Some (entry_at r i) ∧ entry_at r i = entry_at r' i).
Proof.
  intros Hok Hodd Hbl Hrun Hst.
  destruct (run_sim ids cfgs rnd es w true folding) as (h & _ & Hs & Hcon); auto. split_and!.
  - intros n n' msg msg' Hm Hm'. apply (agreed_unique ids folding h); [apply Hs|eauto..].
  - intros n n' msg r Hm Hv Hn. destruct (Hcon n msg Hm eq_refl) as (T & k & i & e & Hc & Hik & He & Hmsg).
    destruct Hmsg as [->|(_ & d & ->)]; [done|]. cbn. intros Hi.
    by rewrite (committed_own ids cfgs w true folding h n' r T k i e) by (done || lia).
  - intros n n' r r' i Hn Hn' Hi Hi'.
    destruct (committed_entry ids cfgs w true folding h n r i Hs Hn eq_refl Hi) as (e & T & k & He & Hc & Hk & Hrl).
    split; [eauto|]. rewrite He. symmetry. destruct (known_wf _ _ _ _ _ h n r Hs Hn).
    replace i with (Z.of_nat (Z.to_nat (i - 1)) + 1) by lia.
    apply (committed_own ids cfgs w true folding h n' r' T k); auto; lia.
Qed.
End theorems.

(** ** Witnesses *)

Import MemoryPersister.

Lemma test_cluster_ok : cluster_ok (list_to_set (test_ids 3)) (test_configs 3).
Proof. split; [vm_compute; reflexivity| | |vm_compute; reflexivity]; by_evaluation. Qed.

Lemma test_cluster_blank : map_Forall (λ _, blank) (test_configs 3).
Proof. by_evaluation. Qed.

(** The hypotheses of the theorems above on a run of the test cluster. *)
Ltac on_run :=
  first [exact test_cluster_ok | exact test_cluster_blank | vm_compute; reflexivity
        | left; vm_compute; reflexivity | vm_compute; congruence | lia].

(** Node 1 is elected, replicates a command to node 3 and commits it; both hand
    it to their state machines. *)
Definition replicate (cmd : bytes) : list event :=
  elect_one ++
  [Client 1 cmd; Run 5 true; Deliver 6 0; Return 6; Run 4 true;
   Run 6 true; Deliver 7 0; Return 7; Run 2 true; Run 6 true; Run 6 true; Consume 1;
   Run 0 true; Run 6 true; Run 6 true; Consume 3].

Definition replicate_one : list event := replicate [Byte.x61].

(** Node 1 is elected, commits two commands with node 3 and applies the first,
    folds it into a snapshot and sends that to node 2; node 2 is handed the
    snapshot, node 3 the command. *)
Definition fold_and_send : list event :=
  elect_one ++
  [Client 1 [Byte.x61]; Run 5 true; Deliver 6 0; Return 6; Run 2 true; Run 5 true; Run 5 true;
   Consume 1; Client 1 [Byte.x62]; Run 6 true; Deliver 7 0; Return 7;
   Compact 1 1 [Byte.x7b]; Run 4 true; Run 6 true; Deliver 6 0; Return 6; Consume 2;
   Run 0 true; Run 5 true; Run 5 true; Consume 3].

(** The world after a run of the test cluster. *)
Definition after (es : list event) : World MemoryPersister :=
  default (boot 0 (test_configs 3)) (run es (boot 0 (test_configs 3))).

Definition node_at (n : Z) (w : World MemoryPersister) : Raft MemoryPersister :=
  default NodeWitness.node (nodes w !! n).

Lemma cluster_refines_protocol_witness :
  ∃ h0 h, starts (list_to_set (test_ids 3)) h0 ∧ rtc (pstep (list_to_set (test_ids 3)) (λ _ _, True)) h0 h ∧
    abstracts true (after fold_and_send) h.
Proof.
  destruct (cluster_refines_protocol (list_to_set (test_ids 3)) (test_configs 3) 0 fold_and_send
    (after fold_and_send) true true test_cluster_ok) as (h0 & h & ? & _ & ? & ?);
    [on_run..|].
  exists h0, h. split; [assumption|]. split; assumption.
Defined.

Lemma log_matching_witness :
  (∀ j, 0 < j ≤ 2 → 1 < j →
     entry_at (node_at 3 (after fold_and_send)) j = entry_at (node_at 1 (after fold_and_send)) j) ∧
  eTerm <$> entry_at (node_at 3 (after fold_and_send)) 1 = Some 1.
Proof.
  destruct (log_matching (list_to_set (test_ids 3)) (test_configs 3) 0 fold_and_send
    (after fold_and_send) true 3 1 (node_at 3 (after fold_and_send)) (node_at 1 (after fold_and_send))
    2 (mkLogEntry 2 1 [Byte.x62]) (mkLogEntry 2 1 [Byte.x62])) as [Hsame Hterm]; [on_run..|].
  split; [exact Hsame|]. apply Hterm. vm_compute. reflexivity.
Defined.

Lemma leader_completeness_witness :
  commitIndex (node_at 3 (after replicate_one)) = 1 ∧
  entry_at (node_at 1 (after replicate_one)) 1 = entry_at (node_at 3 (after replicate_one)) 1.
Proof.
  split; [vm_compute; reflexivity|].
  apply (leader_completeness (list_to_set (test_ids 3)) (test_configs 3) 0 replicate_one
    (after replicate_one) false 3 1 (node_at 3 (after replicate_one)) (node_at 1 (after replicate_one)));
    try on_run. split; on_run.
Defined.

Lemma state_machine_safety_witness :
  (consumed fold_and_send (boot 0 (test_configs 3))).*1 = [1; 2; 3] ∧
  (∀ msg msg' msg'', consumed fold_and_send (boot 0 (test_configs 3)) =
     [(1, msg); (2, msg'); (3, msg'')] → msg = msg'' ∧
     eTerm <$> entry_at (node_at 3 (after fold_and_send)) 1 = Some (amLastIncludedTerm msg')).
Proof.
  split; [vm_compute; reflexivity|]. intros msg msg' msg'' E.
  destruct (state_machine_safety (list_to_set (test_ids 3)) (test_configs 3) 0 fold_and_send
    (after fold_and_send) true test_cluster_ok) as (Hcmd & Hsnap & _); [on_run..|].
  pose proof (λ H, Hcmd 1 3 msg msg'' H) as Hc.
  pose proof (λ H, Hsnap 2 3 msg' (node_at 3 (after fold_and_send)) H) as Hs.
  rewrite E in Hc, Hs.
  specialize (Hc (list_elem_of_here _ _) (list_elem_of_further _ _ _ (list_elem_of_further _ _ _ (list_elem_of_here _ _)))).
  specialize (Hs (list_elem_of_further _ _ _ (list_elem_of_here _ _))).
  vm_compute in E. injection E as <- <- <-. split.
  - apply Hc; reflexivity.
  - apply Hs; [reflexivity|on_run|split; vm_compute; congruence].
Defined.

(** ** What the side conditions rule out *)

Definition restart_uncommitted : list event :=
  [(* node 1 leads term 1, appends a command, crashes and restarts *)
   Timeout 1 0; Run 5 true; Run 5 true; Deliver 7 0; Deliver 7 0; Return 7; Return 7; Run 7 true;
   Client 1 [Byte.x61]; Crash 1; Restart 1 0;
   (* it leads term 2 and tells node 2, which applies the command *)
   Timeout 1 0; Run 5 true; Run 5 true; Deliver 7 0; Deliver 7 0; Return 7; Return 7; Run 7 true;
   Run 7 true; Run 11 true; Deliver 11 0; Return 11; Run 11 true; Deliver 11 0; Drop 11;
   Run 3 true; Run 10 true; Run 10 true; Consume 2;
   (* node 3 leads term 3, commits another command with nodes 4 and 5 and applies it *)
   Timeout 3 0; Run 11 true; Run 11 true; Deliver 13 0; Deliver 13 0; Return 13; Return 13;
   Run 13 true; Client 3 [Byte.x62]; Run 14 true; Run 14 true; Deliver 16 0; Deliver 16 0;
   Return 16; Return 16; Run 1 true; Run 15 true; Run 15 true; Consume 3].

(** [loadPersistedState] takes the whole recovered log for committed.  In
    a cluster of five, a leader that crashes with one unreplicated entry
    restarts with that entry committed, is elected again and spreads its commit
    index: nodes 2 and 3 then hand different commands at index 1 to their state
    machines, in a run in which every disk works and every other side condition
    holds. *)
Theorem restart_breaks_state_machine_safety :
  steady_run false false restart_uncommitted (boot 0 (test_configs 5)) = true ∧
  consumed restart_uncommitted (boot 0 (test_configs 5)) =
    [(2, command_msg [Byte.x61] 1); (3, command_msg [Byte.x62] 1)].
Proof. split; vm_compute; reflexivity. Qed.

(** [steady_event] without the condition on votes. *)
Definition steady_but_votes {P} `{Persister P} (w : World P) (e : event) : bool :=
  match e with Deliver _ _ => fair_event w e | _ => steady_event true true w e end.

Fixpoint steady_but_votes_run {P} `{Persister P} (es : list event) (w : World P) : bool :=
  match es with
  | [] => true
  | e :: es =>
      (steady_but_votes w e &&
       match step e w with Some w' => steady_but_votes_run es w' | None => true end)%bool
  end.

Definition vote_after_compaction : list event :=
  elect_one ++
  [(* node 1 leads term 1, commits a command with node 2, applies and folds it *)
   Client 1 [Byte.x61]; Run 6 true; Deliver 6 0; Return 6; Run 2 true; Run 5 true; Run 5 true;
   Consume 1; Compact 1 1 [Byte.x7b];
   (* node 3, whose log is empty, stands for term 2 and gets the vote of node 1 *)
   Timeout 3 0; Run 7 true; Deliver 7 0; Return 7; Run 7 true;
   (* it commits another command with node 2 and applies it *)
   Client 3 [Byte.x62]; Run 8 true; Deliver 9 0; Return 9; Run 0 true; Run 8 true; Run 8 true;
   Consume 3].

(** [getLastLogInfoLocked] forgets the snapshot.  A node that has folded
    its whole log says of it that it is empty, and votes for anybody.  In a
    cluster of three, one compaction is enough: the leader of term 1 votes for a
    candidate without the command it has committed, the new leader overwrites
    that command on the third node, and nodes 1 and 3 hand different commands at
    index 1 to their state machines, in a run without a crash or a disk error
    that satisfies every other side condition. *)
Theorem compaction_breaks_state_machine_safety :
  steady_but_votes_run vote_after_compaction (boot 0 (test_configs 3)) = true ∧
  consumed vote_after_compaction (boot 0 (test_configs 3)) =
    [(1, command_msg [Byte.x61] 1); (3, command_msg [Byte.x62] 1)].
Proof. split; vm_compute; reflexivity. Qed.

Definition refused_snapshot : list event :=
  elect_one ++
  [(* node 1 leads term 1 and appends a command that nobody else gets *)
   Client 1 [Byte.x61];
   (* node 3 leads term 2, commits a command with node 2, applies and folds it *)
   Timeout 3 0; Run 7 true; Deliver 8 0; Return 8; Run 8 true;
   Client 3 [Byte.x62]; Run 9 true; Deliver 10 0; Return 10; Run 0 true; Run 9 true; Run 9 true;
   Consume 3; Compact 3 1 [Byte.x7b];
   (* node 1 is sent the snapshot *)
   Run 8 true; Run 9 true; Deliver 9 0; Return 9].

(** A refused snapshot counts as installed.  [InstallSnapshot] discards a
    snapshot that contradicts the follower's log, which is not impossible, as its
    comment says, but what an uncommitted entry of an earlier leader looks like;
    the answer is that of success.  In a run that satisfies every side condition
    the leader then notes that node 1 has everything up to the snapshot, while
    node 1 has kept its own entry.  (The index is committed already, so that
    safety does not suffer.) *)
Theorem refused_snapshot_counted :
  steady_run true true refused_snapshot (boot 0 (test_configs 3)) = true ∧
  matchIndex <$> peers (node_at 3 (after refused_snapshot)) !! 1 = Some 1 ∧
  entry_at (node_at 1 (after refused_snapshot)) 1 = Some (mkLogEntry 1 1 [Byte.x61]) ∧
  consumed refused_snapshot (boot 0 (test_configs 3)) = [(3, command_msg [Byte.x62] 1)].
Proof. split_and!; vm_compute; reflexivity. Qed.
