(* ===== verification/NodeInvariant.v ===== *)
(** * The well-formed state of a cluster

    What holds of every node, of every disk and of every message in flight, in
    every run, compaction and snapshot transfer included: logs are contiguous
    and within range, the cursors are ordered, the durable log continues the
    durable snapshot, the leader's bookkeeping is within range, and whatever is
    sent satisfies the precondition of the handler that will receive it.

    [tidy] is what almost every critical section does with a node; the others
    ([apply_take], compaction, an installed snapshot, a restart) are treated one
    by one. *)

From S2P Require Import Prelude Types Persister Node Election Replication Snapshot Cluster.
From S2P Require Import ElectionSafety Protocol LogFrames ClusterRefinement ClusterSafety.

(** Closes [tidy r r'] where [r'] is [r] with other fields updated. *)
Ltac tidy_solve :=
  split; cbn; auto; let H := fresh in intros H; by wf_same H.

Section invariant.
Context {P : Type} `{PL : PersisterLaws P}.
Implicit Types (r : Raft P) (w : World P).

(** What a leader notes about its followers. *)
Definition in_range r : Prop := ∀ id p, peers r !! id = Some p →
  0 ≤ nextIndex p ≤ 2 ^ 62 ∧ 0 ≤ matchIndex p < 2 ^ 62.

(** The snapshot on disk, if any, ends where the log in memory begins. *)
Definition whole r : bool :=
  match LoadSnapshot (persister r) with
  | inl (_, i, _) => i =? logBase r
  | inr _ => logBase r =? 0
  end.

(** The log on disk continues the snapshot on disk. *)
Definition mountable (p : P) : Prop :=
  match Load p, LoadSnapshot p with
  | inl (_, _, l), inl (_, i, _) => contiguous i l ∧ 0 ≤ i ∧ i + len l < 2 ^ 62
  | inl (_, _, l), inr _ => contiguous 0 l ∧ len l < 2 ^ 62
  | inr _, inl _ => False
  | inr _, inr _ => True
  end.

Record hosted r : Prop := mkHosted {
  ho_wf : wf r;
  ho_whole : whole r = true;
  ho_disk : mountable (persister r);
  ho_peers : in_range r
}.

(** ** What most critical sections do *)

Record tidy r r' : Prop := mkTidy {
  td_base : logBase r' = logBase r;
  td_applied : lastApplied r' = lastApplied r;
  td_chan : applyCh r' = applyCh r;
  td_snapshot : LoadSnapshot (persister r') = LoadSnapshot (persister r);
  td_saved : Load (persister r') = Load (persister r) ∨
    ∃ t v l, Load (persister r') = inl (t, v, l) ∧ (wf r → contiguous (logBase r) l ∧
      logBase r + len l < 2 ^ 62);
  td_wf : wf r → wf r';
  td_peers : wf r → in_range r → in_range r'
}.

#[export] Instance tidy_refl : Reflexive tidy.
Proof. intros r. split; auto. Qed.

#[export] Instance tidy_trans : Transitive tidy.
Proof.
  intros r1 r2 r3 [Hb Ha Hc Hsn Hs Hw Hp] [Hb' Ha' Hc' Hsn' Hs' Hw' Hp']. split; try congruence; auto.
  destruct Hs' as [Hs'|(t & v & l & Hl & Hi)]; [rewrite Hs'|]; auto.
  right. exists t, v, l. split; [done|]. intros Hw1. rewrite <- Hb. auto.
Qed.

Lemma whole_base r : whole r = true → match LoadSnapshot (persister r) with
  | inl (_, i, _) => i = logBase r | inr _ => logBase r = 0 end.
Proof. unfold whole. destruct (LoadSnapshot _) as [[[d i] t]|]; by intros ?%Z.eqb_eq. Qed.

Lemma tidy_hosted r r' : hosted r → tidy r r' → hosted r'.
Proof.
  intros [Hw Hwh Hd Hp] [Hb _ _ Hsn Hs Hw' Hp']. split; auto.
  - unfold whole in *. by rewrite Hsn, Hb.
  - apply whole_base in Hwh. unfold mountable in *. rewrite Hsn.
    destruct Hs as [->|(t & v & l & -> & Hl)]; [done|]. destruct (Hl Hw) as [Hc Hlen].
    destruct (LoadSnapshot _) as [[[d i] st]|e].
    + rewrite Hwh. split_and!; auto. apply Hw.
    + rewrite Hwh in *. split; [done|lia].
Qed.

Lemma persist_tidy r r' o : persist r = (r', o) → tidy r r'.
Proof.
  intros (p & -> & Hs)%persist_inv. split; cbn; auto.
  - by eapply save_keeps_snapshot.
  - destruct o as [e|]; [left; by eapply save_failed|right]. eexists _, _, _.
    split; [by eapply save_load|]. intros []. auto.
  - intros Hw. by wf_same Hw.
Qed.

Lemma timer_tidy rnd r : tidy r (resetElectionTimerLocked rnd r).
Proof. destruct (resetElectionTimerLocked_inv rnd r) as [t ->]. tidy_solve. Qed.

Lemma stepDown_tidy t r : tidy r (stepDown t r).
Proof. tidy_solve. Qed.

Lemma becomeCandidate_begin_tidy r : tidy r (fst (becomeCandidate_begin r)).
Proof.
  unfold becomeCandidate_begin. branch; [done|]. branch; [done|].
  destruct (persist _) as [r1 o] eqn:Hp. apply persist_tidy in Hp.
  destruct o; cbn; (etrans; [|exact Hp]); tidy_solve.
Qed.

Lemma last_index_range r e : wf r → last (log r) = Some e → 0 < eIndex e < 2 ^ 62.
Proof.
  intros Hw Hl. pose proof Hw as []. rewrite index_last in Hl.
  pose proof (index_Some_range _ _ _ Hl). rewrite (wf_contig _ _ Hl). unfold last_index in *. lia.
Qed.

Lemma becomeLeader_tidy r : tidy r (fst (becomeLeader r)).
Proof.
  unfold becomeLeader. branch; [done|]. cbn -[last].
  set (li := match last (log r) with Some e => eIndex e | None => 0 end).
  split; try by destruct (electionTimer r); cbn; auto.
  - destruct (electionTimer r); intros Hw; by wf_same Hw.
  - intros Hw _ id p Hp.
    assert (0 ≤ li < 2 ^ 62) as Hli.
    { subst li. destruct (last (log r)) as [e|] eqn:Hl; [|lia]. pose proof (last_index_range r e Hw Hl). lia. }
    assert (nextIndex p = li +! 1 ∧ matchIndex p = 0) as [-> ->].
    { destruct (electionTimer r); cbn in Hp; rewrite lookup_fmap in Hp;
        by apply fmap_Some in Hp as (p0 & _ & ->). }
    rewrite i64_id by lia. lia.
Qed.

(** A peer's record changes, its indices do not leave their range. *)
Lemma peer_tidy r id p p' : peers r !! id = Some p →
  (0 ≤ nextIndex p ≤ 2 ^ 62 ∧ 0 ≤ matchIndex p < 2 ^ 62 →
   0 ≤ nextIndex p' ≤ 2 ^ 62 ∧ 0 ≤ matchIndex p' < 2 ^ 62) →
  tidy r (r <| peers := <[id := p']> (peers r) |>).
Proof.
  intros Hp Hpp. split; cbn; auto; [intros Hw; by wf_same Hw|].
  intros Hw Hr i q. cbn. intros [[<- <-]|[_ Hq]]%lookup_insert_Some; [eauto|by eapply Hr].
Qed.

Lemma sendRequestVote_request_tidy d id t r : tidy r (fst (sendRequestVote_request d id t r)).
Proof.
  unfold sendRequestVote_request, getLastLogInfoLocked.
  destruct (peers r !! id) as [p|] eqn:Hp; [|done].
  destruct (ensureConnected _ _) as [p' [e|]] eqn:He; [done|]. apply ensureConnected_inv in He.
  case_match; (eapply peer_tidy; [exact Hp|by rewrite He]).
Qed.

Lemma sendRequestVote_reply_tidy t resp r : tidy r (fst (sendRequestVote_reply t resp r)).
Proof.
  unfold sendRequestVote_reply. branch; [done|]. branch; [apply stepDown_tidy|].
  branch; [|done]. branch; tidy_solve.
Qed.

Lemma RequestVote_tidy rnd req r : tidy r (fst (RequestVote rnd req r)).
Proof.
  unfold RequestVote. branch; [done|].
  destruct (if currentTerm r <? rvTerm req then _ else _) as [r1 resp] eqn:E.
  assert (tidy r r1) as Hf by (revert E; branch; intros [= <- <-]; [tidy_solve|done]).
  branch; [|done]. destruct (getLastLogInfoLocked r1) as [li lt]. branch; [|done].
  destruct (persist r1) as [r2 [e|]] eqn:Hp; apply persist_tidy in Hp; cbn.
  - by etrans.
  - etrans; [exact Hf|]. etrans; [exact Hp|]. etrans; [|apply timer_tidy]. tidy_solve.
Qed.

Lemma sendAppendEntries_request_tidy d id t c r : tidy r (fst (sendAppendEntries_request d id t c r)).
Proof.
  destruct (sendAppendEntries_request d id t c r) as [r' a] eqn:E.
  apply sendAppendEntries_request_inv in E as [->|(p & p' & Hp & He & ->)]; [done|].
  eapply peer_tidy; [exact Hp|by rewrite He].
Qed.

Lemma sendInstallSnapshot_request_tidy d id t r : tidy r (fst (sendInstallSnapshot_request d id t r)).
Proof.
  unfold sendInstallSnapshot_request. branch; [done|].
  destruct (peers r !! id) as [p|] eqn:Hp; [|done]. branch; [done|].
  destruct (ensureConnected _ _) as [p' [e|]] eqn:He; [done|]. apply ensureConnected_inv in He.
  eapply peer_tidy; [exact Hp|by rewrite He].
Qed.

Lemma runHeartbeat_turn_tidy r : tidy r (fst (runHeartbeat_turn r)).
Proof. unfold runHeartbeat_turn. destruct (ctx r) as [[]|]; [tidy_solve|done..]. Qed.

Lemma updateCommitIndex_tidy r : tidy r (updateCommitIndex r).
Proof.
  pose proof (updateCommitIndex_wf r). destruct (updateCommitIndex_inv r) as (n & c & E & _).
  rewrite E in *. split; cbn; auto.
Qed.

Lemma follower_commit_tidy req r : ae_wf req → tidy r (follower_commit req r).
Proof.
  intros Hreq. pose proof (λ Hw, wf_follower_commit req r Hw Hreq) as Hw. unfold follower_commit in *.
  revert Hw. branch; intros Hw; [|done]. split; cbn; auto.
Qed.

Lemma AppendEntries_tidy rnd req r : wf r → ae_wf req → tidy r (fst (AppendEntries rnd req r)).
Proof.
  intros Hw Hreq. pose proof (AppendEntries_wf rnd req r Hw Hreq) as Hw'.
  assert (tidy r (ae_contact rnd req r)) as Hc.
  { destruct (ae_contact_inv rnd req r) as (?&?&?&?&?&->). tidy_solve. }
  destruct (ae_contact_frame rnd req r) as (_ & _ & Hpe & _). cbv zeta in Hpe.
  assert (∀ p o, consistent req r = true → (aePrevLogIndex req < logBase r → aeEntries req = []) →
    Save (aeTerm req) (votedFor (ae_contact rnd req r)) (merged_log req r) (persister r) = (p, o) ∨
    p = persister r →
    tidy r ((ae_contact rnd req r) <| log := merged_log req r |> <| persister := p |>)) as Hm.
  { intros p o Hco Hlow Hp. destruct (merged_log_contiguous req r) as (Hmc & _ & Hml); auto.
    etrans; [exact Hc|]. split; cbn; auto; rewrite ?Hpe.
    - destruct Hp as [Hp| ->]; [|done]. by eapply save_keeps_snapshot.
    - destruct Hp as [Hp| ->]; [|by left]. destruct o as [e|]; [left; by eapply save_failed|].
      right. eexists _, _, _. split; [by eapply save_load|]. intros _.
      rewrite (td_base _ _ Hc). pose proof Hw as []. destruct Hreq. unfold last_index in *. split; [done|lia].
    - intros Hwc. apply wf_merged; auto. apply Hc. }
  destruct (AppendEntries_outcome rnd req r Hw Hreq); [done|done..| |].
  - eapply Hm; eauto.
  - etrans; [eapply (Hm p None); auto; by destruct (already_there req r); auto|].
    by apply follower_commit_tidy.
Qed.

Lemma sendAppendEntries_reply_tidy id t c prev n resp r : 0 ≤ prev + n < 2 ^ 62 →
  tidy r (fst (sendAppendEntries_reply id t c prev n resp r)).
Proof.
  intros Hb. unfold sendAppendEntries_reply. branch; [done|]. branch; [apply stepDown_tidy|].
  destruct (peers r !! id) as [p|] eqn:Hp; [|done]. unwrap. branch; cbn.
  - etrans; [|apply updateCommitIndex_tidy]. eapply peer_tidy; [exact Hp|]. intros [? ?].
    destruct (Z.ltb_spec (matchIndex p) (prev + n)); cbn; rewrite i64_id by lia; lia.
  - eapply peer_tidy; [exact Hp|]. intros [? ?].
    destruct (Z.ltb_spec 1 (nextIndex p)); cbn; rewrite ?i64_id by lia; lia.
Qed.

Lemma sendInstallSnapshot_reply_tidy id t lastIdx resp r : 0 ≤ lastIdx < 2 ^ 62 →
  tidy r (sendInstallSnapshot_reply id t lastIdx resp r).
Proof.
  intros Hb. unfold sendInstallSnapshot_reply. branch; [done|]. branch; [apply stepDown_tidy|].
  destruct (peers r !! id) as [p|] eqn:Hp; [|done].
  etrans; [|apply updateCommitIndex_tidy]. eapply peer_tidy; [exact Hp|]. intros [? ?].
  destruct (Z.ltb_spec (matchIndex p) lastIdx); cbn; rewrite i64_id by lia; lia.
Qed.

Lemma ReplicateCommand_begin_tidy cmd r : wf r → last_index r + 1 < 2 ^ 62 →
  tidy r (fst (ReplicateCommand_begin cmd r)).
Proof.
  intros Hw Hb. destruct (decide (state r = Leader)) as [Hs|Hs]; last first.
  { unfold ReplicateCommand_begin. apply state_eqb_false in Hs. by rewrite Hs. }
  rewrite ReplicateCommand_begin_unfold by done. cbv zeta.
  destruct (Save _ _ _ _) as [p [e|]] eqn:Hsv; cbn.
  - split; cbn; auto; [by eapply save_keeps_snapshot|left; by eapply save_failed|].
    intros Hw'. by wf_same Hw'.
  - etrans; [|apply updateCommitIndex_tidy]. pose proof (wf_append r (new_entry cmd r) p Hw eq_refl Hb) as Hw'.
    split; cbn; auto; [by eapply save_keeps_snapshot|].
    right. eexists _, _, _. split; [by eapply save_load|]. destruct Hw'. auto.
Qed.

(** ** The other critical sections *)

Lemma apply_take_hosted r : hosted r → hosted (fst (apply_take r)).
Proof.
  intros [Hw Hwh Hd Hp]. destruct (Z.le_gt_cases (deliverable r) (lastApplied r)) as [Hle|Hgt].
  - by rewrite apply_take_None.
  - destruct (apply_take_Some r Hw Hgt) as (e & _ & ->). split; auto. by apply wf_take.
Qed.

Lemma applyCh_hosted r ch : hosted r → hosted (r <| applyCh := ch |>).
Proof. intros []. split; auto using wf_applyCh. Qed.

(** The durable state after the log has been cut and the snapshot written. *)
Lemma cut_mountable r r1 p2 o o2 d i t : persist r = (r1, o) →
  SaveSnapshot d i t (persister r1) = (p2, o2) → contiguous (logBase r) (log r) →
  0 ≤ logBase r → logBase r + len (log r) < 2 ^ 62 → o = None →
  whole (r1 <| persister := p2 |>) = true → mountable p2.
Proof.
  intros (p & -> & Hs)%persist_inv Hss Hc Hb Hlen -> Hwh%whole_base. cbn in *.
  apply save_load in Hs. apply snapshot_keeps_state in Hss. unfold mountable.
  rewrite Hss, Hs. destruct (LoadSnapshot p2) as [[[d' i'] t']|e]; subst; auto.
  rewrite Hwh in *. split; [done|lia].
Qed.

(** A persister that has not taken the snapshot leaves the node torn. *)
Lemma cut_torn r r1 o : persist r = (r1, o) → whole r1 = true → whole r = true.
Proof.
  intros (p & -> & Hs)%persist_inv. unfold whole. cbn. by rewrite (save_keeps_snapshot _ _ _ _ _ _ Hs).
Qed.

Lemma compacted_torn idx data e r : logBase r < idx → whole r = true →
  whole (compacted idx data e r) = false.
Proof.
  intros Hlt Hwh%whole_base. unfold whole. cbn.
  destruct (LoadSnapshot _) as [[[d i] t]|]; apply Z.eqb_neq; lia.
Qed.

(** Cutting the log and writing the snapshot, as [Snapshot] and
    [InstallSnapshot] do after they have changed the node in memory: unless it
    is torn, the node is in order again. *)
Lemma cut_hosted r r1 p2 o : wf r → in_range r → whole r = false → persist r = (r1, o) →
  (∀ e, o = Some e → p2 = persister r1) →
  (o = None → ∃ d i t o2, SaveSnapshot d i t (persister r1) = (p2, o2)) →
  whole (r1 <| persister := p2 |>) = true → hosted (r1 <| persister := p2 |>).
Proof.
  intros Hw Hr Hto Hp He Hs Hwh. pose proof (persist_tidy _ _ _ Hp) as Ht. destruct o as [e|].
  - exfalso. rewrite (He e eq_refl) in Hwh.
    assert (whole r1 = true) as Hw1 by exact Hwh. apply (cut_torn _ _ _ Hp) in Hw1. congruence.
  - destruct (Hs eq_refl) as (d & i & t & o2 & Hss). pose proof Hw as [].
    split; [apply wf_persister, Ht, Hw|done| |by apply Ht].
    eapply cut_mountable; eauto.
Qed.

Lemma Snapshot_hosted idx data r : hosted r → idx ≤ lastApplied r →
  whole (fst (Snapshot idx data r)) = true → hosted (fst (Snapshot idx data r)).
Proof.
  intros Hh Hi. pose proof Hh as [Hw Hwh _ Hr]. pose proof Hw as [].
  rewrite Snapshot_unfold by (done || lia). branch; [done|]. branch; [done|]. branch; [done|].
  destruct (entry_at r idx) as [e|] eqn:He; [|done].
  pose proof (compacted_torn idx data e r ltac:(lia) Hwh) as Hto.
  pose proof (wf_compacted idx data e r Hw He ltac:(lia)) as Hwc.
  destruct (persist _) as [r1 [err|]] eqn:Hp; cbn [fst].
  - intros Hwh1. apply (cut_torn _ _ _ Hp) in Hwh1. congruence.
  - destruct (SaveSnapshot _ _ _ _) as [p2 o2] eqn:Hss. cbn [fst].
    eapply cut_hosted; eauto 6; done.
Qed.

Lemma is_contact_tidy rnd req r : tidy r (is_contact rnd req r).
Proof.
  unfold is_contact. etrans; [|etrans; [apply (timer_tidy rnd)|]]; [|tidy_solve].
  branch; [apply stepDown_tidy|done].
Qed.

Lemma InstallSnapshot_hosted rnd req r : hosted r → isLastIncludedIndex req < 2 ^ 62 →
  whole (fst (InstallSnapshot rnd req r)) = true → hosted (fst (InstallSnapshot rnd req r)).
Proof.
  intros Hh Hb. rewrite InstallSnapshot_unfold. branch; [done|]. branch; [done|]. cbv zeta.
  pose proof (tidy_hosted _ _ Hh (is_contact_tidy rnd req r)) as Hh1.
  generalize dependent (is_contact rnd req r). clear Hh. intros x Hh. branch; [done|].
  pose proof Hh as [Hw Hwh _ Hr].
  assert (commitIndex x < isLastIncludedIndex req < 2 ^ 62) as Hc by lia.
  pose proof (wf_installed req x Hw Hc) as Hwi.
  assert (whole (installed req x) = false) as Hto.
  { apply whole_base in Hwh. pose proof Hw as []. unfold whole. cbn.
    destruct (LoadSnapshot _) as [[[d i] t]|]; apply Z.eqb_neq; lia. }
  destruct (persist _) as [r1 [err|]] eqn:Hp; cbn [fst].
  { intros Hwh1. apply (cut_torn _ _ _ Hp) in Hwh1. congruence. }
  destruct (SaveSnapshot _ _ _ _) as [p2 o2] eqn:Hss.
  assert (whole (r1 <| persister := p2 |>) = true → hosted (r1 <| persister := p2 |>)) as Hdone
    by (eapply cut_hosted; eauto 6; done).
  destruct o2 as [err|]; [done|].
  destruct (send_applyCh _ _) as [r2|] eqn:Hse; [|done].
  apply send_applyCh_inv in Hse as ->. intros Hwh2. by apply applyCh_hosted, Hdone.
Qed.

(** A node comes back in order from a disk in order. *)
Lemma NewRaft_hosted cfg p r : mountable p → NewRaft (cfg <| cfgPersister := Some p |>) = Ret r →
  hosted r.
Proof.
  intros Hm Hr. pose proof (NewRaft_Ret _ _ Hr) as [_ Hfl].
  assert (contiguous (snapshot_end (recovered_snapshot p)) (recovered p).2 ∧
    0 ≤ snapshot_end (recovered_snapshot p) ∧
    snapshot_end (recovered_snapshot p) + len (recovered p).2 < 2 ^ 62) as (Hc & Hi & Hlen).
  { unfold mountable, recovered, recovered_snapshot in *.
    destruct (Load p) as [[[t v] l]|e], (LoadSnapshot p) as [[[d i] st]|e']; cbn; destruct_and?; try done.
    all: split_and!; auto using contiguous_nil; done || lia. }
  destruct (NewRaft_recovers cfg p r Hr Hc Hi Hlen) as (_ & Hp & Hb & _ & _ & Hw & _).
  split; [done| |by rewrite Hp|].
  - unfold whole, mountable, recovered_snapshot in *. rewrite Hp, Hb.
    destruct (Load p) as [[[t v] l]|e], (LoadSnapshot p) as [[[d i] st]|e']; try done. apply Z.eqb_refl.
  - intros id q. rewrite (fl_peers _ _ Hfl), map_lookup_imap. cbn.
    destruct (Peers cfg !! id); cbn; intros [= <-]. cbn. lia.
Qed.

(** ** Messages and the cluster *)

(** What a goroutine that waits for a reply will add to its bookkeeping. *)
Definition good_cont (k : cont) : Prop :=
  match k with
  | KVote _ _ _ => True
  | KAppend _ _ _ _ prev n => 0 ≤ prev + n < 2 ^ 62
  | KSnapshot _ _ _ lastIdx => 0 ≤ lastIdx < 2 ^ 62
  end.

Definition good_request (q : request) : Prop :=
  match q with
  | QVote _ => True
  | QAppend req => ae_wf req
  | QSnapshot req => 0 ≤ isLastIncludedIndex req < 2 ^ 62
  end.

Definition good_task (t : task) : Prop :=
  match t with
  | TCall _ q k => good_request q ∧ from_option good_cont True k
  | TReply k _ => good_cont k
  | _ => True
  end.

Record well_formed w : Prop := mkWellFormed {
  wl_up n r : nodes w !! n = Some r → hosted r;
  wl_down n r : down w !! n = Some r → hosted r;
  wl_tasks : Forall good_task (tasks w)
}.

(** The log stays short of [2^62] entries, the state machine compacts only what
    has been applied, and no disk error tears a compaction. *)
Definition sane_event w (e : event) : bool :=
  match e with
  | Client n _ => match nodes w !! n with Some r => last_index r + 1 <? 2 ^ 62 | None => true end
  | Compact n idx data =>
      match nodes w !! n with
      | Some r => (idx <=? lastApplied r) && whole (fst (Snapshot idx data r))
      | None => true
      end
  | Deliver i rnd =>
      match tasks w !! i with
      | Some (TCall dst (QSnapshot req) _) =>
          match nodes w !! dst with
          | Some r => whole (fst (InstallSnapshot rnd req r)) | None => true end
      | _ => true
      end
  | _ => true
  end%bool.

Fixpoint sane_run (es : list event) w : bool :=
  match es with
  | [] => true
  | e :: es =>
      (sane_event w e && match step e w with Some w' => sane_run es w' | None => true end)%bool
  end.

(** Node [n] goes on as [r'], tasks [ts] are added, task [i] may be gone. *)
Lemma well_formed_step w w' n r' : well_formed w → hosted r' →
  nodes w' = <[n := r']> (nodes w) → down w' = down w →
  Forall good_task (tasks w') → well_formed w'.
Proof.
  intros [Hu Hd Ht] Hr Hn Hdn Hts. split; [| |done].
  - intros m r. rewrite Hn. intros [[<- <-]|[_ ?]]%lookup_insert_Some; eauto.
  - rewrite Hdn. eauto.
Qed.

Lemma good_replace w i ts : Forall good_task (tasks w) → Forall good_task ts →
  Forall good_task (delete i (tasks w) ++ ts).
Proof. intros Hw Hts. apply Forall_app. split; [by apply Forall_delete|done]. Qed.

Lemma good_goroutines n (gs : list goroutine) : Forall good_task (TGo n <$> gs).
Proof. apply Forall_fmap, Forall_true. done. Qed.

Lemma good_answer k a : from_option good_cont True k → Forall good_task (answer k a).
Proof. intros Hk. destruct k; constructor; auto. Qed.

Lemma good_orphan n t t' : good_task t → orphan n t = Some t' → good_task t'.
Proof.
  intros Ht. destruct t as [m g|dst q k|k a|m T|m|m msg]; cbn; try (case_decide; intros [= <-]; done).
  destruct k as [k|]; cbn; [case_decide|]; intros [= <-]; cbn in *; tauto.
Qed.

Lemma good_crash n ts : Forall good_task ts → Forall good_task (omap (orphan n) ts).
Proof.
  rewrite !Forall_forall. intros Ht t. rewrite list_elem_of_omap. intros (t0 & Hin & Ho).
  eapply good_orphan; eauto.
Qed.

Lemma well_formed_crash w n r : well_formed w → hosted r → well_formed (crash n r w).
Proof.
  intros [Hu Hd Ht] Hr. split; cbn.
  - intros m r'. rewrite lookup_delete_Some. intros [_ ?]. eauto.
  - intros m r' [[<- <-]|[_ ?]]%lookup_insert_Some; eauto.
  - by apply good_crash.
Qed.

Lemma sendInstallSnapshot_request_good d id t r r' req lastIdx : wf r →
  sendInstallSnapshot_request d id t r = (r', Some (req, lastIdx)) →
  0 ≤ isLastIncludedIndex req < 2 ^ 62 ∧ 0 ≤ lastIdx < 2 ^ 62.
Proof.
  intros Hw. pose proof Hw as []. pose proof (len_nonneg (log r)). unfold last_index in *.
  unfold sendInstallSnapshot_request. branch; [done|]. destruct (peers r !! id); [|done].
  branch; [done|]. destruct (ensureConnected _ _) as [p' [e|]]; [done|].
  intros [= _ <- <-]. cbn. lia.
Qed.

Lemma run_goroutine_tidy n g d r r' ts : run_goroutine n g d r = Some (r', ts) → tidy r r'.
Proof.
  destruct g as [id T|id T c|id T| |]; cbn [run_goroutine].
  - pose proof (sendRequestVote_request_tidy d id T r) as Ht.
    destruct (sendRequestVote_request _ _ _ _) as [r1 o]. by intros [= <- _].
  - pose proof (sendAppendEntries_request_tidy d id T c r) as Ht.
    destruct (sendAppendEntries_request _ _ _ _ _) as [r1 a]. by intros [= <- _].
  - pose proof (sendInstallSnapshot_request_tidy d id T r) as Ht.
    destruct (sendInstallSnapshot_request _ _ _ _) as [r1 o]. by intros [= <- _].
  - pose proof (runHeartbeat_turn_tidy r) as Ht.
    destruct (runHeartbeat_turn r) as [r1 o]. by intros [= <- _].
  - branch; [|done]. intros [= <- _]. tidy_solve.
Qed.

Lemma run_goroutine_good n g d r r' ts : wf r → in_range r → run_goroutine n g d r = Some (r', ts) →
  Forall good_task ts.
Proof.
  intros Hw Hr. destruct g as [id T|id T c|id T| |]; cbn [run_goroutine].
  - destruct (sendRequestVote_request _ _ _ _) as [r1 [req|]]; intros [= _ <-]; repeat constructor.
  - destruct (sendAppendEntries_request _ _ _ _ _) as [r1 a] eqn:E. intros [= _ <-].
    destruct a as [| |req prev m]; [constructor|repeat constructor|].
    destruct (sendAppendEntries_request_segment d id T c r r1 req prev m Hw) as ([Hreq _ _ _] & -> & -> & _); auto.
    { intros p Hp. destruct (Hr id p Hp). lia. }
    constructor; [|constructor]. cbn. split; [done|]. destruct Hreq. pose proof (len_nonneg (aeEntries req)). lia.
  - destruct (sendInstallSnapshot_request _ _ _ _) as [r1 [[req li]|]] eqn:E; intros [= _ <-]; [|constructor].
    apply sendInstallSnapshot_request_good in E; [|done]. constructor; [exact E|constructor].
  - destruct (runHeartbeat_turn r) as [r1 [gs|]]; intros [= _ <-]; [|constructor].
    constructor; [done|apply good_goroutines].
  - branch; [|done]. intros [= _ <-]. repeat constructor.
Qed.
(** One critical section on node [n], after which tasks [ts] replace task [i]. *)
Lemma well_formed_replace w n r' i ts :
  well_formed w → hosted r' → Forall good_task ts →
  well_formed (spawn ts (finish i (set_node n r' w))).
Proof. intros Hw Hr Hts. apply (well_formed_step w _ n r'); auto. by apply good_replace, Hts; destruct Hw. Qed.

Lemma well_formed_run_task w i d w' : well_formed w → run_task i d w = Some w' → well_formed w'.
Proof.
  intros Hw. unfold run_task. destruct (tasks w !! i) as [[n g|dst q k|k a|n T|n|n msg]|] eqn:Ht; try done;
    destruct (nodes w !! n) as [r|] eqn:Hn; cbn; try done;
    pose proof (wl_up _ Hw n r Hn) as Hh.
  - destruct (run_goroutine n g d r) as [[r1 ts]|] eqn:Hg; [|done]. cbn. intros [= <-].
    pose proof (run_goroutine_tidy _ _ _ _ _ _ Hg). pose proof Hh as [Hwf _ _ Hr].
    apply well_formed_replace; [done|by eapply tidy_hosted|by eapply run_goroutine_good].
  - pose proof (becomeLeader_tidy r) as Hl. destruct (becomeLeader r) as [r1 gs]. intros [= <-].
    apply well_formed_replace; [by branch; destruct Hw; split|by eapply tidy_hosted|apply good_goroutines].
  - pose proof (apply_take_hosted r Hh) as Hl. destruct (apply_take r) as [r1 o]. intros [= <-].
    apply well_formed_replace; auto. repeat constructor. by destruct o.
  - destruct (send_applyCh msg r) as [r1|] eqn:Hs; [|done]. cbn. intros [= <-].
    apply send_applyCh_inv in Hs as ->. apply well_formed_replace; auto using applyCh_hosted. repeat constructor.
Qed.

Lemma well_formed_deliver w i rnd w' : well_formed w → deliver i rnd w = Some w' →
  sane_event w (Deliver i rnd) = true → well_formed w'.
Proof.
  intros Hw. unfold deliver, sane_event.
  destruct (tasks w !! i) as [[n g|dst q k|k a|n T|n|n msg]|] eqn:Ht; try done.
  pose proof (Forall_lookup_1 _ _ _ _ (wl_tasks _ Hw) Ht) as [Hq Hk].
  destruct (nodes w !! dst) as [r|] eqn:Hn; [|done]. cbn. pose proof (wl_up _ Hw dst r Hn) as Hh.
  assert (∀ r' ts, hosted r' → Forall good_task ts →
    well_formed (spawn ts (set_node dst r' (finish i w)))) as Hgo.
  { intros r' ts Hr Hts. by apply (well_formed_replace w dst r' i ts). }
  assert (∀ r', hosted r' → well_formed (set_node dst r' (finish i w))) as Hgo0.
  { intros r' Hr. destruct (Hgo r' [] Hr ltac:(constructor)) as [? ? Hts]. cbn in Hts.
    rewrite app_nil_r in Hts. by split. }
  destruct q as [req|req|req]; cbn in Hq.
  - pose proof (tidy_hosted _ _ Hh (RequestVote_tidy rnd req r)) as Hh'.
    destruct (RequestVote rnd req r) as [r1 [resp|e|]]; cbn [fst] in Hh'; intros [= <-] _; auto.
    + branch; [|by apply Hgo, good_answer].
      destruct (Hgo r1 (answer k (AVote resp)) Hh' (good_answer _ _ Hk)). by split.
    + by apply well_formed_crash, Hh'; apply Hgo0.
  - pose proof (tidy_hosted _ _ Hh (AppendEntries_tidy rnd req r (ho_wf _ Hh) Hq)) as Hh'.
    destruct (AppendEntries rnd req r) as [r1 [resp|e|]]; cbn [fst] in Hh'; intros [= <-] _; auto.
    + by apply Hgo, good_answer.
    + by apply well_formed_crash, Hh'; apply Hgo0.
  - pose proof (InstallSnapshot_hosted rnd req r Hh ltac:(lia)) as Hh'.
    destruct (InstallSnapshot rnd req r) as [r1 [resp|e|]]; cbn [fst] in Hh'; intros [= <-] ?%Hh'; auto.
    + by apply Hgo, good_answer.
    + apply well_formed_crash; auto.
Qed.

Lemma well_formed_return w i w' : well_formed w → return_reply i w = Some w' → well_formed w'.
Proof.
  intros Hw. unfold return_reply.
  destruct (tasks w !! i) as [[n g|dst q k|k a|n T|n|n msg]|] eqn:Ht; try done.
  pose proof (Forall_lookup_1 _ _ _ _ (wl_tasks _ Hw) Ht) as Hk. cbn in Hk.
  destruct k as [n id T|n id T c prev m|n id T li], a as [resp|resp|resp]; try done;
    (destruct (nodes w !! n) as [r|] eqn:Hn; [|done]); cbn; pose proof (wl_up _ Hw n r Hn) as Hh.
  - pose proof (sendRequestVote_reply_tidy T resp r) as Hr.
    destruct (sendRequestVote_reply T resp r) as [r1 won]. intros [= <-].
    apply well_formed_replace; [by branch; destruct Hw; split|by eapply tidy_hosted|].
    destruct won; repeat constructor.
  - pose proof (sendAppendEntries_reply_tidy id T c prev m resp r Hk) as Hr.
    destruct (sendAppendEntries_reply _ _ _ _ _ _ _) as [r1 gs]. intros [= <-].
    apply well_formed_replace; [done|by eapply tidy_hosted|apply good_goroutines].
  - pose proof (sendInstallSnapshot_reply_tidy id T li resp r Hk) as Hr. intros [= <-].
    destruct (well_formed_replace w n (sendInstallSnapshot_reply id T li resp r) i []) as [? ? Hts];
      [done|by eapply tidy_hosted|constructor|].
    cbn in Hts. rewrite app_nil_r in Hts. by split.
Qed.

Lemma Start_hosted rnd r : hosted r → hosted (fst (Start rnd r)).
Proof.
  intros [Hw Hwh Hd Hp]. destruct (Start_inv rnd r) as (c & t & g & ->).
  split; auto. by wf_same Hw.
Qed.

Lemma well_formed_set w n r' ts : well_formed w → hosted r' → Forall good_task ts →
  well_formed (spawn ts (set_node n r' w)).
Proof.
  intros Hw Hr Hts. apply (well_formed_step w _ n r'); auto. cbn. apply Forall_app. split; [apply Hw|done].
Qed.

Lemma well_formed_timeout w n rnd w' : well_formed w → timeout n rnd w = Some w' → well_formed w'.
Proof.
  intros Hw. unfold timeout. destruct (nodes w !! n) as [r|] eqn:Hn; [|done]. cbn.
  pose proof (tidy_hosted _ _ (wl_up _ Hw n r Hn) (becomeCandidate_begin_tidy r)) as Hh.
  destruct (becomeCandidate_begin r) as [r1 o]. cbn [fst] in Hh. 
  match goal with |- context [if ?b then ?x else w] => set (w1 := if b then x else w) end.
  assert (well_formed w1) as Hw1 by (subst w1; branch; destruct Hw; by split).
  destruct o as [[T l]|]; intros [= <-].
  - apply well_formed_set; [done|eapply tidy_hosted; [done|apply timer_tidy]|].
    destruct l; [repeat constructor|]. apply Forall_fmap, Forall_true. done.
  - destruct (well_formed_set w1 n r1 [] Hw1 Hh ltac:(constructor)) as [? ? Ht]. cbn in Ht.
    rewrite app_nil_r in Ht. by split.
Qed.

Lemma well_formed_restart w n rnd w' : well_formed w → restart n rnd w = Some w' → well_formed w'.
Proof.
  intros Hw. unfold restart. destruct (down w !! n) as [r|] eqn:Hn; [|done]. cbn.
  destruct (configs w !! n) as [cfg|]; [|done]. cbn.
  destruct (NewRaft _) as [r1| |] eqn:Hr; try done.
  pose proof (Start_hosted rnd r1 (NewRaft_hosted _ _ _ (ho_disk _ (wl_down _ Hw n r Hn)) Hr)) as Hh.
  destruct (Start rnd r1) as [r2 gs]. intros [= <-].
  apply well_formed_set; [|done|apply good_goroutines]. destruct Hw as [Hu Hd Ht].
  split; [done| |done]. cbn. intros m q. rewrite lookup_delete_Some. intros [_ ?]. eauto.
Qed.

Lemma step_well_formed w e w' : well_formed w → step e w = Some w' → sane_event w e = true →
  well_formed w'.
Proof.
  intros Hw. destruct e as [n rnd|i d|i rnd|i|i|n cmd|n idx data|n|n|n rnd]; cbn [step sane_event].
  - intros ? _. by eapply well_formed_timeout.
  - intros ? _. by eapply well_formed_run_task.
  - by apply well_formed_deliver.
  - intros ? _. by eapply well_formed_return.
  - assert (well_formed (finish i w)) as Hf
      by (destruct Hw; split; auto; by apply Forall_delete).
    destruct (tasks w !! i) as [[]|]; intros [= <-]; done.
  - destruct (nodes w !! n) as [r|] eqn:Hn; [|done]. cbn. pose proof (wl_up _ Hw n r Hn) as Hh.
    intros Hst Hb%Z.ltb_lt. pose proof (ReplicateCommand_begin_tidy cmd r (ho_wf _ Hh) Hb) as Ht.
    destruct (ReplicateCommand_begin cmd r) as [r1 res]. injection Hst as <-.
    apply well_formed_set; [done|by eapply tidy_hosted|].
    destruct res as [[idx gs]| |]; [apply good_goroutines|constructor..].
  - destruct (nodes w !! n) as [r|] eqn:Hn; [|done]. cbn. pose proof (wl_up _ Hw n r Hn) as Hh.
    intros [= <-] [Hi%Z.leb_le Hwh]%andb_true_iff.
    apply (well_formed_step w _ n (fst (Snapshot idx data r))); auto using Snapshot_hosted. apply Hw.
  - destruct (nodes w !! n) as [r|] eqn:Hn; [|done]. cbn. pose proof (wl_up _ Hw n r Hn) as Hh.
    destruct (applyCh r) as [|m ch]; [done|]. intros [= <-] _.
    eapply (well_formed_step w); [done|by apply applyCh_hosted|done|done|]. apply Hw.
  - destruct (nodes w !! n) as [r|] eqn:Hn; [|done]. cbn. intros [= <-] _.
    apply well_formed_crash; [done|]. by eapply (wl_up _ Hw).
  - intros ? _. by eapply well_formed_restart.
Qed.

Lemma run_well_formed es w w' : well_formed w → run es w = Some w' → sane_run es w = true →
  well_formed w'.
Proof.
  revert w. induction es as [|e es IH]; intros w Hw; cbn; [by intros [= <-]|].
  destruct (step e w) as [w1|] eqn:Hs; [|done]. cbn. intros Hr [He Hes]%andb_true_iff.
  apply (IH w1); auto. by eapply step_well_formed.
Qed.
Lemma well_formed_boot rnd cfgs :
  map_Forall (λ _ cfg, from_option mountable True (cfgPersister cfg)) cfgs →
  well_formed (boot rnd cfgs).
Proof.
  intros Hm. split; cbn.
  - intros n r. rewrite lookup_omap_Some. intros (cfg & Hb & Hc). specialize (Hm n cfg Hc). cbn in Hm.
    unfold boot_node in Hb. destruct (NewRaft cfg) as [r0| |] eqn:Hr; try done. injection Hb as <-.
    pose proof (NewRaft_Ret _ _ Hr) as [(_ & [p Hp] & _)%validate_None _]. rewrite Hp in Hm.
    assert (cfg <| cfgPersister := Some p |> = cfg) as Ec by (destruct cfg; cbn in *; by rewrite Hp).
    rewrite <- Ec in Hr. by eapply Start_hosted, NewRaft_hosted.
  - intros n r. by rewrite lookup_empty.
  - apply Forall_fmap, Forall_true. done.
Qed.

(** C8: The state of a cluster is always well formed.  Start a cluster, of
    any size, on disks whose log continues their snapshot; whatever is lost,
    delayed, reordered, crashed, restarted, compacted or installed afterwards,
    as long as the logs stay short of [2^62] entries, only applied entries are
    compacted and no disk error tears a compaction: every node's log is
    contiguous from its snapshot on, [logBase <= lastApplied <= commitIndex],
    the leader's [nextIndex] and [matchIndex] are in range, every request in
    flight satisfies what its handler relies on, and every crashed node comes
    back well formed. *)
Theorem cluster_well_formed (cfgs : gmap Z (Config P)) rnd es w :
  map_Forall (λ _ cfg, from_option mountable True (cfgPersister cfg)) cfgs →
  run es (boot rnd cfgs) = Some w → sane_run es (boot rnd cfgs) = true →
  (∀ n r, nodes w !! n = Some r → hosted r) ∧
  Forall good_task (tasks w) ∧
  (∀ n r cfg r', down w !! n = Some r →
     NewRaft (cfg <| cfgPersister := Some (persister r) |>) = Ret r' → hosted r').
Proof.
  intros Hm Hr Hs. destruct (run_well_formed es (boot rnd cfgs) w) as [Hu Hd Ht];
    auto using well_formed_boot.
  split_and!; auto. intros n r cfg r' Hn. apply NewRaft_hosted. by eapply ho_disk, Hd.
Qed.
End invariant.

(** ** Witness *)

Import MemoryPersister.

(** The leader compacts, node 2 (which has seen nothing) gets the snapshot,
    crashes and comes back. *)
Definition transfer : list event :=
  replicate_one ++
  [Compact 1 1 [Byte.x7a]; Run 2 true; Run 6 true; Deliver 6 0; Return 6; Crash 2; Restart 2 0].

Lemma cluster_well_formed_witness :
  (logBase (node_at 2 (after transfer)), lastApplied (node_at 2 (after transfer)),
   applyCh (node_at 2 (after transfer))) = (1, 1, [snapshot_msg [Byte.x7a] 1 1]) ∧
  hosted (node_at 2 (after transfer)).
Proof.
  split; [vm_compute; reflexivity|].
  destruct (cluster_well_formed (test_configs 3) 0 transfer (after transfer)) as [H _].
  - intros n cfg Hc. assert (cfgPersister cfg = Some NewMemoryPersister) as ->.
    { unfold test_configs in Hc. apply elem_of_list_to_map_2, list_elem_of_fmap in Hc as (m & E & _).
      by injection E as _ ->. }
    exact I.
  - vm_compute. reflexivity.
  - vm_compute. reflexivity.
  - apply (H 2). vm_compute. reflexivity.
Defined.
