(* ===== verification/Turns.v ===== *)
(** * What a step changes

    Every [step] of a cluster, sorted by what it does to the logs, to the
    snapshots and to the way of a command from a node to its state machine
    (the apply loop's hand, then the channel).  The properties that follow the
    commands ([Delivery], [Provenance], [System]) go through these few cases
    and not through the handlers. *)

From S2P Require Import Prelude Types Persister Node Election Replication Snapshot Cluster.
From S2P Require Import ElectionSafety Protocol LogFrames ClusterRefinement ClusterSafety NodeInvariant.

(** ** Where entries come from *)

Section gains.
Context {P : Type} `{PL : PersisterLaws P}.
Implicit Types r : Raft P.

(** The snapshot stays, and an entry that was not in the log satisfies [N]. *)
Record gains (N : LogEntry → Prop) r r' : Prop := mkGains {
  ga_snapshot : snapshot r' = snapshot r;
  ga_log e : e ∈ log r' → e ∈ log r ∨ N e
}.

Lemma gains_same N r r' : log r' = log r → snapshot r' = snapshot r → gains N r r'.
Proof. intros Hl Hs. split; [done|]. rewrite Hl. auto. Qed.

Lemma frame_gains N r r' : frame r r' → gains N r r'.
Proof. intros [? _ _ [? _] _ _]. by apply gains_same. Qed.

Lemma gains_frame N r r1 r' : gains N r r1 → log r' = log r1 → snapshot r' = snapshot r1 → gains N r r'.
Proof. intros [Hs Hl] El Es. split; [congruence|]. rewrite El. auto. Qed.

Lemma updateCommitIndex_gains N r r1 : gains N r r1 → gains N r (updateCommitIndex r1).
Proof. intros Hg. destruct (updateCommitIndex_inv r1) as (n & c & -> & _). by apply (gains_frame N r r1). Qed.

Lemma merge_entries_sub (old new : list LogEntry) e : e ∈ merge_entries old new → e ∈ old ∨ e ∈ new.
Proof.
  revert old. induction new as [|x new IH]; intros [|o old]; cbn; auto.
  branch; [|auto]. intros [->|He]%elem_of_cons; [left; by left|].
  destruct (IH _ He); [left|right]; by right.
Qed.

Lemma AppendEntries_gains rnd req r : wf r → ae_wf req →
  gains (λ e, e ∈ aeEntries req) r (fst (AppendEntries rnd req r)).
Proof.
  intros Hw Hreq. pose proof (ae_contact_frame_all rnd req r) as Hc.
  assert (∀ p, gains (λ e, e ∈ aeEntries req) r
    ((ae_contact rnd req r) <| log := merged_log req r |> <| persister := p |>)) as Hm.
  { intros p. split; [apply (fr_snapshot _ _ Hc)|]. cbn. intros e. unfold merged_log.
    rewrite elem_of_app. intros [He|He%merge_entries_sub].
    - left. by apply (subseteq_take (Z.to_nat (aePrevLogIndex req - logBase r)) (log r)).
    - destruct He as [He|He]; [left|by right].
      by apply (subseteq_drop (Z.to_nat (aePrevLogIndex req - logBase r)) (log r)). }
  destruct (AppendEntries_outcome rnd req r Hw Hreq); auto using frame_gains, gains_same.
  unfold follower_commit. branch; [|auto]. by apply (gains_frame _ _ _ _ (Hm p)).
Qed.

Lemma ReplicateCommand_begin_gains cmd r : wf r →
  gains (λ e, eCommand e = cmd) r (fst (ReplicateCommand_begin cmd r)).
Proof.
  intros Hw. destruct (decide (state r = Leader)) as [Hs|Hs]; last first.
  { unfold ReplicateCommand_begin. apply state_eqb_false in Hs. rewrite Hs. by apply gains_same. }
  rewrite ReplicateCommand_begin_unfold by done. cbv zeta.
  destruct (Save _ _ _ _) as [p [e|]]; cbn [fst]; [by apply gains_same|].
  apply updateCommitIndex_gains. split; [done|]. cbn. intros e.
  rewrite elem_of_app, list_elem_of_singleton. intros [?| ->]; auto.
Qed.

Lemma sendAppendEntries_reply_gains N id t c prev n resp r :
  gains N r (fst (sendAppendEntries_reply id t c prev n resp r)).
Proof.
  unfold sendAppendEntries_reply. branch; [by apply gains_same|]. branch; [by apply gains_same|].
  destruct (peers r !! id); [|by apply gains_same].
  branch; cbn; [apply updateCommitIndex_gains|]; by apply gains_same.
Qed.

Lemma sendInstallSnapshot_reply_gains N id t lastIdx resp r :
  gains N r (sendInstallSnapshot_reply id t lastIdx resp r).
Proof.
  unfold sendInstallSnapshot_reply. branch; [by apply gains_same|]. branch; [by apply gains_same|].
  destruct (peers r !! id); [|by apply gains_same]. apply updateCommitIndex_gains. by apply gains_same.
Qed.

Lemma collect_entries_sub fuel i base (lg : list LogEntry) e : e ∈ collect_entries fuel i base lg → e ∈ lg.
Proof.
  revert i. induction fuel as [|fuel IH]; intros i; cbn; [by intros ?%elem_of_nil|].
  branch; [|by intros ?%elem_of_nil].
  destruct (index lg _) as [x|] eqn:Hx; [|by intros ?%elem_of_nil].
  intros [->|He]%elem_of_cons; [|eauto].
  rewrite index_lookup in Hx by apply (index_Some_range _ _ _ Hx). by eapply list_elem_of_lookup_2.
Qed.
End gains.

(** ** The way of a command to the state machine *)

Section turns.
Context {P : Type} `{PL : PersisterLaws P}.
Implicit Types (r : Raft P) (w : World P).

(** The goroutine of node [n] that runs the apply loop, with the message it is
    about to send. *)
Definition apply_task (n : Z) (t : task) : option (list ApplyMsg) :=
  match t with
  | TGo m GApplyLoop | TApplyNext m => if decide (m = n) then Some [] else None
  | TApplySend m msg => if decide (m = n) then Some [msg] else None
  | _ => None
  end.

(** The apply loops of node [n] and what each has in hand; a running node has
    one. *)
Definition hands (n : Z) w : list (list ApplyMsg) := omap (apply_task n) (tasks w).

Definition no_apply (ts : list task) : Prop := ∀ n, omap (apply_task n) ts = [].

(** A task that node [r] can have created: its requests are made of its own
    log and its own snapshot. *)
Definition stamped r (t : task) : Prop :=
  match t with
  | TCall _ (QAppend req) _ => ∀ e, e ∈ aeEntries req → e ∈ log r
  | TCall _ (QSnapshot req) _ => isData req = snapshot r ∧ snapshot r ≠ [] ∧
      isLastIncludedIndex req = snapshotIndex r
  | _ => True
  end.

(** The new entries of node [n]: those of an AppendEntries request, or the
    command of a client. *)
Definition news w (ev : event) (n : Z) (e : LogEntry) : Prop :=
  (∃ req k, TCall n (QAppend req) k ∈ tasks w ∧ e ∈ aeEntries req) ∨ ev = Client n (eCommand e).

(** A message that its receiver can deal with. *)
Definition fit (t : task) : Prop :=
  match t with
  | TCall _ q _ => good_request q
  | TReply (KAppend _ _ _ _ prev m) (AAppend _) => 0 ≤ prev + m < 2 ^ 62
  | TReply (KSnapshot _ _ _ lastIdx) (ASnapshot _) => 0 ≤ lastIdx < 2 ^ 62
  | _ => True
  end.

(** What is left of the tasks, and what node [r] has added. *)
Definition posted r w w' : Prop := ∀ t, t ∈ tasks w' → t ∈ tasks w ∨ stamped r t.

(** Node [n], which was [r], is now [r']. *)
Record becomes (n : Z) r r' w w' : Prop := mkBecomes {
  be_old : nodes w !! n = Some r;
  be_new : nodes w' = <[n := r']> (nodes w);
  be_down : down w' = down w;
  be_posted : posted r w w';
  be_hands m : m ≠ n → hands m w' ≡ₚ hands m w
}.

(** Node [n], which crashed as [r], has been built as [r'] and started. *)
Record restarted (n rnd : Z) r r' w w' : Prop := mkRestarted {
  re_old : down w !! n = Some r;
  re_built : ∃ cfg, NewRaft (cfg <| cfgPersister := Some (persister r) |>) = Ret r';
  re_new : nodes w' = <[n := fst (Start rnd r')]> (nodes w);
  re_down : down w' = delete n (down w);
  re_tasks t : t ∈ tasks w' → t ∈ tasks w ∨ t = TGo n GApplyLoop;
  re_own : hands n w' ≡ₚ [] :: hands n w;
  re_hands m : m ≠ n → hands m w' ≡ₚ hands m w
}.

Inductive turn (ev : event) w w' : Prop :=
  | turn_still :
      nodes w' = nodes w → down w' = down w → (∀ t, t ∈ tasks w' → t ∈ tasks w) →
      (∀ n, hands n w' ≡ₚ hands n w) → turn ev w w'
  | turn_quiet n r r' :
      becomes n r r' w w' → tidy r r' → gains (news w ev n) r r' → hands n w' ≡ₚ hands n w →
      turn ev w w'
  | turn_take n r e k :
      becomes n r (r <| lastApplied := lastApplied r + 1 |>) w w' →
      entry_at r (lastApplied r + 1) = Some e → hands n w ≡ₚ [] :: k →
      hands n w' ≡ₚ [command_msg (eCommand e) (lastApplied r + 1)] :: k → turn ev w w'
  | turn_send n r msg k :
      becomes n r (r <| applyCh := applyCh r ++ [msg] |>) w w' →
      hands n w ≡ₚ [msg] :: k → hands n w' ≡ₚ [] :: k → turn ev w w'
  | turn_install i n r rnd req k :
      ev = Deliver i rnd → tasks w !! i = Some (TCall n (QSnapshot req) k) →
      becomes n r (fst (InstallSnapshot rnd req r)) w w' → hands n w' ≡ₚ hands n w → turn ev w w'
  | turn_compact n r idx data :
      ev = Compact n idx data → becomes n r (fst (Snapshot idx data r)) w w' →
      hands n w' ≡ₚ hands n w → turn ev w w'
  | turn_consume n r msg ch :
      ev = Consume n → applyCh r = msg :: ch → becomes n r (r <| applyCh := ch |>) w w' →
      hands n w' ≡ₚ hands n w → turn ev w w'
  | turn_restart n rnd r r' :
      ev = Restart n rnd → restarted n rnd r r' w w' → turn ev w w'.

(** *** Tasks *)

Lemma hands_delete n w i t : tasks w !! i = Some t →
  hands n w ≡ₚ omap (apply_task n) [t] ++ omap (apply_task n) (delete i (tasks w)).
Proof. intros Hi. unfold hands. rewrite (delete_Permutation _ _ _ Hi) at 1. by rewrite <- omap_app. Qed.

Lemma no_apply_go m (gs : list goroutine) : (∀ g, g ∈ gs → g ≠ GApplyLoop) → no_apply (TGo m <$> gs).
Proof.
  intros Hg n. induction gs as [|g gs IH]; [done|]. cbn.
  assert (apply_task n (TGo m g) = None) as E.
  { cbn. destruct g; try done. by destruct (Hg GApplyLoop ltac:(left)). }
  cbn in E. rewrite E. apply IH. intros g' ?. apply Hg. by right.
Qed.

Lemma sends_no_apply m (gs : list goroutine) :
  Forall (λ g, match g with GSendAppendEntries _ _ _ => True | _ => False end) gs →
  no_apply (TGo m <$> gs).
Proof. rewrite Forall_forall. intros Hg. apply no_apply_go. intros g Hin ->. by apply Hg in Hin. Qed.

Lemma run_goroutine_no_apply m g d r r' ts : run_goroutine m g d r = Some (r', ts) →
  g ≠ GApplyLoop → no_apply ts.
Proof.
  intros Hg Hne. destruct g as [id T|id T c|id T| |]; cbn in Hg; [..|done].
  - destruct (sendRequestVote_request _ _ _ _) as [r1 [req|]]; by injection Hg as _ <-.
  - destruct (sendAppendEntries_request _ _ _ _ _) as [r1 [| |]]; by injection Hg as _ <-.
  - destruct (sendInstallSnapshot_request _ _ _ _) as [r1 [[]|]]; by injection Hg as _ <-.
  - destruct (runHeartbeat_turn r) as [r1 [gs|]] eqn:E; injection Hg as _ <-; [|done].
    intros n. cbn. apply no_apply_go.
    assert (gs = sendHeartbeats r) as ->
      by (unfold runHeartbeat_turn in E; destruct (ctx r) as [[]|]; congruence).
    unfold sendHeartbeats. intros g. branch; [by intros ?%elem_of_nil|].
    intros (? & -> & _)%list_elem_of_fmap. done.
Qed.

Lemma stamped_go r m (gs : list goroutine) t : t ∈ TGo m <$> gs → stamped r t.
Proof. by intros (g & -> & _)%list_elem_of_fmap. Qed.

Lemma stamped_answer r k a t : t ∈ answer k a → stamped r t.
Proof. destruct k; cbn; [by intros ->%list_elem_of_singleton|by intros ?%elem_of_nil]. Qed.

Lemma sendAppendEntries_request_own d id t c r r' req prev n :
  sendAppendEntries_request d id t c r = (r', SendCall req prev n) →
  ∀ e, e ∈ aeEntries req → e ∈ log r.
Proof.
  unfold sendAppendEntries_request. branch; [done|]. destruct (peers r !! id); [|done].
  destruct (ensureConnected _ _) as [p' [e|]]; [done|]. branch; [done|]. branch; [done|].
  destruct (if 0 <? _ then _ else _) as [[? ?] ?]. intros [= _ <- _ _] e. cbn.
  by intros ?%collect_entries_sub.
Qed.

Lemma run_goroutine_stamped m g d r r' ts t : run_goroutine m g d r = Some (r', ts) →
  t ∈ ts → stamped r t.
Proof.
  destruct g as [id T|id T c|id T| |]; cbn [run_goroutine].
  - destruct (sendRequestVote_request _ _ _ _) as [r1 [req|]]; intros [= _ <-];
      [by intros ->%list_elem_of_singleton|by intros ?%elem_of_nil].
  - destruct (sendAppendEntries_request _ _ _ _ _) as [r1 a] eqn:E. intros [= _ <-].
    destruct a as [| |req prev n]; [by intros ?%elem_of_nil|by intros ->%list_elem_of_singleton|].
    intros ->%list_elem_of_singleton. cbn. intros e. by eapply sendAppendEntries_request_own.
  - destruct (sendInstallSnapshot_request _ _ _ _) as [r1 [[req li]|]] eqn:E; intros [= _ <-];
      [|by intros ?%elem_of_nil]. intros ->%list_elem_of_singleton. revert E.
    unfold sendInstallSnapshot_request. branch; [done|]. destruct (peers r !! id); [|done].
    branch; [done|]. destruct (ensureConnected _ _) as [p' [e|]]; [done|]. intros [= _ <- _]. cbn.
    split_and!; [done| |done]. intros E. rewrite E in *. done.
  - destruct (runHeartbeat_turn r) as [r1 [gs|]]; intros [= _ <-]; [|by intros ?%elem_of_nil].
    intros [->|Ht]%elem_of_cons; [done|by eapply stamped_go].
  - branch; [|done]. intros [= _ <-]. by intros ->%list_elem_of_singleton.
Qed.

Lemma run_goroutine_frame n g d r r' ts : run_goroutine n g d r = Some (r', ts) → frame r r'.
Proof.
  destruct g as [id T|id T c|id T| |]; cbn [run_goroutine].
  - pose proof (sendRequestVote_request_frame d id T r) as Ht.
    destruct (sendRequestVote_request _ _ _ _) as [r1 o]. by intros [= <- _].
  - pose proof (sendAppendEntries_request_frame d id T c r) as Ht.
    destruct (sendAppendEntries_request _ _ _ _ _) as [r1 a]. by intros [= <- _].
  - pose proof (sendInstallSnapshot_request_frame d id T r) as Ht.
    destruct (sendInstallSnapshot_request _ _ _ _) as [r1 o]. by intros [= <- _].
  - pose proof (runHeartbeat_turn_frame r) as Ht.
    destruct (runHeartbeat_turn r) as [r1 o]. by intros [= <- _].
  - branch; [|done]. intros [= <- _]. frame_solve.
Qed.

Lemma entry_at_index r i e : wf r → entry_at r i = Some e → eIndex e = i.
Proof. intros [] He. unfold entry_at in He. rewrite (wf_contig _ _ He). lia. Qed.

(** *** Quiet steps *)

(** Node [n] takes a quiet step; [ts] are its new tasks, task [i] is done. *)
Lemma quiet_spawned ev w w' n r r' ts : nodes w !! n = Some r → tidy r r' → gains (news w ev n) r r' →
  no_apply ts → (∀ t, t ∈ ts → stamped r t) →
  nodes w' = <[n := r']> (nodes w) → down w' = down w → tasks w' = tasks w ++ ts → turn ev w w'.
Proof.
  intros Hn Ht Hg Hts Hst Hw Hd Hw'.
  assert (∀ m, hands m w' ≡ₚ hands m w) as Hh
    by (intros m; unfold hands; by rewrite Hw', omap_app, Hts, app_nil_r).
  eapply (turn_quiet _ _ _ n r r'); auto. split; auto.
  intros t. rewrite Hw', elem_of_app. intros [?|?]; auto.
Qed.

Lemma quiet_replaced ev w w' n r r' i t ts : nodes w !! n = Some r → tidy r r' →
  gains (news w ev n) r r' → tasks w !! i = Some t → no_apply [t] → no_apply ts →
  (∀ t, t ∈ ts → stamped r t) → nodes w' = <[n := r']> (nodes w) → down w' = down w →
  tasks w' = delete i (tasks w) ++ ts → turn ev w w'.
Proof.
  intros Hn Ht Hg Hi Hno Hts Hst Hw Hd Hw'.
  assert (∀ m, hands m w' ≡ₚ hands m w) as Hh.
  { intros m. rewrite (hands_delete m w i t Hi), Hno. unfold hands.
    by rewrite Hw', omap_app, Hts, app_nil_r. }
  eapply (turn_quiet _ _ _ n r r'); auto. split; auto.
  intros t'. rewrite Hw', elem_of_app. intros [?%task_kept|?]; auto.
Qed.

(** The apply loop of [n] goes from task [t] to task [t']. *)
Lemma loop_becomes w w' n r r' i t t' a a' : nodes w !! n = Some r → tasks w !! i = Some t →
  (∀ m, apply_task m t = if decide (n = m) then Some a else None) →
  (∀ m, apply_task m t' = if decide (n = m) then Some a' else None) → (∀ r, stamped r t') →
  nodes w' = <[n := r']> (nodes w) → down w' = down w → tasks w' = delete i (tasks w) ++ [t'] →
  becomes n r r' w w' ∧ ∃ k, hands n w ≡ₚ a :: k ∧ hands n w' ≡ₚ a' :: k.
Proof.
  intros Hn Hi Ha Ha' Hst Hw Hd Hw'.
  assert (∀ m, hands m w' = omap (apply_task m) (delete i (tasks w)) ++ omap (apply_task m) [t']) as Hh'
    by (intros m; unfold hands; by rewrite Hw', omap_app).
  split.
  - split; auto.
    + intros x. rewrite Hw', elem_of_app, list_elem_of_singleton. intros [?%task_kept| ->]; auto.
    + intros m Hm. rewrite Hh', (hands_delete m w i t Hi). cbn. rewrite Ha, Ha'.
      rewrite !decide_False by done. by rewrite app_nil_r.
  - exists (omap (apply_task n) (delete i (tasks w))).
    rewrite Hh', (hands_delete n w i t Hi). cbn. rewrite Ha, Ha', !decide_True by done.
    split; [done|]. by rewrite Permutation_app_comm.
Qed.

Lemma turn_run_task ev w i d w' : run_task i d w = Some w' →
  (∀ m r, nodes w !! m = Some r → wf r) → turn ev w w'.
Proof.
  unfold run_task.
  destruct (tasks w !! i) as [[m g|dst q k|k a|m T|m|m msg]|] eqn:Hi; try done;
    destruct (nodes w !! m) as [r|] eqn:Hn; cbn; try done; intros Hst Hwf.
  - destruct (run_goroutine m g d r) as [[r1 ts]|] eqn:Hg; [|done]. injection Hst as <-.
    pose proof (run_goroutine_tidy _ _ _ _ _ _ Hg) as Ht.
    pose proof (run_goroutine_frame _ _ _ _ _ _ Hg) as Hf.
    assert (g = GApplyLoop ∨ g ≠ GApplyLoop) as [->|Hne] by (destruct g; by (left + right)).
    + cbn in Hg. destruct (commitCh r); [|done]. injection Hg as <- <-.
      destruct (loop_becomes w (spawn [TApplyNext m] (finish i (set_node m (r <| commitCh := false |>) w)))
        m r (r <| commitCh := false |>) i (TGo m GApplyLoop) (TApplyNext m) [] []) as (Hb & k & H1 & H2); [done..|].
      eapply turn_quiet; [exact Hb|done|by apply gains_same|by rewrite H1, H2].
    + eapply (quiet_replaced _ w _ m r r1); eauto using frame_gains, run_goroutine_no_apply,
        run_goroutine_stamped. intros n. cbn. by destruct g.
  - pose proof (becomeLeader_tidy r) as Ht. pose proof (becomeLeader_frame r) as Hf.
    destruct (becomeLeader r) as [r1 gs] eqn:Hb. injection Hst as <-.
    eapply (quiet_replaced _ w _ m r r1 i); eauto using frame_gains, stamped_go;
      try (by intros n); try by branch.
    apply no_apply_go. intros g Hin ->. revert Hb. unfold becomeLeader.
    branch; intros [= _ <-]; [by apply elem_of_nil in Hin|by apply list_elem_of_singleton in Hin].
  - destruct (Z.le_gt_cases (deliverable r) (lastApplied r)) as [Hle|Hgt].
    + rewrite apply_take_None in Hst by eauto. injection Hst as <-.
      destruct (loop_becomes w (spawn [TGo m GApplyLoop] (finish i (set_node m r w)))
        m r r i (TApplyNext m) (TGo m GApplyLoop) [] []) as (Hb & k & H1 & H2); [done..|].
      eapply turn_quiet; [exact Hb|done|by apply gains_same|by rewrite H1, H2].
    + destruct (apply_take_Some r (Hwf m r Hn) Hgt) as (e & He & E). rewrite E in Hst. injection Hst as <-.
      assert (eIndex e = lastApplied r + 1) as Ei by apply (entry_at_index r _ _ (Hwf m r Hn) He).
      rewrite Ei.
      destruct (loop_becomes w (spawn [TApplySend m (command_msg (eCommand e) (lastApplied r + 1))]
        (finish i (set_node m (r <| lastApplied := lastApplied r + 1 |>) w)))
        m r (r <| lastApplied := lastApplied r + 1 |>) i (TApplyNext m)
        (TApplySend m (command_msg (eCommand e) (lastApplied r + 1))) []
        [command_msg (eCommand e) (lastApplied r + 1)])
        as (Hb & k & H1 & H2); [done..|].
      by eapply turn_take.
  - destruct (send_applyCh msg r) as [r1|] eqn:Hs; [|done]. injection Hst as <-.
    apply send_applyCh_inv in Hs as ->.
    destruct (loop_becomes w (spawn [TApplyNext m] (finish i (set_node m (r <| applyCh := applyCh r ++ [msg] |>) w)))
      m r (r <| applyCh := applyCh r ++ [msg] |>) i (TApplySend m msg) (TApplyNext m) [msg] [])
      as (Hb & k & H1 & H2); [done..|].
    by eapply turn_send.
Qed.

(** A handler has run on node [n]: the step up to a crash, and the node that
    crashes, if one does. *)
Definition turns (ev : event) w w' : Prop :=
  ∃ w1, turn ev w w1 ∧ (w' = w1 ∨ ∃ n r, nodes w1 !! n = Some r ∧ w' = crash n r w1).

Lemma turn_turns ev w w' : turn ev w w' → turns ev w w'.
Proof. intros Ht. exists w'. auto. Qed.

(** The handler of request [i] answers, fails or panics, and leaves node [n] as
    [r1]. *)
Lemma handler_turns ev w i n q k r1 : tasks w !! i = Some (TCall n q k) →
  (∀ ts w1, no_apply ts → (∀ r t, t ∈ ts → stamped r t) → nodes w1 = <[n := r1]> (nodes w) →
     down w1 = down w → tasks w1 = delete i (tasks w) ++ ts → turn ev w w1) →
  (∀ a w', nodes w' = <[n := r1]> (nodes w) → down w' = down w →
     tasks w' = delete i (tasks w) ++ answer k a → turns ev w w') ∧
  turns ev w (set_node n r1 (finish i w)) ∧ turns ev w (crash n r1 (set_node n r1 (finish i w))).
Proof.
  intros Hi Hgo.
  assert (turn ev w (set_node n r1 (finish i w))) as Hset.
  { apply (Hgo []); [done| |done..|]; [by intros ? ? ?%elem_of_nil|]. cbn. by rewrite app_nil_r. }
  split_and!.
  - intros a w' Hn Hd Ht. apply turn_turns, (Hgo (answer k a)); auto.
    + intros m. by destruct k.
    + intros r t. apply stamped_answer.
  - by apply turn_turns.
  - exists (set_node n r1 (finish i w)). split; [done|]. right. exists n, r1.
    split; [apply lookup_insert_eq|done].
Qed.

Lemma install_turn w i n r rnd req k ts w1 : nodes w !! n = Some r →
  tasks w !! i = Some (TCall n (QSnapshot req) k) → no_apply ts → (∀ r t, t ∈ ts → stamped r t) →
  nodes w1 = <[n := fst (InstallSnapshot rnd req r)]> (nodes w) → down w1 = down w →
  tasks w1 = delete i (tasks w) ++ ts → turn (Deliver i rnd) w w1.
Proof.
  intros Hn Hi Hts Hst H1 H2 H3.
  assert (∀ m, hands m w1 ≡ₚ hands m w) as Hh.
  { intros m. rewrite (hands_delete m w i _ Hi). unfold hands. by rewrite H3, omap_app, Hts, app_nil_r. }
  eapply (turn_install _ w w1 i n r rnd req k); auto. split; auto.
  intros t. rewrite H3, elem_of_app. intros [?%task_kept|?]; auto.
Qed.

Lemma turn_deliver w i rnd w' : deliver i rnd w = Some w' →
  (∀ m r, nodes w !! m = Some r → wf r) → Forall fit (tasks w) → turns (Deliver i rnd) w w'.
Proof.
  unfold deliver. intros Hst Hwf Hgood.
  destruct (tasks w !! i) as [[m g|dst q k|k a|m T|m|m msg]|] eqn:Hi; try done.
  pose proof (Forall_lookup_1 _ _ _ _ Hgood Hi) as Hq.
  destruct (nodes w !! dst) as [r|] eqn:Hn; cbn in Hst; try done.
  pose proof (handler_turns (Deliver i rnd) w i dst q k) as Hend.
  destruct q as [req|req|req]; cbn in Hq.
  - pose proof (RequestVote_tidy rnd req r) as Ht. pose proof (RequestVote_frame rnd req r) as Hf.
    destruct (RequestVote rnd req r) as [r1 res]. cbn [fst] in Ht, Hf.
    destruct (Hend r1 Hi) as (H1 & H2 & H3).
    { intros ts w1 ? ? ? ? ?. eapply (quiet_replaced _ w w1 dst r r1); eauto using frame_gains. done. }
    destruct res as [resp|e|]; injection Hst as <-; auto. apply (H1 (AVote resp)); by branch.
  - pose proof (AppendEntries_tidy rnd req r (Hwf dst r Hn) Hq) as Ht.
    assert (gains (news w (Deliver i rnd) dst) r (fst (AppendEntries rnd req r))) as Hg.
    { destruct (AppendEntries_gains rnd req r (Hwf dst r Hn) Hq) as [Hs Hl]. split; [done|].
      intros e He. destruct (Hl e He); [by left|]. right. left. exists req, k.
      split; [by eapply list_elem_of_lookup_2|done]. }
    destruct (AppendEntries rnd req r) as [r1 res]. cbn [fst] in Ht, Hg.
    destruct (Hend r1 Hi) as (H1 & H2 & H3).
    { intros ts w1 ? ? ? ? ?. eapply (quiet_replaced _ w w1 dst r r1); eauto. done. }
    destruct res as [resp|e|]; injection Hst as <-; auto. by apply (H1 (AAppend resp)).
  - pose proof (install_turn w i dst r rnd req k) as Hins.
    destruct (InstallSnapshot rnd req r) as [r1 res]. cbn [fst] in Hins.
    destruct (Hend r1 Hi) as (H1 & H2 & H3); [by eauto|].
    destruct res as [resp|e|]; injection Hst as <-; auto. by apply (H1 (ASnapshot resp)).
Qed.

Lemma turn_return ev w i w' : return_reply i w = Some w' → Forall fit (tasks w) → turn ev w w'.
Proof.
  unfold return_reply. intros Hst Hgood.
  destruct (tasks w !! i) as [[m g|dst q k|k a|m T|m|m msg]|] eqn:Hi; try done.
  pose proof (Forall_lookup_1 _ _ _ _ Hgood Hi) as Hk.
  destruct k as [m id T|m id T c prev l|m id T li], a as [resp|resp|resp]; try done;
    (destruct (nodes w !! m) as [r|] eqn:Hn; [|done]); cbn in Hst, Hk.
  - pose proof (sendRequestVote_reply_tidy T resp r) as Ht.
    pose proof (sendRequestVote_reply_frame T resp r) as Hf.
    destruct (sendRequestVote_reply T resp r) as [r1 won]. cbn [fst] in Ht, Hf. injection Hst as <-.
    eapply (quiet_replaced _ w _ m r r1 i _ (if won then [TLead m T] else [])); eauto using frame_gains;
      try by repeat case_match.
    destruct won; [by intros t ->%list_elem_of_singleton|by intros t ?%elem_of_nil].
  - pose proof (sendAppendEntries_reply_tidy id T c prev l resp r Hk) as Ht.
    pose proof (sendAppendEntries_reply_gains (news w ev m) id T c prev l resp r) as Hg.
    pose proof (sendAppendEntries_reply_sends id T c prev l resp r) as Hs.
    destruct (sendAppendEntries_reply _ _ _ _ _ _ _) as [r1 gs]. cbn [fst] in Ht, Hg. injection Hst as <-.
    eapply (quiet_replaced _ w _ m r r1); eauto using sends_no_apply, stamped_go; done.
  - pose proof (sendInstallSnapshot_reply_tidy id T li resp r Hk) as Ht.
    pose proof (sendInstallSnapshot_reply_gains (news w ev m) id T li resp r) as Hg. injection Hst as <-.
    eapply (quiet_replaced _ w _ m r _ i _ []); eauto; try done; [by intros t ?%elem_of_nil|].
    cbn. by rewrite app_nil_r.
Qed.

Lemma turn_timeout ev w m rnd w' : timeout m rnd w = Some w' → turn ev w w'.
Proof.
  unfold timeout. destruct (nodes w !! m) as [r|] eqn:Hn; [|done]. cbn.
  pose proof (becomeCandidate_begin_tidy r) as Ht. pose proof (becomeCandidate_begin_frame r) as Hf.
  destruct (becomeCandidate_begin r) as [r1 [[T l]|]]; cbn [fst] in Ht, Hf; intros [= <-].
  - eapply (quiet_spawned _ w _ m r (resetElectionTimerLocked rnd r1)
      (match l with [] => [TLead m T] | _ => (λ id, TGo m (GSendRequestVote id T)) <$> l end)); eauto;
      [| | | |by repeat case_match..].
    + etrans; [done|apply timer_tidy].
    + apply frame_gains. etrans; [done|apply timer_frame].
    + intros n. destruct l as [|id l]; [done|]. generalize (id :: l). clear. intros l.
      induction l as [|id l IH]; [done|]. cbn. exact IH.
    + destruct l as [|id l]; [by intros t ->%list_elem_of_singleton|].
      by intros t (? & -> & _)%list_elem_of_fmap.
  - eapply (quiet_spawned _ w _ m r r1 []); eauto using frame_gains; try done; try by branch.
    + by intros t ?%elem_of_nil.
    + rewrite app_nil_r. by branch.
Qed.

Lemma restart_inv w n rnd w' : restart n rnd w = Some w' → ∃ r r', restarted n rnd r r' w w'.
Proof.
  unfold restart. destruct (down w !! n) as [r|] eqn:Hn; [|done]. cbn.
  destruct (configs w !! n) as [cfg|] eqn:Hc; [|done]. cbn.
  destruct (NewRaft _) as [r1| |] eqn:Hr; try done.
  pose proof (fl_ctx _ _ (proj2 (NewRaft_Ret _ _ Hr))) as Hctx.
  assert (snd (Start rnd r1) = [GApplyLoop]) as Hgs by (unfold Start; by rewrite Hctx).
  destruct (Start rnd r1) as [r2 gs] eqn:Hs. cbn [snd] in Hgs. subst gs. intros [= <-].
  exists r, r1. split; eauto.
  - by rewrite Hs.
  - intros t. cbn. by rewrite elem_of_app, list_elem_of_singleton.
  - unfold hands. cbn. rewrite omap_app. cbn. rewrite decide_True by done. by rewrite Permutation_app_comm.
  - intros m Hm. unfold hands. cbn. rewrite omap_app. cbn. by rewrite decide_False, app_nil_r by done.
Qed.

Lemma becomes_set n r r' w : nodes w !! n = Some r →
  becomes n r r' w (set_node n r' w) ∧ hands n (set_node n r' w) ≡ₚ hands n w.
Proof. intros Hn. split; [|done]. split; auto. intros t. auto. Qed.

(** Every step is one of the cases above, perhaps followed by a crash. *)
Lemma step_turns ev w w' : step ev w = Some w' → (∀ m r, nodes w !! m = Some r → wf r) →
  Forall fit (tasks w) →
  (∀ n cmd r, ev = Client n cmd → nodes w !! n = Some r → last_index r + 1 < 2 ^ 62) → turns ev w w'.
Proof.
  intros Hst Hwf Hgood Hcl.
  destruct ev as [n rnd|i d|i rnd|i|i|n cmd|n idx data|n|n|n rnd]; cbn [step] in Hst.
  - by eapply turn_turns, turn_timeout.
  - by eapply turn_turns, turn_run_task.
  - by eapply turn_deliver.
  - by eapply turn_turns, turn_return.
  - destruct (tasks w !! i) as [t|] eqn:Hi; [|done].
    assert (no_apply [t] → turns (Drop i) w (finish i w)) as Hdrop.
    { intros Ht. apply turn_turns, turn_still; [done..| |].
      - intros t'. apply task_kept.
      - intros n. by rewrite (hands_delete n w i t Hi), Ht. }
    destruct t; try done; injection Hst as <-; by apply Hdrop.
  - destruct (nodes w !! n) as [r|] eqn:Hn; [|done]. cbn in Hst. apply turn_turns.
    pose proof (ReplicateCommand_begin_tidy cmd r (Hwf n r Hn) ltac:(by eapply Hcl)) as Ht.
    destruct (ReplicateCommand_begin_gains cmd r (Hwf n r Hn)) as [Hg Hl].
    pose proof (ReplicateCommand_begin_sends cmd r) as Hse.
    destruct (ReplicateCommand_begin cmd r) as [r1 res]. cbn [fst snd] in *. injection Hst as <-.
    eapply (quiet_spawned _ w _ n r r1); eauto.
    + split; [done|]. intros e He. destruct (Hl e He) as [?| <-]; [auto|]. right. by right.
    + destruct res as [[idx gs]| |]; [by apply sends_no_apply|done..].
    + destruct res as [[idx gs]| |]; [apply stamped_go|by intros t ?%elem_of_nil..].
  - destruct (nodes w !! n) as [r|] eqn:Hn; [|done]. injection Hst as <-.
    destruct (becomes_set n r (fst (Snapshot idx data r)) w); auto.
    by eapply turn_turns, turn_compact.
  - destruct (nodes w !! n) as [r|] eqn:Hn; [|done]. cbn in Hst.
    destruct (applyCh r) as [|msg ch] eqn:Hch; [done|]. injection Hst as <-.
    destruct (becomes_set n r (r <| applyCh := ch |>) w); auto.
    by eapply turn_turns, turn_consume.
  - destruct (nodes w !! n) as [r|] eqn:Hn; [|done]. injection Hst as <-.
    exists w. split; [by apply turn_still|eauto].
  - apply restart_inv in Hst as (r & r' & Hr). by eapply turn_turns, turn_restart.
Qed.

(** *** A crash *)

Lemma crash_hands n r m w : hands m (crash n r w) = if decide (m = n) then [] else hands m w.
Proof.
  unfold hands. cbn. induction (tasks w) as [|t ts IH]; [by case_decide|]. cbn.
  destruct t as [k g|dst q [k|]|k a|k T|k|k msg]; cbn; try (case_decide; cbn; exact IH || idtac).
  all: try (destruct g; cbn); try (case_decide as Hk; cbn); rewrite ?IH; try done;
    repeat case_decide; simplify_eq; done.
Qed.
End turns.
