(* ===== verification/Delivery.v ===== *)
(** * Delivery to the state machine

    What the apply loop of a node, interleaved with everything else the node
    does, puts on the apply channel: the committed commands, each once, in the
    order of the log. *)

From S2P Require Import Prelude Types Persister Node Election Replication Snapshot Cluster.
From S2P Require Import ElectionSafety Protocol LogFrames ClusterRefinement ClusterSafety NodeInvariant Turns.

Section delivery.
Context {P : Type} `{PL : PersisterLaws P}.
Implicit Types (r : Raft P) (w : World P).

(** The messages node [n]'s server receives along a run, oldest first. *)
Definition inputs (n : Z) (es : list event) w : list ApplyMsg :=
  (filter (λ m : Z * ApplyMsg, m.1 = n) (consumed es w)).*2.

Lemma inputs_consumed n es w msg : msg ∈ inputs n es w → (n, msg) ∈ consumed es w.
Proof.
  unfold inputs. rewrite list_elem_of_fmap. intros ([n' m] & -> & Hm).
  by apply list_elem_of_filter in Hm as [<- Hm].
Qed.

(** [got] has been received by the state machine of [n]: with what is in the
    channel and what the apply loop is about to send, it is everything up to
    [lastApplied], in order. *)
Record ordered (n : Z) (got : list ApplyMsg) w : Prop := mkOrdered {
  od_got : CommandIndex <$> got = seqZ 1 (len got);
  od_node r : nodes w !! n = Some r → ∃ m, hands n w = [m] ∧
    CommandIndex <$> (got ++ applyCh r ++ m) = seqZ 1 (lastApplied r)
}.

Lemma seqZ_prefix (l k : list Z) (a b : Z) : l ++ k = seqZ a b → l = seqZ a (len l).
Proof.
  intros E. apply list_eq. intros i. destruct (decide (i < length l)%nat) as [Hi|Hi].
  - rewrite <- (lookup_app_l l k) by done. rewrite E. pose proof (f_equal length E) as El.
    rewrite length_app, length_seqZ in El. rewrite !lookup_seqZ_lt; [done|unfold len|]; lia.
  - rewrite !lookup_ge_None_2; [done| |lia]. rewrite length_seqZ. unfold len. lia.
Qed.

Lemma seqZ_snoc (k : Z) : 0 ≤ k → seqZ 1 (k + 1) = seqZ 1 k ++ [k + 1].
Proof.
  intros Hk. rewrite seqZ_app by lia. f_equal. replace (1 + k) with (k + 1) by lia. done.
Qed.

(** ** Steps *)

(** A step on the way from the log of [n] to its channel. *)
Lemma ordered_becomes n got w w' m r r' a a' : ordered n got w → becomes m r r' w w' →
  (∀ k, hands m w = [k] → k = a ∧ hands m w' = [a']) →
  (CommandIndex <$> (got ++ applyCh r ++ a) = seqZ 1 (lastApplied r) →
   CommandIndex <$> (got ++ applyCh r' ++ a') = seqZ 1 (lastApplied r')) → ordered n got w'.
Proof.
  intros [Hg Ho] [Hold Hnew _ _ Hh] Hm Hk. split; [done|]. intros x. rewrite Hnew.
  intros [[<- <-]|[Hne Hx]]%lookup_insert_Some.
  - destruct (Ho r Hold) as (k & Hk1 & E). destruct (Hm k Hk1) as [-> Hk2]. eauto.
  - destruct (Ho x Hx) as (k & Hk1 & E). exists k. split; [|done].
    apply Permutation_singleton_r. by rewrite Hh, Hk1.
Qed.

Lemma hands_turn (l l' k : list (list ApplyMsg)) a a' x : l ≡ₚ a :: k → l' ≡ₚ a' :: k → l = [x] →
  x = a ∧ l' = [a'].
Proof.
  intros H1 H2 ->. apply Permutation_singleton_l in H1. simplify_eq.
  split; [done|]. by apply Permutation_singleton_r in H2.
Qed.

Lemma ordered_turn n got ev w w' : ordered n got w → turn ev w w' →
  (∀ m r, nodes w !! m = Some r → wf r) →
  (∀ i m req k, tasks w !! i ≠ Some (TCall m (QSnapshot req) k)) →
  (∀ m idx data, ev ≠ Compact m idx data) → (∀ m, ev ≠ Consume m) → (∀ rnd, ev ≠ Restart n rnd) →
  ordered n got w'.
Proof.
  intros Ho Ht Hwf Hno Hco Hcn Hre. destruct Ht as
    [H1 _ _ H4|m r r' Hb Ht _ Hh|m r e k Hb He H1 H2|m r msg k Hb H1 H2|i m r rnd req k _ Hi _ _
    |m r idx data E _ _|m r msg ch E _ _ _|m rnd r r' E [_ _ H1 _ _ _ Hh]].
  - destruct Ho as [Hg Ho]. split; [done|]. intros x. rewrite H1. intros (k & Hk & E)%Ho.
    exists k. split; [|done]. apply Permutation_singleton_r. by rewrite H4, Hk.
  - destruct (Ho) as [_ Ho']. destruct (decide (m = n)) as [->|Hne].
    + destruct (Ho' r (be_old _ _ _ _ _ Hb)) as (k & Hk & _).
      eapply (ordered_becomes n got w w' n r r' k k); eauto.
      * intros k' Hk'. rewrite Hk in Hk'. injection Hk' as ->. split; [done|].
        apply Permutation_singleton_r. by rewrite Hh, Hk.
      * by rewrite (td_chan _ _ Ht), (td_applied _ _ Ht).
    + destruct Ho as [Hg Ho]. split; [done|]. intros x. rewrite (be_new _ _ _ _ _ Hb), lookup_insert_ne by done.
      intros (k & Hk & E)%Ho. exists k. split; [|done].
      apply Permutation_singleton_r. by rewrite (be_hands _ _ _ _ _ Hb), Hk.
  - eapply (ordered_becomes n got w w' m r); eauto; [intros x; by eapply hands_turn|].
    rewrite app_nil_r. intros E. cbn. rewrite app_assoc, (fmap_app _ (got ++ _)), E. symmetry. apply seqZ_snoc.
    destruct (Hwf m r (be_old _ _ _ _ _ Hb)). lia.
  - eapply (ordered_becomes n got w w' m r); eauto; [intros x; by eapply hands_turn|].
    cbn. by rewrite app_nil_r.
  - by destruct (Hno i m req k).
  - by destruct (Hco m idx data).
  - by destruct (Hcn m).
  - destruct Ho as [Hg Ho]. split; [done|]. intros x. rewrite H1.
    assert (m ≠ n) as Hne by (intros ->; by destruct (Hre rnd)).
    rewrite lookup_insert_ne by done. intros (k & Hk & E')%Ho. exists k. split; [|done].
    apply Permutation_singleton_r. by rewrite Hh, Hk.
Qed.

Lemma ordered_crash n got w n' r : ordered n got w → ordered n got (crash n' r w).
Proof.
  intros [Hg Ho]. split; [done|]. intros x Hx. cbn in Hx. apply lookup_delete_Some in Hx as [Hne Hx].
  rewrite crash_hands, decide_False by done. eauto.
Qed.
End delivery.

Section ordering.
Context {P : Type} `{PL : PersisterLaws P}.
Context (ids : gset Z) (cfgs : gmap Z (Config P)) (Hok : cluster_ok ids cfgs).
Context (Hodd : Z.odd (Z.of_nat (size ids)) = true).
Context (settled : bool).
Implicit Types (r : Raft P) (w : World P).

Lemma inputs_cons n e es w w' : step e w = Some w' →
  inputs n (e :: es) w = inputs n [e] w ++ inputs n es w'.
Proof.
  intros Hs. unfold inputs. cbn [consumed]. rewrite Hs, app_nil_r, filter_app, fmap_app. done.
Qed.

Lemma inputs_other n e w : (∀ m, e ≠ Consume m) → inputs n [e] w = [].
Proof. intros He. unfold inputs. cbn [consumed]. destruct e; try (by destruct (step _ w)). by destruct (He n0). Qed.

Lemma ordered_consume n got w m w' : ordered n got w → step (Consume m) w = Some w' →
  ordered n (got ++ inputs n [Consume m] w) w'.
Proof.
  intros [Hg Ho] Hst. unfold inputs. cbn [consumed]. rewrite Hst. cbn in Hst.
  destruct (nodes w !! m) as [r|] eqn:Hn; [|done]. cbn in Hst.
  destruct (applyCh r) as [|msg ch] eqn:Hch; [done|]. injection Hst as <-.
  rewrite app_nil_r. cbn. destruct (decide (m = n)) as [->|Hne]; cbn.
  - destruct (Ho r Hn) as (k & Hk & E). rewrite Hch in E.
    replace (got ++ (msg :: ch) ++ k) with ((got ++ [msg]) ++ ch ++ k) in E
      by (by rewrite <- !(assoc_L (++))).
    split.
    + rewrite fmap_app in E. apply seqZ_prefix in E. rewrite E at 1. unfold len. by rewrite length_fmap.
    + intros x. cbn. rewrite lookup_insert_eq. intros [= <-]. exists k. split; [done|]. exact E.
  - rewrite app_nil_r. split; [done|]. intros x. cbn. rewrite lookup_insert_ne by done. apply Ho.
Qed.

Lemma sim_wf w h : sim ids cfgs settled false w h → ∀ m r, nodes w !! m = Some r → wf r.
Proof. intros Hs m r Hm. apply (si_plain _ _ _ _ _ _ Hs m). by left. Qed.

Lemma sound_fit folding h t : sound ids settled folding h t → fit t.
Proof.
  destruct t as [n g|dst q k|k a|n T|n|n msg]; try done; [destruct q|destruct k, a]; cbn; try done.
  - by intros [[] _].
  - intros (_ & [] & _). lia.
  - intros (_ & _ & ? & _). lia.
  - intros (_ & _ & ? & _). lia.
Qed.

(** The side conditions of the refinement are those of [Turns]. *)
Lemma sim_turns folding w h e w' : sim ids cfgs settled folding w h → step e w = Some w' →
  steady_event settled folding w e = true → turns e w w'.
Proof.
  intros Hs Hst Hf. pose proof (si_tasks _ _ _ _ _ _ Hs) as Hta. rewrite Forall_forall in Hta.
  apply step_turns; [done| |apply Forall_forall|].
  - intros m r Hm. apply (si_plain _ _ _ _ _ _ Hs m). by left.
  - intros t Ht%Hta. by apply (sound_fit folding h).
  - intros n cmd r -> Hn. unfold steady_event in Hf. rewrite Hn in Hf.
    apply andb_true_iff in Hf as [_ Hf%Z.ltb_lt]. lia.
Qed.

Lemma ordered_step n got w h e w' : sim ids cfgs settled false w h → ordered n got w →
  step e w = Some w' → steady_event settled false w e = true → (∀ rnd, e ≠ Restart n rnd) →
  ordered n (got ++ inputs n [e] w) w'.
Proof.
  intros Hs Ho Hst Hf Hre.
  assert ((∃ m, e = Consume m) ∨ ∀ m, e ≠ Consume m) as [[m ->]|Hc]
    by (destruct e; (right; by intros ?) || (left; by eexists)); [by apply ordered_consume|].
  rewrite inputs_other, app_nil_r by done.
  destruct (sim_turns false w h e w' Hs Hst Hf) as (w1 & Ht & Hw).
  assert (ordered n got w1) as Ho1.
  { eapply ordered_turn; eauto using sim_wf.
    - intros i m req k Hi. pose proof (Forall_lookup_1 _ _ _ _ (si_tasks _ _ _ _ _ _ Hs) Hi) as [? _]. done.
    - intros m idx data ->. by apply andb_true_iff in Hf as [_ Hf]. }
  destruct Hw as [->|(m & r & _ & ->)]; [done|by apply ordered_crash].
Qed.

Lemma ordered_run n got es w h w' : sim ids cfgs settled false w h → ordered n got w →
  run es w = Some w' → steady_run settled false es w = true → (∀ rnd, Restart n rnd ∉ es) →
  ordered n (got ++ inputs n es w) w'.
Proof.
  revert got w h. induction es as [|e es IH]; intros got w h Hs Ho Hr Hf Hre; cbn in Hr, Hf.
  - injection Hr as <-. by rewrite app_nil_r.
  - apply andb_true_iff in Hf as [Hf Hfs]. destruct (step e w) as [w1|] eqn:Hst; [|done].
    destruct (sim_step ids cfgs Hok Hodd settled false (λ _ _, True) w h e w1 Hs Hst Hf) as (h1 & _ & Hs1); [done|].
    rewrite (inputs_cons n e es w w1 Hst), (assoc_L (++)).
    apply (IH _ w1 h1); auto.
    + apply (ordered_step n got w h e w1); auto. intros rnd ->. apply (Hre rnd). by left.
    + intros rnd Hin. apply (Hre rnd). by right.
Qed.

Lemma apply_loops n (l : list Z) : NoDup l → n ∈ l →
  omap (apply_task n) ((λ m, TGo m GApplyLoop) <$> l) = [[]].
Proof.
  induction 1 as [|m l Hm Hl IH]; [by intros ?%elem_of_nil|]. cbn.
  intros [->|Hn]%elem_of_cons.
  - rewrite decide_True by done. f_equal. clear IH Hl. induction l as [|k l IH]; [done|]. cbn.
    rewrite decide_False by (intros ->; apply Hm; by left). apply IH. intros ?. apply Hm. by right.
  - rewrite decide_False by (intros ->; done). auto.
Qed.

Lemma ordered_boot n rnd : map_Forall (λ _, blank) cfgs → ordered n [] (boot rnd cfgs).
Proof.
  intros Hbl. split; [done|]. unfold hands. cbn. intros r. rewrite lookup_omap_Some. intros (cfg & Hb & Hc).
  destruct (boot_node_blank false rnd cfg r Hb (Hbl n cfg Hc)) as ([Hw _ _] & _ & Hb0 & Hci & _ & Hch).
  exists []. split.
  - rewrite apply_loops; [done|apply NoDup_fst_map_to_list|].
    apply list_elem_of_fmap. exists (n, cfg). split; [done|]. by apply elem_of_map_to_list.
  - rewrite Hch. cbn. destruct Hw. by replace (lastApplied r) with 0 by lia.
Qed.
End ordering.

Section theorem.
Context {P : Type} `{PL : PersisterLaws P}.
Implicit Types (r : Raft P) (w : World P).

(** A committed message is the entry of every log that has it committed. *)
Lemma agreed_own ids cfgs w h n r msg : sim ids cfgs true false w h → known w n r →
  agreed ids false h msg → CommandIndex msg ≤ commitIndex r →
  ∃ e, entry_at r (CommandIndex msg) = Some e ∧ msg = command_msg (eCommand e) (CommandIndex msg).
Proof.
  intros Hs Hn (T & k & i & e & Hc & Hik & He & [->|[? _]]); [|done]. cbn [CommandIndex command_msg].
  intros Hle. exists e. split; [|done]. destruct (si_plain _ _ _ _ _ _ Hs n r Hn) as [_ Hb _].
  apply (committed_own ids cfgs w true false h n r T k); auto. rewrite Hb by done. lia.
Qed.

(** C9: Delivery in order. Along a run as in state-machine safety (odd size,
    blank disks, its side conditions) in which nobody compacts, the state machine of a node that does not restart
    receives the commands of the log one by one: the first message is that
    of index 1, each has the index after its predecessor's, none is left out
    and none comes twice; and what it has received is the beginning of the
    node's own log, up to [lastApplied] at most. *)
Theorem delivery_in_order (ids : gset Z) (cfgs : gmap Z (Config P)) (rnd : Z) (es : list event)
    w (n : Z) :
  cluster_ok ids cfgs → Z.odd (Z.of_nat (size ids)) = true →
  map_Forall (λ _, blank) cfgs → run es (boot rnd cfgs) = Some w →
  steady_run true false es (boot rnd cfgs) = true → (∀ rnd', Restart n rnd' ∉ es) →
  let msgs := inputs n es (boot rnd cfgs) in
  CommandIndex <$> msgs = seqZ 1 (len msgs) ∧
  ∀ r, nodes w !! n = Some r → len msgs ≤ lastApplied r ∧
    ∀ i, 0 < i ≤ len msgs → ∃ e, entry_at r i = Some e ∧
      index msgs (i - 1) = Some (command_msg (eCommand e) i).
Proof.
  intros Hok Hodd Hbl Hrun Hst Hre. cbv zeta.
  destruct (run_sim ids cfgs rnd es w true false) as (h & _ & Hs & Hcon); auto.
  destruct (ordered_run ids cfgs Hok Hodd true n [] es (boot rnd cfgs) (first_proto cfgs rnd) w)
    as [Hg Ho]; auto using sim_boot, ordered_boot.
  cbn in Hg, Ho. set (msgs := inputs n es (boot rnd cfgs)) in *. split; [done|]. intros r Hn.
  destruct (Ho r Hn) as (m & _ & E). pose proof (f_equal len E) as El.
  assert (0 ≤ lastApplied r ≤ commitIndex r) as Hla
    by (destruct (sim_wf ids cfgs true w h Hs n r Hn); lia).
  assert (len msgs ≤ lastApplied r) as Hle.
  { unfold len in El. rewrite length_fmap, length_app, length_seqZ in El. unfold len. lia. }
  split; [done|]. intros i Hi. destruct (index_is_Some msgs (i - 1)) as [msg Hm]; [lia|].
  rewrite index_lookup in Hm by lia.
  assert (CommandIndex msg = i) as Hci.
  { assert ((CommandIndex <$> msgs) !! Z.to_nat (i - 1) = Some (CommandIndex msg)) as Hf
      by (by rewrite list_lookup_fmap, Hm).
    rewrite Hg, lookup_seqZ_lt in Hf by lia. injection Hf as <-. lia. }
  destruct (agreed_own ids cfgs w h n r msg) as (e & He & Ee); auto; [by left| |lia|].
  { eapply Hcon; [|done]. apply inputs_consumed. by eapply list_elem_of_lookup_2. }
  rewrite Hci in *. exists e. split; [done|]. rewrite index_lookup by lia. congruence.
Qed.
End theorem.

(** ** Witness *)

Lemma replicate_no_restart cmd n rnd : Restart n rnd ∉ replicate cmd.
Proof.
  assert (Forall (λ e, match e with Restart _ _ => False | _ => True end) (replicate cmd)) as Hno
    by (cbv; repeat constructor).
  rewrite Forall_forall in Hno. intros Hin. exact (Hno _ Hin).
Qed.

Lemma delivery_in_order_witness :
  inputs 3 replicate_one (boot 0 (test_configs 3)) = [command_msg [Byte.x61] 1] ∧
  CommandIndex <$> inputs 3 replicate_one (boot 0 (test_configs 3)) = [1].
Proof.
  split; [vm_compute; reflexivity|].
  destruct (delivery_in_order (list_to_set (test_ids 3)) (test_configs 3) 0 replicate_one
    (after replicate_one) 3 test_cluster_ok) as [E _]; [on_run..| |].
  - apply replicate_no_restart.
  - rewrite E. vm_compute. reflexivity.
Defined.
