(* ===== verification/Provenance.v ===== *)
(** * Where commands and snapshots come from

    The cluster makes nothing up: every command in a log, in a request or on its
    way to a state machine was submitted by a client, and every snapshot was
    taken by a state machine, at the index it is labelled with. *)

From S2P Require Import Prelude Types Persister Node Election Replication Snapshot Cluster.
From S2P Require Import ElectionSafety Protocol LogFrames ClusterRefinement ClusterSafety NodeInvariant.
From S2P Require Import Turns Delivery.

Section provenance.
Context {P : Type} `{PL : PersisterLaws P}.
Implicit Types (r : Raft P) (w : World P).

Lemma NewRaft_snapshot (cfg : Config P) p r : NewRaft (cfg <| cfgPersister := Some p |>) = Ret r →
  snapshot r = match recovered_snapshot p with Some (d, _, _) => d | None => [] end.
Proof.
  unfold NewRaft, recovered_snapshot. destruct (validate _); [done|]. cbn [cfgPersister]. intros [= <-].
  unfold loadPersistedState, send_applyCh. cbn -[last].
  destruct (Load p) as [[[t v] l]|e]; [|done]. cbn -[last].
  destruct (LoadSnapshot p) as [[[d i] st]|e]; cbn -[last];
    repeat first [branch; cbn -[last] | case_match; cbn -[last]]; by simplify_eq/=.
Qed.

(** How far the state machine of a recovered node has got: to the end of the
    snapshot or, without one, to the end of the log. *)
Lemma NewRaft_resumes (cfg : Config P) p r : NewRaft (cfg <| cfgPersister := Some p |>) = Ret r →
  let s := recovered_snapshot p in
  contiguous (snapshot_end s) (recovered p).2 → 0 ≤ snapshot_end s →
  lastApplied r = match s with Some (_, i, _) => i | None => len (recovered p).2 end.
Proof.
  intros Hr. cbv zeta. pose proof (NewRaft_Ret _ _ Hr) as [Hv _].
  destruct (NewRaft_Load _ p Hv eq_refl) as (r0 & Hr0 & Hp & Hb & Hci & Hla & _ & Hch & _).
  rewrite Hr in Hr0. injection Hr0 as ->. unfold recovered_snapshot, recovered. subst p.
  destruct (Load (persister r0)) as [[[t v] l]|er] eqn:HL; cbn [snd].
  2:{ intros _ _. unfold loadPersistedState. by rewrite HL. }
  destruct (LoadSnapshot (persister r0)) as [[[d i] st]|e] eqn:HS; cbn [snapshot_end]; intros Hc Hi.
  - pose proof (loadPersistedState_snapshot r0 t v l d i st HL HS Hc Hi Hci Hch) as Hrec.
    destruct (loadPersistedState r0) as [r1 err]. by destruct Hrec as (_ & _ & _ & _ & _ & _ & _ & _ & ? & _).
  - pose proof (loadPersistedState_plain r0 t v l e HL HS Hc Hci Hla Hb) as Hrec.
    destruct (loadPersistedState r0) as [r1 err]. by destruct Hrec as (_ & _ & _ & _ & _ & ? & _).
Qed.

Lemma boot_node_snapshot rnd (cfg : Config P) r : boot_node rnd cfg = Some r → blank cfg → snapshot r = [].
Proof.
  unfold boot_node, blank. destruct (NewRaft cfg) as [r0| |] eqn:Hr; try done. intros [= <-].
  pose proof (NewRaft_Ret _ _ Hr) as [(_ & [p Hp] & _)%validate_None _]. rewrite Hp.
  assert (cfg <| cfgPersister := Some p |> = cfg) as Ec by (destruct cfg; cbn in *; by rewrite Hp).
  rewrite <- Ec in Hr. pose proof (NewRaft_snapshot cfg p r0 Hr) as E. intros (_ & _ & Hs).
  destruct (Start_inv rnd r0) as (c & t & g & ->). cbn. rewrite E. unfold recovered_snapshot.
  by destruct (Load p), (LoadSnapshot p).
Qed.

(** What a step may add: the commands and the snapshots it is given. *)
Section origin.
Context (G : bytes → Prop) (I : bytes → Z → Prop).

Definition authentic (msg : ApplyMsg) : Prop :=
  (CommandValid msg = true → G (amCommand msg)) ∧
  (SnapshotValid msg = true → I (SnapshotData msg) (amLastIncludedIndex msg)).

Definition authentic_call (t : task) : Prop :=
  match t with
  | TCall _ (QAppend req) _ => ∀ e, e ∈ aeEntries req → G (eCommand e)
  | TCall _ (QSnapshot req) _ => I (isData req) (isLastIncludedIndex req)
  | _ => True
  end.

(** A node's log and snapshot. *)
Record authentic_node r : Prop := mkAuthenticNode {
  au_log e : e ∈ log r → G (eCommand e);
  au_blank : logBase r = 0 → snapshot r = [];
  au_snapshot : logBase r ≠ 0 → I (snapshot r) (logBase r)
}.

Record stocked w : Prop := mkStocked {
  st_node n r : known w n r → authentic_node r;
  st_chan n r msg : nodes w !! n = Some r → msg ∈ applyCh r → authentic msg;
  st_hand n a msg : a ∈ hands n w → msg ∈ a → authentic msg;
  st_call t : t ∈ tasks w → authentic_call t
}.

(** *** Steps *)

Lemma stocked_becomes w w' n r r' : stocked w → becomes n r r' w w' → wf r → authentic_node r' →
  (∀ msg, msg ∈ applyCh r' → authentic msg) →
  (∀ a msg, a ∈ hands n w' → msg ∈ a → authentic msg) → stocked w'.
Proof.
  intros [Hn Hc Hh Ht] [Hold Hnew Hd Hpo Hha] Hw Hr Hch Hhn. split.
  - intros m x [Hx|Hx]; [|apply (Hn m); right; congruence]. rewrite Hnew in Hx.
    apply lookup_insert_Some in Hx as [[-> <-]|[_ Hx]]; [done|]. apply (Hn m). by left.
  - intros m x msg. rewrite Hnew. intros [[-> <-]|[_ Hx]]%lookup_insert_Some; [auto|by eapply Hc].
  - intros m a msg. destruct (decide (m = n)) as [->|Hne]; [apply Hhn|]. rewrite Hha by done. apply Hh.
  - intros t [?|Hst]%Hpo; [auto|]. pose proof (Hn n r ltac:(by left)) as [Hl Hs0 Hs].
    destruct t as [|dst q k| | | |]; try done. destruct q as [req|req|req]; try done; cbn in *.
    + intros e He. apply Hl. auto.
    + destruct Hst as (-> & ? & ->). rewrite (wf_snapshot _ Hw). auto.
Qed.

Lemma gains_authentic w ev n r r' : stocked w → nodes w !! n = Some r → tidy r r' →
  gains (news w ev n) r r' → (∀ cmd, ev = Client n cmd → G cmd) → authentic_node r'.
Proof.
  intros Hs Hn Ht [Hg Hl] Hcl. destruct (st_node _ Hs n r ltac:(by left)) as [Hau Hb Hsn].
  split; rewrite ?Hg, ?(td_base _ _ Ht); auto.
  intros e [?|[(req & k & Hin & He)|E]]%Hl; [auto| |eauto]. exact (st_call _ Hs _ Hin e He).
Qed.

Lemma install_authentic rnd req r : wf r → authentic_node r → I (isData req) (isLastIncludedIndex req) →
  authentic_node (fst (InstallSnapshot rnd req r)) ∧
  ∀ msg, msg ∈ applyCh (fst (InstallSnapshot rnd req r)) → msg ∈ applyCh r ∨ authentic msg.
Proof.
  intros Hw Hr Hi. destruct (is_contact_frame_all rnd req r) as [Hl Hb _ [Hs _] Hch _].
  destruct (InstallSnapshot_inv rnd req r) as [->|[[_ ->]|(_ & Hlt & p & ch & -> & _ & Hc)]].
  - auto.
  - rewrite Hch. split; [|auto]. destruct Hr. split; rewrite ?Hl, ?Hs, ?Hb; auto.
  - clear Hs Hb Hch. revert Hl. generalize (is_contact rnd req r). intros x Hl. cbn.
    split; [split; cbn; auto|].
    + intros e. rewrite list_elem_of_filter, Hl. intros [_ ?]. by apply Hr.
    + destruct Hw. lia.
    + destruct Hc as [->| ->]; [auto|]. intros msg. rewrite elem_of_app, list_elem_of_singleton.
      intros [?| ->]; [auto|]. right. by split.
Qed.

Lemma compact_authentic idx data r : wf r → authentic_node r → idx ≤ lastApplied r → I data idx →
  authentic_node (fst (Snapshot idx data r)) ∧ applyCh (fst (Snapshot idx data r)) = applyCh r.
Proof.
  intros Hw Hr Hidx Hi. pose proof Hw as [].
  destruct (Snapshot_inv idx data r) as [->|(? & e & p & _ & ->)]; [done|lia|done|].
  split; [|done]. split; cbn; [|lia|done]. intros x Hx. apply (au_log _ Hr).
  by apply (subseteq_drop (Z.to_nat (idx - logBase r)) (log r)).
Qed.

(** A crashed node finds on disk what it had in memory. *)
Definition intact r : Prop :=
  recovered (persister r) = (currentTerm r, votedFor r, log r) ∧
  recovered_snapshot (persister r) = own_snapshot r.

(** The node a restart makes of it. *)
Lemma restart_intact cfg r r1 : wf r → intact r →
  NewRaft (cfg <| cfgPersister := Some (persister r) |>) = Ret r1 →
  wf r1 ∧ log r1 = log r ∧ logBase r1 = logBase r ∧
  if logBase r =? 0 then snapshot r1 = [] ∧ lastApplied r1 = len (log r) ∧ applyCh r1 = []
  else snapshot r1 = snapshot r ∧ lastApplied r1 = logBase r ∧
    applyCh r1 = [snapshot_msg (snapshot r) (logBase r) (snapshotTerm r)].
Proof.
  intros Hw [Hrec Hsn] Hr. pose proof Hw as [].
  assert (snapshot_end (recovered_snapshot (persister r)) = logBase r) as Hse
    by (rewrite Hsn; unfold own_snapshot; destruct (Z.eqb_spec (logBase r) 0); cbn; lia).
  destruct (NewRaft_recovers _ _ _ Hr) as (Hrv & _ & Hb1 & _ & _ & Hw1 & Hch1);
    [by rewrite Hrec, Hse|lia|by rewrite Hrec, Hse|].
  pose proof (NewRaft_snapshot _ _ _ Hr) as Hs1.
  pose proof (NewRaft_resumes _ _ _ Hr ltac:(by rewrite Hrec, Hse) ltac:(lia)) as Ha1.
  rewrite Hrec in Hrv, Ha1. injection Hrv as _ _ Hl1. rewrite Hsn in Hs1, Ha1, Hch1. rewrite Hse in Hb1.
  unfold own_snapshot in *. destruct (Z.eqb_spec (logBase r) 0); [|destruct Hch1]; by split_and!.
Qed.

Lemma restart_authentic cfg r r1 : wf r → intact r → authentic_node r →
  NewRaft (cfg <| cfgPersister := Some (persister r) |>) = Ret r1 →
  authentic_node r1 ∧ ∀ msg, msg ∈ applyCh r1 → authentic msg.
Proof.
  intros Hw Hin [Hl Hb Hs] Hr. destruct (restart_intact cfg r r1 Hw Hin Hr) as (_ & Hl1 & Hb1 & Hrest).
  destruct (Z.eqb_spec (logBase r) 0) as [E|E]; destruct Hrest as (Hs1 & _ & Hch1);
    (split; [split|]); rewrite ?Hl1, ?Hs1, ?Hb1, ?Hch1; auto; try done.
  - by intros msg ?%elem_of_nil.
  - intros msg ->%list_elem_of_singleton. split; [done|auto].
Qed.

Lemma stocked_restart n rnd r r1 w w' : stocked w → wf r → intact r → restarted n rnd r r1 w w' →
  stocked w'.
Proof.
  intros [Hn Hc Hh Hca] Hw Hin [Hd [cfg Hr] H1 H2 H3 H4 H5].
  destruct (restart_authentic cfg r r1 Hw Hin ltac:(apply (Hn n); by right) Hr) as [Hau Hch].
  destruct (Start_inv rnd r1) as (c & t & g & Est). split.
  - intros m x [Hx|Hx].
    + rewrite H1 in Hx. apply lookup_insert_Some in Hx as [[_ <-]|[_ Hx]]; [|apply (Hn m); by left].
      rewrite Est. by destruct Hau.
    + rewrite H2 in Hx. apply lookup_delete_Some in Hx as [_ Hx]. apply (Hn m). by right.
  - intros m x msg. rewrite H1. intros [[_ <-]|[_ Hx]]%lookup_insert_Some; [rewrite Est; apply Hch|by apply (Hc m)].
  - intros m a msg. destruct (decide (m = n)) as [->|Hne]; [|rewrite H5 by done; apply Hh].
    rewrite H4. intros [->|Ha]%elem_of_cons; [by intros ?%elem_of_nil|by eapply Hh].
  - intros t' [?| ->]%H3; [auto|done].
Qed.

Lemma stocked_turn ev w w' : stocked w → turn ev w w' → (∀ n r, known w n r → wf r) →
  (∀ n cmd, ev = Client n cmd → G cmd) →
  (∀ n idx data r, ev = Compact n idx data → nodes w !! n = Some r → I data idx ∧ idx ≤ lastApplied r) →
  (∀ n rnd r, ev = Restart n rnd → down w !! n = Some r → intact r) → stocked w'.
Proof.
  intros Hs Ht Hwf Hcl Hco Hre. destruct Ht as
    [H1 H2 H3 H4|m r r' Hb Ht Hg Hh|m r e k Hb He H1 H2|m r msg k Hb H1 H2|i m r rnd req k _ Hi Hb Hh
    |m r idx data E Hb Hh|m r msg ch E Hch Hb Hh|m rnd r r' E Hr];
    try (pose proof (be_old _ _ _ _ _ Hb) as Hold; pose proof (Hwf m r ltac:(by left)) as Hw;
      pose proof (st_node _ Hs m r ltac:(by left)) as Hau; pose proof (st_chan _ Hs m r) as Hchan;
      pose proof (st_hand _ Hs m) as Hhand; apply (stocked_becomes w w' m r _ Hs Hb Hw)).
  - destruct Hs as [Hn Hc Hha Hca]. split; auto.
    + intros n r Hk. apply (Hn n). unfold known in *. by rewrite H1, H2 in Hk.
    + rewrite H1. done.
    + intros n a msg. rewrite H4. apply Hha.
  - by eapply gains_authentic; eauto.
  - intros msg. rewrite (td_chan _ _ Ht). auto.
  - intros a msg. rewrite Hh. apply Hhand.
  - by destruct Hau.
  - cbn. auto.
  - intros a msg. rewrite H2. intros [->|Ha]%elem_of_cons.
    + intros ->%list_elem_of_singleton. split; [|done]. intros _. cbn. apply (au_log _ Hau).
      unfold entry_at in He. rewrite index_lookup in He by (by eapply index_Some_range).
      by eapply list_elem_of_lookup_2.
    + apply Hhand. rewrite H1. by right.
  - by destruct Hau.
  - cbn. intros x. rewrite elem_of_app, list_elem_of_singleton. intros [?| ->]; [auto|].
    apply (Hhand [msg]); [rewrite H1|]; by left.
  - intros a x. rewrite H2. intros [->|Ha]%elem_of_cons; [by intros ?%elem_of_nil|].
    apply Hhand. rewrite H1. by right.
  - apply install_authentic; auto. apply (st_call _ Hs _ (list_elem_of_lookup_2 _ _ _ Hi)).
  - intros msg Hm. apply install_authentic in Hm as [?|?]; auto.
    apply (st_call _ Hs _ (list_elem_of_lookup_2 _ _ _ Hi)).
  - intros a msg. rewrite Hh. apply Hhand.
  - destruct (Hco m idx data r E Hold). by apply compact_authentic.
  - destruct (Hco m idx data r E Hold). intros msg. rewrite (proj2 (compact_authentic idx data r Hw Hau ltac:(done) ltac:(done))). auto.
  - intros a msg. rewrite Hh. apply Hhand.
  - by destruct Hau.
  - cbn. intros x ?. apply Hchan; [done|]. rewrite Hch. by right.
  - intros a x. rewrite Hh. apply Hhand.
  - pose proof (re_old _ _ _ _ _ _ Hr). eapply stocked_restart; eauto. apply (Hwf m). by right.
Qed.

Lemma stocked_crash n r w : stocked w → nodes w !! n = Some r → stocked (crash n r w).
Proof.
  intros [Hn Hc Hh Hca] Hr. split.
  - intros m x [Hx|Hx]; cbn in Hx.
    + apply lookup_delete_Some in Hx as [_ Hx]. apply (Hn m). by left.
    + apply lookup_insert_Some in Hx as [[-> <-]|[_ Hx]]; [apply (Hn m); by left|apply (Hn m); by right].
  - cbn. intros m x msg [_ Hx]%lookup_delete_Some. by apply (Hc m).
  - intros m a msg. rewrite crash_hands. case_decide; [by intros ?%elem_of_nil|apply Hh].
  - cbn. intros t (t0 & Hin & Ho)%list_elem_of_omap. specialize (Hca t0 Hin).
    destruct t0 as [m g|dst q [k|]|k a|m T|m|m msg]; cbn in Ho; try case_decide; by simplify_eq/=.
Qed.

(** *** Runs of a cluster *)

Section run.
Context (ids : gset Z) (cfgs : gmap Z (Config P)) (Hok : cluster_ok ids cfgs).
Context (Hodd : Z.odd (Z.of_nat (size ids)) = true) (settled folding : bool).

Lemma stocked_step w h ev w' : sim ids cfgs settled folding w h → stocked w → step ev w = Some w' →
  steady_event settled folding w ev = true → (∀ n cmd, ev = Client n cmd → G cmd) →
  (∀ n idx data, ev = Compact n idx data → I data idx) → stocked w'.
Proof.
  intros Hs Hst Hstep Hf Hcl Hco.
  destruct (sim_turns ids cfgs settled folding w h ev w' Hs Hstep Hf) as (w1 & Ht & Hw).
  assert (stocked w1) as Hs1.
  { eapply stocked_turn; eauto.
    - intros n r Hn. by apply (si_plain _ _ _ _ _ _ Hs n).
    - intros n idx data r -> Hn. split; [by eapply Hco|]. unfold steady_event in Hf. rewrite Hn in Hf.
      by apply andb_true_iff in Hf as [_ [_ Hf%Z.leb_le]%andb_true_iff].
    - intros n rnd r -> Hn. unfold steady_event in Hf. rewrite Hn in Hf.
      apply andb_true_iff in Hf as [_ [[H1 H2]%andb_true_iff _]%andb_true_iff].
      by split; eapply bool_decide_eq_true_1. }
  destruct Hw as [->|(n & r & Hn & ->)]; [done|by apply stocked_crash].
Qed.

Lemma stocked_run es w h w' : sim ids cfgs settled folding w h → stocked w → run es w = Some w' →
  steady_run settled folding es w = true → (∀ n cmd, Client n cmd ∈ es → G cmd) →
  (∀ n idx data, Compact n idx data ∈ es → I data idx) →
  stocked w' ∧ ∀ n msg, (n, msg) ∈ consumed es w → authentic msg.
Proof.
  revert w h. induction es as [|e es IH]; intros w h Hs Hst Hr Hf Hcl Hco; cbn in Hr, Hf.
  - injection Hr as <-. split; [done|]. by intros ? ? ?%elem_of_nil.
  - apply andb_true_iff in Hf as [Hf Hfs]. destruct (step e w) as [w1|] eqn:Hstep; [|done].
    destruct (sim_step ids cfgs Hok Hodd settled folding (λ _ _, True) w h e w1 Hs Hstep Hf) as (h1 & _ & Hs1); [done|].
    destruct (IH w1 h1 Hs1) as [Hw' Hm]; auto.
    { apply (stocked_step w h e w1); auto.
      - intros n cmd ->. apply (Hcl n). by left.
      - intros n idx data ->. apply (Hco n). by left. }
    { intros n cmd ?. apply (Hcl n). by right. }
    { intros n idx data ?. apply (Hco n). by right. }
    split; [done|]. intros n msg [(r & Hn & Hin)|(w2 & Hw2 & Hin)]%consumed_cons.
    + by apply (st_chan _ Hst n r).
    + rewrite Hstep in Hw2. injection Hw2 as <-. by eapply Hm.
Qed.

Lemma stocked_boot rnd : map_Forall (λ _, blank) cfgs → stocked (boot rnd cfgs).
Proof.
  intros Hbl.
  assert (∀ n r, nodes (boot rnd cfgs) !! n = Some r → log r = [] ∧ logBase r = 0 ∧ snapshot r = [] ∧
    applyCh r = []) as Hn.
  { cbn. intros n r. rewrite lookup_omap_Some. intros (cfg & Hb & Hc).
    destruct (boot_node_blank false rnd cfg r Hb (Hbl n cfg Hc)) as (_ & ? & ? & _ & _ & ?).
    split_and!; auto. by apply (boot_node_snapshot rnd cfg r Hb), (Hbl n). }
  split.
  - intros n r [(Hl & Hb & Hs & _)%Hn|Hd]; [|cbn in Hd; by rewrite lookup_empty in Hd].
    split; rewrite ?Hl, ?Hs, ?Hb; [by intros ? ?%elem_of_nil|done..].
  - intros n r msg (_ & _ & _ & ->)%Hn. by intros ?%elem_of_nil.
  - intros n a msg (t & Ht & Ha)%list_elem_of_omap. cbn in Ht.
    apply list_elem_of_fmap in Ht as (m & -> & _). cbn in Ha. case_decide; simplify_eq.
    by intros ?%elem_of_nil.
  - cbn. intros t (m & -> & _)%list_elem_of_fmap. done.
Qed.
End run.
End origin.

Lemma stocked_mono (G : bytes → Prop) (I I' : bytes → Z → Prop) w : (∀ d i, I d i → I' d i) →
  stocked G I w → stocked G I' w.
Proof.
  intros HI [Hn Hc Hh Ht]. split.
  - intros n r Hk. destruct (Hn n r Hk). split; auto.
  - intros n r msg Hr Hm. destruct (Hc n r msg Hr Hm). split; auto.
  - intros n a msg Ha Hm. destruct (Hh n a msg Ha Hm). split; auto.
  - intros t Hin. specialize (Ht t Hin). destruct t as [|dst q k| | | |]; try done.
    destruct q; try done. by apply HI.
Qed.

(** C28: Nothing is made up.  Along a run as in log matching (odd size, blank
    disks, its side conditions), every entry of
    every log carries a command that a client has submitted, and so does every
    command a state machine receives; every snapshot it receives is one that a
    state machine has handed to its node, under the same index.  With state-machine
    safety this is the validity half of consensus. *)
Theorem nothing_made_up (ids : gset Z) (cfgs : gmap Z (Config P)) (rnd : Z) (es : list event)
    (w : World P) (settled folding : bool) :
  cluster_ok ids cfgs → Z.odd (Z.of_nat (size ids)) = true →
  map_Forall (λ _, blank) cfgs → run es (boot rnd cfgs) = Some w →
  steady_run settled folding es (boot rnd cfgs) = true →
  (∀ n r e, known w n r → e ∈ log r → ∃ m, Client m (eCommand e) ∈ es) ∧
  ∀ n msg, (n, msg) ∈ consumed es (boot rnd cfgs) →
    (CommandValid msg = true → ∃ m, Client m (amCommand msg) ∈ es) ∧
    (SnapshotValid msg = true → ∃ m, Compact m (amLastIncludedIndex msg) (SnapshotData msg) ∈ es).
Proof.
  intros Hok Hodd Hbl Hrun Hst.
  destruct (stocked_run (λ cmd, ∃ m, Client m cmd ∈ es) (λ d i, ∃ m, Compact m i d ∈ es)
    ids cfgs Hok Hodd settled folding es (boot rnd cfgs) (first_proto cfgs rnd) w) as [Hs Hm];
    eauto using sim_boot, stocked_boot.
  split; [|done]. intros n r e Hn He. by apply (au_log _ _ _ (st_node _ _ _ Hs n r Hn)).
Qed.
End provenance.

(** ** Witness *)

Lemma nothing_made_up_witness :
  (∃ m, Client m [Byte.x61] ∈ fold_and_send) ∧ (∃ m, Compact m 1 [Byte.x7b] ∈ fold_and_send).
Proof.
  destruct (nothing_made_up (list_to_set (test_ids 3)) (test_configs 3) 0 fold_and_send
    (after fold_and_send) true true test_cluster_ok) as [_ Hm]; [on_run..|]. split.
  - apply (Hm 3 (command_msg [Byte.x61] 1)); [|reflexivity].
    apply (list_elem_of_lookup_2 _ 2). vm_compute. reflexivity.
  - apply (Hm 2 (snapshot_msg [Byte.x7b] 1 1)); [|reflexivity].
    apply (list_elem_of_lookup_2 _ 1). vm_compute. reflexivity.
Defined.
