(* ===== verification/KvCodec.v ===== *)
(** * What the key-value server writes as JSON

    The commands of the log ([Command] of [kv/kv.pb.go], [serializeCommand] in
    [kv/types.go]) and the snapshots ([kv/snapshot.go]), with the field names
    and options of their struct tags. *)

From S2P Require Import Prelude Types Text JsonSyntax Json Timestamp.

(** ** Commands *)

(** The protobuf message that goes into the log; [cOp] is an [int32]. *)
Record Command : Type := mkCommand {
  cOp : Z;
  cKey : string;
  cValue : string;
  cClientId : Z;
  cSequenceNum : Z
}.

Definition enc_Command (c : Command) : json :=
  JObj (enc_omitempty "op" (cOp c =? 0) (enc_int (cOp c)) ++
        enc_omitempty "key" (bool_decide (cKey c = "")) (enc_string (cKey c)) ++
        enc_omitempty "value" (bool_decide (cValue c = "")) (enc_string (cValue c)) ++
        enc_omitempty "client_id" (cClientId c =? 0) (enc_int (cClientId c)) ++
        enc_omitempty "sequence_num" (cSequenceNum c =? 0) (enc_int (cSequenceNum c))).

Definition min_int32 : Z := - 2 ^ 31.
Definition max_int32 : Z := 2 ^ 31 - 1.

Definition Command_fields : list (string * decoder Command) := [
  ("op", dec_field cOp (λ o c, mkCommand o (cKey c) (cValue c) (cClientId c) (cSequenceNum c))
           (dec_int min_int32 max_int32));
  ("key", dec_field cKey (λ k c, mkCommand (cOp c) k (cValue c) (cClientId c) (cSequenceNum c)) dec_string);
  ("value", dec_field cValue (λ v c, mkCommand (cOp c) (cKey c) v (cClientId c) (cSequenceNum c)) dec_string);
  ("client_id", dec_field cClientId (λ i c, mkCommand (cOp c) (cKey c) (cValue c) i (cSequenceNum c))
                  (dec_int min_int max_int));
  ("sequence_num", dec_field cSequenceNum (λ q c, mkCommand (cOp c) (cKey c) (cValue c) (cClientId c) q)
                     (dec_int min_int max_int))].

(** The fields fit their types, as every Go value does. *)
Definition Command_typed (c : Command) : bool :=
  (in_range min_int32 max_int32 (cOp c) && in_range min_int max_int (cClientId c) &&
   in_range min_int max_int (cSequenceNum c))%bool.

#[export] Instance Command_json : Json Command := {|
  Marshal c :=
    if Command_typed c then inl (marshal_json false (enc_Command c)) else inr (Errorf "not a Command");
  Unmarshal := unmarshal_json (mkCommand 0 "" "" 0 0) (dec_struct Command_fields)
|}.

(** ** Snapshots *)

Record snapshotEntry : Type := mkSnapshotEntry {
  seValue : string;
  seErr : string;
  seTimestamp : Z
}.

(** A nil map is encoded like an empty one for [Dedup] ([omitempty]) and is
    replaced by an empty one after decoding for [State]. *)
Record snapshotPayload : Type := mkSnapshotPayload {
  spState : gmap string string;
  spDedup : gmap Z (gmap Z snapshotEntry)
}.

Definition time_text (t : Z) : text := match format_time t with inl s => s | inr _ => [] end.

Definition enc_snapshotEntry (e : snapshotEntry) : json :=
  JObj (enc_field "value" (enc_string (seValue e)) ++
        enc_omitempty "err" (bool_decide (seErr e = "")) (enc_string (seErr e)) ++
        enc_field "ts" (JStr (time_text (seTimestamp e)))).

Definition enc_snapshotPayload (p : snapshotPayload) : json :=
  JObj (enc_field "state" (enc_map codes enc_string (spState p)) ++
        enc_omitempty "dedup" (bool_decide (spDedup p = ∅))
          (enc_map decimal (enc_map decimal enc_snapshotEntry) (spDedup p))).

(** The value of a [time.Time] that was not set: the start of year 1. *)
Definition zero_time : Z := - 62135596800 * 10 ^ 9.

Definition dec_time : decoder Z := λ x v,
  match v with
  | JNull => inl x
  | JStr s => match parse_time s with Some t => inl t | None => type_error end
  | _ => type_error
  end.

Definition snapshotEntry_fields : list (string * decoder snapshotEntry) := [
  ("value", dec_field seValue (λ v e, mkSnapshotEntry v (seErr e) (seTimestamp e)) dec_string);
  ("err", dec_field seErr (λ r e, mkSnapshotEntry (seValue e) r (seTimestamp e)) dec_string);
  ("ts", dec_field seTimestamp (λ t e, mkSnapshotEntry (seValue e) (seErr e) t) dec_time)].

(** The entries are pointers.  For [null] the program would go on with a nil
    pointer, and stop when it reads the entry; here that is an error. *)
Definition dec_snapshotEntry : decoder snapshotEntry := λ x v,
  match v with JNull => type_error | _ => dec_struct snapshotEntry_fields x v end.

Definition zero_entry : snapshotEntry := mkSnapshotEntry "" "" zero_time.

Definition snapshotPayload_fields : list (string * decoder snapshotPayload) := [
  ("state", dec_field spState (λ s p, mkSnapshotPayload s (spDedup p))
              (dec_map (λ k, Some (uncodes k)) "" dec_string));
  ("dedup", dec_field spDedup (λ d p, mkSnapshotPayload (spState p) d)
              (dec_map ParseInt ∅ (dec_map ParseInt zero_entry dec_snapshotEntry)))].

Definition map_forallb `{Countable K} {V} (f : K → V → bool) (m : gmap K V) : bool :=
  forallb (λ kv, f kv.1 kv.2) (map_to_list m).

(** [Marshal] fails for a year of more than four digits. *)
Definition encodable (p : snapshotPayload) : bool :=
  map_forallb (λ c m, in_range min_int max_int c &&
    map_forallb (λ q e, in_range min_int max_int q &&
      match format_time (seTimestamp e) with inl _ => true | inr _ => false end)%bool m)%bool (spDedup p).

#[export] Instance snapshotPayload_json : Json snapshotPayload := {|
  Marshal p :=
    if encodable p then inl (marshal_json false (enc_snapshotPayload p))
    else inr (Errorf "year outside of range [0,9999]");
  Unmarshal := unmarshal_json (mkSnapshotPayload ∅ ∅) (dec_struct snapshotPayload_fields)
|}.

(** ** Round trips *)

(** The values whose strings are UTF-8. *)
Definition valid_Command (c : Command) : Prop := valid_string (cKey c) ∧ valid_string (cValue c).

Definition valid_payload (p : snapshotPayload) : Prop :=
  (∀ k v, spState p !! k = Some v → valid_string k ∧ valid_string v) ∧
  (∀ c m q e, spDedup p !! c = Some m → m !! q = Some e → valid_string (seValue e) ∧ valid_string (seErr e)).

Lemma map_forallb_spec `{Countable K} {V} (f : K → V → bool) (m : gmap K V) : map_forallb f m = true →
  ∀ k v, m !! k = Some v → f k v = true.
Proof.
  intros Hm%forallb_Forall k v Hkv. rewrite Forall_forall in Hm.
  by apply (Hm (k, v)), elem_of_map_to_list.
Qed.

(** A test for [valid_payload]. *)
Definition utf8 (s : string) : bool := valid_utf8 (codes s).

Definition payload_utf8 (p : snapshotPayload) : bool :=
  (map_forallb (λ k v, utf8 k && utf8 v)%bool (spState p) &&
   map_forallb (λ _, map_forallb (λ _ e, utf8 (seValue e) && utf8 (seErr e))%bool) (spDedup p))%bool.

Lemma payload_utf8_spec p : payload_utf8 p = true → valid_payload p.
Proof.
  intros [Hs Hd]%andb_true_iff. split.
  - intros k v Hk. by apply andb_true_iff, (map_forallb_spec _ _ Hs k v Hk).
  - intros c m q e Hc Hq. apply andb_true_iff.
    exact (map_forallb_spec _ _ (map_forallb_spec _ _ Hd c m Hc) q e Hq).
Qed.

Lemma clean_app l l' : clean (JObj (l ++ l')) = (clean (JObj l) && clean (JObj l'))%bool.
Proof. cbn [clean]. apply forallb_app. Qed.

(** A field with an ASCII name. *)
Lemma clean_field name v : valid_string name → clean v = true → clean (JObj (enc_field name v)) = true.
Proof. intros Hn Hv. cbn [clean enc_field forallb fst snd]. by rewrite codes_byte_test, Hn, Hv. Qed.

Lemma clean_omitempty name b v : valid_string name → clean v = true →
  clean (JObj (enc_omitempty name b v)) = true.
Proof. intros. destruct b; [done|]. by apply clean_field. Qed.

Lemma printable_app l l' : printable (JObj (l ++ l')) = (printable (JObj l) && printable (JObj l'))%bool.
Proof. cbn [printable]. apply forallb_app. Qed.

Lemma printable_omitempty name b v : printable v = true → printable (JObj (enc_omitempty name b v)) = true.
Proof.
  intros Hv. destruct b; [done|]. cbn [enc_omitempty enc_field printable forallb fst snd].
  by rewrite codes_byte_test, Hv.
Qed.

Definition coerce_member (kv : text * json) : text * json := (to_valid kv.1, coerce kv.2).

Lemma coerce_omitempty name b v : valid_string name →
  coerce_member <$> enc_omitempty name b v = enc_omitempty name b (coerce v).
Proof. intros Hn. destruct b; [done|]. cbn. unfold coerce_member. cbn [fst snd]. by rewrite to_valid_id. Qed.

(** What is read back of any command: stray bytes in its strings are lost. *)
Lemma Command_read c data : Marshal c = inl data →
  Unmarshal data =
    inl (mkCommand (cOp c) (ToValidUTF8 (cKey c)) (ToValidUTF8 (cValue c)) (cClientId c) (cSequenceNum c)).
Proof.
  cbn [Marshal Unmarshal Command_json]. destruct (Command_typed c) eqn:Ht; [|done].
  intros [= <-]. unfold Command_typed in Ht.
  apply andb_true_iff in Ht as [[Ho%in_range_spec Hc%in_range_spec]%andb_true_iff Hq%in_range_spec].
  assert (in_int (cOp c) ∧ in_int (cClientId c) ∧ in_int (cSequenceNum c)) as (Hoi & Hci & Hqi)
    by (unfold in_int, min_int, max_int, min_int32, max_int32 in *; lia).
  rewrite unmarshal_print.
  - unfold enc_Command. cbn [coerce dec_struct]. fold coerce_member.
    change (λ kv : text * json, (to_valid kv.1, coerce kv.2)) with coerce_member.
    rewrite !fmap_app, !coerce_omitempty by done.
    rewrite <- (app_nil_r (enc_omitempty "sequence_num" _ _)).
    do 5 decode_field ltac:(first [by apply dec_enc_int|reflexivity]). by destruct c.
  - unfold enc_Command.
    rewrite !printable_app, !printable_omitempty by (apply codes_byte_test || by apply clean_int). done.
  - apply shallow. unfold enc_Command, enc_omitempty.
    repeat destruct (_ =? _); repeat destruct (bool_decide _); cbn; lia.
Qed.

#[export] Instance Command_roundtrip : JsonRoundtrip Command valid_Command.
Proof. intros c data [Hk Hv] Hm. rewrite (Command_read c data Hm), !ToValidUTF8_id by done. by destruct c. Qed.

Lemma format_time_clean t s : format_time t = inl s → clean (JStr s) = true.
Proof.
  intros Hs%format_time_ascii. cbn [clean]. apply andb_true_iff. split.
  - apply Forall_forallb. eapply Forall_impl; [exact Hs|]. unfold between. cbn. intros c ?.
    by rewrite !(proj2 (Z.leb_le _ _)) by lia.
  - apply codes_ascii_valid. eapply Forall_impl; [exact Hs|]. cbn. lia.
Qed.

Lemma snapshotEntry_codec e s : format_time (seTimestamp e) = inl s →
  valid_string (seValue e) → valid_string (seErr e) →
  clean (enc_snapshotEntry e) = true ∧ dec_snapshotEntry zero_entry (enc_snapshotEntry e) = inl e.
Proof.
  intros Ht Hv He. unfold enc_snapshotEntry, time_text. rewrite Ht. split.
  - rewrite !clean_app. rewrite !clean_field, clean_omitempty;
      [done|done|by apply clean_string|done|by eapply format_time_clean|done|by apply clean_string].
  - cbn [dec_snapshotEntry dec_struct]. rewrite <- (app_nil_r (enc_field "ts" _)).
    do 2 decode_field ltac:(by apply dec_enc_string).
    decode_field ltac:(cbn [dec_time]; rewrite (parse_format_time _ _ Ht); reflexivity). by destruct e.
Qed.

(** The keys and entries of the cache of one client. *)
Lemma encodable_spec p : encodable p = true → ∀ c m, spDedup p !! c = Some m →
  in_int c ∧ ∀ q e, m !! q = Some e → in_int q ∧ ∃ s, format_time (seTimestamp e) = inl s.
Proof.
  intros Hp c m Hc. pose proof (map_forallb_spec _ _ Hp c m Hc) as H. cbv beta in H.
  apply andb_true_iff in H as [Hci%in_range_spec Hm].
  split; [unfold in_int, min_int, max_int in *; lia|]. intros q e Hq.
  pose proof (map_forallb_spec _ _ Hm q e Hq) as H. cbv beta in H.
  apply andb_true_iff in H as [Hqi%in_range_spec Ht].
  split; [unfold in_int, min_int, max_int in *; lia|]. destruct (format_time _); [eauto|done].
Qed.

Lemma enc_snapshotEntry_height e : (height (enc_snapshotEntry e) ≤ 1)%nat.
Proof. unfold enc_snapshotEntry, enc_omitempty. destruct (bool_decide _); cbn; lia. Qed.

#[export] Instance snapshotPayload_roundtrip : JsonRoundtrip snapshotPayload valid_payload.
Proof.
  intros p data [Hst Hde]. cbn [Marshal Unmarshal snapshotPayload_json].
  destruct (encodable p) eqn:Hp; [|done]. intros [= <-]. pose proof (encodable_spec p Hp) as Hr.
  assert (∀ c m q e, spDedup p !! c = Some m → m !! q = Some e →
    clean (enc_snapshotEntry e) = true ∧ dec_snapshotEntry zero_entry (enc_snapshotEntry e) = inl e) as He.
  { intros c m q e Hc Hq. destruct (Hr c m Hc) as [_ Hm]. destruct (Hm q e Hq) as (_ & s & Hs).
    destruct (Hde c m q e Hc Hq). by apply (snapshotEntry_codec e s). }
  rewrite unmarshal_marshal.
  - cbn [enc_snapshotPayload dec_struct]. rewrite <- (app_nil_r (enc_omitempty "dedup" _ _)).
    decode_field ltac:(apply dec_enc_map; intros k v _; split; [by rewrite uncodes_codes|apply dec_enc_string]).
    decode_field ltac:(apply dec_enc_map; intros c m Hc; destruct (Hr c m Hc) as [Hci Hm];
      split; [by apply ParseInt_decimal|apply dec_enc_map]; intros q e Hq; destruct (Hm q e Hq);
      split; [by apply ParseInt_decimal|by apply (He c m q e)]).
    by destruct p.
  - unfold enc_snapshotPayload. rewrite !clean_app, clean_field, clean_omitempty; [done|done| |done|];
      apply clean_map.
    + intros c m Hc. destruct (Hr c m Hc) as [[? ?]%decimal_key Hm]. split_and!; [done..|].
      apply clean_map. intros q e Hq. destruct (Hm q e Hq) as [[? ?]%decimal_key _].
      split_and!; [done..|]. by apply (He c m q e).
    + intros k v Hk. destruct (Hst k v Hk). split_and!; [apply codes_bytes|done|by apply clean_string].
  - assert (height (enc_map codes enc_string (spState p)) ≤ 1)%nat by (apply height_map; done).
    assert (height (enc_map decimal (enc_map decimal enc_snapshotEntry) (spDedup p)) ≤ 3)%nat.
    { apply height_map. intros c m _. apply height_map. intros q e _. apply enc_snapshotEntry_height. }
    apply shallow. unfold enc_snapshotPayload, enc_omitempty, enc_field.
    destruct (bool_decide _); cbn [height app fmap list_fmap max_list fst snd]; unfold id; lia.
Qed.
