(* ===== verification/Kv.v ===== *)
(** * The key-value state machine

    [kv/types.go], [kv/apply.go], [kv/server.go] and [kv/snapshot.go]: the
    replicated map, duplicate detection, the bridge between RPC handlers and the
    consensus engine, and snapshots of the map.

    - Each definition is one critical section under [s.mu], or the sequence of
      them a method runs.  The Raft node [s.rf] is a second argument.
    - A result channel [make(chan Result, 1)] is a cell of [chans]; a
      [PendingOp] holds its address, as the waiting handler does.
    - A reading of the clock is an argument, in nanoseconds.
    - [pick] is the key that a [range] loop over a map yields first; Go leaves
      the order of iteration open.
    - Commands and snapshots are encoded by [KvCodec].  [logger] and the
      unused field [leaderId] are left out. *)

From stdpp Require Import pretty.
From S2P Require Import Prelude Types Json KvCodec Persister Node Election Replication Snapshot.
#[local] Open Scope string_scope.
#[local] Open Scope Z_scope.

(** ** kv/types.go *)

Inductive kv_error : Type :=
  | KErrNotLeader
  | KErrTimeout
  | KErrKeyNotFound
  | KErrDuplicate
  | KErrTooManyPending
  | KErrShutdown
  | KErrorf (msg : string)
  | KWrapf (msg : string) (inner : error)
  | KErr (inner : error).         (* an error of another package, as it is *)

#[export] Instance kv_error_eq_dec : EqDecision kv_error.
Proof. solve_decision. Defined.

Definition DefaultMaxPendingOps : Z := 1000.
Definition maxDuplicateEntriesPerClient : Z := 100.
(** [10 * time.Second]. *)
Definition duplicateCacheExpiry : Z := 10 * 1000000000.

(** [OpKind]: any [int] may come out of the log. *)
Definition OpGet : Z := 1.
Definition OpPut : Z := 2.
Definition OpAppend : Z := 3.

Record Op : Type := mkOp {
  oType : Z;
  oKey : string;
  oValue : string;
  oClientId : Z;
  oSequenceId : Z
}.

Definition toProto (o : Op) : Command :=
  mkCommand (i32 (oType o)) (oKey o) (oValue o) (oClientId o) (oSequenceId o).

Definition opFromProto (cmd : Command) : Op :=
  mkOp (cOp cmd) (cKey cmd) (cValue cmd) (cClientId cmd) (cSequenceNum cmd).

Record Result : Type := mkResult { rValue : string; rErr : option kv_error }.

#[export] Instance Result_eq_dec : EqDecision Result.
Proof. solve_decision. Defined.

Record PendingOp : Type := mkPendingOp {
  poIndex : Z;
  poOp : Op;
  ResultCh : nat
}.

Record DuplicateEntry : Type := mkDuplicateEntry {
  dResult : Result;
  dTimestamp : Z
}.

#[export] Instance DuplicateEntry_eq_dec : EqDecision DuplicateEntry.
Proof. solve_decision. Defined.

Record Server : Type := mkServer {
  kvState : gmap string string;
  duplicates : gmap Z (gmap Z DuplicateEntry);
  pendingOps : gmap Z PendingOp;
  recent : gmap Z Result;
  maxPending : Z;
  dead : bool;                         (* and shutdownCh is closed *)
  kvLastApplied : Z;
  lastSnapshotIndex : Z;
  chans : gmap nat (option Result);    (* the channels made so far *)
  nextCh : nat
}.

(** ** The log's encoding of a command *)

Definition serializeCommand (op : Op) : bytes + error := Marshal (toProto op).

Definition deserializeCommand (data : bytes) : Op + error :=
  match Unmarshal data with
  | inr err => inr (Wrapf "deserialize command" err)
  | inl cmd => inl (opFromProto cmd)
  end.

(** [time.Since]: a duration saturates at the range of [int64]. *)
Definition Since (now t : Z) : Z := Z.max min_int (Z.min max_int (now - t)).

(** ** kv/snapshot.go: the image of the state machine *)

(** [err.Error()]. *)
Fixpoint Error (err : error) : string :=
  match err with
  | ErrNotLeader => "not leader"
  | ErrTimeout => "timeout waiting for commit"
  | ErrNoSnapshot => "snapshot does not exist"
  | Errorf msg => msg
  | Wrapf msg inner => msg +:+ ": " +:+ Error inner
  end.

Definition kv_Error (err : kv_error) : string :=
  match err with
  | KErrNotLeader => "not leader"
  | KErrTimeout => "timeout waiting for commit"
  | KErrKeyNotFound => "key not found"
  | KErrDuplicate => "duplicate request"
  | KErrTooManyPending => "too many pending operations"
  | KErrShutdown => "server shutting down"
  | KErrorf msg => msg
  | KWrapf msg inner => msg +:+ ": " +:+ Error inner
  | KErr inner => Error inner
  end.

Definition errString (err : option kv_error) : string :=
  match err with None => "" | Some e => kv_Error e end.

Definition sentinelErr (s : string) : option kv_error :=
  if decide (s = "") then None
  else if decide (s = kv_Error KErrKeyNotFound) then Some KErrKeyNotFound
  else None.

(** The entries of one client that go into the snapshot. *)
Definition snapshot_client (now clientId : Z) (clientMap : gmap Z DuplicateEntry)
    : gmap Z snapshotEntry :=
  map_imap (λ seqNum entry,
    if ((clientId =? 0) && (seqNum =? 0))%bool then None
    else if duplicateCacheExpiry <? Since now (dTimestamp entry) then None
    else Some (mkSnapshotEntry (rValue (dResult entry)) (errString (rErr (dResult entry)))
                 (dTimestamp entry))) clientMap.

(** A client whose entries are all skipped does not appear. *)
Definition snapshot_dedup (now : Z) (dedup : gmap Z (gmap Z DuplicateEntry))
    : gmap Z (gmap Z snapshotEntry) :=
  map_imap (λ clientId clientMap,
    let m := snapshot_client now clientId clientMap in
    if decide (m = ∅) then None else Some m) dedup.

Definition serializeSnapshot (now : Z) (st : gmap string string)
    (dedup : gmap Z (gmap Z DuplicateEntry)) : bytes + error :=
  match Marshal (mkSnapshotPayload st (snapshot_dedup now dedup)) with
  | inr err => inr (Wrapf "serialize snapshot" err)
  | inl data => inl data
  end.

Definition restore_entry (e : snapshotEntry) : DuplicateEntry :=
  mkDuplicateEntry (mkResult (seValue e) (sentinelErr (seErr e))) (seTimestamp e).

Definition deserializeSnapshot (data : bytes)
    : (gmap string string * gmap Z (gmap Z DuplicateEntry)) + error :=
  match Unmarshal data with
  | inr err => inr (Wrapf "deserialize snapshot" err)
  | inl payload => inl (spState payload, (λ m : gmap Z snapshotEntry, restore_entry <$> m) <$> spDedup payload)
  end.

(** ** kv/apply.go: duplicate detection *)

Definition getDuplicateLocked (now clientId seqNum : Z) (s : Server)
    : Server * option DuplicateEntry :=
  match duplicates s !! clientId with
  | None => (s, None)
  | Some clientMap =>
    match clientMap !! seqNum with
    | None => (s, None)
    | Some entry =>
      if duplicateCacheExpiry <? Since now (dTimestamp entry)
      then (s <| duplicates := <[clientId := delete seqNum clientMap]> (duplicates s) |>, None)
      else (s, Some entry)
    end
  end.

Definition saveDuplicateLocked (now clientId seqNum : Z) (res : Result) (s : Server) : Server :=
  let clientMap := default ∅ (duplicates s !! clientId) in
  s <| duplicates :=
    <[clientId := <[seqNum := mkDuplicateEntry res now]> clientMap]> (duplicates s) |>.

(** The scan for the oldest entry; the first of equally old ones stays. *)
Definition oldest (clientMap : gmap Z DuplicateEntry) : option (Z * Z) :=
  foldl (λ acc '(seq, entry),
    match acc with
    | None => Some (seq, dTimestamp entry)
    | Some (oldestSeq, oldestTime) =>
        if dTimestamp entry <? oldestTime then Some (seq, dTimestamp entry) else acc
    end) None (map_to_list clientMap).

Fixpoint evict_oldest (fuel : nat) (clientMap : gmap Z DuplicateEntry)
    : gmap Z DuplicateEntry :=
  match fuel with
  | O => clientMap
  | S fuel =>
    if maxDuplicateEntriesPerClient <? Z.of_nat (size clientMap) then
      match oldest clientMap with
      | Some (oldestSeq, _) => evict_oldest fuel (delete oldestSeq clientMap)
      | None => clientMap
      end
    else clientMap
  end.

Definition cleanup_client (now : Z) (clientMap : gmap Z DuplicateEntry)
    : gmap Z DuplicateEntry :=
  let live := filter (λ kv, ¬ duplicateCacheExpiry < Since now (dTimestamp kv.2)) clientMap in
  evict_oldest (size live) live.

Definition cleanupDuplicateCacheLocked (now clientId : Z) (s : Server) : Server :=
  match duplicates s !! clientId with
  | None => s
  | Some clientMap =>
      s <| duplicates := <[clientId := cleanup_client now clientMap]> (duplicates s) |>
  end.

(** ** kv/apply.go: executing a command *)

Definition applyCommandLocked (op : Op) (s : Server) : Server * Result :=
  if oType op =? OpPut then
    (s <| kvState := <[oKey op := oValue op]> (kvState s) |>, mkResult "" None)
  else if oType op =? OpAppend then
    (s <| kvState := <[oKey op := default "" (kvState s !! oKey op) +:+ oValue op]> (kvState s) |>,
     mkResult "" None)
  else if oType op =? OpGet then
    match kvState s !! oKey op with
    | None => (s, mkResult "" (Some KErrKeyNotFound))
    | Some val => (s, mkResult val None)
    end
  else (s, mkResult "" (Some (KErrorf ("unknown op type: " +:+ pretty (oType op))))).

(** A non-blocking send on a channel of capacity one. *)
Definition try_send (ch : nat) (res : Result) (s : Server) : Server :=
  match chans s !! ch with
  | Some None => s <| chans := <[ch := Some res]> (chans s) |>
  | _ => s
  end.

Section server.
Context {P : Type} `{PP : Persister P}.
Context (pick : gmap Z Result → Z).
Implicit Types (s : Server) (r : Raft P).

(** [for len(s.recent) > s.maxPending]: the body deletes the first key the
    iteration yields. *)
Fixpoint evict_recent (fuel : nat) (cap : Z) (m : gmap Z Result) : gmap Z Result :=
  match fuel with
  | O => m
  | S fuel =>
    if cap <? Z.of_nat (size m) then evict_recent fuel cap (delete (pick m) m) else m
  end.

Definition notifyWaiter (idx : Z) (res : Result) s : Server :=
  match pendingOps s !! idx with
  | Some pending =>
      try_send (ResultCh pending) res (s <| pendingOps := delete idx (pendingOps s) |>)
  | None =>
      let m := <[idx := res]> (recent s) in
      s <| recent := evict_recent (size m) (maxPending s) m |>
  end.

Definition handleSnapshotMsg (msg : ApplyMsg) s : Server :=
  match deserializeSnapshot (SnapshotData msg) with
  | inr _ => s
  | inl (st, dedup) =>
      s <| kvState := st |>
        <| duplicates := dedup |>
        <| kvLastApplied := amLastIncludedIndex msg |>
        <| lastSnapshotIndex := amLastIncludedIndex msg |>
        <| recent := ∅ |>
  end.

Definition takeSnapshot (now : Z) s r : Server * Raft P :=
  let threshold := SnapshotThreshold r in
  if threshold <=? 0 then (s, r)
  else if kvLastApplied s -! lastSnapshotIndex s <? threshold then (s, r)
  else
    let idx := kvLastApplied s in
    match serializeSnapshot now (kvState s) (duplicates s) with
    | inr _ => (s, r)
    | inl data =>
      match Snapshot idx data r with
      | (r, Some _) => (s, r)
      | (r, None) => (s <| lastSnapshotIndex := idx |>, r)
      end
    end.

(** The critical section of [processApplyMsg] between the duplicate check and
    the notification. *)
Definition apply_section (now idx : Z) (op : Op) s : Server * Result :=
  let '(s, res) := applyCommandLocked op s in
  let s := s <| kvLastApplied := idx |> in
  let s := saveDuplicateLocked now (oClientId op) (oSequenceId op) res s in
  (cleanupDuplicateCacheLocked now (oClientId op) s, res).

(** [processApplyMsg] up to the call of [takeSnapshot]: the server, and whether
    that call is reached. *)
Definition processApplyMsg_begin (now : Z) (msg : ApplyMsg) s : Server * bool :=
  if SnapshotValid msg then (handleSnapshotMsg msg s, false)
  else if negb (CommandValid msg) then (s, false)
  else
    match deserializeCommand (amCommand msg) with
    | inr err => (notifyWaiter (CommandIndex msg) (mkResult "" (Some (KErr err))) s, false)
    | inl op =>
      let '(s, dup) :=
        if (negb (oClientId op =? 0) && negb (oSequenceId op =? 0))%bool
        then getDuplicateLocked now (oClientId op) (oSequenceId op) s
        else (s, None) in
      match dup with
      | Some dup => (notifyWaiter (CommandIndex msg) (dResult dup) s, false)
      | None =>
        let '(s, res) := apply_section now (CommandIndex msg) op s in
        (notifyWaiter (CommandIndex msg) res s, true)
      end
    end.

(** [now] is the clock during the critical section, [now'] when the snapshot
    is taken. *)
Definition processApplyMsg (now now' : Z) (msg : ApplyMsg) s r : Server * Raft P :=
  let '(s, reached) := processApplyMsg_begin now msg s in
  if reached then takeSnapshot now' s r else (s, r).

(** ** kv/server.go *)

Definition NewServer (maxp : Z) : Server :=
  mkServer ∅ ∅ ∅ ∅ (if maxp <=? 0 then DefaultMaxPendingOps else maxp) false 0 0 ∅ 0.

(** [Kill]: its critical section, which also tells the waiting handlers, and one
    turn of the loop that drains [applyCh] for two seconds afterwards, without
    the lock.  [drained] is the number of turns that find a message. *)
Definition Kill_close s : Server :=
  let s := s <| dead := true |> in
  let s := map_fold (λ _ pending s, try_send (ResultCh pending)
             (mkResult "" (Some KErrShutdown)) s) s (pendingOps s) in
  s <| pendingOps := ∅ |>.

Definition Kill_drain r : Raft P := r <| applyCh := drop 1 (applyCh r) |>.

Definition Kill (drained : nat) s r : Server * Raft P :=
  if dead s then (s, r) else (Kill_close s, Nat.iter drained Kill_drain r).

(** [submitOperation] up to the call of raft: the answer of the duplicate
    cache, or the command to replicate. *)
Inductive submit_action : Type :=
  | SubmitReturn (res : Result) (err : option kv_error)
  | SubmitReplicate (data : bytes).

Definition submitOperation_begin (now : Z) (op : Op) s : Server * submit_action :=
  match serializeCommand op with
  | inr err => (s, SubmitReturn (mkResult "" None) (Some (KWrapf "serialize op" err)))
  | inl data =>
    let '(s, dup) :=
      if (negb (oClientId op =? 0) && negb (oSequenceId op =? 0))%bool
      then getDuplicateLocked now (oClientId op) (oSequenceId op) s
      else (s, None) in
    match dup with
    | Some dup => (s, SubmitReturn (dResult dup) None)
    | None => (s, SubmitReplicate data)
    end
  end.

(** The error [ReplicateCommand] returned. *)
Definition submitOperation_failed (err : error) : kv_error :=
  if decide (err = ErrNotLeader) then KErrNotLeader else KErr err.

(** The registration after the command is committed: returned at once, or a
    channel to wait on. *)
Inductive register_action : Type :=
  | RegisterReturn (res : Result) (err : option kv_error)
  | RegisterWait (ch : nat).

Definition submitOperation_register (idx : Z) (op : Op) s : Server * register_action :=
  let ch := nextCh s in
  let s := s <| chans := <[ch := None]> (chans s) |> <| nextCh := S ch |> in
  if dead s then (s, RegisterReturn (mkResult "" None) (Some KErrShutdown))
  else if maxPending s <=? Z.of_nat (size (pendingOps s))
  then (s, RegisterReturn (mkResult "" None) (Some KErrTooManyPending))
  else
    let s := s <| pendingOps := <[idx := mkPendingOp idx op ch]> (pendingOps s) |> in
    match recent s !! idx with
    | Some res => (s <| recent := delete idx (recent s) |>, RegisterReturn res None)
    | None => (s, RegisterWait ch)
    end.

(** What ends the wait on the result channel; [None] when the event cannot
    occur yet. *)
Inductive submit_event : Type := SubmitResult | SubmitTimeout | SubmitShutdown.

Definition submitOperation_wait (idx : Z) (ch : nat) (ev : submit_event) s
    : option (Server * (Result * option kv_error)) :=
  match ev with
  | SubmitResult =>
      match chans s !! ch with
      | Some (Some res) => Some (s <| chans := <[ch := None]> (chans s) |>, (res, None))
      | _ => None
      end
  | SubmitTimeout =>
      Some (s <| pendingOps := delete idx (pendingOps s) |>,
            (mkResult "" None, Some KErrTimeout))
  | SubmitShutdown =>
      if dead s then Some (s, (mkResult "" None, Some KErrShutdown)) else None
  end.

(** ** RPC handlers *)

(** [GetResponse]; [PutResponse] and [AppendResponse] have no value. *)
Record Response : Type := mkResponse {
  Success : bool;
  Value : string;
  WrongLeader : bool;
  LeaderId : Z;          (* int32 *)
  ErrorText : string
}.

Definition wrongLeader r : Response :=
  mkResponse false "" true (i32 (GetLeaderId r)) "".

Definition errorResponse (err : kv_error) r : Response :=
  if decide (err = KErrNotLeader) then wrongLeader r
  else mkResponse false "" false 0 (kv_Error err).

(** The operation each handler submits, or its answer when it does not lead. *)
Definition Get_begin (key : string) r : Op + Response :=
  if negb (IsLeader r) then inr (wrongLeader r) else inl (mkOp OpGet key "" 0 0).
Definition Put_begin (key value : string) r : Op + Response :=
  if negb (IsLeader r) then inr (wrongLeader r) else inl (mkOp OpPut key value 0 0).
Definition Append_begin (key value : string) r : Op + Response :=
  if negb (IsLeader r) then inr (wrongLeader r) else inl (mkOp OpAppend key value 0 0).

(** The answer made from what [submitOperation] returned. *)
Definition Get_end (res : Result) (err : option kv_error) r : Response :=
  match err with
  | Some e => errorResponse e r
  | None =>
    match rErr res with
    | Some e => mkResponse false "" false 0 (kv_Error e)
    | None => mkResponse true (rValue res) false 0 ""
    end
  end.
Definition Put_end (res : Result) (err : option kv_error) r : Response :=
  match err with
  | Some e => errorResponse e r
  | None => mkResponse true "" false 0 ""
  end.
Definition Append_end := Put_end.
End server.
