(* ===== verification/KvFacts.v ===== *)
(** * Properties of the key-value state machine

    The map is what the operations of the log make of it, on every replica; the
    duplicate cache and the stash of results stay bounded; early results fill
    the table of waiting handlers; a snapshot restores the map. *)

From stdpp Require Import pretty.
From S2P Require Import Prelude Types Text Json KvCodec Persister Node Election Replication Snapshot Kv.
#[local] Open Scope string_scope.
#[local] Open Scope Z_scope.

(** ** The abstract map *)

(** What an operation does to the map and answers. *)
Definition exec (op : Op) (m : gmap string string) : gmap string string * Result :=
  if oType op =? OpPut then (<[oKey op := oValue op]> m, mkResult "" None)
  else if oType op =? OpAppend then
    (<[oKey op := default "" (m !! oKey op) +:+ oValue op]> m, mkResult "" None)
  else if oType op =? OpGet then
    (m, match m !! oKey op with
        | Some v => mkResult v None | None => mkResult "" (Some KErrKeyNotFound) end)
  else (m, mkResult "" (Some (KErrorf ("unknown op type: " +:+ pretty (oType op))))).

Definition exec_all (ops : list Op) (m : gmap string string) : gmap string string :=
  foldl (λ m op, fst (exec op m)) m ops.

(** An operation that does not take part in duplicate detection. *)
Definition no_dedup (op : Op) : Prop := oClientId op = 0 ∨ oSequenceId op = 0.

(** At most [maxDuplicateEntriesPerClient] results are cached per client. *)
Definition dedup_bounded (s : Server) : Prop :=
  map_Forall (λ _ m, Z.of_nat (size m) ≤ maxDuplicateEntriesPerClient) (duplicates s).

(** ** The duplicate cache *)

Lemma applyCommandLocked_exec op s :
  applyCommandLocked op s = (s <| kvState := fst (exec op (kvState s)) |>, snd (exec op (kvState s))).
Proof.
  unfold applyCommandLocked, exec. branch; [done|]. branch; [done|]. branch; [|by destruct s].
  destruct (kvState s !! oKey op); by destruct s.
Qed.

(** The scan returns an entry no other entry is older than. *)
Lemma oldest_spec (m : gmap Z DuplicateEntry) :
  match oldest m with
  | None => m = ∅
  | Some (k, t) => ∃ e, m !! k = Some e ∧ dTimestamp e = t ∧
      ∀ k' e', m !! k' = Some e' → t ≤ dTimestamp e'
  end.
Proof.
  unfold oldest.
  set (f := λ (acc : option (Z * Z)) '(seq, entry), match acc with
    | None => Some (seq, dTimestamp entry)
    | Some (oldestSeq, oldestTime) =>
        if dTimestamp entry <? oldestTime then Some (seq, dTimestamp entry) else acc
    end).
  assert (∀ l acc, match foldl f acc l with
    | None => acc = None ∧ l = []
    | Some (k, t) =>
        (acc = Some (k, t) ∨ ∃ e, (k, e) ∈ l ∧ dTimestamp e = t) ∧
        (∀ k' t', acc = Some (k', t') → t ≤ t') ∧ (∀ k' e', (k', e') ∈ l → t ≤ dTimestamp e')
    end) as Hall.
  { induction l as [|[k0 e0] l IH]; intros acc; cbn [foldl].
    - destruct acc as [[k t]|]; [|done]. split_and!; [by left| |].
      + intros ? ? [= -> ->]. lia.
      + intros ? ? []%not_elem_of_nil.
    - assert (∃ k1 t1, f acc (k0, e0) = Some (k1, t1) ∧ t1 ≤ dTimestamp e0 ∧
        (acc = Some (k1, t1) ∨ (k1 = k0 ∧ dTimestamp e0 = t1)) ∧
        ∀ k' t', acc = Some (k', t') → t1 ≤ t') as (k1 & t1 & Hf & Hle & Hwho & Hacc).
      { cbn. destruct acc as [[k t]|].
        - destruct (Z.ltb_spec (dTimestamp e0) t); eexists _, _; (split; [done|]); split_and!;
            first [lia|by auto|intros ? ? [= <- <-]; lia].
        - exists k0, (dTimestamp e0). split_and!; auto; [lia|done]. }
      specialize (IH (f acc (k0, e0))). rewrite Hf in IH |- *.
      destruct (foldl f (Some (k1, t1)) l) as [[k t]|]; [|by destruct IH].
      destruct IH as (Hin & Hmin & Hl). specialize (Hmin k1 t1 eq_refl). split_and!.
      + destruct Hin as [[= <- <-]|(e & ? & ?)].
        * destruct Hwho as [->|[-> ?]]; [by left|]. right. exists e0.
          split; [apply elem_of_cons; by left|done].
        * right. exists e. split; [apply elem_of_cons; by right|done].
      + intros k' t' H'. specialize (Hacc k' t' H'). lia.
      + intros k' e' [[= -> ->]|H']%elem_of_cons; [lia|eauto]. }
  specialize (Hall (map_to_list m) None).
  destruct (foldl f None (map_to_list m)) as [[k t]|].
  - destruct Hall as ([?|(e & He & Ht)] & _ & Hl); [done|]. exists e.
    apply elem_of_map_to_list in He. split_and!; auto.
    intros k' e' H'. apply (Hl k'). by apply elem_of_map_to_list.
  - destruct Hall as [_ Hnil]. by apply map_to_list_empty_iff.
Qed.

Lemma evict_oldest_spec fuel m : (size m ≤ fuel + 100)%nat →
  Z.of_nat (size (evict_oldest fuel m)) ≤ maxDuplicateEntriesPerClient ∧
  evict_oldest fuel m ⊆ m.
Proof.
  unfold maxDuplicateEntriesPerClient.
  revert m. induction fuel as [|fuel IH]; intros m Hsz; cbn [evict_oldest]; [split; [lia|done]|].
  unfold maxDuplicateEntriesPerClient. branch; [|split; [lia|done]].
  pose proof (oldest_spec m) as Ho. destruct (oldest m) as [[k t]|].
  - destruct Ho as (e & He & _ & _).
    assert (size m = S (size (delete k m))) as Hd.
    { rewrite <- (insert_delete_id m k e He) at 1.
      apply map_size_insert_None, lookup_delete_eq. }
    destruct (IH (delete k m)) as [? Hsub]; [lia|]. split; [done|].
    etrans; [done|apply delete_subseteq].
  - subst m. rewrite map_size_empty in *. lia.
Qed.

Lemma cleanup_client_bounded now m :
  Z.of_nat (size (cleanup_client now m)) ≤ maxDuplicateEntriesPerClient.
Proof. unfold cleanup_client. apply evict_oldest_spec. lia. Qed.

(** A cached result after encoding and decoding. *)
Lemma restored_lookup now (dedup : gmap Z (gmap Z DuplicateEntry)) (c q : Z) :
  (m ← ((λ m : gmap Z snapshotEntry, restore_entry <$> m) <$> snapshot_dedup now dedup) !! c; m !! q)
  = restore_entry <$> (m ← dedup !! c; snapshot_client now c m !! q).
Proof.
  rewrite lookup_fmap. unfold snapshot_dedup. rewrite map_lookup_imap.
  destruct (dedup !! c) as [m|]; cbn; [|done].
  destruct (decide (snapshot_client now c m = ∅)) as [He|He]; cbn.
  - by rewrite He, lookup_empty.
  - by rewrite lookup_fmap.
Qed.

Section kv_facts.
Context {P : Type} `{PL : PersisterLaws P}.
Context (pick : gmap Z Result → Z).
Implicit Types (s : Server) (r : Raft P).

Lemma evict_recent_small fuel cap m : Z.of_nat (size m) ≤ cap →
  evict_recent pick fuel cap m = m.
Proof. intros ?. destruct fuel; cbn; [done|]. branch; [lia|done]. Qed.

Lemma evict_recent_bounded fuel cap m : (∀ m, m ≠ ∅ → pick m ∈ dom m) → 0 ≤ cap →
  Z.of_nat (size m) ≤ Z.of_nat fuel + cap →
  Z.of_nat (size (evict_recent pick fuel cap m)) ≤ cap.
Proof.
  intros Hpick Hcap. revert m. induction fuel as [|fuel IH]; intros m Hsz; cbn; [lia|].
  branch; [|lia]. apply IH.
  assert (m ≠ ∅) as Hne by (intros ->; rewrite map_size_empty in *; lia).
  apply Hpick, elem_of_dom in Hne as [x Hx].
  assert (size m = S (size (delete (pick m) m))) as Hd; [|lia].
  rewrite <- (insert_delete_id m (pick m) x Hx) at 1.
  apply map_size_insert_None, lookup_delete_eq.
Qed.

(** What [notifyWaiter] and [takeSnapshot] leave alone. *)
Lemma try_send_frame ch res s :
  kvState (try_send ch res s) = kvState s ∧ duplicates (try_send ch res s) = duplicates s ∧
  pendingOps (try_send ch res s) = pendingOps s ∧ recent (try_send ch res s) = recent s ∧
  maxPending (try_send ch res s) = maxPending s ∧
  kvLastApplied (try_send ch res s) = kvLastApplied s ∧ dead (try_send ch res s) = dead s.
Proof. unfold try_send. destruct (chans s !! ch) as [[|]|]; done. Qed.

Lemma notifyWaiter_frame idx res s :
  kvState (notifyWaiter pick idx res s) = kvState s ∧
  duplicates (notifyWaiter pick idx res s) = duplicates s ∧
  maxPending (notifyWaiter pick idx res s) = maxPending s ∧
  kvLastApplied (notifyWaiter pick idx res s) = kvLastApplied s.
Proof.
  unfold notifyWaiter. destruct (pendingOps s !! idx) as [p|]; [|done].
  match goal with |- context [try_send ?c ?x ?y] =>
    destruct (try_send_frame c x y) as (-> & -> & _ & _ & -> & -> & _) end. done.
Qed.

Lemma takeSnapshot_frame now s r :
  let s' := fst (takeSnapshot now s r) in
  kvState s' = kvState s ∧ duplicates s' = duplicates s ∧ maxPending s' = maxPending s ∧
  pendingOps s' = pendingOps s ∧ recent s' = recent s.
Proof.
  cbv zeta. unfold takeSnapshot. branch; [done|]. branch; [done|].
  destruct (serializeSnapshot _ _ _) as [d|]; [|done].
  by destruct (Snapshot _ _ _) as [r' [e|]].
Qed.

Lemma getDuplicateLocked_frame now c q s :
  kvState (fst (getDuplicateLocked now c q s)) = kvState s ∧
  maxPending (fst (getDuplicateLocked now c q s)) = maxPending s ∧
  (dedup_bounded s → dedup_bounded (fst (getDuplicateLocked now c q s))).
Proof.
  unfold getDuplicateLocked. destruct (duplicates s !! c) as [m|] eqn:Hm; [|done].
  destruct (m !! q); [|done]. branch; [|done]. cbn. split_and!; auto.
  intros Hb. apply map_Forall_insert_2; [|done].
  specialize (Hb c m Hm). pose proof (map_subseteq_size _ _ (delete_subseteq m q)). cbn in *. lia.
Qed.

Lemma apply_section_spec now idx op s :
  let '(s', res) := apply_section now idx op s in
  kvState s' = fst (exec op (kvState s)) ∧ res = snd (exec op (kvState s)) ∧
  kvLastApplied s' = idx ∧ maxPending s' = maxPending s ∧
  duplicates s' = <[oClientId op := cleanup_client now
    (<[oSequenceId op := mkDuplicateEntry res now]> (default ∅ (duplicates s !! oClientId op)))]>
    (duplicates s).
Proof.
  unfold apply_section. rewrite applyCommandLocked_exec.
  unfold saveDuplicateLocked, cleanupDuplicateCacheLocked. cbn.
  rewrite lookup_insert_eq. cbn. rewrite insert_insert_eq. done.
Qed.

Lemma apply_section_quiet now idx op s :
  let s' := fst (apply_section now idx op s) in
  recent s' = recent s ∧ chans s' = chans s ∧ nextCh s' = nextCh s ∧ pendingOps s' = pendingOps s.
Proof.
  unfold apply_section. rewrite applyCommandLocked_exec.
  unfold saveDuplicateLocked, cleanupDuplicateCacheLocked. cbn. by rewrite lookup_insert_eq.
Qed.

(** The stash of results without a waiter holds at most [maxPending]. *)
Definition recent_bounded s : Prop :=
  0 ≤ maxPending s ∧ Z.of_nat (size (recent s)) ≤ maxPending s.

Lemma notifyWaiter_recent idx res s : (∀ m, m ≠ ∅ → pick m ∈ dom m) →
  recent_bounded s → recent_bounded (notifyWaiter pick idx res s).
Proof.
  intros Hpick [Hm Hs]. unfold notifyWaiter, recent_bounded.
  destruct (pendingOps s !! idx) as [p|].
  - match goal with |- context [try_send ?c ?x ?y] =>
      destruct (try_send_frame c x y) as (_ & _ & _ & -> & -> & _) end. done.
  - cbn. split; [done|]. apply evict_recent_bounded; auto. lia.
Qed.

Lemma getDuplicateLocked_recent now c q s :
  recent (fst (getDuplicateLocked now c q s)) = recent s.
Proof.
  unfold getDuplicateLocked. destruct (duplicates s !! c) as [m|]; [|done].
  destruct (m !! q); [|done]. by branch.
Qed.

Lemma apply_section_recent now idx op s :
  recent (fst (apply_section now idx op s)) = recent s.
Proof.
  unfold apply_section. rewrite applyCommandLocked_exec.
  unfold saveDuplicateLocked, cleanupDuplicateCacheLocked. cbn. by rewrite lookup_insert_eq.
Qed.

(** ** The map *)

(** The operation a message carries, if any. *)
Definition msg_op (msg : ApplyMsg) : option Op :=
  if CommandValid msg then
    match deserializeCommand (amCommand msg) with inl op => Some op | inr _ => None end
  else None.

(** The messages of the apply channel, each with the clock when it is
    processed. *)
Fixpoint process_all (msgs : list (Z * Z * ApplyMsg)) s r : Server * Raft P :=
  match msgs with
  | [] => (s, r)
  | (now, now', msg) :: msgs =>
      let '(s, r) := processApplyMsg pick now now' msg s r in process_all msgs s r
  end.

Lemma processApplyMsg_state now now' msg s r :
  SnapshotValid msg = false → (∀ op, msg_op msg = Some op → no_dedup op) →
  kvState (fst (processApplyMsg pick now now' msg s r)) =
    match msg_op msg with Some op => fst (exec op (kvState s)) | None => kvState s end.
Proof.
  intros Hs Hn. unfold processApplyMsg, processApplyMsg_begin, msg_op in *. rewrite Hs.
  destruct (CommandValid msg); cbn; [|done].
  destruct (deserializeCommand (amCommand msg)) as [op|e]; [|by apply notifyWaiter_frame].
  assert ((negb (oClientId op =? 0) && negb (oSequenceId op =? 0))%bool = false) as ->.
  { destruct (Hn op eq_refl) as [-> | ->]; [done|]. apply andb_false_r. }
  pose proof (apply_section_spec now (CommandIndex msg) op s) as Ha.
  destruct (apply_section _ _ _ _) as [s1 res]. destruct Ha as (Hst & _).
  rewrite (proj1 (takeSnapshot_frame _ _ _)), (proj1 (notifyWaiter_frame _ _ _)). done.
Qed.

Lemma processApplyMsg_bounded now now' msg s r :
  SnapshotValid msg = false → dedup_bounded s →
  dedup_bounded (fst (processApplyMsg pick now now' msg s r)).
Proof.
  intros Hs Hb. unfold processApplyMsg, processApplyMsg_begin. rewrite Hs. destruct (CommandValid msg); cbn; [|done].
  assert (∀ i x y, dedup_bounded y → dedup_bounded (notifyWaiter pick i x y)) as Hnw.
  { intros i x y Hy. unfold dedup_bounded.
    by rewrite (proj1 (proj2 (notifyWaiter_frame i x y))). }
  destruct (deserializeCommand (amCommand msg)) as [op|e]; [|by apply Hnw].
  set (gd := if (_ && _)%bool then _ else _).
  assert (dedup_bounded (fst gd)) as Hg
    by (subst gd; destruct (_ && _)%bool; [by apply getDuplicateLocked_frame|done]).
  destruct gd as [s0 [dup|]]; cbn in Hg; [by apply Hnw|].
  pose proof (apply_section_spec now (CommandIndex msg) op s0) as Ha.
  destruct (apply_section _ _ _ _) as [s1 res]. destruct Ha as (_ & _ & _ & _ & Hd).
  unfold dedup_bounded. rewrite (proj1 (proj2 (takeSnapshot_frame _ _ _))).
  apply Hnw. unfold dedup_bounded. rewrite Hd.
  apply map_Forall_insert_2; [|done]. apply cleanup_client_bounded.
Qed.

Lemma processApplyMsg_recent now now' msg s r : (∀ m, m ≠ ∅ → pick m ∈ dom m) →
  recent_bounded s → recent_bounded (fst (processApplyMsg pick now now' msg s r)).
Proof.
  intros Hpick Hb. unfold processApplyMsg, processApplyMsg_begin. destruct (SnapshotValid msg); cbn.
  { unfold handleSnapshotMsg. destruct (deserializeSnapshot _) as [[st d]|]; [|done].
    destruct Hb. unfold recent_bounded. cbn. rewrite map_size_empty. lia. }
  destruct (CommandValid msg); cbn; [|done].
  destruct (deserializeCommand (amCommand msg)) as [op|e]; [|by apply notifyWaiter_recent].
  set (gd := if (_ && _)%bool then _ else _).
  assert (recent_bounded (fst gd)) as Hg.
  { subst gd. destruct (_ && _)%bool; [|done].
    pose proof (getDuplicateLocked_frame now (oClientId op) (oSequenceId op) s) as (_ & Hm & _).
    pose proof (getDuplicateLocked_recent now (oClientId op) (oSequenceId op) s) as Hr.
    unfold recent_bounded. by rewrite Hm, Hr. }
  destruct gd as [s0 [dup|]]; cbn in Hg; [by apply notifyWaiter_recent|].
  pose proof (apply_section_spec now (CommandIndex msg) op s0) as Ha.
  pose proof (apply_section_recent now (CommandIndex msg) op s0) as Hr.
  destruct (apply_section _ _ _ _) as [s1 res]. destruct Ha as (_ & _ & _ & Hm & _).
  cbn [fst] in Hr.
  assert (recent_bounded s1) as Hs1 by (unfold recent_bounded; by rewrite Hm, Hr).
  apply (notifyWaiter_recent (CommandIndex msg) res) in Hs1; [|done].
  destruct (takeSnapshot_frame now' (notifyWaiter pick (CommandIndex msg) res s1) r)
    as (_ & _ & Hmt & _ & Hrt).
  unfold recent_bounded in *. by rewrite Hmt, Hrt.
Qed.

Lemma process_all_state (msgs : list (Z * Z * ApplyMsg)) s r :
  Forall (λ m, SnapshotValid m.2 = false ∧ ∀ op, msg_op m.2 = Some op → no_dedup op) msgs →
  kvState (fst (process_all msgs s r)) = exec_all (omap msg_op msgs.*2) (kvState s).
Proof.
  intros HF. revert s r. induction HF as [|[[now now'] msg] msgs [Hs Hn] _ IH]; intros s r; [done|].
  cbn [process_all]. pose proof (processApplyMsg_state now now' msg s r Hs Hn) as Hst.
  destruct (processApplyMsg pick now now' msg s r) as [s1 r1]. rewrite IH. cbn in Hst |- *.
  rewrite Hst. by destruct (msg_op msg).
Qed.

End kv_facts.

(** The fields of a message fit their types. *)
Lemma toProto_typed op : in_int (oClientId op) → in_int (oSequenceId op) → Command_typed (toProto op) = true.
Proof.
  intros Hc Hq. pose proof (Z.mod_pos_bound (oType op + 2 ^ 31) (2 ^ 32) ltac:(lia)) as Ho. unfold Command_typed, in_range, toProto. cbn.
  unfold i32, in_int, min_int, max_int, min_int32, max_int32 in *.
  rewrite !(proj2 (Z.leb_le _ _)) by lia. done.
Qed.

(** What comes out of the log for an operation. *)
Lemma serializeCommand_read op : in_int (oClientId op) → in_int (oSequenceId op) →
  ∃ data, serializeCommand op = inl data ∧
    deserializeCommand data =
      inl (mkOp (i32 (oType op)) (ToValidUTF8 (oKey op)) (ToValidUTF8 (oValue op))
             (oClientId op) (oSequenceId op)).
Proof.
  intros Hc Hq. unfold serializeCommand. destruct (Marshal (toProto op)) as [data|e] eqn:Hm.
  - exists data. unfold deserializeCommand. by rewrite (Command_read _ _ Hm).
  - exfalso. revert Hm. cbn [Marshal Command_json]. rewrite toProto_typed by done. done.
Qed.

(** ** Properties of the state machine *)

Section kv_properties.
Context {P : Type} `{PL : PersisterLaws P}.
Context (pick : gmap Z Result → Z).
Implicit Types (s : Server) (r : Raft P).

(** C12: Whatever the clocks, the waiting handlers and the state of the Raft
    node are, a server that works through a sequence of committed commands
    without duplicate detection (as the RPC handlers submit them) has exactly
    the map that executing the commands in log order gives; in particular two
    replicas that have applied the same commands have the same map. *)
Theorem apply_refines_map (msgs : list (Z * Z * ApplyMsg)) s r :
  Forall (λ m, SnapshotValid m.2 = false ∧ ∀ op, msg_op m.2 = Some op → no_dedup op) msgs →
  kvState (fst (process_all pick msgs s r)) = exec_all (omap msg_op msgs.*2) (kvState s).
Proof. apply process_all_state. Qed.

(** C27: The tables stay bounded: no sequence of committed commands makes the
    server keep more than [maxDuplicateEntriesPerClient] results of one client,
    or more than [maxPending] results that nobody has asked for yet. *)
Theorem tables_bounded (msgs : list (Z * Z * ApplyMsg)) s r :
  (∀ m, m ≠ ∅ → pick m ∈ dom m) →
  Forall (λ m, SnapshotValid m.2 = false) msgs → dedup_bounded s → recent_bounded s →
  dedup_bounded (fst (process_all pick msgs s r)) ∧
  recent_bounded (fst (process_all pick msgs s r)).
Proof.
  intros Hpick HF. revert s r.
  induction HF as [|[[now now'] msg] msgs Hs _ IH]; intros s r Hb Hr; [done|].
  cbn [process_all]. pose proof (processApplyMsg_bounded pick now now' msg s r Hs Hb) as Hb1.
  pose proof (processApplyMsg_recent pick now now' msg s r Hpick Hr) as Hr1.
  destruct (processApplyMsg pick now now' msg s r) as [s1 r1]. by apply IH.
Qed.

(** C24: What a handler puts into the log is what every server takes out of
    it: each operation has an encoding, and the encoding decodes to the same
    kind, client and sequence number and to the same key and value, except that
    bytes which are not UTF-8 come back as U+FFFD.  An operation with UTF-8
    strings, as gRPC delivers them, comes back unchanged. *)
Theorem command_roundtrip (op : Op) :
  in_int (oClientId op) → in_int (oSequenceId op) →
  ∃ data, serializeCommand op = inl data ∧
    deserializeCommand data =
      inl (mkOp (i32 (oType op)) (ToValidUTF8 (oKey op)) (ToValidUTF8 (oValue op))
             (oClientId op) (oSequenceId op)) ∧
    (valid_string (oKey op) → valid_string (oValue op) → i32 (oType op) = oType op →
     deserializeCommand data = inl op).
Proof.
  intros Hc Hq. destruct (serializeCommand_read op Hc Hq) as (data & Hs & Hd).
  exists data. split_and!; [done..|]. intros Hk Hv Ht. rewrite Hd, !ToValidUTF8_id, Ht by done. by destruct op.
Qed.

(** When the restored state is that of a snapshot, the map is the one that
    was saved and the cache holds exactly the live entries: those that have not
    expired and are not the (0, 0) entry, with their value and time; of the
    errors only key-not-found survives. *)
Theorem snapshot_roundtrip
    (now : Z) (st : gmap string string) (dedup : gmap Z (gmap Z DuplicateEntry)) (data : bytes) :
  valid_payload (mkSnapshotPayload st (snapshot_dedup now dedup)) →
  serializeSnapshot now st dedup = inl data →
  ∃ dedup', deserializeSnapshot data = inl (st, dedup') ∧
    ∀ c q e', (m ← dedup' !! c; m !! q) = Some e' ↔
      ∃ e, (m ← dedup !! c; m !! q) = Some e ∧ ¬ (c = 0 ∧ q = 0) ∧
        Since now (dTimestamp e) ≤ duplicateCacheExpiry ∧
        e' = mkDuplicateEntry (mkResult (rValue (dResult e))
               (sentinelErr (errString (rErr (dResult e))))) (dTimestamp e).
Proof.
  intros Hv Hs. unfold serializeSnapshot in Hs.
  destruct (Marshal _) as [d|] eqn:Hm; [|done]. injection Hs as ->.
  unfold deserializeSnapshot. rewrite (json_roundtrip _ _ Hv Hm). cbn [spState spDedup].
  eexists. split; [done|]. intros c q e'. rewrite restored_lookup.
  destruct (dedup !! c) as [m|]; cbn; [|split; [done|by intros (? & ? & _)]].
  unfold snapshot_client. rewrite map_lookup_imap.
  destruct (m !! q) as [e|]; cbn; [|split; [done|by intros (? & ? & _)]].
  destruct ((c =? 0) && (q =? 0))%bool eqn:Hz; cbn.
  { bool_props. split; [done|]. by intros (? & _ & [] & _). }
  assert (¬ (c = 0 ∧ q = 0)) as Hnz by (intros [-> ->]; done).
  destruct (Z.ltb_spec duplicateCacheExpiry (Since now (dTimestamp e))); cbn.
  - split; [done|]. intros (? & [= <-] & _ & ? & _). lia.
  - split; [intros [= <-]; eauto|]. intros (? & [= <-] & _ & _ & ->). done.
Qed.

(** Calls whose result arrived before they registered, one after the other. *)
Fixpoint early_results (idxs : list Z) (op : Op) (res : Result) s : Server :=
  match idxs with
  | [] => s
  | idx :: idxs =>
      early_results idxs op res
        (fst (submitOperation_register idx op (notifyWaiter pick idx res s)))
  end.

Lemma early_result_step idx op res s : dead s = false → pendingOps s !! idx = None →
  recent s = ∅ → Z.of_nat (size (pendingOps s)) < maxPending s →
  let '(s1, a) := submitOperation_register idx op (notifyWaiter pick idx res s) in
  a = RegisterReturn res None ∧ dead s1 = false ∧ recent s1 = ∅ ∧ maxPending s1 = maxPending s ∧
  pendingOps s1 = <[idx := mkPendingOp idx op (nextCh s)]> (pendingOps s).
Proof.
  intros Hd Hp Hr Hsz. unfold notifyWaiter. rewrite Hp, Hr.
  rewrite (evict_recent_small pick) by (rewrite insert_empty, map_size_singleton; lia).
  unfold submitOperation_register. cbn. rewrite Hd. rewrite (proj2 (Z.leb_gt _ _)) by lia.
  rewrite lookup_insert_eq. cbn. by rewrite delete_insert_id.
Qed.

(** C39: Early results exhaust the server.  A handler that finds its result already
    there returns it and leaves its entry in [pendingOps].  Take a server without
    waiting handlers or stashed results, and [maxPending] commands with distinct
    indices, each of which has its result before its handler registers, one after
    the other.  Afterwards every handler that registers, for whatever index, is
    answered with [ErrTooManyPending], though nobody waits. *)
Theorem early_results_exhaust_server (idxs : list Z) op res s :
  NoDup idxs → dead s = false → pendingOps s = ∅ → recent s = ∅ → 0 < maxPending s →
  len idxs = maxPending s →
  ∀ idx op', snd (submitOperation_register idx op' (early_results idxs op res s)) =
    RegisterReturn (mkResult "" None) (Some KErrTooManyPending).
Proof.
  intros Hnd Hd Hp Hr Hpos Hlen idx op'.
  assert (∀ idxs s, NoDup idxs → dead s = false → recent s = ∅ →
    (∀ i, i ∈ idxs → pendingOps s !! i = None) →
    Z.of_nat (size (pendingOps s)) + len idxs = maxPending s →
    let s' := early_results idxs op res s in
    dead s' = false ∧ Z.of_nat (size (pendingOps s')) = maxPending s') as Hind.
  { clear. intros idxs. induction idxs as [|i idxs IH]; intros s Hnd Hd Hr Hfree Hlen; cbn.
    - unfold len in Hlen. simpl in Hlen. split; [done|lia].
    - apply NoDup_cons in Hnd as [Hi Hnd]. rewrite len_cons in Hlen.
      pose proof (len_nonneg idxs).
      assert (pendingOps s !! i = None) as Hpi by (apply Hfree, elem_of_cons; by left).
      pose proof (early_result_step i op res s Hd Hpi Hr ltac:(lia)) as Hst.
      destruct (submitOperation_register i op (notifyWaiter pick i res s)) as [s1 a].
      destruct Hst as (_ & Hd1 & Hr1 & Hm1 & Hp1). cbn [fst]. apply IH; auto.
      + intros j Hj. rewrite Hp1, lookup_insert_ne by (intros ->; done).
        apply Hfree, elem_of_cons. by right.
      + rewrite Hp1, map_size_insert_None by done. rewrite Hm1. lia. }
  destruct (Hind idxs s) as [Hd' Hsz']; auto.
  - intros i _. by rewrite Hp, lookup_empty.
  - rewrite Hp, map_size_empty. lia.
  - cbv zeta in Hd', Hsz'. unfold submitOperation_register. cbn. rewrite Hd'.
    rewrite (proj2 (Z.leb_le _ _)) by lia. done.
Qed.
End kv_properties.

(** ** The state machine and its Raft node *)

Section kv_raft.
Context {P : Type} `{PL : PersisterLaws P}.
Context (pick : gmap Z Result → Z).
Implicit Types (s : Server) (r : Raft P).

(** C23: When the server has compacted, the log starts at the index it had
    applied, and the snapshot on disk, delivered to any server (the node itself
    after a restart, or a follower), gives that server the map of the time of
    the snapshot and its position. *)
Theorem snapshot_restores_map now s r s' r' :
  wf r → logBase r < kvLastApplied s < 2 ^ 62 →
  (∀ e, entry_at r (kvLastApplied s) = Some e → in_int (eTerm e)) →
  valid_payload (mkSnapshotPayload (kvState s) (snapshot_dedup now (duplicates s))) →
  takeSnapshot now s r = (s', r') → lastSnapshotIndex s' ≠ lastSnapshotIndex s →
  lastSnapshotIndex s' = kvLastApplied s ∧ logBase r' = kvLastApplied s ∧
  kvState s' = kvState s ∧
  ∃ data t, LoadSnapshot (persister r') = inl (data, kvLastApplied s, t) ∧
    ∀ s0, let s1 := handleSnapshotMsg (snapshot_msg data (kvLastApplied s) t) s0 in
      kvState s1 = kvState s ∧ kvLastApplied s1 = kvLastApplied s.
Proof.
  intros Hwf Hidx Hte Hv Ht Hne. unfold takeSnapshot in Ht. revert Ht.
  branch; [by intros [= <- <-]|]. branch; [by intros [= <- <-]|].
  destruct (serializeSnapshot now (kvState s) (duplicates s)) as [data|] eqn:Hs;
    [|by intros [= <- <-]].
  destruct (Snapshot (kvLastApplied s) data r) as [r1 [e|]] eqn:HS; intros [= <- <-]; [done|].
  destruct (Snapshot_done (kvLastApplied s) data r r1) as (_ & Hb & _ & _ & _ & _ & HL & _);
    auto; [lia|lia|].
  cbn. split_and!; auto. exists data, (snapshotTerm r1). split; [done|].
  intros s0. unfold handleSnapshotMsg. cbn [SnapshotData snapshot_msg].
  unfold serializeSnapshot in Hs. destruct (Marshal _) as [d|] eqn:Hm; [|done].
  injection Hs as ->. unfold deserializeSnapshot. by rewrite (json_roundtrip _ _ Hv Hm).
Qed.

(** A node restarted without a snapshot delivers none of its log to its
    state machine: the map of the new process is empty whatever the log
    holds, and stays so until new commands are committed. *)
Theorem restart_without_snapshot_replays_nothing (cfg : Config P) (p p1 : P) (t v : Z)
    (l : list LogEntry) (e : error) (fuel : nat) maxp :
  validate (cfg <| cfgPersister := Some p1 |>) = None →
  Save t v l p = (p1, None) → LoadSnapshot p = inr e →
  contiguous 0 l → len l < 2 ^ 62 → (0 < fuel)%nat →
  ∃ r, NewRaft (cfg <| cfgPersister := Some p1 |>) = Ret r ∧ log r = l ∧
    let r' := fst (applyLoop_wake fuel r) in
    snd (applyLoop_wake fuel r) = ApplyDone ∧ applyCh r' = [] ∧
    kvState (fst (process_all pick ((λ m, (0, 0, m)) <$> applyCh r') (NewServer maxp) r')) = ∅.
Proof.
  intros Hv Hs Hns Hc Hb Hf.
  destruct (NewRaft_Load _ p1 Hv eq_refl) as (r0 & Hr & Hp & Hlb & Hci & Hla & Hsi & Hch & _).
  pose proof (loadPersistedState_plain r0 t v l e) as HR. rewrite Hp, Hch in HR.
  assert (LoadSnapshot p1 = inr e) as HLS by (by rewrite (save_keeps_snapshot _ _ _ _ _ _ Hs)).
  destruct (loadPersistedState r0) as [r' err]. cbn [fst] in *.
  destruct HR as (_ & _ & _ & Hl & _ & Ha & Hcm & Hch'); auto; [by eapply save_load|].
  exists r'. split; [done|]. split; [done|]. destruct fuel as [|fuel]; [lia|].
  assert (applyLoop_wake (S fuel) r' = (r' <| commitCh := false |>, ApplyDone)) as ->.
  { unfold applyLoop_wake. cbn [applyPendingEntries]. unfold apply_take. cbn.
    rewrite Ha, Hcm, (proj2 (Z.leb_le _ _)) by lia. done. }
  cbn. rewrite Hch'. done.
Qed.
End kv_raft.

(** ** Witnesses *)

Module KvWitness.
Import MemoryPersister.

(** The first key of a map. *)
Definition first (m : gmap Z Result) : Z :=
  match map_to_list m with (k, _) :: _ => k | [] => 0 end.

Lemma first_in m : m ≠ ∅ → first m ∈ dom m.
Proof.
  intros Hm. unfold first. destruct (map_to_list m) as [|[k x] l] eqn:Hl.
  - by apply map_to_list_empty_iff in Hl.
  - apply elem_of_dom. exists x. apply elem_of_map_to_list. rewrite Hl. apply elem_of_cons. by left.
Qed.

(** A committed command. *)
Definition command (op : Op) (idx : Z) : ApplyMsg :=
  command_msg (match serializeCommand op with inl d => d | inr _ => [] end) idx.

Definition put (k v : string) : Op := mkOp OpPut k v 0 0.
Definition append (k v : string) (c q : Z) : Op := mkOp OpAppend k v c q.
End KvWitness.

(** Duplicate detection reads the local clock, so it is not a function of
    the log: two replicas that apply the same two copies of an append, one of
    them within the ten seconds of the cache and the other later, end with
    different maps. *)
Theorem clocks_split_replicas :
  let msgs now2 :=
    [(1, 1, KvWitness.command (KvWitness.append "x" "a" 7 1) 1);
     (now2, now2, KvWitness.command (KvWitness.append "x" "a" 7 1) 2)] in
  let replica now2 :=
    kvState (fst (process_all KvWitness.first (msgs now2) (NewServer 10) NodeWitness.node)) in
  replica 2 = {["x" := "a"]} ∧ replica 20000000000 = {["x" := "aa"]}.
Proof. vm_compute. split; reflexivity. Qed.

Lemma apply_refines_map_witness :
  kvState (fst (process_all KvWitness.first
    [(1, 1, KvWitness.command (KvWitness.put "x" "a") 1);
     (2, 2, KvWitness.command (KvWitness.append "x" "b" 0 0) 2)] (NewServer 10) NodeWitness.node))
  = exec_all [KvWitness.put "x" "a"; KvWitness.append "x" "b" 0 0] ∅.
Proof.
  rewrite (apply_refines_map KvWitness.first).
  - vm_compute. reflexivity.
  - repeat (apply Forall_cons; split;
      [split; [reflexivity|]; intros op Hop; vm_compute in Hop; injection Hop as <-; left; reflexivity|]).
    apply Forall_nil_2.
Defined.

Lemma tables_bounded_witness :
  dedup_bounded (fst (process_all KvWitness.first
    [(1, 1, KvWitness.command (KvWitness.append "x" "a" 7 1) 1)] (NewServer 10) NodeWitness.node)).
Proof.
  apply (tables_bounded KvWitness.first); [exact KvWitness.first_in|repeat constructor|..].
  - apply map_Forall_empty.
  - split; vm_compute; congruence.
Defined.

Lemma command_roundtrip_witness :
  let op := mkOp OpPut "k" "v" 7 1 in
  match serializeCommand op with inl data => deserializeCommand data = inl op | inr _ => False end.
Proof.
  intros op. destruct (command_roundtrip op) as (data & Hs & _ & Hd);
    [vm_compute; intuition congruence..|].
  rewrite Hs. apply Hd; vm_compute; reflexivity.
Defined.

Lemma snapshot_roundtrip_witness :
  let dedup := {[7 := {[1 := mkDuplicateEntry (mkResult "" (Some KErrKeyNotFound)) 3]}]} in
  ∃ dedup', match serializeSnapshot 5 {["x" := "a"]} dedup with
    | inl data => deserializeSnapshot data = inl ({["x" := "a"]}, dedup')
    | inr _ => False end.
Proof.
  intros dedup.
  destruct (serializeSnapshot 5 {["x" := "a"]} dedup) as [data|] eqn:E;
    [|vm_compute in E; discriminate].
  destruct (snapshot_roundtrip 5 {["x" := "a"]} dedup data) as (d & Hd & _);
    [apply payload_utf8_spec; vm_compute; reflexivity|exact E|].
  exists d. exact Hd.
Defined.

Lemma early_results_exhaust_server_witness :
  snd (submitOperation_register 3 (KvWitness.put "x" "a")
    (early_results KvWitness.first [1; 2] (KvWitness.put "x" "a") (mkResult "" None) (NewServer 2)))
  = RegisterReturn (mkResult "" None) (Some KErrTooManyPending).
Proof.
  apply (early_results_exhaust_server KvWitness.first); try (vm_compute; reflexivity).
  apply (bool_decide_eq_true_1 _). vm_compute. reflexivity.
Defined.

Lemma snapshot_restores_map_witness :
  let s := (NewServer 10) <| kvState := {["x" := "a"]} |> <| kvLastApplied := 3 |> in
  let r := (NodeWitness.leader [NodeWitness.entry 3 1; NodeWitness.entry 4 2] 2 3 4)
             <| snapshotThreshold := 3 |> in
  logBase (snd (takeSnapshot 5 s r)) = 3 ∧ lastSnapshotIndex (fst (takeSnapshot 5 s r)) = 3.
Proof.
  intros s r. destruct (takeSnapshot 5 s r) as [s' r'] eqn:E.
  destruct (snapshot_restores_map 5 s r s' r') as (Hl & Hb & _).
  - split; [apply NodeWitness.node_contiguous; reflexivity|..]; vm_compute; congruence.
  - vm_compute. intuition congruence.
  - intros e He. vm_compute in He. injection He as <-. vm_compute. intuition congruence.
  - apply payload_utf8_spec. vm_compute. reflexivity.
  - exact E.
  - vm_compute in E. injection E as <- <-. discriminate.
  - split; [exact Hb|exact Hl].
Defined.

Lemma restart_without_snapshot_replays_nothing_witness :
  ∃ r, NewRaft (NodeWitness.cfg <| cfgPersister :=
         Some (NodeWitness.saved 2 1 [NodeWitness.entry 1 2]) |>) = Ret r ∧
    log r = [NodeWitness.entry 1 2] ∧ applyCh (fst (applyLoop_wake 5 r)) = [].
Proof.
  destruct (restart_without_snapshot_replays_nothing KvWitness.first NodeWitness.cfg
    MemoryPersister.NewMemoryPersister (NodeWitness.saved 2 1 [NodeWitness.entry 1 2])
    2 1 [NodeWitness.entry 1 2] ErrNoSnapshot 5 10) as (r & Hr & Hl & _ & Hch & _);
    [reflexivity|reflexivity|reflexivity| |vm_compute; reflexivity|lia|].
  - apply NodeWitness.node_contiguous. reflexivity.
  - exists r. split; [exact Hr|]. split; [exact Hl|exact Hch].
Defined.
