(* ===== verification/Dedup.v ===== *)
(** * A retry executes once

    How long the duplicate cache of [kv/apply.go] remembers a command: ten
    seconds, as long as fewer than a hundred commands of the same client are as
    new, whatever else the server executes in between. *)

From S2P Require Import Prelude Types Persister Node Kv KvFacts.
#[local] Open Scope Z_scope.






Section retries.
Context {P : Type} `{PL : PersisterLaws P}.
Context (pick : gmap Z Result → Z).
Implicit Types (s : Server) (r : Raft P).











End retries.

(** ** Witness *)

