(* ===== verification/Waiters.v ===== *)
(** * The result of a command finds its handler

    [notifyWaiter] of [kv/apply.go] and the second half of [submitOperation] of
    [kv/server.go] meet in the tables [pendingOps] and [recent]: the apply loop
    may have the result before the handler has registered, or after.  The other
    handlers, and the apply loop for other commands, use the same tables at the
    same time; each use is one turn under the lock.  (Receiving from its own
    channel, a handler touches neither table.) *)

From S2P Require Import Prelude Types Persister Node Kv KvFacts.
#[local] Open Scope Z_scope.





Section waiters.
Context (pick : gmap Z Result → Z).
Implicit Types s : Server.












End waiters.

(** ** Witness *)

