(* ===== verification/System.v ===== *)
(** * The whole system

    The key-value servers on top of the cluster: every node has a server, the
    commands come from the RPC handlers, the messages of the apply channel go to
    [processApplyMsg], and compaction happens when a server decides to take a
    snapshot.

    - [SRaft]: an event of [Cluster] that belongs to Raft alone.  A process that
      ends takes its server with it, one that starts gets a new one.
    - [SCall]: the handler of [Get], [Put] or [Append] up to the point where the
      command is in the log.  Whether it leads is asked once here: a leadership
      lost between the question and [ReplicateCommand] makes the latter return
      [ErrNotLeader], and nothing is appended.
    - [SRegister], [SWait]: the handler waits for its result.
    - [SReceive], [SSnapshot]: the server's apply loop takes a message and
      executes it; then, if it gets there, it calls [takeSnapshot].  In between
      the node may do anything.

    [Kill] is not an event: a process that shuts down is a crash here. *)

From S2P Require Import Prelude Types Text Json KvCodec Persister Node Election Replication Snapshot Cluster.
From S2P Require Import ElectionSafety Protocol LogFrames ClusterRefinement ClusterSafety NodeInvariant.
From S2P Require Import Turns Delivery Provenance Kv KvFacts.

(** A server, and whether its apply loop is about to call [takeSnapshot]. *)
Record Host : Type := mkHost { server : Server; snapshotting : bool }.

Record System {P : Type} : Type := mkSystem { world : World P; hosts : gmap Z Host }.
Arguments System : clear implicits.
Arguments mkSystem {P}.

(** A request of a client. *)
Inductive kv_call : Type :=
  | CGet (key : string)
  | CPut (key value : string)
  | CAppend (key value : string).

Inductive sys_event : Type :=
  | SRaft (e : event)
  | SCall (n now : Z) (q : kv_call)
  | SRegister (n idx : Z) (op : Op)
  | SWait (n idx : Z) (ch : nat) (ev : submit_event)
  | SReceive (n now : Z)
  | SSnapshot (n now : Z).

(** What the servers do themselves. *)
Definition by_server (e : event) : bool :=
  match e with Client _ _ | Consume _ | Compact _ _ _ => true | _ => false end.

Section system.
Context {P : Type} `{PP : Persister P}.
Context (pick : gmap Z Result → Z) (maxp : Z).
Implicit Types (y : System P) (w : World P) (r : Raft P) (s : Server).

(** The servers of the processes that run after event [e]. *)
Definition attend (e : event) w (hs : gmap Z Host) : gmap Z Host :=
  let hs := match e with Restart n _ => <[n := mkHost (NewServer maxp) false]> hs | _ => hs end in
  filter (λ h, is_Some (nodes w !! h.1)) hs.

Definition call_begin (q : kv_call) r : Op + Response :=
  match q with
  | CGet key => Get_begin key r
  | CPut key value => Put_begin key value r
  | CAppend key value => Append_begin key value r
  end.

Definition set_server (n : Z) s (f : bool) y : System P :=
  mkSystem (world y) (<[n := mkHost s f]> (hosts y)).

Definition sys_step (ev : sys_event) y : option (System P) :=
  match ev with
  | SRaft e =>
      if by_server e then None
      else w ← step e (world y); Some (mkSystem w (attend e w (hosts y)))
  | SCall n now q =>
      r ← nodes (world y) !! n; h ← hosts y !! n;
      match call_begin q r with
      | inr _ => Some y
      | inl op =>
          let '(s, a) := submitOperation_begin now op (server h) in
          let y := set_server n s (snapshotting h) y in
          match a with
          | SubmitReturn _ _ => Some y
          | SubmitReplicate data =>
              w ← step (Client n data) (world y); Some (mkSystem w (hosts y))
          end
      end
  | SRegister n idx op =>
      h ← hosts y !! n;
      Some (set_server n (fst (submitOperation_register idx op (server h))) (snapshotting h) y)
  | SWait n idx ch e =>
      h ← hosts y !! n; '(s, _) ← submitOperation_wait idx ch e (server h);
      Some (set_server n s (snapshotting h) y)
  | SReceive n now =>
      r ← nodes (world y) !! n; h ← hosts y !! n;
      if snapshotting h then None
      else
        msg ← head (applyCh r);
        w ← step (Consume n) (world y);
        let '(s, f) := processApplyMsg_begin pick now msg (server h) in
        Some (set_server n s f (mkSystem w (hosts y)))
  | SSnapshot n now =>
      r ← nodes (world y) !! n; h ← hosts y !! n;
      if snapshotting h then
        let '(s, r) := takeSnapshot now (server h) r in
        Some (set_server n s false (mkSystem (set_node n r (world y)) (hosts y)))
      else None
  end.

Fixpoint sys_run (es : list sys_event) y : option (System P) :=
  match es with
  | [] => Some y
  | e :: es => y ← sys_step e y; sys_run es y
  end.

Definition sys_boot (rnd : Z) (cfgs : gmap Z (Config P)) : System P :=
  let w := boot rnd cfgs in
  mkSystem w ((λ _, mkHost (NewServer maxp) false) <$> nodes w).
End system.

(** ** The side conditions *)

Section conditions.
Context {P : Type} `{PP : Persister P}.
Implicit Types (y : System P) (w : World P) (r : Raft P).

(** A snapshot is installed only while the apply loop has nothing in hand, and
    it reaches the channel. *)
Definition install_clean w (dst rnd : Z) (req : InstallSnapshotRequest) r : bool :=
  let '(r', res) := InstallSnapshot rnd req r in
  (lastApplied r' =? lastApplied r) ||
  (bool_decide (hands dst w = [[]]) && match res with Ret _ => true | _ => false end).

(** A node that restarts has a snapshot, or an empty log: without a snapshot the
    log is not delivered again. *)
Definition restart_clean r : bool := negb (logBase r =? 0) || bool_decide (log r = []).

Definition sys_steady_event y (ev : sys_event) : bool :=
  match ev with
  | SRaft e =>
      steady_event true true (world y) e &&
      match e with
      | Deliver i rnd =>
          match tasks (world y) !! i with
          | Some (TCall dst (QSnapshot req) _) =>
              match nodes (world y) !! dst with
              | Some r => install_clean (world y) dst rnd req r | None => true end
          | _ => true
          end
      | Restart n _ => match down (world y) !! n with Some r => restart_clean r | None => true end
      | _ => true
      end
  | SCall n _ _ =>
      match nodes (world y) !! n with Some r => last_index r + 1 <? 2 ^ 61 | None => true end
  | _ => true
  end.

Context (pick : gmap Z Result → Z) (maxp : Z).

Fixpoint sys_steady_run (es : list sys_event) y : bool :=
  match es with
  | [] => true
  | e :: es => sys_steady_event y e &&
      match sys_step pick maxp e y with Some y' => sys_steady_run es y' | None => true end
  end.
End conditions.

(** ** The state machine of the system *)

Definition decode (cmd : bytes) : option Op :=
  match deserializeCommand cmd with inl op => Some op | inr _ => None end.

(** The map that a log of commands makes. *)
Definition map_of (l : list bytes) : gmap string string := exec_all (omap decode l) ∅.

Definition text_map (m : gmap string string) : Prop :=
  ∀ k v, m !! k = Some v → valid_string k ∧ valid_string v.

(** Nothing in the cache takes part in duplicate detection. *)
Definition cache_idle (dedup : gmap Z (gmap Z DuplicateEntry)) : Prop :=
  ∀ c m q e, dedup !! c = Some m → m !! q = Some e → c = 0 ∧ q = 0.

(** A command the RPC handlers have put into the log. *)
Definition submitted (cmd : bytes) : Prop :=
  ∃ op, deserializeCommand cmd = inl op ∧ oClientId op = 0 ∧ oSequenceId op = 0 ∧
    valid_string (oKey op) ∧ valid_string (oValue op).

Lemma map_of_snoc l cmd op : deserializeCommand cmd = inl op →
  map_of (l ++ [cmd]) = fst (exec op (map_of l)).
Proof.
  intros Hd. unfold map_of, exec_all. rewrite omap_app, foldl_app. cbn. unfold decode at 2. by rewrite Hd.
Qed.

Lemma exec_text op m : text_map m → valid_string (oKey op) → valid_string (oValue op) →
  text_map (fst (exec op m)).
Proof.
  intros Hm Hk Hv. unfold exec. branch; [|branch; [|by branch]]; cbn; intros k v.
  - intros [[<- <-]|[_ Hl]]%lookup_insert_Some; auto.
  - intros [[<- <-]|[_ Hl]]%lookup_insert_Some; [|auto]. split; [done|]. apply valid_string_app; [|done].
    destruct (m !! oKey op) as [x|] eqn:E; [|done]. by apply (Hm (oKey op)).
Qed.

Lemma cleanup_client_sub now m : cleanup_client now m ⊆ m.
Proof. unfold cleanup_client. etrans; [apply evict_oldest_spec; lia|apply map_filter_subseteq]. Qed.

Lemma snapshot_dedup_idle now dedup : cache_idle dedup → snapshot_dedup now dedup = ∅.
Proof.
  intros Hi. apply map_empty. intros c. unfold snapshot_dedup. rewrite map_lookup_imap.
  destruct (dedup !! c) as [m|] eqn:Hc; [|done]. cbn.
  assert (snapshot_client now c m = ∅) as ->; [|by rewrite decide_True].
  apply map_empty. intros q. unfold snapshot_client. rewrite map_lookup_imap.
  destruct (m !! q) as [e|] eqn:Hq; [|done]. by destruct (Hi c m q e Hc Hq) as [-> ->].
Qed.

(** A server that has executed [op] as the next command. *)
Lemma receive_command (pick : gmap Z Result → Z) now msg s op :
  SnapshotValid msg = false → CommandValid msg = true → deserializeCommand (amCommand msg) = inl op →
  oClientId op = 0 → oSequenceId op = 0 → cache_idle (duplicates s) →
  let s' := fst (processApplyMsg_begin pick now msg s) in
  kvState s' = fst (exec op (kvState s)) ∧ kvLastApplied s' = CommandIndex msg ∧ cache_idle (duplicates s').
Proof.
  intros Hs Hc Hd Hi Hq Hca. cbv zeta. unfold processApplyMsg_begin. rewrite Hs, Hc, Hd, Hi. cbn [negb andb Z.eqb].
  pose proof (apply_section_spec now (CommandIndex msg) op s) as Ha.
  destruct (apply_section _ _ _ _) as [s1 res]. destruct Ha as (H1 & _ & H2 & _ & H3).
  destruct (notifyWaiter_frame pick (CommandIndex msg) res s1) as (E1 & E2 & _ & E3). cbn [fst].
  rewrite E1, E2, E3, H1, H2, H3, Hi, Hq. split_and!; [done..|].
  intros c m q e [[<- <-]|[_ Hm]]%lookup_insert_Some He; [|by eapply Hca].
  pose proof (lookup_weaken _ _ _ _ He (cleanup_client_sub _ _)) as Hl.
  apply lookup_insert_Some in Hl as [[<- _]|[_ Hl]]; [done|].
  destruct (duplicates s !! 0) as [m0|] eqn:E; [by eapply Hca|done].
Qed.

(** What a snapshot of an idle server holds. *)
Lemma serialize_idle now st dedup data : text_map st → cache_idle dedup →
  serializeSnapshot now st dedup = inl data → deserializeSnapshot data = inl (st, ∅).
Proof.
  intros Ht Hi. unfold serializeSnapshot, deserializeSnapshot. rewrite snapshot_dedup_idle by done.
  destruct (Marshal _) as [d|] eqn:Hm; [|done]. intros [= ->].
  assert (valid_payload (mkSnapshotPayload st ∅)) as Hv by (split; [exact Ht|done]).
  rewrite (json_roundtrip _ _ Hv Hm). cbn. by rewrite fmap_empty.
Qed.

Lemma takeSnapshot_inv {P} `{PersisterLaws P} now s (r : Raft P) s' r' : takeSnapshot now s r = (s', r') →
  kvState s' = kvState s ∧ duplicates s' = duplicates s ∧ kvLastApplied s' = kvLastApplied s ∧
  (r' = r ∨ ∃ data, serializeSnapshot now (kvState s) (duplicates s) = inl data ∧
     r' = fst (Snapshot (kvLastApplied s) data r)).
Proof.
  unfold takeSnapshot. branch; [intros [= <- <-]; auto|]. branch; [intros [= <- <-]; auto|].
  destruct (serializeSnapshot _ _ _) as [data|] eqn:Hd; [|intros [= <- <-]; auto].
  destruct (Snapshot _ _ _) as [r1 [e|]] eqn:HS; intros [= <- <-]; split_and!; auto; right; exists data;
    by rewrite HS.
Qed.

(** What the handlers replicate. *)
Lemma call_submitted {P} `{PersisterLaws P} q (r : Raft P) op now s : call_begin q r = inl op →
  ∃ data, serializeCommand op = inl data ∧ submitOperation_begin now op s = (s, SubmitReplicate data) ∧
    submitted data.
Proof.
  intros Hop. assert (oClientId op = 0 ∧ oSequenceId op = 0) as [Hc Hq].
  { destruct q; cbn in Hop; unfold Get_begin, Put_begin, Append_begin in Hop;
      destruct (negb (IsLeader r)); by simplify_eq/=. }
  destruct (serializeCommand_read op) as (data & Hs & Hd); [rewrite ?Hc, ?Hq; by split..|].
  exists data. unfold submitOperation_begin. rewrite Hs, Hc. do 2 (split; [done|]).
  eexists. split; [exact Hd|]. cbn. rewrite Hc, Hq. auto using ToValidUTF8_valid.
Qed.

(** ** The way from the log to the server *)

(** [msgs] takes a server that has executed [p] commands to [q]: each command is
    the next one, a snapshot may skip some. *)
Fixpoint supply (p : Z) (msgs : list ApplyMsg) (q : Z) : Prop :=
  match msgs with
  | [] => p = q
  | msg :: msgs =>
      (msg = command_msg (amCommand msg) (p + 1) ∧ supply (p + 1) msgs q) ∨
      (∃ d i t, msg = snapshot_msg d i t ∧ p ≤ i ∧ supply i msgs q)
  end.

Lemma supply_le p msgs q : supply p msgs q → p ≤ q.
Proof.
  revert p. induction msgs as [|m msgs IH]; cbn; intros p; [intros ->; lia|].
  intros [[_ H%IH]|(d & i & t & _ & ? & H%IH)]; lia.
Qed.

Lemma supply_app p a b q : supply p (a ++ b) q ↔ ∃ k, supply p a k ∧ supply k b q.
Proof.
  revert p. induction a as [|m a IH]; cbn; intros p.
  - split; [eauto|]. by intros (k & -> & ?).
  - setoid_rewrite IH. split.
    + intros [(E & k & ? & ?)|(d & i & t & E & ? & k & ? & ?)]; exists k; (split; [|done]); [left|right]; eauto 10.
    + intros (k & [(E & ?)|(d & i & t & E & ? & ?)] & ?); [left|right]; eauto 12.
Qed.

Section feeding.
Context {P : Type} `{PL : PersisterLaws P}.
Implicit Types (w : World P) (r : Raft P).

(** The server of node [n] has executed [pos !! n] commands; what is in the
    channel and in the apply loop's hand takes it to [lastApplied]. *)
Record fed w (pos : gmap Z Z) : Prop := mkFed {
  fd_idle n r : down w !! n = Some r → nodes w !! n = None ∧ hands n w = [];
  fd_node n r : nodes w !! n = Some r →
    ∃ p m, pos !! n = Some p ∧ hands n w = [m] ∧ supply p (applyCh r ++ m) (lastApplied r)
}.

Lemma fed_becomes w w' pos n r r' : fed w pos → becomes n r r' w w' →
  (∀ p m, hands n w = [m] → supply p (applyCh r ++ m) (lastApplied r) →
     ∃ m', hands n w' = [m'] ∧ supply p (applyCh r' ++ m') (lastApplied r')) → fed w' pos.
Proof.
  intros [Hi Hf] [Hold Hnew Hd _ Hh] Hs. split.
  - intros m x. rewrite Hd. intros [Hm Hhm]%Hi. assert (m ≠ n) as Hne by (intros ->; congruence).
    rewrite Hnew, lookup_insert_ne by done. split; [done|]. apply Permutation_nil_r. by rewrite Hh, Hhm.
  - intros m x. rewrite Hnew. intros [[<- <-]|[Hne Hx]]%lookup_insert_Some.
    + destruct (Hf n r Hold) as (p & k & Hp & Hk & Hsu). destruct (Hs p k Hk Hsu) as (k' & ? & ?). eauto.
    + destruct (Hf m x Hx) as (p & k & Hp & Hk & Hsu). exists p, k. split_and!; auto.
      apply Permutation_singleton_r. by rewrite Hh, Hk by done.
Qed.

Lemma is_contact_delivers rnd req r :
  applyCh (is_contact rnd req r) = applyCh r ∧ lastApplied (is_contact rnd req r) = lastApplied r.
Proof. unfold is_contact. node_inv. by branch. Qed.

Lemma InstallSnapshot_queues rnd req r r' resp : InstallSnapshot rnd req r = (r', Ret resp) →
  applyCh r' = applyCh r ∧ lastApplied r' = lastApplied r ∨
  commitIndex r < isLastIncludedIndex req ∧ lastApplied r' = isLastIncludedIndex req ∧
  applyCh r' = applyCh r ++ [snapshot_msg (isData req) (isLastIncludedIndex req) (isLastIncludedTerm req)].
Proof.
  rewrite InstallSnapshot_unfold. branch; [done|]. branch; [intros [= <- _]; auto|]. cbv zeta.
  destruct (is_contact_delivers rnd req r) as [Hch Hla].
  destruct (is_contact_frame rnd req r) as (_ & _ & Hci & _). cbv zeta in Hci. rewrite Hci.
  destruct (_ || _)%bool eqn:Hc; [intros [= <- _]; auto|].
  apply orb_false_iff in Hc as [Hlt%Z.leb_gt _].
  assert (applyCh (installed req (is_contact rnd req r)) = applyCh r ∧
    lastApplied (installed req (is_contact rnd req r)) = isLastIncludedIndex req) as [Hc Hl] by done.
  revert Hc Hl. generalize (installed req (is_contact rnd req r)). intros x Hc Hl.
  destruct (persist x) as [r1 [e|]] eqn:Hp; [done|]. apply persist_inv in Hp as (p & -> & _).
  destruct (SaveSnapshot _ _ _ _) as [p2 [e|]]; [done|].
  destruct (send_applyCh _ _) eqn:Hs; [|done]. apply send_applyCh_inv in Hs as ->. intros [= <- _].
  right. cbn. by rewrite Hc.
Qed.

(** A snapshot arrives while the apply loop has nothing in hand. *)
Lemma install_supplies w n rnd req r p m : wf r → hands n w = [m] →
  install_clean w n rnd req r = true → supply p (applyCh r ++ m) (lastApplied r) →
  let r' := fst (InstallSnapshot rnd req r) in supply p (applyCh r' ++ m) (lastApplied r').
Proof.
  intros Hw Hm Hc Hs. cbv zeta. pose proof (InstallSnapshot_inv rnd req r) as Hi.
  pose proof (InstallSnapshot_queues rnd req r) as Hq. unfold install_clean in Hc.
  destruct (is_contact_delivers rnd req r) as [Hch Hla].
  destruct (InstallSnapshot rnd req r) as [r' res]. cbn [fst] in *.
  assert (applyCh r' = applyCh r ∧ lastApplied r' = lastApplied r ∨ (∃ resp, res = Ret resp) ∧ m = [])
    as [[-> ->]|[[resp ->] ->]]; [|done|].
  - apply orb_true_iff in Hc as [E%Z.eqb_eq|[Hh Hr]%andb_true_iff].
    + left. split; [|done]. destruct Hi as [->|[[_ ->]|(_ & Hlt & p' & ch & -> & _)]]; [done|done|].
      cbn in E. destruct Hw. lia.
    + right. apply bool_decide_eq_true_1 in Hh. rewrite Hm in Hh. injection Hh as ->.
      destruct res; eauto; done.
  - rewrite app_nil_r in *. destruct (Hq r' resp eq_refl) as [[-> ->]|(Hlt & -> & ->)]; [done|].
    apply supply_app. exists (lastApplied r). split; [done|]. cbn. right. eexists _, _, _. split; [done|].
    split; [|done]. destruct Hw. lia.
Qed.

Lemma fed_turn ev w w' pos : fed w pos → turn ev w w' → (∀ n r, nodes w !! n = Some r → wf r) →
  (∀ n, ev ≠ Consume n) → (∀ n rnd, ev ≠ Restart n rnd) →
  (∀ n idx data r, ev = Compact n idx data → nodes w !! n = Some r → idx ≤ lastApplied r) →
  (∀ i rnd n req k r, ev = Deliver i rnd → tasks w !! i = Some (TCall n (QSnapshot req) k) →
     nodes w !! n = Some r → install_clean w n rnd req r = true) → fed w' pos.
Proof.
  intros Hf Ht Hwf Hcn Hre Hco Hin. destruct Ht as
    [H1 H2 H3 H4|m r r' Hb Ht Hg Hh|m r e k Hb He H1 H2|m r msg k Hb H1 H2|i m r rnd req k E Hi Hb Hh
    |m r idx data E Hb Hh|m r msg ch E Hch Hb Hh|m rnd r r' E Hr];
    [|try (pose proof (be_old _ _ _ _ _ Hb) as Hold; apply (fed_becomes w w' pos m r _ Hf Hb); intros p x Hx Hs)..|].
  - destruct Hf as [Hi Hf]. split.
    + intros n r. rewrite H1, H2. intros [? Hn]%Hi. split; [done|]. apply Permutation_nil_r. by rewrite H4, Hn.
    + intros n r. rewrite H1. intros (p & m & Hp & Hm & Hs)%Hf. exists p, m. split_and!; auto.
      apply Permutation_singleton_r. by rewrite H4, Hm.
  - exists x. split; [apply Permutation_singleton_r; by rewrite Hh, Hx|].
    by rewrite (td_chan _ _ Ht), (td_applied _ _ Ht).
  - destruct (hands_turn _ _ _ _ _ _ H1 H2 Hx) as [-> Hx']. rewrite app_nil_r in Hs. eexists. split; [exact Hx'|].
    cbn. apply supply_app. exists (lastApplied r). split; [done|]. left. done.
  - destruct (hands_turn _ _ _ _ _ _ H1 H2 Hx) as [-> Hx']. exists []. split; [done|]. cbn. by rewrite app_nil_r.
  - exists x. split; [apply Permutation_singleton_r; by rewrite Hh, Hx|].
    eapply install_supplies; eauto.
  - exists x. split; [apply Permutation_singleton_r; by rewrite Hh, Hx|].
    pose proof (Hco m idx data r E Hold). pose proof (Hwf m r Hold) as Hw. pose proof Hw as [].
    destruct (Snapshot_inv idx data r) as [->|(_ & e & p' & _ & ->)]; [done|lia|done|done].
  - by destruct (Hcn m).
  - by destruct (Hre m rnd).
Qed.

Lemma fed_crash n r w pos : fed w pos → fed (crash n r w) pos.
Proof.
  intros [Hi Hf]. split.
  - intros m x Hm. rewrite crash_hands. cbn in Hm |- *.
    apply lookup_insert_Some in Hm as [[<- _]|[Hne [? ?]%Hi]].
    + by rewrite lookup_delete_eq, decide_True.
    + by rewrite lookup_delete_ne, decide_False by done.
  - intros m x Hx. cbn in Hx. apply lookup_delete_Some in Hx as [Hne Hx].
    rewrite crash_hands, decide_False by done. by apply Hf.
Qed.

Lemma fed_restart n rnd r r' w w' pos : fed w pos → restarted n rnd r r' w w' →
  wf r → intact r → restart_clean r = true → fed w' (<[n := 0]> pos).
Proof.
  intros [Hi Hf] [Hd [cfg Hr] Hnew Hdn _ Hown Hh] Hw Hin Hc. destruct (Hi n r Hd) as [Hn Hhn].
  destruct (restart_intact cfg r r' Hw Hin Hr) as (_ & _ & _ & Hrest).
  destruct (Start_inv rnd r') as (c & t & g & Est). rewrite Est in Hnew. split.
  - intros m x. rewrite Hdn. intros [Hne [? Hm]%Hi]%lookup_delete_Some.
    rewrite Hnew, lookup_insert_ne by done. split; [done|]. apply Permutation_nil_r. by rewrite Hh, Hm.
  - intros m x. rewrite Hnew. intros [[<- <-]|[Hne Hx]]%lookup_insert_Some.
    + exists 0, []. rewrite lookup_insert_eq. split; [done|]. split.
      { apply Permutation_singleton_r. by rewrite Hown, Hhn. }
      cbn. rewrite app_nil_r. unfold restart_clean in Hc.
      destruct (Z.eqb_spec (logBase r) 0) as [E|E]; destruct Hrest as (_ & -> & ->); cbn in Hc |- *.
      * apply bool_decide_eq_true_1 in Hc. by rewrite Hc.
      * right. eexists _, _, _. split; [done|]. destruct Hw. split; [lia|done].
    + destruct (Hf m x Hx) as (p & k & Hp & Hk & Hsu). exists p, k. rewrite lookup_insert_ne by done.
      split_and!; auto. apply Permutation_singleton_r. by rewrite Hh, Hk by done.
Qed.

(** The server of node [n] takes the next message. *)
Lemma fed_consume n r msg ch w pos p : fed w pos → nodes w !! n = Some r → pos !! n = Some p →
  applyCh r = msg :: ch → ∃ p', p ≤ p' ∧ supply p [msg] p' ∧
    fed (set_node n (r <| applyCh := ch |>) w) (<[n := p']> pos).
Proof.
  intros [Hi Hf] Hn Hp Hch. destruct (Hf n r Hn) as (p0 & m & Hp0 & Hm & Hs).
  rewrite Hp in Hp0. injection Hp0 as <-. rewrite Hch in Hs. change (msg :: ch) with ([msg] ++ ch) in Hs.
  rewrite <- app_assoc in Hs. apply supply_app in Hs as (p' & H1 & H2).
  exists p'. split; [by eapply supply_le|]. split; [done|]. split.
  - cbn. intros k x [Hk ?]%Hi. by rewrite lookup_insert_ne by (intros ->; congruence).
  - cbn. intros k x [[<- <-]|[Hne Hx]]%lookup_insert_Some.
    + exists p', m. rewrite lookup_insert_eq. auto.
    + rewrite lookup_insert_ne by done. by apply Hf.
Qed.
End feeding.

(** ** The invariant *)

Section invariant.
Context {P : Type} `{PL : PersisterLaws P}.
Context (ids : gset Z) (cfgs : gmap Z (Config P)) (Hok : cluster_ok ids cfgs).
Context (Hodd : Z.odd (Z.of_nat (size ids)) = true).
Context (pick : gmap Z Result → Z) (maxp : Z) (may : nat → LogEntry → Prop).
Implicit Types (y : System P) (w : World P) (r : Raft P) (s : Server) (h : Proto).

(** The commands [l] are committed, in this order from the first on. *)
Definition history h (l : list bytes) : Prop :=
  ∀ i c, l !! i = Some c → ∃ T k e, committed ids h T k ∧ (i ≤ k)%nat ∧
    reign_log h T !! i = Some e ∧ eCommand e = c.

(** [d] is a snapshot of the first [i] committed commands. *)
Definition image h (d : bytes) (i : Z) : Prop :=
  ∃ l, history h l ∧ len l = i ∧ text_map (map_of l) ∧ deserializeSnapshot d = inl (map_of l, ∅).

(** The server has executed a committed history. *)
Definition serves h s : Prop :=
  ∃ l, history h l ∧ len l = kvLastApplied s ∧ text_map (map_of l) ∧ kvState s = map_of l ∧
    cache_idle (duplicates s).

Definition positions (hs : gmap Z Host) : gmap Z Z := (λ x, kvLastApplied (server x)) <$> hs.

Record sys_inv y h : Prop := mkSysInv {
  sy_sim : sim ids cfgs true true (world y) h;
  sy_stocked : stocked submitted (image h) (world y);
  sy_fed : fed (world y) (positions (hosts y));
  sy_serves n x : hosts y !! n = Some x → is_Some (nodes (world y) !! n) ∧ serves h (server x)
}.

Section grow.
Context (h h' : Proto) (Hg : grows h h').

Lemma history_grows l : history h l → history h' l.
Proof.
  intros Hl i c Hc. destruct (Hl i c Hc) as (T & k & e & H1 & H2 & H3 & H4). exists T, k, e. split_and!; auto.
  - by apply (committed_grows ids h h').
  - destruct (grows_reign_log h h' Hg T) as [z ->]. by apply lookup_app_l_Some.
Qed.

Lemma image_grows d i : image h d i → image h' d i.
Proof. intros (l & ? & ?). exists l. auto using history_grows. Qed.

Lemma serves_grows s : serves h s → serves h' s.
Proof. intros (l & ? & ?). exists l. auto using history_grows. Qed.
End grow.

Lemma history_snoc h l c : history h l → agreed ids true h (command_msg c (len l + 1)) → history h (l ++ [c]).
Proof.
  intros Hl (T & k & i & e & H1 & H2 & H3 & [E|(_ & d & E)]) j x; [|done].
  injection E as -> E. rewrite lookup_app_Some, list_lookup_singleton_Some.
  intros [?|(Hj & Hj0 & <-)]; [auto|]. unfold len in E. assert (j = i) as -> by lia. eauto 10.
Qed.

Lemma serves_same h s s' : kvState s' = kvState s → kvLastApplied s' = kvLastApplied s →
  duplicates s' = duplicates s → serves h s → serves h s'.
Proof. intros H1 H2 H3 (l & ?). exists l. by rewrite H1, H2, H3. Qed.

Lemma serves_new h : serves h (NewServer maxp).
Proof. by exists []. Qed.

(** [msg] is the next message for a server and takes it to position [p']. *)
Record due h s (msg : ApplyMsg) (p' : Z) : Prop := mkDue {
  du_serves : serves h s;
  du_agreed : agreed ids true h msg;
  du_authentic : authentic submitted (image h) msg;
  du_supply : supply (kvLastApplied s) [msg] p'
}.

Lemma serves_receive h now msg s p' : due h s msg p' →
  let s' := fst (processApplyMsg_begin pick now msg s) in serves h s' ∧ kvLastApplied s' = p'.
Proof.
  intros [(l & Hl & Hlen & Ht & Hst & Hca) Hag [Hcmd Hsnap] Hs]. cbv zeta. cbn in Hs.
  destruct Hs as [[E <-]|(d & i & t & -> & _ & <-)].
  - destruct (Hcmd ltac:(by rewrite E)) as (op & Hd & Hc & Hq & Hk & Hv).
    destruct (receive_command pick now msg s op) as (H1 & H2 & H3); auto; [by rewrite E..|].
    assert (CommandIndex msg = kvLastApplied s + 1) as Ei by by rewrite E.
    rewrite H2, Ei. split; [|done].
    exists (l ++ [amCommand msg]). rewrite (map_of_snoc l _ op Hd), H2, Ei, H1, Hst, len_app. split_and!; auto.
    + apply history_snoc; [done|]. by rewrite Hlen, <- E.
    + rewrite Hlen. done.
    + by apply exec_text.
  - destruct (Hsnap eq_refl) as (l' & Hl' & Hlen' & Ht' & Hd). cbn in Hd, Hlen'.
    unfold processApplyMsg_begin. cbn [SnapshotValid snapshot_msg fst]. unfold handleSnapshotMsg.
    cbn [SnapshotData snapshot_msg]. rewrite Hd. cbn. split; [|done].
    exists l'. split_and!; auto. by intros c m q e Hm.
Qed.

Lemma fed_pos w pos pos' : fed w pos → (∀ n r, nodes w !! n = Some r → pos' !! n = pos !! n) → fed w pos'.
Proof.
  intros [Hi Hf] Hp. split; [done|]. intros n r Hn. destruct (Hf n r Hn) as (p & m & ? & ?).
  exists p, m. by rewrite (Hp n r Hn).
Qed.

(** A server changes what concerns its handlers only. *)
Lemma sys_inv_server y h n x s f : sys_inv y h → hosts y !! n = Some x → kvState s = kvState (server x) →
  kvLastApplied s = kvLastApplied (server x) → duplicates s = duplicates (server x) →
  sys_inv (set_server n s f y) h.
Proof.
  intros [Hsim Hst Hf Hse] Hx H1 H2 H3. split; cbn; auto.
  - eapply fed_pos; [exact Hf|]. intros m r _. unfold positions. rewrite !lookup_fmap.
    destruct (decide (m = n)) as [->|]; [|by rewrite lookup_insert_ne].
    rewrite lookup_insert_eq, Hx. cbn. by rewrite H2.
  - intros m z [[<- <-]|[_ Hz]]%lookup_insert_Some; [|auto]. destruct (Hse n x Hx) as [? ?].
    split; [done|]. by apply (serves_same h (server x)).
Qed.

Lemma positions_attend e w hs n : is_Some (nodes w !! n) →
  positions (attend maxp e w hs) !! n =
  match e with Restart m _ => <[m := 0]> (positions hs) !! n | _ => positions hs !! n end.
Proof.
  intros Hn. unfold positions, attend. rewrite lookup_fmap.
  assert (∀ hs : gmap Z Host, filter (λ z : Z * Host, is_Some (nodes w !! z.1)) hs !! n = hs !! n) as ->.
  { intros hs'. destruct (hs' !! n) as [x|] eqn:E; [by apply map_lookup_filter_Some|].
    apply map_lookup_filter_None. by left. }
  rewrite <- lookup_fmap. destruct e; try done. by rewrite fmap_insert.
Qed.

(** What any step of the cluster keeps. *)
Lemma sys_cluster_step y h e w' : sys_inv y h → step e (world y) = Some w' →
  steady_event true true (world y) e = true → permitted may (world y) e →
  (∀ n cmd, e = Client n cmd → submitted cmd) →
  (∀ n idx data, e = Compact n idx data → image h data idx) →
  ∃ h', rtc (pstep ids may) h h' ∧ sim ids cfgs true true w' h' ∧ stocked submitted (image h') w' ∧
    (∀ s, serves h s → serves h' s) ∧ turns e (world y) w'.
Proof.
  intros [Hsim Hst _ _] Hw Hs Hmay Hcl Hco.
  destruct (sim_step ids cfgs Hok Hodd true true may _ h e w' Hsim Hw Hs Hmay) as (h' & Hr & Hsim').
  destruct (psteps_advance ids may Hodd h h' (si_pinv _ _ _ _ _ _ Hsim) Hr) as (_ & Hg & _).
  exists h'. split_and!; auto.
  - apply (stocked_mono submitted (image h)); [intros; by eapply image_grows|].
    by apply (stocked_step submitted (image h) ids cfgs true true (world y) h e).
  - intros s. by apply serves_grows.
  - by apply (sim_turns ids cfgs true true (world y) h).
Qed.

Lemma sys_wf y h n r : sys_inv y h → nodes (world y) !! n = Some r → wf r.
Proof. intros Hi Hn. apply (si_plain _ _ _ _ _ _ (sy_sim _ _ Hi) n). by left. Qed.

(** The servers follow the nodes as long as the event is none of the above. *)
Lemma fed_turns e w w' pos : fed w pos → turns e w w' → (∀ n r, nodes w !! n = Some r → wf r) →
  (∀ n, e ≠ Consume n) → (∀ n rnd, e ≠ Restart n rnd) →
  (∀ n idx data r, e = Compact n idx data → nodes w !! n = Some r → idx ≤ lastApplied r) →
  (∀ i rnd n req k r, e = Deliver i rnd → tasks w !! i = Some (TCall n (QSnapshot req) k) →
     nodes w !! n = Some r → install_clean w n rnd req r = true) → fed w' pos.
Proof.
  intros Hf (w1 & Ht & Hcr) Hwf Hcn Hre Hco Hin.
  assert (fed w1 pos) as Hf1 by (by eapply fed_turn).
  destruct Hcr as [->|(n & r & _ & ->)]; auto using fed_crash.
Qed.

(** *** An event of Raft *)

Lemma raft_feeds y h e w' : sys_inv y h → step e (world y) = Some w' → by_server e = false →
  sys_steady_event y (SRaft e) = true → fed w' (positions (attend maxp e w' (hosts y))).
Proof.
  intros [Hsim _ Hf _] Hw Hby [Hs Hside]%andb_true_iff.
  assert (∀ n r, known (world y) n r → wf r) as Hwf
    by (intros n r Hn; by apply (si_plain _ _ _ _ _ _ Hsim n)).
  assert ((∃ n rnd, e = Restart n rnd) ∨ ∀ n rnd, e ≠ Restart n rnd) as [(n & rnd & ->)|Hre]
    by (destruct e; (right; by intros ?) || (left; by eauto)).
  - cbn in Hw. apply restart_inv in Hw as (r & r' & Hres). pose proof (re_old _ _ _ _ _ _ Hres) as Hn.
    rewrite Hn in Hside. eapply fed_pos; [eapply fed_restart; eauto|].
    + apply (Hwf n). by right.
    + unfold steady_event in Hs. rewrite Hn in Hs.
      apply andb_true_iff in Hs as [_ [[H1 H2]%andb_true_iff _]%andb_true_iff].
      by split; eapply bool_decide_eq_true_1.
    + intros m z Hz. rewrite (positions_attend (Restart n rnd)) by eauto. done.
  - assert (fed w' (positions (hosts y))) as Hf'.
    { eapply fed_turns; [done|by eapply sim_turns|..|done| |].
      - intros n r Hn. apply (Hwf n). by left.
      - by intros n ->.
      - by intros n idx data r ->.
      - intros i rnd n req k r -> Hi Hn. by rewrite Hi, Hn in Hside. }
    eapply fed_pos; [exact Hf'|]. intros n r Hn. rewrite positions_attend by eauto.
    destruct e; try done. by destruct (Hre n0 rnd).
Qed.

Lemma sys_inv_raft y h e y' : sys_inv y h → sys_step pick maxp (SRaft e) y = Some y' →
  sys_steady_event y (SRaft e) = true → ∃ h', rtc (pstep ids may) h h' ∧ sys_inv y' h'.
Proof.
  intros Hi Hstep Hs. pose proof Hs as [Hse _]%andb_true_iff. cbn in Hstep.
  destruct (by_server e) eqn:Hby; [done|]. destruct (step e (world y)) as [w'|] eqn:Hw; [|done].
  injection Hstep as <-. pose proof (raft_feeds y h e w' Hi Hw Hby Hs) as Hf'.
  destruct (sys_cluster_step y h e w' Hi Hw Hse) as (h' & Hr & Hsim' & Hst' & Hg & _); [by intros ????; intros; subst|by intros; subst..|].
  exists h'. split; [done|]. split; cbn; auto.
  intros n x [Hx Hn]%map_lookup_filter_Some. cbn in Hn. split; [done|].
  assert (∀ x, hosts y !! n = Some x → serves h' (server x)) as Hold.
  { intros z Hz. by apply Hg, (sy_serves _ _ Hi n). }
  destruct e; try by apply Hold. apply lookup_insert_Some in Hx as [[_ <-]|[_ Hx]]; [apply serves_new|auto].
Qed.

(** *** An event of a server *)

(** The entry that a handler appends is one that may be. *)
Definition sys_permitted y (ev : sys_event) : Prop :=
  ∀ n now q r op data x, ev = SCall n now q → nodes (world y) !! n = Some r → call_begin q r = inl op →
    serializeCommand op = inl data → snd (ReplicateCommand_begin data r) = Ret x →
    may (Z.to_nat (last_index r)) (new_entry data r).

Lemma sys_inv_call y h n now q y' : sys_inv y h → sys_step pick maxp (SCall n now q) y = Some y' →
  sys_steady_event y (SCall n now q) = true → sys_permitted y (SCall n now q) → ∃ h', rtc (pstep ids may) h h' ∧ sys_inv y' h'.
Proof.
  intros Hi Hstep Hs Hmay. cbn [sys_step sys_steady_event] in *.
  destruct (nodes (world y) !! n) as [r|] eqn:Hn; [|done].
  destruct (hosts y !! n) as [x|] eqn:Hx; [|done]. cbn [mbind option_bind] in Hstep.
  destruct (call_begin q r) as [op|resp] eqn:Hq; [|injection Hstep as <-; eauto using rtc_refl].
  destruct (call_submitted q r op now (server x) Hq) as (data & Hser & E & Hsub). rewrite E in Hstep.
  cbn [world set_server hosts] in Hstep.
  destruct (step (Client n data) (world y)) as [w'|] eqn:Hw; [|done]. injection Hstep as <-.
  assert (steady_event true true (world y) (Client n data) = true) as Hse
    by (unfold steady_event; cbn; by rewrite Hn).
  apply (sys_inv_server y h n x (server x) (snapshotting x)) in Hi; [|done..].
  destruct (sys_cluster_step _ h _ w' Hi Hw Hse) as (h' & Hr & Hsim' & Hst' & Hg & Ht);
    [|by intros m cmd [= -> ->]|done|].
  { intros m cmd z u [= <- <-] Hz. cbn in Hz. rewrite Hn in Hz. injection Hz as <-. by eapply Hmay. }
  assert (∃ r1, nodes w' = <[n := r1]> (nodes (world y))) as [r1 Hdom].
  { cbn in Hw. rewrite Hn in Hw. cbn in Hw. destruct (ReplicateCommand_begin data r) as [r1 res].
    injection Hw as <-. by exists r1. }
  exists h'. split; [done|]. split; cbn; auto.
  - eapply fed_turns; [apply (sy_fed _ _ Hi)|done| |done..]. intros m z. by apply (sys_wf _ h).
  - intros m z Hz. destruct (sy_serves _ _ Hi m z Hz) as [Hm ?]. split; [|auto].
    rewrite Hdom, lookup_insert. by case_decide.
Qed.

Lemma sys_due y h n r x msg ch : sys_inv y h → nodes (world y) !! n = Some r → hosts y !! n = Some x →
  applyCh r = msg :: ch → ∃ p', due h (server x) msg p' ∧
    fed (set_node n (r <| applyCh := ch |>) (world y)) (<[n := p']> (positions (hosts y))).
Proof.
  intros [Hsim Hst Hf Hsv] Hn Hx Hch.
  destruct (fed_consume n r msg ch (world y) (positions (hosts y)) (kvLastApplied (server x)))
    as (p' & _ & Hsu & Hf'); [done..|unfold positions; by rewrite lookup_fmap, Hx|done|].
  exists p'. split; [|done]. split; [by apply (Hsv n)| | |done].
  - eapply (si_chan _ _ _ _ _ _ Hsim n r); [done| |done]. rewrite Hch. left.
  - apply (st_chan _ _ _ Hst n r); [done|]. rewrite Hch. left.
Qed.

Lemma sys_inv_receive y h n now y' : sys_inv y h → sys_step pick maxp (SReceive n now) y = Some y' →
  ∃ h', rtc (pstep ids may) h h' ∧ sys_inv y' h'.
Proof.
  intros Hi Hstep. pose proof Hi as [Hsim Hst Hf Hsv]. cbn [sys_step] in Hstep.
  destruct (nodes (world y) !! n) as [r|] eqn:Hn; [|done].
  destruct (hosts y !! n) as [x|] eqn:Hx; [|done]. cbn [mbind option_bind] in Hstep.
  destruct (snapshotting x); [done|]. destruct (applyCh r) as [|msg ch] eqn:Hch; [done|].
  cbn [head mbind option_bind] in Hstep.
  destruct (step (Consume n) (world y)) as [w'|] eqn:Hw; [|done]. cbn [mbind option_bind] in Hstep.
  destruct (sys_due y h n r x msg ch) as (p' & Hdue & Hf'); [done..|].
  destruct (serves_receive h now msg (server x) p' Hdue) as [Hs' Hp'].
  destruct (processApplyMsg_begin pick now msg (server x)) as [s' f]. cbn [fst] in Hs', Hp'.
  injection Hstep as <-.
  destruct (sys_cluster_step y h _ w' Hi Hw eq_refl) as (h' & Hr & Hsim' & Hst' & Hg & _); [done..|].
  assert (w' = set_node n (r <| applyCh := ch |>) (world y)) as ->
    by (cbn in Hw; rewrite Hn in Hw; cbn in Hw; rewrite Hch in Hw; by injection Hw as <-).
  exists h'. split; [done|]. split; cbn [world hosts set_server]; auto.
  - unfold positions in *. rewrite fmap_insert. cbn. by rewrite Hp'.
  - intros m z [[<- <-]|[Hne Hz]]%lookup_insert_Some; cbn.
    + rewrite lookup_insert_eq. auto.
    + rewrite lookup_insert_ne by done. destruct (Hsv m z Hz). auto.
Qed.

Lemma sys_inv_snapshot y h n now y' : sys_inv y h → sys_step pick maxp (SSnapshot n now) y = Some y' →
  ∃ h', rtc (pstep ids may) h h' ∧ sys_inv y' h'.
Proof.
  intros Hi Hstep. pose proof Hi as [Hsim Hst Hf Hsv]. cbn [sys_step] in Hstep.
  destruct (nodes (world y) !! n) as [r|] eqn:Hn; [|done].
  destruct (hosts y !! n) as [x|] eqn:Hx; [|done]. cbn [mbind option_bind] in Hstep.
  destruct (snapshotting x); [|done].
  destruct (takeSnapshot now (server x) r) as [s' r'] eqn:Hts. injection Hstep as <-.
  destruct (takeSnapshot_inv now (server x) r s' r' Hts) as (H1 & H2 & H3 & Hr').
  assert (∃ h', rtc (pstep ids may) h h' ∧ sys_inv (mkSystem (set_node n r' (world y)) (hosts y)) h')
    as (h' & Hr & Hi'); [|exists h'; split; [done|]; by eapply sys_inv_server].
  destruct Hr' as [->|(data & Hd & ->)].
  { exists h. split; [done|]. unfold set_node. rewrite insert_id by done.
    destruct y as [w hs]. destruct w. exact Hi. }
  destruct (fd_node _ _ Hf n r Hn) as (p & m & Hp & _ & Hsu). apply supply_le in Hsu.
  unfold positions in Hp. rewrite lookup_fmap, Hx in Hp. injection Hp as <-.
  assert (step (Compact n (kvLastApplied (server x)) data) (world y) =
    Some (set_node n (fst (Snapshot (kvLastApplied (server x)) data r)) (world y))) as Hw
    by (cbn; by rewrite Hn).
  set (w' := set_node n (fst (Snapshot (kvLastApplied (server x)) data r)) (world y)) in *.
  assert (steady_event true true (world y) (Compact n (kvLastApplied (server x)) data) = true) as Hse.
  { unfold steady_event. cbn. rewrite Hn. by apply Z.leb_le. }
  destruct (sys_cluster_step y h _ w' Hi Hw Hse) as (h' & Hr & Hsim' & Hst' & Hg & Ht); [done..| |].
  { intros ? ? ? [= <- <- <-].
    destruct (Hsv n x Hx) as (_ & l & Hl & Hlen & Htx & Hkv & Hca). exists l. split_and!; auto.
    rewrite Hkv in Hd. by apply (serialize_idle now _ (duplicates (server x))). }
  exists h'. split; [done|]. split; cbn; auto.
  - eapply fed_turns; [done|done| |done..| |done]; [intros k z; by apply (sys_wf _ h)|].
    intros k idx d z [= <- <- <-] Hz. rewrite Hn in Hz. by injection Hz as <-.
  - intros k z Hz. destruct (Hsv k z Hz) as [Hk ?]. split; [|auto].
    subst w'. cbn. rewrite lookup_insert. by case_decide.
Qed.

(** *** Every event *)

Lemma submitOperation_register_frame idx op s :
  let s' := fst (submitOperation_register idx op s) in
  kvState s' = kvState s ∧ kvLastApplied s' = kvLastApplied s ∧ duplicates s' = duplicates s.
Proof.
  unfold submitOperation_register. branch; [done|]. branch; [done|]. cbn. by destruct (recent s !! idx).
Qed.

Lemma submitOperation_wait_frame idx ch e s s' o : submitOperation_wait idx ch e s = Some (s', o) →
  kvState s' = kvState s ∧ kvLastApplied s' = kvLastApplied s ∧ duplicates s' = duplicates s.
Proof.
  destruct e; cbn.
  - destruct (chans s !! ch) as [[res|]|]; by intros [= <- _].
  - by intros [= <- _].
  - destruct (dead s); by intros [= <- _].
Qed.

Lemma sys_inv_step y h ev y' : sys_inv y h → sys_step pick maxp ev y = Some y' →
  sys_steady_event y ev = true → sys_permitted y ev → ∃ h', rtc (pstep ids may) h h' ∧ sys_inv y' h'.
Proof.
  intros Hi Hst Hs Hmay. destruct ev as [e|n now q|n idx op|n idx ch e|n now|n now].
  - by eapply sys_inv_raft.
  - by eapply sys_inv_call.
  - exists h. split; [done|]. cbn in Hst. destruct (hosts y !! n) as [x|] eqn:Hx; [|done].
    injection Hst as <-. destruct (submitOperation_register_frame idx op (server x)) as (? & ? & ?).
    by eapply sys_inv_server.
  - exists h. split; [done|]. cbn in Hst. destruct (hosts y !! n) as [x|] eqn:Hx; [|done]. cbn in Hst.
    destruct (submitOperation_wait idx ch e (server x)) as [[s o]|] eqn:Hw; [|done]. injection Hst as <-.
    apply submitOperation_wait_frame in Hw as (? & ? & ?). by eapply sys_inv_server.
  - by eapply sys_inv_receive.
  - by eapply sys_inv_snapshot.
Qed.

Lemma sys_inv_run es y h y' : (∀ i e, may i e) → sys_inv y h → sys_run pick maxp es y = Some y' →
  sys_steady_run pick maxp es y = true → ∃ h', rtc (pstep ids may) h h' ∧ sys_inv y' h'.
Proof.
  intros Hmay. revert y h. induction es as [|e es IH]; intros y h Hi Hr Hs; cbn in Hr, Hs.
  - injection Hr as <-. eauto using rtc_refl.
  - apply andb_true_iff in Hs as [Hs Hss]. destruct (sys_step pick maxp e y) as [y1|] eqn:Hst; [|done].
    destruct (sys_inv_step y h e y1 Hi Hst Hs) as (h1 & Hr1 & Hi1); [by intros ???????|].
    destruct (IH y1 h1 Hi1 Hr Hss) as (h2 & ? & ?). exists h2. split; [by etrans|done].
Qed.

Lemma sys_inv_boot rnd : map_Forall (λ _, blank) cfgs → sys_inv (sys_boot maxp rnd cfgs) (first_proto cfgs rnd).
Proof.
  intros Hbl. split; [by apply sim_boot|by apply (stocked_boot submitted _ cfgs)| |].
  - split; [by intros n r|]. cbn [sys_boot hosts world]. intros n r Hn. pose proof Hn as Hn'. cbn in Hn'.
    apply lookup_omap_Some in Hn' as (cfg & Hb & Hc).
    destruct (boot_node_blank true rnd cfg r Hb (Hbl n cfg Hc)) as ([Hw _ _] & _ & Hb0 & Hci & _ & Hch).
    exists 0, []. unfold positions. rewrite !lookup_fmap, Hn, Hch. split_and!; [done| |].
    + unfold hands. cbn. rewrite apply_loops; [done|apply NoDup_fst_map_to_list|].
      apply list_elem_of_fmap. exists (n, cfg). split; [done|]. by apply elem_of_map_to_list.
    + cbn. destruct Hw. lia.
  - cbn [sys_boot hosts world]. intros n x. rewrite lookup_fmap. intros (r & Hr & ->)%fmap_Some.
    split; [by eexists|apply serves_new].
Qed.

(** ** The committed log *)

(** [L] holds all that is committed. *)
Definition whole h (L : list LogEntry) : Prop :=
  ∀ T k, committed ids h T k → take (S k) (reign_log h T) `prefix_of` L.

Lemma whole_lookup h L T k i e : whole h L → committed ids h T k → (i ≤ k)%nat →
  reign_log h T !! i = Some e → L !! i = Some e.
Proof.
  intros HL Hc Hik He. destruct (HL T k Hc) as [z ->]. apply lookup_app_l_Some.
  by rewrite lookup_take_lt by lia.
Qed.

Lemma whole_history h L l : whole h L → history h l → l `prefix_of` (eCommand <$> L).
Proof.
  intros HL Hl. exists (drop (length l) (eCommand <$> L)).
  rewrite <- (take_drop (length l) (eCommand <$> L)) at 1. f_equal. apply list_eq. intros i.
  destruct (decide (i < length l)%nat) as [Hi|Hi].
  - rewrite lookup_take_lt by done. destruct (lookup_lt_is_Some_2 l i Hi) as [c Hc].
    destruct (Hl i c Hc) as (T & k & e & H1 & H2 & H3 & <-).
    by rewrite list_lookup_fmap, (whole_lookup h L T k i e HL H1 H2 H3).
  - rewrite (lookup_ge_None_2 l) by lia. apply lookup_ge_None_2. rewrite length_take. lia.
Qed.

Lemma whole_view w h L n x i e : sim ids cfgs true true w h → whole h L → views h !! n = Some x →
  (i < vCommit x)%nat → vLog x !! i = Some e → L !! i = Some e.
Proof.
  intros Hsim HL Hx Hi He. destruct (pi_commit _ _ (si_pinv _ _ _ _ _ _ Hsim) n x Hx) as [_ Hc].
  destruct (certified_entry ids h _ _ _ i e Hc Hi He) as (T & k & ? & ? & ?). by eapply whole_lookup.
Qed.

(** A server's map is that of the beginning of this log. *)
Lemma serves_log h L s : whole h L → serves h s →
  0 ≤ kvLastApplied s ≤ len L ∧
  kvState s = map_of (take (Z.to_nat (kvLastApplied s)) (eCommand <$> L)).
Proof.
  intros HL (l & Hl & Hlen & _ & -> & _). destruct (whole_history h L l HL Hl) as [z Hz].
  unfold len in *. rewrite <- Hlen, Nat2Z.id, Hz, take_app_length. split; [|done].
  apply (f_equal length) in Hz. rewrite length_fmap, length_app in Hz. lia.
Qed.
End invariant.

Section theorems.
Context {P : Type} `{PL : PersisterLaws P}.

(** C4: The system implements a map.  Take any run of the whole system that
    starts on blank disks, with elections, crashes, lost messages, compaction and
    snapshot transfer, under the side conditions of the refinement and: no
    snapshot is installed while the apply loop has an entry in hand, or is lost
    on the way to the channel; a node restarts with a snapshot or an empty log.
    Then there is one log of commands such that every committed entry of every
    node is the command at its index, and every server has executed exactly the
    commands of the log up to its position: its map is what they make of the
    empty map.  In particular servers at the same position hold the same map, and
    no condition on the contents of requests, on clocks or on the decisions to
    take a snapshot is needed: that only applied entries are compacted is part of
    what is proved. *)
Theorem system_implements_map (ids : gset Z) (cfgs : gmap Z (Config P)) (pick : gmap Z Result → Z)
    (maxp rnd : Z) (es : list sys_event) (y : System P) :
  cluster_ok ids cfgs → Z.odd (Z.of_nat (size ids)) = true → map_Forall (λ _, blank) cfgs →
  sys_run pick maxp es (sys_boot maxp rnd cfgs) = Some y →
  sys_steady_run pick maxp es (sys_boot maxp rnd cfgs) = true →
  ∃ L : list bytes,
    (∀ n r i, known (world y) n r → logBase r < i ≤ commitIndex r →
       ∃ e, entry_at r i = Some e ∧ L !! Z.to_nat (i - 1) = Some (eCommand e)) ∧
    ∀ n x, hosts y !! n = Some x →
      0 ≤ kvLastApplied (server x) ≤ len L ∧
      kvState (server x) = map_of (take (Z.to_nat (kvLastApplied (server x))) L).
Proof.
  intros Hok Hodd Hbl Hrun Hst.
  destruct (sys_inv_run ids cfgs Hok Hodd pick maxp (λ _ _, True) es _ _ y (λ _ _, Logic.I)
    (sys_inv_boot ids cfgs Hok maxp rnd Hbl) Hrun Hst) as (h & _ & Hi).
  pose proof (sy_sim _ _ _ _ Hi) as Hsim.
  destruct (committed_log ids h (si_pinv _ _ _ _ _ _ Hsim)) as [L [HL _]].
  exists (eCommand <$> L). split.
  - intros n r i Hn Hir.
    destruct (known_view ids cfgs (world y) true true h n r Hsim Hn) as (x & Hx & _ & Hu & Hc).
    specialize (Hc eq_refl). destruct (pi_commit _ _ (si_pinv _ _ _ _ _ _ Hsim) n x Hx) as [Hcl _].
    assert (wf r) as [] by (by apply (si_plain _ _ _ _ _ _ Hsim n)).
    rewrite (unfolds_entry r (vLog x)) by (done || lia).
    destruct (lookup_lt_is_Some_2 (vLog x) (Z.to_nat (i - 1))) as [e He]; [lia|].
    exists e. split; [done|]. rewrite list_lookup_fmap.
    by rewrite (whole_view ids cfgs (world y) h L n x _ e) by (done || lia).
  - intros n x Hx. unfold len. rewrite length_fmap. apply (serves_log ids h L); [done|].
    by apply (sy_serves _ _ _ _ Hi n).
Qed.
End theorems.

(** ** Witness *)

Module SystemWitness.
Import MemoryPersister.

(** The test cluster, with a snapshot after every command. *)
Definition configs : gmap Z (Config MemoryPersister) :=
  (λ cfg, cfg <| cfgSnapshotThreshold := 1 |>) <$> test_configs 3.

(** Node 1 is elected.  A client puts [x]; the command is committed with node 3
    and executed by the server of node 1.  The next request, an append, is
    committed before that server takes its snapshot, which goes to node 2; the
    servers of nodes 2 and 3 take the snapshot and the first command. *)
Definition events : list sys_event :=
  (SRaft <$> elect_one) ++
  [SCall 1 0 (CPut "x" "a"); SRegister 1 1 (KvWitness.put "x" "a");
   SRaft (Run 5 true); SRaft (Deliver 6 0); SRaft (Return 6); SRaft (Run 2 true);
   SRaft (Run 5 true); SRaft (Run 5 true); SReceive 1 1; SWait 1 1 0 SubmitResult;
   SCall 1 2 (CAppend "x" "b"); SRaft (Run 6 true); SRaft (Deliver 7 0); SRaft (Return 7);
   SSnapshot 1 3; SRaft (Run 4 true); SRaft (Run 6 true); SRaft (Deliver 6 0); SRaft (Return 6);
   SReceive 2 4; SRaft (Run 0 true); SRaft (Run 5 true); SRaft (Run 5 true); SReceive 3 5].

Definition final : System MemoryPersister :=
  default (sys_boot 10 0 configs) (sys_run KvWitness.first 10 events (sys_boot 10 0 configs)).

Definition map_at (n : Z) : option (Z * gmap string string) :=
  (λ x, (kvLastApplied (server x), kvState (server x))) <$> hosts final !! n.
End SystemWitness.

Lemma system_implements_map_witness :
  SystemWitness.map_at 1 = Some (1, {["x" := "a"]}) ∧ SystemWitness.map_at 2 = Some (1, {["x" := "a"]}) ∧
  ∃ L, L !! 0%nat = eCommand <$> entry_at (default NodeWitness.node (nodes (world SystemWitness.final) !! 3)) 1 ∧
    ∀ n p m, SystemWitness.map_at n = Some (p, m) → m = map_of (take (Z.to_nat p) L).
Proof.
  split; [vm_compute; reflexivity|]. split; [vm_compute; reflexivity|].
  destruct (system_implements_map (list_to_set (test_ids 3)) SystemWitness.configs KvWitness.first 10 0
    SystemWitness.events SystemWitness.final) as (L & Hlog & Hmap).
  - split; [vm_compute; reflexivity| | |vm_compute; reflexivity]; by_evaluation.
  - vm_compute. reflexivity.
  - by_evaluation.
  - vm_compute. reflexivity.
  - vm_compute. reflexivity.
  - exists L. split.
    + destruct (Hlog 3 (default NodeWitness.node (nodes (world SystemWitness.final) !! 3)) 1) as (e & He & Hl).
      * left. vm_compute. reflexivity.
      * split; vm_compute; congruence.
      * rewrite He. exact Hl.
    + intros n p m Hm. unfold SystemWitness.map_at in Hm. apply fmap_Some in Hm as (x & Hx & [= -> ->]).
      apply (Hmap n x Hx).
Defined.
