(* ===== verification/Calls.v ===== *)
(** * The calls of clients

    The RPC handlers that are in flight on top of [System].  A call of a client
    runs [Get], [Put] or [Append] on the server of its node, step by step:

    - [FCall]: the handler up to the point where the command is in the log of
      the leader, or its answer if it gets no further;
    - [FReplicated]: an event of the wait loop of [ReplicateCommand], which ends
      it with an error or an index;
    - [FRegister]: the handler enters its waiter for this index and looks for a
      result that has come before it;
    - [FWait]: the result, the timeout or the shutdown ends the wait.

    Between two steps of a handler the rest of the system does whatever it likes
    ([FSys]); a handler whose process ends never answers.

    [cEntry], [cBegun], [cHeld] and the time of an answer are history variables:
    the index and term of the call's log entry, the time of its beginning, and
    whether its node still led the term of the entry when [ReplicateCommand]
    returned.  No step reads them but for the index, which the handler holds. *)

From S2P Require Import Prelude Types Text Json KvCodec Persister Node Election Replication Snapshot Cluster.
From S2P Require Import Kv KvFacts System.

Inductive phase : Type :=
  | Replicating
  | Registering
  | Waiting (ch : nat)
  | Returned (out : Result * option kv_error) (resp : Response) (time : nat)
  | Gone.

Record call : Type := mkCall {
  cNode : Z;
  cRequest : kv_call;
  cEntry : option (Z * Z);
  cBegun : nat;
  cHeld : bool;
  cPhase : phase
}.

Record Front {P : Type} : Type := mkFront { sys : System P; calls : list call; clock : nat }.
Arguments Front : clear implicits.
Arguments mkFront {P}.

Inductive front_event : Type :=
  | FSys (e : sys_event)
  | FCall (n now : Z) (q : kv_call)
  | FReplicated (j : nat) (ev : wait_event)
  | FRegister (j : nat)
  | FWait (j : nat) (ev : submit_event).

(** What the handlers do themselves. *)
Definition by_handler (e : sys_event) : bool :=
  match e with SCall _ _ _ | SRegister _ _ _ | SWait _ _ _ _ => true | _ => false end.

(** The operation a handler submits. *)
Definition call_op (q : kv_call) : Op :=
  match q with
  | CGet key => mkOp OpGet key "" 0 0
  | CPut key value => mkOp OpPut key value 0 0
  | CAppend key value => mkOp OpAppend key value 0 0
  end.

Definition finished (c : call) : bool :=
  match cPhase c with Returned _ _ _ | Gone => true | _ => false end.

Section calls.
Context {P : Type} `{PP : Persister P}.
Context (pick : gmap Z Result → Z) (maxp : Z).
Implicit Types (f : Front P) (y : System P) (w : World P) (r : Raft P) (s : Server).

(** The answer made from what [submitOperation] returned. *)
Definition call_end (q : kv_call) (res : Result) (err : option kv_error) r : Response :=
  match q with
  | CGet _ => Get_end res err r
  | CPut _ _ => Put_end res err r
  | CAppend _ _ => Append_end res err r
  end.

(** [submitOperation] has returned [(res, err)]. *)
Definition return_call (time : nat) (res : Result) (err : option kv_error) r (c : call) : call :=
  c <| cPhase := Returned (res, err) (call_end (cRequest c) res err r) time |>.

(** A new call: the answer of the handler that does not lead, of the duplicate
    cache, of [ReplicateCommand] that fails, or the index it waits for. *)
Definition start_call (time : nat) (n now : Z) (q : kv_call) s r : call :=
  let c := mkCall n q None time false Gone in
  match call_begin q r with
  | inr resp => c <| cPhase := Returned (mkResult "" None, Some KErrNotLeader) resp time |>
  | inl op =>
    match submitOperation_begin now op s with
    | (_, SubmitReturn res err) => return_call time res err r c
    | (_, SubmitReplicate data) =>
      match ReplicateCommand_begin data r with
      | (_, Ret (idx, _)) =>
          c <| cEntry := Some (idx, currentTerm r) |> <| cPhase := Replicating |>
      | (r, Fail err) =>
          return_call time (mkResult "" None) (Some (submitOperation_failed err)) r c
      | (_, Panic) => c
      end
    end
  end.

(** The handlers of a process that has ended are gone. *)
Definition cut w (c : call) : call :=
  if (negb (finished c) && bool_decide (nodes w !! cNode c = None))%bool
  then c <| cPhase := Gone |> else c.

Definition set_call (j : nat) (c : call) f : Front P := f <| calls := <[j := c]> (calls f) |>.

Definition front_act (ev : front_event) f : option (Front P) :=
  match ev with
  | FSys e =>
      if by_handler e then None
      else y ← sys_step pick maxp e (sys f); Some (mkFront y (cut (world y) <$> calls f) (clock f))
  | FCall n now q =>
      r ← nodes (world (sys f)) !! n; h ← hosts (sys f) !! n;
      y ← sys_step pick maxp (SCall n now q) (sys f);
      Some (mkFront y (calls f ++ [start_call (clock f) n now q (server h) r]) (clock f))
  | FReplicated j ev =>
      c ← calls f !! j; r ← nodes (world (sys f)) !! cNode c;
      match cPhase c, cEntry c with
      | Replicating, Some (idx, term) =>
          '(_, err) ← ReplicateCommand_wait idx ev r;
          Some (set_call j
            match err with
            | Some e => return_call (clock f) (mkResult "" None) (Some (submitOperation_failed e)) r c
            | None =>
                c <| cHeld := (state_eqb (state r) Leader && (currentTerm r =? term))%bool |>
                  <| cPhase := Registering |>
            end f)
      | _, _ => None
      end
  | FRegister j =>
      c ← calls f !! j; r ← nodes (world (sys f)) !! cNode c; h ← hosts (sys f) !! cNode c;
      match cPhase c, cEntry c with
      | Registering, Some (idx, _) =>
          y ← sys_step pick maxp (SRegister (cNode c) idx (call_op (cRequest c))) (sys f);
          Some (set_call j
            match snd (submitOperation_register idx (call_op (cRequest c)) (server h)) with
            | RegisterReturn res err => return_call (clock f) res err r c
            | RegisterWait ch => c <| cPhase := Waiting ch |>
            end (f <| sys := y |>))
      | _, _ => None
      end
  | FWait j ev =>
      c ← calls f !! j; r ← nodes (world (sys f)) !! cNode c; h ← hosts (sys f) !! cNode c;
      match cPhase c, cEntry c with
      | Waiting ch, Some (idx, _) =>
          y ← sys_step pick maxp (SWait (cNode c) idx ch ev) (sys f);
          '(_, (res, err)) ← submitOperation_wait idx ch ev (server h);
          Some (set_call j (return_call (clock f) res err r c) (f <| sys := y |>))
      | _, _ => None
      end
  end.

(** Every event takes one unit of time. *)
Definition front_step (ev : front_event) f : option (Front P) :=
  f ← front_act ev f; Some (f <| clock := S (clock f) |>).

Fixpoint front_run (es : list front_event) f : option (Front P) :=
  match es with
  | [] => Some f
  | e :: es => f ← front_step e f; front_run es f
  end.

Definition front_boot (rnd : Z) (cfgs : gmap Z (Config P)) : Front P :=
  mkFront (sys_boot maxp rnd cfgs) [] 0.

(** The side conditions are those of the system. *)
Definition front_steady_event f (ev : front_event) : bool :=
  match ev with
  | FSys e => sys_steady_event (sys f) e
  | FCall n now q => sys_steady_event (sys f) (SCall n now q)
  | _ => true
  end.

Fixpoint front_steady_run (es : list front_event) f : bool :=
  match es with
  | [] => true
  | e :: es => front_steady_event f e &&
      match front_step e f with Some f' => front_steady_run es f' | None => true end
  end.
End calls.

(** ** The specification: a map, one call at a time *)

(** Keys and values go through JSON, which replaces what is not UTF-8. *)
Definition spec (q : kv_call) (m : gmap string string) : gmap string string * Response :=
  let ok := mkResponse true "" false 0 "" in
  match q with
  | CGet key =>
      (m, match m !! ToValidUTF8 key with
          | Some value => mkResponse true value false 0 ""
          | None => mkResponse false "" false 0 "key not found"
          end)
  | CPut key value => (<[ToValidUTF8 key := ToValidUTF8 value]> m, ok)
  | CAppend key value =>
      (<[ToValidUTF8 key := default "" (m !! ToValidUTF8 key) +:+ ToValidUTF8 value]> m, ok)
  end.

(** The map after the requests [qs]. *)
Definition replay (qs : list kv_call) : gmap string string := foldl (λ m q, fst (spec q m)) ∅ qs.

(** The requests of the calls [js]. *)
Definition requests (cs : list call) (js : list nat) : list kv_call :=
  omap (λ j, cRequest <$> cs !! j) js.

(** The call has returned a result, not an error of [submitOperation]. *)
Definition answered (c : call) : bool :=
  match cPhase c with Returned (_, None) _ _ => true | _ => false end.

(** ... and its node led the term of its entry when it found the entry
    committed. *)
Definition confirmed (c : call) : bool := (cHeld c && answered c)%bool.

Definition answer_of (c : call) : option Response :=
  match cPhase c with Returned _ resp _ => Some resp | _ => None end.

(** [c] was over before [c'] began. *)
Definition precedes (c c' : call) : bool :=
  match cPhase c with Returned _ _ time => bool_decide (time < cBegun c')%nat | _ => false end.

(** [order] explains the calls [cs] by the specification: it is a sequence of
    calls that were made, none of them twice, with every confirmed call among
    them and no call that was sent on to another leader; a call in the order that
    returned a result was answered as the specification does when the calls before
    it have been carried out, and comes before the calls that began when it was
    over. *)
Record explains (cs : list call) (order : list nat) : Prop := mkExplains {
  ex_once : NoDup order;
  ex_made j : j ∈ order → is_Some (cs !! j);
  ex_confirmed j c : cs !! j = Some c → confirmed c = true → j ∈ order;
  ex_refused j c resp : cs !! j = Some c → answer_of c = Some resp → WrongLeader resp = true → j ∉ order;
  ex_answer p j c : order !! p = Some j → cs !! j = Some c → answered c = true →
    answer_of c = Some (snd (spec (cRequest c) (replay (requests cs (take p order)))));
  ex_time p p' j j' c c' : order !! p = Some j → order !! p' = Some j' → cs !! j = Some c → cs !! j' = Some c' →
    answered c = true → precedes c c' = true → (p < p')%nat
}.
