(* ===== verification/Linearizability.v ===== *)
(** * The system is linearizable

    What clients see of the whole system, crashes and snapshots included.  The
    answers of confirmed calls (those whose node still led when it found the
    entry committed) are the answers of a map that serves one call at a time, in
    an order that respects the order of the calls in time.

    - [heard]: the results a server keeps for its handlers, in [recent] and in
      the result channels, are those of the commands at their indices.
    - [placed], [fixed], [passed]: what the protocol state says about the entry of
      a call; all three stay true as the protocol goes on.
    - [front_inv]: the invariant of the calls.
    - [linearizable]: the theorem. *)

From S2P Require Import Prelude Types Text Json KvCodec Persister Node Election Replication Snapshot Cluster.
From S2P Require Import ElectionSafety Protocol LogFrames ClusterRefinement ClusterSafety NodeInvariant.
From S2P Require Import Turns Delivery Provenance Kv KvFacts System Calls.

(** ** The way of a result to its handler *)

Section routing.
Context (pick : gmap Z Result → Z).
Implicit Types (s : Server) (O : Z → Result → Prop) (W : Z → nat → Prop).

(** [O idx res]: the command at [idx] gives [res].  [W idx ch]: a handler waits
    for the result of [idx] on channel [ch]. *)
Record heard O W s : Prop := mkHeard {
  hd_recent idx res : recent s !! idx = Some res → O idx res;
  hd_chan idx ch res : W idx ch → chans s !! ch = Some (Some res) → O idx res;
  hd_made idx ch : W idx ch → (ch < nextCh s)%nat;
  hd_waiter idx op : pendingOps s !! idx = Some op →
    (ResultCh op < nextCh s)%nat ∧ ∀ i, W i (ResultCh op) → i = idx
}.

Lemma heard_mono O O' W W' s : (∀ i res, O i res → O' i res) → (∀ i ch, W' i ch → W i ch) →
  heard O W s → heard O' W' s.
Proof.
  intros HO HW [H1 H2 H3 H4]. split; [eauto..|]. intros idx op Hop. destruct (H4 idx op Hop). auto.
Qed.

Lemma heard_same O W s s' : recent s' = recent s → chans s' = chans s → nextCh s' = nextCh s →
  pendingOps s' = pendingOps s → heard O W s → heard O W s'.
Proof. intros E1 E2 E3 E4 [H1 H2 H3 H4]. split; rewrite ?E1, ?E2, ?E3, ?E4; auto. Qed.

Lemma heard_new O W maxp : (∀ i ch, ¬ W i ch) → heard O W (NewServer maxp).
Proof. intros HW. split; cbn; [done|by intros ??? ?%HW|by intros ?? ?%HW|done]. Qed.

Lemma evict_recent_sub fuel cap m : evict_recent pick fuel cap m ⊆ m.
Proof.
  revert m. induction fuel as [|fuel IH]; intros m; cbn; [done|]. branch; [|done].
  etrans; [apply IH|apply delete_subseteq].
Qed.

(** The apply loop delivers the result of [idx]. *)
Lemma heard_notify O W idx res s : O idx res → heard O W s → heard O W (notifyWaiter pick idx res s).
Proof.
  intros HO [H1 H2 H3 H4]. unfold notifyWaiter. destruct (pendingOps s !! idx) as [op|] eqn:Hop.
  - destruct (H4 idx op Hop) as [_ Hmine]. unfold try_send. cbn.
    assert (∀ i a, delete idx (pendingOps s) !! i = Some a → pendingOps s !! i = Some a) as Hd
      by (intros i a; rewrite lookup_delete_Some; tauto).
    destruct (chans s !! ResultCh op) as [[old|]|] eqn:Hch; [by split; cbn; auto| |by split; cbn; auto].
    split; cbn; [done| |done|auto].
    intros i ch r Hi [[<- [= <-]]|[_ ?]]%lookup_insert_Some; [|eauto]. by rewrite (Hmine i Hi).
  - split; cbn; auto. intros i r Hi. pose proof (lookup_weaken _ _ _ _ Hi (evict_recent_sub _ _ _)) as Hin.
    apply lookup_insert_Some in Hin as [[<- <-]|[_ ?]]; auto.
Qed.

(** A handler enters its waiter. *)
Lemma heard_register O W idx op s : heard O W s →
  let '(s', a) := submitOperation_register idx op s in
  match a with
  | RegisterReturn res None => heard O W s' ∧ O idx res
  | RegisterReturn _ (Some _) => heard O W s'
  | RegisterWait ch => heard O (λ i c, W i c ∨ i = idx ∧ c = ch) s'
  end.
Proof.
  intros [H1 H2 H3 H4]. unfold submitOperation_register. cbn.
  set (ch := nextCh s).
  assert (∀ i c r, W i c → <[ch := None]> (chans s) !! c = Some (Some r) → O i r) as H2'
    by (intros i c r Hi [[_ ?]|[_ ?]]%lookup_insert_Some; [done|eauto]).
  assert (∀ i c, W i c → (c < S ch)%nat) as H3' by (intros i c ?%H3; lia).
  assert (∀ i a, pendingOps s !! i = Some a → (ResultCh a < S ch)%nat ∧ ∀ i', W i' (ResultCh a) → i' = i) as H4'
    by (intros i a [? ?]%H4; split; [lia|done]).
  assert (∀ i a, <[idx := mkPendingOp idx op ch]> (pendingOps s) !! i = Some a →
    (ResultCh a < S ch)%nat ∧ ∀ i', W i' (ResultCh a) → i' = i) as H4''.
  { intros i a [[<- <-]|[_ ?]]%lookup_insert_Some; [|auto]. cbn. split; [lia|].
    intros i' Hi'%H3. subst ch. lia. }
  branch; [by split|]. branch; [by split|].
  destruct (recent s !! idx) as [res|] eqn:Hre.
  - split; [|auto]. split; cbn; auto. intros i r [_ ?]%lookup_delete_Some. auto.
  - split; cbn.
    + done.
    + intros i c r [Hi|[-> ->]]; [by apply H2'|]. by rewrite lookup_insert_eq.
    + intros i c [?|[-> ->]]; [eauto|lia].
    + intros i a Ha. destruct (H4'' i a Ha) as [? Hw]. split; [done|]. intros i' [?|[-> E]]; [auto|].
      apply lookup_insert_Some in Ha as [[? _]|[_ Ha]]; [done|]. destruct (H4 i a Ha). subst ch. lia.
Qed.

(** The wait of a handler ends. *)
Lemma heard_wait O W idx ch ev s s' res err : heard O W s → W idx ch →
  submitOperation_wait idx ch ev s = Some (s', (res, err)) → heard O W s' ∧ (err = None → O idx res).
Proof.
  intros [H1 H2 H3 H4] Hw. destruct ev; cbn.
  - destruct (chans s !! ch) as [[r|]|] eqn:Hch; try done. intros [= <- <- <-]. split; [|eauto].
    split; cbn; auto. intros i c a Hi [[_ ?]|[_ ?]]%lookup_insert_Some; [done|eauto].
  - intros [= <- <- <-]. split; [|done]. split; cbn; auto. intros i a [_ ?]%lookup_delete_Some. auto.
  - destruct (dead s); [|done]. by intros [= <- <- <-].
Qed.
End routing.

(** ** What the protocol says about a call *)

Section invariant.
Context {P : Type} `{PL : PersisterLaws P}.
Context (ids : gset Z) (cfgs : gmap Z (Config P)) (Hok : cluster_ok ids cfgs).
Context (Hodd : Z.odd (Z.of_nat (size ids)) = true).
Context (pick : gmap Z Result → Z) (maxp : Z).
Implicit Types (f : Front P) (y : System P) (w : World P) (r : Raft P) (s : Server) (h : Proto).
Implicit Types (c : call) (cs : list call) (idx T : Z) (e : LogEntry).

(** The result of the committed command at [idx]. *)
Definition outcome h idx (res : Result) : Prop :=
  ∃ l cmd op, history ids h (l ++ [cmd]) ∧ len l + 1 = idx ∧ deserializeCommand cmd = inl op ∧
    res = snd (exec op (map_of l)).

(** The committed entry at [idx] is [e]. *)
Definition decided h idx e : Prop :=
  ∃ T k, committed ids h T k ∧ (Z.to_nat (idx - 1) ≤ k)%nat ∧ reign_log h T !! Z.to_nat (idx - 1) = Some e.

(** The entry of term [T] at [idx] is committed; another one is. *)
Definition fixed h idx T : Prop := ∃ e, decided h idx e ∧ eTerm e = T.
Definition passed h idx T : Prop := ∃ e, decided h idx e ∧ eTerm e ≠ T.

(** The leader of term [T] has written request [q] at [idx]. *)
Definition placed h (q : kv_call) idx T : Prop :=
  1 ≤ idx ∧ ∃ e, reign_log h T !! Z.to_nat (idx - 1) = Some e ∧ eTerm e = T ∧
    serializeCommand (call_op q) = inl (eCommand e).

(** Every entry was written for a call. *)
Definition listed cs (i : nat) e : Prop :=
  ∃ j c, cs !! j = Some c ∧ cEntry c = Some (Z.of_nat i + 1, eTerm e) ∧
    serializeCommand (call_op (cRequest c)) = inl (eCommand e).

Section grow.
Context (h h' : Proto) (Hg : grows h h').

Lemma reign_log_grows T i e : reign_log h T !! i = Some e → reign_log h' T !! i = Some e.
Proof. destruct (grows_reign_log h h' Hg T) as [z ->]. apply lookup_app_l_Some. Qed.

Lemma outcome_grows idx res : outcome h idx res → outcome h' idx res.
Proof. intros (l & cmd & op & ? & ?). exists l, cmd, op. split; [by eapply history_grows|done]. Qed.

Lemma decided_grows idx e : decided h idx e → decided h' idx e.
Proof.
  intros (T & k & ? & ? & ?). exists T, k. split_and!; auto using reign_log_grows.
  by apply (committed_grows ids h h').
Qed.

Lemma fixed_grows idx T : fixed h idx T → fixed h' idx T.
Proof. intros (e & ? & ?). exists e. auto using decided_grows. Qed.

Lemma passed_grows idx T : passed h idx T → passed h' idx T.
Proof. intros (e & ? & ?). exists e. auto using decided_grows. Qed.

Lemma placed_grows q idx T : placed h q idx T → placed h' q idx T.
Proof. intros (? & e & ? & ?). split; [done|]. exists e. auto using reign_log_grows. Qed.
End grow.

Lemma decided_unique h idx e e' : pinv ids h → decided h idx e → decided h idx e' → e = e'.
Proof.
  intros Hp (T & k & ? & ? & ?) (T' & k' & ? & ? & ?).
  by apply (committed_unique ids h T k T' k' (Z.to_nat (idx - 1)) e e').
Qed.

Lemma decided_log h L idx e : whole ids h L → decided h idx e → L !! Z.to_nat (idx - 1) = Some e.
Proof. intros HL (T & k & ? & ? & ?). by eapply whole_lookup. Qed.

(** Everything up to the index of a result is committed. *)
Lemma outcome_decided h idx res i : outcome h idx res → 1 ≤ i ≤ idx → ∃ e, decided h i e.
Proof.
  intros (l & cmd & op & Hl & Hlen & _) Hi. unfold len in Hlen.
  destruct (lookup_lt_is_Some_2 (l ++ [cmd]) (Z.to_nat (i - 1))) as [x Hx].
  { rewrite length_app. cbn. lia. }
  destruct (Hl _ _ Hx) as (T & k & e & ? & ? & ? & _). exists e, T, k. auto.
Qed.

(** What is still to be written at the end of a leader's log is not what is
    committed there. *)
Lemma unwritten_passed h idx T g e : pinv ids h → reigns h !! T = Some g →
  Z.to_nat (idx - 1) = length (gLog g) → decided h idx e → eTerm e ≠ T.
Proof.
  intros Hp Hg Hlen (T0 & k & _ & _ & He) <-. unfold reign_log in He.
  destruct (reigns h !! T0) as [g0|] eqn:Hg0; [|done]. cbn in He.
  destruct (matches_reign ids h Hp T0 g0 Hg0 _ _ He) as (g' & Hg' & Hpre%prefix_length).
  rewrite Hg in Hg'. injection Hg' as <-. apply lookup_lt_Some in He. rewrite length_take in Hpre. lia.
Qed.

(** ** The invariant *)

(** A handler on node [n] waits for the result of [idx] on [ch]. *)
Definition waits cs (n idx : Z) (ch : nat) : Prop :=
  ∃ j c T, cs !! j = Some c ∧ cNode c = n ∧ cPhase c = Waiting ch ∧ cEntry c = Some (idx, T).

Record call_inv h w (t : nat) c : Prop := mkCallInv {
  ci_entry idx T : cEntry c = Some (idx, T) → placed h (cRequest c) idx T;
  ci_held : cHeld c = true → ∃ idx T, cEntry c = Some (idx, T) ∧ fixed h idx T;
  ci_result res resp time : cPhase c = Returned (res, None) resp time →
    ∃ idx T, cEntry c = Some (idx, T) ∧ outcome h idx res ∧ ∃ r, resp = call_end (cRequest c) res None r;
  ci_refused out resp time : cPhase c = Returned out resp time → WrongLeader resp = true → cEntry c = None;
  ci_time : (cBegun c < t)%nat;
  ci_up : finished c = false → is_Some (nodes w !! cNode c)
}.

Record front_inv f h : Prop := mkFrontInv {
  fi_sys : sys_inv ids cfgs (sys f) h;
  fi_call j c : calls f !! j = Some c → call_inv h (world (sys f)) (clock f) c;
  fi_heard n x : hosts (sys f) !! n = Some x → heard (outcome h) (waits (calls f) n) (server x);
  fi_distinct j j' c c' a : calls f !! j = Some c → calls f !! j' = Some c' →
    cEntry c = Some a → cEntry c' = Some a → j = j';
  fi_order j j' c c' out resp time idx T idx' T' : calls f !! j = Some c → calls f !! j' = Some c' →
    cPhase c = Returned (out, None) resp time → (time < cBegun c')%nat →
    cEntry c = Some (idx, T) → cEntry c' = Some (idx', T') → idx < idx' ∨ passed h idx' T';
  fi_listed : attested (listed (calls f)) h
}.

Lemma call_inv_grows h h' w w' t t' c : grows h h' → (t ≤ t')%nat →
  (∀ n, is_Some (nodes w !! n) → is_Some (nodes w' !! n)) → call_inv h w t c → call_inv h' w' t' c.
Proof.
  intros Hg Ht Hw [H1 H2 H3 H6 H4 H5]. split; [| | |eauto|lia|auto].
  - intros idx T ?. eapply placed_grows; eauto.
  - intros (idx & T & ? & ?)%H2. eauto 6 using fixed_grows.
  - intros res resp time (idx & T & ? & ? & ?)%H3. eauto 8 using outcome_grows.
Qed.

(** *** A handler takes a step *)

Lemma call_end_here q res err r : err ≠ Some KErrNotLeader → WrongLeader (call_end q res err r) = false.
Proof.
  intros He. destruct err as [e|]; destruct q; cbn; unfold Get_end, Put_end, Append_end, Put_end, errorResponse;
    try (rewrite decide_False by congruence); try done. by destruct (rErr res).
Qed.

(** One call changes its phase, and the server of one node what concerns its
    handlers. *)
Lemma front_inv_set f h j c c' y : front_inv f h → calls f !! j = Some c → finished c = false →
  cEntry c' = cEntry c → cRequest c' = cRequest c → cBegun c' = cBegun c → cNode c' = cNode c →
  (cHeld c' = true → ∃ idx T, cEntry c = Some (idx, T) ∧ fixed h idx T) →
  (∀ out resp time, cPhase c' = Returned out resp time → time = clock f ∧ WrongLeader resp = false) →
  (∀ res resp time, cPhase c' = Returned (res, None) resp time →
    ∃ idx T, cEntry c = Some (idx, T) ∧ outcome h idx res ∧ ∃ r, resp = call_end (cRequest c) res None r) →
  sys_inv ids cfgs y h → nodes (world y) = nodes (world (sys f)) →
  (∀ n x, hosts y !! n = Some x → heard (outcome h) (waits (<[j := c']> (calls f)) n) (server x)) →
  front_inv (mkFront y (<[j := c']> (calls f)) (S (clock f))) h.
Proof.
  intros [Hs Hc Hh Hd Ho Hl] Hj Hfin E1 E2 E3 E4 Hheld Htime Hres Hy Hw Hhd.
  pose proof (Hc j c Hj) as [H1 H2 H3 _ H4 H5].
  assert (∀ i a, <[j := c']> (calls f) !! i = Some a → ∃ b, calls f !! i = Some b ∧ cEntry b = cEntry a ∧
    cBegun b = cBegun a ∧ (i = j ∧ a = c' ∨ a = b)) as Hold.
  { intros i a [(<- & <- & _)|[_ ?]]%list_lookup_insert_Some; eauto 10. }
  split; cbn; auto.
  - intros i a [(<- & <- & _)|[_ Ha]]%list_lookup_insert_Some.
    + split; rewrite ?E1, ?E2, ?E3, ?E4, ?Hw; auto. intros ??? [_ ->]%Htime. done.
    + eapply call_inv_grows; [reflexivity| | |by eapply Hc]; [lia|]. by rewrite Hw.
  - intros i i' a a' x Ha Ha' Hx Hx'. destruct (Hold i a Ha) as (b & ? & Eb & _), (Hold i' a' Ha') as (b' & ? & Eb' & _).
    apply (Hd i i' b b' x); congruence.
  - intros i i' a a' out resp time idx T idx' T' Ha Ha' Hp Ht Hx Hx'.
    destruct (Hold i a Ha) as (b & Hb & Eb & _ & Hcase), (Hold i' a' Ha') as (b' & Hb' & Eb' & Et & _).
    destruct Hcase as [[_ ->]| ->].
    + apply Htime in Hp as [-> _]. pose proof (ci_time _ _ _ _ (Hc i' b' Hb')). lia.
    + eapply (Ho i i' b b'); eauto; congruence.
  - intros T i e He. destruct (Hl T i e He) as (i' & b & Hb & Hx & Hser).
    destruct (decide (i' = j)) as [->|Hne].
    + rewrite Hj in Hb. injection Hb as <-. exists j, c'. rewrite E1, E2.
      rewrite list_lookup_insert_eq by (by eapply lookup_lt_Some). auto.
    + exists i', b. by rewrite list_lookup_insert_ne by done.
Qed.

(** A call that does not wait stops nobody else. *)
Lemma waits_set cs j c c' n idx ch : cs !! j = Some c → waits (<[j := c']> cs) n idx ch →
  waits cs n idx ch ∨ cNode c' = n ∧ cPhase c' = Waiting ch ∧ ∃ T, cEntry c' = Some (idx, T).
Proof.
  intros Hj (i & a & T & [(<- & <- & _)|[_ Ha]]%list_lookup_insert_Some & Hn & Hp & He); [right; eauto|].
  left. exists i, a, T. auto.
Qed.

Lemma leader_fixed w h n r q idx T : sim ids cfgs true true w h → nodes w !! n = Some r →
  state r = Leader → currentTerm r = T → idx ≤ commitIndex r → placed h q idx T → fixed h idx T.
Proof.
  intros Hs Hn Hst <- Hc (Hi & e & He & Ht & _). exists e. split; [|done].
  destruct (si_up _ _ _ _ _ _ Hs n r Hn) as (x & Hx & [Hxt Hxr _ Hxc]). specialize (Hxc eq_refl).
  destruct (pi_lead _ _ (si_pinv _ _ _ _ _ _ Hs) n x Hx) as (g & Hg & _ & Hgl); [congruence|].
  rewrite Hxt in Hg. rewrite (reign_log_Some _ _ _ Hg), Hgl in He.
  destruct (pi_commit _ _ (si_pinv _ _ _ _ _ _ Hs) n x Hx) as [_ Hce].
  destruct (certified_entry ids h _ _ _ (Z.to_nat (idx - 1)) e Hce) as (T1 & k & ? & ? & ?); [lia|done|].
  exists T1, k. auto.
Qed.

Lemma front_replicated f h j ev f' : front_inv f h → front_step pick maxp (FReplicated j ev) f = Some f' →
  front_inv f' h.
Proof.
  intros Hi Hst. unfold front_step in Hst. cbn [front_act] in Hst.
  destruct (calls f !! j) as [c|] eqn:Hj; [|done]. cbn [mbind option_bind] in Hst.
  destruct (nodes (world (sys f)) !! cNode c) as [r|] eqn:Hn; [|done]. cbn [mbind option_bind] in Hst.
  destruct (cPhase c) eqn:Hp; try done. destruct (cEntry c) as [[idx T]|] eqn:He; [|done].
  destruct (ReplicateCommand_wait idx ev r) as [[i err]|] eqn:Hw; [|done]. cbn [mbind option_bind] in Hst.
  injection Hst as <-. pose proof (ci_entry _ _ _ _ (fi_call _ _ Hi j c Hj) idx T He) as Hpl.
  assert (finished c = false) as Hfin by (unfold finished; by rewrite Hp).
  assert (∀ c' n x, hosts (sys f) !! n = Some x → (∀ ch, cPhase c' ≠ Waiting ch) →
    heard (outcome h) (waits (<[j := c']> (calls f)) n) (server x)) as Hhd.
  { intros c' n x Hx Hnw. eapply heard_mono; [done| |by apply (fi_heard _ _ Hi n)].
    intros i' ch [?|(_ & E & _)]%(waits_set _ _ _ _ _ _ _ Hj); [done|by destruct (Hnw ch)]. }
  destruct err as [e|].
  - eapply (front_inv_set f h j c); eauto; cbn; try done; [apply (fi_call _ _ Hi j c Hj)| |apply Hi].
    intros ??? [= <- <- <-]. split; [done|]. apply call_end_here. unfold ReplicateCommand_wait in Hw.
    by destruct ev; [|destruct (shutdown r); [|destruct (idx <=? commitIndex r)]|]; simplify_eq.
  - eapply (front_inv_set f h j c); eauto; cbn; try done; [|apply Hi].
    intros [Hs%state_eqb_true Ht%Z.eqb_eq]%andb_true_iff. exists idx, T. split; [done|].
    eapply leader_fixed; eauto; [by apply Hi|]. unfold ReplicateCommand_wait in Hw.
    destruct ev; [done| |done]. destruct (shutdown r); [done|].
    by destruct (Z.leb_spec idx (commitIndex r)).
Qed.

(** A handler talks to its server. *)
Lemma front_serve f h j c c' x s : front_inv f h → calls f !! j = Some c → finished c = false →
  hosts (sys f) !! cNode c = Some x → kvState s = kvState (server x) →
  kvLastApplied s = kvLastApplied (server x) → duplicates s = duplicates (server x) →
  cEntry c' = cEntry c → cRequest c' = cRequest c → cBegun c' = cBegun c → cNode c' = cNode c →
  cHeld c' = cHeld c →
  (∀ out resp time, cPhase c' = Returned out resp time → time = clock f ∧ WrongLeader resp = false) →
  (∀ res resp time, cPhase c' = Returned (res, None) resp time →
    ∃ idx T, cEntry c = Some (idx, T) ∧ outcome h idx res ∧ ∃ r, resp = call_end (cRequest c) res None r) →
  heard (outcome h) (waits (<[j := c']> (calls f)) (cNode c)) s →
  front_inv (mkFront (set_server (cNode c) s (snapshotting x) (sys f)) (<[j := c']> (calls f)) (S (clock f))) h.
Proof.
  intros Hi Hj Hfin Hx H1 H2 H3 E1 E2 E3 E4 E5 Ht Hr Hhd.
  eapply (front_inv_set f h j c); eauto.
  - rewrite E5. apply (fi_call _ _ Hi j c Hj).
  - eapply sys_inv_server; eauto. apply Hi.
  - cbn. intros n z [[<- <-]|[Hne Hz]]%lookup_insert_Some; [done|].
    eapply heard_mono; [done| |by apply (fi_heard _ _ Hi n)].
    intros i ch [?|(E & _)]%(waits_set _ _ _ _ _ _ _ Hj); [done|congruence].
Qed.

Lemma front_register f h j f' : front_inv f h → front_step pick maxp (FRegister j) f = Some f' →
  front_inv f' h.
Proof.
  intros Hi Hst. unfold front_step in Hst. cbn [front_act] in Hst.
  destruct (calls f !! j) as [c|] eqn:Hj; [|done]. cbn [mbind option_bind] in Hst.
  destruct (nodes (world (sys f)) !! cNode c) as [r|] eqn:Hn; [|done]. cbn [mbind option_bind] in Hst.
  destruct (hosts (sys f) !! cNode c) as [x|] eqn:Hx; [|done]. cbn [mbind option_bind] in Hst.
  destruct (cPhase c) eqn:Hp; try done. destruct (cEntry c) as [[idx T]|] eqn:He; [|done].
  cbn [sys_step] in Hst. rewrite Hx in Hst. cbn [mbind option_bind] in Hst. injection Hst as <-.
  assert (finished c = false) as Hfin by (unfold finished; by rewrite Hp).
  set (op := call_op (cRequest c)).
  destruct (submitOperation_register_frame idx op (server x)) as (H1 & H2 & H3).
  pose proof (heard_register _ _ idx op (server x) (fi_heard _ _ Hi _ x Hx)) as Hreg.
  assert (∀ res err, snd (submitOperation_register idx op (server x)) = RegisterReturn res err →
    err ≠ Some KErrNotLeader) as Herr.
  { unfold submitOperation_register. intros res err. branch; [by intros [= _ <-]|]. branch; [by intros [= _ <-]|].
    cbn. destruct (recent (server x) !! idx); [by intros [= _ <-]|done]. }
  destruct (submitOperation_register idx op (server x)) as [s a]. cbn [fst snd] in *.
  apply (front_serve f h j c); auto; destruct a as [res [e|]|ch]; cbn; try done.
  - intros ??? [= <- <- <-]. split; [done|]. apply call_end_here. by eapply Herr.
  - intros ??? [= <- <- <-]. split; [done|]. by apply call_end_here.
  - intros ??? [= <- <- <-]. destruct Hreg as [_ ?]. exists idx, T. eauto.
  - eapply heard_mono; [done| |exact Hreg]. intros i ch [?|(_ & ? & _)]%(waits_set _ _ _ _ _ _ _ Hj); done.
  - eapply heard_mono; [done| |exact (proj1 Hreg)].
    intros i ch [?|(_ & ? & _)]%(waits_set _ _ _ _ _ _ _ Hj); done.
  - eapply heard_mono; [done| |exact Hreg].
    intros i c0 [?|(_ & [= <-] & T' & E)]%(waits_set _ _ _ _ _ _ _ Hj); [by left|right].
    cbn in E. split; [congruence|done].
Qed.

Lemma front_wait f h j ev f' : front_inv f h → front_step pick maxp (FWait j ev) f = Some f' →
  front_inv f' h.
Proof.
  intros Hi Hst. unfold front_step in Hst. cbn [front_act] in Hst.
  destruct (calls f !! j) as [c|] eqn:Hj; [|done]. cbn [mbind option_bind] in Hst.
  destruct (nodes (world (sys f)) !! cNode c) as [r|] eqn:Hn; [|done]. cbn [mbind option_bind] in Hst.
  destruct (hosts (sys f) !! cNode c) as [x|] eqn:Hx; [|done]. cbn [mbind option_bind] in Hst.
  destruct (cPhase c) as [| |ch| |] eqn:Hp; try done. destruct (cEntry c) as [[idx T]|] eqn:He; [|done].
  cbn [sys_step] in Hst. rewrite Hx in Hst. cbn [mbind option_bind] in Hst.
  destruct (submitOperation_wait idx ch ev (server x)) as [[s [res err]]|] eqn:Hw; [|done].
  cbn in Hst. injection Hst as <-.
  assert (finished c = false) as Hfin by (unfold finished; by rewrite Hp).
  destruct (submitOperation_wait_frame _ _ _ _ _ _ Hw) as (H1 & H2 & H3).
  destruct (heard_wait _ _ idx ch ev (server x) s res err (fi_heard _ _ Hi _ x Hx)) as [Hh Ho];
    [by exists j, c, T|done|].
  apply (front_serve f h j c); auto; cbn.
  - intros ??? [= <- <- <-]. split; [done|]. apply call_end_here. destruct ev; cbn in Hw.
    + by destruct (chans (server x) !! ch) as [[?|]|]; simplify_eq.
    + by simplify_eq.
    + by destruct (dead (server x)); simplify_eq.
  - intros ??? [= <- -> <- <-]. exists idx, T. eauto.
  - eapply heard_mono; [done| |exact Hh]. intros i c0 [?|(_ & ? & _)]%(waits_set _ _ _ _ _ _ _ Hj); done.
Qed.

(** *** The system takes a step *)

Lemma receive_hears h O W now msg s p' : due ids h s msg p' → (∀ idx res, outcome h idx res → O idx res) →
  heard O W s → heard O W (fst (processApplyMsg_begin pick now msg s)).
Proof.
  intros [(l & Hl & Hlen & _ & Hst & Hca) Hag [Hcmd Hsnap] Hs] HO Hh. cbn in Hs.
  destruct Hs as [[E <-]|(d & i & t & -> & _ & <-)].
  - destruct (Hcmd ltac:(by rewrite E)) as (op & Hd & Hc & Hq & _).
    rewrite E in Hag |- *. unfold processApplyMsg_begin. cbn [SnapshotValid CommandValid amCommand command_msg negb].
    rewrite Hd, Hc. cbn [negb Z.eqb andb]. destruct (apply_section_quiet now (kvLastApplied s + 1) op s) as (Ea & Eb & Ec & Ed).
    pose proof (apply_section_spec now (kvLastApplied s + 1) op s) as Ha.
    cbn [CommandIndex command_msg]. destruct (apply_section _ _ _ _) as [s1 res]. cbn [fst] in *.
    apply heard_notify; [|by apply (heard_same O W s)]. apply HO. exists l, (amCommand msg), op.
    split_and!; [|lia|done|by rewrite <- Hst; apply Ha].
    apply (history_snoc ids); [done|]. by rewrite Hlen.
  - destruct (Hsnap eq_refl) as (l' & _ & _ & _ & Hd). cbn in Hd.
    unfold processApplyMsg_begin. cbn [SnapshotValid snapshot_msg fst]. unfold handleSnapshotMsg.
    cbn [SnapshotData snapshot_msg]. rewrite Hd. destruct Hh as [H1 H2 H3 H4]. by split; cbn.
Qed.

Lemma takeSnapshot_hears O W now s r : heard O W s → heard O W (fst (takeSnapshot now s r)).
Proof.
  intros Hh. unfold takeSnapshot. branch; [done|]. branch; [done|].
  destruct (serializeSnapshot _ _ _); [|done]. destruct (Snapshot _ _ _) as [? [?|]]; [done|].
  by apply (heard_same O W s).
Qed.

Lemma waits_cut w cs n idx ch : waits (cut w <$> cs) n idx ch → waits cs n idx ch.
Proof.
  intros (j & c & T & Hj & Hn & Hp & He). rewrite list_lookup_fmap in Hj.
  apply fmap_Some in Hj as (a & Ha & ->). exists j, a, T. unfold cut in *. by destruct (_ && _)%bool.
Qed.

Lemma sys_hears f h h' (e : sys_event) y n x : front_inv f h → grows h h' → by_handler e = false →
  sys_step pick maxp e (sys f) = Some y → hosts y !! n = Some x →
  heard (outcome h') (waits (calls f) n) (server x).
Proof.
  intros Hi Hg Hby Hst Hx.
  assert (∀ z, hosts (sys f) !! n = Some z → heard (outcome h') (waits (calls f) n) (server z)) as Hold.
  { intros z Hz. eapply heard_mono; [|done|by apply (fi_heard _ _ Hi n)]. intros. by eapply outcome_grows. }
  destruct e as [e| | | |m now|m now]; try done; cbn [sys_step] in Hst.
  - destruct (by_server e); [done|]. destruct (step e (world (sys f))) as [w|] eqn:Hw; [|done].
    injection Hst as <-. cbn in Hx. apply map_lookup_filter_Some in Hx as [Hx _].
    destruct e as [| | | | | | | | |m rnd]; auto. apply lookup_insert_Some in Hx as [[<- <-]|[_ Hx]]; [|auto].
    apply heard_new. intros i ch (j & c & T & Hj & Hn & Hp & _).
    destruct (ci_up _ _ _ _ (fi_call _ _ Hi j c Hj)) as [r Hr]; [unfold finished; by rewrite Hp|].
    cbn in Hw. apply restart_inv in Hw as (r0 & r1 & Hres). pose proof (re_old _ _ _ _ _ _ Hres) as Hd.
    apply (fd_idle _ _ (sy_fed _ _ _ _ (fi_sys _ _ Hi))) in Hd as [Hno _]. congruence.
  - destruct (nodes (world (sys f)) !! m) as [r|] eqn:Hn; [|done].
    destruct (hosts (sys f) !! m) as [z|] eqn:Hz; [|done]. cbn [mbind option_bind] in Hst.
    destruct (snapshotting z); [done|]. destruct (applyCh r) as [|msg chn] eqn:Hch; [done|].
    cbn [head mbind option_bind] in Hst.
    destruct (step (Consume m) (world (sys f))) as [w|]; [|done]. cbn [mbind option_bind] in Hst.
    destruct (sys_due ids cfgs (sys f) h m r z msg chn (fi_sys _ _ Hi) Hn Hz Hch) as (p' & Hdue & _).
    destruct (decide (n = m)) as [->|Hne].
    + pose proof (receive_hears h (outcome h') (waits (calls f) m) now msg (server z) p' Hdue
        (outcome_grows h h' Hg) (Hold z Hz)) as Hre.
      destruct (processApplyMsg_begin pick now msg (server z)) as [s b]. injection Hst as <-.
      cbn in Hx. rewrite lookup_insert_eq in Hx. by injection Hx as <-.
    + destruct (processApplyMsg_begin pick now msg (server z)) as [s b]. injection Hst as <-.
      cbn in Hx. rewrite lookup_insert_ne in Hx by done. auto.
  - destruct (nodes (world (sys f)) !! m) as [r|] eqn:Hn; [|done].
    destruct (hosts (sys f) !! m) as [z|] eqn:Hz; [|done]. cbn [mbind option_bind] in Hst.
    destruct (snapshotting z); [|done].
    pose proof (takeSnapshot_hears (outcome h') (waits (calls f) n) now (server z) r) as Hts.
    destruct (takeSnapshot now (server z) r) as [s r']. injection Hst as <-. cbn in Hx.
    apply lookup_insert_Some in Hx as [[<- <-]|[_ Hx]]; auto.
Qed.

Lemma attested_listed cs cs' h : (∀ i e, listed cs i e → listed cs' i e) →
  attested (listed cs) h → attested (listed cs') h.
Proof. intros Hl Ha T i e He. eauto. Qed.

(** A step of the rest of the system. *)
Lemma front_sys f h (e : sys_event) f' : front_inv f h → front_step pick maxp (FSys e) f = Some f' →
  front_steady_event f (FSys e) = true → ∃ h', rtc (pstep ids (λ _ _, False)) h h' ∧ front_inv f' h'.
Proof.
  intros Hi Hst Hsteady. unfold front_step in Hst. cbn [front_act] in Hst.
  destruct (by_handler e) eqn:Hby; [done|].
  destruct (sys_step pick maxp e (sys f)) as [y|] eqn:Hy; [|done]. cbn in Hst. injection Hst as <-.
  destruct (sys_inv_step ids cfgs Hok Hodd pick maxp (λ _ _, False) (sys f) h e y (fi_sys _ _ Hi) Hy Hsteady)
    as (h' & Hr & Hy'); [by intros n now q r op data x ->|].
  pose proof (si_pinv _ _ _ _ _ _ (sy_sim _ _ _ _ (fi_sys _ _ Hi))) as Hp.
  destruct (psteps_advance ids _ Hodd h h' Hp Hr) as (_ & Hg & _).
  exists h'. split; [done|].
  assert (∀ j c, (cut (world y) <$> calls f) !! j = Some c → ∃ b, calls f !! j = Some b ∧ c = cut (world y) b ∧
    cEntry c = cEntry b ∧ cBegun c = cBegun b ∧ cHeld c = cHeld b ∧ cRequest c = cRequest b ∧
    ∀ out resp time, cPhase c = Returned out resp time → cPhase b = Returned out resp time) as Hcut.
  { intros j c. rewrite list_lookup_fmap. intros (b & Hb & ->)%fmap_Some. exists b. unfold cut.
    by destruct (_ && _)%bool. }
  split; cbn.
  - done.
  - intros j c Hj. destruct (Hcut j c Hj) as (b & Hb & E & E1 & E2 & E3 & E4 & E5).
    pose proof (fi_call _ _ Hi j b Hb) as [H1 H2 H3 H6 H4 _]. split; rewrite ?E1, ?E2, ?E3, ?E4.
    + intros idx T ?. eapply placed_grows; eauto.
    + intros (idx & T & ? & ?)%H2. eauto 6 using fixed_grows.
    + intros res resp time (idx & T & ? & ? & ?)%E5%H3. eauto 8 using outcome_grows.
    + intros ??? ?%E5. eauto.
    + lia.
    + subst c. unfold cut. destruct (finished b) eqn:Hf; cbn; [by rewrite Hf|].
      case_bool_decide as Hn; [done|]. intros _. by apply not_eq_None_Some.
  - intros n x Hx. eapply heard_mono; [done| |by eapply (sys_hears f h h')]. intros i ch. apply waits_cut.
  - intros j j' c c' a Hj Hj' Ha Ha'.
    destruct (Hcut j c Hj) as (b & Hb & _ & E & _), (Hcut j' c' Hj') as (b' & Hb' & _ & E' & _).
    apply (fi_distinct _ _ Hi j j' b b' a); congruence.
  - intros j j' c c' out resp time idx T idx' T' Hj Hj' Hph Ht He He'.
    destruct (Hcut j c Hj) as (b & Hb & _ & E & _ & _ & _ & E5), (Hcut j' c' Hj') as (b' & Hb' & _ & E' & Eb & _).
    destruct (fi_order _ _ Hi j j' b b' out resp time idx T idx' T'); auto; [congruence..|].
    right. by eapply passed_grows.
  - apply (psteps_attested ids (λ _ _, False) Hodd _ h h'); [done..|].
    eapply attested_listed; [|apply (fi_listed _ _ Hi)]. intros i a (j & c & Hj & He & Hs).
    exists j, (cut (world y) c). rewrite list_lookup_fmap, Hj. split; [done|]. unfold cut. by destruct (_ && _)%bool.
Qed.

(** *** A client makes a call *)

Lemma call_begin_op q r op : call_begin q r = inl op → op = call_op q ∧ state r = Leader.
Proof.
  destruct q; cbn; unfold Get_begin, Put_begin, Append_begin, IsLeader;
    destruct (state_eqb (state r) Leader) eqn:Hs; try done; intros [= <-]; apply state_eqb_true in Hs; done.
Qed.

Lemma ReplicateCommand_leads cmd r x : snd (ReplicateCommand_begin cmd r) = Ret x → state r = Leader.
Proof.
  unfold ReplicateCommand_begin. destruct (state_eqb (state r) Leader) eqn:Hs; [|done].
  intros _. by apply state_eqb_true.
Qed.

Lemma ReplicateCommand_appends cmd r r' x : wf r → ReplicateCommand_begin cmd r = (r', Ret x) →
  x.1 = last_index r + 1 ∧ log r' = log r ++ [new_entry cmd r] ∧ logBase r' = logBase r ∧
  state r' = Leader ∧ currentTerm r' = currentTerm r.
Proof.
  intros Hw Hr. pose proof (ReplicateCommand_leads cmd r x) as Hl. rewrite Hr in Hl. specialize (Hl eq_refl).
  rewrite ReplicateCommand_begin_unfold in Hr by done. cbv zeta in Hr.
  destruct (Save _ _ _ _) as [p [e|]]; [done|]. injection Hr as <- <-.
  match goal with |- context [updateCommitIndex ?z] => destruct (updateCommitIndex_inv z) as (k & b & -> & _) end.
  by cbn.
Qed.

(** A new call is over at once, or its entry is the last one of the leader. *)
Lemma start_call_inv t n now q s r : wf r →
  let c := start_call t n now q s r in
  cNode c = n ∧ cRequest c = q ∧ cBegun c = t ∧ cHeld c = false ∧
  ((cEntry c = None ∧ finished c = true ∧ (∀ res resp time, cPhase c ≠ Returned (res, None) resp time) ∧
    ∀ op data x, call_begin q r = inl op → serializeCommand op = inl data →
      snd (ReplicateCommand_begin data r) ≠ Ret x) ∨
   cPhase c = Replicating ∧ cEntry c = Some (last_index r + 1, currentTerm r) ∧
   ∃ data r' gs, serializeCommand (call_op q) = inl data ∧ call_begin q r = inl (call_op q) ∧
     ReplicateCommand_begin data r = (r', Ret (last_index r + 1, gs))).
Proof.
  intros Hw. cbv zeta. unfold start_call.
  destruct (call_begin q r) as [op|resp] eqn:Hq; [|cbn; split_and!; auto; left; by split_and!].
  destruct (call_begin_op q r op Hq) as [-> Hl].
  destruct (call_submitted q r _ now s Hq) as (data & Hser & -> & _).
  destruct (ReplicateCommand_begin data r) as [r' [[idx gs]|err|]] eqn:Hr; cbn -[serializeCommand]; split_and!; auto.
  - right. pose proof (ReplicateCommand_appends _ _ _ _ Hw Hr) as [E _]. cbn in E. subst idx. eauto 10.
  - left. split_and!; auto. intros op data' x [= <-]. rewrite Hser. intros [= <-]. by rewrite Hr.
  - left. split_and!; auto. intros op data' x [= <-]. rewrite Hser. intros [= <-]. by rewrite Hr.
Qed.

(** What a call changes in the system. *)
Lemma sys_call_frame y n now q y' : sys_step pick maxp (SCall n now q) y = Some y' →
  (∀ m, is_Some (nodes (world y) !! m) → is_Some (nodes (world y') !! m)) ∧
  (∀ m x, hosts y' !! m = Some x → ∃ z, hosts y !! m = Some z ∧ server x = server z) ∧
  ∀ r op data r' res, nodes (world y) !! n = Some r → call_begin q r = inl op → serializeCommand op = inl data →
    ReplicateCommand_begin data r = (r', res) → nodes (world y') !! n = Some r'.
Proof.
  cbn [sys_step]. destruct (nodes (world y) !! n) as [r|] eqn:Hn; [|done].
  destruct (hosts y !! n) as [h|] eqn:Hh; [|done]. cbn [mbind option_bind].
  destruct (call_begin q r) as [op|resp] eqn:Hq.
  2:{ intros [= <-]. split_and!; eauto. intros ????? [= <-]. by rewrite Hq. }
  destruct (call_submitted q r op now (server h) Hq) as (data & Hser & -> & _). cbn [step set_server world].
  rewrite Hn. cbn [mbind option_bind]. destruct (ReplicateCommand_begin data r) as [r1 res1] eqn:Hr.
  intros [= <-]. cbn -[serializeCommand]. split_and!.
  - intros m Hm. rewrite lookup_insert. by case_decide.
  - intros m x [[<- <-]|[_ ?]]%lookup_insert_Some; eauto.
  - intros ????? [= <-]. rewrite Hq. intros [= <-]. rewrite Hser. intros [= <-]. rewrite Hr. intros [= <- _].
    by rewrite lookup_insert_eq.
Qed.

Lemma last_index_nonneg r : wf r → 0 ≤ last_index r.
Proof. intros []. unfold last_index. pose proof (len_nonneg (log r)). lia. Qed.

(** The entry that [ReplicateCommand] has appended. *)
Lemma call_placed w h n r r' q data gs : sim ids cfgs true true w h → nodes w !! n = Some r' → wf r →
  serializeCommand (call_op q) = inl data → ReplicateCommand_begin data r = (r', Ret (last_index r + 1, gs)) →
  placed h q (last_index r + 1) (currentTerm r).
Proof.
  intros Hs Hn Hw Hser Hr. destruct (ReplicateCommand_appends _ _ _ _ Hw Hr) as (_ & Hl & Hb & Hst & Ht).
  pose proof (last_index_nonneg r Hw). destruct (leader_reign ids cfgs true true w h n r' Hs Hn Hst) as (g & Hg & _ & F & E & HF & _).
  split; [lia|]. exists (new_entry data r). split_and!; [|done|done].
  rewrite Ht in Hg. rewrite (reign_log_Some _ _ _ Hg), E, Hl, (assoc_L (++)).
  replace (Z.to_nat (last_index r + 1 - 1)) with (length (F ++ log r)); [by apply list_lookup_middle|].
  rewrite length_app. unfold last_index, len in *. lia.
Qed.

(** A leader's next entry is new, and later than all results there are. *)
Lemma next_entry w h n r : sim ids cfgs true true w h → nodes w !! n = Some r → wf r → state r = Leader →
  let idx' := last_index r + 1 in
  (∀ q, ¬ placed h q idx' (currentTerm r)) ∧
  ∀ idx res, outcome h idx res → idx < idx' ∨ passed h idx' (currentTerm r).
Proof.
  intros Hs Hn Hw Hst idx'. destruct (leader_reign ids cfgs true true w h n r Hs Hn Hst) as (g & Hg & _ & Hu).
  apply unfolds_len in Hu. pose proof (last_index_nonneg r Hw).
  assert (Z.to_nat (idx' - 1) = length (gLog g)) as Hlen by (subst idx'; unfold len in Hu; lia). split.
  - intros q (_ & e & He & _). rewrite (reign_log_Some _ _ _ Hg) in He. apply lookup_lt_Some in He. lia.
  - intros idx res Ho. destruct (Z.lt_ge_cases idx idx'); [by left|right].
    destruct (outcome_decided h idx res idx' Ho) as [e He]; [subst idx'; lia|]. exists e. split; [done|].
    by apply (unwritten_passed h idx' _ g e (si_pinv _ _ _ _ _ _ Hs)).
Qed.

(** A call joins the others. *)
Lemma front_inv_add f h h' y c : front_inv f h → grows h h' → sys_inv ids cfgs y h' →
  let cs := calls f ++ [c] in
  attested (listed cs) h' →
  (∀ n, is_Some (nodes (world (sys f)) !! n) → is_Some (nodes (world y) !! n)) →
  (∀ n x, hosts y !! n = Some x → ∃ z, hosts (sys f) !! n = Some z ∧ server x = server z) →
  (∀ idx T, cEntry c = Some (idx, T) → placed h' (cRequest c) idx T ∧ (∀ q, ¬ placed h q idx T) ∧
     ∀ i res, outcome h i res → i < idx ∨ passed h idx T) →
  cHeld c = false → cBegun c = clock f → is_Some (nodes (world y) !! cNode c) →
  (∀ res resp time, cPhase c ≠ Returned (res, None) resp time) → (∀ ch, cPhase c ≠ Waiting ch) →
  (finished c = true → cEntry c = None) →
  front_inv (mkFront y cs (S (clock f))) h'.
Proof.
  intros Hi Hg Hy cs Hli Hup Hho Hent Eh Eb Hn Hnr Hnw Hfin.
  assert (∀ j a, cs !! j = Some a → calls f !! j = Some a ∨ j = length (calls f) ∧ a = c) as Hcs.
  { intros j a [?|[? [? <-]%list_lookup_singleton_Some]]%lookup_app_Some; [auto|right]. split; [lia|done]. }
  split; cbn; auto.
  - intros j a [Ha|[-> ->]]%Hcs; [by eapply call_inv_grows; [| | |by apply (fi_call _ _ Hi j)]; [|lia|]|].
    split; rewrite ?Eb, ?Eh; [by intros idx T (? & _)%Hent|done|by intros ??? ?%Hnr| |lia|done].
    intros ??? Hph _. apply Hfin. unfold finished. by rewrite Hph.
  - intros m z Hz. destruct (Hho m z Hz) as (z' & Hz' & ->).
    eapply heard_mono; [intros; by eapply outcome_grows| |by apply (fi_heard _ _ Hi m)].
    intros i ch (j & a & T & [Ha|[-> ->]]%Hcs & ? & Hw' & ?); [by exists j, a, T|by destruct (Hnw ch)].
  - assert (∀ j a z, calls f !! j = Some a → cEntry a = Some z → cEntry c = Some z → False) as Hno.
    { intros j a [idx T] Ha He (_ & Hno & _)%Hent. apply (Hno (cRequest a)).
      by apply (ci_entry _ _ _ _ (fi_call _ _ Hi j a Ha)). }
    intros j j' a a' z [Ha|[-> ->]]%Hcs [Ha'|[-> ->]]%Hcs He He'; [by eapply (fi_distinct _ _ Hi)| | |done].
    + by destruct (Hno j a z).
    + by destruct (Hno j' a' z).
  - intros j j' a a' out resp time idx T idx' T' [Ha|[-> ->]]%Hcs Ha' Hph Ht He He'; [|by apply Hnr in Hph].
    destruct (Hcs j' a' Ha') as [Hold|[-> ->]].
    + destruct (fi_order _ _ Hi j j' a a' out resp time idx T idx' T'); auto. right. by eapply passed_grows.
    + destruct (ci_result _ _ _ _ (fi_call _ _ Hi j a Ha) out resp time Hph) as (i & T0 & E & Ho & _).
      rewrite He in E. injection E as <- <-. destruct (Hent idx' T' He') as (_ & _ & Hlater).
      destruct (Hlater idx out Ho); [by left|right]. by eapply passed_grows.
Qed.

Lemma front_call f h n now q f' : front_inv f h → front_step pick maxp (FCall n now q) f = Some f' →
  front_steady_event f (FCall n now q) = true → ∃ h', rtc (pstep ids (listed (calls f'))) h h' ∧ front_inv f' h'.
Proof.
  intros Hi Hst Hsteady. unfold front_step in Hst. cbn [front_act] in Hst.
  destruct (nodes (world (sys f)) !! n) as [r|] eqn:Hn; [|done].
  destruct (hosts (sys f) !! n) as [x|] eqn:Hx; [|done]. cbn [mbind option_bind] in Hst.
  destruct (sys_step pick maxp (SCall n now q) (sys f)) as [y|] eqn:Hy; [|done]. cbn [mbind option_bind] in Hst.
  pose proof (sy_sim _ _ _ _ (fi_sys _ _ Hi)) as Hsim. pose proof (si_pinv _ _ _ _ _ _ Hsim) as Hp.
  assert (wf r) as Hw by (apply (sys_wf ids cfgs (sys f) h n); [apply Hi|done]).
  destruct (start_call_inv (clock f) n now q (server x) r Hw) as (En & Eq & Eb & Eh & Hcase).
  set (c := start_call (clock f) n now q (server x) r) in *. set (cs := calls f ++ [c]) in *.
  injection Hst as <-. cbn [calls].
  destruct (sys_inv_step ids cfgs Hok Hodd pick maxp (listed cs) (sys f) h _ y (fi_sys _ _ Hi) Hy Hsteady)
    as (h' & Hr & Hy').
  { intros m t q' z op data u [= <- <- <-] Hz Hq Hser Hu. rewrite Hn in Hz. injection Hz as <-.
    destruct Hcase as [(_ & _ & _ & Hno)|(_ & He & data' & r' & gs & Hser' & Hq' & _)]; [by destruct (Hno op data u)|].
    rewrite Hq in Hq'. injection Hq' as ->. exists (length (calls f)), c.
    rewrite He, Eq. cbn [eTerm eCommand new_entry]. split_and!; [subst cs; by rewrite list_lookup_middle| |done].
    by rewrite Z2Nat.id by by apply last_index_nonneg. }
  destruct (psteps_advance ids _ Hodd h h' Hp Hr) as (_ & Hg & _).
  destruct (sys_call_frame _ _ _ _ _ Hy) as (Hup & Hho & Hnode).
  exists h'. split; [done|]. apply (front_inv_add f h); auto.
  - apply (psteps_attested ids (listed cs) Hodd _ h h'); [done..|].
    eapply attested_listed; [|apply (fi_listed _ _ Hi)].
    intros i e (j & a & Hj & ?). exists j, a. split; [by apply lookup_app_l_Some|done].
  - intros idx T He. destruct Hcase as [(? & _)|(_ & He' & data & r' & gs & Hser & Hq & Hrc)]; [congruence|].
    rewrite He in He'. injection He' as -> ->. rewrite Eq. split.
    + eapply (call_placed (world y) h' n r r'); eauto. apply Hy'.
    + eapply next_entry; eauto. by apply (call_begin_op q r (call_op q)).
  - apply Hup. rewrite En. eauto.
  - by destruct Hcase as [(_ & _ & ? & _)|(-> & _)].
  - destruct Hcase as [(_ & Hf & _)|(-> & _)]; [|done]. intros ch E. unfold finished in Hf. by rewrite E in Hf.
  - destruct Hcase as [(? & _)|(Hph & _)]; [done|]. unfold finished. by rewrite Hph.
Qed.

(** *** Every event *)

Lemma front_inv_step f h ev f' : front_inv f h → front_step pick maxp ev f = Some f' →
  front_steady_event f ev = true → ∃ h', front_inv f' h'.
Proof.
  intros Hi Hst Hs. destruct ev as [e|n now q|j ev|j|j ev].
  - destruct (front_sys f h e f' Hi Hst Hs) as (h' & _ & ?). eauto.
  - destruct (front_call f h n now q f' Hi Hst Hs) as (h' & _ & ?). eauto.
  - exists h. by eapply front_replicated.
  - exists h. by eapply front_register.
  - exists h. by eapply front_wait.
Qed.

Lemma front_inv_run es f h f' : front_inv f h → front_run pick maxp es f = Some f' →
  front_steady_run pick maxp es f = true → ∃ h', front_inv f' h'.
Proof.
  revert f h. induction es as [|e es IH]; intros f h Hi Hr Hs; cbn in Hr, Hs.
  - injection Hr as <-. eauto.
  - apply andb_true_iff in Hs as [Hs Hss]. destruct (front_step pick maxp e f) as [f1|] eqn:Hst; [|done].
    destruct (front_inv_step f h e f1 Hi Hst Hs) as (h1 & Hi1). by apply (IH f1 h1).
Qed.

Lemma front_inv_boot rnd : map_Forall (λ _, blank) cfgs →
  front_inv (front_boot maxp rnd cfgs) (first_proto cfgs rnd).
Proof.
  intros Hbl. split; cbn; try done.
  - by apply sys_inv_boot.
  - intros n x. rewrite lookup_fmap. intros (r & _ & ->)%fmap_Some. apply heard_new. by intros i ch (j & c & T & ? & _).
Qed.

(** ** The order of the calls *)

(** [order] lists the calls whose entries make up [L]. *)
Definition ordered cs (L : list LogEntry) (order : list nat) : Prop :=
  length order = length L ∧ ∀ i j e, order !! i = Some j → L !! i = Some e →
    ∃ c, cs !! j = Some c ∧ cEntry c = Some (Z.of_nat i + 1, eTerm e) ∧
      serializeCommand (call_op (cRequest c)) = inl (eCommand e).

(** The order is that of the log: call [j] is at the place of its entry. *)
Lemma log_order f h L : front_inv f h →
  (∀ i e, L !! i = Some e → ∃ T k, committed ids h T k ∧ (i ≤ k)%nat ∧ reign_log h T !! i = Some e) →
  ∃ order, ordered (calls f) L order.
Proof.
  intros Hi HL. induction L as [|e L IH] using rev_ind; [by exists []|].
  destruct IH as (order & Hlen & Ho).
  { intros i a Ha. apply (HL i a). by apply lookup_app_l_Some. }
  destruct (HL (length L) e) as (T & k & _ & _ & He); [by apply list_lookup_middle|].
  destruct (fi_listed _ _ Hi T _ e He) as (j & c & Hj & Hc & Hs).
  exists (order ++ [j]). split; [by rewrite !length_app, Hlen|].
  intros i j' a [Hj'|[Hge [E <-]%list_lookup_singleton_Some]]%lookup_app_Some Ha.
  - apply lookup_app_Some in Ha as [Ha|[? _]]; [by eapply Ho|]. apply lookup_lt_Some in Hj'. lia.
  - assert (i = length L) as -> by lia. rewrite list_lookup_middle in Ha by done. injection Ha as <-. eauto.
Qed.

(** Executing an entry is serving its request. *)
Lemma exec_spec q cmd m : serializeCommand (call_op q) = inl cmd →
  ∃ op, deserializeCommand cmd = inl op ∧ fst (exec op m) = fst (spec q m) ∧
    ∀ r, call_end q (snd (exec op m)) None r = snd (spec q m).
Proof.
  intros Hs. destruct (serializeCommand_read (call_op q)) as (data & Hs' & Hd); [by destruct q..|].
  rewrite Hs in Hs'. injection Hs' as <-. eexists. split; [exact Hd|].
  destruct q as [key|key value|key value]; cbn -[ToValidUTF8]; try done.
  split; [done|]. intros r. unfold exec. change (i32 OpGet) with OpGet. cbn -[ToValidUTF8].
  by destruct (m !! ToValidUTF8 key).
Qed.

Lemma map_of_order cs L order p : ordered cs L order →
  map_of (take p (eCommand <$> L)) = replay (requests cs (take p order)).
Proof.
  intros [Hlen Ho]. induction p as [|p IH]; [done|].
  destruct (decide (p < length L)%nat) as [Hp|Hp].
  2:{ rewrite (take_ge (eCommand <$> L)), (take_ge order) in IH by (rewrite ?length_fmap; lia).
      by rewrite (take_ge (eCommand <$> L)), (take_ge order) by (rewrite ?length_fmap; lia). }
  destruct (lookup_lt_is_Some_2 L p Hp) as [e He], (lookup_lt_is_Some_2 order p) as [j Hj]; [lia|].
  destruct (Ho p j e Hj He) as (c & Hc & _ & Hs).
  rewrite (take_S_r _ _ (eCommand e)) by (by rewrite list_lookup_fmap, He). rewrite (take_S_r order _ j) by done.
  destruct (exec_spec (cRequest c) (eCommand e) (map_of (take p (eCommand <$> L))) Hs) as (op & Hd & Hex & _).
  rewrite (map_of_snoc _ _ op Hd), Hex, IH. unfold replay, requests. rewrite omap_app, foldl_app. cbn.
  by rewrite Hc.
Qed.

Lemma ordered_call cs L order i j : ordered cs L order → order !! i = Some j →
  ∃ e c, L !! i = Some e ∧ cs !! j = Some c ∧ cEntry c = Some (Z.of_nat i + 1, eTerm e) ∧
    serializeCommand (call_op (cRequest c)) = inl (eCommand e).
Proof.
  intros [Hlen Ho] Hj. destruct (lookup_lt_is_Some_2 L i) as [e He]; [apply lookup_lt_Some in Hj; lia|].
  destruct (Ho i j e Hj He) as (c & ? & ? & ?). eauto 10.
Qed.

(** A committed entry stands in the order where its call does. *)
Lemma fixed_ordered f h L order j c idx T : front_inv f h → whole ids h L → ordered (calls f) L order →
  calls f !! j = Some c → cEntry c = Some (idx, T) → fixed h idx T →
  order !! Z.to_nat (idx - 1) = Some j.
Proof.
  intros Hi HL [Hlen Ho] Hj He (e & Hdec & Ht). pose proof (decided_log h L idx e HL Hdec) as HLe.
  destruct (lookup_lt_is_Some_2 order (Z.to_nat (idx - 1))) as [j' Hj']; [apply lookup_lt_Some in HLe; lia|].
  destruct (Ho _ j' e Hj' HLe) as (c' & Hc' & He' & _).
  destruct (ci_entry _ _ _ _ (fi_call _ _ Hi j c Hj) idx T He) as [Hidx _].
  assert (j' = j) as ->; [|done].
  apply (fi_distinct _ _ Hi j' j c' c (idx, T)); [done..| |done]. rewrite He', Ht. do 2 f_equal. lia.
Qed.

(** The result of a committed entry is the answer of the specification. *)
Lemma outcome_spec h L q idx res e (r : Raft P) : whole ids h L → outcome h idx res →
  L !! Z.to_nat (idx - 1) = Some e → serializeCommand (call_op q) = inl (eCommand e) →
  call_end q res None r = snd (spec q (map_of (take (Z.to_nat (idx - 1)) (eCommand <$> L)))).
Proof.
  intros HL (l & cmd & op & Hl & Hli & Hd & ->) He Hs.
  destruct (whole_history ids h L _ HL Hl) as [z Hz]. rewrite <- (assoc_L (++)) in Hz.
  assert (Z.to_nat (idx - 1) = length l) as Hp by (unfold len in Hli; lia). rewrite Hp in *.
  assert (eCommand e = cmd) as Ec.
  { assert ((eCommand <$> L) !! length l = Some (eCommand e)) as Hx by by rewrite list_lookup_fmap, He.
    rewrite Hz in Hx. cbn in Hx. rewrite list_lookup_middle in Hx by done. congruence. }
  rewrite Hz, take_app_length. rewrite Ec in Hs.
  destruct (exec_spec q cmd (map_of l) Hs) as (op' & Hd' & _ & Hend). rewrite Hd in Hd'. by injection Hd' as <-.
Qed.

Lemma front_explained f h : front_inv f h → ∃ order, explains (calls f) order ∧
  ∀ n x, hosts (sys f) !! n = Some x →
    kvState (server x) = replay (requests (calls f) (take (Z.to_nat (kvLastApplied (server x))) order)).
Proof.
  intros Hi. pose proof (fi_sys _ _ Hi) as Hsys.
  destruct (committed_log ids h (si_pinv _ _ _ _ _ _ (sy_sim _ _ _ _ Hsys))) as (L & HL & HL').
  change (whole ids h L) in HL. destruct (log_order f h L Hi HL') as (order & Hord).
  exists order. split; [split|].
  - apply NoDup_alt. intros i i' j Hj Hj'. destruct (ordered_call _ _ _ _ _ Hord Hj) as (e & c & _ & Hc & E & _),
      (ordered_call _ _ _ _ _ Hord Hj') as (e' & c' & _ & Hc' & E' & _).
    rewrite Hc in Hc'. injection Hc' as <-. rewrite E in E'. injection E' as E' _. lia.
  - intros j [i Hj]%list_elem_of_lookup. destruct (ordered_call _ _ _ _ _ Hord Hj) as (? & c & _ & ? & _). eauto.
  - intros j c Hj [Hheld _]%andb_true_iff.
    destruct (ci_held _ _ _ _ (fi_call _ _ Hi j c Hj) Hheld) as (idx & T & He & Hfix).
    eapply list_elem_of_lookup_2. by apply (fixed_ordered f h L order j c idx T).
  - intros j c resp Hj Hans Hwl [p Hp]%list_elem_of_lookup. unfold answer_of in Hans.
    destruct (cPhase c) as [| | |out resp' time|] eqn:Hph; try done. injection Hans as ->.
    pose proof (ci_refused _ _ _ _ (fi_call _ _ Hi j c Hj) out resp time Hph Hwl) as He.
    destruct (ordered_call _ _ _ _ _ Hord Hp) as (e & c0 & _ & Hc0 & He0 & _). congruence.
  - intros p j c Hp Hj Hret. pose proof (fi_call _ _ Hi j c Hj) as Hci. unfold answered in Hret.
    destruct (cPhase c) as [| | |[res [er|]] resp time|] eqn:Hph; try done.
    destruct (ci_result _ _ _ _ Hci res resp time Hph) as (idx & T & He & Ho & r & ->).
    destruct (ordered_call _ _ _ _ _ Hord Hp) as (e & c0 & HLe & Hc0 & He0 & Hs).
    rewrite Hj in Hc0. injection Hc0 as <-. rewrite He in He0. injection He0 as -> ->.
    unfold answer_of. rewrite Hph. f_equal. rewrite <- (map_of_order _ L) by done.
    replace p with (Z.to_nat (Z.of_nat p + 1 - 1)) in HLe |- * by lia. by apply (outcome_spec h L _ _ res e).
  - intros i i' j j' c c' Hi1 Hi2 Hj Hj' Hret Hpre. unfold answered in Hret. unfold precedes in Hpre.
    destruct (cPhase c) as [| | |[res [er|]] resp time|] eqn:Hph; try done. apply bool_decide_eq_true_1 in Hpre.
    destruct (ordered_call _ _ _ _ _ Hord Hi1) as (e & c1 & _ & Hc1 & E1 & _),
      (ordered_call _ _ _ _ _ Hord Hi2) as (e' & c2 & He2 & Hc2 & E2 & _).
    rewrite Hj in Hc1. injection Hc1 as <-. rewrite Hj' in Hc2. injection Hc2 as <-.
    destruct (fi_order _ _ Hi j j' c c' res resp time _ _ _ _ Hj Hj' Hph Hpre E1 E2) as [?|(a & Hdec & Hne)]; [lia|].
    apply (decided_log h L _ _ HL) in Hdec. replace (Z.to_nat _) with i' in Hdec by lia. congruence.
  - intros n x Hx. destruct (sy_serves _ _ _ _ Hsys n x Hx) as [_ Hsv].
    destruct (serves_log ids h L (server x) HL Hsv) as [_ ->]. by apply map_of_order.
Qed.
End invariant.

Section theorems.
Context {P : Type} `{PL : PersisterLaws P}.

(** C1: Confirmed calls are linearizable.  Take any run of the whole system with its
    clients, from blank disks, with elections, crashes, lost messages, compaction
    and snapshot transfer, under the side conditions of [system_implements_map].
    There is an order of calls that were made, none of them twice, which contains
    every confirmed call (it returned a result, and its node led the term of its
    entry when [ReplicateCommand] found the entry committed) and no call that was
    told to go to another leader.  A call in the order
    that returned a result was answered exactly as a map would answer it that had
    served the calls before it, one at a time; every call of the order that began
    later comes later in it; and the map of every server is that of the first
    calls of the order, as many as the server has executed.  Calls that failed,
    timed out or died with their node may or may not be in the order, and neither
    need a call that returned a result without being confirmed. *)
Theorem linearizable (ids : gset Z) (cfgs : gmap Z (Config P)) (pick : gmap Z Result → Z)
    (maxp rnd : Z) (es : list front_event) (f : Front P) :
  cluster_ok ids cfgs → Z.odd (Z.of_nat (size ids)) = true → map_Forall (λ _, blank) cfgs →
  front_run pick maxp es (front_boot maxp rnd cfgs) = Some f →
  front_steady_run pick maxp es (front_boot maxp rnd cfgs) = true →
  ∃ order, explains (calls f) order ∧
    ∀ n x, hosts (sys f) !! n = Some x →
      kvState (server x) = replay (requests (calls f) (take (Z.to_nat (kvLastApplied (server x))) order)).
Proof.
  intros Hok Hodd Hbl Hrun Hst.
  destruct (front_inv_run ids cfgs Hok Hodd pick maxp es _ _ f
    (front_inv_boot ids cfgs Hok maxp rnd Hbl) Hrun Hst) as [h Hi].
  by apply (front_explained ids cfgs f h).
Qed.
End theorems.

(** ** Witness *)

Module CallsWitness.
Import MemoryPersister.

Definition raft (e : event) : front_event := FSys (SRaft e).

(** Node 1 is elected.  A client puts [x] and is answered; another one reads [x]
    while the server takes a snapshot, and finds its result when it registers; a
    third one asks node 2, which does not lead. *)
Definition events : list front_event :=
  (raft <$> elect_one) ++
  [FCall 1 0 (CPut "x" "a"); raft (Run 5 true); raft (Deliver 6 0); raft (Return 6);
   FReplicated 0 WaitTick; FRegister 0; raft (Run 2 true); raft (Run 5 true); raft (Run 5 true);
   FSys (SReceive 1 1); FWait 0 SubmitResult; FCall 1 2 (CGet "x"); raft (Run 6 true);
   raft (Deliver 7 0); raft (Return 7); FSys (SSnapshot 1 3); FCall 2 9 (CGet "y"); raft (Run 5 true);
   raft (Run 6 true); FSys (SReceive 1 5); FReplicated 1 WaitTick; FRegister 1].

Definition final : Front MemoryPersister :=
  default (front_boot 10 0 SystemWitness.configs)
    (front_run KvWitness.first 10 events (front_boot 10 0 SystemWitness.configs)).
End CallsWitness.

Lemma linearizable_witness :
  confirmed <$> calls CallsWitness.final = [true; true; false] ∧
  ∃ order p p', order !! p = Some 0%nat ∧ order !! p' = Some 1%nat ∧ (p < p')%nat ∧
    snd (spec (CGet "x") (replay (requests (calls CallsWitness.final) (take p' order)))) =
      mkResponse true "a" false 0 "".
Proof.
  split; [vm_compute; reflexivity|].
  destruct (linearizable (list_to_set (test_ids 3)) SystemWitness.configs KvWitness.first 10 0
    CallsWitness.events CallsWitness.final) as (order & [_ _ Hin _ Hans Htime] & _).
  - split; [vm_compute; reflexivity| | |vm_compute; reflexivity]; by_evaluation.
  - vm_compute. reflexivity.
  - by_evaluation.
  - vm_compute. reflexivity.
  - vm_compute. reflexivity.
  - destruct (lookup_lt_is_Some_2 (calls CallsWitness.final) 0) as [c0 H0]; [vm_compute; lia|].
    destruct (lookup_lt_is_Some_2 (calls CallsWitness.final) 1) as [c1 H1]; [vm_compute; lia|].
    pose proof H0 as E0. pose proof H1 as E1. vm_compute in E0, E1.
    destruct (proj1 (list_elem_of_lookup _ _) (Hin 0%nat c0 H0 ltac:(injection E0 as <-; reflexivity))) as [p Hp].
    destruct (proj1 (list_elem_of_lookup _ _) (Hin 1%nat c1 H1 ltac:(injection E1 as <-; reflexivity))) as [p' Hp'].
    exists order, p, p'. split_and!; [done..| |].
    + apply (Htime p p' 0%nat 1%nat c0 c1); [done..| |]; injection E0 as <-; injection E1 as <-; reflexivity.
    + pose proof (Hans p' 1%nat c1 Hp' H1 ltac:(injection E1 as <-; reflexivity)) as Ha.
      injection E1 as E1. rewrite <- E1 in Ha. cbn [answer_of cPhase cRequest] in Ha.
      injection Ha as Ha. symmetry. exact Ha.
Defined.

(** ** A write is acknowledged and lost *)

Module LostWrite.
Import MemoryPersister CallsWitness.

Definition events : list front_event :=
  (raft <$> elect_one) ++
  [(* node 1 leads term 1 and appends the command of a client *)
   FCall 1 0 (CPut "x" "a")] ++
  (* node 3 leads term 2 and commits another command at index 1 with node 2 *)
  (raft <$> [Timeout 3 0; Run 7 true; Deliver 8 0; Return 8; Run 8 true]) ++
  [FCall 3 0 (CPut "y" "b")] ++
  (raft <$> [Run 9 true; Deliver 10 0; Return 10;
     (* its heartbeat overwrites the entry of node 1, which applies the new one *)
     Run 8 true; Run 11 true; Deliver 11 0; Run 2 true; Run 11 true; Run 11 true]) ++
  [(* the first client is given the result of the other command *)
   FReplicated 0 WaitTick; FRegister 0; FSys (SReceive 1 1); FWait 0 SubmitResult;
   (* and the next one asks for [x] *)
   FCall 3 2 (CGet "x")] ++
  (raft <$> [Run 12 true; Deliver 13 0; Return 13; Run 0 true;
     Run 12 true; Run 12 true; Run 12 true; Run 12 true]) ++
  [FSys (SReceive 3 3); FSys (SSnapshot 3 3); FSys (SReceive 3 4); FReplicated 2 WaitTick; FRegister 2].

Definition final : Front MemoryPersister :=
  default (front_boot 10 0 (test_configs 3))
    (front_run KvWitness.first 10 events (front_boot 10 0 (test_configs 3))).

Definition seen (j : nat) : option (kv_call * option Response * bool) :=
  (λ c, (cRequest c, answer_of c, confirmed c)) <$> calls final !! j.
End LostWrite.

Lemma replay_put key value qs : CPut key value ∈ qs → is_Some (replay qs !! ToValidUTF8 key).
Proof.
  unfold replay. induction qs as [|q qs IH] using rev_ind; [by intros ?%elem_of_nil|].
  rewrite foldl_app. cbn [foldl]. generalize dependent (foldl (λ m q, fst (spec q m)) ∅ qs). intros m IH.
  rewrite elem_of_app, list_elem_of_singleton. intros [Hq| <-]; [apply IH in Hq|cbn -[ToValidUTF8]; by rewrite lookup_insert_eq].
  destruct q; cbn -[ToValidUTF8]; [done|..]; rewrite lookup_insert; by case_decide.
Qed.

(** C35: An acknowledged write can be lost.  [ReplicateCommand] waits until the
    commit index passes the index it appended at, and the server hands the result
    of whatever is applied there to the handler that waits for that index.  In a
    run that satisfies all conditions of [linearizable], the leader of term 1
    appends the [Put] of its client, is deposed, and has the entry overwritten by
    the next leader: the handler is given the result of the other command and
    answers success.  A client that reads the key afterwards is told that it does
    not exist.  The acknowledged write is not confirmed, and no order that
    explains the calls contains it. *)
Theorem lost_write_acknowledged :
  front_run KvWitness.first 10 LostWrite.events (front_boot 10 0 (test_configs 3)) = Some LostWrite.final ∧
  front_steady_run KvWitness.first 10 LostWrite.events (front_boot 10 0 (test_configs 3)) = true ∧
  LostWrite.seen 0 = Some (CPut "x" "a", Some (mkResponse true "" false 0 ""), false) ∧
  LostWrite.seen 2 = Some (CGet "x", Some (mkResponse false "" false 0 "key not found"), true) ∧
  ∀ order, explains (calls LostWrite.final) order → 0%nat ∉ order.
Proof.
  do 4 (split; [vm_compute; reflexivity|]). intros order [_ _ Hin _ Hans Htime] [p Hp]%list_elem_of_lookup.
  destruct (lookup_lt_is_Some_2 (calls LostWrite.final) 0) as [c0 H0]; [vm_compute; lia|].
  destruct (lookup_lt_is_Some_2 (calls LostWrite.final) 2) as [c2 H2]; [vm_compute; lia|].
  pose proof H0 as E0. pose proof H2 as E2. vm_compute in E0, E2.
  destruct (proj1 (list_elem_of_lookup _ _) (Hin 2%nat c2 H2 ltac:(injection E2 as <-; reflexivity))) as [p' Hp'].
  assert (p < p')%nat as Hlt
    by (apply (Htime p p' 0%nat 2%nat c0 c2); [done..| |]; injection E0 as <-; injection E2 as <-; reflexivity).
  pose proof (Hans p' 2%nat c2 Hp' H2 ltac:(injection E2 as <-; reflexivity)) as Ha.
  destruct (replay_put "x" "a" (requests (calls LostWrite.final) (take p' order))) as [v Hv].
  { apply list_elem_of_omap. exists 0%nat. split; [|rewrite H0; injection E0 as <-; reflexivity].
    apply list_elem_of_lookup_2 with p. by rewrite lookup_take_lt. }
  injection E2 as E2. rewrite <- E2 in Ha. cbn [answer_of cPhase cRequest spec snd] in Ha.
  rewrite Hv in Ha. discriminate.
Qed.
