(* ===== verification/Replicas.v ===== *)
(** * Replicated state machines

    [Raft] and the key-value server together: what the servers compute from
    the messages a cluster hands to them. *)

From S2P Require Import Prelude Types Text Json KvCodec Persister Node Election Replication Snapshot Cluster.
From S2P Require Import ElectionSafety Protocol LogFrames ClusterRefinement ClusterSafety.
From S2P Require Import NodeInvariant Delivery Kv KvFacts.

Section replicas.
Context {P : Type} `{PL : PersisterLaws P}.

Lemma agreed_lists ids h (l l' : list ApplyMsg) : pinv ids h →
  (∀ msg, msg ∈ l → agreed ids false h msg) → (∀ msg, msg ∈ l' → agreed ids false h msg) →
  CommandIndex <$> l = CommandIndex <$> l' → l = l'.
Proof.
  intros Hp. revert l'. induction l as [|m l IH]; intros [|m' l'] Hl Hl'; try done.
  intros [= Hm Hr]. f_equal.
  - assert (∀ m, agreed ids false h m → CommandValid m = true) as Hv
      by (by intros ? (? & ? & ? & ? & _ & _ & _ & [->|[? _]])).
    apply (agreed_unique ids false h); auto; [apply Hl|apply Hl'|apply Hv, Hl|apply Hv, Hl']; by left.
  - apply IH; auto; intros msg ?; [apply Hl|apply Hl']; by right.
Qed.

Lemma zip_inputs_state (pick : gmap Z Result → Z) (clocks : list (Z * Z)) (l : list ApplyMsg) s (r : Raft P) :
  length clocks = length l →
  (∀ msg, msg ∈ l → SnapshotValid msg = false ∧ ∀ op, msg_op msg = Some op → no_dedup op) →
  kvState (fst (process_all pick (zip clocks l) s r)) = exec_all (omap msg_op l) (kvState s).
Proof.
  intros Hc Hl. rewrite process_all_state.
  - by rewrite snd_zip by lia.
  - apply Forall_forall. intros [t m] Hm. apply Hl. cbn.
    by apply elem_of_zip_r in Hm.
Qed.

(** Replicas agree.  Take a run of the cluster as in state-machine
    safety without compaction, and two nodes that do not restart in it.  The server that has
    received fewer messages holds exactly the map the other one held after as
    many: the servers, started empty, work at their own pace with their own
    clocks, limits and eviction order.  No command may take part in duplicate
    detection (the RPC handlers submit none that does). *)
Theorem replicas_agree (ids : gset Z) (cfgs : gmap Z (Config P)) (rnd : Z)
    (es : list event) (w : World P) n n' (pick pick' : gmap Z Result → Z)
    (clocks clocks' : list (Z * Z)) maxp maxp' (r r' : Raft P) :
  cluster_ok ids cfgs → Z.odd (Z.of_nat (size ids)) = true →
  map_Forall (λ _, blank) cfgs → run es (boot rnd cfgs) = Some w →
  steady_run true false es (boot rnd cfgs) = true →
  (∀ rnd', (Restart n rnd' ∉ es) ∧ (Restart n' rnd' ∉ es)) →
  let msgs := inputs n es (boot rnd cfgs) in
  let msgs' := inputs n' es (boot rnd cfgs) in
  (length msgs ≤ length msgs')%nat →
  length clocks = length msgs → length clocks' = length msgs →
  (∀ msg op, msg ∈ msgs → msg_op msg = Some op → no_dedup op) →
  kvState (fst (process_all pick (zip clocks msgs) (NewServer maxp) r)) =
  kvState (fst (process_all pick' (zip clocks' (take (length msgs) msgs')) (NewServer maxp') r')).
Proof.
  intros Hok Hodd Hbl Hrun Hst Hre msgs msgs' Hle Hc Hc' Hnd.
  destruct (run_sim ids cfgs rnd es w true false) as (h & _ & Hs & Hcon); auto.
  assert (∀ m msg, msg ∈ inputs m es (boot rnd cfgs) → agreed ids false h msg) as Hag.
  { intros m msg Hm. eapply Hcon; [by apply inputs_consumed|done]. }
  assert (∀ m, (∀ rnd', Restart m rnd' ∉ es) →
    CommandIndex <$> inputs m es (boot rnd cfgs) = seqZ 1 (len (inputs m es (boot rnd cfgs)))) as Hix.
  { intros m Hm. destruct (ordered_run ids cfgs Hok Hodd true m [] es (boot rnd cfgs)
      (first_proto cfgs rnd) w) as [Hg _]; auto using sim_boot, ordered_boot. }
  assert (msgs = take (length msgs) msgs') as E.
  { apply (agreed_lists ids h); [apply Hs|apply Hag| |].
    { intros m Hm. apply (Hag n'). by apply (subseteq_take (length msgs) msgs'). }
    pose proof (Hix n (λ rnd', proj1 (Hre rnd'))) as En. fold msgs in En.
    pose proof (Hix n' (λ rnd', proj2 (Hre rnd'))) as En'. fold msgs' in En'.
    rewrite fmap_take, En, En'.
    unfold len. apply list_eq. intros i. destruct (decide (i < length msgs)%nat).
    - rewrite lookup_take_lt, !lookup_seqZ_lt by lia. done.
    - rewrite !lookup_ge_None_2; rewrite ?length_take, ?length_seqZ; done || lia. }
  rewrite <- E in *.
  assert (∀ msg, msg ∈ msgs → SnapshotValid msg = false ∧ ∀ op, msg_op msg = Some op → no_dedup op)
    as Hok'.
  { intros msg Hm. split; [|eauto]. by destruct (Hag n msg Hm) as (? & ? & ? & ? & _ & _ & _ & [->|[? _]]). }
  by rewrite !zip_inputs_state.
Qed.
End replicas.

(** ** Witness *)

Definition put_x : bytes := amCommand (KvWitness.command (KvWitness.put "x" "a") 1).

Lemma replicas_agree_witness :
  let msgs n := inputs n (replicate put_x) (boot 0 (test_configs 3)) in
  kvState (fst (process_all KvWitness.first (zip [(1, 1)] (msgs 1)) (NewServer 10) NodeWitness.node))
    = {["x" := "a"]} ∧
  kvState (fst (process_all KvWitness.first (zip [(7, 8)] (take (length (msgs 1)) (msgs 3)))
    (NewServer 20) NodeWitness.node)) = {["x" := "a"]}.
Proof.
  cbv zeta. set (A := kvState _). assert (A = {["x" := "a"]}) as E by (vm_compute; reflexivity).
  split; [exact E|]. rewrite <- E. symmetry. unfold A.
  refine (replicas_agree (list_to_set (test_ids 3)) (test_configs 3) 0 (replicate put_x)
    (after (replicate put_x)) 1 3 KvWitness.first KvWitness.first [(1, 1)] [(7, 8)] 10 20
    NodeWitness.node NodeWitness.node test_cluster_ok _ test_cluster_blank _ _ _ _ _ _ _).
  1, 2, 3: vm_compute; reflexivity.
  3, 4: vm_compute; reflexivity.
  - intros rnd'. split; apply replicate_no_restart.
  - vm_compute. apply le_n.
  - intros msg op Hm Hop. assert (inputs 1 (replicate put_x) (boot 0 (test_configs 3)) =
      [KvWitness.command (KvWitness.put "x" "a") 1]) as Ei by (vm_compute; reflexivity).
    rewrite Ei in Hm. apply list_elem_of_singleton in Hm. subst msg.
    vm_compute in Hop. injection Hop as <-. left. reflexivity.
Defined.

(** ** A snapshot overtakes a command *)

Module Overtake.
Import MemoryPersister.

Definition append_x (v : string) : bytes :=
  amCommand (KvWitness.command (mkOp OpAppend "x" v 0 0) 1).

(** The snapshot of a server that has executed both commands below. *)
Definition snapshot_ab : bytes :=
  match serializeSnapshot 0 {["x" := "ab"]} ∅ with inl d => d | inr _ => [] end.

Definition overtake : list event :=
  elect_one ++
  [(* the leader, node 1, commits x += "a" with node 3 *)
   Client 1 (append_x "a"); Run 5 true; Deliver 6 0; Return 6; Run 4 true; Run 6 true;
   Deliver 7 0; Return 7;
   (* the apply loop of node 3 takes the entry, and is slow to send it *)
   Run 0 true; Run 6 true;
   (* the leader commits x += "b" with node 2, applies both and compacts *)
   Client 1 (append_x "b"); Run 3 true; Deliver 8 0; Return 8;
   Run 1 true; Run 7 true; Run 7 true; Run 7 true; Run 7 true; Consume 1; Consume 1;
   Compact 1 2 snapshot_ab;
   (* node 3 gets the snapshot, and only then the entry *)
   Run 5 true; Run 7 true; Deliver 7 0; Run 4 true; Consume 3; Consume 3].

(** The map of node [n]'s server at the end of the run. *)
Definition map_of (n : Z) : gmap string string :=
  kvState (fst (process_all KvWitness.first
    (zip [(1, 1); (2, 2)] (inputs n overtake (boot 0 (test_configs 3)))) (NewServer 10)
    NodeWitness.node)).
End Overtake.

(** A snapshot can overtake a command.  [applyPendingEntries] releases the
    lock between taking an entry and sending it; a snapshot installed in
    between is queued first, and the state machine then executes a command that
    the snapshot already contains.  In a run that satisfies all conditions of
    state-machine safety and well-formedness, the server of node 1 ends with
    [x = "ab"] and that of node 3 with [x = "aba"]. *)
Theorem snapshot_overtakes_command :
  steady_run true true Overtake.overtake (boot 0 (test_configs 3)) = true ∧
  sane_run Overtake.overtake (boot 0 (test_configs 3)) = true ∧
  (λ m, if SnapshotValid m then amLastIncludedIndex m else CommandIndex m) <$>
    inputs 3 Overtake.overtake (boot 0 (test_configs 3)) = [2; 1] ∧
  serializeSnapshot 0 (Overtake.map_of 1) ∅ = inl Overtake.snapshot_ab ∧
  Overtake.map_of 1 = {["x" := "ab"]} ∧ Overtake.map_of 3 = {["x" := "aba"]}.
Proof. vm_compute. split_and!; reflexivity. Qed.
