(* ===== verification/Clerk.v ===== *)
(** * The client library

    [kv/clerk.go], and the client ids and sequence numbers of [kv/types.go].
    The network and the servers are an environment: [dial attempt i] tells
    whether [grpc.NewClient] accepts server [i]'s address at the [attempt]-th
    attempt, [call attempt i q] what the RPC to it with request [q] returns
    ([None] for an error).
    A retry loop is run on it and returns, besides its result, the calls and
    sleeps it made, in order; the fuel of the loop is the number of attempts left.  [conns] holds the indices of the servers with
    a cached connection. *)

From stdpp Require Import pretty.
From S2P Require Import Prelude Types Persister Node Kv.
#[local] Open Scope string_scope.
#[local] Open Scope list_scope.
#[local] Open Scope Z_scope.

Record Clerk : Type := mkClerk {
  servers : list string;
  serverIds : list Z;
  ckLeaderId : Z;
  clientId : Z;
  seqNum : Z;            (* atomic.Int64 *)
  conns : gset Z
}.

Definition MaxClerkAttempts : nat := 1000.

(** [newClientID]: the eight random bytes, most significant first. *)
Definition newClientID (buf : list Z) : Z :=
  foldl (λ id b, Z.lor (i64 (Z.shiftl id 8)) b) 0 buf.

(** [MakeClerk]; [None] is the panic on an empty list. *)
Definition MakeClerk (srvs : list string) (ids : list Z) (buf : list Z) : option Clerk :=
  if len srvs =? 0 then None else Some (mkClerk srvs ids (-1) (newClientID buf) 0 ∅).

Definition newSequenceNum (ck : Clerk) : Clerk * Z :=
  let n := seqNum ck +! 1 in (ck <| seqNum := n |>, n).

(** Index of the first server with the given id. *)
Fixpoint find_id (id i : Z) (ids : list Z) : option Z :=
  match ids with
  | [] => None
  | x :: ids => if x =? id then Some i else find_id id (i + 1) ids
  end.

Definition pickServer (ck : Clerk) : Z :=
  let fallback := Z.rem (seqNum ck) (len (servers ck)) in
  if 0 <=? ckLeaderId ck then
    match find_id (ckLeaderId ck) 0 (serverIds ck) with Some i => i | None => fallback end
  else fallback.

Definition updateLeader (leaderId : Z) (ck : Clerk) : Clerk :=
  if 0 <=? leaderId then ck <| ckLeaderId := leaderId |> else ck <| ckLeaderId := -1 |>.

Definition Millisecond : Z := 1000000.
Definition Second : Z := 1000000000.

(** [1 << uint(attempt)] at type [int64]. *)
Definition shl_one (attempt : nat) : Z :=
  if Z.of_nat attempt <? 64 then i64 (Z.shiftl 1 (Z.of_nat attempt)) else 0.

(** The duration [backoff] sleeps; [time.Sleep] returns at once for zero. *)
Definition backoff (attempt : nat) : Z :=
  let d := 50 *! shl_one attempt *! Millisecond in
  let d := if Second <? d then Second else d in
  if ((d <? 0) || (d =? max_int))%bool then Second else d.

(** [getClient]: a cached connection, or a new one if [dialed]; an index beyond
    the list of servers is a run-time panic. *)
Definition getClient (dialed : bool) (serverIdx : Z) (ck : Clerk) : result Clerk :=
  if bool_decide (serverIdx ∈ conns ck) then Ret ck
  else
    match index (servers ck) serverIdx with
    | None => Panic
    | Some _ =>
        if dialed then Ret (ck <| conns := {[serverIdx]} ∪ conns ck |>) else Fail (Errorf "dial")
    end.

Definition CloseConn (ck : Clerk) : Clerk := ck <| conns := ∅ |>.

(** How a call of the client ends: with a value, with the panic after
    [MaxClerkAttempts] attempts, or with a run-time panic (an index out of range,
    a nil response). *)
Inductive clerk_result (A : Type) : Type :=
  | Returned (a : A)
  | Exhausted
  | Crashed.
Arguments Returned {A} a.
Arguments Exhausted {A}.
Arguments Crashed {A}.

(** The requests of [kv.pb.go]. *)
Inductive kv_request : Type :=
  | GetRequest (key : string)
  | PutRequest (key value : string)
  | AppendRequest (key value : string).

(** What a retry loop does to the outside. *)
Inductive clerk_act : Type :=
  | Called (serverIdx : Z) (q : kv_request)
  | Slept (d : Z).

Definition calls_of (tr : list clerk_act) : list (Z * kv_request) :=
  omap (λ a, match a with Called i q => Some (i, q) | Slept _ => None end) tr.
Definition sleeps_of (tr : list clerk_act) : list Z :=
  omap (λ a, match a with Called _ _ => None | Slept d => Some d end) tr.

(** The switch of [Do] on the operation.  For another kind nothing is sent and
    the nil response is dereferenced ([None]: a panic). *)
Definition write_request (op : Op) : option kv_request :=
  if oType op =? OpPut then Some (PutRequest (oKey op) (oValue op))
  else if oType op =? OpAppend then Some (AppendRequest (oKey op) (oValue op))
  else None.

Section clerk.
Context (dial : nat → Z → bool) (call : nat → Z → kv_request → option Response).
Implicit Types ck : Clerk.

(** [ck.serverIds[serverIdx]]; out of range is a run-time panic. *)
Definition remember_leader {A} (serverIdx : Z) (a : A) (tr : list clerk_act) ck
    : Clerk * clerk_result A * list clerk_act :=
  match index (serverIds ck) serverIdx with
  | Some id => (ck <| ckLeaderId := id |>, Returned a, tr)
  | None => (ck, Crashed, tr)
  end.

(** [Get]: the clerk afterwards, what is returned, and the calls and sleeps. *)
Fixpoint Get_loop (key : string) (fuel : nat) (tr : list clerk_act) ck : Clerk * clerk_result string * list clerk_act :=
  match fuel with
  | O => (ck, Exhausted, tr)
  | S fuel =>
    let attempt := (MaxClerkAttempts - S fuel)%nat in
    let serverIdx := pickServer ck in
    match getClient (dial attempt serverIdx) serverIdx ck with
    | Panic => (ck, Crashed, tr)
    | Fail _ => Get_loop key fuel (tr ++ [Slept (backoff attempt)]) ck
    | Ret ck =>
      let tr := tr ++ [Called serverIdx (GetRequest key)] in
      match call attempt serverIdx (GetRequest key) with
      | None => Get_loop key fuel (tr ++ [Slept (backoff attempt)]) ck
      | Some resp =>
        if WrongLeader resp then Get_loop key fuel tr (updateLeader (LeaderId resp) ck)
        else remember_leader serverIdx (Value resp) tr ck
      end
    end
  end.

Definition Get (key : string) ck := Get_loop key MaxClerkAttempts [] ck.

(** [Do]: a sequence number is drawn once there is a connection; neither it nor
    the client id is part of the request. *)
Fixpoint Do_loop (op : Op) (fuel : nat) (tr : list clerk_act) ck : Clerk * clerk_result unit * list clerk_act :=
  match fuel with
  | O => (ck, Exhausted, tr)
  | S fuel =>
    let attempt := (MaxClerkAttempts - S fuel)%nat in
    let serverIdx := pickServer ck in
    match getClient (dial attempt serverIdx) serverIdx ck with
    | Panic => (ck, Crashed, tr)
    | Fail _ => Do_loop op fuel (tr ++ [Slept (backoff attempt)]) ck
    | Ret ck =>
      let '(ck, seq) := newSequenceNum ck in
      let op := op <| oSequenceId := seq |> in
      match write_request op with
      | None => (ck, Crashed, tr)
      | Some q =>
        let tr := tr ++ [Called serverIdx q] in
        match call attempt serverIdx q with
        | None => Do_loop op fuel (tr ++ [Slept (backoff attempt)]) ck
        | Some resp =>
          if WrongLeader resp then Do_loop op fuel tr (updateLeader (LeaderId resp) ck)
          else if negb (Success resp) then Do_loop op fuel (tr ++ [Slept (backoff attempt)]) ck
          else remember_leader serverIdx tt tr ck
        end
      end
    end
  end.

Definition Do (op : Op) ck := Do_loop (op <| oClientId := clientId ck |>) MaxClerkAttempts [] ck.

Definition Put (key value : string) ck := Do (mkOp OpPut key value 0 0) ck.
Definition Append (key value : string) ck := Do (mkOp OpAppend key value 0 0) ck.

(** ** Lemmas *)

Lemma getClient_Ret d i ck ck' : getClient d i ck = Ret ck' →
  ck' = ck <| conns := conns ck' |> ∧ i ∈ conns ck' ∧ conns ck ⊆ conns ck'.
Proof.
  unfold getClient. branch.
  - intros [= <-]. split_and!; [by destruct ck|done|done].
  - destruct (index _ _); [|done]. destruct d; [|done]. intros [= <-]. cbn.
    split_and!; [done|apply elem_of_union_l, elem_of_singleton; done|apply union_subseteq_r].
Qed.

(** A cached connection is never dialed again. *)
Lemma getClient_cached d i ck : i ∈ conns ck → getClient d i ck = Ret ck.
Proof. intros Hi. unfold getClient. by rewrite bool_decide_eq_true_2. Qed.

Lemma updateLeader_ids l ck : serverIds (updateLeader l ck) = serverIds ck.
Proof. unfold updateLeader. by branch. Qed.

Lemma Do_loop_answer op fuel sleeps ck ck' sl :
  Do_loop op fuel sleeps ck = (ck', Returned tt, sl) →
  ∃ q attempt i resp, write_request op = Some q ∧
    (attempt < MaxClerkAttempts)%nat ∧ call attempt i q = Some resp ∧
    WrongLeader resp = false ∧ Success resp = true ∧
    index (serverIds ck) i = Some (ckLeaderId ck').
Proof.
  revert op sleeps ck. induction fuel as [|fuel IH]; intros op sleeps ck; [done|].
  cbn [Do_loop]. destruct (getClient _ _ ck) as [ck1|e|] eqn:Hg; [|by intros ?%IH|done].
  apply getClient_Ret in Hg as (Hck & _).
  assert (serverIds ck1 = serverIds ck) as Hids by by rewrite Hck.
  cbn [newSequenceNum]. set (op' := op <| oSequenceId := _ |>). set (ck2 := ck1 <| seqNum := _ |>).
  change (write_request op') with (write_request op).
  destruct (write_request op) as [q|] eqn:Hq; [|done].
  assert (∀ sl' ck3, serverIds ck3 = serverIds ck → Do_loop op' fuel sl' ck3 = (ck', Returned tt, sl) →
    ∃ q0 attempt i resp, Some q = Some q0 ∧ (attempt < MaxClerkAttempts)%nat ∧
      call attempt i q0 = Some resp ∧ WrongLeader resp = false ∧ Success resp = true ∧
      index (serverIds ck) i = Some (ckLeaderId ck')) as Hrec.
  { intros sl' ck3 E H%IH. rewrite E in H. change (write_request op') with (write_request op) in H.
    by rewrite Hq in H. }
  destruct (call _ _ q) as [resp|] eqn:He; [|by apply Hrec].
  destruct (WrongLeader resp) eqn:Hw; [|destruct (Success resp) eqn:Hs; cbn [negb]].
  - apply Hrec. by rewrite updateLeader_ids.
  - unfold remember_leader. destruct (index _ _) as [id|] eqn:Hi; [|done].
    intros [= <- <-]. cbn in Hi. rewrite Hids in Hi.
    eexists q, _, _, resp. split_and!; eauto. unfold MaxClerkAttempts. lia.
  - by apply Hrec.
Qed.

(** The cached leader decides, whatever the sequence number. *)
Lemma pickServer_cached ck i : 0 ≤ ckLeaderId ck →
  find_id (ckLeaderId ck) 0 (serverIds ck) = Some i → pickServer ck = i.
Proof.
  intros Hl Hf. unfold pickServer. rewrite (proj2 (Z.leb_le _ _)) by done. by rewrite Hf.
Qed.

(** A clerk whose ids go with its servers and whose counter is in range. *)
Record fit (bound : Z) ck : Prop := mkFit {
  fit_servers : 0 < len (servers ck);
  fit_ids : len (serverIds ck) = len (servers ck);
  fit_seq : 0 ≤ seqNum ck < bound
}.

Lemma find_id_range id i (l : list Z) k : find_id id i l = Some k → i ≤ k < i + len l.
Proof.
  revert i. induction l as [|x l IH]; intros i; [done|]. cbn [find_id]. rewrite len_cons.
  pose proof (len_nonneg l). branch; [intros [= <-]; lia|]. intros ?%IH. lia.
Qed.

Lemma pickServer_range bound ck : fit bound ck → 0 ≤ pickServer ck < len (servers ck).
Proof.
  intros [Hs Hi Hq]. assert (0 ≤ Z.rem (seqNum ck) (len (servers ck)) < len (servers ck)) as Hr
    by (apply Z.rem_bound_pos; lia).
  unfold pickServer. branch; [|done]. destruct (find_id _ _ _) as [k|] eqn:Hf; [|done].
  apply find_id_range in Hf. lia.
Qed.

(** A server in the list does not make [getClient] panic; only the connections
    change. *)
Lemma getClient_known d i ck : 0 ≤ i < len (servers ck) →
  match getClient d i ck with
  | Ret ck' => ck' = ck <| conns := conns ck' |>
  | Fail _ => d = false
  | Panic => False
  end.
Proof.
  intros Hi. unfold getClient. branch; [by destruct ck|].
  destruct (index_is_Some (servers ck) i Hi) as [a ->]. by destruct d.
Qed.

(** [n] failed attempts from number [attempt] on: each ends with its sleep, and
    no call went to another server. *)
Record stuck (i : Z) (q : kv_request) (attempt n : nat) (tr : list clerk_act) : Prop := mkStuck {
  su_calls : Forall (λ c, c = (i, q)) (calls_of tr);
  su_sleeps : sleeps_of tr = backoff <$> seq attempt n
}.

Lemma stuck_more i q n tr (d : bool) : (S n ≤ MaxClerkAttempts)%nat →
  stuck i q (MaxClerkAttempts - n) n tr →
  stuck i q (MaxClerkAttempts - S n) (S n)
    ((if d then [Called i q] else []) ++ [Slept (backoff (MaxClerkAttempts - S n))] ++ tr).
Proof.
  intros Hn [Hc Hs]. replace (MaxClerkAttempts - n)%nat with (S (MaxClerkAttempts - S n)) in Hs by lia.
  split; destruct d; cbn [app calls_of sleeps_of omap list_omap seq fmap list_fmap]; try done.
  - by apply Forall_cons.
  - by f_equal.
  - by f_equal.
Qed.

Lemma Do_loop_stuck op q fuel tr ck i : (fuel ≤ MaxClerkAttempts)%nat → 0 ≤ ckLeaderId ck →
  find_id (ckLeaderId ck) 0 (serverIds ck) = Some i → 0 ≤ i < len (servers ck) →
  write_request op = Some q → (∀ attempt, call attempt i q = None) →
  ∃ ck' tr', Do_loop op fuel tr ck = (ck', Exhausted, tr ++ tr') ∧
    stuck i q (MaxClerkAttempts - fuel) fuel tr'.
Proof.
  intros Hfu Hl Hf Hi Hq He. revert op tr ck Hfu Hl Hf Hi Hq.
  induction fuel as [|fuel IH]; intros op tr ck Hfu Hl Hf Hi Hq.
  { exists ck, []. rewrite app_nil_r. by split. }
  cbn [Do_loop]. rewrite (pickServer_cached ck i) by done.
  pose proof (getClient_known (dial (MaxClerkAttempts - S fuel) i) i ck Hi) as Hg.
  destruct (getClient _ i ck) as [ck1|e|]; [|clear Hg|done].
  - rewrite Hg. cbn [newSequenceNum]. set (op' := op <| oSequenceId := _ |>).
    change (write_request op') with (write_request op). rewrite Hq, He, <- (assoc_L (++)).
    match goal with |- context [Do_loop op' fuel ?t ?c] => destruct (IH op' t c) as (ck' & tr' & -> & Hs);
      [lia|done..|] end.
    exists ck', ([Called i q; Slept (backoff (MaxClerkAttempts - S fuel))] ++ tr').
    rewrite <- (assoc_L (++)). split; [done|]. by apply (stuck_more i q fuel tr' true).
  - match goal with |- context [Do_loop op fuel ?t ?c] => destruct (IH op t c) as (ck' & tr' & -> & Hs);
      [lia|done..|] end.
    exists ck', ([Slept (backoff (MaxClerkAttempts - S fuel))] ++ tr').
    rewrite <- (assoc_L (++)). split; [done|]. by apply (stuck_more i q fuel tr' false).
Qed.

(** [Get] draws no sequence number: what it picks depends on nothing that a
    failed attempt changes. *)
Definition same_pick ck ck0 : Prop :=
  servers ck = servers ck0 ∧ serverIds ck = serverIds ck0 ∧ seqNum ck = seqNum ck0 ∧
  ckLeaderId ck = ckLeaderId ck0.

Lemma same_pick_server ck ck0 : same_pick ck ck0 → pickServer ck = pickServer ck0.
Proof. intros (H1 & H2 & H3 & H4). unfold pickServer. by rewrite H1, H2, H3, H4. Qed.

Lemma Get_loop_stuck key fuel tr ck ck0 : (fuel ≤ MaxClerkAttempts)%nat → same_pick ck ck0 →
  0 ≤ pickServer ck0 < len (servers ck0) →
  (∀ attempt, call attempt (pickServer ck0) (GetRequest key) = None) →
  ∃ ck' tr', Get_loop key fuel tr ck = (ck', Exhausted, tr ++ tr') ∧
    stuck (pickServer ck0) (GetRequest key) (MaxClerkAttempts - fuel) fuel tr'.
Proof.
  intros Hfu Hsame Hi He. revert tr ck Hfu Hsame. induction fuel as [|fuel IH]; intros tr ck Hfu Hsame.
  { exists ck, []. rewrite app_nil_r. by split. }
  cbn [Get_loop]. rewrite (same_pick_server ck ck0 Hsame). pose proof Hsame as [Hsv _].
  set (i := pickServer ck0) in *. set (q := GetRequest key) in *.
  pose proof (getClient_known (dial (MaxClerkAttempts - S fuel) i) i ck ltac:(by rewrite Hsv)) as Hg.
  destruct (getClient _ i ck) as [ck1|e|]; [|clear Hg|done].
  - rewrite He, <- (assoc_L (++)).
    match goal with |- context [Get_loop key fuel ?t ?c] => destruct (IH t c) as (ck' & tr' & -> & Hs);
      [lia|by rewrite Hg|] end.
    exists ck', ([Called i q; Slept (backoff (MaxClerkAttempts - S fuel))] ++ tr').
    rewrite <- (assoc_L (++)). split; [done|]. by apply (stuck_more i q fuel tr' true).
  - match goal with |- context [Get_loop key fuel ?t ?c] => destruct (IH t c) as (ck' & tr' & -> & Hs);
      [lia|done|] end.
    exists ck', ([Slept (backoff (MaxClerkAttempts - S fuel))] ++ tr').
    rewrite <- (assoc_L (++)). split; [done|]. by apply (stuck_more i q fuel tr' false).
Qed.

(** As long as the answers do not name a leader, [Get] stays with one server. *)
Lemma Get_loop_stays key fuel tr ck ck0 : same_pick ck ck0 → ckLeaderId ck0 = -1 →
  0 ≤ pickServer ck0 < len (servers ck0) → (∀ attempt, dial attempt (pickServer ck0) = true) →
  (∀ attempt, match call attempt (pickServer ck0) (GetRequest key) with
     | None => True
     | Some resp => WrongLeader resp = true ∧ LeaderId resp < 0
     end) →
  ∃ ck' tr', Get_loop key fuel tr ck = (ck', Exhausted, tr ++ tr') ∧
    calls_of tr' = replicate fuel (pickServer ck0, GetRequest key).
Proof.
  intros Hsame Hm Hi Hd He. revert tr ck Hsame. induction fuel as [|fuel IH]; intros tr ck Hsame.
  { exists ck, []. by rewrite app_nil_r. }
  cbn [Get_loop]. rewrite (same_pick_server ck ck0 Hsame). pose proof Hsame as [Hsv _].
  set (i := pickServer ck0) in *. set (q := GetRequest key) in *. rewrite Hd.
  pose proof (getClient_known true i ck ltac:(by rewrite Hsv)) as Hg.
  destruct (getClient _ i ck) as [ck1|e|]; [|done..].
  specialize (He (MaxClerkAttempts - S fuel)%nat). destruct (call _ i q) as [resp|].
  - destruct He as [-> Hl]. unfold updateLeader. rewrite (proj2 (Z.leb_gt _ _)) by done.
    match goal with |- context [Get_loop key fuel ?t ?c] => destruct (IH t c) as (ck' & tr' & -> & Hs) end.
    { rewrite Hg. destruct Hsame as (? & ? & ? & ?). by split_and!. }
    exists ck', ([Called i q] ++ tr'). rewrite <- (assoc_L (++)). split; [done|]. cbn. by f_equal.
  - rewrite <- (assoc_L (++)).
    match goal with |- context [Get_loop key fuel ?t ?c] => destruct (IH t c) as (ck' & tr' & -> & Hs);
      [by rewrite Hg|] end.
    eexists ck', (_ ++ tr'). rewrite <- (assoc_L (++)). split; [done|]. cbn. by f_equal.
Qed.

(** ** Properties *)

(** A write that returns was acknowledged: the operation was a Put or an
    Append, within the thousand attempts some server answered the request with
    its key and value with success and without redirecting, and the clerk
    remembers that server as the leader. *)
Theorem write_acknowledged op ck ck' sleeps :
  Do op ck = (ck', Returned tt, sleeps) →
  ∃ q attempt i resp, write_request op = Some q ∧
    (attempt < MaxClerkAttempts)%nat ∧ call attempt i q = Some resp ∧
    WrongLeader resp = false ∧ Success resp = true ∧
    index (serverIds ck) i = Some (ckLeaderId ck').
Proof. exact (Do_loop_answer (op <| oClientId := clientId ck |>) _ _ _ _ _). Qed.

(** C40: The clerk does not fail over.  Take a clerk whose ids match its list of
    servers.  When the server it holds for the leader answers no call, a Put,
    Append or Get makes all its thousand attempts with that server: every call
    goes there, every attempt ends with its backoff, and after the last one the
    clerk panics, whatever the other servers would answer.  A Get that knows no
    leader and can connect makes a thousand calls to one server, and panics,
    when that server each time fails to answer or does not know the leader
    either. *)
Theorem dead_leader_blocks_writes op q key ck i bound : fit bound ck →
  (0 ≤ ckLeaderId ck → find_id (ckLeaderId ck) 0 (serverIds ck) = Some i →
   write_request op = Some q → (∀ attempt q, call attempt i q = None) →
   (∃ ck' tr, Do op ck = (ck', Exhausted, tr) ∧ stuck i q 0 MaxClerkAttempts tr) ∧
   (∃ ck' tr, Get key ck = (ck', Exhausted, tr) ∧ stuck i (GetRequest key) 0 MaxClerkAttempts tr)) ∧
  (ckLeaderId ck = -1 → (∀ attempt, dial attempt (pickServer ck) = true) →
   (∀ attempt, match call attempt (pickServer ck) (GetRequest key) with
      | None => True | Some resp => WrongLeader resp = true ∧ LeaderId resp < 0 end) →
   ∃ ck' tr, Get key ck = (ck', Exhausted, tr) ∧
     calls_of tr = replicate MaxClerkAttempts (pickServer ck, GetRequest key)).
Proof.
  intros Hfit. pose proof (pickServer_range bound ck Hfit) as Hpick. split.
  - intros Hl Hf Hq He. pose proof (find_id_range _ _ _ _ Hf) as Hi. rewrite (fit_ids _ _ Hfit) in Hi.
    rewrite (pickServer_cached ck i Hl Hf) in Hpick. split.
    + unfold Do. match goal with |- context [Do_loop ?o] =>
        destruct (Do_loop_stuck o q MaxClerkAttempts [] ck i (le_n _) Hl Hf Hpick Hq (λ a, He a q))
          as (ck' & tr & E & Hs) end.
      rewrite Nat.sub_diag in Hs. exists ck', tr. split; [exact E|exact Hs].
    + destruct (Get_loop_stuck key MaxClerkAttempts [] ck ck (le_n _)) as (ck' & tr & E & Hs);
        [by split_and!|by rewrite (pickServer_cached ck i)..|].
      rewrite Nat.sub_diag, (pickServer_cached ck i Hl Hf) in Hs. exists ck', tr. split; [exact E|exact Hs].
  - intros Hl Hd He. destruct (Get_loop_stays key MaxClerkAttempts [] ck ck) as (ck' & tr & E & Hs); auto;
      [by split_and!|]. exists ck', tr. split; [exact E|exact Hs].
Qed.

(** [Get] returns whatever value the first answer carries that is not a
    redirection, also when the answer says that the read failed: a timeout or
    a full server is reported as the empty string, like a missing key. *)
Theorem failed_read_returns_empty key ck resp :
  pickServer ck ∈ conns ck → call 0 (pickServer ck) (GetRequest key) = Some resp →
  WrongLeader resp = false → Success resp = false →
  Value resp = "" → is_Some (index (serverIds ck) (pickServer ck)) →
  snd (fst (Get key ck)) = Returned "".
Proof.
  intros Hc He Hw _ Hv [id Hi].
  assert (∃ n, MaxClerkAttempts = S n) as [n Hn] by (exists 999%nat; reflexivity).
  unfold Get. rewrite Hn. cbn [Get_loop]. rewrite Hn, Nat.sub_diag, getClient_cached, He, Hw by done.
  unfold remember_leader. by rewrite Hi, Hv.
Qed.
End clerk.

(** In conversion, the thousand turns of a loop are unfolded last. *)
#[global] Strategy 100 [Do_loop Get_loop].

(** ** Client ids *)

Lemma land_high_low (a b : Z) : 0 ≤ b < 256 → Z.land (a * 256) b = 0.
Proof.
  intros Hb. apply Z.bits_inj'. intros n Hn. rewrite Z.land_spec, Z.bits_0.
  change 256 with (2 ^ 8). destruct (Z.lt_ge_cases n 8).
  - by rewrite Z.mul_pow2_bits_low.
  - rewrite andb_comm. assert (Z.testbit b n = false) as ->; [|done].
    destruct (Z.eq_dec b 0) as [->|]; [apply Z.bits_0|]. apply Z.bits_above_log2; [lia|].
    apply Z.log2_lt_pow2; [lia|]. pose proof (Z.pow_le_mono_r 2 8 n). lia.
Qed.

Lemma lor_byte (x b : Z) : 0 ≤ b < 256 → Z.lor (i64 (Z.shiftl x 8)) b = i64 (x * 256 + b).
Proof.
  intros Hb. rewrite Z.shiftl_mul_pow2 by lia. change (2 ^ 8) with 256.
  assert (i64 (x * 256) = ((x + 2 ^ 55) mod 2 ^ 56 - 2 ^ 55) * 256) as Hd.
  { unfold i64. change (2 ^ 63) with (2 ^ 55 * 256). change (2 ^ 64) with (2 ^ 56 * 256).
    rewrite <- Z.mul_add_distr_r, Z.mul_mod_distr_r by lia. lia. }
  rewrite Hd, <- Z.lxor_lor, <- Z.add_nocarry_lxor by (by apply land_high_low).
  pose proof (Z.mod_pos_bound (x + 2 ^ 55) (2 ^ 56) ltac:(lia)).
  pose proof (Z.div_mod (x + 2 ^ 55) (2 ^ 56) ltac:(lia)).
  clear Hd. generalize dependent ((x + 2 ^ 55) mod 2 ^ 56). intros m Hm.
  generalize ((x + 2 ^ 55) / 2 ^ 56). intros q Hq.
  unfold i64. replace (x * 256 + b + 2 ^ 63) with (m * 256 + b + q * 2 ^ 64) by lia.
  rewrite Z.mod_add by lia. rewrite Z.mod_small by lia. lia.
Qed.

(** The reference: the bytes as the digits of a number in base 256. *)
Definition big_endian (buf : list Z) : Z := foldl (λ v b, v * 256 + b) 0 buf.

Lemma i64_step (x b : Z) : i64 (i64 x * 256 + b) = i64 (x * 256 + b).
Proof.
  unfold i64. set (y := (x + 2 ^ 63) mod 2 ^ 64 - 2 ^ 63).
  assert (x = y + (x + 2 ^ 63) / 2 ^ 64 * 2 ^ 64) as Hx
    by (pose proof (Z.div_mod (x + 2 ^ 63) (2 ^ 64) ltac:(lia)); subst y; lia).
  rewrite Hx at 1. replace ((y + (x + 2 ^ 63) / 2 ^ 64 * 2 ^ 64) * 256 + b + 2 ^ 63)
    with (y * 256 + b + 2 ^ 63 + (x + 2 ^ 63) / 2 ^ 64 * 256 * 2 ^ 64) by lia.
  by rewrite Z.mod_add.
Qed.

Lemma newClientID_digits buf : Forall (λ b, 0 ≤ b < 256) buf → newClientID buf = i64 (big_endian buf).
Proof.
  intros Hf. unfold newClientID, big_endian.
  assert (∀ v, foldl (λ id b, Z.lor (i64 (Z.shiftl id 8)) b) (i64 v) buf =
    i64 (foldl (λ v b, v * 256 + b) v buf)) as Hv; [|exact (Hv 0)].
  induction Hf as [|b buf Hb _ IH]; intros v; [done|]. cbn [foldl].
  by rewrite lor_byte, i64_step, IH.
Qed.

Lemma big_endian_app buf b : big_endian (buf ++ [b]) = big_endian buf * 256 + b.
Proof. unfold big_endian. by rewrite foldl_app. Qed.

Lemma big_endian_inj (a b : list Z) : length a = length b →
  Forall (λ b, 0 ≤ b < 256) a → Forall (λ b, 0 ≤ b < 256) b →
  big_endian a = big_endian b → a = b.
Proof.
  revert b. induction a as [|x a IH] using rev_ind; intros b Hl Ha Hb.
  { by destruct b. }
  destruct b as [|y b _] using rev_ind; rewrite !length_app in Hl; [cbn in Hl; lia|].
  apply Forall_app in Ha as [Ha [Hx _]%Forall_cons], Hb as [Hb [Hy _]%Forall_cons].
  rewrite !big_endian_app. intros E. assert (x = y) as -> by lia.
  f_equal. apply IH; auto; [cbn in Hl; lia|lia].
Qed.

Lemma big_endian_bound buf : Forall (λ b, 0 ≤ b < 256) buf →
  0 ≤ big_endian buf < 256 ^ len buf.
Proof.
  induction buf as [|b buf IH] using rev_ind; [by cbn|]. intros [Hf [Hb _]%Forall_cons]%Forall_app.
  specialize (IH Hf). rewrite big_endian_app, len_app. change (len [b]) with 1.
  rewrite Z.pow_add_r by (auto with distribkv; lia). lia.
Qed.

(** The shifts and ors of [newClientID] compute the two's complement
    value of the eight random bytes, most significant first; hence every 64-bit
    value is a client id and different bytes give different ids. *)
Theorem client_id_is_big_endian (a b : list Z) :
  Forall (λ b, 0 ≤ b < 256) a → Forall (λ b, 0 ≤ b < 256) b → len a = 8 → len b = 8 →
  newClientID a = i64 (big_endian a) ∧ (newClientID a = newClientID b → a = b).
Proof.
  intros Ha Hb Hla Hlb. rewrite !newClientID_digits by done. split; [done|].
  pose proof (big_endian_bound a Ha) as Hba. pose proof (big_endian_bound b Hb) as Hbb.
  rewrite Hla in Hba. rewrite Hlb in Hbb. change (256 ^ 8) with (2 ^ 64) in *.
  intros E. apply big_endian_inj; auto; [unfold len in *; lia|].
  unfold i64 in E.
  pose proof (Z.div_mod (big_endian a + 2 ^ 63) (2 ^ 64) ltac:(lia)).
  pose proof (Z.div_mod (big_endian b + 2 ^ 63) (2 ^ 64) ltac:(lia)).
  set (qa := (big_endian a + 2 ^ 63) / 2 ^ 64) in *. set (qb := (big_endian b + 2 ^ 63) / 2 ^ 64) in *. 
  assert (qa = qb ∨ qa < qb ∨ qb < qa) as [|[|]] by lia; lia.
Qed.

(** The sleep before the next attempt doubles from 50 ms and is capped at
    one second for the first 57 attempts; from then on the product overflows to
    zero and the remaining 943 attempts follow each other without a pause. *)
Theorem backoff_schedule (attempt : nat) :
  backoff attempt =
    if (attempt <? 57)%nat then Z.min (50 * 2 ^ Z.of_nat attempt * Millisecond) Second else 0.
Proof.
  destruct (Nat.ltb_spec attempt 57) as [Hlt|Hge].
  - do 57 (destruct attempt as [|attempt]; [vm_compute; reflexivity|]). lia.
  - destruct (Nat.ltb_spec attempt 64) as [Hlt|Hge'].
    + do 57 (destruct attempt as [|attempt]; [lia|]).
      do 7 (destruct attempt as [|attempt]; [vm_compute; reflexivity|]). lia.
    + unfold backoff, shl_one. rewrite (proj2 (Z.ltb_ge (Z.of_nat attempt) 64)) by lia. reflexivity.
Qed.

(** ** Witnesses *)

Module ClerkWitness.
Definition ck : Clerk := mkClerk ["a"; "b"; "c"] [1; 2; 3] 2 7 0 ∅.
Definition ok : Response := mkResponse true "v" false 0 "".
Definition timeout : Response := mkResponse false "" false 0 (kv_Error KErrTimeout).
End ClerkWitness.

Lemma write_acknowledged_witness :
  ∃ attempt i resp, (attempt < MaxClerkAttempts)%nat ∧ Some ClerkWitness.ok = Some resp ∧
    WrongLeader resp = false ∧ Success resp = true ∧
    index (serverIds ClerkWitness.ck) i = Some 2.
Proof.
  destruct (write_acknowledged (λ _ _, true) (λ _ _ _, Some ClerkWitness.ok)
    (mkOp OpPut "k" "v" 0 0) ClerkWitness.ck
    (mkClerk ["a"; "b"; "c"] [1; 2; 3] 2 7 1 {[1]}) [Called 1 (PutRequest "k" "v")]) as (q & attempt & i & resp & _ & H).
  - vm_compute. reflexivity.
  - exists attempt, i, resp. exact H.
Defined.

Lemma dead_leader_blocks_writes_witness :
  ∃ ck' tr, Put (λ _ _, true) (λ _ i _, if i =? 1 then None else Some ClerkWitness.ok) "k" "v"
    ClerkWitness.ck = (ck', Exhausted, tr) ∧
    stuck 1 (PutRequest "k" "v") 0 MaxClerkAttempts tr.
Proof.
  assert (fit 1 ClerkWitness.ck) as Hfit by (split; vm_compute; intuition congruence).
  destruct (dead_leader_blocks_writes (λ _ _, true)
    (λ _ i _, if i =? 1 then None else Some ClerkWitness.ok) (mkOp OpPut "k" "v" 0 0) (PutRequest "k" "v") "k"
    ClerkWitness.ck 1 1 Hfit) as [H _].
  destruct H as [Hput _]; [vm_compute; congruence|reflexivity|reflexivity|intros attempt q; reflexivity|].
  exact Hput.
Defined.

Lemma failed_read_returns_empty_witness :
  snd (fst (Get (λ _ _, true) (λ _ _ _, Some ClerkWitness.timeout) "k"
    (ClerkWitness.ck <| conns := {[1]} |>))) = Returned "".
Proof.
  apply (failed_read_returns_empty (λ _ _, true) (λ _ _ _, Some ClerkWitness.timeout) "k"
           (ClerkWitness.ck <| conns := {[1]} |>) ClerkWitness.timeout);
    first [by_evaluation|reflexivity].
Defined.

Lemma client_id_is_big_endian_witness :
  newClientID [255; 255; 255; 255; 255; 255; 255; 254] = -2.
Proof.
  destruct (client_id_is_big_endian [255; 255; 255; 255; 255; 255; 255; 254]
    [0; 0; 0; 0; 0; 0; 0; 1]) as [-> _];
    [repeat constructor; lia|repeat constructor; lia|reflexivity|reflexivity|].
  vm_compute. reflexivity.
Defined.
