(* ===== verification/ClusterConfig.v ===== *)
(** * The cluster definition and the start of a node

    [config/config.go] (validation, data directories, look-up of a node and of
    its peers; reading the YAML file is not modelled) and the part of
    [server/run.go] that turns the definition into the configuration of a Raft
    node.  The main result connects the two with [ElectionSafety]: a definition
    that passes validation gives a cluster as that file assumes it. *)

From stdpp Require Import pretty.
From S2P Require Import Prelude Types Paths Persister Node Cluster ElectionSafety.
#[local] Open Scope string_scope.
#[local] Open Scope Z_scope.

Module ClusterConfig.

(** Durations are nanoseconds. *)
Record ClusterT : Type := mkClusterT {
  Name : string;
  cHeartbeatInterval : Z;
  cElectionTimeoutMin : Z;
  cElectionTimeoutMax : Z;
  cDataDir : string;
  cSnapshotThreshold : Z
}.

Record NodeT : Type := mkNodeT {
  ID : Z;
  ListenAddr : string;
  DataDir : string
}.

Record ConfigT : Type := mkConfigT {
  cCluster : ClusterT;
  Nodes : list NodeT
}.

(** The loop over the nodes, with the ids seen so far. *)
Fixpoint validate_nodes (seen : gset Z) (ns : list NodeT) : option error :=
  match ns with
  | [] => None
  | n :: ns =>
    if ID n <? 0 then Some (Errorf "node id must be non-negative")
    else if bool_decide (ListenAddr n = "") then Some (Errorf "listen_addr is required")
    else if bool_decide (ID n ∈ seen) then Some (Errorf "duplicate node id")
    else validate_nodes ({[ID n]} ∪ seen) ns
  end.

Definition validate (c : ConfigT) : option error :=
  let cl := cCluster c in
  if len (Nodes c) =? 0 then Some (Errorf "no nodes defined")
  else if cHeartbeatInterval cl <=? 0 then Some (Errorf "heartbeat_interval must be positive")
  else if ((cElectionTimeoutMin cl <=? 0) || (cElectionTimeoutMax cl <=? 0))%bool
  then Some (Errorf "election timeouts must be positive")
  else if cElectionTimeoutMax cl <=? cElectionTimeoutMin cl
  then Some (Errorf "election_timeout_min must be less than election_timeout_max")
  else if bool_decide (cDataDir cl = "") then Some (Errorf "cluster.data_dir is required")
  else validate_nodes ∅ (Nodes c).

Definition resolveDataDirs (c : ConfigT) : ConfigT :=
  c <| Nodes := (λ n, if bool_decide (DataDir n = "")
                      then n <| DataDir := Join (cDataDir (cCluster c)) (pretty (ID n)) |>
                      else n) <$> Nodes c |>.

(** [Load] after the file has been read and parsed. *)
Definition Load_parsed (c : ConfigT) : result ConfigT :=
  match validate c with
  | Some err => Fail (Wrapf "validate config" err)
  | None => Ret (resolveDataDirs c)
  end.

Fixpoint find_node (id : Z) (ns : list NodeT) : option NodeT :=
  match ns with
  | [] => None
  | n :: ns => if ID n =? id then Some n else find_node id ns
  end.

Definition NodeByID (id : Z) (c : ConfigT) : result NodeT :=
  match find_node id (Nodes c) with
  | Some n => Ret n
  | None => Fail (Errorf "node id not found in config")
  end.

Definition PeersOf (id : Z) (c : ConfigT) : list NodeT :=
  filter (λ n, ID n ≠ id) (Nodes c).

(** Steps 3 and 4 of [StartFromConfig]: the peer map and the configuration
    handed to [NewRaft]. *)
Definition peer_map (id : Z) (c : ConfigT) : gmap Z string :=
  foldl (λ m p, <[ID p := ListenAddr p]> m) ∅ (PeersOf id c).

Definition raft_config {P} (p : P) (n : NodeT) (c : ConfigT) : Config P :=
  {| ServerID := ID n;
     OwnAddr := ListenAddr n;
     Peers := peer_map (ID n) c;
     ElectionTimeoutMin := cElectionTimeoutMin (cCluster c);
     ElectionTimeoutMax := cElectionTimeoutMax (cCluster c);
     HeartbeatInterval := cHeartbeatInterval (cCluster c);
     cfgSnapshotThreshold := cSnapshotThreshold (cCluster c);
     cfgPersister := Some p |}.

(** The configurations of all nodes of a cluster, each on its persister. *)
Definition raft_configs {P} (disk : Z → P) (c : ConfigT) : gmap Z (Config P) :=
  list_to_map ((λ n, (ID n, raft_config (disk (ID n)) n c)) <$> Nodes c).

Definition ids (c : ConfigT) : gset Z := list_to_set (ID <$> Nodes c).

(** ** Lemmas *)

Lemma validate_nodes_None seen ns : validate_nodes seen ns = None →
  NoDup (ID <$> ns) ∧ Forall (λ n, 0 ≤ ID n ∧ ListenAddr n ≠ "" ∧ ID n ∉ seen) ns.
Proof.
  revert seen. induction ns as [|n ns IH]; intros seen; cbn; [by repeat constructor|].
  branch; [done|]. branch; [done|]. branch; [done|]. intros H. apply IH in H as [Hnd Hf].
  split.
  - apply NoDup_cons. split; [|done]. intros Hin. apply list_elem_of_fmap in Hin as (n' & Heq & Hin).
    rewrite Forall_forall in Hf. destruct (Hf n' Hin) as (_ & _ & Hni).
    apply Hni, elem_of_union. left. by apply elem_of_singleton.
  - constructor; [done|]. eapply Forall_impl; [exact Hf|]. cbn. intros n' (? & ? & Hni).
    split_and!; auto. intros Hin. apply Hni, elem_of_union. by right.
Qed.

Lemma peer_map_dom id c : dom (peer_map id c) = ids c ∖ {[id]}.
Proof.
  unfold peer_map, ids. assert (∀ l (m : gmap Z string),
    dom (foldl (λ m p, <[ID p := ListenAddr p]> m) m l) = dom m ∪ list_to_set (ID <$> l)) as Hfold.
  { induction l as [|n l IH]; intros m; cbn; [by rewrite (right_id_L ∅ (∪))|].
    rewrite IH, dom_insert_L. by rewrite (comm_L (∪) {[ID n]}), (assoc_L (∪)). }
  rewrite Hfold, dom_empty_L. apply set_eq. intros x.
  rewrite elem_of_union, elem_of_difference, elem_of_singleton, !elem_of_list_to_set,
    !list_elem_of_fmap. unfold PeersOf. split.
  - intros [[]%not_elem_of_empty|(n & -> & [? ?]%list_elem_of_filter)]. eauto.
  - intros [(n & -> & ?) ?]. right. exists n. split; [done|]. by apply list_elem_of_filter.
Qed.

Lemma find_node_Some id ns n : find_node id ns = Some n → n ∈ ns ∧ ID n = id.
Proof.
  induction ns as [|x ns IH]; cbn; [done|]. branch.
  - intros [= <-]. split; [apply elem_of_cons; by left|done].
  - intros [? ?]%IH. split; [apply elem_of_cons; by right|done].
Qed.

Lemma find_node_in ns n : NoDup (ID <$> ns) → n ∈ ns → find_node (ID n) ns = Some n.
Proof.
  induction ns as [|x ns IH]; [by intros _ []%not_elem_of_nil|]. cbn.
  intros [Hx Hnd]%NoDup_cons [->|Hin]%elem_of_cons; [by rewrite Z.eqb_refl|].
  destruct (Z.eqb_spec (ID x) (ID n)) as [Heq|]; [|auto].
  destruct Hx. rewrite Heq. apply list_elem_of_fmap. eauto.
Qed.

Lemma validate_ok c : validate c = None →
  NoDup (ID <$> Nodes c) ∧ Forall (λ n, 0 ≤ ID n) (Nodes c) ∧
  0 < cElectionTimeoutMin (cCluster c) < cElectionTimeoutMax (cCluster c) ∧
  0 < cHeartbeatInterval (cCluster c).
Proof.
  unfold validate. branch; [done|]. branch; [done|]. branch; [done|]. branch; [done|].
  branch; [done|]. intros [Hnd Hf]%validate_nodes_None. split_and!; auto; try lia.
  eapply Forall_impl; [exact Hf|]. by intros n (? & _).
Qed.

(** Resolving the directories changes nothing else. *)
Lemma resolveDataDirs_spec c : cDataDir (cCluster c) ≠ "" →
  cCluster (resolveDataDirs c) = cCluster c ∧
  ID <$> Nodes (resolveDataDirs c) = ID <$> Nodes c ∧
  Forall (λ n, DataDir n ≠ "") (Nodes (resolveDataDirs c)).
Proof.
  intros Hd. split; [done|]. cbn. split.
  - rewrite <- list_fmap_compose. apply list_fmap_ext. intros i n _. cbn. by branch.
  - apply Forall_fmap, Forall_true. intros n. cbn. branch; [by apply Join_nonempty|done].
Qed.

Lemma Load_parsed_Ret c0 c : Load_parsed c0 = Ret c →
  NoDup (ID <$> Nodes c) ∧ Forall (λ n, 0 ≤ ID n) (Nodes c) ∧
  0 < cElectionTimeoutMin (cCluster c) < cElectionTimeoutMax (cCluster c) ∧
  0 < cHeartbeatInterval (cCluster c) ∧ Forall (λ n, DataDir n ≠ "") (Nodes c).
Proof.
  unfold Load_parsed. destruct (validate c0) eqn:Hv; [done|]. intros [= <-].
  assert (cDataDir (cCluster c0) ≠ "") as Hd.
  { revert Hv. unfold validate. branch; [done|]. branch; [done|]. branch; [done|].
    branch; [done|]. by branch. }
  apply validate_ok in Hv as (Hnd & Hpos & Ht & Hh).
  destruct (resolveDataDirs_spec c0 Hd) as (-> & Hids & Hdirs). rewrite Hids.
  split_and!; auto; try lia.
  apply Forall_forall. intros n Hn. assert (ID n ∈ ID <$> Nodes c0) as Hin
    by (rewrite <- Hids; apply list_elem_of_fmap; eauto).
  apply list_elem_of_fmap in Hin as (n0 & -> & Hn0). rewrite Forall_forall in Hpos. auto.
Qed.
End ClusterConfig.

Import ClusterConfig.

(** C29: When a definition is loaded without error, every node of it has a data
    directory and is found by its id, an unknown id is an error, and the Raft node
    built for it is accepted by [NewRaft].  If moreover all ids and the number of
    nodes are below [2 ^ 31], which loading does not check, the nodes together
    form a cluster in the sense of election safety: distinct ids that fit the
    [int32] of the messages, each node with exactly the others as peers.  One id
    that does not fit is enough to break that. *)
Theorem loaded_config_forms_cluster {P} `{Persister P} (disk : Z → P) (c0 c : ConfigT) :
  Load_parsed c0 = Ret c →
  (∀ n, n ∈ Nodes c → DataDir n ≠ "" ∧ NodeByID (ID n) c = Ret n ∧
     Node.validate (raft_config (disk (ID n)) n c) = None) ∧
  (∀ id, id ∉ ids c → NodeByID id c = Fail (Errorf "node id not found in config")) ∧
  (cluster_ok (ids c) (raft_configs disk c) ↔
     Forall (λ n, ID n < 2 ^ 31) (Nodes c) ∧ len (Nodes c) < 2 ^ 31).
Proof.
  intros (Hnd & Hpos & Ht & Hh & Hdirs)%Load_parsed_Ret. rewrite Forall_forall in Hpos, Hdirs.
  assert (Z.of_nat (size (ids c)) = len (Nodes c)) as Hsize
    by (unfold ids; by rewrite size_list_to_set, length_fmap).
  split_and!.
  - intros n Hn. split; [auto|]. split; [unfold NodeByID; by rewrite find_node_in|].
    apply validate_None. cbn. split_and!; [by apply Hpos|by eexists| |lia..].
    apply not_elem_of_dom. rewrite peer_map_dom, elem_of_difference, elem_of_singleton.
    by intros [_ ?].
  - intros id Hid. unfold NodeByID. destruct (find_node id (Nodes c)) as [n|] eqn:Hf; [|done].
    apply find_node_Some in Hf as [Hin <-]. destruct Hid. apply elem_of_list_to_set, list_elem_of_fmap.
    eauto.
  - split.
    { intros [_ _ Hr Hs]. split; [|lia]. apply Forall_forall. intros n Hn.
      apply (Hr (ID n)), elem_of_list_to_set, list_elem_of_fmap. eauto. }
    intros [Hmax Hlen]. rewrite Forall_forall in Hmax.
    assert (NoDup ((λ n, (ID n, raft_config (disk (ID n)) n c)) <$> Nodes c).*1) as Hnd'
      by (by rewrite <- list_fmap_compose).
    split.
    + unfold raft_configs, ids. rewrite dom_list_to_map_L, <- list_fmap_compose. done.
    + intros n cfg Hl. apply elem_of_list_to_map in Hl; [|done].
      apply list_elem_of_fmap in Hl as (x & [= -> ->] & Hx). cbn. split; [done|].
      apply peer_map_dom.
    + intros n Hn. apply elem_of_list_to_set, list_elem_of_fmap in Hn as (x & -> & Hx). auto.
    + lia.
Qed.

Lemma loaded_config_forms_cluster_witness :
  let c := resolveDataDirs (mkConfigT (mkClusterT "demo" 50 150 300 "data" 1000)
             [mkNodeT 1 "localhost:1" ""; mkNodeT 2 "localhost:2" ""; mkNodeT 3 "localhost:3" "x"]) in
  cluster_ok (ids c) (raft_configs (λ _, MemoryPersister.NewMemoryPersister) c).
Proof.
  intros c. apply (loaded_config_forms_cluster (λ _, MemoryPersister.NewMemoryPersister)
    (mkConfigT (mkClusterT "demo" 50 150 300 "data" 1000)
       [mkNodeT 1 "localhost:1" ""; mkNodeT 2 "localhost:2" ""; mkNodeT 3 "localhost:3" "x"]) c).
  - vm_compute. reflexivity.
  - split; [repeat constructor|vm_compute; reflexivity].
Defined.
