(* ===== verification/Lifecycle.v ===== *)
(** * A node from start to shutdown

    [server/run.go] (start and shutdown of a node), [server/logger.go] (the
    logger flags), [server/grpc.go] (the keepalive policy) and
    [health/service.go].  Starting a node is a sequence of effects of the calling
    goroutine on the process; [StartFromConfig] is written in a monad that
    collects them in order.  The YAML parser, the network and the disks are parameters:
    [read_config] is what reading and parsing the file gives, [listen] whether
    an address can be bound, [disk] the persister at a path. *)

From S2P Require Import Prelude Types Paths Text Persister Node Election Replication Snapshot Cluster.
From S2P Require Import ElectionSafety Kv ClusterConfig.
Import ClusterConfig.
#[local] Open Scope string_scope.
#[local] Open Scope Z_scope.

(** ** Text: what the logger uses of package [strings]

    A string is its bytes.  [TrimSpace] removes the encodings of the characters
    of [unicode.IsSpace] from both ends.  [ToLower] is followed as far as the
    comparison with an ASCII word needs it: besides the ASCII capitals only
    U+0130 and U+212A have ASCII lower-case letters (i and k), every other
    character keeps a non-ASCII encoding. *)

Definition spaces : list (list Z) :=
  [[9]; [10]; [11]; [12]; [13]; [32]; [194; 133]; [194; 160]; [225; 154; 128]] ++
  ((λ i, [226; 128; 128 + Z.of_nat i]) <$> seq 0 11) ++
  [[226; 128; 168]; [226; 128; 169]; [226; 128; 175]; [226; 129; 159]; [227; 128; 128]].

(** The text after one of [pats] at its start, if there is one. *)
Fixpoint strip (pats : list (list Z)) (s : list Z) : option (list Z) :=
  match pats with
  | [] => None
  | p :: pats => if decide (p `prefix_of` s) then Some (drop (length p) s) else strip pats s
  end.

Fixpoint trim_left (fuel : nat) (pats : list (list Z)) (s : list Z) : list Z :=
  match fuel with
  | O => s
  | S fuel => match strip pats s with Some s => trim_left fuel pats s | None => s end
  end.

Definition TrimSpace (s : list Z) : list Z :=
  let s := trim_left (length s) spaces s in
  reverse (trim_left (length s) (reverse <$> spaces) (reverse s)).

Fixpoint ToLower (s : list Z) : list Z :=
  match s with
  | 196 :: 176 :: s => 105 :: ToLower s
  | 226 :: 132 :: 170 :: s => 107 :: ToLower s
  | c :: s => (if ((65 <=? c) && (c <=? 90))%bool then c + 32 else c) :: ToLower s
  | [] => []
  end.

(** ** The logger *)

Definition LevelDebug : Z := -4.
Definition LevelInfo : Z := 0.
Definition LevelWarn : Z := 4.
Definition LevelError : Z := 8.

Inductive slog_handler : Type :=
  | TextHandler (lvl : Z)
  | JSONHandler (lvl : Z).

Definition parseLevel (s : string) : result Z :=
  let w := ToLower (TrimSpace (codes s)) in
  if bool_decide (w = codes "" ∨ w = codes "info") then Ret LevelInfo
  else if bool_decide (w = codes "debug") then Ret LevelDebug
  else if bool_decide (w = codes "warn" ∨ w = codes "warning") then Ret LevelWarn
  else if bool_decide (w = codes "error") then Ret LevelError
  else Fail (Errorf "invalid log level").

Definition buildHandler (format : string) (lvl : Z) : result slog_handler :=
  let w := ToLower (TrimSpace (codes format)) in
  if bool_decide (w = codes "" ∨ w = codes "text") then Ret (TextHandler lvl)
  else if bool_decide (w = codes "json") then Ret (JSONHandler lvl)
  else Fail (Errorf "invalid log format").

Definition buildLogger (level format : string) : result slog_handler :=
  match parseLevel level with
  | Ret lvl => buildHandler format lvl
  | Fail e => Fail e
  | Panic => Panic
  end.

(** ** Keepalive and health *)

Record KeepalivePolicy : Type := mkKeepalive {
  kaMinTime : Z;
  kaPermitWithoutStream : bool;
  kaTime : Z;
  kaTimeout : Z
}.

Definition newGRPCServer : KeepalivePolicy :=
  mkKeepalive (5 * 1000000000) true (10 * 1000000000) (3 * 1000000000).

Inductive ServingStatus : Type := UNKNOWN | SERVING | NOT_SERVING | SERVICE_UNKNOWN.

(** [Check] ignores the service name; [Watch] is not implemented. *)
Definition health_Check (service : string) : result ServingStatus := Ret SERVING.
Definition health_Watch (service : string) : result ServingStatus :=
  Fail (Errorf "Watch is not implemented in 0.1.0").

(** ** Start and shutdown *)

Inductive service : Type := SvcRaft | SvcKV | SvcHealth.

Inductive effect : Type :=
  | EListen (addr : string)
  | ECloseListener
  | ENewRaft
  | ENewServer                 (* and its apply loop *)
  | ERegister (s : service)
  | EGoServe                   (* a goroutine is launched; nothing waits for it *)
  | ERaftStart
  | ERaftShutdown
  | EKill
  | EGracefulStop.

(** A computation with effects that may fail or panic. *)
Definition act (A : Type) : Type := list effect * result A.

#[export] Instance act_ret : MRet act := λ A a, ([], Ret a).
#[export] Instance act_bind : MBind act := λ A B k m,
  match m with
  | (tr, Ret a) => let '(tr', res) := k a in (tr ++ tr', res)
  | (tr, Fail e) => (tr, Fail e)
  | (tr, Panic) => (tr, Panic)
  end%list.

Definition emit (e : effect) : act unit := ([e], Ret tt).
Definition lift {A} (res : result A) : act A := ([], res).

Lemma lift_bind {A B} (a : A) (k : A → act B) : (lift (Ret a) ≫= k) = k a.
Proof. cbn. by destruct (k a). Qed.

Record Options : Type := mkOptions {
  ConfigPath : string;
  NodeID : Z;
  LogLevel : string;
  LogFormat : string
}.

Record RunningNode {P : Type} : Type := mkRunningNode {
  rnCfg : ConfigT;
  rnNode : NodeT;
  rf : Raft P;
  kvs : Server
}.
Arguments RunningNode : clear implicits.
Arguments mkRunningNode {P}.

Section lifecycle.
Context {P : Type} `{PP : Persister P}.
Context (read_config : string → result ConfigT) (listen : string → bool) (disk : string → P).

Definition config_Load (path : string) : result ConfigT :=
  match read_config path with
  | Ret c => Load_parsed c
  | Fail e => Fail e
  | Panic => Panic
  end.

(** [net.Listen]. *)
Definition Listen (addr : string) : act unit :=
  if listen addr then emit (EListen addr) else lift (Fail (Errorf "listen")).

(** [c = None] is a nil pointer.  [rnd] is the draw behind the first election
    timeout. *)
Definition StartFromConfig (rnd : Z) (c : option ConfigT) (nodeID : Z) : act (RunningNode P) :=
  match c with
  | None => lift (Fail (Errorf "config is required"))
  | Some c =>
      node ← lift (NodeByID nodeID c);
      Listen (ListenAddr node);;
      let persister := disk (Join (DataDir node) "raft-state.json") in
      emit ENewRaft;;
      match NewRaft (raft_config persister node c) with
      | Panic => lift Panic
      | Fail e => emit ECloseListener;; lift (Fail (Wrapf "construct raft" e))
      | Ret r =>
          let s := NewServer DefaultMaxPendingOps in
          emit ENewServer;;
          emit (ERegister SvcRaft);;
          emit (ERegister SvcKV);;
          emit (ERegister SvcHealth);;
          emit EGoServe;;
          let r := fst (Node.Start rnd r) in
          emit ERaftStart;;
          mret (mkRunningNode c node r s)
      end
  end.

Definition Start (rnd : Z) (opts : Options) : act (RunningNode P) :=
  if bool_decide (ConfigPath opts = "") then lift (Fail (Errorf "config path is required"))
  else
    c ← lift (config_Load (ConfigPath opts));
    node ← lift (NodeByID (NodeID opts) c);
    lift (buildLogger (LogLevel opts) (LogFormat opts));;
    StartFromConfig rnd (Some c) (ID node).

(** [Shutdown]: Raft first, then the state machine, then the RPC server. *)
Definition Shutdown (drained : nat) (n : RunningNode P) : list effect * RunningNode P :=
  let r := Node.Shutdown (rf n) in
  let '(s, r) := Kill drained (kvs n) r in
  ([ERaftShutdown; EKill; EGracefulStop], n <| rf := r |> <| kvs := s |>).
End lifecycle.

(** ** Properties *)

Section lifecycle_facts.
Context {P : Type} `{PP : Persister P}.
Context (read_config : string → result ConfigT) (listen : string → bool) (disk : string → P).

Lemma Load_parsed_node c0 c node : Load_parsed c0 = Ret c → node ∈ Nodes c →
  NodeByID (ID node) c = Ret node ∧
  ∀ p : P, Node.validate (raft_config p node c) = None.
Proof.
  intros (Hnd & Hpos & Ht & Hh & _)%Load_parsed_Ret Hn. rewrite Forall_forall in Hpos.
  split; [unfold NodeByID; by rewrite find_node_in|]. intros p.
  apply validate_None. cbn. split_and!; [by apply Hpos|by eexists| |lia..].
  apply not_elem_of_dom. rewrite peer_map_dom, elem_of_difference, elem_of_singleton. by intros [_ ?].
Qed.

Lemma NewRaft_accepts (cfg : Config P) : Node.validate cfg = None → ∃ r, NewRaft cfg = Ret r.
Proof.
  intros Hv. pose proof Hv as (_ & [p Hp] & _)%validate_None.
  unfold NewRaft. rewrite Hv, Hp. eauto.
Qed.

(** The effects of a start that succeeds. *)
Definition startup (addr : string) : list effect :=
  [EListen addr; ENewRaft; ENewServer; ERegister SvcRaft; ERegister SvcKV; ERegister SvcHealth;
   EGoServe; ERaftStart].

(** A node that [StartFromConfig] accepts. *)
Definition startable (c : option ConfigT) (nodeID : Z) (node : NodeT) : Prop :=
  ∃ cfg, c = Some cfg ∧ NodeByID nodeID cfg = Ret node ∧ listen (ListenAddr node) = true ∧
    Node.validate (raft_config (disk (Join (DataDir node) "raft-state.json")) node cfg) = None.

Lemma StartFromConfig_starts rnd c nodeID node : startable (Some c) nodeID node →
  ∃ r, NewRaft (raft_config (disk (Join (DataDir node) "raft-state.json")) node c) = Ret r ∧
    StartFromConfig listen disk rnd (Some c) nodeID =
      (startup (ListenAddr node),
       Ret (mkRunningNode c node (fst (Node.Start rnd r)) (NewServer DefaultMaxPendingOps))).
Proof.
  intros (cfg & [= <-] & Hby & Hlis & Hv). destruct (NewRaft_accepts _ Hv) as [r Hr]. exists r.
  split; [done|]. unfold StartFromConfig, Listen. rewrite Hby. cbn. rewrite Hlis. cbn. by rewrite Hr.
Qed.

(** The listeners that are bound after the effects. *)
Definition open_listeners (tr : list effect) : list string :=
  foldl (λ open e, match e with
    | EListen addr => addr :: open
    | ECloseListener => tail open
    | _ => open
    end) [] tr.

(** The effects that leave something running. *)
Definition runs_on (e : effect) : Prop :=
  match e with ENewServer | EGoServe | ERaftStart => True | _ => False end.

Lemma StartFromConfig_fails rnd c nodeID : (∀ node, ¬ startable c nodeID node) →
  let '(tr, res) := StartFromConfig listen disk rnd c nodeID in
  (∃ e, res = Fail e) ∧ open_listeners tr = [] ∧ Forall (λ e, ¬ runs_on e) tr.
Proof.
  intros Hno. unfold StartFromConfig, Listen, lift. destruct c as [c|]; [|by eauto]. cbn.
  destruct (NodeByID nodeID c) as [node|e|] eqn:Hby; cbn; [|by eauto|].
  - destruct (listen (ListenAddr node)) eqn:Hlis; cbn; [|by eauto].
    set (cfg := raft_config _ node c). unfold NewRaft. destruct (Node.validate cfg) as [e|] eqn:Hv.
    + cbn. split_and!; [by eauto|done|]. repeat constructor; intros [].
    + destruct (Hno node). by exists c.
  - unfold NodeByID in Hby. by destruct (find_node _ _).
Qed.

(** C30: A node starts.  When the definition loads, the id is in it, the flags
    are valid and the address can be bound, [Start] succeeds: its goroutine binds
    the listener before it builds the Raft node, and registers the services and
    launches the goroutine that serves them (without waiting for it) before it
    starts the Raft node's timer; the node is a follower of this cluster with an
    election timeout in the configured range and an empty map. *)
Theorem node_starts rnd opts c node h :
  ConfigPath opts ≠ "" → config_Load read_config (ConfigPath opts) = Ret c →
  node ∈ Nodes c → ID node = NodeID opts → buildLogger (LogLevel opts) (LogFormat opts) = Ret h →
  listen (ListenAddr node) = true → cElectionTimeoutMax (cCluster c) < 2 ^ 63 →
  ∃ n d, Start read_config listen disk rnd opts = (startup (ListenAddr node), Ret n) ∧
    rnNode n = node ∧ serverId (rf n) = ID node ∧ dom (peers (rf n)) = ids c ∖ {[ID node]} ∧
    state (rf n) = Follower ∧ ctx (rf n) = Some false ∧ electionTimer (rf n) = Some (Armed d) ∧
    cElectionTimeoutMin (cCluster c) ≤ d < cElectionTimeoutMax (cCluster c) ∧
    kvs n = NewServer DefaultMaxPendingOps.
Proof.
  intros Hp Hc Hn Hid Hlog Hlis Hmax. unfold config_Load in Hc.
  destruct (read_config _) as [c0| |] eqn:Hrc; [|done..].
  destruct (Load_parsed_node c0 c node Hc Hn) as [Hby Hv].
  destruct (StartFromConfig_starts rnd c (ID node) node) as (r & Hr & Hs); [by exists c|].
  destruct (Start_timer _ r rnd Hr Hmax) as (d & Ht & Hd).
  destruct (NewRaft_Ret _ _ Hr) as [_ [Hsid Hpe Hst _ _ _ _ _ _ Hctx _]].
  eexists _, d. split.
  { unfold Start, config_Load. rewrite bool_decide_eq_false_2, Hrc, Hc by done.
    by rewrite lift_bind, <- Hid, Hby, lift_bind, Hlog, lift_bind. }
  unfold Node.Start in *. rewrite Hctx in *. cbn in *. rewrite Hsid, Hpe, new_peers_dom. cbn.
  rewrite peer_map_dom. split_and!; auto; lia.
Qed.

(** C32: Starting a node is all or nothing.  [StartFromConfig], for any
    definition, also one that was never validated, succeeds exactly when the
    definition is there, has the id, the address can be bound and the Raft node
    accepts its part of the definition, and then everything runs.  Otherwise it
    returns an error, nothing runs, and the listener, if it was bound before the
    Raft node was refused, has been closed.  [Start], which loads the definition
    from a file, reports every error before anything is bound. *)
Theorem start_is_all_or_nothing rnd c nodeID :
  (∀ node, startable c nodeID node →
     ∃ n, StartFromConfig listen disk rnd c nodeID = (startup (ListenAddr node), Ret n)) ∧
  ((∀ node, ¬ startable c nodeID node) →
   let '(tr, res) := StartFromConfig listen disk rnd c nodeID in
   (∃ e, res = Fail e) ∧ open_listeners tr = [] ∧ Forall (λ e, ¬ runs_on e) tr) ∧
  (∀ opts tr e, Start read_config listen disk rnd opts = (tr, Fail e) → tr = []).
Proof.
  split_and!.
  - intros node Hs. pose proof Hs as (cfg & -> & _).
    destruct (StartFromConfig_starts rnd cfg nodeID node Hs) as (r & _ & ->). eauto.
  - apply StartFromConfig_fails.
  - intros opts tr e. unfold Start. branch; [by intros [= <- _]|].
    destruct (config_Load _ _) as [c'| |] eqn:Hc; [rewrite lift_bind|by intros [= <- _]|done].
    destruct (NodeByID (NodeID opts) c') as [node| |] eqn:Hby; [rewrite lift_bind|by intros [= <- _]|done].
    destruct (buildLogger _ _); [rewrite lift_bind|by intros [= <- _]|done].
    unfold config_Load in Hc. destruct (read_config _) as [c0| |]; [|done..].
    assert (node ∈ Nodes c') as Hn.
    { unfold NodeByID in Hby. destruct (find_node _ _) eqn:Hf; [|done]. injection Hby as ->.
      by apply find_node_Some in Hf as [? _]. }
    destruct (Load_parsed_node c0 c' node Hc Hn) as [Hby' Hv].
    destruct (listen (ListenAddr node)) eqn:Hlis.
    + destruct (StartFromConfig_starts rnd c' (ID node) node) as (r & _ & ->); [by exists c'|done].
    + unfold StartFromConfig, Listen. rewrite Hby', lift_bind, Hlis. by intros [= <- _].
Qed.

Lemma Start_trace rnd opts tr n : Start read_config listen disk rnd opts = (tr, Ret n) →
  ∃ addr, tr = startup addr.
Proof.
  unfold Start. branch; [done|]. destruct (config_Load _ _) as [c| |]; [rewrite lift_bind|done..].
  destruct (NodeByID (NodeID opts) c) as [node| |]; [rewrite lift_bind|done..].
  destruct (buildLogger _ _); [rewrite lift_bind|done..]. unfold StartFromConfig, Listen.
  destruct (NodeByID (ID node) c) as [node'| |]; [rewrite lift_bind|done..]. destruct (listen _); [|done].
  destruct (NewRaft _) as [r| |]; [|done..]. intros [= <- _]. by eexists.
Qed.

Lemma Shutdown_trace drained (n : RunningNode P) :
  fst (Shutdown drained n) = [ERaftShutdown; EKill; EGracefulStop].
Proof. unfold Shutdown. by destruct (Kill _ _ _). Qed.
End lifecycle_facts.

(** *** Shutdown *)

Section shutdown.
Context {P : Type} `{PP : Persister P}.








End shutdown.

(** ** Witnesses *)

Module LifecycleWitness.
Import MemoryPersister.

Definition definition : ConfigT :=
  mkConfigT (mkClusterT "demo" 50 150 300 "data" 1000)
    [mkNodeT 1 "localhost:1" ""; mkNodeT 2 "localhost:2" ""; mkNodeT 3 "localhost:3" "x"].

Definition opts : Options := mkOptions "cluster.yaml" 2 " Debug" "JSON".
Definition read (_ : string) : result ConfigT := Ret definition.
Definition disks (_ : string) : MemoryPersister := NewMemoryPersister.

Definition node : RunningNode MemoryPersister :=
  mkRunningNode definition (mkNodeT 2 "localhost:2" "data/2")
    (NodeWitness.node <| ctx := Some false |>)
    ((NewServer 10) <| pendingOps := {[3 := mkPendingOp 3 (mkOp OpPut "k" "v" 0 0) 0]} |>
                    <| chans := {[0%nat := None]} |>).
End LifecycleWitness.

Lemma node_starts_witness :
  fst (Start LifecycleWitness.read (λ _, true) LifecycleWitness.disks 7 LifecycleWitness.opts)
  = startup "localhost:2".
Proof.
  destruct (node_starts LifecycleWitness.read (λ _, true) LifecycleWitness.disks 7 LifecycleWitness.opts
    (resolveDataDirs LifecycleWitness.definition) (mkNodeT 2 "localhost:2" "data/2")
    (JSONHandler LevelDebug)) as (n & d & -> & _);
    [discriminate|vm_compute; reflexivity|vm_compute; right; left|reflexivity|vm_compute; reflexivity
    |reflexivity|vm_compute; reflexivity|].
  reflexivity.
Defined.

(** A definition that no file could have given: its heartbeat interval is zero,
    and the Raft node refuses it after the listener is bound. *)
Lemma start_is_all_or_nothing_witness :
  let bad := Some (LifecycleWitness.definition <| cCluster := mkClusterT "demo" 0 150 300 "data" 1000 |>) in
  let '(tr, res) := StartFromConfig (λ _, true) LifecycleWitness.disks 7 bad 2 in
  tr = [EListen "localhost:2"; ENewRaft; ECloseListener] ∧ open_listeners tr = [] ∧ ∃ e, res = Fail e.
Proof.
  intros bad. destruct (start_is_all_or_nothing LifecycleWitness.read (λ _, true) LifecycleWitness.disks 7 bad 2)
    as (_ & H & _).
  assert (∀ node, ¬ startable (λ _, true) LifecycleWitness.disks bad 2 node) as Hno.
  { intros node (cfg & [= <-] & Hby & _ & Hv). vm_compute in Hby. injection Hby as <-.
    vm_compute in Hv. discriminate Hv. }
  specialize (H Hno). destruct (StartFromConfig _ _ _ _ _) as [tr res] eqn:E.
  destruct H as (Hres & Hopen & _). split; [|by split]. vm_compute in E. by injection E as <- _.
Defined.

