(* ===== verification/Programs.v ===== *)
(** * The command line programs

    [cmd/kvserver/main.go] and [cmd/smoke/main.go], from the command line
    ([Flags]) to the exit code.  An exit code is what the process returns;
    [runServer] also returns the effects of [Lifecycle]. *)

From S2P Require Import Prelude Types Text Durations Flags Paths Persister Node Cluster ElectionSafety Kv KvFacts Clerk.
From S2P Require Import ClusterConfig Lifecycle.
Import ClusterConfig.
#[local] Open Scope string_scope.
#[local] Open Scope Z_scope.

(** ** kvserver *)

Record ServerFlags : Type := mkServerFlags {
  fConfig : string;
  fId : Z;
  fLogLevel : string;
  fLogFormat : string
}.

(** The flags of the server and of the subcommand, with their defaults. *)
Definition server_formal : FlagSet :=
  [("config", VString "configs/cluster.yaml"); ("id", VInt 0);
   ("log.level", VString "info"); ("log.format", VString "text")].

Definition health_formal : FlagSet := [("config", VString "configs/cluster.yaml"); ("id", VInt 0)].

(** What the program reads from a set after parsing. *)
Definition server_flags (fs : FlagSet) : ServerFlags :=
  mkServerFlags (flag_string "config" fs) (flag_int "id" fs) (flag_string "log.level" fs)
    (flag_string "log.format" fs).

(** The flags of a command line that sets none. *)
Definition default_flags : ServerFlags := server_flags server_formal.

(** Parsing ends the process with 0 after a request for help and with 2 after an
    error ([flag.ExitOnError]). *)
Definition exit_parsed {A} (code : Z → A) (p : parsed) (k : FlagSet → A) : A :=
  match p with
  | Parsed fs _ => k fs
  | Usage => code 0
  | Invalid => code 2
  end.

(** What ends the wait of [runServer]. *)
Inductive stop_event : Type :=
  | Signal
  | ServeErr (err : option error).

Section kvserver.
Context {P : Type} `{PP : Persister P}.
Context (read_config : string → result ConfigT) (listen : string → bool) (disk : string → P).
(** How many messages [Kill] drains. *)
Context (drained : nat).

Definition runServer (rnd : Z) (f : ServerFlags) (ev : stop_event) : list effect * Z :=
  if fId f =? 0 then ([], 2)
  else
    match Start read_config listen disk rnd
            (mkOptions (fConfig f) (fId f) (fLogLevel f) (fLogFormat f)) with
    | (tr, Fail _) => (tr, 1)
    | (tr, Panic) => (tr, 2)
    | (tr, Ret n) =>
      match ev with
      | ServeErr (Some _) => (tr, 1)
      | _ => ((tr ++ fst (Shutdown drained n))%list, 0)
      end
    end.

(** [dial] is what [grpc.NewClient] answers for an address, [check] the answer
    to the call; the output is what is printed on success. *)
Definition runHealthCheck (dial : string → bool) (check : string → result ServingStatus)
    (f : ServerFlags) : list ServingStatus * Z :=
  if fId f =? 0 then ([], 2)
  else
    match config_Load read_config (fConfig f) with
    | Fail _ => ([], 1)
    | Panic => ([], 2)
    | Ret c =>
      match NodeByID (fId f) c with
      | Fail _ => ([], 1)
      | Panic => ([], 2)
      | Ret node =>
        if negb (dial (ListenAddr node)) then ([], 1)
        else
          match check (ListenAddr node) with
          | Fail _ => ([], 1)
          | Panic => ([], 2)
          | Ret st => ([st], 0)
          end
      end
    end.

(** [main]; without a program name [flag.Parse] panics. *)
Definition kvserver_main (dial : string → bool) (check : string → result ServingStatus)
    (rnd : Z) (ev : stop_event) (args : list string) : Z :=
  match args with
  | [] => 2
  | _ :: args =>
    match args with
    | sub :: rest =>
      if bool_decide (sub = "healthcheck")
      then exit_parsed id (Parse rest health_formal) (λ fs, snd (runHealthCheck dial check (server_flags fs)))
      else exit_parsed id (Parse args server_formal) (λ fs, snd (runServer rnd (server_flags fs) ev))
    | [] => exit_parsed id (Parse [] server_formal) (λ fs, snd (runServer rnd (server_flags fs) ev))
    end
  end.
End kvserver.

(** ** smoke *)

(** What the RPCs of one call of the clerk meet: as in [Clerk]. *)
Definition environment : Type := (nat → Z → bool) * (nat → Z → kv_request → option Response).

Definition smoke_key : string := "smoke-check".
Definition smoke_want : string := "hello-world".

(** [tryOnce]: a panic of the clerk is recovered into an error. *)
Definition tryOnce (addrs : list string) (ids : list Z) (buf : list Z)
    (put append get : environment) : option error :=
  match MakeClerk addrs ids buf with
  | None => Some (Errorf "clerk exhausted retries")
  | Some ck =>
    match Put (fst put) (snd put) smoke_key "hello" ck with
    | (ck, Returned _, _) =>
      match Append (fst append) (snd append) smoke_key "-world" ck with
      | (ck, Returned _, _) =>
        match Get (fst get) (snd get) smoke_key ck with
        | (_, Returned got, _) =>
            if bool_decide (got = smoke_want) then None else Some (Errorf "Get: want hello-world")
        | _ => Some (Errorf "clerk exhausted retries")
        end
      | _ => Some (Errorf "clerk exhausted retries")
      end
    | _ => Some (Errorf "clerk exhausted retries")
    end
  end.

(** One turn of the retry loop of [run]: what its attempt meets, and whether the
    deadline, not the half second, ends the wait after it. *)
Record round : Type := mkRound {
  rdRandom : list Z;
  rdPut : environment;
  rdAppend : environment;
  rdGet : environment;
  rdDeadline : bool
}.

(** [None]: the loop has not ended within these rounds. *)
Fixpoint smoke_loop (addrs : list string) (ids : list Z) (rounds : list round) : option (result unit) :=
  match rounds with
  | [] => None
  | rd :: rounds =>
    match tryOnce addrs ids (rdRandom rd) (rdPut rd) (rdAppend rd) (rdGet rd) with
    | None => Some (Ret tt)
    | Some err =>
      if rdDeadline rd then Some (Fail (Wrapf "smoke did not succeed" err))
      else smoke_loop addrs ids rounds
    end
  end.

(** [run] *)
Definition smoke_run (read_config : string → result ConfigT) (cfgPath : string)
    (rounds : list round) : option (result unit) :=
  match config_Load read_config cfgPath with
  | Fail e => Some (Fail (Wrapf "load config" e))
  | Panic => Some Panic
  | Ret c => smoke_loop (ListenAddr <$> Nodes c) (ID <$> Nodes c) rounds
  end.

(** The exit code (2 is the runtime's, for a panic). *)
Definition smoke_exit (res : result unit) : Z :=
  match res with Ret _ => 0 | Fail _ => 1 | Panic => 2 end.

Definition smoke_formal : FlagSet :=
  [("config", VString "configs/cluster.yaml"); ("timeout", VDuration (30 * 10 ^ 9))].

(** [main]: [rounds] are the attempts that fit the timeout. *)
Definition smoke_main (read_config : string → result ConfigT) (rounds : Z → list round)
    (args : list string) : option Z :=
  match args with
  | [] => Some 2
  | _ :: args =>
    exit_parsed Some (Parse args smoke_formal) (λ fs,
      smoke_exit <$> smoke_run read_config (flag_string "config" fs) (rounds (flag_duration "timeout" fs)))
  end.

(** ** Properties *)

(** The command line that sets every flag, with equals signs or with separate
    arguments. *)
Definition command_line (f : ServerFlags) : list string :=
  [setting "config" (fConfig f); setting "id" (uncodes (decimal (fId f)));
   setting "log.level" (fLogLevel f); setting "log.format" (fLogFormat f)].

Definition command_line_spaced (f : ServerFlags) : list string :=
  [dash "config"; fConfig f; dash "id"; uncodes (decimal (fId f));
   dash "log.level"; fLogLevel f; dash "log.format"; fLogFormat f].

Lemma set_id (v : Z) c l r z : in_int z →
  set_flag (codes "id") (codes (uncodes (decimal z)))
    [("config", c); ("id", VInt v); ("log.level", l); ("log.format", r)] =
  Some (Some [("config", c); ("id", VInt z); ("log.level", l); ("log.format", r)]).
Proof.
  intros Hz. rewrite codes_uncodes by (by apply decimal_key). cbn -[ParseInt0 decimal codes].
  rewrite decide_False, decide_True by done. by rewrite ParseInt0_decimal.
Qed.

Lemma Parse_command_line f : in_int (fId f) →
  (∃ fs, Parse (command_line f) server_formal = Parsed fs [] ∧ server_flags fs = f) ∧
  (∃ fs, Parse (command_line_spaced f) server_formal = Parsed fs [] ∧ server_flags fs = f).
Proof.
  intros Hid. split; eexists; (split; [|]).
  - unfold command_line.
    erewrite (Parse_equals "config") by reflexivity.
    erewrite (Parse_equals "id") by first [by apply set_id|reflexivity].
    erewrite (Parse_equals "log.level") by reflexivity.
    erewrite (Parse_equals "log.format") by reflexivity. reflexivity.
  - unfold server_flags. cbn -[codes uncodes]. rewrite !uncodes_codes. by destruct f.
  - unfold command_line_spaced.
    erewrite (Parse_space "config") by reflexivity.
    erewrite (Parse_space "id") by first [by apply set_id|reflexivity].
    erewrite (Parse_space "log.level") by reflexivity.
    erewrite (Parse_space "log.format") by reflexivity. reflexivity.
  - unfold server_flags. cbn -[codes uncodes]. rewrite !uncodes_codes. by destruct f.
Qed.

(** The command line reaches the server: whichever way the flags are written,
    the program runs with exactly the values given, and the subcommand checks the
    node it is told to.  A flag that is not defined and an id that is not a number
    end the process with 2 before anything is done. *)
Theorem kvserver_command_line {P} `{Persister P} read_config listen (disk : string → P) drained dial check rnd ev f :
  in_int (fId f) →
  let main args := kvserver_main read_config listen disk drained dial check rnd ev ("kvserver" :: args) in
  main (command_line f) = snd (runServer read_config listen disk drained rnd f ev) ∧
  main (command_line_spaced f) = snd (runServer read_config listen disk drained rnd f ev) ∧
  main ("healthcheck" :: take 2 (command_line f)) = snd (runHealthCheck read_config dial check f) ∧
  (∀ name v args, plain_name name = true → defined (codes name) server_formal = false →
     name ≠ "help" → name ≠ "h" → main (setting name v :: args) = 2) ∧
  (∀ v args, ParseInt0 (codes v) = None → main (setting "id" v :: args) = 2).
Proof.
  intros Hid main. destruct (Parse_command_line f Hid) as [(fs & Hp & Hf) (fs' & Hp' & Hf')].
  assert (∀ n v args, main (setting n v :: args) =
    exit_parsed id (Parse (setting n v :: args) server_formal)
      (λ fs, snd (runServer read_config listen disk drained rnd (server_flags fs) ev))) as Hm.
  { intros n v args. unfold main, kvserver_main. rewrite bool_decide_eq_false_2; [done|].
    intros E. by apply (f_equal (String.get 0)) in E. }
  split_and!.
  - unfold command_line in Hp |- *. rewrite Hm, Hp. cbn. by rewrite Hf.
  - unfold command_line_spaced in Hp' |- *. unfold main, kvserver_main.
    rewrite bool_decide_eq_false_2 by done. rewrite Hp'. cbn. by rewrite Hf'.
  - unfold main, kvserver_main. rewrite bool_decide_eq_true_2 by done.
    unfold command_line, take. erewrite (Parse_equals "config") by reflexivity.
    rewrite (Parse_equals "id" _ _ _ [("config", VString (uncodes (codes (fConfig f)))); ("id", VInt (fId f))]).
    + cbn -[codes uncodes runHealthCheck]. rewrite uncodes_codes. done.
    + reflexivity.
    + rewrite codes_uncodes by (by apply decimal_key). cbn -[ParseInt0 decimal codes uncodes].
      rewrite decide_False, decide_True by done. by rewrite ParseInt0_decimal.
  - intros name v args Hn Hd Hh Hh'. rewrite Hm, Parse_undefined by done. done.
  - intros v args Hv. rewrite Hm.
    rewrite (Parse_invalid "id") by (done || (cbn -[ParseInt0 codes];
      rewrite decide_False, decide_True by done; by rewrite Hv)). done.
Qed.

(** The exit codes of the server: 2 without an id, 1 when the node does
    not start or the RPC server fails on its own, 0 after a signal; and
    whenever the code is 0 the node that was started has been shut down, in
    order. *)
Theorem kvserver_exit_codes {P} `{Persister P} read_config listen (disk : string → P) drained rnd f ev :
  let opts := mkOptions (fConfig f) (fId f) (fLogLevel f) (fLogFormat f) in
  let '(tr, code) := runServer read_config listen disk drained rnd f ev in
  (code = 0 ↔ fId f ≠ 0 ∧ (∀ e, ev ≠ ServeErr (Some e)) ∧
     ∃ n, snd (Start read_config listen disk rnd opts) = Ret n) ∧
  (fId f = 0 → code = 2 ∧ tr = []) ∧
  (fId f ≠ 0 → ∀ e, snd (Start read_config listen disk rnd opts) = Fail e → code = 1) ∧
  (code = 0 → ∃ addr, tr = (startup addr ++ [ERaftShutdown; EKill; EGracefulStop])%list).
Proof.
  cbv zeta. unfold runServer. destruct (Z.eqb_spec (fId f) 0) as [->|Hid].
  { split_and!; try done. split; [done|]. by intros [? _]. }
  destruct (Start _ _ _ _ _) as [tr [n|e|]] eqn:Hs.
  - destruct (Start_trace _ _ _ _ _ _ _ Hs) as [addr ->]. rewrite Shutdown_trace.
    destruct ev as [|[e|]]; (split_and!; [|done..|]); try done; eauto.
    + by split; [intros _; split_and!; eauto|].
    + split; [done|]. intros (_ & He & _). by destruct (He e).
    + by split; [intros _; split_and!; eauto|].
  - split_and!; try done. split; [done|]. intros (_ & _ & n & [=]).
  - split_and!; try done. split; [done|]. intros (_ & _ & n & [=]).
Qed.

(** The health check of a node that is up: for an id of the definition
    whose address can be dialed and answers with the node's health service, the
    subcommand prints SERVING and exits with 0; it exits with 0 only when some
    status was received. *)
Theorem healthcheck_reports_serving read_config dial check f c node :
  fId f ≠ 0 → config_Load read_config (fConfig f) = Ret c → NodeByID (fId f) c = Ret node →
  (dial (ListenAddr node) = true → check (ListenAddr node) = health_Check "" →
   runHealthCheck read_config dial check f = ([SERVING], 0)) ∧
  (snd (runHealthCheck read_config dial check f) = 0 →
   dial (ListenAddr node) = true ∧ ∃ st, check (ListenAddr node) = Ret st).
Proof.
  intros Hid Hc Hn. unfold runHealthCheck. apply Z.eqb_neq in Hid. rewrite Hid, Hc, Hn. split.
  - intros -> ->. done.
  - destruct (dial _); [|done]. destruct (check _); [eauto|done..].
Qed.

(** *** smoke *)

Lemma pick_ready bound ck dial : fit bound ck → (∀ i, dial i = true) →
  ∃ ck' id, getClient (dial (pickServer ck)) (pickServer ck) ck = Ret ck' ∧
    servers ck' = servers ck ∧ serverIds ck' = serverIds ck ∧ seqNum ck' = seqNum ck ∧
    index (serverIds ck) (pickServer ck) = Some id.
Proof.
  intros Hf Hd. pose proof (pickServer_range bound ck Hf) as Hr. destruct Hf as [Hs Hi _].
  destruct (index_is_Some (servers ck) (pickServer ck) Hr) as [a Ha].
  destruct (index_is_Some (serverIds ck) (pickServer ck)) as [id Hid]; [lia|].
  unfold getClient. rewrite Ha, Hd. branch; eexists _, id; split_and!; done.
Qed.

Lemma Do_answered dial call op q ck resp bound : fit bound ck → bound ≤ max_int →
  write_request op = Some q → (∀ i, dial 0%nat i = true) → (∀ i, call 0%nat i q = Some resp) →
  WrongLeader resp = false → Success resp = true →
  ∃ ck' tr, Do dial call op ck = (ck', Returned tt, tr) ∧ fit (bound + 1) ck'.
Proof.
  intros Hf Hb Hq Hd Hc Hw Hs.
  destruct (pick_ready bound ck (dial 0%nat) Hf Hd) as (ck1 & id & Hg & E1 & E2 & E3 & Hid).
  assert (∃ n, MaxClerkAttempts = S n) as [n Hn] by (exists 999%nat; reflexivity).
  unfold Do. rewrite Hn. cbn [Do_loop]. rewrite Hn, Nat.sub_diag, Hg. cbn [newSequenceNum].
  match goal with |- context [write_request ?o] =>
    change (write_request o) with (write_request op) end.
  rewrite Hq, Hc, Hw, Hs. cbn [negb].
  unfold remember_leader. rewrite <- E2 in Hid. cbn. rewrite Hid.
  eexists _, _. split; [reflexivity|]. destruct Hf. unfold max_int in Hb.
  split; cbn; rewrite ?E1, ?E2, ?E3; auto. rewrite i64_id by lia. lia.
Qed.

Lemma Get_answered dial call key ck resp bound : fit bound ck →
  (∀ i, dial 0%nat i = true) → (∀ i, call 0%nat i (GetRequest key) = Some resp) →
  WrongLeader resp = false →
  ∃ ck' tr, Get dial call key ck = (ck', Returned (Value resp), tr).
Proof.
  intros Hf Hd Hc Hw. destruct (pick_ready bound ck (dial 0%nat) Hf Hd) as (ck1 & id & Hg & _ & E2 & _ & Hid).
  assert (∃ n, MaxClerkAttempts = S n) as [n Hn] by (exists 999%nat; reflexivity).
  unfold Get. rewrite Hn. cbn [Get_loop]. rewrite Hn, Nat.sub_diag, Hg, Hc, Hw.
  unfold remember_leader. rewrite E2, Hid. by eexists _, _.
Qed.

(** Some server answered request [q], as the leader, with an answer like [ok]. *)
Definition answered (env : environment) (q : kv_request) (ok : Response → Prop) : Prop :=
  ∃ attempt i resp, snd env attempt i q = Some resp ∧ WrongLeader resp = false ∧ ok resp.

Lemma Do_answer (env : environment) op q ck ck' sl : write_request op = Some q →
  Do (fst env) (snd env) op ck = (ck', Returned tt, sl) → answered env q (λ resp, Success resp = true).
Proof.
  unfold Do. intros Hq (q' & a & i & resp & Hq' & _ & ? & ? & ? & _)%Do_loop_answer.
  change (write_request op = Some q') in Hq'.
  assert (q' = q) as -> by congruence. exists a, i, resp. auto.
Qed.

Lemma Get_loop_answer (env : environment) key fuel sleeps ck ck' v sl :
  Get_loop (fst env) (snd env) key fuel sleeps ck = (ck', Returned v, sl) →
  answered env (GetRequest key) (λ resp, Value resp = v).
Proof.
  revert sleeps ck. induction fuel as [|fuel IH]; intros sleeps ck; [done|].
  cbn [Get_loop]. destruct (getClient _ _ ck) as [ck1|e|]; [|by intros ?%IH|done].
  destruct (snd env _ _ _) as [resp|] eqn:He; [|by intros ?%IH].
  destruct (WrongLeader resp) eqn:Hw; [by intros ?%IH|].
  unfold remember_leader. destruct (index _ _); [|done]. intros [= _ <- _]. eexists _, _, resp. eauto.
Qed.

Lemma Get_answer (env : environment) key ck ck' v sl :
  Get (fst env) (snd env) key ck = (ck', Returned v, sl) →
  answered env (GetRequest key) (λ resp, Value resp = v).
Proof. unfold Get. apply Get_loop_answer. Qed.

(** What a successful attempt has seen. *)
Record confirmed (rd : round) : Prop := mkConfirmed {
  cf_put : answered (rdPut rd) (PutRequest smoke_key "hello") (λ resp, Success resp = true);
  cf_append : answered (rdAppend rd) (AppendRequest smoke_key "-world") (λ resp, Success resp = true);
  cf_get : answered (rdGet rd) (GetRequest smoke_key) (λ resp, Value resp = smoke_want)
}.

Lemma tryOnce_confirmed addrs ids rd :
  tryOnce addrs ids (rdRandom rd) (rdPut rd) (rdAppend rd) (rdGet rd) = None → confirmed rd.
Proof.
  unfold tryOnce. destruct (MakeClerk addrs ids _) as [ck|]; [|done].
  destruct (Put _ _ _ _ ck) as [[ck1 [[]| |]] sl] eqn:H1; [|done..].
  destruct (Append _ _ _ _ ck1) as [[ck2 [[]| |]] sl2] eqn:H2; [|done..].
  destruct (Get _ _ _ ck2) as [[ck3 [got| |]] sl3] eqn:H3; [|done..].
  branch; [|done]. intros _. subst got.
  split.
  - exact (Do_answer (rdPut rd) (mkOp OpPut smoke_key "hello" 0 0) _ _ _ _ eq_refl H1).
  - exact (Do_answer (rdAppend rd) (mkOp OpAppend smoke_key "-world" 0 0) _ _ _ _ eq_refl H2).
  - exact (Get_answer _ _ _ _ _ _ H3).
Qed.

(** One attempt of the loop passes. *)
Definition passes (c : ConfigT) (rd : round) : Prop :=
  tryOnce (ListenAddr <$> Nodes c) (ID <$> Nodes c) (rdRandom rd) (rdPut rd) (rdAppend rd) (rdGet rd) = None.

(** Attempt [k] is the first that passes, and the loop gets there: after none of
    the earlier ones did the deadline end the wait. *)
Definition first_pass (c : ConfigT) (rounds : list round) (k : nat) (rd : round) : Prop :=
  rounds !! k = Some rd ∧ passes c rd ∧ Forall (λ rd, ¬ passes c rd ∧ rdDeadline rd = false) (take k rounds).

Lemma smoke_loop_passes c rounds :
  smoke_loop (ListenAddr <$> Nodes c) (ID <$> Nodes c) rounds = Some (Ret tt) ↔
  ∃ k rd, first_pass c rounds k rd.
Proof.
  induction rounds as [|rd rounds IH]; [split; [done|by intros ([] & rd & [=] & _)]|]. cbn [smoke_loop].
  destruct (tryOnce _ _ _ _ _ _) as [err|] eqn:Ht.
  - assert (¬ passes c rd) as Hno by (unfold passes; congruence).
    destruct (rdDeadline rd) eqn:Hd.
    + split; [done|]. intros ([|k] & rd' & Hk & Hp & Hf); [injection Hk as <-; destruct (Hno Hp)|].
      apply Forall_cons in Hf as [[_ Hf] _]. rewrite Hd in Hf. discriminate Hf.
    + rewrite IH. split.
      * intros (k & rd' & Hk & Hp & Hf). exists (S k), rd'. split_and!; [exact Hk|exact Hp|]. constructor; [split; assumption|exact Hf].
      * intros ([|k] & rd' & Hk & Hp & Hf); [injection Hk as <-; destruct (Hno Hp)|].
        apply Forall_cons in Hf as [_ Hf]. exists k, rd'. split_and!; assumption.
  - split; [intros _|reflexivity]. exists 0%nat, rd. split_and!; [reflexivity|exact Ht|constructor].
Qed.

(** C33: The smoke test exits with 0 exactly when the definition loads and one of
    its attempts passes before the deadline has ended the wait after an earlier,
    failed one.  (The deadline does not cut off an attempt that has begun: one
    that outlasts it and passes still counts.)  In the attempt that passes both
    writes were acknowledged by a server that took itself for the leader and a
    read was answered with exactly the expected value. *)
Theorem smoke_success_means read_config path rounds res :
  smoke_run read_config path rounds = Some res →
  (smoke_exit res = 0 ↔ ∃ c k rd, config_Load read_config path = Ret c ∧ first_pass c rounds k rd) ∧
  ∀ c k rd, first_pass c rounds k rd → confirmed rd.
Proof.
  intros Hr. split; [|intros c k rd (_ & Hp & _); by eapply tryOnce_confirmed].
  unfold smoke_run in Hr. destruct (config_Load _ _) as [c|e|].
  - transitivity (res = Ret tt); [by destruct res as [[]|e|]|].
    transitivity (Some res = Some (Ret tt)); [by split; [intros ->|intros [= ->]]|].
    rewrite <- Hr, smoke_loop_passes. split; [intros (k & rd & ?); eauto|].
    intros (c' & k & rd & [= <-] & ?). eauto.
  - injection Hr as <-. split; [done|]. by intros (? & ? & ? & ? & _).
  - injection Hr as <-. split; [done|]. by intros (? & ? & ? & ? & _).
Qed.

(** The operation a handler submits for a request. *)
Definition request_op (q : kv_request) : Op :=
  match q with
  | GetRequest key => mkOp OpGet key "" 0 0
  | PutRequest key value => mkOp OpPut key value 0 0
  | AppendRequest key value => mkOp OpAppend key value 0 0
  end.

(** The servers of a cluster that is up and holds map [m]: whichever is asked
    executes the operation and answers as the handlers do. *)
Definition serving {P} (r : Raft P) (m : gmap string string) : environment :=
  (λ _ _, true, λ _ _ q, Some
    match q with
    | GetRequest _ => Get_end (snd (exec (request_op q) m)) None r
    | PutRequest _ _ => Put_end (snd (exec (request_op q) m)) None r
    | AppendRequest _ _ => Append_end (snd (exec (request_op q) m)) None r
    end).

(** The smoke test passes on a working cluster: if each of its operations
    is answered at the first attempt by a leader that executes it on the
    replicated map, whatever the map held before, the test succeeds. *)
Theorem smoke_passes {P} `{Persister P} addrs ids buf (m : gmap string string) (r : Raft P) :
  addrs ≠ [] → length addrs = length ids →
  let m1 := fst (exec (request_op (PutRequest smoke_key "hello")) m) in
  let m2 := fst (exec (request_op (AppendRequest smoke_key "-world")) m1) in
  tryOnce addrs ids buf (serving r m) (serving r m1) (serving r m2) = None.
Proof.
  intros Ha Hl. cbv zeta.
  assert (0 < len addrs) as Hlen by (destruct addrs; [done|unfold len; cbn; lia]).
  unfold tryOnce, MakeClerk. rewrite (proj2 (Z.eqb_neq _ _)) by lia.
  set (ck := mkClerk _ _ _ _ _ _).
  assert (fit 1 ck) as Hck by (split; cbn; [done|unfold len; lia|lia]).
  set (m1 := fst (exec (request_op (PutRequest _ _)) m)).
  set (m2 := fst (exec (request_op (AppendRequest _ _)) m1)).
  destruct (Do_answered (fst (serving r m)) (snd (serving r m)) (mkOp OpPut smoke_key "hello" 0 0)
    (PutRequest smoke_key "hello") ck (Put_end (mkResult "" None) None r) 1 Hck)
    as (ck1 & tr1 & E1 & Hck1); [done..|].
  destruct (Do_answered (fst (serving r m1)) (snd (serving r m1)) (mkOp OpAppend smoke_key "-world" 0 0)
    (AppendRequest smoke_key "-world") ck1 (Append_end (mkResult "" None) None r) 2 Hck1)
    as (ck2 & tr2 & E2 & Hck2); [done..|].
  assert (m2 !! smoke_key = Some smoke_want) as Hv.
  { unfold m2, m1, exec. cbn [request_op oType oKey oValue].
    change (OpPut =? OpPut) with true. change (OpAppend =? OpPut) with false.
    change (OpAppend =? OpAppend) with true. cbn [fst snd]. by rewrite !lookup_insert_eq. }
  destruct (Get_answered (fst (serving r m2)) (snd (serving r m2)) smoke_key ck2
    (Get_end (mkResult smoke_want None) None r) 3 Hck2) as (ck3 & tr3 & E3); [done| |done|].
  { intros i. unfold serving. cbn [fst snd]. unfold exec. cbn [request_op oType oKey]. change (OpGet =? OpPut) with false.
    change (OpGet =? OpAppend) with false. change (OpGet =? OpGet) with true. by rewrite Hv. }
  unfold Put, Append. rewrite E1, E2, E3. done.
Qed.

(** ** Witnesses *)

Lemma healthcheck_reports_serving_witness :
  runHealthCheck LifecycleWitness.read (λ _, true) (λ _, health_Check "")
    (default_flags <| fId := 3 |>) = ([SERVING], 0).
Proof.
  apply (healthcheck_reports_serving LifecycleWitness.read (λ _, true) (λ _, health_Check "")
    (default_flags <| fId := 3 |>) (resolveDataDirs LifecycleWitness.definition)
    (mkNodeT 3 "localhost:3" "x")); [discriminate|vm_compute; reflexivity..].
Defined.

Lemma smoke_success_means_witness :
  let failing := mkRound [] (λ _ _, false, λ _ _ _, None) (serving NodeWitness.node ∅)
    (serving NodeWitness.node ∅) false in
  let working := mkRound [] (serving NodeWitness.node ∅) (serving NodeWitness.node ∅)
    (serving NodeWitness.node {[smoke_key := smoke_want]}) false in
  smoke_run LifecycleWitness.read "cluster.yaml" [failing; working] = Some (Ret tt) ∧
  ∃ k rd, [failing; working] !! k = Some rd ∧ confirmed rd.
Proof.
  cbv zeta. set (rounds := [_; _]).
  assert (smoke_run LifecycleWitness.read "cluster.yaml" rounds = Some (Ret tt)) as E
    by (vm_compute; reflexivity).
  split; [exact E|].
  destruct (smoke_success_means LifecycleWitness.read "cluster.yaml" rounds (Ret tt) E) as [H1 H2].
  destruct (proj1 H1 eq_refl) as (c & k & rd & _ & Hf). exists k, rd.
  split; [exact (proj1 Hf)|exact (H2 c k rd Hf)].
Defined.

Lemma smoke_passes_witness :
  tryOnce ["a"; "b"] [1; 2] [0; 0; 0; 0; 0; 0; 0; 9] (serving NodeWitness.node {["x" := "y"]})
    (serving NodeWitness.node {["x" := "y"; smoke_key := "hello"]})
    (serving NodeWitness.node {["x" := "y"; smoke_key := smoke_want]}) = None.
Proof.
  exact (smoke_passes ["a"; "b"] [1; 2] [0; 0; 0; 0; 0; 0; 0; 9] {["x" := "y"]} NodeWitness.node
    ltac:(discriminate) eq_refl).
Defined.
